(* ===== verification/_CoqProject ===== *)
-Q . S2P
Prelude.v
Ids.v
Enums.v
Status.v
Bytes.v
Policy.v
Evidence.v
Model.v
Foundations.v
Decisions.v
Serialize.v
Codec.v
Messages.v
Checksum.v
Regions.v
Random.v
Persistence.v
Framing.v
Protocol.v
Wire.v
Transport.v
Network.v
Text.v
Client.v
Files.v
Stores.v
Replay.v
StoreFacts.v
Durability.v
Engine.v
Resolve.v
Core.v
Registry.v
Read.v
Write.v
Invalidate.v
Publish.v
Sync.v
Recovery.v
Auditor.v
Coordinator.v
Render.v
Accelerator.v
Agent.v
Programs.v
Inspector.v
Remote.v
Demo.v
AgentSafety.v
AgentLife.v
Frame.v
Evolution.v
Steps.v
Moves.v
RecoveryFacts.v
System.v
Invariants.v
Scenario.v
Transitions.v
Safety.v
Reading.v
Writing.v
Fencing.v
Sessions.v
SessionRuns.v
Conversation.v
RemoteFacts.v
AgentBytes.v
AgentRuns.v
AgentText.v
AgentScripts.v
ProgramFacts.v
RemoteCommands.v
RemoteRuns.v
ProgramRuns.v
Handlers.v
Publishing.v
Restart.v
Journal.v
Ledger.v
