(* ===== verification/Prelude.v ===== *)
(** * Coherence Fabric: a verification development

    Coherence Fabric is a coordinator for replicated memory.  Participants hold
    replicas (regions) of coherence objects; the coordinator decides who may
    read, who may write, which version of an object is authoritative and which
    replicas hold it, and it makes those decisions durable.  Clients talk to it
    over a framed protocol; agents are clients that hold real memory and move
    its bytes.  This development models the coordinator's engine operation by
    operation, the store under it down to the system calls, the sessions above
    it up to the client, the agents on top of the client, and the programs around
    them, and proves what they promise: exclusion between writers and readers,
    currentness of the replicas it calls current, exactly-once publication,
    fencing, a restart that grants nothing, a store that survives a crash at any
    system call, sessions whose requests cannot be replayed, and agents whose
    bytes arrive and who stay inside their memory.

    ** The program and the files that model it

    Vocabulary.
    - [Ids], [Random]: strong identities and their generation from the random
      source, [src/include/coherence/ids.hpp], [src/src/ids.cpp]; the bounded draw
      of the deterministic generator, [bytes.cpp].
    - [Enums]: every enumeration with its byte values and its name table, the
      legal transitions and the state predicates, [enums.hpp], [enums.cpp].
    - [Status]: status codes, severities and [Result<T>], [status.hpp], [status.cpp].
    - [Bytes]: overflow-checked arithmetic, [bytes.hpp], [bytes.cpp].
    - [Policy], [Evidence]: coherence policies and their validation, evidence
      and its freshness assessment, [policy.*], [evidence.*].
    - [Model], [Decisions]: the records of the engine, its requests, decisions
      and reports, [model.hpp], [decision.hpp], [engine.hpp].

    The engine ([CoherenceEngine]).
    - [Persistence]: the durable image, journal entries and their application,
      scrubbing, and the store interface (class [DurableStore]), [persistence.*].
    - [Engine], [Resolve]: the state [Impl] ([engine_impl.hpp]), journalling,
      decision log, evidence numbering, staleness, read-grant release and
      authority recomputation ([engine_core.cpp]), validation of a request's
      context, replica selection and lease grants ([engine_helpers.cpp]).
    - [Core]: domains, participants, sessions and fencing, [engine_core.cpp].
    - [Registry]: objects, policies, region registration and retirement,
      recovery resolution, snapshots and shutdown, [engine_registry.cpp].
    - [Read], [Write]: [acquire_read], [explain_read], [acquire_write],
      [engine_ops.cpp].
    - [Invalidate]: [mark_dirty], [invalidate], [acknowledge_invalidation],
      [revalidate_region], [engine_ops2.cpp].
    - [Publish], [Sync]: [publish] in its three phases, [release], [begin_sync],
      [complete_sync], [fail_sync], [engine_ops3.cpp].
    - [Recovery], [Auditor]: [attach_store] and [audit], [engine_recovery.cpp].

    Bytes and stores.
    - [Checksum]: CRC-32C and SHA-256, [bytes.cpp].
    - [Serialize], [Codec], [Messages]: [ByteWriter] and [ByteReader]
      ([serialize.*]), the durable records ([codec.cpp], [codec_internal.hpp]),
      requests and decisions ([codec_decisions.cpp]).
    - [Framing]: journal frames and snapshots, [persistence.cpp].
    - [Files]: the POSIX side of [platform_file.cpp] over an operating system
      whose calls follow a script of successes, failures, partial transfers,
      interruptions and the death of the process.
    - [Stores]: [MemoryDurableStore] and [FileDurableStore], [persistence.cpp].

    Wire and sessions.
    - [Protocol]: message types, frames, handshake records, envelope and control
      payloads, [protocol.*], [control_codec.hpp]; receiving, [transport.cpp].
    - [Transport], [Network], [Client]: the bytes of sockets and endpoint text (a
      write to a connection the peer has closed raises SIGPIPE, which marks the
      socket as the one that ended its process), sockets and listeners as owners
      of descriptors, [transport.*]; the control client, [client.*].
    - [Coordinator]: the coordinator's sessions, step by step and with the mutex
      a handshake holds across its engine calls, and the dispatch of requests
      onto the engine, [coordinator.*].
    - [Text], [Render]: what the programs use of strings and conversions; the
      deterministic text of records, decisions and reports, [model.cpp],
      [decision.cpp], [policy.cpp], [evidence.cpp], [engine_recovery.cpp],
      [coordinator.cpp], [persistence.cpp].

    Agents and programs.
    - [Regions]: the bytes behind an agent's regions, [adapters/region_store.*].
    - [Accelerator]: device buffers and the mutation kernel over an interface of
      the vendor's runtime (classes [CudaRuntime], [CudaLaws]),
      [adapters/cuda_memory.*], [adapters/cuda_probe_kernel.cu].
    - [Agent]: the whole agent, its configuration, its joining, its commands and
      its departure, [agent.*].  A command is an action on the process (with the
      notations [let!] and [do!]) that returns a status or makes an undefined access
      to memory; the machine (shared segments, what the random source, the
      allocator and the mapping calls return) is part of the process.
    - [Programs]: [main] of the participant and the coordinator program,
      [apps/coherence_agent.cpp], [apps/coherence_coordinator.cpp].
    - [Inspector], [Demo], [Remote]: the inspection program, its arguments and
      the commands of its embedded mode, its demonstration and [main] of that
      mode, and its remote mode, [apps/coherence_cli.cpp], [apps/cli_embedded.inc],
      [apps/cli_demo.inc], [apps/cli_remote.inc].

    Every operation of the engine holds one mutex throughout, so it is a
    function [Impl St -> Impl St * result T]: the state it leaves, on error
    paths too, and its answer.  [publish] releases the mutex while its pending
    record is appended, so it is three functions.  [System] assembles all of
    them into a transition system in which any operation may run between two
    phases of any number of publications, and a store may be attached at any
    time.  Maps are [gmap]s; where the code iterates a map the model visits the
    keys in the order of [std::map] or of the code's own [sorted_keys].  The
    store is a type [St] with the operations the engine calls, an argument of
    every definition; every theorem about the engine holds for any store, failing
    ones included.

    ** The theorems

    - [Frame], [Evolution], [Steps], [RecoveryFacts], [System], [Invariants]:
      the machinery.  [live_eq] relates states with equal coherence state (a
      setoid with [Proper] instances); [evolves] says how one operation may
      change a record; every operation except the commit of a publication and
      the attachment of a store is shown to be an [evolves] step; the
      invariants follow by induction on the run.
    - [Safety] (C1-C5): invariants of every reachable state and step: an
      exclusive writer excludes readers, a current replica is authoritative,
      versions advance by one and only by a commit, a writer exists exactly in
      the exclusive modes, replicas are well placed; also that retirement is
      permanent and which findings the auditor never reports.
    - [Moves], [Transitions] (C6): which state changes the engine makes.
      [follows] relates two states whose records changed only by given rules, one
      lemma per operation and loop shows that it follows the engine's rules, and
      every step is held against the tables of legal transitions; the changes the
      tables do not declare are listed, and each of them is shown to happen.
    - [Sessions] (C7, C8, C11-C13): the coordinator as a transition system over
      its engine calls and critical sections, any number of connections,
      publications of several connections between their phases.  Every run of it
      is a run of the engine, so all of the above holds of a running coordinator;
      a request acts once, for the operation its body asks for and, where it
      carries authority, for its own session and epoch; what a teardown and the
      admission of a new incarnation take away, and from whom.
    - [Reading] (C9, C10), [Writing] (C14): what the read and write answers
      mean: which reads are served, and what a grant to mutate excludes.
    - [Fencing] (C15): what fencing cuts off.
    - [Handlers] (C16, C17, C23): requests change nothing when what they check
      fails, and which three of them check less than the others;
      acknowledgements, verified synchronization, what a modification needs.
    - [Publishing] (C18, C19): commit, replay and abort of [publish].
    - [Restart] (C20, C21): what a restart restores.
    - [Journal], [Ledger] (C22): over any store, in every state of every run in
      which the store is still marked healthy, the image it has accepted (kept
      beside the store by [Recorded]) is the engine's image and holds every object
      at its authoritative version, so committed versions survive a restart over
      a store that loads what it accepted; both stores of the program do, as long
      as nothing failed and the entries are within the limits of the decoder.
    - [Replay], [StoreFacts], [Durability] (C24-C28): journal frames
      and snapshots load back and nothing else loads, the replay loop ends on
      every input and loads exactly the whole frames, appends are atomic and
      compaction is crash safe whatever the system calls do; [Checksum] (C29,
      C30): CRC-32C and SHA-256 equal their definitions.
    - [Conversation] (C31, C32): client, wire and coordinator together: a client
      is told what the coordinator answered, stays in step with its session and
      starts in step; [Wire] (C39, C40): frames survive any fragmentation, and
      messages are read back (snapshot options without [include_reads]) and,
      apart from queries, have one encoding.
    - [AgentBytes] (C33): what one agent publishes through the staging segment is
      what another has after its transfer, with the fingerprint the first one
      announced; [AgentSafety], [AgentLife] (C34): over segments as long as it was
      told no agent makes an undefined access, whatever its peers write and the
      coordinator answers; [AgentText]
      (C35): an agent reads its object back out of the coordinator's text;
      [AgentScripts]: words of a command, how far a script runs, what a departure
      sends.
    - [RemoteFacts]: the remote mode of the inspection program always ends, and
      sends a hello, one request and a goodbye at most; [RemoteCommands] (C36): at
      a coordinator its commands are the operations they name and it prints what
      was answered; [RemoteRuns]: runs of it.
    - [Network] (C37): descriptors are neither leaked nor closed twice;
      [ProgramFacts] (C38): on a machine that fits its options the participant
      program always ends, by SIGPIPE or with a code after its agent has left;
      [ProgramRuns]: runs of the programs, among them the demonstration, which
      passes its own checks.
    - [Regions]: writes into regions are exact and a certified copy moved the
      bytes;
      [Accelerator]: the kernel computes the host's transform in any order of its
      threads; [Random]: generated identities are nil only without a source,
      bounded draws are unbiased.
    - [Foundations]: enumerations, checked arithmetic, policies and evidence.
    - [Scenario], [SessionRuns] and [AgentRuns] are concrete runs of the engine,
      over a store of decoded records, of the coordinator, and of two agents
      against it, on which the witnesses evaluate.
    - [Restart], [Fencing], [Durability], [Transitions], [SessionRuns], [AgentRuns],
      [AgentText], [RemoteRuns] and [ProgramRuns] also hold behaviours that differ from the
      documentation, as theorems and examples: a durable pending publication that
      recovery drops, a retired replica that is served as current, a modified
      replica that a transfer makes current, a leftover of a crash that a later
      compaction mixes into the snapshot, two handshakes of one participant that
      leave authority with a dead incarnation, a teardown that fences a later one,
      a segment shorter than its mapping, a write that ends the process, names
      that are read as fields, an operator's command that fences a participant.

    ** Bounds and conventions

    A 64-bit integer is an [N]; increments of identities and counters wrap at
    2^64 ([u64_succ]) as the code's do, and no theorem assumes that they do not
    unless its statement says so.  Every loop of the
    engine walks a list or the keys of a map and needs no fuel; the loops over
    system calls and over the journal take as fuel the number of bytes they
    still have to move or read, which the theorems show to be enough because
    every iteration moves at least one.  Theorems about reachable states
    quantify over the images a store may present by a predicate [P] on images;
    where one is needed it is stated in the theorem ([image_ok]: replicas inside
    their object's extent and listed by it).

    The two-agent run of [AgentRuns] is bounded by fuel, ten answers a command,
    which its evaluation shows to be enough; the bounded draw of [Random] has fuel
    and its theorem speaks of draws, not of an end that depends on the generator.

    The coordinator's steps are its engine calls and its critical sections;
    between two of them anything another connection does may happen that does
    not need a mutex held by this one.  A dispatched request is one step, with
    the socket a fence shuts down, except a publication, which is three.

    ** Not modelled

    The prose of a status, decision, finding, answer or report (no branch reads
    it; where it is rendered it is an argument); the Windows side of files,
    sockets and the random source; name resolution and the socket calls (what
    they return is an argument), the accept loop and the joining of threads; what
    the embedded commands of the inspection program print; usage texts and signal
    handling; the vendor's accelerator runtime, which is an interface; benchmarks,
    examples and tests. *)
From stdpp Require Export base gmap sets list strings pretty sorting.
From Stdlib Require Export NArith Lia.

(** ** Record update

    The engine mutates single fields of records that have thirty and more of
    them.  [r <| f := v |>] is [r] with field [f] replaced; the new record is
    computed from the record's [Eta] instance, so a projection of an update
    reduces by [simpl] on a variable record. *)
Class Eta (R : Type) := eta : R → R.
Class Setter {R T : Type} (p : R → T) := modify_field : (T → T) → R → R.

Ltac solve_setter :=
  lazymatch goal with
  | |- @Setter ?R ?T ?p =>
      exact (fun (g : T → T) (r : R) =>
        ltac:(let e := constr:(_ : Eta R) in
              let e' := eval hnf in e in
              let b := eval cbv beta in (e' r) in
              lazymatch b with
              | context C [p r] => let b' := context C [g (p r)] in exact b'
              end))
  end.
#[export] Hint Extern 0 (Setter _) => solve_setter : typeclass_instances.

Declare Scope record_scope.
Notation "r <| f := v |>" := (modify_field (p := f) (fun _ => v) r)
  (at level 12, f at level 8, v at level 200, left associativity,
   format "r  <|  f  :=  v  |>") : record_scope.
Notation "r <| f ::= g |>" := (modify_field (p := f) g r)
  (at level 12, f at level 8, g at level 200, left associativity,
   format "r  <|  f  ::=  g  |>") : record_scope.
#[global] Open Scope record_scope.

(** ** Machine integers

    [std::uint64_t] is an [N]; addition, subtraction and successor wrap at
    [2^64] as the C++ operators do.  A value is in range when [u64_ok]. *)
Definition two64 : N := 18446744073709551616.
Definition u64_max : N := 18446744073709551615.
Definition u64_ok (n : N) : Prop := (n < two64)%N.
Definition u64_add (a b : N) : N := ((a + b) mod two64)%N.
Definition u64_sub (a b : N) : N := ((a + (two64 - b)) mod two64)%N.
Definition u64_succ (a : N) : N := u64_add a 1.

Lemma u64_add_ok a b : u64_ok (u64_add a b).
Proof. unfold u64_ok, u64_add, two64. apply N.mod_lt. lia. Qed.

Lemma u64_add_small a b : (a + b < two64)%N → u64_add a b = (a + b)%N.
Proof. intros. unfold u64_add. by apply N.mod_small. Qed.

Lemma u64_succ_small a : (a < u64_max)%N → u64_succ a = (a + 1)%N.
Proof. intros. apply u64_add_small. unfold u64_max, two64 in *. lia. Qed.

Lemma u64_sub_small a b : (a < two64 → b ≤ a → u64_sub a b = a - b)%N.
Proof.
  intros Ha Hb. unfold u64_sub.
  replace (a + (two64 - b))%N with ((a - b) + 1 * two64)%N by (unfold two64 in *; lia).
  rewrite N.Div0.mod_add. apply N.mod_small. lia.
Qed.

(** ** Deterministic iteration

    [std::map] iterates in ascending key order.  [sorted_keys] is that order
    for a [gmap] whose keys carry a numeric rank. *)
Class Ranked (K : Type) := rank : K → N.

Definition rank_le {K} `{Ranked K} (a b : K) : Prop := (rank a ≤ rank b)%N.
#[export] Instance rank_le_dec {K} `{Ranked K} (a b : K) : Decision (rank_le a b).
Proof. unfold rank_le. apply _. Defined.

Definition sorted_keys {K A} `{Countable K, Ranked K} (m : gmap K A) : list K :=
  merge_sort rank_le (map_to_list m).*1.

Section sorted_keys.
Context {K A : Type} `{Countable K, Ranked K}.
Implicit Types m : gmap K A.

Lemma elem_of_sorted_keys m k : k ∈ sorted_keys m ↔ is_Some (m !! k).
Proof.
  unfold sorted_keys. rewrite merge_sort_Permutation, list_elem_of_fmap. split.
  - intros [[k' v] [-> Hin]]. apply elem_of_map_to_list in Hin. eauto.
  - intros [v Hv]. exists (k, v). split; [done|]. by apply elem_of_map_to_list.
Qed.

Lemma NoDup_sorted_keys m : NoDup (sorted_keys m).
Proof. unfold sorted_keys. rewrite merge_sort_Permutation. apply NoDup_fst_map_to_list. Qed.
End sorted_keys.

(** The values of a map, in that order. *)
Definition map_values {K A} `{Countable K, Ranked K} (m : gmap K A) : list A :=
  omap (m !!.) (sorted_keys m).

Lemma map_values_elem {K A} `{Countable K, Ranked K} (m : gmap K A) x :
  x ∈ map_values m ↔ ∃ k, m !! k = Some x.
Proof.
  unfold map_values. rewrite list_elem_of_omap. split.
  - intros (k & _ & Hk). eauto.
  - intros [k Hk]. exists k. split; [|done]. apply elem_of_sorted_keys. eauto.
Qed.

(** ** Loops over a list of keys

    The engine's loops visit the keys of a map (or a list of identities) and
    rewrite the record stored under each.  [fold_keys f ks m] applies the
    option-valued body [f] to every key that is present; a body that returns
    [None] leaves the record alone. *)
Definition update_key {K A} `{Countable K} (f : A → option A) (m : gmap K A) (k : K) : gmap K A :=
  match m !! k with
  | Some a => match f a with Some a' => <[k := a']> m | None => m end
  | None => m
  end.

Lemma lookup_update_key {K A} `{Countable K} (f : A → option A) (m : gmap K A) k j :
  update_key f m k !! j =
    if decide (k = j) then (λ a, default a (f a)) <$> (m !! j) else m !! j.
Proof.
  unfold update_key. case_decide as Hk; subst.
  - destruct (m !! j) as [a|] eqn:E; simpl; [|done].
    destruct (f a); simpl; [by rewrite lookup_insert_eq | done].
  - destruct (m !! k) as [a|]; [|done]. destruct (f a); [|done].
    by rewrite lookup_insert_ne.
Qed.

(** [std::map::emplace]: an existing entry is kept. *)
Definition emplace {K A} `{Countable K} (k : K) (a : A) (m : gmap K A) : gmap K A :=
  match m !! k with Some _ => m | None => <[k := a]> m end.

Lemma lookup_emplace {K A} `{Countable K} (k j : K) (a : A) (m : gmap K A) :
  emplace k a m !! j = if decide (k = j) then Some (default a (m !! j)) else m !! j.
Proof.
  unfold emplace. case_decide as Hk; subst.
  - destruct (m !! j) eqn:E; simpl; [done | by rewrite lookup_insert_eq].
  - destruct (m !! k); [done | by rewrite lookup_insert_ne].
Qed.

(** A map is rebuilt from its values, each under the key it carries. *)
Lemma emplace_values {K A} `{Countable K, Ranked K} (key : A → K) (m : gmap K A) :
  map_Forall (λ k a, key a = k) m → foldl (λ acc a, emplace (key a) a acc) ∅ (map_values m) = m.
Proof.
  intros Hm. unfold map_values.
  assert (Hl : ∀ ks acc j, foldl (λ acc a, emplace (key a) a acc) acc (omap (m !!.) ks) !! j =
             match acc !! j with Some x => Some x | None => if decide (j ∈ ks) then m !! j else None end).
  { induction ks as [|k ks IH]; intros acc j; cbn [omap list_omap].
    - cbn [foldl]. rewrite decide_False by set_solver. by destruct (acc !! j).
    - destruct (m !! k) as [a|] eqn:Hk; cbn [foldl]; rewrite IH.
      + rewrite (Hm k a Hk), lookup_emplace. destruct (decide (k = j)) as [->|Hne].
        * destruct (acc !! j); simpl; [done|]. by rewrite decide_True by set_solver.
        * destruct (acc !! j); [done|]. by rewrite (decide_ext (j ∈ ks) (j ∈ k :: ks)) by set_solver.
      + destruct (acc !! j); [done|]. destruct (decide (j = k)) as [->|Hne].
        * rewrite Hk. by repeat case_decide.
        * by rewrite (decide_ext (j ∈ ks) (j ∈ k :: ks)) by set_solver. }
  apply map_eq. intros j. rewrite Hl, lookup_empty. case_decide as Hj; [done|].
  rewrite elem_of_sorted_keys in Hj. destruct (m !! j); [|done]. by destruct Hj.
Qed.

Lemma map_values_length {K A} `{Countable K, Ranked K} (m : gmap K A) : length (map_values m) = size m.
Proof.
  unfold map_values. rewrite <-(length_map_to_list m), <-(length_fmap fst).
  rewrite <-(Permutation_length (merge_sort_Permutation rank_le (map_to_list m).*1)). fold (sorted_keys m).
  assert (Hs : Forall (λ k, is_Some (m !! k)) (sorted_keys m)) by (apply Forall_forall; intros k; apply elem_of_sorted_keys).
  induction Hs as [|k ks [a Ha] _ IH]; [done|]. cbn [omap list_omap]. rewrite Ha. simpl. by f_equal.
Qed.

(** The number of entries, as the [std::size_t] that [size()] returns. *)
Definition map_count {K A} `{Countable K} (m : gmap K A) : N := N.of_nat (size m).

(** ** Evolution of maps

    [map_evolves R I m m'] says how a map may change: no key disappears, a
    record that stays moves along [R], and a record that appears satisfies
    [I]. *)
Definition map_evolves {K A} `{Countable K} (R : A → A → Prop) (I : K → A → Prop) (m m' : gmap K A) : Prop :=
  (∀ k a, m !! k = Some a → ∃ a', m' !! k = Some a' ∧ R a a') ∧
  (∀ k a', m !! k = None → m' !! k = Some a' → I k a').

Section map_evolves.
Context {K A : Type} `{Countable K}.
Implicit Types (R : A → A → Prop) (I : K → A → Prop) (m : gmap K A).

Lemma map_evolves_refl R I m : (∀ a, R a a) → map_evolves R I m m.
Proof. intros HR. split; [eauto | by intros k a -> ]. Qed.

Lemma map_evolves_insert R I m k a a' :
  (∀ a, R a a) → m !! k = Some a → R a a' → map_evolves R I m (<[k := a']> m).
Proof.
  intros HR Hk Ha. split.
  - intros j b Hj. destruct (decide (k = j)) as [->|].
    + rewrite lookup_insert_eq. simplify_eq. eauto.
    + rewrite lookup_insert_ne by done. eauto.
  - intros j b Hn. destruct (decide (k = j)) as [->|]; [congruence|].
    rewrite lookup_insert_ne by done. congruence.
Qed.

Lemma map_evolves_new R I m k a :
  (∀ a, R a a) → I k a → map_evolves R I m (emplace k a m).
Proof.
  intros HR Ha. split.
  - intros j b Hj. rewrite lookup_emplace. case_decide; subst; rewrite ?Hj; simpl; eauto.
  - intros j b Hn. rewrite lookup_emplace. case_decide; subst; rewrite Hn; simpl; congruence.
Qed.

(** The composition of two evolutions. *)
Lemma map_evolves_trans R1 R2 R3 I1 I2 I3 m1 m2 m3 :
  (∀ k a b c, m1 !! k = Some a → m2 !! k = Some b → m3 !! k = Some c → R1 a b → R2 b c → R3 a c) →
  (∀ k a b, m2 !! k = Some a → m3 !! k = Some b → I1 k a → R2 a b → I3 k b) →
  (∀ k a, m3 !! k = Some a → I2 k a → I3 k a) →
  map_evolves R1 I1 m1 m2 → map_evolves R2 I2 m2 m3 → map_evolves R3 I3 m1 m3.
Proof.
  intros HR HI1 HI2 [Ha Hb] [Hc Hd]. split.
  - intros k a Hk. destruct (Ha _ _ Hk) as (b & Hb' & ?). destruct (Hc _ _ Hb') as (c & ? & ?). eauto.
  - intros k c Hk Hc'. destruct (m2 !! k) as [b|] eqn:E.
    + destruct (Hc _ _ E) as (c' & ? & ?). simplify_eq. eauto.
    + eauto.
Qed.
End map_evolves.

(** A property every step of a fold keeps, relative to its start. *)
Lemma foldl_preserves {A B} (P : A → A → Prop) (f : A → B → A) (l : list B) (a : A) :
  (∀ a, P a a) → (∀ a b c, P a b → P b c → P a c) → (∀ a x, P a (f a x)) → P a (foldl f a l).
Proof. intros Hr Ht Hf. revert a. induction l as [|x l IH]; intros a; simpl; eauto. Qed.

(** A fold whose body never changes a view of the accumulator. *)
Lemma foldl_frame {A B C} (f : A → B → A) (view : A → C) a l :
  (∀ a x, view (f a x) = view a) → view (foldl f a l) = view a.
Proof. intros Hf. revert a. induction l as [|x l IH]; intros a; simpl; [done|]. by rewrite IH. Qed.

(** A property every step of a fold keeps. *)
Lemma foldl_inv {A B} (P : A → Prop) (f : A → B → A) a l :
  (∀ a x, P a → P (f a x)) → P a → P (foldl f a l).
Proof. intros Hf. revert a. induction l as [|x l IH]; intros a Ha; simpl; auto. Qed.

(** A property of an element that its own step establishes and every step
    keeps holds after the fold, of the elements visited and of those of which
    it held before. *)
Lemma foldl_establishes {A B} `{EqDecision B} (Q : B → A → Prop) (f : A → B → A) a l y :
  (∀ a x, Q x (f a x)) → (∀ a x, Q y a → Q y (f a x)) → y ∈ l ∨ Q y a → Q y (foldl f a l).
Proof.
  intros He Hk. revert a. induction l as [|x l IH]; intros a; simpl; [set_solver|]. rewrite elem_of_cons.
  intros [[->|Hy]|Hq]; apply IH; auto.
Qed.

(** ** Tactics *)

(** Case analysis on every [match] and [if] of the goal or the context. *)
Ltac split_cases := repeat (case_match || case_decide); simplify_eq/=.

(** Split conjunctions of hypotheses. *)
Ltac split_and_hyps := repeat match goal with H : _ ∧ _ |- _ => destruct H end.

Create HintDb coherence.
