(* ===== verification/Ids.v ===== *)
(** * Strongly typed identities ([include/coherence/ids.hpp])

    [StrongId<Tag>] is a [uint64_t] under a phantom tag, [StrongId<Tag, UInt128>]
    a 128-bit identity under one.  The tags make identities of different
    authority domains different Rocq types, as they are different C++ types. *)
From S2P Require Import Prelude.

Inductive IdTag :=
| CoherenceDomainIdTag | ObjectIdTag | ObjectGenerationTag | RegionIdTag
| RegionGenerationTag | ReplicaIdTag | ReplicaGenerationTag | ParticipantIdTag
| CoordinatorEpochTag | OwnershipGenerationTag | VersionIdTag | PublicationIdTag
| InvalidationIdTag | SyncOperationIdTag | LeaseIdTag | PolicyIdTag
| PolicyGenerationTag | EvidenceIdTag | EvidenceGenerationTag | DecisionIdTag
| RequestIdTag | OperationSequenceTag.

Inductive UuidTag := ParticipantBootIdTag | SessionIdTag | ContentDigestTag.

(** [struct UInt128]: the high and the low 64-bit half. *)
Record UInt128 := mkUInt128 { high : N; low : N }.

Record StrongId (t : IdTag) := from_value { value : N }.
Arguments from_value {t} value.
Arguments value {t} _.

Record StrongUuid (t : UuidTag) := from_uuid { uuid : UInt128 }.
Arguments from_uuid {t} uuid.
Arguments uuid {t} _.

#[export] Instance UInt128_eq_dec : EqDecision UInt128.
Proof. solve_decision. Defined.
#[export] Instance StrongId_eq_dec t : EqDecision (StrongId t).
Proof. solve_decision. Defined.
#[export] Instance StrongUuid_eq_dec t : EqDecision (StrongUuid t).
Proof. solve_decision. Defined.
#[export] Instance StrongId_countable t : Countable (StrongId t).
Proof. apply (inj_countable' value from_value). by intros []. Defined.
#[export] Instance UInt128_countable : Countable UInt128.
Proof. by apply (inj_countable' (λ v, (high v, low v)) (λ p, mkUInt128 p.1 p.2)); intros []. Defined.
#[export] Instance StrongUuid_countable t : Countable (StrongUuid t).
Proof. apply (inj_countable' uuid from_uuid). by intros []. Defined.
#[export] Instance StrongId_ranked t : Ranked (StrongId t) := value.

Abbreviation CoherenceDomainId := (StrongId CoherenceDomainIdTag).
Abbreviation ObjectId := (StrongId ObjectIdTag).
Abbreviation ObjectGeneration := (StrongId ObjectGenerationTag).
Abbreviation RegionId := (StrongId RegionIdTag).
Abbreviation RegionGeneration := (StrongId RegionGenerationTag).
Abbreviation ReplicaId := (StrongId ReplicaIdTag).
Abbreviation ReplicaGeneration := (StrongId ReplicaGenerationTag).
Abbreviation ParticipantId := (StrongId ParticipantIdTag).
Abbreviation CoordinatorEpoch := (StrongId CoordinatorEpochTag).
Abbreviation OwnershipGeneration := (StrongId OwnershipGenerationTag).
Abbreviation VersionId := (StrongId VersionIdTag).
Abbreviation PublicationId := (StrongId PublicationIdTag).
Abbreviation InvalidationId := (StrongId InvalidationIdTag).
Abbreviation SyncOperationId := (StrongId SyncOperationIdTag).
Abbreviation LeaseId := (StrongId LeaseIdTag).
Abbreviation PolicyId := (StrongId PolicyIdTag).
Abbreviation PolicyGeneration := (StrongId PolicyGenerationTag).
Abbreviation EvidenceId := (StrongId EvidenceIdTag).
Abbreviation EvidenceGeneration := (StrongId EvidenceGenerationTag).
Abbreviation DecisionId := (StrongId DecisionIdTag).
Abbreviation RequestId := (StrongId RequestIdTag).
Abbreviation OperationSequence := (StrongId OperationSequenceTag).
Abbreviation ParticipantBootId := (StrongUuid ParticipantBootIdTag).
Abbreviation SessionId := (StrongUuid SessionIdTag).
Abbreviation ContentDigest := (StrongUuid ContentDigestTag).

(** [StrongId::nil], [is_nil], [defined], [next] and the order. *)
Definition nil_id {t} : StrongId t := from_value 0.
Definition is_nil {t} (i : StrongId t) : bool := (value i =? 0)%N.
Definition defined {t} (i : StrongId t) : bool := negb (is_nil i).
Definition next {t} (i : StrongId t) : StrongId t := from_value (u64_succ (value i)).
Definition id_lt {t} (a b : StrongId t) : bool := (value a <? value b)%N.
Definition id_le {t} (a b : StrongId t) : bool := negb (id_lt b a).
Definition id_to_string {t} (i : StrongId t) : string := pretty (value i).

(** The 128-bit instances of the same members. *)
Definition is_zero128 (v : UInt128) : bool := (high v =? 0)%N && (low v =? 0)%N.
Definition nil_uuid {t} : StrongUuid t := from_uuid (mkUInt128 0 0).
Definition uuid_is_nil {t} (i : StrongUuid t) : bool := is_zero128 (uuid i).
Definition uuid_defined {t} (i : StrongUuid t) : bool := negb (uuid_is_nil i).
Definition next128 (v : UInt128) : UInt128 :=
  let low' := u64_succ (low v) in
  mkUInt128 (if (low' =? 0)%N then u64_succ (high v) else high v) low'.
Definition uuid_next {t} (i : StrongUuid t) : StrongUuid t := from_uuid (next128 (uuid i)).
Definition uuid_lt {t} (a b : StrongUuid t) : bool :=
  if (high (uuid a) =? high (uuid b))%N then (low (uuid a) <? low (uuid b))%N
  else (high (uuid a) <? high (uuid b))%N.

(** [to_hex]: [%016llx%016llx], lowercase. *)
Definition hex_digit (d : N) : Ascii.ascii := Ascii.ascii_of_N (if (d <? 10)%N then 48 + d else 87 + d).
Fixpoint hex_digits (width : nat) (v : N) : string :=
  match width with
  | O => ""%string
  | S width => (hex_digits width (N.shiftr v 4) ++ String (hex_digit (N.land v 15)) "")%string
  end.
Definition to_hex (v : UInt128) : string := (hex_digits 16 (high v) ++ hex_digits 16 (low v))%string.
Definition uuid_to_string {t} (i : StrongUuid t) : string := to_hex (uuid i).

(** ** Lemmas *)

Lemma id_eq {t} (a b : StrongId t) : value a = value b → a = b.
Proof. destruct a, b; simpl. congruence. Qed.

Lemma value_from_value {t} n : value (@from_value t n) = n.
Proof. done. Qed.

Lemma defined_true {t} (i : StrongId t) : defined i = true ↔ (0 < value i)%N.
Proof. unfold defined, is_nil. destruct (N.eqb_spec (value i) 0); simpl; split; lia || done. Qed.

Lemma defined_false {t} (i : StrongId t) : defined i = false ↔ i = nil_id.
Proof.
  unfold defined, is_nil. destruct (N.eqb_spec (value i) 0); simpl; split; try done.
  - intros _. by apply id_eq.
  - intros ->. done.
Qed.

Lemma nil_not_defined {t} : defined (@nil_id t) = false.
Proof. done. Qed.

Lemma id_lt_spec {t} (a b : StrongId t) : id_lt a b = true ↔ (value a < value b)%N.
Proof. apply N.ltb_lt. Qed.

Lemma id_le_spec {t} (a b : StrongId t) : id_le a b = true ↔ (value a ≤ value b)%N.
Proof. unfold id_le, id_lt. rewrite negb_true_iff, N.ltb_ge. done. Qed.

Lemma next_value {t} (i : StrongId t) :
  (value i < u64_max)%N → value (next i) = (value i + 1)%N.
Proof. intros. simpl. by apply u64_succ_small. Qed.

Lemma next_defined {t} (i : StrongId t) : (value i < u64_max)%N → defined (next i) = true.
Proof. intros. apply defined_true. rewrite next_value; lia. Qed.

Lemma next_ne {t} (i : StrongId t) : (value i < two64)%N → next i ≠ i.
Proof.
  intros Hi Heq. apply (f_equal value) in Heq. simpl in Heq. revert Heq.
  destruct (N.eq_dec (value i) u64_max) as [->|Hne]; [done|].
  rewrite u64_succ_small by (unfold two64, u64_max in *; lia). lia.
Qed.

#[export] Hint Resolve nil_not_defined : coherence.

(** The 128-bit value an identity denotes. *)
Definition value128 (v : UInt128) : N := (high v * two64 + low v)%N.

(** [UInt128] succession carries from the low half into the high half: below
    the maximum, the successor denotes the next number. *)
Lemma next128_value v :
  (high v < two64 → low v < two64 → value128 v + 1 < two64 * two64 →
   value128 (next128 v) = value128 v + 1)%N.
Proof.
  unfold value128, next128. simpl. intros Hh Hl Hmax.
  destruct (N.eq_dec (low v) u64_max) as [E|E].
  - rewrite E. change (u64_succ u64_max) with 0%N. simpl.
    rewrite u64_succ_small; unfold u64_max, two64 in *; lia.
  - rewrite (u64_succ_small (low v)) by (unfold u64_max, two64 in *; lia).
    destruct (N.eqb_spec (low v + 1) 0); lia.
Qed.
