(* ===== verification/Enums.v ===== *)
(** * Enumerations ([include/coherence/enums.hpp], [src/enums.cpp])

    Every [enum class] is a module with the inductive type [t], the underlying
    byte [to_u8] and the name [table] of [enums.cpp].  The generic lookups, the
    validating byte decoder, the transition relations and the state predicates
    follow. *)
From S2P Require Import Prelude.

(** What the generic lookups need of an enumeration: its underlying byte and
    its name table. *)
Class EnumTable (E : Type) := {
  enum_u8 : E → N;
  enum_table : list (E * string) }.

(** What makes the lookups inverse to each other: every member has a table
    entry, no two entries share a member's byte or a token, and a member is one
    byte. *)
Class EnumTableOk (E : Type) `{EnumTable E, EqDecision E} := {
  enum_total : ∀ v : E, v ∈ enum_table.*1;
  enum_u8_inj : ∀ v w : E, enum_u8 v = enum_u8 w → v = w;
  enum_tokens_nodup : NoDup (enum_table (E:=E)).*2;
  enum_u8_byte : ∀ v : E, (enum_u8 v < 256)%N }.

Section lookups.
Context {E : Type} `{EnumTable E, !EqDecision E}.

(** [lookup_token]: the token of the first entry for the value. *)
Definition lookup_token (v : E) : string :=
  match list_find (λ e, e.1 = v) enum_table with
  | Some (_, (_, token)) => token
  | None => "unknown"%string
  end.

(** [lookup_value]: the value of the first entry with the token. *)
Definition lookup_value (token : string) : option E :=
  match list_find (λ e, e.2 = token) enum_table with
  | Some (_, (v, _)) => Some v
  | None => None
  end.

(** [enum_from_u8_impl]: an undeclared byte is rejected. *)
Definition enum_from_u8 (raw : N) : option E :=
  match list_find (λ e, enum_u8 e.1 = raw) enum_table with
  | Some (_, (v, _)) => Some v
  | None => None
  end.
End lookups.

Ltac solve_enum_ok :=
  split; [ intros []; repeat constructor
         | intros [] []; done
         | apply (bool_decide_unpack _); vm_compute; exact I
         | intros []; reflexivity ].

(** [MemoryDomain]. *)
Module MemoryDomain.
Inductive t :=
| Unknown
| HostPageable
| HostPinned
| HostShared
| AcceleratorLocal
| CxlClass
| PersistentMapped
| Remote
| Synthetic.
#[export] Instance eq_dec : EqDecision t.
Proof. solve_decision. Defined.
Definition to_u8 (v : t) : N :=
match v with
| Unknown => 0
| HostPageable => 1
| HostPinned => 2
| HostShared => 3
| AcceleratorLocal => 4
| CxlClass => 5
| PersistentMapped => 6
| Remote => 7
| Synthetic => 8
end%N.
(** The name table of [enums.cpp], in its order. *)
Definition table : list (t * string) :=
[(Unknown, "unknown"%string);
 (HostPageable, "host_pageable"%string);
 (HostPinned, "host_pinned"%string);
 (HostShared, "host_shared"%string);
 (AcceleratorLocal, "accelerator_local"%string);
 (CxlClass, "cxl_class"%string);
 (PersistentMapped, "persistent_mapped"%string);
 (Remote, "remote"%string);
 (Synthetic, "synthetic"%string)].
#[export] Instance enum : EnumTable t := {| enum_u8 := to_u8; enum_table := table |}.
#[export] Instance enum_ok : EnumTableOk t.
Proof. solve_enum_ok. Qed.
End MemoryDomain.

(** [EvidenceClass]. *)
Module EvidenceClass.
Inductive t :=
| Unsupported
| Synthetic
| Real.
#[export] Instance eq_dec : EqDecision t.
Proof. solve_decision. Defined.
Definition to_u8 (v : t) : N :=
match v with
| Unsupported => 0
| Synthetic => 1
| Real => 2
end%N.
(** The name table of [enums.cpp], in its order. *)
Definition table : list (t * string) :=
[(Unsupported, "unsupported"%string);
 (Synthetic, "synthetic"%string);
 (Real, "real"%string)].
#[export] Instance enum : EnumTable t := {| enum_u8 := to_u8; enum_table := table |}.
#[export] Instance enum_ok : EnumTableOk t.
Proof. solve_enum_ok. Qed.
End EvidenceClass.

(** [CoherenceState]. *)
Module CoherenceState.
Inductive t :=
| Unknown
| Invalid
| Stale
| Current
| SyncRequired
| RevalidationRequired
| Dirty
| Fenced
| Retired.
#[export] Instance eq_dec : EqDecision t.
Proof. solve_decision. Defined.
Definition to_u8 (v : t) : N :=
match v with
| Unknown => 0
| Invalid => 1
| Stale => 2
| Current => 3
| SyncRequired => 4
| RevalidationRequired => 5
| Dirty => 6
| Fenced => 7
| Retired => 8
end%N.
(** The name table of [enums.cpp], in its order. *)
Definition table : list (t * string) :=
[(Unknown, "unknown"%string);
 (Invalid, "invalid"%string);
 (Stale, "stale"%string);
 (Current, "current"%string);
 (SyncRequired, "sync_required"%string);
 (RevalidationRequired, "revalidation_required"%string);
 (Dirty, "dirty"%string);
 (Fenced, "fenced"%string);
 (Retired, "retired"%string)].
#[export] Instance enum : EnumTable t := {| enum_u8 := to_u8; enum_table := table |}.
#[export] Instance enum_ok : EnumTableOk t.
Proof. solve_enum_ok. Qed.
End CoherenceState.

(** [ObjectLifecycle]. *)
Module ObjectLifecycle.
Inductive t :=
| Created
| Active
| Quiescing
| RecoveryRequired
| Retired.
#[export] Instance eq_dec : EqDecision t.
Proof. solve_decision. Defined.
Definition to_u8 (v : t) : N :=
match v with
| Created => 0
| Active => 1
| Quiescing => 2
| RecoveryRequired => 3
| Retired => 4
end%N.
(** The name table of [enums.cpp], in its order. *)
Definition table : list (t * string) :=
[(Created, "created"%string);
 (Active, "active"%string);
 (Quiescing, "quiescing"%string);
 (RecoveryRequired, "recovery_required"%string);
 (Retired, "retired"%string)].
#[export] Instance enum : EnumTable t := {| enum_u8 := to_u8; enum_table := table |}.
#[export] Instance enum_ok : EnumTableOk t.
Proof. solve_enum_ok. Qed.
End ObjectLifecycle.

(** [RegionLifecycle]. *)
Module RegionLifecycle.
Inductive t :=
| Registered
| Active
| Quiescing
| Retired.
#[export] Instance eq_dec : EqDecision t.
Proof. solve_decision. Defined.
Definition to_u8 (v : t) : N :=
match v with
| Registered => 0
| Active => 1
| Quiescing => 2
| Retired => 3
end%N.
(** The name table of [enums.cpp], in its order. *)
Definition table : list (t * string) :=
[(Registered, "registered"%string);
 (Active, "active"%string);
 (Quiescing, "quiescing"%string);
 (Retired, "retired"%string)].
#[export] Instance enum : EnumTable t := {| enum_u8 := to_u8; enum_table := table |}.
#[export] Instance enum_ok : EnumTableOk t.
Proof. solve_enum_ok. Qed.
End RegionLifecycle.

(** [ParticipantLifecycle]. *)
(** [Admitted_] is the source's [Admitted], a vernacular keyword here. *)
Module ParticipantLifecycle.
Inductive t :=
| Observed
| Admitted_
| Active
| Degraded
| Fenced
| Retired.
#[export] Instance eq_dec : EqDecision t.
Proof. solve_decision. Defined.
Definition to_u8 (v : t) : N :=
match v with
| Observed => 0
| Admitted_ => 1
| Active => 2
| Degraded => 3
| Fenced => 4
| Retired => 5
end%N.
(** The name table of [enums.cpp], in its order. *)
Definition table : list (t * string) :=
[(Observed, "observed"%string);
 (Admitted_, "admitted"%string);
 (Active, "active"%string);
 (Degraded, "degraded"%string);
 (Fenced, "fenced"%string);
 (Retired, "retired"%string)].
#[export] Instance enum : EnumTable t := {| enum_u8 := to_u8; enum_table := table |}.
#[export] Instance enum_ok : EnumTableOk t.
Proof. solve_enum_ok. Qed.
End ParticipantLifecycle.

(** [DomainLifecycle]. *)
Module DomainLifecycle.
Inductive t :=
| Created
| Active
| Quiescing
| RecoveryRequired
| Retired.
#[export] Instance eq_dec : EqDecision t.
Proof. solve_decision. Defined.
Definition to_u8 (v : t) : N :=
match v with
| Created => 0
| Active => 1
| Quiescing => 2
| RecoveryRequired => 3
| Retired => 4
end%N.
(** The name table of [enums.cpp], in its order. *)
Definition table : list (t * string) :=
[(Created, "created"%string);
 (Active, "active"%string);
 (Quiescing, "quiescing"%string);
 (RecoveryRequired, "recovery_required"%string);
 (Retired, "retired"%string)].
#[export] Instance enum : EnumTable t := {| enum_u8 := to_u8; enum_table := table |}.
#[export] Instance enum_ok : EnumTableOk t.
Proof. solve_enum_ok. Qed.
End DomainLifecycle.

(** [ConsistencyModel]. *)
Module ConsistencyModel.
Inductive t :=
| Unspecified
| Strict
| ReleaseAcquire
| Snapshot
| Eventual.
#[export] Instance eq_dec : EqDecision t.
Proof. solve_decision. Defined.
Definition to_u8 (v : t) : N :=
match v with
| Unspecified => 0
| Strict => 1
| ReleaseAcquire => 2
| Snapshot => 3
| Eventual => 4
end%N.
(** The name table of [enums.cpp], in its order. *)
Definition table : list (t * string) :=
[(Unspecified, "unspecified"%string);
 (Strict, "strict"%string);
 (ReleaseAcquire, "release_acquire"%string);
 (Snapshot, "snapshot"%string);
 (Eventual, "eventual"%string)].
#[export] Instance enum : EnumTable t := {| enum_u8 := to_u8; enum_table := table |}.
#[export] Instance enum_ok : EnumTableOk t.
Proof. solve_enum_ok. Qed.
End ConsistencyModel.

(** [WriteOwnershipMode]. *)
Module WriteOwnershipMode.
Inductive t :=
| Unspecified
| SingleWriterExclusive
| ReadOnlyObject
| MultiWriterUnsupported.
#[export] Instance eq_dec : EqDecision t.
Proof. solve_decision. Defined.
Definition to_u8 (v : t) : N :=
match v with
| Unspecified => 0
| SingleWriterExclusive => 1
| ReadOnlyObject => 2
| MultiWriterUnsupported => 3
end%N.
(** The name table of [enums.cpp], in its order. *)
Definition table : list (t * string) :=
[(Unspecified, "unspecified"%string);
 (SingleWriterExclusive, "single_writer_exclusive"%string);
 (ReadOnlyObject, "read_only_object"%string);
 (MultiWriterUnsupported, "multi_writer_unsupported"%string)].
#[export] Instance enum : EnumTable t := {| enum_u8 := to_u8; enum_table := table |}.
#[export] Instance enum_ok : EnumTableOk t.
Proof. solve_enum_ok. Qed.
End WriteOwnershipMode.

(** [PublicationDurability]. *)
Module PublicationDurability.
Inductive t :=
| Unspecified
| Ephemeral
| DurableMetadata.
#[export] Instance eq_dec : EqDecision t.
Proof. solve_decision. Defined.
Definition to_u8 (v : t) : N :=
match v with
| Unspecified => 0
| Ephemeral => 1
| DurableMetadata => 2
end%N.
(** The name table of [enums.cpp], in its order. *)
Definition table : list (t * string) :=
[(Unspecified, "unspecified"%string);
 (Ephemeral, "ephemeral"%string);
 (DurableMetadata, "durable_metadata"%string)].
#[export] Instance enum : EnumTable t := {| enum_u8 := to_u8; enum_table := table |}.
#[export] Instance enum_ok : EnumTableOk t.
Proof. solve_enum_ok. Qed.
End PublicationDurability.

(** [ConflictBehavior]. *)
Module ConflictBehavior.
Inductive t :=
| Unspecified
| Reject
| InvalidateReaders.
#[export] Instance eq_dec : EqDecision t.
Proof. solve_decision. Defined.
Definition to_u8 (v : t) : N :=
match v with
| Unspecified => 0
| Reject => 1
| InvalidateReaders => 2
end%N.
(** The name table of [enums.cpp], in its order. *)
Definition table : list (t * string) :=
[(Unspecified, "unspecified"%string);
 (Reject, "reject"%string);
 (InvalidateReaders, "invalidate_readers"%string)].
#[export] Instance enum : EnumTable t := {| enum_u8 := to_u8; enum_table := table |}.
#[export] Instance enum_ok : EnumTableOk t.
Proof. solve_enum_ok. Qed.
End ConflictBehavior.

(** [RecoveryPolicy]. *)
Module RecoveryPolicy.
Inductive t :=
| Unspecified
| Conservative
| CompleteDurablePending.
#[export] Instance eq_dec : EqDecision t.
Proof. solve_decision. Defined.
Definition to_u8 (v : t) : N :=
match v with
| Unspecified => 0
| Conservative => 1
| CompleteDurablePending => 2
end%N.
(** The name table of [enums.cpp], in its order. *)
Definition table : list (t * string) :=
[(Unspecified, "unspecified"%string);
 (Conservative, "conservative"%string);
 (CompleteDurablePending, "complete_durable_pending"%string)].
#[export] Instance enum : EnumTable t := {| enum_u8 := to_u8; enum_table := table |}.
#[export] Instance enum_ok : EnumTableOk t.
Proof. solve_enum_ok. Qed.
End RecoveryPolicy.

(** [StaleReadPolicy]. *)
Module StaleReadPolicy.
Inductive t :=
| Unspecified
| Never
| Bounded
| Always.
#[export] Instance eq_dec : EqDecision t.
Proof. solve_decision. Defined.
Definition to_u8 (v : t) : N :=
match v with
| Unspecified => 0
| Never => 1
| Bounded => 2
| Always => 3
end%N.
(** The name table of [enums.cpp], in its order. *)
Definition table : list (t * string) :=
[(Unspecified, "unspecified"%string);
 (Never, "never"%string);
 (Bounded, "bounded"%string);
 (Always, "always"%string)].
#[export] Instance enum : EnumTable t := {| enum_u8 := to_u8; enum_table := table |}.
#[export] Instance enum_ok : EnumTableOk t.
Proof. solve_enum_ok. Qed.
End StaleReadPolicy.

(** [DirtyLossPolicy]. *)
Module DirtyLossPolicy.
Inductive t :=
| Unspecified
| ReportUnknown
| ReportLost
| RequireRecovery.
#[export] Instance eq_dec : EqDecision t.
Proof. solve_decision. Defined.
Definition to_u8 (v : t) : N :=
match v with
| Unspecified => 0
| ReportUnknown => 1
| ReportLost => 2
| RequireRecovery => 3
end%N.
(** The name table of [enums.cpp], in its order. *)
Definition table : list (t * string) :=
[(Unspecified, "unspecified"%string);
 (ReportUnknown, "report_unknown"%string);
 (ReportLost, "report_lost"%string);
 (RequireRecovery, "require_recovery"%string)].
#[export] Instance enum : EnumTable t := {| enum_u8 := to_u8; enum_table := table |}.
#[export] Instance enum_ok : EnumTableOk t.
Proof. solve_enum_ok. Qed.
End DirtyLossPolicy.

(** [ReadOutcome]. *)
Module ReadOutcome.
Inductive t :=
| Unknown
| ReadCurrent
| ReadAfterSync
| ReadStaleAllowed
| ReadBlocked
| Unsupported.
#[export] Instance eq_dec : EqDecision t.
Proof. solve_decision. Defined.
Definition to_u8 (v : t) : N :=
match v with
| Unknown => 0
| ReadCurrent => 1
| ReadAfterSync => 2
| ReadStaleAllowed => 3
| ReadBlocked => 4
| Unsupported => 5
end%N.
(** The name table of [enums.cpp], in its order. *)
Definition table : list (t * string) :=
[(Unknown, "unknown"%string);
 (ReadCurrent, "read_current"%string);
 (ReadAfterSync, "read_after_sync"%string);
 (ReadStaleAllowed, "read_stale_allowed"%string);
 (ReadBlocked, "read_blocked"%string);
 (Unsupported, "unsupported"%string)].
#[export] Instance enum : EnumTable t := {| enum_u8 := to_u8; enum_table := table |}.
#[export] Instance enum_ok : EnumTableOk t.
Proof. solve_enum_ok. Qed.
End ReadOutcome.

(** [AuthorityMode]. *)
Module AuthorityMode.
Inductive t :=
| None
| SharedReaders
| ExclusiveWriter
| TransferPending
| RevalidationRequired.
#[export] Instance eq_dec : EqDecision t.
Proof. solve_decision. Defined.
Definition to_u8 (v : t) : N :=
match v with
| None => 0
| SharedReaders => 1
| ExclusiveWriter => 2
| TransferPending => 3
| RevalidationRequired => 4
end%N.
(** The name table of [enums.cpp], in its order. *)
Definition table : list (t * string) :=
[(None, "none"%string);
 (SharedReaders, "shared_readers"%string);
 (ExclusiveWriter, "exclusive_writer"%string);
 (TransferPending, "transfer_pending"%string);
 (RevalidationRequired, "revalidation_required"%string)].
#[export] Instance enum : EnumTable t := {| enum_u8 := to_u8; enum_table := table |}.
#[export] Instance enum_ok : EnumTableOk t.
Proof. solve_enum_ok. Qed.
End AuthorityMode.

(** [PublicationState]. *)
Module PublicationState.
Inductive t :=
| None
| PendingDurable
| Committed
| Aborted
| RecoveryRequired.
#[export] Instance eq_dec : EqDecision t.
Proof. solve_decision. Defined.
Definition to_u8 (v : t) : N :=
match v with
| None => 0
| PendingDurable => 1
| Committed => 2
| Aborted => 3
| RecoveryRequired => 4
end%N.
(** The name table of [enums.cpp], in its order. *)
Definition table : list (t * string) :=
[(None, "none"%string);
 (PendingDurable, "pending_durable"%string);
 (Committed, "committed"%string);
 (Aborted, "aborted"%string);
 (RecoveryRequired, "recovery_required"%string)].
#[export] Instance enum : EnumTable t := {| enum_u8 := to_u8; enum_table := table |}.
#[export] Instance enum_ok : EnumTableOk t.
Proof. solve_enum_ok. Qed.
End PublicationState.

(** [InvalidationState]. *)
Module InvalidationState.
Inductive t :=
| Requested
| Acknowledged
| Superseded
| Unknown.
#[export] Instance eq_dec : EqDecision t.
Proof. solve_decision. Defined.
Definition to_u8 (v : t) : N :=
match v with
| Requested => 0
| Acknowledged => 1
| Superseded => 2
| Unknown => 3
end%N.
(** The name table of [enums.cpp], in its order. *)
Definition table : list (t * string) :=
[(Requested, "requested"%string);
 (Acknowledged, "acknowledged"%string);
 (Superseded, "superseded"%string);
 (Unknown, "unknown"%string)].
#[export] Instance enum : EnumTable t := {| enum_u8 := to_u8; enum_table := table |}.
#[export] Instance enum_ok : EnumTableOk t.
Proof. solve_enum_ok. Qed.
End InvalidationState.

(** [DirtyCondition]. *)
Module DirtyCondition.
Inductive t :=
| Clean
| DirtyUnpublished
| DirtyPublished
| DirtyLost
| DirtyUnknown.
#[export] Instance eq_dec : EqDecision t.
Proof. solve_decision. Defined.
Definition to_u8 (v : t) : N :=
match v with
| Clean => 0
| DirtyUnpublished => 1
| DirtyPublished => 2
| DirtyLost => 3
| DirtyUnknown => 4
end%N.
(** The name table of [enums.cpp], in its order. *)
Definition table : list (t * string) :=
[(Clean, "clean"%string);
 (DirtyUnpublished, "dirty_unpublished"%string);
 (DirtyPublished, "dirty_published"%string);
 (DirtyLost, "dirty_lost"%string);
 (DirtyUnknown, "dirty_unknown"%string)].
#[export] Instance enum : EnumTable t := {| enum_u8 := to_u8; enum_table := table |}.
#[export] Instance enum_ok : EnumTableOk t.
Proof. solve_enum_ok. Qed.
End DirtyCondition.

(** [SyncOperationKind]. *)
Module SyncOperationKind.
Inductive t :=
| Copy
| Flush
| Invalidate
| Reload
| Publish
| Acquire
| Release
| Revalidate.
#[export] Instance eq_dec : EqDecision t.
Proof. solve_decision. Defined.
Definition to_u8 (v : t) : N :=
match v with
| Copy => 0
| Flush => 1
| Invalidate => 2
| Reload => 3
| Publish => 4
| Acquire => 5
| Release => 6
| Revalidate => 7
end%N.
(** The name table of [enums.cpp], in its order. *)
Definition table : list (t * string) :=
[(Copy, "copy"%string);
 (Flush, "flush"%string);
 (Invalidate, "invalidate"%string);
 (Reload, "reload"%string);
 (Publish, "publish"%string);
 (Acquire, "acquire"%string);
 (Release, "release"%string);
 (Revalidate, "revalidate"%string)].
#[export] Instance enum : EnumTable t := {| enum_u8 := to_u8; enum_table := table |}.
#[export] Instance enum_ok : EnumTableOk t.
Proof. solve_enum_ok. Qed.
End SyncOperationKind.

(** [SyncState]. *)
Module SyncState.
Inductive t :=
| Planned
| Requested
| InProgress
| Completed
| Failed
| OutcomeUnknown
| Cancelled.
#[export] Instance eq_dec : EqDecision t.
Proof. solve_decision. Defined.
Definition to_u8 (v : t) : N :=
match v with
| Planned => 0
| Requested => 1
| InProgress => 2
| Completed => 3
| Failed => 4
| OutcomeUnknown => 5
| Cancelled => 6
end%N.
(** The name table of [enums.cpp], in its order. *)
Definition table : list (t * string) :=
[(Planned, "planned"%string);
 (Requested, "requested"%string);
 (InProgress, "in_progress"%string);
 (Completed, "completed"%string);
 (Failed, "failed"%string);
 (OutcomeUnknown, "outcome_unknown"%string);
 (Cancelled, "cancelled"%string)].
#[export] Instance enum : EnumTable t := {| enum_u8 := to_u8; enum_table := table |}.
#[export] Instance enum_ok : EnumTableOk t.
Proof. solve_enum_ok. Qed.
End SyncState.

(** [DecisionKind]. *)
Module DecisionKind.
Inductive t :=
| DomainCreate
| ParticipantRegister
| ObjectRegister
| RegionRegister
| ReadAcquire
| WriteAcquire
| MarkDirty
| Publish
| Invalidate
| SyncBegin
| SyncComplete
| Release
| Fence
| Recovery
| Audit
| PolicyChange
| RegionRetire
| ObjectRetire
| Shutdown
| Revalidate
| Recover.
#[export] Instance eq_dec : EqDecision t.
Proof. solve_decision. Defined.
Definition to_u8 (v : t) : N :=
match v with
| DomainCreate => 0
| ParticipantRegister => 1
| ObjectRegister => 2
| RegionRegister => 3
| ReadAcquire => 4
| WriteAcquire => 5
| MarkDirty => 6
| Publish => 7
| Invalidate => 8
| SyncBegin => 9
| SyncComplete => 10
| Release => 11
| Fence => 12
| Recovery => 13
| Audit => 14
| PolicyChange => 15
| RegionRetire => 16
| ObjectRetire => 17
| Shutdown => 18
| Revalidate => 19
| Recover => 20
end%N.
(** The name table of [enums.cpp], in its order. *)
Definition table : list (t * string) :=
[(DomainCreate, "domain_create"%string);
 (ParticipantRegister, "participant_register"%string);
 (ObjectRegister, "object_register"%string);
 (RegionRegister, "region_register"%string);
 (ReadAcquire, "read_acquire"%string);
 (WriteAcquire, "write_acquire"%string);
 (MarkDirty, "mark_dirty"%string);
 (Publish, "publish"%string);
 (Invalidate, "invalidate"%string);
 (SyncBegin, "sync_begin"%string);
 (SyncComplete, "sync_complete"%string);
 (Release, "release"%string);
 (Fence, "fence"%string);
 (Recovery, "recovery"%string);
 (Audit, "audit"%string);
 (PolicyChange, "policy_change"%string);
 (RegionRetire, "region_retire"%string);
 (ObjectRetire, "object_retire"%string);
 (Shutdown, "shutdown"%string);
 (Revalidate, "revalidate"%string);
 (Recover, "recover"%string)].
#[export] Instance enum : EnumTable t := {| enum_u8 := to_u8; enum_table := table |}.
#[export] Instance enum_ok : EnumTableOk t.
Proof. solve_enum_ok. Qed.
End DecisionKind.

(** [EvidenceKind]. *)
Module EvidenceKind.
Inductive t :=
| None
| RuntimeObservation
| ByteComparison
| BackendCompletion
| ProcessLifecycle
| ExplicitAck
| PersistedMetadata
| HardwareQuery
| SyntheticFixture.
#[export] Instance eq_dec : EqDecision t.
Proof. solve_decision. Defined.
Definition to_u8 (v : t) : N :=
match v with
| None => 0
| RuntimeObservation => 1
| ByteComparison => 2
| BackendCompletion => 3
| ProcessLifecycle => 4
| ExplicitAck => 5
| PersistedMetadata => 6
| HardwareQuery => 7
| SyntheticFixture => 8
end%N.
(** The name table of [enums.cpp], in its order. *)
Definition table : list (t * string) :=
[(None, "none"%string);
 (RuntimeObservation, "runtime_observation"%string);
 (ByteComparison, "byte_comparison"%string);
 (BackendCompletion, "backend_completion"%string);
 (ProcessLifecycle, "process_lifecycle"%string);
 (ExplicitAck, "explicit_ack"%string);
 (PersistedMetadata, "persisted_metadata"%string);
 (HardwareQuery, "hardware_query"%string);
 (SyntheticFixture, "synthetic_fixture"%string)].
#[export] Instance enum : EnumTable t := {| enum_u8 := to_u8; enum_table := table |}.
#[export] Instance enum_ok : EnumTableOk t.
Proof. solve_enum_ok. Qed.
End EvidenceKind.

Export (hints) MemoryDomain.
Export (hints) EvidenceClass.
Export (hints) CoherenceState.
Export (hints) ObjectLifecycle.
Export (hints) RegionLifecycle.
Export (hints) ParticipantLifecycle.
Export (hints) DomainLifecycle.
Export (hints) ConsistencyModel.
Export (hints) WriteOwnershipMode.
Export (hints) PublicationDurability.
Export (hints) ConflictBehavior.
Export (hints) RecoveryPolicy.
Export (hints) StaleReadPolicy.
Export (hints) DirtyLossPolicy.
Export (hints) ReadOutcome.
Export (hints) AuthorityMode.
Export (hints) PublicationState.
Export (hints) InvalidationState.
Export (hints) DirtyCondition.
Export (hints) SyncOperationKind.
Export (hints) SyncState.
Export (hints) DecisionKind.
Export (hints) EvidenceKind.

(** [is_legal_coherence_transition]. *)
Definition is_legal_coherence_transition (from to : CoherenceState.t) : bool :=
  if decide (from = to) then true else
  match from with
  | CoherenceState.Unknown =>
      match to with CoherenceState.Invalid | CoherenceState.Stale | CoherenceState.Current | CoherenceState.SyncRequired | CoherenceState.RevalidationRequired | CoherenceState.Dirty | CoherenceState.Fenced | CoherenceState.Retired => true | _ => false end
  | CoherenceState.Invalid =>
      match to with CoherenceState.Stale | CoherenceState.Current | CoherenceState.SyncRequired | CoherenceState.RevalidationRequired | CoherenceState.Fenced | CoherenceState.Retired | CoherenceState.Unknown => true | _ => false end
  | CoherenceState.Stale =>
      match to with CoherenceState.Current | CoherenceState.Invalid | CoherenceState.SyncRequired | CoherenceState.RevalidationRequired | CoherenceState.Fenced | CoherenceState.Retired | CoherenceState.Dirty => true | _ => false end
  | CoherenceState.Current =>
      match to with CoherenceState.Stale | CoherenceState.Invalid | CoherenceState.Dirty | CoherenceState.Fenced | CoherenceState.Retired | CoherenceState.RevalidationRequired => true | _ => false end
  | CoherenceState.SyncRequired =>
      match to with CoherenceState.Current | CoherenceState.Stale | CoherenceState.Invalid | CoherenceState.RevalidationRequired | CoherenceState.Fenced | CoherenceState.Retired => true | _ => false end
  | CoherenceState.RevalidationRequired =>
      match to with CoherenceState.Current | CoherenceState.Stale | CoherenceState.Invalid | CoherenceState.SyncRequired | CoherenceState.Fenced | CoherenceState.Retired | CoherenceState.Dirty => true | _ => false end
  | CoherenceState.Dirty =>
      match to with CoherenceState.Current | CoherenceState.Stale | CoherenceState.Invalid | CoherenceState.Fenced | CoherenceState.Retired => true | _ => false end
  | CoherenceState.Fenced =>
      match to with CoherenceState.Retired | CoherenceState.Invalid | CoherenceState.RevalidationRequired => true | _ => false end
  | CoherenceState.Retired => false
  end.

(** [is_legal_object_transition]. *)
Definition is_legal_object_transition (from to : ObjectLifecycle.t) : bool :=
  if decide (from = to) then true else
  match from with
  | ObjectLifecycle.Created =>
      match to with ObjectLifecycle.Active | ObjectLifecycle.Retired => true | _ => false end
  | ObjectLifecycle.Active =>
      match to with ObjectLifecycle.Quiescing | ObjectLifecycle.Retired | ObjectLifecycle.RecoveryRequired => true | _ => false end
  | ObjectLifecycle.Quiescing =>
      match to with ObjectLifecycle.Active | ObjectLifecycle.Retired | ObjectLifecycle.RecoveryRequired => true | _ => false end
  | ObjectLifecycle.RecoveryRequired =>
      match to with ObjectLifecycle.Active | ObjectLifecycle.Retired => true | _ => false end
  | ObjectLifecycle.Retired => false
  end.

(** [is_legal_region_transition]. *)
Definition is_legal_region_transition (from to : RegionLifecycle.t) : bool :=
  if decide (from = to) then true else
  match from with
  | RegionLifecycle.Registered =>
      match to with RegionLifecycle.Active | RegionLifecycle.Retired => true | _ => false end
  | RegionLifecycle.Active =>
      match to with RegionLifecycle.Quiescing | RegionLifecycle.Retired => true | _ => false end
  | RegionLifecycle.Quiescing =>
      match to with RegionLifecycle.Active | RegionLifecycle.Retired => true | _ => false end
  | RegionLifecycle.Retired => false
  end.

(** [is_legal_participant_transition]. *)
Definition is_legal_participant_transition (from to : ParticipantLifecycle.t) : bool :=
  if decide (from = to) then true else
  match from with
  | ParticipantLifecycle.Observed =>
      match to with ParticipantLifecycle.Admitted_ | ParticipantLifecycle.Retired => true | _ => false end
  | ParticipantLifecycle.Admitted_ =>
      match to with ParticipantLifecycle.Active | ParticipantLifecycle.Fenced | ParticipantLifecycle.Retired => true | _ => false end
  | ParticipantLifecycle.Active =>
      match to with ParticipantLifecycle.Degraded | ParticipantLifecycle.Fenced | ParticipantLifecycle.Retired => true | _ => false end
  | ParticipantLifecycle.Degraded =>
      match to with ParticipantLifecycle.Active | ParticipantLifecycle.Fenced | ParticipantLifecycle.Retired => true | _ => false end
  | ParticipantLifecycle.Fenced =>
      match to with ParticipantLifecycle.Retired => true | _ => false end
  | ParticipantLifecycle.Retired => false
  end.

(** [is_legal_domain_transition]. *)
Definition is_legal_domain_transition (from to : DomainLifecycle.t) : bool :=
  if decide (from = to) then true else
  match from with
  | DomainLifecycle.Created =>
      match to with DomainLifecycle.Active | DomainLifecycle.Retired => true | _ => false end
  | DomainLifecycle.Active =>
      match to with DomainLifecycle.Quiescing | DomainLifecycle.RecoveryRequired | DomainLifecycle.Retired => true | _ => false end
  | DomainLifecycle.Quiescing =>
      match to with DomainLifecycle.Active | DomainLifecycle.Retired => true | _ => false end
  | DomainLifecycle.RecoveryRequired =>
      match to with DomainLifecycle.Active | DomainLifecycle.Retired => true | _ => false end
  | DomainLifecycle.Retired => false
  end.

(** [is_legal_sync_transition]. *)
Definition is_legal_sync_transition (from to : SyncState.t) : bool :=
  if decide (from = to) then true else
  match from with
  | SyncState.Planned =>
      match to with SyncState.Requested | SyncState.Cancelled | SyncState.Failed => true | _ => false end
  | SyncState.Requested =>
      match to with SyncState.InProgress | SyncState.Completed | SyncState.Failed | SyncState.Cancelled | SyncState.OutcomeUnknown => true | _ => false end
  | SyncState.InProgress =>
      match to with SyncState.Completed | SyncState.Failed | SyncState.OutcomeUnknown | SyncState.Cancelled => true | _ => false end
  | SyncState.Completed => false
  | SyncState.Failed =>
      match to with SyncState.Requested => true | _ => false end
  | SyncState.OutcomeUnknown =>
      match to with SyncState.Completed | SyncState.Failed | SyncState.Cancelled => true | _ => false end
  | SyncState.Cancelled => false
  end.

(** State predicates. *)
Definition is_writable_state (s : CoherenceState.t) : bool :=
  match s with CoherenceState.Current | CoherenceState.Dirty => true | _ => false end.

Definition is_current_state (s : CoherenceState.t) : bool :=
  match s with CoherenceState.Current => true | _ => false end.

Definition is_readable_state (s : CoherenceState.t) : bool :=
  match s with
  | CoherenceState.Current | CoherenceState.Stale | CoherenceState.Dirty => true
  | _ => false
  end.

Definition is_live_state (s : CoherenceState.t) : bool :=
  match s with
  | CoherenceState.Retired | CoherenceState.Fenced | CoherenceState.Invalid
  | CoherenceState.Unknown => false
  | _ => true
  end.

Definition is_authority_compatible_with_write (s : CoherenceState.t) : bool :=
  is_live_state s && negb (bool_decide (s = CoherenceState.RevalidationRequired)).

(** ** Lemmas *)

Section lookup_lemmas.
Context {E : Type} `{EnumTableOk E}.

Lemma list_find_table (P : E * string → Prop) `{∀ e, Decision (P e)} v tok :
  (v, tok) ∈ enum_table → P (v, tok) →
  (∀ e, e ∈ enum_table → P e → e = (v, tok)) →
  ∃ i, list_find P enum_table = Some (i, (v, tok)).
Proof.
  intros Hin HP Huniq.
  destruct (list_find P enum_table) as [[i e]|] eqn:E1.
  - apply list_find_Some in E1 as (Hi & HPe & _).
    rewrite (Huniq e) by eauto using list_elem_of_lookup_2. eauto.
  - apply list_find_None in E1. rewrite Forall_forall in E1. by destruct (E1 _ Hin).
Qed.

(** Members of the table with the same token are the same entry. *)
Lemma table_token_inj (e1 e2 : E * string) :
  e1 ∈ enum_table → e2 ∈ enum_table → e1.2 = e2.2 → e1 = e2.
Proof.
  intros H1 H2 Heq.
  apply list_elem_of_lookup in H1 as [i Hi], H2 as [j Hj].
  assert (i = j) as ->.
  { pose proof (enum_tokens_nodup (E:=E)) as HN. rewrite NoDup_alt in HN.
    apply (HN i j e1.2); rewrite list_lookup_fmap; [by rewrite Hi | rewrite Hj; simpl; by rewrite Heq]. }
  congruence.
Qed.

Lemma lookup_token_spec (v : E) : (v, lookup_token v) ∈ enum_table.
Proof.
  pose proof (enum_total v) as Hin. apply list_elem_of_fmap in Hin as [[w tok] [? Hin]].
  simpl in *; subst w. unfold lookup_token.
  destruct (list_find _ _) as [[i [w t]]|] eqn:E1.
  - apply list_find_Some in E1 as (Hi & Hw & _). simpl in Hw. subst.
    by eapply list_elem_of_lookup_2.
  - apply list_find_None in E1. rewrite Forall_forall in E1. by destruct (E1 _ Hin).
Qed.

(** Parsing the token of a value gives the value back. *)
Lemma lookup_value_token (v : E) : lookup_value (lookup_token v) = Some v.
Proof.
  unfold lookup_value.
  destruct (list_find_table (λ e, e.2 = lookup_token v) v (lookup_token v)) as [i ->]; try done.
  - apply lookup_token_spec.
  - intros e He Htok. apply table_token_inj; auto using lookup_token_spec.
Qed.

(** Only a declared token parses, and it parses to the value it names. *)
Lemma lookup_value_Some (tok : string) (v : E) :
  lookup_value tok = Some v → (v, tok) ∈ enum_table.
Proof.
  unfold lookup_value. destruct (list_find _ _) as [[i [w t]]|] eqn:E1; [|done].
  intros [= ->]. apply list_find_Some in E1 as (Hi & Ht & _). simpl in Ht. subst.
  by eapply list_elem_of_lookup_2.
Qed.

(** The byte decoder accepts exactly the declared bytes. *)
Lemma enum_from_u8_spec (raw : N) (v : E) :
  enum_from_u8 raw = Some v ↔ raw = enum_u8 v.
Proof.
  unfold enum_from_u8. split.
  - destruct (list_find _ _) as [[i [w t]]|] eqn:E1; [|done].
    intros [= ->]. by apply list_find_Some in E1 as (_ & <- & _).
  - intros ->. pose proof (enum_total v) as Hin.
    apply list_elem_of_fmap in Hin as [[w tok] [? Hin]]. simpl in *; subst w.
    destruct (list_find _ _) as [[i [w t]]|] eqn:E1.
    + apply list_find_Some in E1 as (_ & Hw & _). simpl in Hw. by rewrite (enum_u8_inj _ _ Hw).
    + apply list_find_None in E1. rewrite Forall_forall in E1. by destruct (E1 _ Hin).
Qed.
End lookup_lemmas.

(** Retirement is terminal in every lifecycle that has it. *)
Lemma retired_coherence_terminal to :
  is_legal_coherence_transition CoherenceState.Retired to = true → to = CoherenceState.Retired.
Proof. by destruct to. Qed.

(** A writable replica state is live, and only [Current] is current. *)
Lemma writable_live s : is_writable_state s = true → is_live_state s = true.
Proof. by destruct s. Qed.

Lemma is_current_state_spec s : is_current_state s = true ↔ s = CoherenceState.Current.
Proof. by destruct s. Qed.

#[export] Hint Resolve retired_coherence_terminal writable_live : coherence.
