(* ===== verification/Status.v ===== *)
(** * Status codes and results ([include/coherence/status.hpp], [src/status.cpp])

    A [Status] is modelled by its machine-readable code: the message and the
    detail are prose that no branch of the program reads.  [result A] is
    [Result<T>]: a value or a failure code. *)
From S2P Require Import Prelude.

(** [StatusCode]. *)
Module StatusCode.
Inductive t :=
| Ok
| InvalidArgument
| InvalidState
| InvalidTransition
| Unsupported
| CapacityExceeded
| ResourceExhausted
| DuplicateIdentity
| UnknownDomain
| UnknownObject
| UnknownRegion
| UnknownParticipant
| UnknownPolicy
| UnknownPublication
| UnknownInvalidation
| UnknownSyncOperation
| UnknownRequest
| StaleEpoch
| StaleBoot
| StaleObjectGeneration
| StaleRegionGeneration
| StaleReplicaGeneration
| StaleOwnership
| StalePolicy
| StalePublication
| StaleInvalidation
| StaleSyncOperation
| StaleSession
| ReplayedRequest
| NotAuthoritative
| ReadNotCurrent
| WriteConflict
| ExclusiveWriterConflict
| NotWriteAuthorized
| Fenced
| Retired
| SyncRequired
| RevalidationRequired
| InvalidationOutstanding
| EvidenceMissing
| EvidenceStale
| DirtyUnpublished
| DirtyLost
| RecoveryRequired
| Quiescing
| ShuttingDown
| OutcomeUnknown
| ContentMismatch
| IntegrityFailure
| CorruptionDetected
| TruncatedInput
| TrailingGarbage
| OversizedInput
| ProtocolViolation
| UnsupportedSchema
| PersistenceFailure
| TransportFailure
| ConnectionClosed
| Timeout
| InternalInvariantViolation
| InternalError.
#[export] Instance eq_dec : EqDecision t.
Proof. solve_decision. Defined.
Definition to_u16 (c : t) : N :=
match c with
| Ok => 0
| InvalidArgument => 1
| InvalidState => 2
| InvalidTransition => 3
| Unsupported => 4
| CapacityExceeded => 5
| ResourceExhausted => 6
| DuplicateIdentity => 7
| UnknownDomain => 20
| UnknownObject => 21
| UnknownRegion => 22
| UnknownParticipant => 23
| UnknownPolicy => 24
| UnknownPublication => 25
| UnknownInvalidation => 26
| UnknownSyncOperation => 27
| UnknownRequest => 28
| StaleEpoch => 40
| StaleBoot => 41
| StaleObjectGeneration => 42
| StaleRegionGeneration => 43
| StaleReplicaGeneration => 44
| StaleOwnership => 45
| StalePolicy => 46
| StalePublication => 47
| StaleInvalidation => 48
| StaleSyncOperation => 49
| StaleSession => 50
| ReplayedRequest => 51
| NotAuthoritative => 60
| ReadNotCurrent => 61
| WriteConflict => 62
| ExclusiveWriterConflict => 63
| NotWriteAuthorized => 64
| Fenced => 65
| Retired => 66
| SyncRequired => 80
| RevalidationRequired => 81
| InvalidationOutstanding => 82
| EvidenceMissing => 83
| EvidenceStale => 84
| DirtyUnpublished => 85
| DirtyLost => 86
| RecoveryRequired => 87
| Quiescing => 88
| ShuttingDown => 89
| OutcomeUnknown => 100
| ContentMismatch => 101
| IntegrityFailure => 120
| CorruptionDetected => 121
| TruncatedInput => 122
| TrailingGarbage => 123
| OversizedInput => 124
| ProtocolViolation => 125
| UnsupportedSchema => 126
| PersistenceFailure => 127
| TransportFailure => 128
| ConnectionClosed => 129
| Timeout => 130
| InternalInvariantViolation => 140
| InternalError => 141
end%N.
End StatusCode.
Export (hints) StatusCode.

(** [StatusSeverity]. *)
Module StatusSeverity.
Inductive t := Success | Transient | Conflict | Permanent | Integrity | Internal.
End StatusSeverity.

(** The table [kCodes]: stable name and severity of every code. *)
Definition kCodes (c : StatusCode.t) : string * StatusSeverity.t :=
  match c with
  | StatusCode.Ok => ("ok"%string, StatusSeverity.Success)
  | StatusCode.InvalidArgument => ("invalid_argument"%string, StatusSeverity.Permanent)
  | StatusCode.InvalidState => ("invalid_state"%string, StatusSeverity.Conflict)
  | StatusCode.InvalidTransition => ("invalid_transition"%string, StatusSeverity.Conflict)
  | StatusCode.Unsupported => ("unsupported"%string, StatusSeverity.Permanent)
  | StatusCode.CapacityExceeded => ("capacity_exceeded"%string, StatusSeverity.Permanent)
  | StatusCode.ResourceExhausted => ("resource_exhausted"%string, StatusSeverity.Transient)
  | StatusCode.DuplicateIdentity => ("duplicate_identity"%string, StatusSeverity.Conflict)
  | StatusCode.UnknownDomain => ("unknown_domain"%string, StatusSeverity.Permanent)
  | StatusCode.UnknownObject => ("unknown_object"%string, StatusSeverity.Permanent)
  | StatusCode.UnknownRegion => ("unknown_region"%string, StatusSeverity.Permanent)
  | StatusCode.UnknownParticipant => ("unknown_participant"%string, StatusSeverity.Permanent)
  | StatusCode.UnknownPolicy => ("unknown_policy"%string, StatusSeverity.Permanent)
  | StatusCode.UnknownPublication => ("unknown_publication"%string, StatusSeverity.Permanent)
  | StatusCode.UnknownInvalidation => ("unknown_invalidation"%string, StatusSeverity.Permanent)
  | StatusCode.UnknownSyncOperation => ("unknown_sync_operation"%string, StatusSeverity.Permanent)
  | StatusCode.UnknownRequest => ("unknown_request"%string, StatusSeverity.Permanent)
  | StatusCode.StaleEpoch => ("stale_epoch"%string, StatusSeverity.Transient)
  | StatusCode.StaleBoot => ("stale_boot"%string, StatusSeverity.Transient)
  | StatusCode.StaleObjectGeneration => ("stale_object_generation"%string, StatusSeverity.Transient)
  | StatusCode.StaleRegionGeneration => ("stale_region_generation"%string, StatusSeverity.Transient)
  | StatusCode.StaleReplicaGeneration => ("stale_replica_generation"%string, StatusSeverity.Transient)
  | StatusCode.StaleOwnership => ("stale_ownership"%string, StatusSeverity.Transient)
  | StatusCode.StalePolicy => ("stale_policy"%string, StatusSeverity.Transient)
  | StatusCode.StalePublication => ("stale_publication"%string, StatusSeverity.Transient)
  | StatusCode.StaleInvalidation => ("stale_invalidation"%string, StatusSeverity.Transient)
  | StatusCode.StaleSyncOperation => ("stale_sync_operation"%string, StatusSeverity.Transient)
  | StatusCode.StaleSession => ("stale_session"%string, StatusSeverity.Transient)
  | StatusCode.ReplayedRequest => ("replayed_request"%string, StatusSeverity.Conflict)
  | StatusCode.NotAuthoritative => ("not_authoritative"%string, StatusSeverity.Conflict)
  | StatusCode.ReadNotCurrent => ("read_not_current"%string, StatusSeverity.Conflict)
  | StatusCode.WriteConflict => ("write_conflict"%string, StatusSeverity.Conflict)
  | StatusCode.ExclusiveWriterConflict => ("exclusive_writer_conflict"%string, StatusSeverity.Conflict)
  | StatusCode.NotWriteAuthorized => ("not_write_authorized"%string, StatusSeverity.Conflict)
  | StatusCode.Fenced => ("fenced"%string, StatusSeverity.Conflict)
  | StatusCode.Retired => ("retired"%string, StatusSeverity.Permanent)
  | StatusCode.SyncRequired => ("sync_required"%string, StatusSeverity.Conflict)
  | StatusCode.RevalidationRequired => ("revalidation_required"%string, StatusSeverity.Conflict)
  | StatusCode.InvalidationOutstanding => ("invalidation_outstanding"%string, StatusSeverity.Conflict)
  | StatusCode.EvidenceMissing => ("evidence_missing"%string, StatusSeverity.Conflict)
  | StatusCode.EvidenceStale => ("evidence_stale"%string, StatusSeverity.Conflict)
  | StatusCode.DirtyUnpublished => ("dirty_unpublished"%string, StatusSeverity.Conflict)
  | StatusCode.DirtyLost => ("dirty_lost"%string, StatusSeverity.Conflict)
  | StatusCode.RecoveryRequired => ("recovery_required"%string, StatusSeverity.Conflict)
  | StatusCode.Quiescing => ("quiescing"%string, StatusSeverity.Transient)
  | StatusCode.ShuttingDown => ("shutting_down"%string, StatusSeverity.Transient)
  | StatusCode.OutcomeUnknown => ("outcome_unknown"%string, StatusSeverity.Transient)
  | StatusCode.ContentMismatch => ("content_mismatch"%string, StatusSeverity.Conflict)
  | StatusCode.IntegrityFailure => ("integrity_failure"%string, StatusSeverity.Integrity)
  | StatusCode.CorruptionDetected => ("corruption_detected"%string, StatusSeverity.Integrity)
  | StatusCode.TruncatedInput => ("truncated_input"%string, StatusSeverity.Integrity)
  | StatusCode.TrailingGarbage => ("trailing_garbage"%string, StatusSeverity.Integrity)
  | StatusCode.OversizedInput => ("oversized_input"%string, StatusSeverity.Permanent)
  | StatusCode.ProtocolViolation => ("protocol_violation"%string, StatusSeverity.Integrity)
  | StatusCode.UnsupportedSchema => ("unsupported_schema"%string, StatusSeverity.Permanent)
  | StatusCode.PersistenceFailure => ("persistence_failure"%string, StatusSeverity.Integrity)
  | StatusCode.TransportFailure => ("transport_failure"%string, StatusSeverity.Transient)
  | StatusCode.ConnectionClosed => ("connection_closed"%string, StatusSeverity.Transient)
  | StatusCode.Timeout => ("timeout"%string, StatusSeverity.Transient)
  | StatusCode.InternalInvariantViolation => ("internal_invariant_violation"%string, StatusSeverity.Internal)
  | StatusCode.InternalError => ("internal_error"%string, StatusSeverity.Internal)
  end.

Definition status_code_name (c : StatusCode.t) : string := (kCodes c).1.
Definition status_severity (c : StatusCode.t) : StatusSeverity.t := (kCodes c).2.

(** [is_stale_code]. *)
Definition is_stale_code (c : StatusCode.t) : bool :=
  match c with
  | StatusCode.StaleEpoch | StatusCode.StaleBoot | StatusCode.StaleObjectGeneration
  | StatusCode.StaleRegionGeneration | StatusCode.StaleReplicaGeneration
  | StatusCode.StaleOwnership | StatusCode.StalePolicy | StatusCode.StalePublication
  | StatusCode.StaleInvalidation | StatusCode.StaleSyncOperation
  | StatusCode.StaleSession => true
  | _ => false
  end.

(** [Status::ok]. *)
Definition ok (c : StatusCode.t) : bool :=
  match c with StatusCode.Ok => true | _ => false end.

(** [Result<T>]. *)
Inductive result (A : Type) :=
| success (a : A)
| failure (c : StatusCode.t).
Arguments success {A} a.
Arguments failure {A} c.

(** [Result::has_value]. *)
Definition has_value {A} (r : result A) : bool :=
  match r with success _ => true | failure _ => false end.

Lemma ok_spec c : ok c = true ↔ c = StatusCode.Ok.
Proof. by destruct c. Qed.

Lemma not_ok_spec c : ok c = false ↔ c ≠ StatusCode.Ok.
Proof. by destruct c. Qed.

(** Success is the only code of severity [Success], so a caller that fails
    closed on severity never mistakes a failure for a success. *)
Lemma severity_success c : status_severity c = StatusSeverity.Success ↔ c = StatusCode.Ok.
Proof. by destruct c. Qed.
