(* ===== verification/Bytes.v ===== *)
(** * Overflow-checked arithmetic ([include/coherence/bytes.hpp], [src/bytes.cpp]) *)
From S2P Require Import Prelude.

(** [checked_add]: the sum, or nothing on unsigned overflow. *)
Definition checked_add (a b : N) : option N :=
  if (u64_sub u64_max b <? a)%N then None else Some (u64_add a b).

(** [checked_mul]: the product, or nothing on unsigned overflow. *)
Definition checked_mul (a b : N) : option N :=
  if negb (a =? 0)%N && (u64_max / a <? b)%N then None else Some ((a * b) mod two64)%N.

(** [checked_range]: the half-open range lies inside the extent. *)
Definition checked_range (offset length extent : N) : bool :=
  match checked_add offset length with
  | None => false
  | Some e => (e <=? extent)%N
  end.

(** On 64-bit operands, [checked_add] is the mathematical sum exactly when
    that sum fits. *)
Lemma checked_add_spec a b :
  u64_ok a → u64_ok b →
  checked_add a b = if decide (a + b < two64)%N then Some (a + b)%N else None.
Proof.
  unfold checked_add, u64_ok. intros Ha Hb.
  rewrite u64_sub_small by (unfold u64_max, two64 in *; lia).
  destruct (N.ltb_spec (u64_max - b) a); case_decide; try done;
    unfold u64_max, two64 in *; try lia.
  f_equal. apply u64_add_small. done.
Qed.

(** On 64-bit operands, [checked_mul] is the mathematical product exactly when
    that product fits. *)
Lemma checked_mul_spec a b :
  u64_ok a → u64_ok b →
  checked_mul a b = if decide (a * b < two64)%N then Some (a * b)%N else None.
Proof.
  unfold checked_mul, u64_ok. intros Ha Hb.
  destruct (N.eqb_spec a 0) as [->|Hne]; simpl.
  { done. }
  pose proof (N.div_mod u64_max a Hne) as Hdm.
  pose proof (N.mod_lt u64_max a Hne) as Hlt.
  assert (u64_max + 1 = two64)%N as Hmax by done. clear Ha Hb.
  generalize dependent (u64_max mod a)%N. generalize dependent (u64_max / a)%N.
  intros q r Hdm Hlt. destruct (N.ltb_spec q b); case_decide as Hd; try done.
  - exfalso. assert (a * (q + 1) ≤ a * b)%N by (apply N.mul_le_mono_l; lia). lia.
  - by rewrite N.mod_small.
  - exfalso. assert (a * b ≤ a * q)%N by (apply N.mul_le_mono_l; lia). lia.
Qed.

(** [checked_range] decides containment without being fooled by wrap-around:
    a range that overflows 64 bits is outside every extent. *)
Lemma checked_range_spec offset length extent :
  u64_ok offset → u64_ok length → u64_ok extent →
  checked_range offset length extent = true ↔ (offset + length ≤ extent)%N.
Proof.
  intros. unfold checked_range. rewrite checked_add_spec by done.
  unfold u64_ok in *. case_decide; rewrite ?N.leb_le; split; lia || done.
Qed.
