(* ===== verification/Policy.v ===== *)
(** * Coherence policy ([include/coherence/policy.hpp], [src/policy.cpp]) *)
From S2P Require Import Prelude Ids Enums Status.

#[local] Set Primitive Projections.

(** [CoherencePolicy]. *)
Record CoherencePolicy := mkCoherencePolicy {
  pol_id : PolicyId;
  pol_generation : PolicyGeneration;
  pol_name : string;
  pol_consistency : ConsistencyModel.t;
  pol_write_ownership : WriteOwnershipMode.t;
  pol_publication_durability : PublicationDurability.t;
  pol_conflict_behavior : ConflictBehavior.t;
  pol_recovery_policy : RecoveryPolicy.t;
  pol_stale_read_policy : StaleReadPolicy.t;
  pol_dirty_loss_policy : DirtyLossPolicy.t;
  pol_stale_read_bound_versions : N;
  pol_evidence_max_age_operations : N;
  pol_require_invalidation_acks_before_publication : bool;
  pol_require_sync_completion_for_currentness : bool;
  pol_allowed_domains_mask : N;
  pol_require_content_fingerprint : bool }.
#[export] Instance eta_CoherencePolicy : Eta CoherencePolicy := fun x => mkCoherencePolicy
  (pol_id x) (pol_generation x) (pol_name x) (pol_consistency x) (pol_write_ownership x)
  (pol_publication_durability x) (pol_conflict_behavior x) (pol_recovery_policy x)
  (pol_stale_read_policy x) (pol_dirty_loss_policy x) (pol_stale_read_bound_versions x)
  (pol_evidence_max_age_operations x) (pol_require_invalidation_acks_before_publication x)
  (pol_require_sync_completion_for_currentness x) (pol_allowed_domains_mask x)
  (pol_require_content_fingerprint x).
Definition default_CoherencePolicy : CoherencePolicy := {|
  pol_id := nil_id;
  pol_generation := nil_id;
  pol_name := ""%string;
  pol_consistency := ConsistencyModel.Unspecified;
  pol_write_ownership := WriteOwnershipMode.Unspecified;
  pol_publication_durability := PublicationDurability.Unspecified;
  pol_conflict_behavior := ConflictBehavior.Unspecified;
  pol_recovery_policy := RecoveryPolicy.Unspecified;
  pol_stale_read_policy := StaleReadPolicy.Unspecified;
  pol_dirty_loss_policy := DirtyLossPolicy.Unspecified;
  pol_stale_read_bound_versions := 0;
  pol_evidence_max_age_operations := 0;
  pol_require_invalidation_acks_before_publication := true;
  pol_require_sync_completion_for_currentness := true;
  pol_allowed_domains_mask := 4294967295;
  pol_require_content_fingerprint := true |}%N.

(** [CoherencePolicy::allows_domain]. *)
Definition allows_domain (p : CoherencePolicy) (d : MemoryDomain.t) : bool :=
  negb (N.land (pol_allowed_domains_mask p) (N.shiftl 1 (MemoryDomain.to_u8 d)) =? 0)%N.

(** [validate]: the first rule the policy breaks, in the order of the code. *)
Definition validate (p : CoherencePolicy) : StatusCode.t :=
  if decide (pol_consistency p = ConsistencyModel.Unspecified) then StatusCode.InvalidArgument else
  if decide (pol_write_ownership p = WriteOwnershipMode.Unspecified) then StatusCode.InvalidArgument else
  if decide (pol_publication_durability p = PublicationDurability.Unspecified) then StatusCode.InvalidArgument else
  if decide (pol_conflict_behavior p = ConflictBehavior.Unspecified) then StatusCode.InvalidArgument else
  if decide (pol_recovery_policy p = RecoveryPolicy.Unspecified) then StatusCode.InvalidArgument else
  if decide (pol_stale_read_policy p = StaleReadPolicy.Unspecified) then StatusCode.InvalidArgument else
  if decide (pol_dirty_loss_policy p = DirtyLossPolicy.Unspecified) then StatusCode.InvalidArgument else
  if decide (pol_write_ownership p = WriteOwnershipMode.MultiWriterUnsupported) then StatusCode.Unsupported else
  if decide (pol_stale_read_policy p = StaleReadPolicy.Bounded ∧ pol_stale_read_bound_versions p = 0%N)
    then StatusCode.InvalidArgument else
  if decide (pol_stale_read_policy p = StaleReadPolicy.Never ∧ pol_consistency p = ConsistencyModel.Eventual)
    then StatusCode.InvalidArgument else
  if decide (pol_allowed_domains_mask p = 0%N) then StatusCode.InvalidArgument else
  if decide (pol_consistency p = ConsistencyModel.Strict ∧ pol_stale_read_policy p ≠ StaleReadPolicy.Never)
    then StatusCode.InvalidArgument else
  if decide (pol_require_content_fingerprint p = false ∧
             pol_publication_durability p = PublicationDurability.DurableMetadata ∧
             pol_consistency p = ConsistencyModel.Strict)
    then StatusCode.InvalidArgument else
  StatusCode.Ok.

(** [validate_policy] wraps the code in a [Status]. *)
Definition validate_policy (p : CoherencePolicy) : StatusCode.t := validate p.

Definition strict_policy (name : string) : CoherencePolicy :=
  default_CoherencePolicy
    <| pol_name := name |>
    <| pol_consistency := ConsistencyModel.Strict |>
    <| pol_write_ownership := WriteOwnershipMode.SingleWriterExclusive |>
    <| pol_publication_durability := PublicationDurability.DurableMetadata |>
    <| pol_conflict_behavior := ConflictBehavior.InvalidateReaders |>
    <| pol_recovery_policy := RecoveryPolicy.CompleteDurablePending |>
    <| pol_stale_read_policy := StaleReadPolicy.Never |>
    <| pol_stale_read_bound_versions := 0%N |>
    <| pol_dirty_loss_policy := DirtyLossPolicy.RequireRecovery |>
    <| pol_evidence_max_age_operations := 0%N |>
    <| pol_require_invalidation_acks_before_publication := true |>
    <| pol_require_sync_completion_for_currentness := true |>
    <| pol_require_content_fingerprint := true |>
    <| pol_allowed_domains_mask := 0xFFFFFFFF%N |>.

Definition release_acquire_policy (name : string) : CoherencePolicy :=
  strict_policy name <| pol_consistency := ConsistencyModel.ReleaseAcquire |>.

Definition snapshot_policy (name : string) : CoherencePolicy :=
  strict_policy name <| pol_consistency := ConsistencyModel.Snapshot |>.

Definition eventual_policy (stale_bound : N) (name : string) : CoherencePolicy :=
  strict_policy name
    <| pol_consistency := ConsistencyModel.Eventual |>
    <| pol_stale_read_policy := StaleReadPolicy.Bounded |>
    <| pol_stale_read_bound_versions := stale_bound |>
    <| pol_recovery_policy := RecoveryPolicy.Conservative |>.

Definition or_name (name fallback : string) : string :=
  if decide (name = ""%string) then fallback else name.

(** [make_policy]: the canonical policy of a consistency model. *)
Definition make_policy (model : ConsistencyModel.t) (name : string) : CoherencePolicy :=
  match model with
  | ConsistencyModel.Strict => strict_policy (or_name name "strict")
  | ConsistencyModel.ReleaseAcquire => release_acquire_policy (or_name name "release_acquire")
  | ConsistencyModel.Snapshot => snapshot_policy (or_name name "snapshot")
  | ConsistencyModel.Eventual => eventual_policy 8 (or_name name "eventual")
  | ConsistencyModel.Unspecified =>
      default_CoherencePolicy <| pol_name := or_name name "unspecified" |>
  end.

(** ** What an accepted policy guarantees *)

Ltac unfold_validate H := unfold validate_policy, validate in H; repeat case_decide; try discriminate H.

(** Every mode of an accepted policy is a declared one, and multi-writer
    ownership is never accepted. *)
Lemma validate_specified p :
  validate_policy p = StatusCode.Ok →
  pol_consistency p ≠ ConsistencyModel.Unspecified ∧
  (pol_write_ownership p = WriteOwnershipMode.SingleWriterExclusive ∨
   pol_write_ownership p = WriteOwnershipMode.ReadOnlyObject).
Proof.
  intros H. unfold_validate H. split; [done|].
  destruct (pol_write_ownership p); auto; done.
Qed.

(** An accepted strict policy never permits a stale read. *)
Lemma validate_strict p :
  validate_policy p = StatusCode.Ok →
  pol_consistency p = ConsistencyModel.Strict →
  pol_stale_read_policy p = StaleReadPolicy.Never.
Proof.
  intros H Hs. unfold_validate H.
  destruct (decide (pol_stale_read_policy p = StaleReadPolicy.Never)); [done|naive_solver].
Qed.
