(* ===== verification/Evidence.v ===== *)
(** * Evidence ([include/coherence/evidence.hpp], [src/evidence.cpp])

    Prefixes: [e_] evidence record, [ec_] evaluation context, [fa_] assessment. *)
From S2P Require Import Prelude Ids Enums Status.

#[local] Set Primitive Projections.

(** [FreshnessVerdict]. *)
Module FreshnessVerdict.
Inductive t := Fresh | Stale | Missing | Unsupported | RequiresRevalidation.
#[export] Instance eq_dec : EqDecision t.
Proof. solve_decision. Defined.
End FreshnessVerdict.
Export (hints) FreshnessVerdict.

(** [EvidenceRecord]. *)
Record EvidenceRecord := mkEvidenceRecord {
  e_id : EvidenceId;
  e_generation : EvidenceGeneration;
  e_kind : EvidenceKind.t;
  e_evidence_class : EvidenceClass.t;
  e_participant : ParticipantId;
  e_boot : ParticipantBootId;
  e_epoch : CoordinatorEpoch;
  e_ownership_generation : OwnershipGeneration;
  e_object : ObjectId;
  e_object_generation : ObjectGeneration;
  e_region : RegionId;
  e_region_generation : RegionGeneration;
  e_observed_version : VersionId;
  e_observed_digest : ContentDigest;
  e_observed_crc32c : N;
  e_sequence : OperationSequence;
  e_process_local : bool;
  e_note : string }.
#[export] Instance eta_EvidenceRecord : Eta EvidenceRecord := fun x => mkEvidenceRecord
  (e_id x) (e_generation x) (e_kind x) (e_evidence_class x) (e_participant x) (e_boot x)
  (e_epoch x) (e_ownership_generation x) (e_object x) (e_object_generation x) (e_region x)
  (e_region_generation x) (e_observed_version x) (e_observed_digest x)
  (e_observed_crc32c x) (e_sequence x) (e_process_local x) (e_note x).
Definition default_EvidenceRecord : EvidenceRecord := {|
  e_id := nil_id;
  e_generation := nil_id;
  e_kind := EvidenceKind.None;
  e_evidence_class := EvidenceClass.Unsupported;
  e_participant := nil_id;
  e_boot := nil_uuid;
  e_epoch := nil_id;
  e_ownership_generation := nil_id;
  e_object := nil_id;
  e_object_generation := nil_id;
  e_region := nil_id;
  e_region_generation := nil_id;
  e_observed_version := nil_id;
  e_observed_digest := nil_uuid;
  e_observed_crc32c := 0;
  e_sequence := nil_id;
  e_process_local := false;
  e_note := ""%string |}%N.

(** [FreshnessAssessment]. *)
Record FreshnessAssessment := mkFreshnessAssessment {
  fa_verdict : FreshnessVerdict.t;
  fa_evidence : EvidenceId;
  fa_generation : EvidenceGeneration;
  fa_evidence_class : EvidenceClass.t;
  fa_reason : StatusCode.t }.
#[export] Instance eta_FreshnessAssessment : Eta FreshnessAssessment := fun x => mkFreshnessAssessment
  (fa_verdict x) (fa_evidence x) (fa_generation x) (fa_evidence_class x) (fa_reason x).
Definition default_FreshnessAssessment : FreshnessAssessment := {|
  fa_verdict := FreshnessVerdict.Missing;
  fa_evidence := nil_id;
  fa_generation := nil_id;
  fa_evidence_class := EvidenceClass.Unsupported;
  fa_reason := StatusCode.EvidenceMissing |}%N.

(** [EvidenceContext]. *)
Record EvidenceContext := mkEvidenceContext {
  ec_current_epoch : CoordinatorEpoch;
  ec_live_boot : ParticipantBootId;
  ec_participant : ParticipantId;
  ec_current_sequence : OperationSequence;
  ec_max_age_operations : N;
  ec_synthetic_domain : bool }.
#[export] Instance eta_EvidenceContext : Eta EvidenceContext := fun x => mkEvidenceContext
  (ec_current_epoch x) (ec_live_boot x) (ec_participant x) (ec_current_sequence x)
  (ec_max_age_operations x) (ec_synthetic_domain x).
Definition default_EvidenceContext : EvidenceContext := {|
  ec_current_epoch := nil_id;
  ec_live_boot := nil_uuid;
  ec_participant := nil_id;
  ec_current_sequence := nil_id;
  ec_max_age_operations := 0;
  ec_synthetic_domain := false |}%N.

(** [FreshnessAssessment::fresh]. *)
Definition fresh (a : FreshnessAssessment) : bool :=
  bool_decide (fa_verdict a = FreshnessVerdict.Fresh).

(** [assess_evidence]: judge a record against the authority in force. *)
Definition assess_evidence (record : EvidenceRecord) (context : EvidenceContext) : FreshnessAssessment :=
  let out := default_FreshnessAssessment
               <| fa_evidence := e_id record |>
               <| fa_generation := e_generation record |>
               <| fa_evidence_class := e_evidence_class record |> in
  let verdict v c := out <| fa_verdict := v |> <| fa_reason := c |> in
  if decide (e_kind record = EvidenceKind.None ∨ is_nil (e_id record) = true) then
    verdict FreshnessVerdict.Missing StatusCode.EvidenceMissing
  else if decide (e_evidence_class record = EvidenceClass.Unsupported) then
    verdict FreshnessVerdict.Unsupported StatusCode.Unsupported
  else if decide (e_evidence_class record = EvidenceClass.Synthetic ∧ ec_synthetic_domain context = false) then
    verdict FreshnessVerdict.Unsupported StatusCode.Unsupported
  else if decide (e_kind record = EvidenceKind.PersistedMetadata) then
    verdict FreshnessVerdict.RequiresRevalidation StatusCode.RevalidationRequired
  else if decide (e_epoch record ≠ ec_current_epoch context) then
    verdict FreshnessVerdict.Stale StatusCode.StaleEpoch
  else if decide (e_process_local record = true ∧
                  (uuid_is_nil (e_boot record) = true ∨ uuid_is_nil (ec_live_boot context) = true ∨
                   e_boot record ≠ ec_live_boot context)) then
    verdict FreshnessVerdict.Stale StatusCode.StaleBoot
  else if (value (ec_current_sequence context) <? value (e_sequence record))%N then
    verdict FreshnessVerdict.Stale StatusCode.InternalInvariantViolation
  else
    let age := u64_sub (value (ec_current_sequence context)) (value (e_sequence record)) in
    if negb (ec_max_age_operations context =? 0)%N && (ec_max_age_operations context <? age)%N then
      verdict FreshnessVerdict.Stale StatusCode.EvidenceStale
    else verdict FreshnessVerdict.Fresh StatusCode.Ok.

(** ** What a fresh verdict proves *)

Lemma assess_fresh_inv record context :
  fresh (assess_evidence record context) = true →
  defined (e_id record) = true ∧
  e_kind record ≠ EvidenceKind.None ∧
  e_kind record ≠ EvidenceKind.PersistedMetadata ∧
  e_evidence_class record ≠ EvidenceClass.Unsupported ∧
  (e_evidence_class record = EvidenceClass.Synthetic → ec_synthetic_domain context = true) ∧
  e_epoch record = ec_current_epoch context ∧
  (e_process_local record = true →
     uuid_defined (e_boot record) = true ∧ e_boot record = ec_live_boot context) ∧
  (value (e_sequence record) ≤ value (ec_current_sequence context))%N ∧
  (ec_max_age_operations context ≠ 0%N →
   value (ec_current_sequence context) < two64 →
   value (ec_current_sequence context) - value (e_sequence record) ≤ ec_max_age_operations context)%N.
Proof.
  unfold fresh, assess_evidence. rewrite bool_decide_eq_true.
  destruct (decide (_ ∨ _)) as [|Hn]; [done|]. apply Decidable.not_or in Hn as [Hk Hid].
  destruct (decide (e_evidence_class record = _)) as [|Hu]; [done|].
  destruct (decide (_ ∧ ec_synthetic_domain _ = _)) as [|Hs]; [done|].
  destruct (decide (e_kind record = _)) as [|Hp]; [done|].
  destruct (decide (e_epoch record ≠ _)) as [|He]; [done|].
  destruct (decide (e_process_local record = true ∧ _)) as [|Hb]; [done|].
  destruct (N.ltb_spec (value (ec_current_sequence context)) (value (e_sequence record))) as [|Hseq]; [done|].
  destruct (_ && _) eqn:Hage; [done|]. intros _.
  split_and!; try done.
  - unfold defined. destruct (is_nil (e_id record)); done.
  - intros Hc. destruct (ec_synthetic_domain context); [done|]. by destruct Hs.
  - by apply dec_stable.
  - intros Hl. unfold uuid_defined. destruct (uuid_is_nil (e_boot record)) eqn:E.
    + destruct Hb. auto.
    + split; [done|]. apply dec_stable. intros ?. destruct Hb. auto.
  - intros Hm Hlt. rewrite u64_sub_small in Hage by lia.
    apply andb_false_iff in Hage as [Hz|Hz].
    + destruct (N.eqb_spec (ec_max_age_operations context) 0); done.
    + apply N.ltb_ge in Hz. done.
Qed.

(** A verdict other than fresh always carries a failure code. *)
Lemma assess_reason record context :
  fresh (assess_evidence record context) = true ↔
  fa_reason (assess_evidence record context) = StatusCode.Ok.
Proof. unfold fresh, assess_evidence. repeat case_match; simpl; split; done. Qed.
