(* ===== verification/Model.v ===== *)
(** * The coherence model ([include/coherence/model.hpp])

    The records the engine keeps.  A field [x] of a struct is the projection
    with the struct's prefix: [o_] object, [r_] region, [p_] participant,
    [d_] domain, [g_] read grant, [i_] invalidation, [y_] synchronization,
    [pp_] pending publication, [cf_] content fingerprint, [cr_] completed
    publication request.  [default_X] is the default-constructed [X]. *)
From S2P Require Import Prelude Ids Enums Status Policy.

#[local] Set Primitive Projections.

(** [ContentFingerprint]. *)
Record ContentFingerprint := mkContentFingerprint {
  cf_digest : ContentDigest;
  cf_crc32c : N;
  cf_length : N;
  cf_defined : bool }.
#[export] Instance eta_ContentFingerprint : Eta ContentFingerprint := fun x => mkContentFingerprint
  (cf_digest x) (cf_crc32c x) (cf_length x) (cf_defined x).
Definition default_ContentFingerprint : ContentFingerprint := {|
  cf_digest := nil_uuid;
  cf_crc32c := 0;
  cf_length := 0;
  cf_defined := false |}%N.

(** [DomainRecord]. *)
Record DomainRecord := mkDomainRecord {
  d_id : CoherenceDomainId;
  d_name : string;
  d_generation : N;
  d_lifecycle : DomainLifecycle.t;
  d_created_epoch : CoordinatorEpoch;
  d_current_epoch : CoordinatorEpoch }.
#[export] Instance eta_DomainRecord : Eta DomainRecord := fun x => mkDomainRecord
  (d_id x) (d_name x) (d_generation x) (d_lifecycle x) (d_created_epoch x)
  (d_current_epoch x).
Definition default_DomainRecord : DomainRecord := {|
  d_id := nil_id;
  d_name := ""%string;
  d_generation := 1;
  d_lifecycle := DomainLifecycle.Created;
  d_created_epoch := nil_id;
  d_current_epoch := nil_id |}%N.

(** [ParticipantRecord]. *)
Record ParticipantRecord := mkParticipantRecord {
  p_id : ParticipantId;
  p_name : string;
  p_boot : ParticipantBootId;
  p_previous_boot : ParticipantBootId;
  p_lifecycle : ParticipantLifecycle.t;
  p_admitted_epoch : CoordinatorEpoch;
  p_last_epoch : CoordinatorEpoch;
  p_session : SessionId;
  p_last_sequence : OperationSequence;
  p_live : bool;
  p_region_count : N;
  p_node_label : string;
  p_fence_reason : string }.
#[export] Instance eta_ParticipantRecord : Eta ParticipantRecord := fun x => mkParticipantRecord
  (p_id x) (p_name x) (p_boot x) (p_previous_boot x) (p_lifecycle x) (p_admitted_epoch x)
  (p_last_epoch x) (p_session x) (p_last_sequence x) (p_live x) (p_region_count x)
  (p_node_label x) (p_fence_reason x).
Definition default_ParticipantRecord : ParticipantRecord := {|
  p_id := nil_id;
  p_name := ""%string;
  p_boot := nil_uuid;
  p_previous_boot := nil_uuid;
  p_lifecycle := ParticipantLifecycle.Observed;
  p_admitted_epoch := nil_id;
  p_last_epoch := nil_id;
  p_session := nil_uuid;
  p_last_sequence := nil_id;
  p_live := false;
  p_region_count := 0;
  p_node_label := ""%string;
  p_fence_reason := ""%string |}%N.

(** [ReadGrant]. *)
Record ReadGrant := mkReadGrant {
  g_lease : LeaseId;
  g_participant : ParticipantId;
  g_boot : ParticipantBootId;
  g_object : ObjectId;
  g_object_generation : ObjectGeneration;
  g_ownership_generation : OwnershipGeneration;
  g_version : VersionId;
  g_region : RegionId;
  g_region_generation : RegionGeneration;
  g_granted_sequence : OperationSequence;
  g_released : bool }.
#[export] Instance eta_ReadGrant : Eta ReadGrant := fun x => mkReadGrant
  (g_lease x) (g_participant x) (g_boot x) (g_object x) (g_object_generation x)
  (g_ownership_generation x) (g_version x) (g_region x) (g_region_generation x)
  (g_granted_sequence x) (g_released x).
Definition default_ReadGrant : ReadGrant := {|
  g_lease := nil_id;
  g_participant := nil_id;
  g_boot := nil_uuid;
  g_object := nil_id;
  g_object_generation := nil_id;
  g_ownership_generation := nil_id;
  g_version := nil_id;
  g_region := nil_id;
  g_region_generation := nil_id;
  g_granted_sequence := nil_id;
  g_released := false |}%N.

(** [RegionRecord]. *)
Record RegionRecord := mkRegionRecord {
  r_id : RegionId;
  r_generation : RegionGeneration;
  r_replica : ReplicaId;
  r_replica_generation : ReplicaGeneration;
  r_domain : CoherenceDomainId;
  r_object : ObjectId;
  r_object_generation : ObjectGeneration;
  r_participant : ParticipantId;
  r_boot : ParticipantBootId;
  r_memory_domain : MemoryDomain.t;
  r_evidence_class : EvidenceClass.t;
  r_name : string;
  r_offset : N;
  r_length : N;
  r_address_hint : N;
  r_declared_writable : bool;
  r_lifecycle : RegionLifecycle.t;
  r_state : CoherenceState.t;
  r_version : VersionId;
  r_last_synced_version : VersionId;
  r_last_published_version : VersionId;
  r_ownership_generation : OwnershipGeneration;
  r_last_invalidation : InvalidationId;
  r_pending_invalidation : InvalidationId;
  r_pending_invalidation_target : RegionGeneration;
  r_invalidation_pending : bool;
  r_evidence : EvidenceId;
  r_evidence_generation : EvidenceGeneration;
  r_dirty : DirtyCondition.t;
  r_dirty_base_version : VersionId;
  r_dirty_published : bool;
  r_content : ContentFingerprint;
  r_updated_sequence : OperationSequence;
  r_note : string }.
#[export] Instance eta_RegionRecord : Eta RegionRecord := fun x => mkRegionRecord
  (r_id x) (r_generation x) (r_replica x) (r_replica_generation x) (r_domain x)
  (r_object x) (r_object_generation x) (r_participant x) (r_boot x) (r_memory_domain x)
  (r_evidence_class x) (r_name x) (r_offset x) (r_length x) (r_address_hint x)
  (r_declared_writable x) (r_lifecycle x) (r_state x) (r_version x)
  (r_last_synced_version x) (r_last_published_version x) (r_ownership_generation x)
  (r_last_invalidation x) (r_pending_invalidation x) (r_pending_invalidation_target x)
  (r_invalidation_pending x) (r_evidence x) (r_evidence_generation x) (r_dirty x)
  (r_dirty_base_version x) (r_dirty_published x) (r_content x) (r_updated_sequence x)
  (r_note x).
Definition default_RegionRecord : RegionRecord := {|
  r_id := nil_id;
  r_generation := nil_id;
  r_replica := nil_id;
  r_replica_generation := nil_id;
  r_domain := nil_id;
  r_object := nil_id;
  r_object_generation := nil_id;
  r_participant := nil_id;
  r_boot := nil_uuid;
  r_memory_domain := MemoryDomain.Unknown;
  r_evidence_class := EvidenceClass.Unsupported;
  r_name := ""%string;
  r_offset := 0;
  r_length := 0;
  r_address_hint := 0;
  r_declared_writable := true;
  r_lifecycle := RegionLifecycle.Registered;
  r_state := CoherenceState.Unknown;
  r_version := nil_id;
  r_last_synced_version := nil_id;
  r_last_published_version := nil_id;
  r_ownership_generation := nil_id;
  r_last_invalidation := nil_id;
  r_pending_invalidation := nil_id;
  r_pending_invalidation_target := nil_id;
  r_invalidation_pending := false;
  r_evidence := nil_id;
  r_evidence_generation := nil_id;
  r_dirty := DirtyCondition.Clean;
  r_dirty_base_version := nil_id;
  r_dirty_published := false;
  r_content := default_ContentFingerprint;
  r_updated_sequence := nil_id;
  r_note := ""%string |}%N.

(** [CompletedPublicationRequest]. *)
Record CompletedPublicationRequest := mkCompletedPublicationRequest {
  cr_request : RequestId;
  cr_version : VersionId;
  cr_publication : PublicationId;
  cr_committed_sequence : OperationSequence }.
#[export] Instance eta_CompletedPublicationRequest : Eta CompletedPublicationRequest := fun x => mkCompletedPublicationRequest
  (cr_request x) (cr_version x) (cr_publication x) (cr_committed_sequence x).
Definition default_CompletedPublicationRequest : CompletedPublicationRequest := {|
  cr_request := nil_id;
  cr_version := nil_id;
  cr_publication := nil_id;
  cr_committed_sequence := nil_id |}%N.

(** [ObjectRecord]. *)
Record ObjectRecord := mkObjectRecord {
  o_id : ObjectId;
  o_generation : ObjectGeneration;
  o_domain : CoherenceDomainId;
  o_name : string;
  o_length : N;
  o_policy : PolicyId;
  o_policy_generation : PolicyGeneration;
  o_lifecycle : ObjectLifecycle.t;
  o_authority : AuthorityMode.t;
  o_writer : ParticipantId;
  o_writer_boot : ParticipantBootId;
  o_ownership_generation : OwnershipGeneration;
  o_authoritative_version : VersionId;
  o_published_version : VersionId;
  o_publication : PublicationId;
  o_committed_sequence : OperationSequence;
  o_pending_publication : PublicationId;
  o_pending_version : VersionId;
  o_publication_state : PublicationState.t;
  o_pending_content : ContentFingerprint;
  o_replicas : list RegionId;
  o_preferred_current_replica : RegionId;
  o_reads : list ReadGrant;
  o_outstanding_invalidations : list InvalidationId;
  o_completed_requests : list CompletedPublicationRequest;
  o_last_writer : ParticipantId;
  o_last_writer_boot : ParticipantBootId;
  o_has_unpublished_dirty : bool;
  o_dirty_condition : DirtyCondition.t;
  o_updated_sequence : OperationSequence;
  o_recovery_note : string }.
#[export] Instance eta_ObjectRecord : Eta ObjectRecord := fun x => mkObjectRecord
  (o_id x) (o_generation x) (o_domain x) (o_name x) (o_length x) (o_policy x)
  (o_policy_generation x) (o_lifecycle x) (o_authority x) (o_writer x) (o_writer_boot x)
  (o_ownership_generation x) (o_authoritative_version x) (o_published_version x)
  (o_publication x) (o_committed_sequence x) (o_pending_publication x)
  (o_pending_version x) (o_publication_state x) (o_pending_content x) (o_replicas x)
  (o_preferred_current_replica x) (o_reads x) (o_outstanding_invalidations x)
  (o_completed_requests x) (o_last_writer x) (o_last_writer_boot x)
  (o_has_unpublished_dirty x) (o_dirty_condition x) (o_updated_sequence x)
  (o_recovery_note x).
Definition default_ObjectRecord : ObjectRecord := {|
  o_id := nil_id;
  o_generation := nil_id;
  o_domain := nil_id;
  o_name := ""%string;
  o_length := 0;
  o_policy := nil_id;
  o_policy_generation := nil_id;
  o_lifecycle := ObjectLifecycle.Created;
  o_authority := AuthorityMode.None;
  o_writer := nil_id;
  o_writer_boot := nil_uuid;
  o_ownership_generation := nil_id;
  o_authoritative_version := nil_id;
  o_published_version := nil_id;
  o_publication := nil_id;
  o_committed_sequence := nil_id;
  o_pending_publication := nil_id;
  o_pending_version := nil_id;
  o_publication_state := PublicationState.None;
  o_pending_content := default_ContentFingerprint;
  o_replicas := [];
  o_preferred_current_replica := nil_id;
  o_reads := [];
  o_outstanding_invalidations := [];
  o_completed_requests := [];
  o_last_writer := nil_id;
  o_last_writer_boot := nil_uuid;
  o_has_unpublished_dirty := false;
  o_dirty_condition := DirtyCondition.Clean;
  o_updated_sequence := nil_id;
  o_recovery_note := ""%string |}%N.

(** [InvalidationRecord]. *)
Record InvalidationRecord := mkInvalidationRecord {
  i_id : InvalidationId;
  i_object : ObjectId;
  i_object_generation : ObjectGeneration;
  i_region : RegionId;
  i_region_generation : RegionGeneration;
  i_replica_generation : ReplicaGeneration;
  i_published_version : VersionId;
  i_superseded_version : VersionId;
  i_ownership_generation : OwnershipGeneration;
  i_epoch : CoordinatorEpoch;
  i_target_participant : ParticipantId;
  i_target_boot : ParticipantBootId;
  i_state : InvalidationState.t;
  i_acknowledgement_required : bool;
  i_issued_sequence : OperationSequence;
  i_settled_sequence : OperationSequence;
  i_rationale : string }.
#[export] Instance eta_InvalidationRecord : Eta InvalidationRecord := fun x => mkInvalidationRecord
  (i_id x) (i_object x) (i_object_generation x) (i_region x) (i_region_generation x)
  (i_replica_generation x) (i_published_version x) (i_superseded_version x)
  (i_ownership_generation x) (i_epoch x) (i_target_participant x) (i_target_boot x)
  (i_state x) (i_acknowledgement_required x) (i_issued_sequence x) (i_settled_sequence x)
  (i_rationale x).
Definition default_InvalidationRecord : InvalidationRecord := {|
  i_id := nil_id;
  i_object := nil_id;
  i_object_generation := nil_id;
  i_region := nil_id;
  i_region_generation := nil_id;
  i_replica_generation := nil_id;
  i_published_version := nil_id;
  i_superseded_version := nil_id;
  i_ownership_generation := nil_id;
  i_epoch := nil_id;
  i_target_participant := nil_id;
  i_target_boot := nil_uuid;
  i_state := InvalidationState.Requested;
  i_acknowledgement_required := true;
  i_issued_sequence := nil_id;
  i_settled_sequence := nil_id;
  i_rationale := ""%string |}%N.

(** [SyncRecord]. *)
Record SyncRecord := mkSyncRecord {
  y_id : SyncOperationId;
  y_kind : SyncOperationKind.t;
  y_object : ObjectId;
  y_object_generation : ObjectGeneration;
  y_source_region : RegionId;
  y_source_region_generation : RegionGeneration;
  y_destination_region : RegionId;
  y_destination_region_generation : RegionGeneration;
  y_source_version : VersionId;
  y_destination_prior_version : VersionId;
  y_extent_offset : N;
  y_extent_length : N;
  y_expected_content : ContentFingerprint;
  y_ownership_generation : OwnershipGeneration;
  y_policy : PolicyId;
  y_policy_generation : PolicyGeneration;
  y_epoch : CoordinatorEpoch;
  y_destination_participant : ParticipantId;
  y_destination_boot : ParticipantBootId;
  y_state : SyncState.t;
  y_postcondition : string;
  y_transport : string;
  y_issued_sequence : OperationSequence;
  y_settled_sequence : OperationSequence;
  y_failure_reason : string }.
#[export] Instance eta_SyncRecord : Eta SyncRecord := fun x => mkSyncRecord
  (y_id x) (y_kind x) (y_object x) (y_object_generation x) (y_source_region x)
  (y_source_region_generation x) (y_destination_region x)
  (y_destination_region_generation x) (y_source_version x) (y_destination_prior_version x)
  (y_extent_offset x) (y_extent_length x) (y_expected_content x) (y_ownership_generation x)
  (y_policy x) (y_policy_generation x) (y_epoch x) (y_destination_participant x)
  (y_destination_boot x) (y_state x) (y_postcondition x) (y_transport x)
  (y_issued_sequence x) (y_settled_sequence x) (y_failure_reason x).
Definition default_SyncRecord : SyncRecord := {|
  y_id := nil_id;
  y_kind := SyncOperationKind.Copy;
  y_object := nil_id;
  y_object_generation := nil_id;
  y_source_region := nil_id;
  y_source_region_generation := nil_id;
  y_destination_region := nil_id;
  y_destination_region_generation := nil_id;
  y_source_version := nil_id;
  y_destination_prior_version := nil_id;
  y_extent_offset := 0;
  y_extent_length := 0;
  y_expected_content := default_ContentFingerprint;
  y_ownership_generation := nil_id;
  y_policy := nil_id;
  y_policy_generation := nil_id;
  y_epoch := nil_id;
  y_destination_participant := nil_id;
  y_destination_boot := nil_uuid;
  y_state := SyncState.Planned;
  y_postcondition := ""%string;
  y_transport := ""%string;
  y_issued_sequence := nil_id;
  y_settled_sequence := nil_id;
  y_failure_reason := ""%string |}%N.

(** [PendingPublication]. *)
Record PendingPublication := mkPendingPublication {
  pp_id : PublicationId;
  pp_object : ObjectId;
  pp_object_generation : ObjectGeneration;
  pp_version : VersionId;
  pp_prior_version : VersionId;
  pp_ownership_generation : OwnershipGeneration;
  pp_epoch : CoordinatorEpoch;
  pp_writer : ParticipantId;
  pp_writer_boot : ParticipantBootId;
  pp_request : RequestId;
  pp_content : ContentFingerprint;
  pp_sequence : OperationSequence;
  pp_durable : bool }.
#[export] Instance eta_PendingPublication : Eta PendingPublication := fun x => mkPendingPublication
  (pp_id x) (pp_object x) (pp_object_generation x) (pp_version x) (pp_prior_version x)
  (pp_ownership_generation x) (pp_epoch x) (pp_writer x) (pp_writer_boot x) (pp_request x)
  (pp_content x) (pp_sequence x) (pp_durable x).
Definition default_PendingPublication : PendingPublication := {|
  pp_id := nil_id;
  pp_object := nil_id;
  pp_object_generation := nil_id;
  pp_version := nil_id;
  pp_prior_version := nil_id;
  pp_ownership_generation := nil_id;
  pp_epoch := nil_id;
  pp_writer := nil_id;
  pp_writer_boot := nil_uuid;
  pp_request := nil_id;
  pp_content := default_ContentFingerprint;
  pp_sequence := nil_id;
  pp_durable := false |}%N.

(** [operator==] of [ContentFingerprint]: undefined fingerprints are equal
    whatever their other fields hold. *)
Definition fingerprint_eqb (a b : ContentFingerprint) : bool :=
  if decide (cf_defined a ≠ cf_defined b) then false
  else if negb (cf_defined a) then true
  else bool_decide (cf_length a = cf_length b) && bool_decide (cf_crc32c a = cf_crc32c b)
       && bool_decide (cf_digest a = cf_digest b).

(** [ContentFingerprint::to_string]. *)
Definition fingerprint_to_string (f : ContentFingerprint) : string :=
  if cf_defined f
  then (uuid_to_string (cf_digest f) ++ ":crc32c=" ++ pretty (cf_crc32c f) ++ ":len="
        ++ pretty (cf_length f))%string
  else "undefined".

(** Two defined fingerprints compare equal exactly when digest, checksum and
    length agree. *)
Lemma fingerprint_eqb_defined a b :
  cf_defined a = true → cf_defined b = true →
  fingerprint_eqb a b = true ↔
    cf_length a = cf_length b ∧ cf_crc32c a = cf_crc32c b ∧ cf_digest a = cf_digest b.
Proof.
  intros Ha Hb. unfold fingerprint_eqb. rewrite Ha, Hb. simpl.
  rewrite !andb_true_iff, !bool_decide_eq_true. tauto.
Qed.

#[export] Instance ContentFingerprint_eq_dec : EqDecision ContentFingerprint.
Proof. solve_decision. Defined.
#[export] Instance ReadGrant_eq_dec : EqDecision ReadGrant.
Proof. solve_decision. Defined.
#[export] Instance CompletedPublicationRequest_eq_dec : EqDecision CompletedPublicationRequest.
Proof. solve_decision. Defined.
