(* ===== verification/Foundations.v ===== *)
(** * The vocabulary the engine is built on

    Round trips of the enumerations, bounds of the checked arithmetic, what an
    accepted policy guarantees and what a fresh piece of evidence proves. *)
From S2P Require Import Prelude Ids Enums Status Bytes Policy Evidence Model.

(** Enumerations round-trip.  For every enumeration of the vocabulary, the
    name of a value parses back to that value, a token parses only if the name
    table declares it and then to the value it is declared for; and the
    validating byte decoder accepts the byte of a value, returns that value, and
    accepts no other byte for it. *)
Theorem enumerations_round_trip {E} `{EnumTableOk E} (v : E) :
  lookup_value (lookup_token v) = Some v ∧
  (∀ token, lookup_value token = Some v → (v, token) ∈ enum_table) ∧
  (∀ raw, enum_from_u8 raw = Some v ↔ raw = enum_u8 v).
Proof.
  split_and!; [apply lookup_value_token|intros token; apply lookup_value_Some|intros raw; apply enum_from_u8_spec].
Qed.

Lemma enumerations_round_trip_witness :
  lookup_value (lookup_token CoherenceState.Stale) = Some CoherenceState.Stale ∧
  enum_from_u8 (enum_u8 CoherenceState.Stale) = Some CoherenceState.Stale.
Proof.
  destruct (enumerations_round_trip CoherenceState.Stale) as (Ht & _ & Hu). split; [exact Ht|]. by apply Hu.
Defined.

(** Checked arithmetic is exact.  On 64-bit operands [checked_add] and
    [checked_mul] return the mathematical result exactly when it fits in 64 bits
    and refuse otherwise, and [checked_range] accepts exactly the ranges that
    lie inside the extent, wrap-around included. *)
Theorem checked_arithmetic_exact a b extent :
  u64_ok a → u64_ok b → u64_ok extent →
  checked_add a b = (if decide (a + b < two64)%N then Some (a + b)%N else None) ∧
  checked_mul a b = (if decide (a * b < two64)%N then Some (a * b)%N else None) ∧
  (checked_range a b extent = true ↔ (a + b ≤ extent)%N).
Proof. intros. split_and!; [by apply checked_add_spec|by apply checked_mul_spec|by apply checked_range_spec]. Qed.

Lemma checked_arithmetic_exact_witness :
  checked_add u64_max 1 = None ∧ checked_mul 4294967296 4294967296 = None ∧
  checked_range u64_max 2 64 = false.
Proof.
  assert (u64_ok u64_max ∧ u64_ok 1 ∧ u64_ok 2 ∧ u64_ok 64 ∧ u64_ok 4294967296) as (? & ? & ? & ? & ?) by done.
  split_and!.
  - by rewrite (proj1 (checked_arithmetic_exact u64_max 1 64 ltac:(done) ltac:(done) ltac:(done))).
  - by rewrite (proj1 (proj2 (checked_arithmetic_exact 4294967296 4294967296 64 ltac:(done) ltac:(done) ltac:(done)))).
  - apply not_true_is_false. intros Hr.
    apply (checked_arithmetic_exact u64_max 2 64 ltac:(done) ltac:(done) ltac:(done)) in Hr. by vm_compute in Hr.
Defined.

(** Accepted policies are coherent.  A policy that passes validation names
    every mode, never asks for several writers, bounds the stale reads it allows
    by at least one version, allows some memory domain, and, when it is strict,
    forbids stale reads and demands fingerprints for durable publications; an
    eventual policy does not forbid stale reads. *)
Theorem accepted_policies_are_coherent p :
  validate_policy p = StatusCode.Ok →
  pol_consistency p ≠ ConsistencyModel.Unspecified ∧
  (pol_write_ownership p = WriteOwnershipMode.SingleWriterExclusive ∨
   pol_write_ownership p = WriteOwnershipMode.ReadOnlyObject) ∧
  (pol_stale_read_policy p = StaleReadPolicy.Bounded → (1 ≤ pol_stale_read_bound_versions p)%N) ∧
  (pol_consistency p = ConsistencyModel.Strict → pol_stale_read_policy p = StaleReadPolicy.Never ∧
     (pol_publication_durability p = PublicationDurability.DurableMetadata →
      pol_require_content_fingerprint p = true)) ∧
  (pol_consistency p = ConsistencyModel.Eventual → pol_stale_read_policy p ≠ StaleReadPolicy.Never) ∧
  pol_allowed_domains_mask p ≠ 0%N.
Proof.
  intros Hv. destruct (validate_specified p Hv) as [Hc Hw]. split_and!; [done..| | | |].
  - intros Hb. unfold_validate Hv. destruct (decide (pol_stale_read_bound_versions p = 0%N)); [naive_solver|lia].
  - intros Hs. split; [by apply validate_strict|]. intros Hd. unfold_validate Hv.
    destruct (pol_require_content_fingerprint p); [done|naive_solver].
  - intros He Hn. unfold_validate Hv. naive_solver.
  - intros Hm. unfold_validate Hv. congruence.
Qed.

Lemma accepted_policies_are_coherent_witness :
  validate_policy (strict_policy "strict") = StatusCode.Ok ∧
  pol_stale_read_policy (strict_policy "strict") = StaleReadPolicy.Never.
Proof.
  split; [vm_compute; reflexivity|].
  by apply (accepted_policies_are_coherent (strict_policy "strict")); [vm_compute; reflexivity|].
Defined.

(** Fresh evidence is evidence of the running incarnation.  When
    [assess_evidence] judges a record fresh, the record is identified, is not a
    mere restored fact, comes from this coordinator epoch, from the live boot of
    its participant when it is process-local, is synthetic only in a synthetic
    domain, does not lie in the future and is not older than the age the context
    allows; and a verdict that is not fresh always carries a failure code. *)
Theorem fresh_evidence_is_live record context :
  (fresh (assess_evidence record context) = true ↔
   fa_reason (assess_evidence record context) = StatusCode.Ok) ∧
  (fresh (assess_evidence record context) = true →
   value (ec_current_sequence context) < two64 →
   defined (e_id record) = true ∧ e_kind record ≠ EvidenceKind.PersistedMetadata ∧
   e_epoch record = ec_current_epoch context ∧
   (e_process_local record = true → e_boot record = ec_live_boot context ∧ uuid_defined (e_boot record) = true) ∧
   (e_evidence_class record = EvidenceClass.Synthetic → ec_synthetic_domain context = true) ∧
   value (e_sequence record) ≤ value (ec_current_sequence context) ∧
   (ec_max_age_operations context ≠ 0 →
    value (ec_current_sequence context) - value (e_sequence record) ≤ ec_max_age_operations context))%N.
Proof.
  split; [apply assess_reason|]. intros Hf Hs.
  destruct (assess_fresh_inv record context Hf) as (? & ? & ? & ? & ? & ? & Hb & ? & Ha).
  split_and!; try done; [by intros Hl; destruct (Hb Hl)|]. intros Hm. by apply Ha.
Qed.
