(* ===== verification/Decisions.v ===== *)
(** * Requests and structured decisions
    ([include/coherence/decision.hpp], [include/coherence/engine.hpp])

    Prefixes: [cfg_] engine configuration, [ac_] authority context, [rr_] read,
    [wr_] write, [dr_] dirty, [pb_] publish, [rl_] release, [ir_] invalidation,
    [ia_] invalidation acknowledgement, [sr_] synchronization, [rv_]
    revalidation, [sc_] synchronization completion, [sf_] synchronization
    failure, [rn_] region registration; [dc_] decision context, [rd_] read
    decision, [wg_] write grant, [pr_] publication receipt, [io_] invalidation
    outcome, [so_] synchronization outcome, [ro_] release outcome; [sn_]
    snapshot, [sno_] its options, [af_]/[ar_] audit finding and report, [rep_]
    recovery report.  The [rationale] and [detail] prose of decisions is not
    modelled. *)
From S2P Require Import Prelude Ids Enums Status Policy Model.

#[local] Set Primitive Projections.

(** [DecisionContext]. *)
Record DecisionContext := mkDecisionContext {
  dc_decision : DecisionId;
  dc_epoch : CoordinatorEpoch;
  dc_policy : PolicyId;
  dc_policy_generation : PolicyGeneration;
  dc_object : ObjectId;
  dc_object_generation : ObjectGeneration;
  dc_ownership_generation : OwnershipGeneration;
  dc_sequence : OperationSequence }.
#[export] Instance eta_DecisionContext : Eta DecisionContext := fun x => mkDecisionContext
  (dc_decision x) (dc_epoch x) (dc_policy x) (dc_policy_generation x) (dc_object x)
  (dc_object_generation x) (dc_ownership_generation x) (dc_sequence x).
Definition default_DecisionContext : DecisionContext := {|
  dc_decision := nil_id;
  dc_epoch := nil_id;
  dc_policy := nil_id;
  dc_policy_generation := nil_id;
  dc_object := nil_id;
  dc_object_generation := nil_id;
  dc_ownership_generation := nil_id;
  dc_sequence := nil_id |}%N.

(** [ReadDecision]. *)
Record ReadDecision := mkReadDecision {
  rd_context : DecisionContext;
  rd_outcome : ReadOutcome.t;
  rd_reason : StatusCode.t;
  rd_region : RegionId;
  rd_region_generation : RegionGeneration;
  rd_region_state : CoherenceState.t;
  rd_authoritative_version : VersionId;
  rd_region_version : VersionId;
  rd_staleness : N;
  rd_staleness_known : bool;
  rd_sync_required : bool;
  rd_stale_allowed : bool;
  rd_evidence_fresh : bool;
  rd_evidence : EvidenceId;
  rd_evidence_generation : EvidenceGeneration;
  rd_evidence_class : EvidenceClass.t;
  rd_required_sync : SyncOperationId;
  rd_lease : LeaseId }.
#[export] Instance eta_ReadDecision : Eta ReadDecision := fun x => mkReadDecision
  (rd_context x) (rd_outcome x) (rd_reason x) (rd_region x) (rd_region_generation x)
  (rd_region_state x) (rd_authoritative_version x) (rd_region_version x) (rd_staleness x)
  (rd_staleness_known x) (rd_sync_required x) (rd_stale_allowed x) (rd_evidence_fresh x)
  (rd_evidence x) (rd_evidence_generation x) (rd_evidence_class x) (rd_required_sync x)
  (rd_lease x).
Definition default_ReadDecision : ReadDecision := {|
  rd_context := default_DecisionContext;
  rd_outcome := ReadOutcome.Unknown;
  rd_reason := StatusCode.UnknownObject;
  rd_region := nil_id;
  rd_region_generation := nil_id;
  rd_region_state := CoherenceState.Unknown;
  rd_authoritative_version := nil_id;
  rd_region_version := nil_id;
  rd_staleness := 0;
  rd_staleness_known := false;
  rd_sync_required := false;
  rd_stale_allowed := false;
  rd_evidence_fresh := false;
  rd_evidence := nil_id;
  rd_evidence_generation := nil_id;
  rd_evidence_class := EvidenceClass.Unsupported;
  rd_required_sync := nil_id;
  rd_lease := nil_id |}%N.

(** [WriteGrant]. *)
Record WriteGrant := mkWriteGrant {
  wg_context : DecisionContext;
  wg_granted : bool;
  wg_reason : StatusCode.t;
  wg_writer : ParticipantId;
  wg_writer_boot : ParticipantBootId;
  wg_base_version : VersionId;
  wg_authoritative_version : VersionId;
  wg_writer_region : RegionId;
  wg_writer_region_generation : RegionGeneration;
  wg_required_invalidations : list InvalidationRecord;
  wg_may_mutate_now : bool }.
#[export] Instance eta_WriteGrant : Eta WriteGrant := fun x => mkWriteGrant
  (wg_context x) (wg_granted x) (wg_reason x) (wg_writer x) (wg_writer_boot x)
  (wg_base_version x) (wg_authoritative_version x) (wg_writer_region x)
  (wg_writer_region_generation x) (wg_required_invalidations x) (wg_may_mutate_now x).
Definition default_WriteGrant : WriteGrant := {|
  wg_context := default_DecisionContext;
  wg_granted := false;
  wg_reason := StatusCode.UnknownObject;
  wg_writer := nil_id;
  wg_writer_boot := nil_uuid;
  wg_base_version := nil_id;
  wg_authoritative_version := nil_id;
  wg_writer_region := nil_id;
  wg_writer_region_generation := nil_id;
  wg_required_invalidations := [];
  wg_may_mutate_now := false |}%N.

(** [PublicationReceipt]. *)
Record PublicationReceipt := mkPublicationReceipt {
  pr_context : DecisionContext;
  pr_publication : PublicationId;
  pr_state : PublicationState.t;
  pr_reason : StatusCode.t;
  pr_version : VersionId;
  pr_prior_version : VersionId;
  pr_writer : ParticipantId;
  pr_writer_boot : ParticipantBootId;
  pr_content : ContentFingerprint;
  pr_durability : PublicationDurability.t;
  pr_durable : bool;
  pr_idempotent_replay : bool;
  pr_completed_by_recovery : bool }.
#[export] Instance eta_PublicationReceipt : Eta PublicationReceipt := fun x => mkPublicationReceipt
  (pr_context x) (pr_publication x) (pr_state x) (pr_reason x) (pr_version x)
  (pr_prior_version x) (pr_writer x) (pr_writer_boot x) (pr_content x) (pr_durability x)
  (pr_durable x) (pr_idempotent_replay x) (pr_completed_by_recovery x).
Definition default_PublicationReceipt : PublicationReceipt := {|
  pr_context := default_DecisionContext;
  pr_publication := nil_id;
  pr_state := PublicationState.None;
  pr_reason := StatusCode.Ok;
  pr_version := nil_id;
  pr_prior_version := nil_id;
  pr_writer := nil_id;
  pr_writer_boot := nil_uuid;
  pr_content := default_ContentFingerprint;
  pr_durability := PublicationDurability.Unspecified;
  pr_durable := false;
  pr_idempotent_replay := false;
  pr_completed_by_recovery := false |}%N.

(** [InvalidationOutcome]. *)
Record InvalidationOutcome := mkInvalidationOutcome {
  io_context : DecisionContext;
  io_invalidation : InvalidationId;
  io_state : InvalidationState.t;
  io_reason : StatusCode.t;
  io_region : RegionId;
  io_region_generation : RegionGeneration;
  io_replica_generation : ReplicaGeneration;
  io_idempotent_replay : bool }.
#[export] Instance eta_InvalidationOutcome : Eta InvalidationOutcome := fun x => mkInvalidationOutcome
  (io_context x) (io_invalidation x) (io_state x) (io_reason x) (io_region x)
  (io_region_generation x) (io_replica_generation x) (io_idempotent_replay x).
Definition default_InvalidationOutcome : InvalidationOutcome := {|
  io_context := default_DecisionContext;
  io_invalidation := nil_id;
  io_state := InvalidationState.Unknown;
  io_reason := StatusCode.Ok;
  io_region := nil_id;
  io_region_generation := nil_id;
  io_replica_generation := nil_id;
  io_idempotent_replay := false |}%N.

(** [SyncOutcome]. *)
Record SyncOutcome := mkSyncOutcome {
  so_context : DecisionContext;
  so_operation : SyncOperationId;
  so_state : SyncState.t;
  so_reason : StatusCode.t;
  so_plan : SyncRecord;
  so_idempotent_replay : bool }.
#[export] Instance eta_SyncOutcome : Eta SyncOutcome := fun x => mkSyncOutcome
  (so_context x) (so_operation x) (so_state x) (so_reason x) (so_plan x)
  (so_idempotent_replay x).
Definition default_SyncOutcome : SyncOutcome := {|
  so_context := default_DecisionContext;
  so_operation := nil_id;
  so_state := SyncState.Planned;
  so_reason := StatusCode.Ok;
  so_plan := default_SyncRecord;
  so_idempotent_replay := false |}%N.

(** [ReleaseOutcome]. *)
Record ReleaseOutcome := mkReleaseOutcome {
  ro_context : DecisionContext;
  ro_reason : StatusCode.t;
  ro_lease : LeaseId;
  ro_participant : ParticipantId;
  ro_boot : ParticipantBootId;
  ro_version : VersionId;
  ro_already_released : bool }.
#[export] Instance eta_ReleaseOutcome : Eta ReleaseOutcome := fun x => mkReleaseOutcome
  (ro_context x) (ro_reason x) (ro_lease x) (ro_participant x) (ro_boot x) (ro_version x)
  (ro_already_released x).
Definition default_ReleaseOutcome : ReleaseOutcome := {|
  ro_context := default_DecisionContext;
  ro_reason := StatusCode.Ok;
  ro_lease := nil_id;
  ro_participant := nil_id;
  ro_boot := nil_uuid;
  ro_version := nil_id;
  ro_already_released := false |}%N.

(** [EngineConfig]. *)
Record EngineConfig := mkEngineConfig {
  cfg_initial_epoch : CoordinatorEpoch;
  cfg_max_domains : N;
  cfg_max_participants : N;
  cfg_max_objects : N;
  cfg_max_regions : N;
  cfg_max_regions_per_object : N;
  cfg_max_reads_per_object : N;
  cfg_max_object_length : N;
  cfg_max_outstanding_invalidations : N;
  cfg_max_inflight_syncs : N;
  cfg_max_retained_requests_per_object : N;
  cfg_max_decision_log : N;
  cfg_enable_decision_log : bool;
  cfg_enable_durability : bool }.
#[export] Instance eta_EngineConfig : Eta EngineConfig := fun x => mkEngineConfig
  (cfg_initial_epoch x) (cfg_max_domains x) (cfg_max_participants x) (cfg_max_objects x)
  (cfg_max_regions x) (cfg_max_regions_per_object x) (cfg_max_reads_per_object x)
  (cfg_max_object_length x) (cfg_max_outstanding_invalidations x)
  (cfg_max_inflight_syncs x) (cfg_max_retained_requests_per_object x)
  (cfg_max_decision_log x) (cfg_enable_decision_log x) (cfg_enable_durability x).
Definition default_EngineConfig : EngineConfig := {|
  cfg_initial_epoch := (from_value 1);
  cfg_max_domains := 64;
  cfg_max_participants := 65536;
  cfg_max_objects := 1000000;
  cfg_max_regions := 4000000;
  cfg_max_regions_per_object := 1000000;
  cfg_max_reads_per_object := 1000000;
  cfg_max_object_length := 1099511627776;
  cfg_max_outstanding_invalidations := 1000000;
  cfg_max_inflight_syncs := 1000000;
  cfg_max_retained_requests_per_object := 64;
  cfg_max_decision_log := 4096;
  cfg_enable_decision_log := true;
  cfg_enable_durability := true |}%N.

(** [AuthorityContext]. *)
Record AuthorityContext := mkAuthorityContext {
  ac_epoch : CoordinatorEpoch;
  ac_participant : ParticipantId;
  ac_boot : ParticipantBootId;
  ac_object : ObjectId;
  ac_object_generation : ObjectGeneration;
  ac_policy_generation : PolicyGeneration;
  ac_request : RequestId }.
#[export] Instance eta_AuthorityContext : Eta AuthorityContext := fun x => mkAuthorityContext
  (ac_epoch x) (ac_participant x) (ac_boot x) (ac_object x) (ac_object_generation x)
  (ac_policy_generation x) (ac_request x).
Definition default_AuthorityContext : AuthorityContext := {|
  ac_epoch := nil_id;
  ac_participant := nil_id;
  ac_boot := nil_uuid;
  ac_object := nil_id;
  ac_object_generation := nil_id;
  ac_policy_generation := nil_id;
  ac_request := nil_id |}%N.

(** [ReadRequest]. *)
Record ReadRequest := mkReadRequest {
  rr_context : AuthorityContext;
  rr_region : RegionId;
  rr_region_generation : RegionGeneration;
  rr_snapshot_version : VersionId;
  rr_require_current : bool }.
#[export] Instance eta_ReadRequest : Eta ReadRequest := fun x => mkReadRequest
  (rr_context x) (rr_region x) (rr_region_generation x) (rr_snapshot_version x)
  (rr_require_current x).
Definition default_ReadRequest : ReadRequest := {|
  rr_context := default_AuthorityContext;
  rr_region := nil_id;
  rr_region_generation := nil_id;
  rr_snapshot_version := nil_id;
  rr_require_current := true |}%N.

(** [WriteRequest]. *)
Record WriteRequest := mkWriteRequest {
  wr_context : AuthorityContext;
  wr_region : RegionId;
  wr_region_generation : RegionGeneration }.
#[export] Instance eta_WriteRequest : Eta WriteRequest := fun x => mkWriteRequest
  (wr_context x) (wr_region x) (wr_region_generation x).
Definition default_WriteRequest : WriteRequest := {|
  wr_context := default_AuthorityContext;
  wr_region := nil_id;
  wr_region_generation := nil_id |}%N.

(** [DirtyRequest]. *)
Record DirtyRequest := mkDirtyRequest {
  dr_context : AuthorityContext;
  dr_region : RegionId;
  dr_region_generation : RegionGeneration;
  dr_ownership_generation : OwnershipGeneration;
  dr_base_version : VersionId;
  dr_content : ContentFingerprint }.
#[export] Instance eta_DirtyRequest : Eta DirtyRequest := fun x => mkDirtyRequest
  (dr_context x) (dr_region x) (dr_region_generation x) (dr_ownership_generation x)
  (dr_base_version x) (dr_content x).
Definition default_DirtyRequest : DirtyRequest := {|
  dr_context := default_AuthorityContext;
  dr_region := nil_id;
  dr_region_generation := nil_id;
  dr_ownership_generation := nil_id;
  dr_base_version := nil_id;
  dr_content := default_ContentFingerprint |}%N.

(** [PublishRequest]. *)
Record PublishRequest := mkPublishRequest {
  pb_context : AuthorityContext;
  pb_ownership_generation : OwnershipGeneration;
  pb_region : RegionId;
  pb_region_generation : RegionGeneration;
  pb_expected_base_version : VersionId;
  pb_content : ContentFingerprint;
  pb_allow_without_dirty : bool }.
#[export] Instance eta_PublishRequest : Eta PublishRequest := fun x => mkPublishRequest
  (pb_context x) (pb_ownership_generation x) (pb_region x) (pb_region_generation x)
  (pb_expected_base_version x) (pb_content x) (pb_allow_without_dirty x).
Definition default_PublishRequest : PublishRequest := {|
  pb_context := default_AuthorityContext;
  pb_ownership_generation := nil_id;
  pb_region := nil_id;
  pb_region_generation := nil_id;
  pb_expected_base_version := nil_id;
  pb_content := default_ContentFingerprint;
  pb_allow_without_dirty := false |}%N.

(** [ReleaseRequest]. *)
Record ReleaseRequest := mkReleaseRequest {
  rl_context : AuthorityContext;
  rl_lease : LeaseId;
  rl_ownership_generation : OwnershipGeneration;
  rl_release_write_authority : bool }.
#[export] Instance eta_ReleaseRequest : Eta ReleaseRequest := fun x => mkReleaseRequest
  (rl_context x) (rl_lease x) (rl_ownership_generation x) (rl_release_write_authority x).
Definition default_ReleaseRequest : ReleaseRequest := {|
  rl_context := default_AuthorityContext;
  rl_lease := nil_id;
  rl_ownership_generation := nil_id;
  rl_release_write_authority := false |}%N.

(** [InvalidationRequest]. *)
Record InvalidationRequest := mkInvalidationRequest {
  ir_context : AuthorityContext;
  ir_target_region : RegionId;
  ir_target_region_generation : RegionGeneration;
  ir_target_replica_generation : ReplicaGeneration;
  ir_ownership_generation : OwnershipGeneration;
  ir_published_version : VersionId;
  ir_acknowledgement_required : bool }.
#[export] Instance eta_InvalidationRequest : Eta InvalidationRequest := fun x => mkInvalidationRequest
  (ir_context x) (ir_target_region x) (ir_target_region_generation x)
  (ir_target_replica_generation x) (ir_ownership_generation x) (ir_published_version x)
  (ir_acknowledgement_required x).
Definition default_InvalidationRequest : InvalidationRequest := {|
  ir_context := default_AuthorityContext;
  ir_target_region := nil_id;
  ir_target_region_generation := nil_id;
  ir_target_replica_generation := nil_id;
  ir_ownership_generation := nil_id;
  ir_published_version := nil_id;
  ir_acknowledgement_required := true |}%N.

(** [InvalidationAck]. *)
Record InvalidationAck := mkInvalidationAck {
  ia_context : AuthorityContext;
  ia_invalidation : InvalidationId;
  ia_region : RegionId;
  ia_region_generation : RegionGeneration;
  ia_replica_generation : ReplicaGeneration;
  ia_superseded_version : VersionId }.
#[export] Instance eta_InvalidationAck : Eta InvalidationAck := fun x => mkInvalidationAck
  (ia_context x) (ia_invalidation x) (ia_region x) (ia_region_generation x)
  (ia_replica_generation x) (ia_superseded_version x).
Definition default_InvalidationAck : InvalidationAck := {|
  ia_context := default_AuthorityContext;
  ia_invalidation := nil_id;
  ia_region := nil_id;
  ia_region_generation := nil_id;
  ia_replica_generation := nil_id;
  ia_superseded_version := nil_id |}%N.

(** [SyncRequest]. *)
Record SyncRequest := mkSyncRequest {
  sr_context : AuthorityContext;
  sr_kind : SyncOperationKind.t;
  sr_source_region : RegionId;
  sr_source_region_generation : RegionGeneration;
  sr_destination_region : RegionId;
  sr_destination_region_generation : RegionGeneration;
  sr_ownership_generation : OwnershipGeneration;
  sr_transport : string }.
#[export] Instance eta_SyncRequest : Eta SyncRequest := fun x => mkSyncRequest
  (sr_context x) (sr_kind x) (sr_source_region x) (sr_source_region_generation x)
  (sr_destination_region x) (sr_destination_region_generation x)
  (sr_ownership_generation x) (sr_transport x).
Definition default_SyncRequest : SyncRequest := {|
  sr_context := default_AuthorityContext;
  sr_kind := SyncOperationKind.Copy;
  sr_source_region := nil_id;
  sr_source_region_generation := nil_id;
  sr_destination_region := nil_id;
  sr_destination_region_generation := nil_id;
  sr_ownership_generation := nil_id;
  sr_transport := ""%string |}%N.

(** [RevalidateRequest]. *)
Record RevalidateRequest := mkRevalidateRequest {
  rv_context : AuthorityContext;
  rv_region : RegionId;
  rv_region_generation : RegionGeneration;
  rv_observed_version : VersionId;
  rv_content : ContentFingerprint;
  rv_byte_compared : bool }.
#[export] Instance eta_RevalidateRequest : Eta RevalidateRequest := fun x => mkRevalidateRequest
  (rv_context x) (rv_region x) (rv_region_generation x) (rv_observed_version x)
  (rv_content x) (rv_byte_compared x).
Definition default_RevalidateRequest : RevalidateRequest := {|
  rv_context := default_AuthorityContext;
  rv_region := nil_id;
  rv_region_generation := nil_id;
  rv_observed_version := nil_id;
  rv_content := default_ContentFingerprint;
  rv_byte_compared := true |}%N.

(** [SyncCompleteRequest]. *)
Record SyncCompleteRequest := mkSyncCompleteRequest {
  sc_context : AuthorityContext;
  sc_operation : SyncOperationId;
  sc_destination_region : RegionId;
  sc_destination_region_generation : RegionGeneration;
  sc_destination_new_version : VersionId;
  sc_observed_content : ContentFingerprint;
  sc_content_moved : bool }.
#[export] Instance eta_SyncCompleteRequest : Eta SyncCompleteRequest := fun x => mkSyncCompleteRequest
  (sc_context x) (sc_operation x) (sc_destination_region x)
  (sc_destination_region_generation x) (sc_destination_new_version x)
  (sc_observed_content x) (sc_content_moved x).
Definition default_SyncCompleteRequest : SyncCompleteRequest := {|
  sc_context := default_AuthorityContext;
  sc_operation := nil_id;
  sc_destination_region := nil_id;
  sc_destination_region_generation := nil_id;
  sc_destination_new_version := nil_id;
  sc_observed_content := default_ContentFingerprint;
  sc_content_moved := true |}%N.

(** [SyncFailRequest]. *)
Record SyncFailRequest := mkSyncFailRequest {
  sf_context : AuthorityContext;
  sf_operation : SyncOperationId;
  sf_cause : StatusCode.t;
  sf_outcome_unknown : bool;
  sf_detail : string }.
#[export] Instance eta_SyncFailRequest : Eta SyncFailRequest := fun x => mkSyncFailRequest
  (sf_context x) (sf_operation x) (sf_cause x) (sf_outcome_unknown x) (sf_detail x).
Definition default_SyncFailRequest : SyncFailRequest := {|
  sf_context := default_AuthorityContext;
  sf_operation := nil_id;
  sf_cause := StatusCode.TransportFailure;
  sf_outcome_unknown := false;
  sf_detail := ""%string |}%N.

(** [RegionRegistration]. *)
Record RegionRegistration := mkRegionRegistration {
  rn_context : AuthorityContext;
  rn_domain : CoherenceDomainId;
  rn_requested_id : RegionId;
  rn_name : string;
  rn_memory_domain : MemoryDomain.t;
  rn_evidence_class : EvidenceClass.t;
  rn_offset : N;
  rn_length : N;
  rn_address_hint : N;
  rn_requested_replica : ReplicaId;
  rn_declared_writable : bool;
  rn_initial_version : VersionId;
  rn_content : ContentFingerprint }.
#[export] Instance eta_RegionRegistration : Eta RegionRegistration := fun x => mkRegionRegistration
  (rn_context x) (rn_domain x) (rn_requested_id x) (rn_name x) (rn_memory_domain x)
  (rn_evidence_class x) (rn_offset x) (rn_length x) (rn_address_hint x)
  (rn_requested_replica x) (rn_declared_writable x) (rn_initial_version x) (rn_content x).
Definition default_RegionRegistration : RegionRegistration := {|
  rn_context := default_AuthorityContext;
  rn_domain := nil_id;
  rn_requested_id := nil_id;
  rn_name := ""%string;
  rn_memory_domain := MemoryDomain.Unknown;
  rn_evidence_class := EvidenceClass.Unsupported;
  rn_offset := 0;
  rn_length := 0;
  rn_address_hint := 0;
  rn_requested_replica := nil_id;
  rn_declared_writable := true;
  rn_initial_version := nil_id;
  rn_content := default_ContentFingerprint |}%N.

(** [SnapshotOptions]. *)
Record SnapshotOptions := mkSnapshotOptions {
  sno_include_regions : bool;
  sno_include_reads : bool;
  sno_include_invalidations : bool;
  sno_include_syncs : bool;
  sno_include_participants : bool;
  sno_object_filter : ObjectId;
  sno_max_objects : N }.
#[export] Instance eta_SnapshotOptions : Eta SnapshotOptions := fun x => mkSnapshotOptions
  (sno_include_regions x) (sno_include_reads x) (sno_include_invalidations x)
  (sno_include_syncs x) (sno_include_participants x) (sno_object_filter x)
  (sno_max_objects x).
Definition default_SnapshotOptions : SnapshotOptions := {|
  sno_include_regions := true;
  sno_include_reads := true;
  sno_include_invalidations := true;
  sno_include_syncs := true;
  sno_include_participants := true;
  sno_object_filter := nil_id;
  sno_max_objects := 0 |}%N.

(** [CoherenceSnapshot]. *)
Record CoherenceSnapshot := mkCoherenceSnapshot {
  sn_epoch : CoordinatorEpoch;
  sn_sequence : OperationSequence;
  sn_build : string;
  sn_domains : list DomainRecord;
  sn_participants : list ParticipantRecord;
  sn_objects : list ObjectRecord;
  sn_regions : list RegionRecord;
  sn_invalidations : list InvalidationRecord;
  sn_syncs : list SyncRecord;
  sn_shutting_down : bool }.
#[export] Instance eta_CoherenceSnapshot : Eta CoherenceSnapshot := fun x => mkCoherenceSnapshot
  (sn_epoch x) (sn_sequence x) (sn_build x) (sn_domains x) (sn_participants x)
  (sn_objects x) (sn_regions x) (sn_invalidations x) (sn_syncs x) (sn_shutting_down x).
Definition default_CoherenceSnapshot : CoherenceSnapshot := {|
  sn_epoch := nil_id;
  sn_sequence := nil_id;
  sn_build := ""%string;
  sn_domains := [];
  sn_participants := [];
  sn_objects := [];
  sn_regions := [];
  sn_invalidations := [];
  sn_syncs := [];
  sn_shutting_down := false |}%N.

(** [AuditFinding]. *)
Record AuditFinding := mkAuditFinding {
  af_code : StatusCode.t;
  af_object : ObjectId;
  af_region : RegionId;
  af_participant : ParticipantId;
  af_invalidation : InvalidationId;
  af_sync : SyncOperationId }.
#[export] Instance eta_AuditFinding : Eta AuditFinding := fun x => mkAuditFinding
  (af_code x) (af_object x) (af_region x) (af_participant x) (af_invalidation x)
  (af_sync x).
Definition default_AuditFinding : AuditFinding := {|
  af_code := StatusCode.Ok;
  af_object := nil_id;
  af_region := nil_id;
  af_participant := nil_id;
  af_invalidation := nil_id;
  af_sync := nil_id |}%N.

(** [AuditReport]. *)
Record AuditReport := mkAuditReport {
  ar_clean : bool;
  ar_epoch : CoordinatorEpoch;
  ar_sequence : OperationSequence;
  ar_objects_checked : N;
  ar_regions_checked : N;
  ar_participants_checked : N;
  ar_invalidations_checked : N;
  ar_syncs_checked : N;
  ar_findings : list AuditFinding }.
#[export] Instance eta_AuditReport : Eta AuditReport := fun x => mkAuditReport
  (ar_clean x) (ar_epoch x) (ar_sequence x) (ar_objects_checked x) (ar_regions_checked x)
  (ar_participants_checked x) (ar_invalidations_checked x) (ar_syncs_checked x)
  (ar_findings x).
Definition default_AuditReport : AuditReport := {|
  ar_clean := true;
  ar_epoch := nil_id;
  ar_sequence := nil_id;
  ar_objects_checked := 0;
  ar_regions_checked := 0;
  ar_participants_checked := 0;
  ar_invalidations_checked := 0;
  ar_syncs_checked := 0;
  ar_findings := [] |}%N.

(** The notes of a recovery report: one constructor per note the code pushes,
    with what its text interpolates. *)
Inductive RecoveryNote :=
| TruncatedTail
| RecordsIgnored (identity_mismatches : N)
| WriteBackFailed (code : StatusCode.t)
| EpochAdvanced (previous new : N)
| AuthorityInvalidated.

(** [RecoveryReport]. *)
Record RecoveryReport := mkRecoveryReport {
  rep_performed : bool;
  rep_previous_epoch : CoordinatorEpoch;
  rep_new_epoch : CoordinatorEpoch;
  rep_objects_restored : N;
  rep_regions_restored : N;
  rep_participants_restored : N;
  rep_regions_downgraded : N;
  rep_authority_revoked : N;
  rep_publications_completed : N;
  rep_publications_requiring_operator : N;
  rep_syncs_classified_unknown : N;
  rep_invalidations_superseded : N;
  rep_journal_records_replayed : N;
  rep_corrupt_records_skipped : N;
  rep_notes : list RecoveryNote }.
#[export] Instance eta_RecoveryReport : Eta RecoveryReport := fun x => mkRecoveryReport
  (rep_performed x) (rep_previous_epoch x) (rep_new_epoch x) (rep_objects_restored x)
  (rep_regions_restored x) (rep_participants_restored x) (rep_regions_downgraded x)
  (rep_authority_revoked x) (rep_publications_completed x)
  (rep_publications_requiring_operator x) (rep_syncs_classified_unknown x)
  (rep_invalidations_superseded x) (rep_journal_records_replayed x)
  (rep_corrupt_records_skipped x) (rep_notes x).
Definition default_RecoveryReport : RecoveryReport := {|
  rep_performed := false;
  rep_previous_epoch := nil_id;
  rep_new_epoch := nil_id;
  rep_objects_restored := 0;
  rep_regions_restored := 0;
  rep_participants_restored := 0;
  rep_regions_downgraded := 0;
  rep_authority_revoked := 0;
  rep_publications_completed := 0;
  rep_publications_requiring_operator := 0;
  rep_syncs_classified_unknown := 0;
  rep_invalidations_superseded := 0;
  rep_journal_records_replayed := 0;
  rep_corrupt_records_skipped := 0;
  rep_notes := [] |}%N.
