(* ===== verification/Serialize.v ===== *)
(** * Bytes, readers and writers
    ([include/coherence/serialize.hpp], [src/serialize.cpp], [src/bytes.cpp])

    A byte is a [Byte.byte].  [ByteWriter] methods are the bytes they append;
    [ByteReader] methods are functions of the bytes that remain.  [Lawful] is
    the contract of a matched pair: the reader inverts the writer and accepts
    nothing else. *)
From Stdlib Require Import Strings.Byte Strings.String.
From S2P Require Import Prelude Ids Enums Status Bytes.

#[export] Instance byte_eq_dec : EqDecision byte.
Proof. intros a b. destruct (Byte.byte_eq_dec a b); [by left|by right]. Defined.

(** ** Little-endian integers *)

(** [static_cast<std::byte>(value & 0xFF)]. *)
Definition to_byte (v : N) : byte := default x00 (Byte.of_N (N.land v 255)).

(** [store_u8], [store_u16], [store_u32], [store_u64]: byte [i] is
    [(value >> (8 * i)) & 0xFF]. *)
Definition le_bytes (width : nat) (v : N) : list byte :=
  (λ i, to_byte (N.shiftr v (8 * N.of_nat i))) <$> seq 0 width.

(** The value of the bytes of a field, the first the least significant. *)
Fixpoint le_value (bs : list byte) : N :=
  match bs with
  | [] => 0
  | b :: rest => N.lor (Byte.to_N b) (N.shiftl (le_value rest) 8)
  end.

(** [load_u8], [load_u16], [load_u32], [load_u64]. *)
Definition load_le (width : nat) (src : list byte) (offset : nat) : N :=
  le_value (take width (drop offset src)).

(** [store_u32] into an existing buffer. *)
Definition store_le (width : nat) (dst : list byte) (offset : nat) (v : N) : list byte :=
  list_inserts offset (le_bytes width v) dst.

(** ** [ByteWriter] *)
Module ByteWriter.
Definition u8 (v : N) : list byte := le_bytes 1 v.
Definition u16 (v : N) : list byte := le_bytes 2 v.
Definition u32 (v : N) : list byte := le_bytes 4 v.
Definition u64 (v : N) : list byte := le_bytes 8 v.
Definition boolean (v : bool) : list byte := u8 (if v then 1 else 0).
Definition text (v : string) : list byte :=
  u32 (N.of_nat (String.length v)) ++ String.list_byte_of_string v.
Definition blob (v : list byte) : list byte := u64 (N.of_nat (length v)) ++ v.
Definition uuid (v : UInt128) : list byte := u64 (high v) ++ u64 (low v).
Definition strong_id {t} (v : StrongId t) : list byte := u64 (value v).
Definition strong_uuid {t} (v : StrongUuid t) : list byte := uuid (Ids.uuid v).
End ByteWriter.

(** ** [ByteReader] *)

(** What reading a value returns: the value and the bytes that remain; [Failed]
    when the reader's [failed_] flag is set; [Rejected] when a decoder refuses
    what was read and the flag is not. *)
Inductive read_result (A : Type) :=
| Read (a : A) (rest : list byte)
| Failed
| Rejected.
Arguments Read {A}. Arguments Failed {A}. Arguments Rejected {A}.

Definition Reader (A : Type) : Type := list byte → read_result A.

Definition read_ret {A} (a : A) : Reader A := λ l, Read a l.
Definition read_bind {A B} (r : Reader A) (k : A → Reader B) : Reader B := λ l,
  match r l with
  | Read a rest => k a rest
  | Failed => Failed
  | Rejected => Rejected
  end.
(** [if (!cond) return false]. *)
Definition require (cond : bool) : Reader unit := λ l, if cond then Read () l else Rejected.

Declare Scope reader_scope.
Delimit Scope reader_scope with reader.
Notation "'let*' x := e 'in' k" := (read_bind e (λ x, k))
  (at level 200, x name, e at level 100, k at level 200, right associativity) : reader_scope.
Notation "'let*' '_' := e 'in' k" := (read_bind e (λ _, k))
  (at level 200, e at level 100, k at level 200, right associativity) : reader_scope.
Open Scope reader_scope.

Module ByteReader.
(** A fixed-width field: [failed_] when fewer bytes remain. *)
Definition field (width : nat) : Reader N := λ l,
  if decide (length l < width) then Failed else Read (load_le width l 0) (drop width l).
Definition u8 : Reader N := field 1.
Definition u16 : Reader N := field 2.
Definition u32 : Reader N := field 4.
Definition u64 : Reader N := field 8.
Definition boolean : Reader bool :=
  let* raw := u8 in λ l, if (1 <? raw)%N then Failed else Read (negb (raw =? 0)%N) l.
(** The contents of a length-prefixed field. *)
Definition contents (limit : N) (len : N) : Reader (list byte) := λ l,
  if (limit <? len)%N then Failed else
  if decide (N.of_nat (length l) < len)%N then Failed
  else Read (take (N.to_nat len) l) (drop (N.to_nat len) l).
Definition text (max_length : N) : Reader string :=
  let* len := u32 in
  let* bytes := contents max_length len in
  read_ret (String.string_of_list_byte bytes).
Definition blob (max_length : N) : Reader (list byte) :=
  let* len := u64 in contents max_length len.
Definition uuid : Reader UInt128 :=
  let* h := u64 in let* l := u64 in read_ret (mkUInt128 h l).
Definition strong_id {t} : Reader (StrongId t) :=
  let* raw := u64 in read_ret (from_value raw).
Definition strong_uuid {t} : Reader (StrongUuid t) :=
  let* v := uuid in read_ret (from_uuid v).
(** [ByteReader::expect_end] and [status], after a decoder has run. *)
Definition finish {A} (r : read_result A) : result A :=
  match r with
  | Read a [] => success a
  | Read _ _ => failure StatusCode.TrailingGarbage
  | Failed => failure StatusCode.TruncatedInput
  | Rejected => failure StatusCode.CorruptionDetected
  end.
End ByteReader.

(** ** Lawful pairs of a writer and a reader *)

(** [read_written]: the reader inverts the writer on the values it can carry.
    [written_read]: whatever the reader accepts is the encoding of its answer,
    so an encoding is canonical. *)
Class Lawful {A} (fits : A → Prop) (enc : A → list byte) (dec : Reader A) : Prop := {
  read_written a rest : fits a → dec (enc a ++ rest) = Read a rest;
  written_read l a rest : dec l = Read a rest → fits a ∧ l = enc a ++ rest }.

(** ** Little-endian lemmas *)

Lemma to_N_byte v : Byte.to_N (to_byte v) = (v mod 256)%N.
Proof.
  unfold to_byte. change 255%N with (N.ones 8). rewrite N.land_ones. change (2 ^ 8)%N with 256%N.
  destruct (Byte.of_N (v mod 256)) as [b|] eqn:E; simpl.
  - by apply Byte.to_of_N.
  - apply Byte.of_N_None_iff in E. pose proof (N.mod_lt v 256). lia.
Qed.

Lemma to_byte_to_N b : to_byte (Byte.to_N b) = b.
Proof.
  unfold to_byte. change 255%N with (N.ones 8). rewrite N.land_ones.
  rewrite N.mod_small by (pose proof (Byte.to_N_bounded b); change (2 ^ 8)%N with 256%N; lia).
  by rewrite Byte.of_to_N.
Qed.

Lemma to_byte_mod v : to_byte (v mod 256) = to_byte v.
Proof.
  unfold to_byte. change 255%N with (N.ones 8). rewrite !N.land_ones. change (2 ^ 8)%N with 256%N.
  by rewrite N.Div0.mod_mod.
Qed.

Lemma le_bytes_length w v : length (le_bytes w v) = w.
Proof. unfold le_bytes. by rewrite length_fmap, length_seq. Qed.

Lemma le_bytes_S w v : le_bytes (S w) v = to_byte v :: le_bytes w (v / 256).
Proof.
  unfold le_bytes. change (seq 0 (S w)) with (0 :: seq 1 w). rewrite fmap_cons. f_equal.
  rewrite <-fmap_S_seq, <-list_fmap_compose. apply list_fmap_ext. intros _ i _. simpl. f_equal.
  rewrite Nat2N.inj_succ. replace (8 * N.succ (N.of_nat i))%N with (8 + 8 * N.of_nat i)%N by lia.
  by rewrite <-N.shiftr_shiftr, (N.shiftr_div_pow2 v 8).
Qed.

(** The bits of a byte and of the bytes above it do not overlap. *)
Lemma le_value_cons b bs : le_value (b :: bs) = (Byte.to_N b + 256 * le_value bs)%N.
Proof.
  simpl. pose proof (Byte.to_N_bounded b) as Hb. set (x := Byte.to_N b) in *. set (y := le_value bs).
  assert (Hl : N.land x (N.shiftl y 8) = 0%N).
  { apply N.bits_inj_0. intros n. rewrite N.land_spec. destruct (N.lt_ge_cases n 8) as [Hn|Hn].
    - by rewrite N.shiftl_spec_low, andb_false_r by done.
    - rewrite <-(N.mod_small x (2 ^ 8)) by (change (2 ^ 8)%N with 256%N; lia).
      by rewrite N.mod_pow2_bits_high. }
  rewrite <-N.lxor_lor, <-N.add_nocarry_lxor by done. rewrite N.shiftl_mul_pow2.
  change (2 ^ 8)%N with 256%N. lia.
Qed.

Lemma le_value_bound bs : (le_value bs < 256 ^ N.of_nat (length bs))%N.
Proof.
  induction bs as [|b bs IH]; [done|]. rewrite le_value_cons. cbn [length].
  rewrite Nat2N.inj_succ, N.pow_succ_r'. pose proof (Byte.to_N_bounded b). lia.
Qed.

Lemma le_value_bytes w v : le_value (le_bytes w v) = (v mod 256 ^ N.of_nat w)%N.
Proof.
  revert v. induction w as [|w IH]; intros v; [by rewrite N.mod_1_r|].
  rewrite le_bytes_S, le_value_cons, IH, to_N_byte, Nat2N.inj_succ, N.pow_succ_r'.
  by rewrite N.Div0.mod_mul_r.
Qed.

Lemma le_bytes_value bs : le_bytes (length bs) (le_value bs) = bs.
Proof.
  induction bs as [|b bs IH]; [done|]. cbn [length]. rewrite le_bytes_S, le_value_cons. f_equal.
  - rewrite <-to_byte_mod, N.mul_comm, N.Div0.mod_add, to_byte_mod. apply to_byte_to_N.
  - rewrite N.mul_comm, N.div_add by done. rewrite N.div_small by (pose proof (Byte.to_N_bounded b); lia).
    by rewrite N.add_0_l.
Qed.

(** A field read where it was written. *)
Lemma load_le_app w v l : (v < 256 ^ N.of_nat w)%N → load_le w (le_bytes w v ++ l) 0 = v.
Proof.
  intros Hv. unfold load_le. rewrite drop_0, take_app_length' by (by rewrite le_bytes_length).
  rewrite le_value_bytes. by apply N.mod_small.
Qed.

Lemma load_le_drop w l k n : length l = n → load_le w (l ++ k) (n + 0) = load_le w k 0.
Proof. intros <-. unfold load_le. by rewrite Nat.add_0_r, drop_app_length, drop_0. Qed.

(** ** The primitive pairs are lawful *)

Definition fits_width (w : nat) (v : N) : Prop := (v < 256 ^ N.of_nat w)%N.
Definition fits_id {t} (v : StrongId t) : Prop := fits_width 8 (value v).
Definition fits_uuid128 (v : UInt128) : Prop := fits_width 8 (high v) ∧ fits_width 8 (low v).
Definition fits_uuid {t} (v : StrongUuid t) : Prop := fits_uuid128 (uuid v).
Definition fits_text (limit : N) (v : string) : Prop :=
  (N.of_nat (String.length v) ≤ limit)%N ∧ fits_width 4 (N.of_nat (String.length v)).

#[export] Instance fits_width_dec w v : Decision (fits_width w v).
Proof. unfold fits_width. apply _. Defined.

Lemma bind_written {A B} {fits : A → Prop} {enc dec} `{!Lawful fits enc dec} (k : A → Reader B) a rest :
  fits a → read_bind dec k (enc a ++ rest) = k a rest.
Proof. intros Ha. unfold read_bind. by rewrite read_written. Qed.

Lemma bind_read {A B} {fits : A → Prop} {enc dec} `{!Lawful fits enc dec} (k : A → Reader B) l b rest :
  read_bind dec k l = Read b rest → ∃ a l', fits a ∧ l = enc a ++ l' ∧ k a l' = Read b rest.
Proof.
  unfold read_bind. destruct (dec l) as [a l'| |] eqn:E; try done. intros Hk.
  apply written_read in E as [Ha ->]. eauto.
Qed.

#[export] Instance field_lawful w : Lawful (fits_width w) (le_bytes w) (ByteReader.field w).
Proof.
  split.
  - intros a rest Ha. unfold ByteReader.field. rewrite decide_False by (rewrite length_app, le_bytes_length; lia).
    by rewrite load_le_app, drop_app_length' by (by rewrite ?le_bytes_length).
  - intros l a rest. unfold ByteReader.field. case_decide as Hl; [done|]. intros [= <- <-].
    assert (Hw : length (take w l) = w) by (rewrite length_take; lia). unfold load_le. rewrite drop_0.
    unfold fits_width. rewrite <-Hw at 2 3. split; [apply le_value_bound|].
    by rewrite le_bytes_value, take_drop.
Qed.

#[export] Instance u8_lawful : Lawful (fits_width 1) ByteWriter.u8 ByteReader.u8 := field_lawful 1.
#[export] Instance u16_lawful : Lawful (fits_width 2) ByteWriter.u16 ByteReader.u16 := field_lawful 2.
#[export] Instance u32_lawful : Lawful (fits_width 4) ByteWriter.u32 ByteReader.u32 := field_lawful 4.
#[export] Instance u64_lawful : Lawful (fits_width 8) ByteWriter.u64 ByteReader.u64 := field_lawful 8.

#[export] Instance boolean_lawful : Lawful (λ _, True) ByteWriter.boolean ByteReader.boolean.
Proof.
  split.
  - intros a rest _. unfold ByteReader.boolean, ByteWriter.boolean. rewrite bind_written by (by destruct a). by destruct a.
  - intros l a rest H. apply bind_read in H as (raw & l' & _ & -> & H).
    destruct (N.ltb_spec 1 raw); [done|]. injection H as <- <-. split; [done|].
    unfold ByteWriter.boolean. assert (raw = 0 ∨ raw = 1)%N as [->| ->] by lia; done.
Qed.

#[export] Instance strong_id_lawful t : Lawful (@fits_id t) ByteWriter.strong_id ByteReader.strong_id.
Proof.
  split.
  - intros [a] rest Ha. unfold ByteReader.strong_id, ByteWriter.strong_id. by rewrite bind_written.
  - intros l a rest H. by apply bind_read in H as (raw & l' & ? & -> & [= <- <-]).
Qed.

#[export] Instance uuid_lawful : Lawful fits_uuid128 ByteWriter.uuid ByteReader.uuid.
Proof.
  split.
  - intros [h l] rest [Hh Hl]. unfold ByteReader.uuid, ByteWriter.uuid.
    by rewrite <-app_assoc, !bind_written.
  - intros l a rest H. apply bind_read in H as (h & l1 & ? & -> & H).
    apply bind_read in H as (w & l2 & ? & -> & [= <- <-]). split; [done|].
    unfold ByteWriter.uuid. by rewrite <-app_assoc.
Qed.

#[export] Instance strong_uuid_lawful t : Lawful (@fits_uuid t) ByteWriter.strong_uuid ByteReader.strong_uuid.
Proof.
  split.
  - intros [a] rest Ha. unfold ByteReader.strong_uuid, ByteWriter.strong_uuid. by rewrite bind_written.
  - intros l a rest H. by apply bind_read in H as (raw & l' & ? & -> & [= <- <-]).
Qed.

Lemma list_byte_of_string_length s : length (String.list_byte_of_string s) = String.length s.
Proof. unfold String.list_byte_of_string. induction s; simpl; [done|]. by f_equal. Qed.

#[export] Instance text_lawful limit : Lawful (fits_text limit) ByteWriter.text (ByteReader.text limit).
Proof.
  split.
  - intros a rest [Hl Hw]. unfold ByteReader.text, ByteWriter.text.
    rewrite <-app_assoc, bind_written by done. unfold read_bind, ByteReader.contents.
    destruct (N.ltb_spec limit (N.of_nat (String.length a))); [lia|].
    rewrite decide_False by (rewrite length_app, list_byte_of_string_length; lia).
    rewrite Nat2N.id, take_app_length', drop_app_length' by (by rewrite list_byte_of_string_length).
    by rewrite String.string_of_list_byte_of_string.
  - intros l a rest H. apply bind_read in H as (len & l' & Hlen & -> & H).
    unfold read_bind, ByteReader.contents in H. destruct (N.ltb_spec limit len) as [|Hlim]; [done|].
    case_decide as Hl; [done|]. injection H as <- <-.
    assert (E : N.of_nat (String.length (String.string_of_list_byte (take (N.to_nat len) l'))) = len).
    { rewrite <-list_byte_of_string_length, String.list_byte_of_string_of_list_byte, length_take. lia. }
    unfold fits_text, ByteWriter.text. rewrite E, String.list_byte_of_string_of_list_byte. split; [done|].
    by rewrite <-app_assoc, take_drop.
Qed.

(** A condition a decoder checks on what it has read. *)
Lemma require_read {B} cond (k : unit → Reader B) l b rest :
  read_bind (require cond) k l = Read b rest → cond = true ∧ k () l = Read b rest.
Proof. unfold read_bind, require. by destruct cond. Qed.

Lemma require_true {B} cond (k : unit → Reader B) l : cond = true → read_bind (require cond) k l = k () l.
Proof. by intros ->. Qed.
