(* ===== verification/Codec.v ===== *)
(** * The binary encoding of records
    ([include/coherence/codec.hpp], [src/codec.cpp], [src/codec_internal.hpp])

    One encoder and one decoder per record, field by field in the order of the
    code, and for each record the values its encoding can carry ([fits_*]).
    Every pair is [Lawful]: decoding inverts encoding, and a decoder accepts
    nothing but the encoding of what it returns. *)
From Stdlib Require Import Strings.Byte Strings.String.
From S2P Require Import Prelude Ids Enums Status Bytes Policy Evidence Model Decisions Serialize.

(** [kRecordVersion], [DecodeLimits] and its defaults. *)
Definition kRecordVersion : N := 1.
Record DecodeLimits := mkDecodeLimits {
  max_text : N;
  max_blob : N;
  max_collection : N;
  max_object_length : N }.
Definition default_decode_limits : DecodeLimits := {|
  max_text := 4096;
  max_blob := N.shiftl 1 28;
  max_collection := 4000000;
  max_object_length := N.shiftl 1 40 |}%N.

(** ** Shared pieces *)

(** [enc_enum] and [dec_enum]: an undeclared byte is rejected. *)
Definition enc_enum {E} `{EnumTable E} (v : E) : list byte := ByteWriter.u8 (enum_u8 v).
Definition dec_enum {E} `{EnumTable E, !EqDecision E} : Reader E :=
  let* raw := ByteReader.u8 in
  match enum_from_u8 raw with Some v => read_ret v | None => λ _, Rejected end.

Definition dec_text (limits : DecodeLimits) : Reader string := ByteReader.text (max_text limits).

Definition dec_header (expected : N) : Reader unit :=
  let* version := ByteReader.u16 in require (version =? expected)%N.

(** A counted sequence: the loops over [replicas], [reads],
    [outstanding_invalidations] and [completed_requests]. *)
Definition enc_list {A} (enc : A → list byte) (l : list A) : list byte :=
  ByteWriter.u64 (N.of_nat (length l)) ++ concat (enc <$> l).
Fixpoint read_n {A} (dec : Reader A) (n : nat) : Reader (list A) :=
  match n with
  | O => read_ret []
  | S n => let* a := dec in let* rest := read_n dec n in read_ret (a :: rest)
  end.
Definition dec_list {A} (limits : DecodeLimits) (dec : Reader A) : Reader (list A) :=
  let* count := ByteReader.u64 in
  let* _ := require (count <=? max_collection limits)%N in
  read_n dec (N.to_nat count).

Definition fits_list {A} (limits : DecodeLimits) (fits : A → Prop) (l : list A) : Prop :=
  (N.of_nat (length l) ≤ max_collection limits)%N ∧ fits_width 8 (N.of_nat (length l)) ∧ Forall fits l.

#[export] Instance enum_lawful {E} `{EnumTableOk E} : Lawful (λ _ : E, True) enc_enum dec_enum.
Proof.
  split.
  - intros a rest _. unfold dec_enum, enc_enum. rewrite bind_written by (apply enum_u8_byte).
    destruct (enum_from_u8_spec (enum_u8 a) a) as [_ ->]; done.
  - intros l a rest H1. apply bind_read in H1 as (raw & l' & _ & -> & H1).
    destruct (enum_from_u8 raw) as [v|] eqn:E1; [|done]. injection H1 as <- <-.
    by apply enum_from_u8_spec in E1 as ->.
Qed.

#[export] Instance dec_text_lawful limits : Lawful (fits_text (max_text limits)) ByteWriter.text (dec_text limits) :=
  text_lawful _.

Lemma header_written {B} version (k : unit → Reader B) rest :
  fits_width 2 version → read_bind (dec_header version) k (ByteWriter.u16 version ++ rest) = k () rest.
Proof.
  intros Hv. unfold dec_header. unfold read_bind at 1. rewrite bind_written by done.
  unfold require. by rewrite N.eqb_refl.
Qed.

Lemma header_read {B} version (k : unit → Reader B) l b rest :
  read_bind (dec_header version) k l = Read b rest → ∃ l', l = ByteWriter.u16 version ++ l' ∧ k () l' = Read b rest.
Proof.
  unfold read_bind at 1. destruct (dec_header version l) as [[] l'| |] eqn:E; try done. intros Hk.
  apply bind_read in E as (raw & l1 & _ & -> & E). unfold require in E. destruct (N.eqb_spec raw version); [|done].
  injection E as ->. subst. eauto.
Qed.

Section lists.
Context {A : Type} {fits : A → Prop} {enc : A → list byte} {dec : Reader A} `{!Lawful fits enc dec}.

Lemma read_n_written l rest : Forall fits l → read_n dec (length l) (concat (enc <$> l) ++ rest) = Read l rest.
Proof.
  induction 1 as [|a l Ha _ IH]; [done|]. cbn [length read_n fmap list_fmap concat]. rewrite <-app_assoc, bind_written by done.
  unfold read_bind at 1. by rewrite IH.
Qed.

Lemma read_n_read n l a rest : read_n dec n l = Read a rest → length a = n ∧ Forall fits a ∧ l = concat (enc <$> a) ++ rest.
Proof.
  revert l a rest. induction n as [|n IH]; intros l a rest; cbn [read_n]; [by intros [= <- <-]|]. intros H.
  apply bind_read in H as (x & l1 & Hx & -> & H). unfold read_bind in H.
  destruct (read_n dec n l1) as [y l2| |] eqn:E; try done. apply IH in E as (<- & Hy & ->).
  injection H as <- <-. cbn. split_and!; auto. by rewrite <-app_assoc.
Qed.

#[export] Instance list_lawful limits : Lawful (fits_list limits fits) (enc_list enc) (dec_list limits dec).
Proof.
  split.
  - intros l rest (Hc & Hw & Hl). unfold dec_list, enc_list. rewrite <-app_assoc, bind_written by done.
    rewrite require_true by (by apply N.leb_le). rewrite Nat2N.id. by apply read_n_written.
  - intros l a rest H. apply bind_read in H as (c & l1 & Hc & -> & H). apply require_read in H as [Hm H].
    apply read_n_read in H as (Hn & Hf & ->). apply N.leb_le in Hm.
    assert (E : N.of_nat (length a) = c) by lia. unfold fits_list, enc_list. rewrite E. by rewrite <-app_assoc.
Qed.
End lists.

(** One step of a record's decoder against the field its encoder wrote. *)
Ltac written_side := first
  [ done
  | reflexivity
  | apply N.leb_le; assumption
  | apply negb_true_iff, N.eqb_neq; assumption ].
Ltac written_step :=
  lazymatch goal with
  | |- read_bind (dec_header _) _ _ = _ => etransitivity; [apply header_written; reflexivity|]
  | |- read_bind (require _) _ _ = _ => etransitivity; [apply require_true; written_side|]
  | |- read_bind _ _ _ = _ => etransitivity; [apply bind_written; written_side|]
  end; cbv beta.
(** One accepted field: what was read is the encoding of a value that fits. *)
Ltac read_step H :=
  lazymatch type of H with
  | read_bind (dec_header _) _ _ = _ => apply header_read in H as (? & -> & H)
  | read_bind (require _) _ _ = _ =>
      let C := fresh "C" in apply require_read in H as [C H];
      first [apply N.leb_le in C | apply negb_true_iff, N.eqb_neq in C]
  | read_bind _ _ _ = _ => apply bind_read in H as (? & ? & ? & -> & H)
  end; cbv beta in H.
Ltac solve_record enc dec fits :=
  split;
  [ let v := fresh "v" in let Hf := fresh "Hf" in
    intros v ? Hf; unfold fits in Hf; unfold enc, dec; decompose [and] Hf; clear Hf;
    rewrite <-?app_assoc; repeat written_step; reflexivity
  | let H := fresh "H" in
    intros ? ? ? H; unfold dec in H; repeat read_step H; injection H as <- <-;
    split; [unfold fits; cbn; split_and?; done | unfold enc; rewrite <-?app_assoc; reflexivity] ].

(** [encode_fingerprint] and [decode_fingerprint]. *)
Definition encode_fingerprint (v : ContentFingerprint) : list byte :=
  ByteWriter.boolean (cf_defined v) ++
  ByteWriter.strong_uuid (cf_digest v) ++
  ByteWriter.u32 (cf_crc32c v) ++
  ByteWriter.u64 (cf_length v).
Definition decode_fingerprint (limits : DecodeLimits) : Reader ContentFingerprint :=
  let* defined' := ByteReader.boolean in
  let* digest' := ByteReader.strong_uuid in
  let* crc' := ByteReader.u32 in
  let* length' := ByteReader.u64 in
  let* _ := require (length' <=? max_object_length limits)%N in
  read_ret {| cf_defined := defined'; cf_digest := digest'; cf_crc32c := crc'; cf_length := length' |}.
Definition fits_fingerprint (limits : DecodeLimits) (v : ContentFingerprint) : Prop :=
  fits_uuid (cf_digest v) ∧ fits_width 4 (cf_crc32c v) ∧ fits_width 8 (cf_length v) ∧
  (cf_length v ≤ max_object_length limits)%N.
#[export] Instance fingerprint_lawful limits :
  Lawful (fits_fingerprint limits) encode_fingerprint (decode_fingerprint limits).
Proof. solve_record encode_fingerprint decode_fingerprint fits_fingerprint. Qed.

(** [encode_policy] and [decode_policy]. *)
Definition encode_policy (v : CoherencePolicy) : list byte :=
  ByteWriter.u16 kRecordVersion ++
  ByteWriter.strong_id (pol_id v) ++
  ByteWriter.strong_id (pol_generation v) ++
  ByteWriter.text (pol_name v) ++
  enc_enum (pol_consistency v) ++
  enc_enum (pol_write_ownership v) ++
  enc_enum (pol_publication_durability v) ++
  enc_enum (pol_conflict_behavior v) ++
  enc_enum (pol_recovery_policy v) ++
  enc_enum (pol_stale_read_policy v) ++
  enc_enum (pol_dirty_loss_policy v) ++
  ByteWriter.u64 (pol_stale_read_bound_versions v) ++
  ByteWriter.u64 (pol_evidence_max_age_operations v) ++
  ByteWriter.boolean (pol_require_invalidation_acks_before_publication v) ++
  ByteWriter.boolean (pol_require_sync_completion_for_currentness v) ++
  ByteWriter.u32 (pol_allowed_domains_mask v) ++
  ByteWriter.boolean (pol_require_content_fingerprint v).
Definition decode_policy (limits : DecodeLimits) : Reader CoherencePolicy :=
  let* _ := dec_header kRecordVersion in
  let* id' := ByteReader.strong_id in
  let* generation' := ByteReader.strong_id in
  let* name' := dec_text limits in
  let* consistency' := dec_enum in
  let* write_ownership' := dec_enum in
  let* publication_durability' := dec_enum in
  let* conflict_behavior' := dec_enum in
  let* recovery_policy' := dec_enum in
  let* stale_read_policy' := dec_enum in
  let* dirty_loss_policy' := dec_enum in
  let* stale_read_bound_versions' := ByteReader.u64 in
  let* evidence_max_age_operations' := ByteReader.u64 in
  let* require_invalidation_acks_before_publication' := ByteReader.boolean in
  let* require_sync_completion_for_currentness' := ByteReader.boolean in
  let* allowed_domains_mask' := ByteReader.u32 in
  let* require_content_fingerprint' := ByteReader.boolean in
  read_ret {|
    pol_id := id'; pol_generation := generation'; pol_name := name'; pol_consistency := consistency';
    pol_write_ownership := write_ownership'; pol_publication_durability := publication_durability';
    pol_conflict_behavior := conflict_behavior'; pol_recovery_policy := recovery_policy';
    pol_stale_read_policy := stale_read_policy'; pol_dirty_loss_policy := dirty_loss_policy';
    pol_stale_read_bound_versions := stale_read_bound_versions'; pol_evidence_max_age_operations :=
    evidence_max_age_operations'; pol_require_invalidation_acks_before_publication :=
    require_invalidation_acks_before_publication'; pol_require_sync_completion_for_currentness :=
    require_sync_completion_for_currentness'; pol_allowed_domains_mask := allowed_domains_mask';
    pol_require_content_fingerprint := require_content_fingerprint' |}.
Definition fits_policy (limits : DecodeLimits) (v : CoherencePolicy) : Prop :=
  fits_id (pol_id v) ∧
  fits_id (pol_generation v) ∧
  fits_text (max_text limits) (pol_name v) ∧
  fits_width 8 (pol_stale_read_bound_versions v) ∧
  fits_width 8 (pol_evidence_max_age_operations v) ∧
  fits_width 4 (pol_allowed_domains_mask v).
#[export] Instance policy_lawful limits : Lawful (fits_policy limits) encode_policy (decode_policy limits).
Proof. solve_record encode_policy decode_policy fits_policy. Qed.

(** [encode_evidence] and [decode_evidence]. *)
Definition encode_evidence (v : EvidenceRecord) : list byte :=
  ByteWriter.u16 kRecordVersion ++
  ByteWriter.strong_id (e_id v) ++
  ByteWriter.strong_id (e_generation v) ++
  enc_enum (e_kind v) ++
  enc_enum (e_evidence_class v) ++
  ByteWriter.strong_id (e_participant v) ++
  ByteWriter.strong_uuid (e_boot v) ++
  ByteWriter.strong_id (e_epoch v) ++
  ByteWriter.strong_id (e_ownership_generation v) ++
  ByteWriter.strong_id (e_object v) ++
  ByteWriter.strong_id (e_object_generation v) ++
  ByteWriter.strong_id (e_region v) ++
  ByteWriter.strong_id (e_region_generation v) ++
  ByteWriter.strong_id (e_observed_version v) ++
  ByteWriter.strong_uuid (e_observed_digest v) ++
  ByteWriter.u32 (e_observed_crc32c v) ++
  ByteWriter.strong_id (e_sequence v) ++
  ByteWriter.boolean (e_process_local v) ++
  ByteWriter.text (e_note v).
Definition decode_evidence (limits : DecodeLimits) : Reader EvidenceRecord :=
  let* _ := dec_header kRecordVersion in
  let* id' := ByteReader.strong_id in
  let* generation' := ByteReader.strong_id in
  let* kind' := dec_enum in
  let* evidence_class' := dec_enum in
  let* participant' := ByteReader.strong_id in
  let* boot' := ByteReader.strong_uuid in
  let* epoch' := ByteReader.strong_id in
  let* ownership_generation' := ByteReader.strong_id in
  let* object' := ByteReader.strong_id in
  let* object_generation' := ByteReader.strong_id in
  let* region' := ByteReader.strong_id in
  let* region_generation' := ByteReader.strong_id in
  let* observed_version' := ByteReader.strong_id in
  let* observed_digest' := ByteReader.strong_uuid in
  let* observed_crc32c' := ByteReader.u32 in
  let* sequence' := ByteReader.strong_id in
  let* process_local' := ByteReader.boolean in
  let* note' := dec_text limits in
  read_ret {|
    e_id := id'; e_generation := generation'; e_kind := kind'; e_evidence_class := evidence_class';
    e_participant := participant'; e_boot := boot'; e_epoch := epoch'; e_ownership_generation :=
    ownership_generation'; e_object := object'; e_object_generation := object_generation'; e_region
    := region'; e_region_generation := region_generation'; e_observed_version := observed_version';
    e_observed_digest := observed_digest'; e_observed_crc32c := observed_crc32c'; e_sequence :=
    sequence'; e_process_local := process_local'; e_note := note' |}.
Definition fits_evidence (limits : DecodeLimits) (v : EvidenceRecord) : Prop :=
  fits_id (e_id v) ∧
  fits_id (e_generation v) ∧
  fits_id (e_participant v) ∧
  fits_uuid (e_boot v) ∧
  fits_id (e_epoch v) ∧
  fits_id (e_ownership_generation v) ∧
  fits_id (e_object v) ∧
  fits_id (e_object_generation v) ∧
  fits_id (e_region v) ∧
  fits_id (e_region_generation v) ∧
  fits_id (e_observed_version v) ∧
  fits_uuid (e_observed_digest v) ∧
  fits_width 4 (e_observed_crc32c v) ∧
  fits_id (e_sequence v) ∧
  fits_text (max_text limits) (e_note v).
#[export] Instance evidence_lawful limits : Lawful (fits_evidence limits) encode_evidence (decode_evidence limits).
Proof. solve_record encode_evidence decode_evidence fits_evidence. Qed.

(** [encode_authority_context] and [decode_authority_context]. *)
Definition encode_authority_context (v : AuthorityContext) : list byte :=
  ByteWriter.strong_id (ac_epoch v) ++
  ByteWriter.strong_id (ac_participant v) ++
  ByteWriter.strong_uuid (ac_boot v) ++
  ByteWriter.strong_id (ac_object v) ++
  ByteWriter.strong_id (ac_object_generation v) ++
  ByteWriter.strong_id (ac_policy_generation v) ++
  ByteWriter.strong_id (ac_request v).
Definition decode_authority_context (limits : DecodeLimits) : Reader AuthorityContext :=
  let* epoch' := ByteReader.strong_id in
  let* participant' := ByteReader.strong_id in
  let* boot' := ByteReader.strong_uuid in
  let* object' := ByteReader.strong_id in
  let* object_generation' := ByteReader.strong_id in
  let* policy_generation' := ByteReader.strong_id in
  let* request' := ByteReader.strong_id in
  read_ret {|
    ac_epoch := epoch'; ac_participant := participant'; ac_boot := boot'; ac_object := object';
    ac_object_generation := object_generation'; ac_policy_generation := policy_generation';
    ac_request := request' |}.
Definition fits_authority_context (limits : DecodeLimits) (v : AuthorityContext) : Prop :=
  fits_id (ac_epoch v) ∧
  fits_id (ac_participant v) ∧
  fits_uuid (ac_boot v) ∧
  fits_id (ac_object v) ∧
  fits_id (ac_object_generation v) ∧
  fits_id (ac_policy_generation v) ∧
  fits_id (ac_request v).
#[export] Instance authority_context_lawful limits : Lawful (fits_authority_context limits) encode_authority_context (decode_authority_context limits).
Proof. solve_record encode_authority_context decode_authority_context fits_authority_context. Qed.

(** [encode_domain] and [decode_domain]. *)
Definition encode_domain (v : DomainRecord) : list byte :=
  ByteWriter.u16 kRecordVersion ++
  ByteWriter.strong_id (d_id v) ++
  ByteWriter.text (d_name v) ++
  ByteWriter.u64 (d_generation v) ++
  enc_enum (d_lifecycle v) ++
  ByteWriter.strong_id (d_created_epoch v) ++
  ByteWriter.strong_id (d_current_epoch v).
Definition decode_domain (limits : DecodeLimits) : Reader DomainRecord :=
  let* _ := dec_header kRecordVersion in
  let* id' := ByteReader.strong_id in
  let* name' := dec_text limits in
  let* generation' := ByteReader.u64 in
  let* lifecycle' := dec_enum in
  let* created_epoch' := ByteReader.strong_id in
  let* current_epoch' := ByteReader.strong_id in
  let* _ := require (negb (generation' =? 0)%N) in
  read_ret {|
    d_id := id'; d_name := name'; d_generation := generation'; d_lifecycle := lifecycle';
    d_created_epoch := created_epoch'; d_current_epoch := current_epoch' |}.
Definition fits_domain (limits : DecodeLimits) (v : DomainRecord) : Prop :=
  fits_id (d_id v) ∧
  fits_text (max_text limits) (d_name v) ∧
  fits_width 8 (d_generation v) ∧
  fits_id (d_created_epoch v) ∧
  fits_id (d_current_epoch v) ∧
  (d_generation v ≠ 0)%N.
#[export] Instance domain_lawful limits : Lawful (fits_domain limits) encode_domain (decode_domain limits).
Proof. solve_record encode_domain decode_domain fits_domain. Qed.

(** [encode_participant] and [decode_participant]. *)
Definition encode_participant (v : ParticipantRecord) : list byte :=
  ByteWriter.u16 kRecordVersion ++
  ByteWriter.strong_id (p_id v) ++
  ByteWriter.text (p_name v) ++
  ByteWriter.strong_uuid (p_boot v) ++
  ByteWriter.strong_uuid (p_previous_boot v) ++
  enc_enum (p_lifecycle v) ++
  ByteWriter.strong_id (p_admitted_epoch v) ++
  ByteWriter.strong_id (p_last_epoch v) ++
  ByteWriter.strong_uuid (p_session v) ++
  ByteWriter.strong_id (p_last_sequence v) ++
  ByteWriter.boolean (p_live v) ++
  ByteWriter.u64 (p_region_count v) ++
  ByteWriter.text (p_node_label v) ++
  ByteWriter.text (p_fence_reason v).
Definition decode_participant (limits : DecodeLimits) : Reader ParticipantRecord :=
  let* _ := dec_header kRecordVersion in
  let* id' := ByteReader.strong_id in
  let* name' := dec_text limits in
  let* boot' := ByteReader.strong_uuid in
  let* previous_boot' := ByteReader.strong_uuid in
  let* lifecycle' := dec_enum in
  let* admitted_epoch' := ByteReader.strong_id in
  let* last_epoch' := ByteReader.strong_id in
  let* session' := ByteReader.strong_uuid in
  let* last_sequence' := ByteReader.strong_id in
  let* live' := ByteReader.boolean in
  let* region_count' := ByteReader.u64 in
  let* node_label' := dec_text limits in
  let* fence_reason' := dec_text limits in
  read_ret {|
    p_id := id'; p_name := name'; p_boot := boot'; p_previous_boot := previous_boot'; p_lifecycle :=
    lifecycle'; p_admitted_epoch := admitted_epoch'; p_last_epoch := last_epoch'; p_session :=
    session'; p_last_sequence := last_sequence'; p_live := live'; p_region_count := region_count';
    p_node_label := node_label'; p_fence_reason := fence_reason' |}.
Definition fits_participant (limits : DecodeLimits) (v : ParticipantRecord) : Prop :=
  fits_id (p_id v) ∧
  fits_text (max_text limits) (p_name v) ∧
  fits_uuid (p_boot v) ∧
  fits_uuid (p_previous_boot v) ∧
  fits_id (p_admitted_epoch v) ∧
  fits_id (p_last_epoch v) ∧
  fits_uuid (p_session v) ∧
  fits_id (p_last_sequence v) ∧
  fits_width 8 (p_region_count v) ∧
  fits_text (max_text limits) (p_node_label v) ∧
  fits_text (max_text limits) (p_fence_reason v).
#[export] Instance participant_lawful limits : Lawful (fits_participant limits) encode_participant (decode_participant limits).
Proof. solve_record encode_participant decode_participant fits_participant. Qed.

(** [encode_read_grant] and [decode_read_grant]. *)
Definition encode_read_grant (v : ReadGrant) : list byte :=
  ByteWriter.strong_id (g_lease v) ++
  ByteWriter.strong_id (g_participant v) ++
  ByteWriter.strong_uuid (g_boot v) ++
  ByteWriter.strong_id (g_object v) ++
  ByteWriter.strong_id (g_object_generation v) ++
  ByteWriter.strong_id (g_ownership_generation v) ++
  ByteWriter.strong_id (g_version v) ++
  ByteWriter.strong_id (g_region v) ++
  ByteWriter.strong_id (g_region_generation v) ++
  ByteWriter.strong_id (g_granted_sequence v) ++
  ByteWriter.boolean (g_released v).
Definition decode_read_grant : Reader ReadGrant :=
  let* lease' := ByteReader.strong_id in
  let* participant' := ByteReader.strong_id in
  let* boot' := ByteReader.strong_uuid in
  let* object' := ByteReader.strong_id in
  let* object_generation' := ByteReader.strong_id in
  let* ownership_generation' := ByteReader.strong_id in
  let* version' := ByteReader.strong_id in
  let* region' := ByteReader.strong_id in
  let* region_generation' := ByteReader.strong_id in
  let* granted_sequence' := ByteReader.strong_id in
  let* released' := ByteReader.boolean in
  read_ret {|
    g_lease := lease'; g_participant := participant'; g_boot := boot'; g_object := object';
    g_object_generation := object_generation'; g_ownership_generation := ownership_generation';
    g_version := version'; g_region := region'; g_region_generation := region_generation';
    g_granted_sequence := granted_sequence'; g_released := released' |}.
Definition fits_read_grant (v : ReadGrant) : Prop :=
  fits_id (g_lease v) ∧
  fits_id (g_participant v) ∧
  fits_uuid (g_boot v) ∧
  fits_id (g_object v) ∧
  fits_id (g_object_generation v) ∧
  fits_id (g_ownership_generation v) ∧
  fits_id (g_version v) ∧
  fits_id (g_region v) ∧
  fits_id (g_region_generation v) ∧
  fits_id (g_granted_sequence v).
#[export] Instance read_grant_lawful : Lawful (fits_read_grant) encode_read_grant (decode_read_grant).
Proof. solve_record encode_read_grant decode_read_grant fits_read_grant. Qed.

(** The entries of [completed_requests], written and read inside [encode_object]
    and [decode_object]. *)
Definition encode_completed_request (v : CompletedPublicationRequest) : list byte :=
  ByteWriter.strong_id (cr_request v) ++
  ByteWriter.strong_id (cr_version v) ++
  ByteWriter.strong_id (cr_publication v) ++
  ByteWriter.strong_id (cr_committed_sequence v).
Definition decode_completed_request : Reader CompletedPublicationRequest :=
  let* request' := ByteReader.strong_id in
  let* version' := ByteReader.strong_id in
  let* publication' := ByteReader.strong_id in
  let* committed_sequence' := ByteReader.strong_id in
  read_ret {|
    cr_request := request'; cr_version := version'; cr_publication := publication';
    cr_committed_sequence := committed_sequence' |}.
Definition fits_completed_request (v : CompletedPublicationRequest) : Prop :=
  fits_id (cr_request v) ∧
  fits_id (cr_version v) ∧
  fits_id (cr_publication v) ∧
  fits_id (cr_committed_sequence v).
#[export] Instance completed_request_lawful : Lawful (fits_completed_request) encode_completed_request (decode_completed_request).
Proof. solve_record encode_completed_request decode_completed_request fits_completed_request. Qed.

(** [encode_object] and [decode_object]. *)
Definition encode_object (v : ObjectRecord) : list byte :=
  ByteWriter.u16 kRecordVersion ++
  ByteWriter.strong_id (o_id v) ++
  ByteWriter.strong_id (o_generation v) ++
  ByteWriter.strong_id (o_domain v) ++
  ByteWriter.text (o_name v) ++
  ByteWriter.u64 (o_length v) ++
  ByteWriter.strong_id (o_policy v) ++
  ByteWriter.strong_id (o_policy_generation v) ++
  enc_enum (o_lifecycle v) ++
  enc_enum (o_authority v) ++
  ByteWriter.strong_id (o_writer v) ++
  ByteWriter.strong_uuid (o_writer_boot v) ++
  ByteWriter.strong_id (o_ownership_generation v) ++
  ByteWriter.strong_id (o_authoritative_version v) ++
  ByteWriter.strong_id (o_published_version v) ++
  ByteWriter.strong_id (o_publication v) ++
  ByteWriter.strong_id (o_committed_sequence v) ++
  ByteWriter.strong_id (o_pending_publication v) ++
  ByteWriter.strong_id (o_pending_version v) ++
  enc_enum (o_publication_state v) ++
  encode_fingerprint (o_pending_content v) ++
  ByteWriter.strong_id (o_preferred_current_replica v) ++
  enc_list ByteWriter.strong_id (o_replicas v) ++
  enc_list encode_read_grant (o_reads v) ++
  enc_list ByteWriter.strong_id (o_outstanding_invalidations v) ++
  enc_list encode_completed_request (o_completed_requests v) ++
  ByteWriter.strong_id (o_last_writer v) ++
  ByteWriter.strong_uuid (o_last_writer_boot v) ++
  ByteWriter.boolean (o_has_unpublished_dirty v) ++
  enc_enum (o_dirty_condition v) ++
  ByteWriter.strong_id (o_updated_sequence v) ++
  ByteWriter.text (o_recovery_note v).
Definition decode_object (limits : DecodeLimits) : Reader ObjectRecord :=
  let* _ := dec_header kRecordVersion in
  let* id' := ByteReader.strong_id in
  let* generation' := ByteReader.strong_id in
  let* domain' := ByteReader.strong_id in
  let* name' := dec_text limits in
  let* length' := ByteReader.u64 in
  let* _ := require (length' <=? max_object_length limits)%N in
  let* policy' := ByteReader.strong_id in
  let* policy_generation' := ByteReader.strong_id in
  let* lifecycle' := dec_enum in
  let* authority' := dec_enum in
  let* writer' := ByteReader.strong_id in
  let* writer_boot' := ByteReader.strong_uuid in
  let* ownership_generation' := ByteReader.strong_id in
  let* authoritative_version' := ByteReader.strong_id in
  let* published_version' := ByteReader.strong_id in
  let* publication' := ByteReader.strong_id in
  let* committed_sequence' := ByteReader.strong_id in
  let* pending_publication' := ByteReader.strong_id in
  let* pending_version' := ByteReader.strong_id in
  let* publication_state' := dec_enum in
  let* pending_content' := decode_fingerprint limits in
  let* preferred_current_replica' := ByteReader.strong_id in
  let* replicas' := dec_list limits ByteReader.strong_id in
  let* reads' := dec_list limits decode_read_grant in
  let* outstanding_invalidations' := dec_list limits ByteReader.strong_id in
  let* completed_requests' := dec_list limits decode_completed_request in
  let* last_writer' := ByteReader.strong_id in
  let* last_writer_boot' := ByteReader.strong_uuid in
  let* has_unpublished_dirty' := ByteReader.boolean in
  let* dirty_condition' := dec_enum in
  let* updated_sequence' := ByteReader.strong_id in
  let* recovery_note' := dec_text limits in
  read_ret {|
    o_id := id'; o_generation := generation'; o_domain := domain'; o_name := name'; o_length := length';
    o_policy := policy'; o_policy_generation := policy_generation'; o_lifecycle := lifecycle';
    o_authority := authority'; o_writer := writer'; o_writer_boot := writer_boot';
    o_ownership_generation := ownership_generation'; o_authoritative_version :=
    authoritative_version'; o_published_version := published_version'; o_publication :=
    publication'; o_committed_sequence := committed_sequence'; o_pending_publication :=
    pending_publication'; o_pending_version := pending_version'; o_publication_state :=
    publication_state'; o_pending_content := pending_content'; o_replicas := replicas';
    o_preferred_current_replica := preferred_current_replica'; o_reads := reads';
    o_outstanding_invalidations := outstanding_invalidations'; o_completed_requests :=
    completed_requests'; o_last_writer := last_writer'; o_last_writer_boot := last_writer_boot';
    o_has_unpublished_dirty := has_unpublished_dirty'; o_dirty_condition := dirty_condition';
    o_updated_sequence := updated_sequence'; o_recovery_note := recovery_note' |}.
Definition fits_object (limits : DecodeLimits) (v : ObjectRecord) : Prop :=
  fits_id (o_id v) ∧
  fits_id (o_generation v) ∧
  fits_id (o_domain v) ∧
  fits_text (max_text limits) (o_name v) ∧
  fits_width 8 (o_length v) ∧
  fits_id (o_policy v) ∧
  fits_id (o_policy_generation v) ∧
  fits_id (o_writer v) ∧
  fits_uuid (o_writer_boot v) ∧
  fits_id (o_ownership_generation v) ∧
  fits_id (o_authoritative_version v) ∧
  fits_id (o_published_version v) ∧
  fits_id (o_publication v) ∧
  fits_id (o_committed_sequence v) ∧
  fits_id (o_pending_publication v) ∧
  fits_id (o_pending_version v) ∧
  fits_fingerprint limits (o_pending_content v) ∧
  fits_id (o_preferred_current_replica v) ∧
  fits_list limits fits_id (o_replicas v) ∧
  fits_list limits fits_read_grant (o_reads v) ∧
  fits_list limits fits_id (o_outstanding_invalidations v) ∧
  fits_list limits fits_completed_request (o_completed_requests v) ∧
  fits_id (o_last_writer v) ∧
  fits_uuid (o_last_writer_boot v) ∧
  fits_id (o_updated_sequence v) ∧
  fits_text (max_text limits) (o_recovery_note v) ∧
  (o_length v ≤ max_object_length limits)%N.
#[export] Instance object_lawful limits : Lawful (fits_object limits) encode_object (decode_object limits).
Proof. solve_record encode_object decode_object fits_object. Qed.

(** [encode_region] and [decode_region]. *)
Definition encode_region (v : RegionRecord) : list byte :=
  ByteWriter.u16 kRecordVersion ++
  ByteWriter.strong_id (r_id v) ++
  ByteWriter.strong_id (r_generation v) ++
  ByteWriter.strong_id (r_replica v) ++
  ByteWriter.strong_id (r_replica_generation v) ++
  ByteWriter.strong_id (r_domain v) ++
  ByteWriter.strong_id (r_object v) ++
  ByteWriter.strong_id (r_object_generation v) ++
  ByteWriter.strong_id (r_participant v) ++
  ByteWriter.strong_uuid (r_boot v) ++
  enc_enum (r_memory_domain v) ++
  enc_enum (r_evidence_class v) ++
  ByteWriter.text (r_name v) ++
  ByteWriter.u64 (r_offset v) ++
  ByteWriter.u64 (r_length v) ++
  ByteWriter.u64 (r_address_hint v) ++
  ByteWriter.boolean (r_declared_writable v) ++
  enc_enum (r_lifecycle v) ++
  enc_enum (r_state v) ++
  ByteWriter.strong_id (r_version v) ++
  ByteWriter.strong_id (r_last_synced_version v) ++
  ByteWriter.strong_id (r_last_published_version v) ++
  ByteWriter.strong_id (r_ownership_generation v) ++
  ByteWriter.strong_id (r_last_invalidation v) ++
  ByteWriter.strong_id (r_pending_invalidation v) ++
  ByteWriter.strong_id (r_pending_invalidation_target v) ++
  ByteWriter.boolean (r_invalidation_pending v) ++
  ByteWriter.strong_id (r_evidence v) ++
  ByteWriter.strong_id (r_evidence_generation v) ++
  enc_enum (r_dirty v) ++
  ByteWriter.strong_id (r_dirty_base_version v) ++
  ByteWriter.boolean (r_dirty_published v) ++
  encode_fingerprint (r_content v) ++
  ByteWriter.strong_id (r_updated_sequence v) ++
  ByteWriter.text (r_note v).
Definition decode_region (limits : DecodeLimits) : Reader RegionRecord :=
  let* _ := dec_header kRecordVersion in
  let* id' := ByteReader.strong_id in
  let* generation' := ByteReader.strong_id in
  let* replica' := ByteReader.strong_id in
  let* replica_generation' := ByteReader.strong_id in
  let* domain' := ByteReader.strong_id in
  let* object' := ByteReader.strong_id in
  let* object_generation' := ByteReader.strong_id in
  let* participant' := ByteReader.strong_id in
  let* boot' := ByteReader.strong_uuid in
  let* memory_domain' := dec_enum in
  let* evidence_class' := dec_enum in
  let* name' := dec_text limits in
  let* offset' := ByteReader.u64 in
  let* length' := ByteReader.u64 in
  let* address_hint' := ByteReader.u64 in
  let* _ := require (length' <=? max_object_length limits)%N in
  let* declared_writable' := ByteReader.boolean in
  let* lifecycle' := dec_enum in
  let* state' := dec_enum in
  let* version' := ByteReader.strong_id in
  let* last_synced_version' := ByteReader.strong_id in
  let* last_published_version' := ByteReader.strong_id in
  let* ownership_generation' := ByteReader.strong_id in
  let* last_invalidation' := ByteReader.strong_id in
  let* pending_invalidation' := ByteReader.strong_id in
  let* pending_invalidation_target' := ByteReader.strong_id in
  let* invalidation_pending' := ByteReader.boolean in
  let* evidence' := ByteReader.strong_id in
  let* evidence_generation' := ByteReader.strong_id in
  let* dirty' := dec_enum in
  let* dirty_base_version' := ByteReader.strong_id in
  let* dirty_published' := ByteReader.boolean in
  let* content' := decode_fingerprint limits in
  let* updated_sequence' := ByteReader.strong_id in
  let* note' := dec_text limits in
  read_ret {|
    r_id := id'; r_generation := generation'; r_replica := replica'; r_replica_generation :=
    replica_generation'; r_domain := domain'; r_object := object'; r_object_generation :=
    object_generation'; r_participant := participant'; r_boot := boot'; r_memory_domain :=
    memory_domain'; r_evidence_class := evidence_class'; r_name := name'; r_offset := offset';
    r_length := length'; r_address_hint := address_hint'; r_declared_writable := declared_writable';
    r_lifecycle := lifecycle'; r_state := state'; r_version := version'; r_last_synced_version :=
    last_synced_version'; r_last_published_version := last_published_version';
    r_ownership_generation := ownership_generation'; r_last_invalidation := last_invalidation';
    r_pending_invalidation := pending_invalidation'; r_pending_invalidation_target :=
    pending_invalidation_target'; r_invalidation_pending := invalidation_pending'; r_evidence :=
    evidence'; r_evidence_generation := evidence_generation'; r_dirty := dirty';
    r_dirty_base_version := dirty_base_version'; r_dirty_published := dirty_published'; r_content :=
    content'; r_updated_sequence := updated_sequence'; r_note := note' |}.
Definition fits_region (limits : DecodeLimits) (v : RegionRecord) : Prop :=
  fits_id (r_id v) ∧
  fits_id (r_generation v) ∧
  fits_id (r_replica v) ∧
  fits_id (r_replica_generation v) ∧
  fits_id (r_domain v) ∧
  fits_id (r_object v) ∧
  fits_id (r_object_generation v) ∧
  fits_id (r_participant v) ∧
  fits_uuid (r_boot v) ∧
  fits_text (max_text limits) (r_name v) ∧
  fits_width 8 (r_offset v) ∧
  fits_width 8 (r_length v) ∧
  fits_width 8 (r_address_hint v) ∧
  fits_id (r_version v) ∧
  fits_id (r_last_synced_version v) ∧
  fits_id (r_last_published_version v) ∧
  fits_id (r_ownership_generation v) ∧
  fits_id (r_last_invalidation v) ∧
  fits_id (r_pending_invalidation v) ∧
  fits_id (r_pending_invalidation_target v) ∧
  fits_id (r_evidence v) ∧
  fits_id (r_evidence_generation v) ∧
  fits_id (r_dirty_base_version v) ∧
  fits_fingerprint limits (r_content v) ∧
  fits_id (r_updated_sequence v) ∧
  fits_text (max_text limits) (r_note v) ∧
  (r_length v ≤ max_object_length limits)%N.
#[export] Instance region_lawful limits : Lawful (fits_region limits) encode_region (decode_region limits).
Proof. solve_record encode_region decode_region fits_region. Qed.

(** [encode_invalidation] and [decode_invalidation]. *)
Definition encode_invalidation (v : InvalidationRecord) : list byte :=
  ByteWriter.u16 kRecordVersion ++
  ByteWriter.strong_id (i_id v) ++
  ByteWriter.strong_id (i_object v) ++
  ByteWriter.strong_id (i_object_generation v) ++
  ByteWriter.strong_id (i_region v) ++
  ByteWriter.strong_id (i_region_generation v) ++
  ByteWriter.strong_id (i_replica_generation v) ++
  ByteWriter.strong_id (i_published_version v) ++
  ByteWriter.strong_id (i_superseded_version v) ++
  ByteWriter.strong_id (i_ownership_generation v) ++
  ByteWriter.strong_id (i_epoch v) ++
  ByteWriter.strong_id (i_target_participant v) ++
  ByteWriter.strong_uuid (i_target_boot v) ++
  enc_enum (i_state v) ++
  ByteWriter.boolean (i_acknowledgement_required v) ++
  ByteWriter.strong_id (i_issued_sequence v) ++
  ByteWriter.strong_id (i_settled_sequence v) ++
  ByteWriter.text (i_rationale v).
Definition decode_invalidation (limits : DecodeLimits) : Reader InvalidationRecord :=
  let* _ := dec_header kRecordVersion in
  let* id' := ByteReader.strong_id in
  let* object' := ByteReader.strong_id in
  let* object_generation' := ByteReader.strong_id in
  let* region' := ByteReader.strong_id in
  let* region_generation' := ByteReader.strong_id in
  let* replica_generation' := ByteReader.strong_id in
  let* published_version' := ByteReader.strong_id in
  let* superseded_version' := ByteReader.strong_id in
  let* ownership_generation' := ByteReader.strong_id in
  let* epoch' := ByteReader.strong_id in
  let* target_participant' := ByteReader.strong_id in
  let* target_boot' := ByteReader.strong_uuid in
  let* state' := dec_enum in
  let* acknowledgement_required' := ByteReader.boolean in
  let* issued_sequence' := ByteReader.strong_id in
  let* settled_sequence' := ByteReader.strong_id in
  let* rationale' := dec_text limits in
  read_ret {|
    i_id := id'; i_object := object'; i_object_generation := object_generation'; i_region := region';
    i_region_generation := region_generation'; i_replica_generation := replica_generation';
    i_published_version := published_version'; i_superseded_version := superseded_version';
    i_ownership_generation := ownership_generation'; i_epoch := epoch'; i_target_participant :=
    target_participant'; i_target_boot := target_boot'; i_state := state';
    i_acknowledgement_required := acknowledgement_required'; i_issued_sequence := issued_sequence';
    i_settled_sequence := settled_sequence'; i_rationale := rationale' |}.
Definition fits_invalidation (limits : DecodeLimits) (v : InvalidationRecord) : Prop :=
  fits_id (i_id v) ∧
  fits_id (i_object v) ∧
  fits_id (i_object_generation v) ∧
  fits_id (i_region v) ∧
  fits_id (i_region_generation v) ∧
  fits_id (i_replica_generation v) ∧
  fits_id (i_published_version v) ∧
  fits_id (i_superseded_version v) ∧
  fits_id (i_ownership_generation v) ∧
  fits_id (i_epoch v) ∧
  fits_id (i_target_participant v) ∧
  fits_uuid (i_target_boot v) ∧
  fits_id (i_issued_sequence v) ∧
  fits_id (i_settled_sequence v) ∧
  fits_text (max_text limits) (i_rationale v).
#[export] Instance invalidation_lawful limits : Lawful (fits_invalidation limits) encode_invalidation (decode_invalidation limits).
Proof. solve_record encode_invalidation decode_invalidation fits_invalidation. Qed.

(** [encode_sync] and [decode_sync]. *)
Definition encode_sync (v : SyncRecord) : list byte :=
  ByteWriter.u16 kRecordVersion ++
  ByteWriter.strong_id (y_id v) ++
  enc_enum (y_kind v) ++
  ByteWriter.strong_id (y_object v) ++
  ByteWriter.strong_id (y_object_generation v) ++
  ByteWriter.strong_id (y_source_region v) ++
  ByteWriter.strong_id (y_source_region_generation v) ++
  ByteWriter.strong_id (y_destination_region v) ++
  ByteWriter.strong_id (y_destination_region_generation v) ++
  ByteWriter.strong_id (y_source_version v) ++
  ByteWriter.strong_id (y_destination_prior_version v) ++
  ByteWriter.u64 (y_extent_offset v) ++
  ByteWriter.u64 (y_extent_length v) ++
  encode_fingerprint (y_expected_content v) ++
  ByteWriter.strong_id (y_ownership_generation v) ++
  ByteWriter.strong_id (y_policy v) ++
  ByteWriter.strong_id (y_policy_generation v) ++
  ByteWriter.strong_id (y_epoch v) ++
  ByteWriter.strong_id (y_destination_participant v) ++
  ByteWriter.strong_uuid (y_destination_boot v) ++
  enc_enum (y_state v) ++
  ByteWriter.text (y_postcondition v) ++
  ByteWriter.text (y_transport v) ++
  ByteWriter.strong_id (y_issued_sequence v) ++
  ByteWriter.strong_id (y_settled_sequence v) ++
  ByteWriter.text (y_failure_reason v).
Definition decode_sync (limits : DecodeLimits) : Reader SyncRecord :=
  let* _ := dec_header kRecordVersion in
  let* id' := ByteReader.strong_id in
  let* kind' := dec_enum in
  let* object' := ByteReader.strong_id in
  let* object_generation' := ByteReader.strong_id in
  let* source_region' := ByteReader.strong_id in
  let* source_region_generation' := ByteReader.strong_id in
  let* destination_region' := ByteReader.strong_id in
  let* destination_region_generation' := ByteReader.strong_id in
  let* source_version' := ByteReader.strong_id in
  let* destination_prior_version' := ByteReader.strong_id in
  let* extent_offset' := ByteReader.u64 in
  let* extent_length' := ByteReader.u64 in
  let* _ := require (extent_length' <=? max_object_length limits)%N in
  let* expected_content' := decode_fingerprint limits in
  let* ownership_generation' := ByteReader.strong_id in
  let* policy' := ByteReader.strong_id in
  let* policy_generation' := ByteReader.strong_id in
  let* epoch' := ByteReader.strong_id in
  let* destination_participant' := ByteReader.strong_id in
  let* destination_boot' := ByteReader.strong_uuid in
  let* state' := dec_enum in
  let* postcondition' := dec_text limits in
  let* transport' := dec_text limits in
  let* issued_sequence' := ByteReader.strong_id in
  let* settled_sequence' := ByteReader.strong_id in
  let* failure_reason' := dec_text limits in
  read_ret {|
    y_id := id'; y_kind := kind'; y_object := object'; y_object_generation := object_generation';
    y_source_region := source_region'; y_source_region_generation := source_region_generation';
    y_destination_region := destination_region'; y_destination_region_generation :=
    destination_region_generation'; y_source_version := source_version'; y_destination_prior_version
    := destination_prior_version'; y_extent_offset := extent_offset'; y_extent_length :=
    extent_length'; y_expected_content := expected_content'; y_ownership_generation :=
    ownership_generation'; y_policy := policy'; y_policy_generation := policy_generation'; y_epoch
    := epoch'; y_destination_participant := destination_participant'; y_destination_boot :=
    destination_boot'; y_state := state'; y_postcondition := postcondition'; y_transport :=
    transport'; y_issued_sequence := issued_sequence'; y_settled_sequence := settled_sequence';
    y_failure_reason := failure_reason' |}.
Definition fits_sync (limits : DecodeLimits) (v : SyncRecord) : Prop :=
  fits_id (y_id v) ∧
  fits_id (y_object v) ∧
  fits_id (y_object_generation v) ∧
  fits_id (y_source_region v) ∧
  fits_id (y_source_region_generation v) ∧
  fits_id (y_destination_region v) ∧
  fits_id (y_destination_region_generation v) ∧
  fits_id (y_source_version v) ∧
  fits_id (y_destination_prior_version v) ∧
  fits_width 8 (y_extent_offset v) ∧
  fits_width 8 (y_extent_length v) ∧
  fits_fingerprint limits (y_expected_content v) ∧
  fits_id (y_ownership_generation v) ∧
  fits_id (y_policy v) ∧
  fits_id (y_policy_generation v) ∧
  fits_id (y_epoch v) ∧
  fits_id (y_destination_participant v) ∧
  fits_uuid (y_destination_boot v) ∧
  fits_text (max_text limits) (y_postcondition v) ∧
  fits_text (max_text limits) (y_transport v) ∧
  fits_id (y_issued_sequence v) ∧
  fits_id (y_settled_sequence v) ∧
  fits_text (max_text limits) (y_failure_reason v) ∧
  (y_extent_length v ≤ max_object_length limits)%N.
#[export] Instance sync_lawful limits : Lawful (fits_sync limits) encode_sync (decode_sync limits).
Proof. solve_record encode_sync decode_sync fits_sync. Qed.

(** [encode_pending_publication] and [decode_pending_publication]. *)
Definition encode_pending_publication (v : PendingPublication) : list byte :=
  ByteWriter.u16 kRecordVersion ++
  ByteWriter.strong_id (pp_id v) ++
  ByteWriter.strong_id (pp_object v) ++
  ByteWriter.strong_id (pp_object_generation v) ++
  ByteWriter.strong_id (pp_version v) ++
  ByteWriter.strong_id (pp_prior_version v) ++
  ByteWriter.strong_id (pp_ownership_generation v) ++
  ByteWriter.strong_id (pp_epoch v) ++
  ByteWriter.strong_id (pp_writer v) ++
  ByteWriter.strong_uuid (pp_writer_boot v) ++
  ByteWriter.strong_id (pp_request v) ++
  encode_fingerprint (pp_content v) ++
  ByteWriter.strong_id (pp_sequence v) ++
  ByteWriter.boolean (pp_durable v).
Definition decode_pending_publication (limits : DecodeLimits) : Reader PendingPublication :=
  let* _ := dec_header kRecordVersion in
  let* id' := ByteReader.strong_id in
  let* object' := ByteReader.strong_id in
  let* object_generation' := ByteReader.strong_id in
  let* version' := ByteReader.strong_id in
  let* prior_version' := ByteReader.strong_id in
  let* ownership_generation' := ByteReader.strong_id in
  let* epoch' := ByteReader.strong_id in
  let* writer' := ByteReader.strong_id in
  let* writer_boot' := ByteReader.strong_uuid in
  let* request' := ByteReader.strong_id in
  let* content' := decode_fingerprint limits in
  let* sequence' := ByteReader.strong_id in
  let* durable' := ByteReader.boolean in
  read_ret {|
    pp_id := id'; pp_object := object'; pp_object_generation := object_generation'; pp_version :=
    version'; pp_prior_version := prior_version'; pp_ownership_generation := ownership_generation';
    pp_epoch := epoch'; pp_writer := writer'; pp_writer_boot := writer_boot'; pp_request :=
    request'; pp_content := content'; pp_sequence := sequence'; pp_durable := durable' |}.
Definition fits_pending_publication (limits : DecodeLimits) (v : PendingPublication) : Prop :=
  fits_id (pp_id v) ∧
  fits_id (pp_object v) ∧
  fits_id (pp_object_generation v) ∧
  fits_id (pp_version v) ∧
  fits_id (pp_prior_version v) ∧
  fits_id (pp_ownership_generation v) ∧
  fits_id (pp_epoch v) ∧
  fits_id (pp_writer v) ∧
  fits_uuid (pp_writer_boot v) ∧
  fits_id (pp_request v) ∧
  fits_fingerprint limits (pp_content v) ∧
  fits_id (pp_sequence v).
#[export] Instance pending_publication_lawful limits : Lawful (fits_pending_publication limits) encode_pending_publication (decode_pending_publication limits).
Proof. solve_record encode_pending_publication decode_pending_publication fits_pending_publication. Qed.
