(* ===== verification/Messages.v ===== *)
(** * Codec of decisions and requests ([src/codec_decisions.cpp], [src/control_codec.hpp])

    The encoder and the decoder of every decision the engine returns and of
    every request it takes, as the control protocol carries them.  The engine's
    decisions are modelled without their prose, so a decision is encoded together
    with its rationale. *)
From Stdlib Require Import Strings.Byte Strings.String.
From S2P Require Import Prelude Ids Enums Status Bytes Policy Evidence Model Decisions Serialize Codec.

(** [kVersion]. *)
Definition kVersion : N := kRecordVersion.

(** ** Status codes *)

(** The declared codes, in declaration order. *)
Definition all_codes : list StatusCode.t :=
  [StatusCode.Ok; StatusCode.InvalidArgument; StatusCode.InvalidState;
   StatusCode.InvalidTransition; StatusCode.Unsupported; StatusCode.CapacityExceeded;
   StatusCode.ResourceExhausted; StatusCode.DuplicateIdentity; StatusCode.UnknownDomain;
   StatusCode.UnknownObject; StatusCode.UnknownRegion; StatusCode.UnknownParticipant;
   StatusCode.UnknownPolicy; StatusCode.UnknownPublication; StatusCode.UnknownInvalidation;
   StatusCode.UnknownSyncOperation; StatusCode.UnknownRequest; StatusCode.StaleEpoch;
   StatusCode.StaleBoot; StatusCode.StaleObjectGeneration; StatusCode.StaleRegionGeneration;
   StatusCode.StaleReplicaGeneration; StatusCode.StaleOwnership; StatusCode.StalePolicy;
   StatusCode.StalePublication; StatusCode.StaleInvalidation; StatusCode.StaleSyncOperation;
   StatusCode.StaleSession; StatusCode.ReplayedRequest; StatusCode.NotAuthoritative;
   StatusCode.ReadNotCurrent; StatusCode.WriteConflict; StatusCode.ExclusiveWriterConflict;
   StatusCode.NotWriteAuthorized; StatusCode.Fenced; StatusCode.Retired; StatusCode.SyncRequired;
   StatusCode.RevalidationRequired; StatusCode.InvalidationOutstanding; StatusCode.EvidenceMissing;
   StatusCode.EvidenceStale; StatusCode.DirtyUnpublished; StatusCode.DirtyLost;
   StatusCode.RecoveryRequired; StatusCode.Quiescing; StatusCode.ShuttingDown;
   StatusCode.OutcomeUnknown; StatusCode.ContentMismatch; StatusCode.IntegrityFailure;
   StatusCode.CorruptionDetected; StatusCode.TruncatedInput; StatusCode.TrailingGarbage;
   StatusCode.OversizedInput; StatusCode.ProtocolViolation; StatusCode.UnsupportedSchema;
   StatusCode.PersistenceFailure; StatusCode.TransportFailure; StatusCode.ConnectionClosed;
   StatusCode.Timeout; StatusCode.InternalInvariantViolation; StatusCode.InternalError].

(** The code a number names, none when it is not declared. *)
Definition code_of_u16 (raw : N) : option StatusCode.t :=
  snd <$> list_find (λ c, StatusCode.to_u16 c = raw) all_codes.

(** [enc_code] and [dec_code]. *)
Definition enc_code (c : StatusCode.t) : list byte := ByteWriter.u16 (StatusCode.to_u16 c).
Definition dec_code : Reader StatusCode.t :=
  let* raw := ByteReader.u16 in
  match code_of_u16 raw with Some c => read_ret c | None => λ _, Rejected end.

Lemma code_of_to c : code_of_u16 (StatusCode.to_u16 c) = Some c.
Proof. by destruct c. Qed.

Lemma code_of_u16_spec raw c : code_of_u16 raw = Some c → StatusCode.to_u16 c = raw.
Proof.
  unfold code_of_u16. intros H. apply fmap_Some in H as ([i c'] & Hf & ->). by apply list_find_Some in Hf as (_ & ? & _).
Qed.

#[export] Instance code_lawful : Lawful (λ _ : StatusCode.t, True) enc_code dec_code.
Proof.
  split.
  - intros c rest _. unfold dec_code, enc_code. rewrite bind_written by (by destruct c). by rewrite code_of_to.
  - intros l c rest H. unfold dec_code in H. apply bind_read in H as (raw & l' & Hw & -> & H).
    destruct (code_of_u16 raw) as [c'|] eqn:E; [|done]. injection H as <- <-. apply code_of_u16_spec in E. subst. done.
Qed.

(** ** Decisions *)

(** [enc_context] and [dec_context]. *)
Definition enc_context (v : DecisionContext) : list byte :=
  ByteWriter.strong_id (dc_decision v) ++
  ByteWriter.strong_id (dc_epoch v) ++
  ByteWriter.strong_id (dc_policy v) ++
  ByteWriter.strong_id (dc_policy_generation v) ++
  ByteWriter.strong_id (dc_object v) ++
  ByteWriter.strong_id (dc_object_generation v) ++
  ByteWriter.strong_id (dc_ownership_generation v) ++
  ByteWriter.strong_id (dc_sequence v).
Definition dec_context : Reader DecisionContext :=
  let* decision' := ByteReader.strong_id in
  let* epoch' := ByteReader.strong_id in
  let* policy' := ByteReader.strong_id in
  let* policy_generation' := ByteReader.strong_id in
  let* object' := ByteReader.strong_id in
  let* object_generation' := ByteReader.strong_id in
  let* ownership_generation' := ByteReader.strong_id in
  let* sequence' := ByteReader.strong_id in
  read_ret {| dc_decision := decision'; dc_epoch := epoch'; dc_policy := policy';
    dc_policy_generation := policy_generation'; dc_object := object'; dc_object_generation := object_generation';
    dc_ownership_generation := ownership_generation'; dc_sequence := sequence' |}.
Definition fits_context (v : DecisionContext) : Prop :=
  fits_id (dc_decision v) ∧ fits_id (dc_epoch v) ∧ fits_id (dc_policy v) ∧ fits_id (dc_policy_generation v) ∧
  fits_id (dc_object v) ∧ fits_id (dc_object_generation v) ∧ fits_id (dc_ownership_generation v) ∧ fits_id (dc_sequence v).
#[export] Instance context_lawful : Lawful fits_context enc_context dec_context.
Proof. solve_record enc_context dec_context fits_context. Qed.

(** A decision with its rationale: the pair is taken apart first. *)
Ltac solve_worded enc dec fits :=
  split;
  [ let v := fresh "v" in let Hf := fresh "Hf" in
    intros [v ?] ? Hf; unfold fits in Hf; unfold enc, dec; decompose [and] Hf; clear Hf; cbn [fst snd] in *;
    rewrite <-?app_assoc; repeat written_step; reflexivity
  | let H := fresh "H" in
    intros ? ? ? H; unfold dec in H; repeat read_step H; injection H as <- <-;
    split; [unfold fits; cbn; split_and?; done | unfold enc; cbn [fst snd]; rewrite <-?app_assoc; reflexivity] ].

(** [encode_read_decision] and [decode_read_decision]. *)
Definition encode_read_decision (v : ReadDecision * string) : list byte :=
  ByteWriter.u16 kVersion ++
  enc_context (rd_context v.1) ++
  enc_enum (rd_outcome v.1) ++
  enc_code (rd_reason v.1) ++
  ByteWriter.strong_id (rd_region v.1) ++
  ByteWriter.strong_id (rd_region_generation v.1) ++
  enc_enum (rd_region_state v.1) ++
  ByteWriter.strong_id (rd_authoritative_version v.1) ++
  ByteWriter.strong_id (rd_region_version v.1) ++
  ByteWriter.u64 (rd_staleness v.1) ++
  ByteWriter.boolean (rd_staleness_known v.1) ++
  ByteWriter.boolean (rd_sync_required v.1) ++
  ByteWriter.boolean (rd_stale_allowed v.1) ++
  ByteWriter.boolean (rd_evidence_fresh v.1) ++
  ByteWriter.strong_id (rd_evidence v.1) ++
  ByteWriter.strong_id (rd_evidence_generation v.1) ++
  enc_enum (rd_evidence_class v.1) ++
  ByteWriter.strong_id (rd_required_sync v.1) ++
  ByteWriter.strong_id (rd_lease v.1) ++
  ByteWriter.text v.2.
Definition decode_read_decision (limits : DecodeLimits) : Reader (ReadDecision * string) :=
  let* _ := dec_header kVersion in
  let* context' := dec_context in
  let* outcome' := dec_enum in
  let* reason' := dec_code in
  let* region' := ByteReader.strong_id in
  let* region_generation' := ByteReader.strong_id in
  let* region_state' := dec_enum in
  let* authoritative_version' := ByteReader.strong_id in
  let* region_version' := ByteReader.strong_id in
  let* staleness' := ByteReader.u64 in
  let* staleness_known' := ByteReader.boolean in
  let* sync_required' := ByteReader.boolean in
  let* stale_allowed' := ByteReader.boolean in
  let* evidence_fresh' := ByteReader.boolean in
  let* evidence' := ByteReader.strong_id in
  let* evidence_generation' := ByteReader.strong_id in
  let* evidence_class' := dec_enum in
  let* required_sync' := ByteReader.strong_id in
  let* lease' := ByteReader.strong_id in
  let* rationale' := dec_text limits in
  read_ret ({|
    rd_context := context'; rd_outcome := outcome'; rd_reason := reason'; rd_region := region';
    rd_region_generation := region_generation'; rd_region_state := region_state';
    rd_authoritative_version := authoritative_version'; rd_region_version := region_version';
    rd_staleness := staleness'; rd_staleness_known := staleness_known'; rd_sync_required :=
    sync_required'; rd_stale_allowed := stale_allowed'; rd_evidence_fresh := evidence_fresh';
    rd_evidence := evidence'; rd_evidence_generation := evidence_generation'; rd_evidence_class :=
    evidence_class'; rd_required_sync := required_sync'; rd_lease := lease' |}, rationale').
Definition fits_read_decision (limits : DecodeLimits) (v : ReadDecision * string) : Prop :=
  fits_context (rd_context v.1) ∧
  fits_id (rd_region v.1) ∧
  fits_id (rd_region_generation v.1) ∧
  fits_id (rd_authoritative_version v.1) ∧
  fits_id (rd_region_version v.1) ∧
  fits_width 8 (rd_staleness v.1) ∧
  fits_id (rd_evidence v.1) ∧
  fits_id (rd_evidence_generation v.1) ∧
  fits_id (rd_required_sync v.1) ∧
  fits_id (rd_lease v.1) ∧
  fits_text (max_text limits) v.2.
#[export] Instance read_decision_lawful limits : Lawful (fits_read_decision limits) encode_read_decision (decode_read_decision limits).
Proof. solve_worded encode_read_decision decode_read_decision fits_read_decision. Qed.

(** [encode_write_grant] and [decode_write_grant]. *)
Definition encode_write_grant (v : WriteGrant * string) : list byte :=
  ByteWriter.u16 kVersion ++
  enc_context (wg_context v.1) ++
  ByteWriter.boolean (wg_granted v.1) ++
  enc_code (wg_reason v.1) ++
  ByteWriter.strong_id (wg_writer v.1) ++
  ByteWriter.strong_uuid (wg_writer_boot v.1) ++
  ByteWriter.strong_id (wg_base_version v.1) ++
  ByteWriter.strong_id (wg_authoritative_version v.1) ++
  ByteWriter.strong_id (wg_writer_region v.1) ++
  ByteWriter.strong_id (wg_writer_region_generation v.1) ++
  enc_list encode_invalidation (wg_required_invalidations v.1) ++
  ByteWriter.boolean (wg_may_mutate_now v.1) ++
  ByteWriter.text v.2.
Definition decode_write_grant (limits : DecodeLimits) : Reader (WriteGrant * string) :=
  let* _ := dec_header kVersion in
  let* context' := dec_context in
  let* granted' := ByteReader.boolean in
  let* reason' := dec_code in
  let* writer' := ByteReader.strong_id in
  let* writer_boot' := ByteReader.strong_uuid in
  let* base_version' := ByteReader.strong_id in
  let* authoritative_version' := ByteReader.strong_id in
  let* writer_region' := ByteReader.strong_id in
  let* writer_region_generation' := ByteReader.strong_id in
  let* required_invalidations' := dec_list limits (decode_invalidation limits) in
  let* may_mutate_now' := ByteReader.boolean in
  let* rationale' := dec_text limits in
  read_ret ({|
    wg_context := context'; wg_granted := granted'; wg_reason := reason'; wg_writer := writer';
    wg_writer_boot := writer_boot'; wg_base_version := base_version'; wg_authoritative_version :=
    authoritative_version'; wg_writer_region := writer_region'; wg_writer_region_generation :=
    writer_region_generation'; wg_required_invalidations := required_invalidations';
    wg_may_mutate_now := may_mutate_now' |}, rationale').
Definition fits_write_grant (limits : DecodeLimits) (v : WriteGrant * string) : Prop :=
  fits_context (wg_context v.1) ∧
  fits_id (wg_writer v.1) ∧
  fits_uuid (wg_writer_boot v.1) ∧
  fits_id (wg_base_version v.1) ∧
  fits_id (wg_authoritative_version v.1) ∧
  fits_id (wg_writer_region v.1) ∧
  fits_id (wg_writer_region_generation v.1) ∧
  fits_list limits (fits_invalidation limits) (wg_required_invalidations v.1) ∧
  fits_text (max_text limits) v.2.
#[export] Instance write_grant_lawful limits : Lawful (fits_write_grant limits) encode_write_grant (decode_write_grant limits).
Proof. solve_worded encode_write_grant decode_write_grant fits_write_grant. Qed.

(** [encode_publication] and [decode_publication]. *)
Definition encode_publication (v : PublicationReceipt * string) : list byte :=
  ByteWriter.u16 kVersion ++
  enc_context (pr_context v.1) ++
  ByteWriter.strong_id (pr_publication v.1) ++
  enc_enum (pr_state v.1) ++
  enc_code (pr_reason v.1) ++
  ByteWriter.strong_id (pr_version v.1) ++
  ByteWriter.strong_id (pr_prior_version v.1) ++
  ByteWriter.strong_id (pr_writer v.1) ++
  ByteWriter.strong_uuid (pr_writer_boot v.1) ++
  encode_fingerprint (pr_content v.1) ++
  enc_enum (pr_durability v.1) ++
  ByteWriter.boolean (pr_durable v.1) ++
  ByteWriter.boolean (pr_idempotent_replay v.1) ++
  ByteWriter.boolean (pr_completed_by_recovery v.1) ++
  ByteWriter.text v.2.
Definition decode_publication (limits : DecodeLimits) : Reader (PublicationReceipt * string) :=
  let* _ := dec_header kVersion in
  let* context' := dec_context in
  let* publication' := ByteReader.strong_id in
  let* state' := dec_enum in
  let* reason' := dec_code in
  let* version' := ByteReader.strong_id in
  let* prior_version' := ByteReader.strong_id in
  let* writer' := ByteReader.strong_id in
  let* writer_boot' := ByteReader.strong_uuid in
  let* content' := decode_fingerprint limits in
  let* durability' := dec_enum in
  let* durable' := ByteReader.boolean in
  let* idempotent_replay' := ByteReader.boolean in
  let* completed_by_recovery' := ByteReader.boolean in
  let* rationale' := dec_text limits in
  read_ret ({|
    pr_context := context'; pr_publication := publication'; pr_state := state'; pr_reason := reason';
    pr_version := version'; pr_prior_version := prior_version'; pr_writer := writer'; pr_writer_boot
    := writer_boot'; pr_content := content'; pr_durability := durability'; pr_durable := durable';
    pr_idempotent_replay := idempotent_replay'; pr_completed_by_recovery := completed_by_recovery' |}, rationale').
Definition fits_publication (limits : DecodeLimits) (v : PublicationReceipt * string) : Prop :=
  fits_context (pr_context v.1) ∧
  fits_id (pr_publication v.1) ∧
  fits_id (pr_version v.1) ∧
  fits_id (pr_prior_version v.1) ∧
  fits_id (pr_writer v.1) ∧
  fits_uuid (pr_writer_boot v.1) ∧
  fits_fingerprint limits (pr_content v.1) ∧
  fits_text (max_text limits) v.2.
#[export] Instance publication_lawful limits : Lawful (fits_publication limits) encode_publication (decode_publication limits).
Proof. solve_worded encode_publication decode_publication fits_publication. Qed.

(** [encode_invalidation_outcome] and [decode_invalidation_outcome]. *)
Definition encode_invalidation_outcome (v : InvalidationOutcome * string) : list byte :=
  ByteWriter.u16 kVersion ++
  enc_context (io_context v.1) ++
  ByteWriter.strong_id (io_invalidation v.1) ++
  enc_enum (io_state v.1) ++
  enc_code (io_reason v.1) ++
  ByteWriter.strong_id (io_region v.1) ++
  ByteWriter.strong_id (io_region_generation v.1) ++
  ByteWriter.strong_id (io_replica_generation v.1) ++
  ByteWriter.boolean (io_idempotent_replay v.1) ++
  ByteWriter.text v.2.
Definition decode_invalidation_outcome (limits : DecodeLimits) : Reader (InvalidationOutcome * string) :=
  let* _ := dec_header kVersion in
  let* context' := dec_context in
  let* invalidation' := ByteReader.strong_id in
  let* state' := dec_enum in
  let* reason' := dec_code in
  let* region' := ByteReader.strong_id in
  let* region_generation' := ByteReader.strong_id in
  let* replica_generation' := ByteReader.strong_id in
  let* idempotent_replay' := ByteReader.boolean in
  let* rationale' := dec_text limits in
  read_ret ({|
    io_context := context'; io_invalidation := invalidation'; io_state := state'; io_reason := reason';
    io_region := region'; io_region_generation := region_generation'; io_replica_generation :=
    replica_generation'; io_idempotent_replay := idempotent_replay' |}, rationale').
Definition fits_invalidation_outcome (limits : DecodeLimits) (v : InvalidationOutcome * string) : Prop :=
  fits_context (io_context v.1) ∧
  fits_id (io_invalidation v.1) ∧
  fits_id (io_region v.1) ∧
  fits_id (io_region_generation v.1) ∧
  fits_id (io_replica_generation v.1) ∧
  fits_text (max_text limits) v.2.
#[export] Instance invalidation_outcome_lawful limits : Lawful (fits_invalidation_outcome limits) encode_invalidation_outcome (decode_invalidation_outcome limits).
Proof. solve_worded encode_invalidation_outcome decode_invalidation_outcome fits_invalidation_outcome. Qed.

(** [encode_sync_outcome] and [decode_sync_outcome]. *)
Definition encode_sync_outcome (v : SyncOutcome * string) : list byte :=
  ByteWriter.u16 kVersion ++
  enc_context (so_context v.1) ++
  ByteWriter.strong_id (so_operation v.1) ++
  enc_enum (so_state v.1) ++
  enc_code (so_reason v.1) ++
  encode_sync (so_plan v.1) ++
  ByteWriter.boolean (so_idempotent_replay v.1) ++
  ByteWriter.text v.2.
Definition decode_sync_outcome (limits : DecodeLimits) : Reader (SyncOutcome * string) :=
  let* _ := dec_header kVersion in
  let* context' := dec_context in
  let* operation' := ByteReader.strong_id in
  let* state' := dec_enum in
  let* reason' := dec_code in
  let* plan' := decode_sync limits in
  let* idempotent_replay' := ByteReader.boolean in
  let* rationale' := dec_text limits in
  read_ret ({|
    so_context := context'; so_operation := operation'; so_state := state'; so_reason := reason';
    so_plan := plan'; so_idempotent_replay := idempotent_replay' |}, rationale').
Definition fits_sync_outcome (limits : DecodeLimits) (v : SyncOutcome * string) : Prop :=
  fits_context (so_context v.1) ∧
  fits_id (so_operation v.1) ∧
  fits_sync limits (so_plan v.1) ∧
  fits_text (max_text limits) v.2.
#[export] Instance sync_outcome_lawful limits : Lawful (fits_sync_outcome limits) encode_sync_outcome (decode_sync_outcome limits).
Proof. solve_worded encode_sync_outcome decode_sync_outcome fits_sync_outcome. Qed.

(** [encode_release_outcome] and [decode_release_outcome]. *)
Definition encode_release_outcome (v : ReleaseOutcome * string) : list byte :=
  ByteWriter.u16 kVersion ++
  enc_context (ro_context v.1) ++
  enc_code (ro_reason v.1) ++
  ByteWriter.strong_id (ro_lease v.1) ++
  ByteWriter.strong_id (ro_participant v.1) ++
  ByteWriter.strong_uuid (ro_boot v.1) ++
  ByteWriter.strong_id (ro_version v.1) ++
  ByteWriter.boolean (ro_already_released v.1) ++
  ByteWriter.text v.2.
Definition decode_release_outcome (limits : DecodeLimits) : Reader (ReleaseOutcome * string) :=
  let* _ := dec_header kVersion in
  let* context' := dec_context in
  let* reason' := dec_code in
  let* lease' := ByteReader.strong_id in
  let* participant' := ByteReader.strong_id in
  let* boot' := ByteReader.strong_uuid in
  let* version' := ByteReader.strong_id in
  let* already_released' := ByteReader.boolean in
  let* rationale' := dec_text limits in
  read_ret ({|
    ro_context := context'; ro_reason := reason'; ro_lease := lease'; ro_participant := participant';
    ro_boot := boot'; ro_version := version'; ro_already_released := already_released' |}, rationale').
Definition fits_release_outcome (limits : DecodeLimits) (v : ReleaseOutcome * string) : Prop :=
  fits_context (ro_context v.1) ∧
  fits_id (ro_lease v.1) ∧
  fits_id (ro_participant v.1) ∧
  fits_uuid (ro_boot v.1) ∧
  fits_id (ro_version v.1) ∧
  fits_text (max_text limits) v.2.
#[export] Instance release_outcome_lawful limits : Lawful (fits_release_outcome limits) encode_release_outcome (decode_release_outcome limits).
Proof. solve_worded encode_release_outcome decode_release_outcome fits_release_outcome. Qed.

(** ** Requests *)

(** [encode_read_request] and [decode_read_request]. *)
Definition encode_read_request (v : ReadRequest) : list byte :=
  ByteWriter.u16 kVersion ++
  encode_authority_context (rr_context v) ++
  ByteWriter.strong_id (rr_region v) ++
  ByteWriter.strong_id (rr_region_generation v) ++
  ByteWriter.strong_id (rr_snapshot_version v) ++
  ByteWriter.boolean (rr_require_current v).
Definition decode_read_request (limits : DecodeLimits) : Reader ReadRequest :=
  let* _ := dec_header kVersion in
  let* context' := decode_authority_context limits in
  let* region' := ByteReader.strong_id in
  let* region_generation' := ByteReader.strong_id in
  let* snapshot_version' := ByteReader.strong_id in
  let* require_current' := ByteReader.boolean in
  read_ret {|
    rr_context := context'; rr_region := region'; rr_region_generation := region_generation';
    rr_snapshot_version := snapshot_version'; rr_require_current := require_current' |}.
Definition fits_read_request (limits : DecodeLimits) (v : ReadRequest) : Prop :=
  fits_authority_context limits (rr_context v) ∧
  fits_id (rr_region v) ∧
  fits_id (rr_region_generation v) ∧
  fits_id (rr_snapshot_version v).
#[export] Instance read_request_lawful limits : Lawful (fits_read_request limits) encode_read_request (decode_read_request limits).
Proof. solve_record encode_read_request decode_read_request fits_read_request. Qed.

(** [encode_write_request] and [decode_write_request]. *)
Definition encode_write_request (v : WriteRequest) : list byte :=
  ByteWriter.u16 kVersion ++
  encode_authority_context (wr_context v) ++
  ByteWriter.strong_id (wr_region v) ++
  ByteWriter.strong_id (wr_region_generation v).
Definition decode_write_request (limits : DecodeLimits) : Reader WriteRequest :=
  let* _ := dec_header kVersion in
  let* context' := decode_authority_context limits in
  let* region' := ByteReader.strong_id in
  let* region_generation' := ByteReader.strong_id in
  read_ret {|
    wr_context := context'; wr_region := region'; wr_region_generation := region_generation' |}.
Definition fits_write_request (limits : DecodeLimits) (v : WriteRequest) : Prop :=
  fits_authority_context limits (wr_context v) ∧
  fits_id (wr_region v) ∧
  fits_id (wr_region_generation v).
#[export] Instance write_request_lawful limits : Lawful (fits_write_request limits) encode_write_request (decode_write_request limits).
Proof. solve_record encode_write_request decode_write_request fits_write_request. Qed.

(** [encode_dirty_request] and [decode_dirty_request]. *)
Definition encode_dirty_request (v : DirtyRequest) : list byte :=
  ByteWriter.u16 kVersion ++
  encode_authority_context (dr_context v) ++
  ByteWriter.strong_id (dr_region v) ++
  ByteWriter.strong_id (dr_region_generation v) ++
  ByteWriter.strong_id (dr_ownership_generation v) ++
  ByteWriter.strong_id (dr_base_version v) ++
  encode_fingerprint (dr_content v).
Definition decode_dirty_request (limits : DecodeLimits) : Reader DirtyRequest :=
  let* _ := dec_header kVersion in
  let* context' := decode_authority_context limits in
  let* region' := ByteReader.strong_id in
  let* region_generation' := ByteReader.strong_id in
  let* ownership_generation' := ByteReader.strong_id in
  let* base_version' := ByteReader.strong_id in
  let* content' := decode_fingerprint limits in
  read_ret {|
    dr_context := context'; dr_region := region'; dr_region_generation := region_generation';
    dr_ownership_generation := ownership_generation'; dr_base_version := base_version'; dr_content
    := content' |}.
Definition fits_dirty_request (limits : DecodeLimits) (v : DirtyRequest) : Prop :=
  fits_authority_context limits (dr_context v) ∧
  fits_id (dr_region v) ∧
  fits_id (dr_region_generation v) ∧
  fits_id (dr_ownership_generation v) ∧
  fits_id (dr_base_version v) ∧
  fits_fingerprint limits (dr_content v).
#[export] Instance dirty_request_lawful limits : Lawful (fits_dirty_request limits) encode_dirty_request (decode_dirty_request limits).
Proof. solve_record encode_dirty_request decode_dirty_request fits_dirty_request. Qed.

(** [encode_publish_request] and [decode_publish_request]. *)
Definition encode_publish_request (v : PublishRequest) : list byte :=
  ByteWriter.u16 kVersion ++
  encode_authority_context (pb_context v) ++
  ByteWriter.strong_id (pb_ownership_generation v) ++
  ByteWriter.strong_id (pb_region v) ++
  ByteWriter.strong_id (pb_region_generation v) ++
  ByteWriter.strong_id (pb_expected_base_version v) ++
  encode_fingerprint (pb_content v) ++
  ByteWriter.boolean (pb_allow_without_dirty v).
Definition decode_publish_request (limits : DecodeLimits) : Reader PublishRequest :=
  let* _ := dec_header kVersion in
  let* context' := decode_authority_context limits in
  let* ownership_generation' := ByteReader.strong_id in
  let* region' := ByteReader.strong_id in
  let* region_generation' := ByteReader.strong_id in
  let* expected_base_version' := ByteReader.strong_id in
  let* content' := decode_fingerprint limits in
  let* allow_without_dirty' := ByteReader.boolean in
  read_ret {|
    pb_context := context'; pb_ownership_generation := ownership_generation'; pb_region := region';
    pb_region_generation := region_generation'; pb_expected_base_version := expected_base_version';
    pb_content := content'; pb_allow_without_dirty := allow_without_dirty' |}.
Definition fits_publish_request (limits : DecodeLimits) (v : PublishRequest) : Prop :=
  fits_authority_context limits (pb_context v) ∧
  fits_id (pb_ownership_generation v) ∧
  fits_id (pb_region v) ∧
  fits_id (pb_region_generation v) ∧
  fits_id (pb_expected_base_version v) ∧
  fits_fingerprint limits (pb_content v).
#[export] Instance publish_request_lawful limits : Lawful (fits_publish_request limits) encode_publish_request (decode_publish_request limits).
Proof. solve_record encode_publish_request decode_publish_request fits_publish_request. Qed.

(** [encode_release_request] and [decode_release_request]. *)
Definition encode_release_request (v : ReleaseRequest) : list byte :=
  ByteWriter.u16 kVersion ++
  encode_authority_context (rl_context v) ++
  ByteWriter.strong_id (rl_lease v) ++
  ByteWriter.strong_id (rl_ownership_generation v) ++
  ByteWriter.boolean (rl_release_write_authority v).
Definition decode_release_request (limits : DecodeLimits) : Reader ReleaseRequest :=
  let* _ := dec_header kVersion in
  let* context' := decode_authority_context limits in
  let* lease' := ByteReader.strong_id in
  let* ownership_generation' := ByteReader.strong_id in
  let* release_write_authority' := ByteReader.boolean in
  read_ret {|
    rl_context := context'; rl_lease := lease'; rl_ownership_generation := ownership_generation';
    rl_release_write_authority := release_write_authority' |}.
Definition fits_release_request (limits : DecodeLimits) (v : ReleaseRequest) : Prop :=
  fits_authority_context limits (rl_context v) ∧
  fits_id (rl_lease v) ∧
  fits_id (rl_ownership_generation v).
#[export] Instance release_request_lawful limits : Lawful (fits_release_request limits) encode_release_request (decode_release_request limits).
Proof. solve_record encode_release_request decode_release_request fits_release_request. Qed.

(** [encode_invalidation_request] and [decode_invalidation_request]. *)
Definition encode_invalidation_request (v : InvalidationRequest) : list byte :=
  ByteWriter.u16 kVersion ++
  encode_authority_context (ir_context v) ++
  ByteWriter.strong_id (ir_target_region v) ++
  ByteWriter.strong_id (ir_target_region_generation v) ++
  ByteWriter.strong_id (ir_target_replica_generation v) ++
  ByteWriter.strong_id (ir_ownership_generation v) ++
  ByteWriter.strong_id (ir_published_version v) ++
  ByteWriter.boolean (ir_acknowledgement_required v).
Definition decode_invalidation_request (limits : DecodeLimits) : Reader InvalidationRequest :=
  let* _ := dec_header kVersion in
  let* context' := decode_authority_context limits in
  let* target_region' := ByteReader.strong_id in
  let* target_region_generation' := ByteReader.strong_id in
  let* target_replica_generation' := ByteReader.strong_id in
  let* ownership_generation' := ByteReader.strong_id in
  let* published_version' := ByteReader.strong_id in
  let* acknowledgement_required' := ByteReader.boolean in
  read_ret {|
    ir_context := context'; ir_target_region := target_region'; ir_target_region_generation :=
    target_region_generation'; ir_target_replica_generation := target_replica_generation';
    ir_ownership_generation := ownership_generation'; ir_published_version := published_version';
    ir_acknowledgement_required := acknowledgement_required' |}.
Definition fits_invalidation_request (limits : DecodeLimits) (v : InvalidationRequest) : Prop :=
  fits_authority_context limits (ir_context v) ∧
  fits_id (ir_target_region v) ∧
  fits_id (ir_target_region_generation v) ∧
  fits_id (ir_target_replica_generation v) ∧
  fits_id (ir_ownership_generation v) ∧
  fits_id (ir_published_version v).
#[export] Instance invalidation_request_lawful limits : Lawful (fits_invalidation_request limits) encode_invalidation_request (decode_invalidation_request limits).
Proof. solve_record encode_invalidation_request decode_invalidation_request fits_invalidation_request. Qed.

(** [encode_invalidation_ack] and [decode_invalidation_ack]. *)
Definition encode_invalidation_ack (v : InvalidationAck) : list byte :=
  ByteWriter.u16 kVersion ++
  encode_authority_context (ia_context v) ++
  ByteWriter.strong_id (ia_invalidation v) ++
  ByteWriter.strong_id (ia_region v) ++
  ByteWriter.strong_id (ia_region_generation v) ++
  ByteWriter.strong_id (ia_replica_generation v) ++
  ByteWriter.strong_id (ia_superseded_version v).
Definition decode_invalidation_ack (limits : DecodeLimits) : Reader InvalidationAck :=
  let* _ := dec_header kVersion in
  let* context' := decode_authority_context limits in
  let* invalidation' := ByteReader.strong_id in
  let* region' := ByteReader.strong_id in
  let* region_generation' := ByteReader.strong_id in
  let* replica_generation' := ByteReader.strong_id in
  let* superseded_version' := ByteReader.strong_id in
  read_ret {|
    ia_context := context'; ia_invalidation := invalidation'; ia_region := region'; ia_region_generation
    := region_generation'; ia_replica_generation := replica_generation'; ia_superseded_version :=
    superseded_version' |}.
Definition fits_invalidation_ack (limits : DecodeLimits) (v : InvalidationAck) : Prop :=
  fits_authority_context limits (ia_context v) ∧
  fits_id (ia_invalidation v) ∧
  fits_id (ia_region v) ∧
  fits_id (ia_region_generation v) ∧
  fits_id (ia_replica_generation v) ∧
  fits_id (ia_superseded_version v).
#[export] Instance invalidation_ack_lawful limits : Lawful (fits_invalidation_ack limits) encode_invalidation_ack (decode_invalidation_ack limits).
Proof. solve_record encode_invalidation_ack decode_invalidation_ack fits_invalidation_ack. Qed.

(** [encode_sync_request] and [decode_sync_request]. *)
Definition encode_sync_request (v : SyncRequest) : list byte :=
  ByteWriter.u16 kVersion ++
  encode_authority_context (sr_context v) ++
  enc_enum (sr_kind v) ++
  ByteWriter.strong_id (sr_source_region v) ++
  ByteWriter.strong_id (sr_source_region_generation v) ++
  ByteWriter.strong_id (sr_destination_region v) ++
  ByteWriter.strong_id (sr_destination_region_generation v) ++
  ByteWriter.strong_id (sr_ownership_generation v) ++
  ByteWriter.text (sr_transport v).
Definition decode_sync_request (limits : DecodeLimits) : Reader SyncRequest :=
  let* _ := dec_header kVersion in
  let* context' := decode_authority_context limits in
  let* kind' := dec_enum in
  let* source_region' := ByteReader.strong_id in
  let* source_region_generation' := ByteReader.strong_id in
  let* destination_region' := ByteReader.strong_id in
  let* destination_region_generation' := ByteReader.strong_id in
  let* ownership_generation' := ByteReader.strong_id in
  let* transport' := dec_text limits in
  read_ret {|
    sr_context := context'; sr_kind := kind'; sr_source_region := source_region';
    sr_source_region_generation := source_region_generation'; sr_destination_region :=
    destination_region'; sr_destination_region_generation := destination_region_generation';
    sr_ownership_generation := ownership_generation'; sr_transport := transport' |}.
Definition fits_sync_request (limits : DecodeLimits) (v : SyncRequest) : Prop :=
  fits_authority_context limits (sr_context v) ∧
  fits_id (sr_source_region v) ∧
  fits_id (sr_source_region_generation v) ∧
  fits_id (sr_destination_region v) ∧
  fits_id (sr_destination_region_generation v) ∧
  fits_id (sr_ownership_generation v) ∧
  fits_text (max_text limits) (sr_transport v).
#[export] Instance sync_request_lawful limits : Lawful (fits_sync_request limits) encode_sync_request (decode_sync_request limits).
Proof. solve_record encode_sync_request decode_sync_request fits_sync_request. Qed.

(** [encode_sync_complete] and [decode_sync_complete]. *)
Definition encode_sync_complete (v : SyncCompleteRequest) : list byte :=
  ByteWriter.u16 kVersion ++
  encode_authority_context (sc_context v) ++
  ByteWriter.strong_id (sc_operation v) ++
  ByteWriter.strong_id (sc_destination_region v) ++
  ByteWriter.strong_id (sc_destination_region_generation v) ++
  ByteWriter.strong_id (sc_destination_new_version v) ++
  encode_fingerprint (sc_observed_content v) ++
  ByteWriter.boolean (sc_content_moved v).
Definition decode_sync_complete (limits : DecodeLimits) : Reader SyncCompleteRequest :=
  let* _ := dec_header kVersion in
  let* context' := decode_authority_context limits in
  let* operation' := ByteReader.strong_id in
  let* destination_region' := ByteReader.strong_id in
  let* destination_region_generation' := ByteReader.strong_id in
  let* destination_new_version' := ByteReader.strong_id in
  let* observed_content' := decode_fingerprint limits in
  let* content_moved' := ByteReader.boolean in
  read_ret {|
    sc_context := context'; sc_operation := operation'; sc_destination_region := destination_region';
    sc_destination_region_generation := destination_region_generation'; sc_destination_new_version
    := destination_new_version'; sc_observed_content := observed_content'; sc_content_moved :=
    content_moved' |}.
Definition fits_sync_complete (limits : DecodeLimits) (v : SyncCompleteRequest) : Prop :=
  fits_authority_context limits (sc_context v) ∧
  fits_id (sc_operation v) ∧
  fits_id (sc_destination_region v) ∧
  fits_id (sc_destination_region_generation v) ∧
  fits_id (sc_destination_new_version v) ∧
  fits_fingerprint limits (sc_observed_content v).
#[export] Instance sync_complete_lawful limits : Lawful (fits_sync_complete limits) encode_sync_complete (decode_sync_complete limits).
Proof. solve_record encode_sync_complete decode_sync_complete fits_sync_complete. Qed.

(** [encode_sync_fail] and [decode_sync_fail]. *)
Definition encode_sync_fail (v : SyncFailRequest) : list byte :=
  ByteWriter.u16 kVersion ++
  encode_authority_context (sf_context v) ++
  ByteWriter.strong_id (sf_operation v) ++
  enc_code (sf_cause v) ++
  ByteWriter.boolean (sf_outcome_unknown v) ++
  ByteWriter.text (sf_detail v).
Definition decode_sync_fail (limits : DecodeLimits) : Reader SyncFailRequest :=
  let* _ := dec_header kVersion in
  let* context' := decode_authority_context limits in
  let* operation' := ByteReader.strong_id in
  let* cause' := dec_code in
  let* outcome_unknown' := ByteReader.boolean in
  let* detail' := dec_text limits in
  read_ret {|
    sf_context := context'; sf_operation := operation'; sf_cause := cause'; sf_outcome_unknown :=
    outcome_unknown'; sf_detail := detail' |}.
Definition fits_sync_fail (limits : DecodeLimits) (v : SyncFailRequest) : Prop :=
  fits_authority_context limits (sf_context v) ∧
  fits_id (sf_operation v) ∧
  fits_text (max_text limits) (sf_detail v).
#[export] Instance sync_fail_lawful limits : Lawful (fits_sync_fail limits) encode_sync_fail (decode_sync_fail limits).
Proof. solve_record encode_sync_fail decode_sync_fail fits_sync_fail. Qed.

(** [encode_revalidate_request] and [decode_revalidate_request]. *)
Definition encode_revalidate_request (v : RevalidateRequest) : list byte :=
  ByteWriter.u16 kVersion ++
  encode_authority_context (rv_context v) ++
  ByteWriter.strong_id (rv_region v) ++
  ByteWriter.strong_id (rv_region_generation v) ++
  ByteWriter.strong_id (rv_observed_version v) ++
  encode_fingerprint (rv_content v) ++
  ByteWriter.boolean (rv_byte_compared v).
Definition decode_revalidate_request (limits : DecodeLimits) : Reader RevalidateRequest :=
  let* _ := dec_header kVersion in
  let* context' := decode_authority_context limits in
  let* region' := ByteReader.strong_id in
  let* region_generation' := ByteReader.strong_id in
  let* observed_version' := ByteReader.strong_id in
  let* content' := decode_fingerprint limits in
  let* byte_compared' := ByteReader.boolean in
  read_ret {|
    rv_context := context'; rv_region := region'; rv_region_generation := region_generation';
    rv_observed_version := observed_version'; rv_content := content'; rv_byte_compared :=
    byte_compared' |}.
Definition fits_revalidate_request (limits : DecodeLimits) (v : RevalidateRequest) : Prop :=
  fits_authority_context limits (rv_context v) ∧
  fits_id (rv_region v) ∧
  fits_id (rv_region_generation v) ∧
  fits_id (rv_observed_version v) ∧
  fits_fingerprint limits (rv_content v).
#[export] Instance revalidate_request_lawful limits : Lawful (fits_revalidate_request limits) encode_revalidate_request (decode_revalidate_request limits).
Proof. solve_record encode_revalidate_request decode_revalidate_request fits_revalidate_request. Qed.

(** [encode_region_registration] and [decode_region_registration]. *)
Definition encode_region_registration (v : RegionRegistration) : list byte :=
  ByteWriter.u16 kVersion ++
  encode_authority_context (rn_context v) ++
  ByteWriter.strong_id (rn_domain v) ++
  ByteWriter.strong_id (rn_requested_id v) ++
  ByteWriter.text (rn_name v) ++
  enc_enum (rn_memory_domain v) ++
  enc_enum (rn_evidence_class v) ++
  ByteWriter.u64 (rn_offset v) ++
  ByteWriter.u64 (rn_length v) ++
  ByteWriter.u64 (rn_address_hint v) ++
  ByteWriter.strong_id (rn_requested_replica v) ++
  ByteWriter.boolean (rn_declared_writable v) ++
  ByteWriter.strong_id (rn_initial_version v) ++
  encode_fingerprint (rn_content v).
Definition decode_region_registration (limits : DecodeLimits) : Reader RegionRegistration :=
  let* _ := dec_header kVersion in
  let* context' := decode_authority_context limits in
  let* domain' := ByteReader.strong_id in
  let* requested_id' := ByteReader.strong_id in
  let* name' := dec_text limits in
  let* memory_domain' := dec_enum in
  let* evidence_class' := dec_enum in
  let* offset' := ByteReader.u64 in
  let* length' := ByteReader.u64 in
  let* address_hint' := ByteReader.u64 in
  let* _ := require (length' <=? max_object_length limits)%N in
  let* requested_replica' := ByteReader.strong_id in
  let* declared_writable' := ByteReader.boolean in
  let* initial_version' := ByteReader.strong_id in
  let* content' := decode_fingerprint limits in
  read_ret {|
    rn_context := context'; rn_domain := domain'; rn_requested_id := requested_id'; rn_name := name';
    rn_memory_domain := memory_domain'; rn_evidence_class := evidence_class'; rn_offset := offset';
    rn_length := length'; rn_address_hint := address_hint'; rn_requested_replica :=
    requested_replica'; rn_declared_writable := declared_writable'; rn_initial_version :=
    initial_version'; rn_content := content' |}.
Definition fits_region_registration (limits : DecodeLimits) (v : RegionRegistration) : Prop :=
  fits_authority_context limits (rn_context v) ∧
  fits_id (rn_domain v) ∧
  fits_id (rn_requested_id v) ∧
  fits_text (max_text limits) (rn_name v) ∧
  fits_width 8 (rn_offset v) ∧
  fits_width 8 (rn_length v) ∧
  fits_width 8 (rn_address_hint v) ∧
  fits_id (rn_requested_replica v) ∧
  fits_id (rn_initial_version v) ∧
  fits_fingerprint limits (rn_content v) ∧
  (rn_length v ≤ max_object_length limits)%N.
#[export] Instance region_registration_lawful limits : Lawful (fits_region_registration limits) encode_region_registration (decode_region_registration limits).
Proof. solve_record encode_region_registration decode_region_registration fits_region_registration. Qed.
