(* ===== verification/Checksum.v ===== *)
(** * Integrity: CRC-32C and SHA-256 ([include/coherence/bytes.hpp], [src/bytes.cpp])

    The table-driven CRC that consumes eight bytes at a time, against the
    bit-by-bit definition of the checksum; and the streaming SHA-256, whose
    digest does not depend on how the input is cut into updates. *)
From Stdlib Require Import Strings.Byte Strings.String.
From S2P Require Import Prelude Serialize.

(** ** CRC-32C *)

Definition mask32 : N := 4294967295.
(** [~x] on [uint32_t]. *)
Definition not32 (x : N) : N := N.lxor x mask32.

(** [kPoly], the reflected Castagnoli polynomial, and one round of the
    constructor's inner loop. *)
Definition kPoly : N := 2197175160.
Definition crc_bit (crc : N) : N :=
  if N.testbit crc 0 then N.lxor (N.shiftr crc 1) kPoly else N.shiftr crc 1.

(** [Crc32cTable::entries[slice][i]]. *)
Fixpoint crc_entries (slice : nat) (i : N) : N :=
  match slice with
  | O => Nat.iter 8 crc_bit i
  | S slice =>
      let crc := crc_entries slice i in
      N.lxor (Nat.iter 8 crc_bit (N.land crc 255)) (N.shiftr crc 8)
  end.

(** The loop over the last bytes. *)
Definition crc_byte (crc : N) (b : byte) : N :=
  N.lxor (crc_entries 0 (N.land (N.lxor crc (Byte.to_N b)) 255)) (N.shiftr crc 8).

(** The body of the loop over eight bytes. *)
Definition crc_word (crc : N) (word : N) : N :=
  let crc := N.lxor crc (N.land word mask32) in
  let upper := N.land (N.shiftr word 32) mask32 in
  N.lxor (crc_entries 7 (N.land crc 255))
  (N.lxor (crc_entries 6 (N.land (N.shiftr crc 8) 255))
  (N.lxor (crc_entries 5 (N.land (N.shiftr crc 16) 255))
  (N.lxor (crc_entries 4 (N.land (N.shiftr crc 24) 255))
  (N.lxor (crc_entries 3 (N.land upper 255))
  (N.lxor (crc_entries 2 (N.land (N.shiftr upper 8) 255))
  (N.lxor (crc_entries 1 (N.land (N.shiftr upper 16) 255))
          (crc_entries 0 (N.land (N.shiftr upper 24) 255)))))))).

(** Both loops: [words] rounds over eight bytes, then the bytes that remain. *)
Fixpoint crc_words (words : nat) (crc : N) (data : list byte) : N :=
  match words with
  | O => foldl crc_byte crc data
  | S words => crc_words words (crc_word crc (le_value (take 8 data))) (drop 8 data)
  end.
Definition crc_loop (crc : N) (data : list byte) : N := crc_words (length data / 8) crc data.

(** [crc32c]. *)
Definition crc32c (seed : N) (data : list byte) : N := not32 (crc_loop (not32 seed) data).

(** The definition of the checksum: eight single-bit steps per byte. *)
Definition crc_bitwise (crc : N) (b : byte) : N := Nat.iter 8 crc_bit (N.lxor crc (Byte.to_N b)).
Definition crc32c_bitwise (seed : N) (data : list byte) : N :=
  not32 (foldl crc_bitwise (not32 seed) data).

(** ** SHA-256 *)

Definition add32 (a b : N) : N := N.land (a + b) mask32.
Definition rotr (x n : N) : N := N.lor (N.shiftr x n) (N.land (N.shiftl x (32 - n)) mask32).
Definition big_sigma0 (x : N) : N := N.lxor (rotr x 2) (N.lxor (rotr x 13) (rotr x 22)).
Definition big_sigma1 (x : N) : N := N.lxor (rotr x 6) (N.lxor (rotr x 11) (rotr x 25)).
Definition small_sigma0 (x : N) : N := N.lxor (rotr x 7) (N.lxor (rotr x 18) (N.shiftr x 3)).
Definition small_sigma1 (x : N) : N := N.lxor (rotr x 17) (N.lxor (rotr x 19) (N.shiftr x 10)).

Definition kSha256K : list N := [
  1116352408; 1899447441; 3049323471; 3921009573; 961987163; 1508970993; 2453635748; 2870763221;
  3624381080; 310598401; 607225278; 1426881987; 1925078388; 2162078206; 2614888103; 3248222580;
  3835390401; 4022224774; 264347078; 604807628; 770255983; 1249150122; 1555081692; 1996064986;
  2554220882; 2821834349; 2952996808; 3210313671; 3336571891; 3584528711; 113926993; 338241895;
  666307205; 773529912; 1294757372; 1396182291; 1695183700; 1986661051; 2177026350; 2456956037;
  2730485921; 2820302411; 3259730800; 3345764771; 3516065817; 3600352804; 4094571909; 275423344;
  430227734; 506948616; 659060556; 883997877; 958139571; 1322822218; 1537002063; 1747873779;
  1955562222; 2024104815; 2227730452; 2361852424; 2428436474; 2756734187; 3204031479; 3329325298]%N.

(** The state words [a] to [h]. *)
Record ShaWords := mkShaWords {
  sa : N; sb : N; sc : N; sd : N; se : N; sf : N; sg : N; sh : N }.

Definition sha_initial : ShaWords := mkShaWords
  1779033703 3144134277 1013904242 2773480762 1359893119 2600822924 528734635 1541459225.

(** A big-endian word of the block. *)
Fixpoint be_value (acc : N) (bs : list byte) : N :=
  match bs with [] => acc | b :: rest => be_value (N.lor (N.shiftl acc 8) (Byte.to_N b)) rest end.
Fixpoint block_words (n : nat) (block : list byte) : list N :=
  match n with O => [] | S n => be_value 0 (take 4 block) :: block_words n (drop 4 block) end.

(** The message schedule, newest word first. *)
Definition next_word (w : list N) : N :=
  add32 (add32 (small_sigma1 (nth 1 w 0%N)) (nth 6 w 0%N)) (add32 (small_sigma0 (nth 14 w 0%N)) (nth 15 w 0%N)).
Fixpoint extend_schedule (n : nat) (w : list N) : list N :=
  match n with O => w | S n => extend_schedule n (next_word w :: w) end.
Definition schedule (block : list byte) : list N := rev (extend_schedule 48 (rev (block_words 16 block))).

(** One round. *)
Definition sha_round (s : ShaWords) (kw : N * N) : ShaWords :=
  let t1 := add32 (add32 (add32 (sh s) (big_sigma1 (se s)))
                         (N.lxor (N.land (se s) (sf s)) (N.land (not32 (se s)) (sg s))))
                  (add32 kw.1 kw.2) in
  let t2 := add32 (big_sigma0 (sa s))
                  (N.lxor (N.land (sa s) (sb s)) (N.lxor (N.land (sa s) (sc s)) (N.land (sb s) (sc s)))) in
  mkShaWords (add32 t1 t2) (sa s) (sb s) (sc s) (add32 (sd s) t1) (se s) (sf s) (sg s).

(** [Sha256::compress]. *)
Definition compress (s : ShaWords) (block : list byte) : ShaWords :=
  let r := foldl sha_round s (zip kSha256K (schedule block)) in
  mkShaWords (add32 (sa s) (sa r)) (add32 (sb s) (sb r)) (add32 (sc s) (sc r)) (add32 (sd s) (sd r))
             (add32 (se s) (se r)) (add32 (sf s) (sf r)) (add32 (sg s) (sg r)) (add32 (sh s) (sh r)).

(** [Sha256]: [buffer] holds the [buffered_] bytes of the C++ array that are
    meaningful. *)
Record Sha256 := mkSha256 { sha_state : ShaWords; bit_length : N; buffer : list byte }.
Definition sha_start : Sha256 := mkSha256 sha_initial 0 [].

(** The loop over whole blocks; the fuel is the number of bytes, more than the
    number of blocks. *)
Fixpoint absorb (fuel : nat) (s : ShaWords) (data : list byte) : ShaWords * list byte :=
  match fuel with
  | O => (s, data)
  | S fuel => if decide (64 ≤ length data) then absorb fuel (compress s (take 64 data)) (drop 64 data)
              else (s, data)
  end.

(** [Sha256::update]. *)
Definition update (h : Sha256) (data : list byte) : Sha256 :=
  let bits := u64_add (bit_length h) (8 * N.of_nat (length data)) in
  let '(s, buf, data) :=
    if decide (buffer h ≠ []) then
      let n := 64 - length (buffer h) in
      let buf := buffer h ++ take n data in
      if decide (length buf = 64) then (compress (sha_state h) buf, [], drop n data)
      else (sha_state h, buf, drop n data)
    else (sha_state h, [], data) in
  let '(s, rest) := absorb (length data) s data in
  mkSha256 s bits (buf ++ rest).

(** [Sha256::finish]. *)
Definition be_bytes (width : nat) (v : N) : list byte := rev (le_bytes width v).
Definition finish (h : Sha256) : list byte :=
  let buf := buffer h ++ [x80] in
  let '(s, buf) := if decide (56 < length buf)
                   then (compress (sha_state h) (buf ++ replicate (64 - length buf) x00), [])
                   else (sha_state h, buf) in
  let s := compress s (buf ++ replicate (56 - length buf) x00 ++ be_bytes 8 (bit_length h)) in
  concat (be_bytes 4 <$> [sa s; sb s; sc s; sd s; se s; sf s; sg s; sh s]).

(** [Sha256::digest]. *)
Definition sha256 (data : list byte) : list byte := finish (update sha_start data).

(** The standard's definition: pad to whole blocks, compress them all. *)
Definition sha_padded (data : list byte) : list byte :=
  let len := length data in
  data ++ x80 :: replicate ((119 - len mod 64) mod 64) x00 ++ be_bytes 8 ((8 * N.of_nat len) mod two64).
Definition sha_output (s : ShaWords) : list byte :=
  concat (be_bytes 4 <$> [sa s; sb s; sc s; sd s; se s; sf s; sg s; sh s]).
Definition sha256_padded (data : list byte) : list byte :=
  let m := sha_padded data in sha_output (absorb (length m) sha_initial m).1.

(** [digest_equal]. *)
Definition digest_equal (a b : list byte) : bool :=
  if decide (length a ≠ length b) then false
  else (foldl (λ diff p, N.lor diff (N.lxor (Byte.to_N p.1) (Byte.to_N p.2))) 0 (zip a b) =? 0)%N.

(** [n] single-bit steps, for the proofs. *)
Definition crc_bits (n : nat) (x : N) : N := Nat.iter n crc_bit x.

(** ** The table-driven CRC is the bitwise one *)

(** Exclusive-or with nested terms normalised by associativity and commutativity. *)
Ltac xor_bits := apply N.bits_inj; intros ?bit; rewrite ?N.lxor_spec;
  repeat match goal with |- context [N.testbit ?x ?n] => destruct (N.testbit x n) end; reflexivity.

Lemma crc_bit_lxor a b : crc_bit (N.lxor a b) = N.lxor (crc_bit a) (crc_bit b).
Proof.
  unfold crc_bit. rewrite N.lxor_spec, N.shiftr_lxor.
  destruct (N.testbit a 0), (N.testbit b 0); cbn [xorb]; xor_bits.
Qed.

Lemma crc_bits_lxor n a b : crc_bits n (N.lxor a b) = N.lxor (crc_bits n a) (crc_bits n b).
Proof. induction n as [|n IH]; [done|]. cbn. change (crc_bit (crc_bits n (N.lxor a b)) = N.lxor (crc_bit (crc_bits n a)) (crc_bit (crc_bits n b))). by rewrite IH, crc_bit_lxor. Qed.

Lemma crc_bits_add m n x : crc_bits (m + n) x = crc_bits m (crc_bits n x).
Proof. unfold crc_bits. by rewrite Nat.iter_add. Qed.

(** Bits above the ones consumed only move down. *)
Lemma crc_bits_shiftl n x : crc_bits n (N.shiftl x (N.of_nat n)) = x.
Proof.
  induction n as [|n IH]; [apply N.shiftl_0_r|].
  rewrite <-Nat.add_1_r, Nat2N.inj_add, <-N.shiftl_shiftl, crc_bits_add.
  etransitivity; [|exact IH]. f_equal. unfold crc_bits. cbn. unfold crc_bit.
  rewrite N.shiftl_spec_low by lia. rewrite N.shiftr_shiftl_l by done. by rewrite N.sub_diag, N.shiftl_0_r.
Qed.

(** A value is its low byte and the rest. *)
Lemma split_byte x : x = N.lxor (N.land x 255) (N.shiftl (N.shiftr x 8) 8).
Proof.
  apply N.bits_inj. intros n. rewrite N.lxor_spec. change 255%N with (N.ones 8).
  destruct (N.lt_ge_cases n 8) as [Hn|Hn].
  - by rewrite N.land_spec, N.ones_spec_low, N.shiftl_spec_low, xorb_false_r, andb_true_r by done.
  - rewrite N.land_spec, N.ones_spec_high, andb_false_r, xorb_false_l by done.
    rewrite N.shiftl_spec_high', N.shiftr_spec' by done. f_equal. lia.
Qed.

Lemma shiftr_byte_0 b : N.shiftr (Byte.to_N b) 8 = 0%N.
Proof. pose proof (Byte.to_N_bounded b). rewrite N.shiftr_div_pow2. apply N.div_small. change (2 ^ 8)%N with 256%N. lia. Qed.

(** One byte of progress, by the first table. *)
Lemma crc_step_split x : N.lxor (crc_bits 8 (N.land x 255)) (N.shiftr x 8) = crc_bits 8 x.
Proof. rewrite (split_byte x) at 3. rewrite crc_bits_lxor. f_equal. symmetry. apply (crc_bits_shiftl 8). Qed.

Lemma crc_byte_bitwise crc b : crc_byte crc b = crc_bitwise crc b.
Proof.
  unfold crc_byte, crc_bitwise. change (crc_entries 0) with (crc_bits 8). change (Nat.iter 8 crc_bit) with (crc_bits 8).
  rewrite <-(crc_step_split (N.lxor crc (Byte.to_N b))). f_equal.
  by rewrite N.shiftr_lxor, shiftr_byte_0, N.lxor_0_r.
Qed.

(** Table [slice] advances a byte by [slice + 1] bytes. *)
Lemma crc_entries_bits slice i : crc_entries slice i = crc_bits (8 * S slice) i.
Proof.
  induction slice as [|slice IH]; [done|]. cbn [crc_entries]. rewrite IH. change (Nat.iter 8 crc_bit) with (crc_bits 8).
  rewrite crc_step_split, <-crc_bits_add. f_equal. lia.
Qed.

Lemma crc_bits_0 n : crc_bits n 0 = 0%N.
Proof. induction n as [|n IH]; [done|]. change (crc_bit (crc_bits n 0) = 0%N). by rewrite IH. Qed.

(** Advancing a 32-bit value by at least four bytes, byte by byte. *)
Lemma crc_bits_bytes k x :
  (x < 2 ^ 32)%N →
  crc_bits (8 * (4 + k)) x =
    N.lxor (crc_bits (8 * (4 + k)) (N.land x 255))
    (N.lxor (crc_bits (8 * (3 + k)) (N.land (N.shiftr x 8) 255))
    (N.lxor (crc_bits (8 * (2 + k)) (N.land (N.shiftr x 16) 255))
            (crc_bits (8 * (1 + k)) (N.land (N.shiftr x 24) 255)))).
Proof.
  intros Hx.
  assert (Hs : ∀ m y, crc_bits (8 * S m) y =
    N.lxor (crc_bits (8 * S m) (N.land y 255)) (crc_bits (8 * m) (N.shiftr y 8))).
  { intros m y. rewrite (split_byte y) at 1. rewrite crc_bits_lxor. f_equal.
    replace (8 * S m) with (8 * m + 8) by lia. rewrite crc_bits_add. f_equal. apply (crc_bits_shiftl 8). }
  refine (eq_trans (Hs (3 + k) x) _). f_equal.
  refine (eq_trans (Hs (2 + k) _) _). rewrite N.shiftr_shiftr. f_equal.
  refine (eq_trans (Hs (1 + k) _) _). rewrite N.shiftr_shiftr. f_equal.
  refine (eq_trans (Hs k _) _). rewrite N.shiftr_shiftr.
  change (8 + 8 + 8 + 8)%N with 32%N. rewrite (N.shiftr_div_pow2 x 32), N.div_small by done.
  rewrite crc_bits_0. apply N.lxor_0_r.
Qed.


Lemma le_value_lxor b bs : le_value (b :: bs) = N.lxor (Byte.to_N b) (N.shiftl (le_value bs) 8).
Proof.
  rewrite (split_byte (le_value (b :: bs))), le_value_cons. pose proof (Byte.to_N_bounded b).
  change 255%N with (N.ones 8). rewrite N.land_ones, N.shiftr_div_pow2. change (2 ^ 8)%N with 256%N.
  rewrite (N.mul_comm 256), N.Div0.mod_add, N.mod_small, N.div_add, N.div_small, N.add_0_l by lia. done.
Qed.

Lemma le_value_app l1 l2 :
  le_value (l1 ++ l2) = (le_value l1 + 256 ^ N.of_nat (length l1) * le_value l2)%N.
Proof.
  induction l1 as [|b l1 IH]; [cbn [app length]; change (256 ^ N.of_nat 0)%N with 1%N; simpl; lia|].
  cbn [app length]. rewrite !le_value_cons, IH, Nat2N.inj_succ, N.pow_succ_r'. lia.
Qed.

(** The bitwise checksum of a run of bytes advances the value of the run. *)
Lemma crc_bitwise_run crc bs :
  foldl crc_bitwise crc bs = crc_bits (8 * length bs) (N.lxor crc (le_value bs)).
Proof.
  revert crc. induction bs as [|b bs IH]; intros crc; [by rewrite N.lxor_0_r|].
  cbn [foldl length]. rewrite IH, le_value_lxor. replace (8 * S (length bs)) with (8 * length bs + 8) by lia.
  rewrite crc_bits_add. f_equal. rewrite <-N.lxor_assoc, crc_bits_lxor. f_equal.
  symmetry. apply (crc_bits_shiftl 8).
Qed.

Lemma le_value_app_lxor l1 l2 :
  le_value (l1 ++ l2) = N.lxor (le_value l1) (N.shiftl (le_value l2) (8 * N.of_nat (length l1))).
Proof.
  induction l1 as [|b l1 IH]; [cbn; by rewrite N.shiftl_0_r, N.lxor_0_l|]. cbn [app length].
  rewrite !le_value_lxor, IH, N.shiftl_lxor, N.shiftl_shiftl, N.lxor_assoc. do 3 f_equal. lia.
Qed.

Lemma bits_above x n m : (x < 2 ^ n)%N → (n ≤ m)%N → N.testbit x m = false.
Proof. intros Hx Hm. rewrite <-(N.mod_small x (2 ^ n)) by done. by apply N.mod_pow2_bits_high. Qed.

Lemma lxor_bound a b n : (a < 2 ^ n)%N → (b < 2 ^ n)%N → (N.lxor a b < 2 ^ n)%N.
Proof.
  intros Ha Hb. replace (N.lxor a b) with (N.lxor a b mod 2 ^ n)%N by (
    apply N.bits_inj; intros m; destruct (N.lt_ge_cases m n) as [Hm|Hm];
    [by rewrite N.mod_pow2_bits_low|
     by rewrite N.mod_pow2_bits_high, N.lxor_spec, (bits_above a n), (bits_above b n)]).
  apply N.mod_lt. by apply N.pow_nonzero.
Qed.

(** The eight tables together advance by eight bytes. *)
Lemma crc_tables_bits x hi :
  (x < 2 ^ 32)%N → (hi < 2 ^ 32)%N →
  N.lxor (crc_entries 7 (N.land x 255))
  (N.lxor (crc_entries 6 (N.land (N.shiftr x 8) 255))
  (N.lxor (crc_entries 5 (N.land (N.shiftr x 16) 255))
  (N.lxor (crc_entries 4 (N.land (N.shiftr x 24) 255))
  (N.lxor (crc_entries 3 (N.land hi 255))
  (N.lxor (crc_entries 2 (N.land (N.shiftr hi 8) 255))
  (N.lxor (crc_entries 1 (N.land (N.shiftr hi 16) 255))
          (crc_entries 0 (N.land (N.shiftr hi 24) 255)))))))) =
  N.lxor (crc_bits (8 * 8) x) (crc_bits (8 * 4) hi).
Proof.
  intros Hx Hh. rewrite !crc_entries_bits.
  rewrite (crc_bits_bytes 4 x Hx : crc_bits (8 * 8) x = _), (crc_bits_bytes 0 hi Hh : crc_bits (8 * 4) hi = _).
  by rewrite !N.lxor_assoc.
Qed.

Lemma crc_word_bitwise crc bs :
  (crc < 2 ^ 32)%N → length bs = 8 → crc_word crc (le_value bs) = foldl crc_bitwise crc bs.
Proof.
  intros Hc Hl. rewrite crc_bitwise_run, Hl. rewrite <-(take_drop 4 bs). set (l1 := take 4 bs). set (l2 := drop 4 bs).
  assert (H1 : length l1 = 4) by (unfold l1; rewrite length_take; lia).
  assert (H2 : length l2 = 4) by (unfold l2; rewrite length_drop; lia).
  pose proof (le_value_bound l1) as B1. pose proof (le_value_bound l2) as B2. rewrite H1 in B1. rewrite H2 in B2.
  rewrite le_value_app_lxor at 2. unfold crc_word. rewrite le_value_app, H1.
  change (256 ^ N.of_nat 4)%N with (2 ^ 32)%N in *. change (8 * N.of_nat 4)%N with (N.of_nat (8 * 4)).
  change mask32 with (N.ones 32). rewrite !N.land_ones, (N.shiftr_div_pow2 _ 32).
  rewrite (N.mul_comm (2 ^ 32)), N.Div0.mod_add, (N.mod_small (le_value l1)), N.div_add, (N.div_small (le_value l1)),
    N.add_0_l, (N.mod_small (le_value l2)) by done.
  rewrite crc_tables_bits by (try apply lxor_bound; done).
  rewrite <-N.lxor_assoc, (crc_bits_lxor (8 * 8) (N.lxor _ _) (N.shiftl _ _)). f_equal.
  change (8 * 8) with (8 * 4 + 8 * 4). by rewrite crc_bits_add, crc_bits_shiftl.
Qed.

(** A byte step keeps the checksum in 32 bits. *)
Lemma crc_bit_bound x : (x < 2 ^ 32)%N → (crc_bit x < 2 ^ 32)%N.
Proof.
  intros Hx. assert (N.shiftr x 1 < 2 ^ 32)%N.
  { rewrite N.shiftr_div_pow2. eapply N.le_lt_trans; [|exact Hx]. apply N.Div0.div_le_upper_bound. lia. }
  unfold crc_bit. case_match; [|done]. by apply lxor_bound.
Qed.

Lemma crc_bitwise_bound crc b : (crc < 2 ^ 32)%N → (crc_bitwise crc b < 2 ^ 32)%N.
Proof.
  intros Hc. unfold crc_bitwise. assert (Hx : (N.lxor crc (Byte.to_N b) < 2 ^ 32)%N).
  { apply lxor_bound; [done|]. pose proof (Byte.to_N_bounded b). change (2 ^ 32)%N with 4294967296%N. lia. }
  apply (Nat.iter_invariant 8 _ _ (λ x, (x < 2 ^ 32)%N)); [apply crc_bit_bound|done].
Qed.

Lemma crc_fold_bound crc bs : (crc < 2 ^ 32)%N → (foldl crc_bitwise crc bs < 2 ^ 32)%N.
Proof. apply (foldl_inv (λ c, (c < 2 ^ 32)%N)). intros. by apply crc_bitwise_bound. Qed.

Lemma crc_words_bitwise n crc data :
  (crc < 2 ^ 32)%N → 8 * n ≤ length data → crc_words n crc data = foldl crc_bitwise crc data.
Proof.
  revert crc data. induction n as [|n IH]; intros crc data Hc Hl; cbn [crc_words].
  - clear Hl. revert crc Hc. induction data as [|b data IH]; intros crc Hc; [done|]. cbn.
    rewrite crc_byte_bitwise. apply IH. by apply crc_bitwise_bound.
  - rewrite crc_word_bitwise by (rewrite ?length_take; lia || done).
    rewrite IH by (rewrite ?length_drop; first [by apply crc_fold_bound|lia]).
    by rewrite <-foldl_app, take_drop.
Qed.

Lemma not32_involutive x : not32 (not32 x) = x.
Proof. unfold not32. by rewrite N.lxor_assoc, N.lxor_nilpotent, N.lxor_0_r. Qed.

Lemma crc32c_bitwise_eq seed data : (seed < 2 ^ 32)%N → crc32c seed data = crc32c_bitwise seed data.
Proof.
  intros Hs. unfold crc32c, crc32c_bitwise, crc_loop. f_equal. apply crc_words_bitwise.
  - by apply lxor_bound.
  - apply Nat.Div0.mul_div_le.
Qed.

Lemma crc32c_bitwise_app seed l1 l2 :
  crc32c_bitwise (crc32c_bitwise seed l1) l2 = crc32c_bitwise seed (l1 ++ l2).
Proof. unfold crc32c_bitwise. by rewrite not32_involutive, foldl_app. Qed.

Lemma crc32c_bound seed data : (seed < 2 ^ 32)%N → (crc32c seed data < 2 ^ 32)%N.
Proof.
  intros Hs. rewrite crc32c_bitwise_eq by done. apply lxor_bound; [|done]. by apply crc_fold_bound, lxor_bound.
Qed.

(** ** Bursts are detected *)

Lemma shiftr_bound x : (x < 2 ^ 32)%N → (N.shiftr x 1 < 2 ^ 31)%N.
Proof. intros Hx. rewrite N.shiftr_div_pow2. apply N.Div0.div_lt_upper_bound. exact Hx. Qed.

(** The polynomial's top bit tells which branch a step took. *)
Lemma crc_bit_top x : (x < 2 ^ 32)%N → N.testbit (crc_bit x) 31 = N.testbit x 0.
Proof.
  intros Hx. pose proof (bits_above (N.shiftr x 1) 31 31 (shiftr_bound x Hx) (N.le_refl 31)) as H.
  unfold crc_bit. destruct (N.testbit x 0); [|done]. by rewrite N.lxor_spec, H.
Qed.

Lemma crc_bit_inj x y : (x < 2 ^ 32)%N → (y < 2 ^ 32)%N → crc_bit x = crc_bit y → x = y.
Proof.
  intros Hx Hy E. assert (E0 : N.testbit x 0 = N.testbit y 0) by (by rewrite <-!crc_bit_top, E).
  assert (E1 : N.shiftr x 1 = N.shiftr y 1).
  { unfold crc_bit in E. rewrite E0 in E. destruct (N.testbit y 0); [|done].
    apply (f_equal (λ z, N.lxor z kPoly)) in E. by rewrite !N.lxor_assoc, N.lxor_nilpotent, !N.lxor_0_r in E. }
  apply N.bits_inj. intros n. destruct (N.eq_dec n 0) as [->|Hn]; [done|].
  apply (f_equal (λ z, N.testbit z (n - 1))) in E1. rewrite !N.shiftr_spec' in E1. by rewrite N.sub_add in E1 by lia.
Qed.

Lemma crc_bits_inj n x y : (x < 2 ^ 32)%N → (y < 2 ^ 32)%N → crc_bits n x = crc_bits n y → x = y.
Proof.
  intros Hx Hy. assert (Hb : ∀ m z, (z < 2 ^ 32)%N → (crc_bits m z < 2 ^ 32)%N).
  { intros m z Hz. apply (Nat.iter_invariant m _ _ (λ z, (z < 2 ^ 32)%N)); [apply crc_bit_bound|done]. }
  induction n as [|n IH]; [done|]. intros E. apply IH. apply crc_bit_inj; [by apply Hb..|exact E].
Qed.

Lemma byte_bound b : (Byte.to_N b < 2 ^ 32)%N.
Proof. pose proof (Byte.to_N_bounded b). change (2 ^ 32)%N with 4294967296%N. lia. Qed.

Lemma lxor_inj_l a b c : N.lxor a c = N.lxor b c → a = b.
Proof. intros E. apply (f_equal (λ z, N.lxor z c)) in E. by rewrite !N.lxor_assoc, N.lxor_nilpotent, !N.lxor_0_r in E. Qed.

(** Equal bytes never make different checksums equal. *)
Lemma crc_fold_inj bs x y :
  (x < 2 ^ 32)%N → (y < 2 ^ 32)%N → foldl crc_bitwise x bs = foldl crc_bitwise y bs → x = y.
Proof.
  revert x y. induction bs as [|b bs IH]; intros x y Hx Hy E; [done|]. cbn in E.
  apply IH in E; [|by apply crc_bitwise_bound..]. apply (crc_bits_inj 8) in E; [by apply lxor_inj_l in E|..];
    apply lxor_bound; auto using byte_bound.
Qed.

Lemma le_value_inj a b : length a = length b → le_value a = le_value b → a = b.
Proof. intros Hl E. by rewrite <-(le_bytes_value a), <-(le_bytes_value b), Hl, E. Qed.

Lemma short_value_bound a : length a ≤ 4 → (le_value a < 2 ^ 32)%N.
Proof.
  intros Ha. eapply N.lt_le_trans; [apply le_value_bound|]. change (2 ^ 32)%N with (256 ^ 4)%N.
  apply N.pow_le_mono_r; lia.
Qed.

Lemma crc32c_burst seed before a b after :
  (seed < 2 ^ 32)%N → length a = length b → length a ≤ 4 → a ≠ b →
  crc32c seed (before ++ a ++ after) ≠ crc32c seed (before ++ b ++ after).
Proof.
  intros Hs Hl H4 Hne E. rewrite !crc32c_bitwise_eq in E by done. unfold crc32c_bitwise, not32 in E.
  apply lxor_inj_l in E. rewrite !foldl_app in E. set (c := foldl _ _ before) in E.
  assert (Hc : (c < 2 ^ 32)%N) by (by apply crc_fold_bound, lxor_bound).
  apply crc_fold_inj in E; [|by apply crc_fold_bound..]. rewrite !crc_bitwise_run, Hl in E.
  apply crc_bits_inj in E; [|apply lxor_bound; [done|apply short_value_bound; lia]..].
  rewrite !(N.lxor_comm c) in E. apply lxor_inj_l in E. by apply Hne, le_value_inj.
Qed.

(** ** SHA-256 does not depend on how its input is cut *)

(** Enough fuel is enough. *)
Lemma absorb_fuel n m s data : length data ≤ n → length data ≤ m → absorb n s data = absorb m s data.
Proof.
  revert m s data. induction n as [|n IH]; intros m s data Hn Hm.
  - destruct data; [|simpl in Hn; lia]. destruct m; [done|]. cbn [absorb]. by rewrite decide_False by (simpl; lia).
  - destruct m as [|m]; [destruct data; [|simpl in Hm; lia]; cbn [absorb]; by rewrite decide_False by (simpl; lia)|].
    cbn [absorb]. case_decide; [|done]. apply IH; rewrite length_drop; lia.
Qed.

(** Whole blocks first, then the rest with what follows. *)
Lemma absorb_app n s l1 l2 :
  length l1 ≤ n →
  absorb (length (l1 ++ l2)) s (l1 ++ l2) =
    let '(s', rest) := absorb n s l1 in absorb (length (rest ++ l2)) s' (rest ++ l2).
Proof.
  revert s l1. induction n as [|n IH]; intros s l1 Hn; [done|]. cbn [absorb].
  case_decide as Hl; [|done]. rewrite <-IH by (rewrite length_drop; lia).
  assert (H64 : length (l1 ++ l2) = S (length (l1 ++ l2) - 1)) by (rewrite length_app; lia).
  rewrite H64 at 1. cbn [absorb]. rewrite decide_True by (rewrite length_app; lia).
  rewrite take_app_le, drop_app_le by lia.
  apply absorb_fuel; rewrite ?length_app, ?length_drop; lia.
Qed.

Lemma absorb_rest n s data : length data ≤ n → length (absorb n s data).2 < 64.
Proof.
  revert s data. induction n as [|n IH]; intros s data Hn; cbn [absorb]; [simpl; lia|].
  case_decide; [|simpl; lia]. apply IH. rewrite length_drop. lia.
Qed.

(** [update], in terms of all the bytes not yet compressed. *)
Lemma update_absorb h data :
  length (buffer h) < 64 →
  update h data =
    let '(s, rest) := absorb (length (buffer h ++ data)) (sha_state h) (buffer h ++ data) in
    mkSha256 s (u64_add (bit_length h) (8 * N.of_nat (length data))) rest.
Proof.
  intros Hb. unfold update. destruct (decide (buffer h ≠ [])) as [Hne|He].
  - rewrite (absorb_fuel _ (S (length (buffer h ++ data)))) by lia. cbn [absorb].
    destruct (decide (64 ≤ length (buffer h ++ data))) as [Hl|Hl].
    + rewrite length_app in Hl. rewrite (decide_True (P := length (_ ++ take _ _) = 64)) by (rewrite length_app, length_take; lia).
      rewrite take_app_ge, drop_app_ge by lia.
      rewrite (absorb_fuel (length (drop (64 - length (buffer h)) data)) (length (buffer h ++ data)))
        by (rewrite ?length_app, ?length_drop; lia).
      by destruct (absorb _ _ _).
    + rewrite length_app in Hl. rewrite decide_False by (rewrite length_app, length_take; lia).
      rewrite drop_ge, take_ge by lia. cbn. by rewrite app_nil_r.
  - apply dec_stable in He. rewrite He. cbn [app]. done.
Qed.

Lemma u64_add_assoc a b c : u64_add (u64_add a b) c = u64_add a (b + c).
Proof. unfold u64_add. rewrite N.Div0.add_mod_idemp_l. f_equal. lia. Qed.

Lemma update_app h l1 l2 : length (buffer h) < 64 → update (update h l1) l2 = update h (l1 ++ l2).
Proof.
  intros Hb. rewrite (update_absorb h l1), (update_absorb h (l1 ++ l2)) by done.
  rewrite app_assoc, (absorb_app _ _ (buffer h ++ l1)) by reflexivity.
  pose proof (absorb_rest (length (buffer h ++ l1)) (sha_state h) (buffer h ++ l1) (le_n _)) as Hr.
  destruct (absorb _ _ (buffer h ++ l1)) as [s rest]. rewrite update_absorb by done. cbn [buffer sha_state bit_length].
  rewrite u64_add_assoc, (length_app l1 l2), Nat2N.inj_add, N.mul_add_distr_l. done.
Qed.

Lemma update_buffer h data : length (buffer h) < 64 → length (buffer (update h data)) < 64.
Proof.
  intros Hb. rewrite update_absorb by done.
  pose proof (absorb_rest (length (buffer h ++ data)) (sha_state h) (buffer h ++ data) (le_n _)) as Hr.
  by destruct (absorb _ _ _).
Qed.

Lemma updates_concat h chunks : length (buffer h) < 64 → chunks ≠ [] → foldl update h chunks = update h (concat chunks).
Proof.
  revert h. induction chunks as [|c chunks IH]; intros h Hb Hne; [done|]. cbn [foldl concat].
  destruct chunks as [|c' chunks]; [by rewrite app_nil_r|].
  rewrite IH by (first [done|by apply update_buffer]). by apply update_app.
Qed.

(** The comparison of digests is equality. *)
Lemma digest_equal_spec a b : digest_equal a b = true ↔ a = b.
Proof.
  assert (Hz : ∀ (l : list (byte * byte)) d, foldl (λ diff p, N.lor diff (N.lxor (Byte.to_N p.1) (Byte.to_N p.2))) d l = 0%N ↔
             d = 0%N ∧ Forall (λ p, p.1 = p.2) l).
  { induction l as [|[x y] l IH]; intros d; cbn [foldl]; [split; [|by intros []]; intros ->; auto|].
    rewrite IH, N.lor_eq_0_iff, N.lxor_eq_0_iff, Forall_cons. cbn [fst snd]. split; [|intros (-> & -> & ?); done].
    intros [[-> E] ?]. split_and!; try done.
    apply (f_equal Byte.of_N) in E. rewrite !Byte.of_to_N in E. congruence. }
  unfold digest_equal. case_decide as Hl.
  - split; [done|]. intros ->. done.
  - rewrite N.eqb_eq, Hz. split.
    + intros [_ Hf]. clear Hz. revert b Hl Hf. induction a as [|x a IH]; intros [|y b] Hl Hf; try done.
      cbn in Hf. apply Forall_cons in Hf as [Hxy Hf]. cbn in Hxy. subst. f_equal. apply IH; [by injection Hl|done].
    + intros ->. split; [done|]. clear. induction b; cbn; auto.
Qed.

(** ** SHA-256 is the standard's *)

Lemma absorb_length n s data : length data ≤ n → ∃ q, length data = 64 * q + length (absorb n s data).2.
Proof.
  revert s data. induction n as [|n IH]; intros s data Hn; cbn [absorb]; [exists 0; simpl; lia|].
  case_decide as Hl; [|exists 0; simpl; lia].
  destruct (IH (compress s (take 64 data)) (drop 64 data)) as [q Hq]; [rewrite length_drop; lia|].
  exists (S q). rewrite length_drop in Hq. lia.
Qed.

(** One whole block, with or without another behind it. *)
Lemma absorb_block s block rest :
  length block = 64 → absorb (length (block ++ rest)) s (block ++ rest) = absorb (length rest) (compress s block) rest.
Proof.
  intros Hb. rewrite (absorb_fuel _ (S (length rest + 63))) by (rewrite length_app; lia). cbn [absorb].
  rewrite decide_True by (rewrite length_app; lia).
  rewrite take_app_length', drop_app_length' by done. apply absorb_fuel; lia.
Qed.

Lemma absorb_last s block : length block = 64 → absorb (length block) s block = (compress s block, []).
Proof. intros Hb. pose proof (absorb_block s block [] Hb) as E. rewrite app_nil_r in E. exact E. Qed.

Lemma be_bytes_length w v : length (be_bytes w v) = w.
Proof. unfold be_bytes. by rewrite length_rev, le_bytes_length. Qed.

Lemma finish_padded s rest bits :
  length rest < 64 →
  let tail := rest ++ x80 :: replicate ((119 - length rest) mod 64) x00 ++ be_bytes 8 bits in
  finish (mkSha256 s bits rest) = sha_output (absorb (length tail) s tail).1.
Proof.
  intros Hr tail. unfold finish. cbn [buffer sha_state bit_length].
  case_decide as Hl; rewrite length_app in Hl; cbn [length] in Hl.
  - assert (E : tail = ((rest ++ [x80]) ++ replicate (64 - length (rest ++ [x80])) x00) ++
                        (replicate 56 x00 ++ be_bytes 8 bits)).
    { unfold tail. rewrite <-!app_assoc. cbn [app]. do 2 f_equal. rewrite app_assoc, <-replicate_add. do 2 f_equal.
      rewrite length_app. cbn [length].
      rewrite Nat.mod_small by lia. lia. }
    rewrite E, absorb_block by (rewrite !length_app, length_replicate; cbn [length]; lia).
    rewrite absorb_last by (rewrite length_app, length_replicate, be_bytes_length; lia). done.
  - assert (E : tail = (rest ++ [x80]) ++ replicate (56 - length (rest ++ [x80])) x00 ++ be_bytes 8 bits).
    { unfold tail. rewrite <-!app_assoc. cbn [app]. do 4 f_equal. rewrite length_app. cbn [length].
      replace (119 - length rest) with (55 - length rest + 1 * 64) by lia.
      rewrite Nat.Div0.mod_add, Nat.mod_small by lia. lia. }
    rewrite E, absorb_last by (rewrite !length_app, length_replicate, be_bytes_length; cbn [length]; lia). done.
Qed.

Lemma sha256_padded_eq data : sha256 data = sha256_padded data.
Proof.
  unfold sha256, sha256_padded, sha_padded. rewrite update_absorb by (cbn; lia). cbn [buffer sha_start sha_state bit_length app].
  pose proof (absorb_length (length data) sha_initial data (le_n _)) as [q Hq].
  pose proof (absorb_rest (length data) sha_initial data (le_n _)) as Hr.
  rewrite (absorb_app (length data)) by done.
  destruct (absorb (length data) sha_initial data) as [s rest]. cbn [snd] in *.
  rewrite finish_padded by done. unfold u64_add. rewrite N.add_0_l.
  replace (length data mod 64) with (length rest); [done|].
  rewrite Hq, Nat.add_comm, Nat.mul_comm, Nat.Div0.mod_add, Nat.mod_small; lia.
Qed.

(** ** The properties *)

(** C29: the checksum.  The sliced, table-driven [crc32c] is the bit-by-bit
    CRC-32C of the reflected Castagnoli polynomial for every seed and every
    input, stays in 32 bits, and a checksum continued from another is the
    checksum of the concatenation. *)
Theorem crc32c_is_bitwise seed data :
  (seed < 2 ^ 32)%N →
  crc32c seed data = crc32c_bitwise seed data ∧ (crc32c seed data < 2 ^ 32)%N ∧
  ∀ more, crc32c (crc32c seed data) more = crc32c seed (data ++ more).
Proof.
  intros Hs. pose proof (crc32c_bound seed data Hs) as Hb. split_and!; [by apply crc32c_bitwise_eq|done|].
  intros more. rewrite !crc32c_bitwise_eq by done. apply crc32c_bitwise_app.
Qed.

Lemma crc32c_is_bitwise_witness :
  crc32c 0 (String.list_byte_of_string "123456789") = 3808858755%N ∧
  crc32c 0 (String.list_byte_of_string "123456789") = crc32c_bitwise 0 (String.list_byte_of_string "123456789").
Proof.
  split; [vm_compute; reflexivity|].
  exact (proj1 (crc32c_is_bitwise 0 (String.list_byte_of_string "123456789") (eq_refl : (0 < 2 ^ 32)%N))).
Defined.

(** C30: the digest.  [Sha256::digest] is the digest of the padded message as
    the standard defines it; feeding the input in any cuts to [update] gives the
    same digest; and [digest_equal] is equality of digests. *)
Theorem sha256_is_standard :
  (∀ data, sha256 data = sha256_padded data) ∧
  (∀ chunks, finish (foldl update sha_start chunks) = sha256 (concat chunks)) ∧
  (∀ a b, digest_equal a b = true ↔ a = b).
Proof.
  split_and!; [apply sha256_padded_eq| |apply digest_equal_spec].
  intros [|c chunks]; [by vm_compute|]. unfold sha256. by rewrite updates_concat by (done || (cbn; lia)).
Qed.
