(* ===== verification/Regions.v ===== *)
(** * The region store ([include/coherence/adapters/region_store.hpp],
    [src/adapters/region_store.cpp], and what it uses of [bytes.cpp] and [model.cpp])

    The bytes behind an agent's regions.  A region owns a host buffer or maps a
    named shared segment; the segments are state of the operating system, so two
    regions over one segment are two mappings, at different addresses, of the
    same bytes.  An access outside the bytes a region has is undefined in the
    code; the operations return [None] there. *)
From Stdlib Require Import Strings.Byte Strings.String.
From S2P Require Import Prelude Ids Enums Status Bytes Policy Evidence Model Decisions.
From S2P Require Import Serialize Checksum.

(** ** The pattern generator *)

Definition mask64 (x : N) : N := N.land x (N.ones 64).

Record DeterministicRandom := mkRandom { st0 : N; st1 : N; st2 : N; st3 : N }.

(** One round of the splitmix64 expansion. *)
Definition splitmix (x : N) : N :=
  let z := mask64 (N.lxor x (N.shiftr x 30) * 0xBF58476D1CE4E5B9) in
  let z := mask64 (N.lxor z (N.shiftr z 27) * 0x94D049BB133111EB) in
  N.lxor z (N.shiftr z 31).

Definition kGolden : N := 0x9E3779B97F4A7C15.

(** The constructor. *)
Definition seed_random (seed : N) : DeterministicRandom :=
  let x1 := u64_add seed kGolden in
  let x2 := u64_add x1 kGolden in
  let x3 := u64_add x2 kGolden in
  let x4 := u64_add x3 kGolden in
  let s := mkRandom (splitmix x1) (splitmix x2) (splitmix x3) (splitmix x4) in
  if (N.lor (N.lor (N.lor (st0 s) (st1 s)) (st2 s)) (st3 s) =? 0)%N
  then mkRandom kGolden (st1 s) (st2 s) (st3 s) else s.

Definition next_u64 (s : DeterministicRandom) : DeterministicRandom * N :=
  let five := mask64 (st1 s * 5) in
  let result := N.lor (mask64 (N.shiftl five 7)) (N.shiftr five 57) in
  let t := mask64 (N.shiftl (st1 s) 17) in
  let s2 := N.lxor (st2 s) (st0 s) in
  let s3 := N.lxor (st3 s) (st1 s) in
  let s1 := N.lxor (st1 s) s2 in
  let s0 := N.lxor (st0 s) s3 in
  let s2 := N.lxor s2 t in
  let s3 := N.lor (mask64 (N.shiftl s3 45)) (N.shiftr s3 19) in
  (mkRandom s0 s1 s2 s3, result).
Definition next_u32 (s : DeterministicRandom) : DeterministicRandom * N :=
  let '(s, r) := next_u64 s in (s, N.shiftr r 32).

(** The bytes the store writes. *)
Fixpoint random_bytes (n : nat) (s : DeterministicRandom) : list byte :=
  match n with
  | O => []
  | S n => let '(s, r) := next_u32 s in to_byte (N.land r 255) :: random_bytes n s
  end.
Definition pattern_bytes (n : nat) (seed : N) : list byte :=
  random_bytes n (seed_random (if (seed =? 0)%N then kGolden else seed)).
Definition make_pattern (length seed : N) : list byte := pattern_bytes (N.to_nat length) seed.

(** [fingerprint_bytes]. *)
Definition fingerprint_bytes (bytes : list byte) : ContentFingerprint :=
  let digest := sha256 bytes in
  mkContentFingerprint (from_uuid (mkUInt128 (be_value 0 (take 8 digest)) (be_value 0 (take 8 (drop 8 digest)))))
    (crc32c 0 bytes) (N.of_nat (length bytes)) true.

(** ** Shared segments *)

Record SharedSegment := mkSharedSegment { sg_name : string; sg_base : N; sg_length : N }.

(** The segments of the system, and the address of the next mapping. *)
Record SharedMemory := mkSharedMemory { sm_segments : gmap string (list byte); sm_next_base : N }.
#[export] Instance eta_SharedMemory : Eta SharedMemory := fun m => mkSharedMemory (sm_segments m) (sm_next_base m).

(** [SharedSegment::open]; [sized] and [mapped] say whether [ftruncate] and
    [mmap] succeed.  A mapping has an address of its own. *)
Definition open_segment (name : string) (len : N) (create sized mapped : bool) (sm : SharedMemory)
    : SharedMemory * result SharedSegment :=
  if decide (name = ""%string) then (sm, failure StatusCode.InvalidArgument) else
  if (len =? 0)%N then (sm, failure StatusCode.InvalidArgument) else
  let opened :=
    match sm_segments sm !! name, create with
    | Some _, true => failure StatusCode.ResourceExhausted
    | None, false => failure StatusCode.ResourceExhausted
    | Some _, false => success sm
    | None, true =>
        if sized then success (sm <| sm_segments ::= <[name := replicate (N.to_nat len) x00]> |>)
        else failure StatusCode.ResourceExhausted
    end in
  match opened with
  | failure e => (sm, failure e)
  | success sm =>
      if mapped then (sm <| sm_next_base ::= N.add len |>, success (mkSharedSegment name (sm_next_base sm) len))
      else (sm, failure StatusCode.ResourceExhausted)
  end.

(** ** The store *)

Module RegionBacking.
Inductive t := HostHeap | SharedMapping | Synthetic | DeviceLocal.
End RegionBacking.

#[local] Set Primitive Projections.

Record StoredRegion := mkStoredRegion {
  sr_id : RegionId;
  sr_name : string;
  sr_memory_domain : MemoryDomain.t;
  sr_evidence_class : EvidenceClass.t;
  sr_backing : RegionBacking.t;
  sr_length : N;
  sr_host : list byte;
  sr_shared : option SharedSegment;
  sr_address_hint : N;
  sr_device_adapter : string }.
#[export] Instance eta_StoredRegion : Eta StoredRegion := fun r => mkStoredRegion
  (sr_id r) (sr_name r) (sr_memory_domain r) (sr_evidence_class r) (sr_backing r) (sr_length r) (sr_host r)
  (sr_shared r) (sr_address_hint r) (sr_device_adapter r).

Record RegionStore := mkRegionStore { rs_regions : gmap RegionId StoredRegion; rs_next_id : N }.
#[export] Instance eta_RegionStore : Eta RegionStore := fun s => mkRegionStore (rs_regions s) (rs_next_id s).

#[local] Unset Primitive Projections.

Definition empty_region_store : RegionStore := mkRegionStore ∅ 1.

(** [StoredRegion::bytes]: what is there to read or write, and its address. *)
Definition region_bytes (sm : SharedMemory) (r : StoredRegion) : option (list byte) :=
  match sr_shared r with
  | None => Some (sr_host r)
  | Some g =>
      match sm_segments sm !! sg_name g with
      | None => None
      | Some pages => if (sr_length r <=? N.of_nat (length pages))%N then Some (take (N.to_nat (sr_length r)) pages) else None
      end
  end.
Definition region_data (r : StoredRegion) : N :=
  match sr_shared r with
  | Some g => sg_base g
  | None => if decide (sr_host r = []) then 0%N else sr_address_hint r
  end.

(** The bytes of a region are replaced, where they are. *)
Definition store_bytes (r : StoredRegion) (bytes : list byte) (sm : SharedMemory) (rs : RegionStore) : SharedMemory * RegionStore :=
  match sr_shared r with
  | Some g => (sm <| sm_segments ::= alter (λ pages, bytes ++ drop (length bytes) pages) (sg_name g) |>, rs)
  | None => (sm, rs <| rs_regions ::= <[sr_id r := r <| sr_host := bytes |>]> |>)
  end.

(** [RegionStore::add_host_region]; [address] is where the allocator puts the buffer. *)
Definition add_host_region (name : string) (len : N) (domain : MemoryDomain.t) (seed : N) (requested : RegionId) (address : N)
    (rs : RegionStore) : RegionStore * result RegionId :=
  if (len =? 0)%N then (rs, failure StatusCode.InvalidArgument) else
  let id := if defined requested then requested else from_value (rs_next_id rs) in
  let rs := if defined requested then
              if (rs_next_id rs <=? value requested)%N then rs <| rs_next_id := u64_succ (value requested) |> else rs
            else rs <| rs_next_id ::= u64_succ |> in
  match rs_regions rs !! id with
  | Some _ => (rs, failure StatusCode.DuplicateIdentity)
  | None =>
      let r := mkStoredRegion id name domain EvidenceClass.Real RegionBacking.HostHeap len (make_pattern len seed) None address "" in
      (rs <| rs_regions ::= <[id := r]> |>, success id)
  end.

(** [RegionStore::add_shared_region]. *)
Definition add_shared_region (name segment_name : string) (len : N) (create sized mapped : bool) (sm : SharedMemory)
    (rs : RegionStore) : SharedMemory * RegionStore * result RegionId :=
  match open_segment segment_name len create sized mapped sm with
  | (sm, failure e) => (sm, rs, failure e)
  | (sm, success g) =>
      let id := from_value (rs_next_id rs) in
      let r := mkStoredRegion id name MemoryDomain.HostShared EvidenceClass.Real RegionBacking.SharedMapping len [] (Some g)
        (sg_base g) "" in
      (sm, rs <| rs_next_id ::= u64_succ |> <| rs_regions ::= emplace id r |>, success id)
  end.

(** [RegionStore::add_synthetic_cxl_region]. *)
Definition add_synthetic_cxl_region (name : string) (len seed address : N) (rs : RegionStore) : RegionStore * result RegionId :=
  match add_host_region name len MemoryDomain.CxlClass seed nil_id address rs with
  | (rs, failure e) => (rs, failure e)
  | (rs, success id) =>
      (rs <| rs_regions ::= alter (λ r, r <| sr_evidence_class := EvidenceClass.Synthetic |>
                                          <| sr_backing := RegionBacking.Synthetic |>) id |>, success id)
  end.

(** [RegionStore::attach_device_region]. *)
Definition attach_device_region (name adapter : string) (domain : MemoryDomain.t) (evidence : EvidenceClass.t)
    (len address_hint : N) (rs : RegionStore) : RegionStore * result RegionId :=
  let id := from_value (rs_next_id rs) in
  let r := mkStoredRegion id name domain evidence RegionBacking.DeviceLocal len [] None address_hint adapter in
  (rs <| rs_next_id ::= u64_succ |> <| rs_regions ::= emplace id r |>, success id).

(** [RegionStore::find] and [ids]. *)
Definition find_region (id : RegionId) (rs : RegionStore) : option StoredRegion := rs_regions rs !! id.
Definition region_ids (rs : RegionStore) : list RegionId := sorted_keys (rs_regions rs).

Definition write_at (off : nat) (new old : list byte) : list byte := take off old ++ new ++ drop (off + length new) old.

(** Writing at an offset of a region's view. *)
Definition write_view (r : StoredRegion) (off : N) (new : list byte) (sm : SharedMemory) (rs : RegionStore)
    : option (SharedMemory * RegionStore) :=
  match region_bytes sm r with
  | None => None
  | Some old =>
      if decide (N.to_nat off + length new ≤ length old)
      then Some (store_bytes r (write_at (N.to_nat off) new old) sm rs) else None
  end.

(** [RegionStore::fill]. *)
Definition fill (id : RegionId) (seed off len : N) (sm : SharedMemory) (rs : RegionStore)
    : option (SharedMemory * RegionStore * StatusCode.t) :=
  match rs_regions rs !! id with
  | None => Some (sm, rs, StatusCode.UnknownRegion)
  | Some r =>
      let effective := if (len =? 0)%N then sr_length r else len in
      if negb (checked_range off effective (sr_length r)) then Some (sm, rs, StatusCode.InvalidArgument) else
      match write_view r off (make_pattern effective seed) sm rs with
      | None => None
      | Some (sm, rs) => Some (sm, rs, StatusCode.Ok)
      end
  end.

(** [RegionStore::poke]. *)
Definition poke (id : RegionId) (off val count : N) (sm : SharedMemory) (rs : RegionStore)
    : option (SharedMemory * RegionStore * StatusCode.t) :=
  match rs_regions rs !! id with
  | None => Some (sm, rs, StatusCode.UnknownRegion)
  | Some r =>
      if negb (checked_range off count (sr_length r)) then Some (sm, rs, StatusCode.InvalidArgument) else
      match write_view r off (replicate (N.to_nat count) (to_byte val)) sm rs with
      | None => None
      | Some (sm, rs) => Some (sm, rs, StatusCode.Ok)
      end
  end.

(** [RegionStore::fingerprint]. *)
Definition region_fingerprint (id : RegionId) (sm : SharedMemory) (rs : RegionStore) : option (result ContentFingerprint) :=
  match rs_regions rs !! id with
  | None => Some (failure StatusCode.UnknownRegion)
  | Some r => match region_bytes sm r with None => None | Some b => Some (success (fingerprint_bytes b)) end
  end.

(** [RegionStore::copy_and_verify]. *)
Definition copy_and_verify (source destination : RegionId) (sm : SharedMemory) (rs : RegionStore)
    : option (SharedMemory * RegionStore * StatusCode.t) :=
  match rs_regions rs !! source, rs_regions rs !! destination with
  | None, _ => Some (sm, rs, StatusCode.UnknownRegion)
  | _, None => Some (sm, rs, StatusCode.UnknownRegion)
  | Some from, Some to =>
      if negb (sr_length from =? sr_length to)%N then Some (sm, rs, StatusCode.InvalidArgument) else
      if (region_data from =? region_data to)%N then Some (sm, rs, StatusCode.InvalidArgument) else
      match region_bytes sm from with
      | None => None
      | Some bytes =>
          if decide (length bytes < N.to_nat (sr_length from)) then None else
          match write_view to 0 (take (N.to_nat (sr_length from)) bytes) sm rs with
          | None => None
          | Some (sm', rs') =>
              match rs_regions rs' !! source, rs_regions rs' !! destination with
              | Some from, Some to =>
                  match region_bytes sm' from, region_bytes sm' to with
                  | Some expected, Some observed =>
                      Some (sm', rs', if fingerprint_eqb (fingerprint_bytes expected) (fingerprint_bytes observed)
                                      then StatusCode.Ok else StatusCode.ContentMismatch)
                  | _, _ => None
                  end
              | _, _ => None
              end
          end
      end
  end.

(** ** Facts *)

Lemma random_bytes_length n s : length (random_bytes n s) = n.
Proof. revert s. induction n as [|n IH]; intros s; [done|]. cbn [random_bytes]. destruct (next_u32 s). cbn [length]. by rewrite IH. Qed.
Lemma make_pattern_length len seed : length (make_pattern len seed) = N.to_nat len.
Proof. apply random_bytes_length. Qed.
Lemma write_at_length off new old : off + length new ≤ length old → length (write_at off new old) = length old.
Proof. intros H. unfold write_at. rewrite !length_app, length_take, length_drop. lia. Qed.

Lemma fingerprint_eqb_refl f : fingerprint_eqb f f = true.
Proof. unfold fingerprint_eqb. rewrite decide_False by tauto. destruct (cf_defined f); [|done]. by rewrite !bool_decide_eq_true_2. Qed.

(** What a store looks like: regions lie under their identity, below the next
    identity to hand out; a host buffer has the length of its region. *)
Definition region_ok (next : N) (id : RegionId) (r : StoredRegion) : Prop :=
  sr_id r = id ∧ (value id < next)%N ∧
  match sr_backing r with
  | RegionBacking.HostHeap | RegionBacking.Synthetic => sr_shared r = None ∧ length (sr_host r) = N.to_nat (sr_length r)
  | RegionBacking.SharedMapping => is_Some (sr_shared r) ∧ sr_host r = []
  | RegionBacking.DeviceLocal => sr_shared r = None ∧ sr_host r = []
  end.
Definition store_ok (rs : RegionStore) : Prop := map_Forall (region_ok (rs_next_id rs)) (rs_regions rs).

(** A region whose bytes are all there. *)
Definition backed (sm : SharedMemory) (r : StoredRegion) : Prop :=
  ∃ bytes, region_bytes sm r = Some bytes ∧ length bytes = N.to_nat (sr_length r).

(** Two regions that do not map one segment. *)
Definition apart (r1 r2 : StoredRegion) : Prop :=
  match sr_shared r1, sr_shared r2 with Some g1, Some g2 => sg_name g1 ≠ sg_name g2 | _, _ => True end.

Definition bytes_of (sm : SharedMemory) (rs : RegionStore) (id : RegionId) : option (list byte) :=
  match rs_regions rs !! id with Some r => region_bytes sm r | None => None end.

Lemma region_ok_mono n n' id r : (n ≤ n')%N → region_ok n id r → region_ok n' id r.
Proof. intros Hn (? & ? & ?). split; [done|]. split; [lia|done]. Qed.

Lemma store_ok_insert rs id r next :
  store_ok rs → (rs_next_id rs ≤ next)%N → region_ok next id r →
  store_ok (mkRegionStore (<[id := r]> (rs_regions rs)) next).
Proof.
  intros Hs Hn Hr k x. cbn [rs_regions rs_next_id]. destruct (decide (id = k)) as [<-|Hne].
  - rewrite lookup_insert_eq. by intros [= <-].
  - rewrite lookup_insert_ne by done. intros Hk. eapply region_ok_mono; [exact Hn|]. by apply Hs.
Qed.

Lemma segments_update f sm : sm_segments (sm <| sm_segments ::= f |>) = f (sm_segments sm).
Proof. done. Qed.
Lemma regions_update f rs : rs_regions (rs <| rs_regions ::= f |>) = f (rs_regions rs).
Proof. done. Qed.

(** Replacing the bytes of a region, seen from every region. *)
Lemma store_bytes_spec id r old new sm rs :
  store_ok rs → rs_regions rs !! id = Some r → region_bytes sm r = Some old → length new = length old →
  let sm' := (store_bytes r new sm rs).1 in let rs' := (store_bytes r new sm rs).2 in
  bytes_of sm' rs' id = Some new ∧
  (∀ id2 r2, rs_regions rs !! id2 = Some r2 → id2 ≠ id → apart r r2 →
     rs_regions rs' !! id2 = Some r2 ∧ region_bytes sm' r2 = region_bytes sm r2) ∧
  (∃ r', rs_regions rs' !! id = Some r' ∧ region_bytes sm' r' = Some new) ∧ rs_next_id rs' = rs_next_id rs.
Proof.
  intros Hok Hr Hb Hl. destruct (Hok _ _ Hr) as (Hid & _ & _). unfold store_bytes, bytes_of.
  unfold region_bytes in Hb. destruct (sr_shared r) as [g|] eqn:Eg; cbn [fst snd].
  - destruct (sm_segments sm !! sg_name g) as [pages|] eqn:Ep; [|done].
    destruct (N.leb_spec (sr_length r) (N.of_nat (length pages))) as [Hle|]; [|done]. injection Hb as <-.
    rewrite length_take in Hl. rewrite Nat.min_l in Hl by lia.
    assert (region_bytes (sm <| sm_segments ::= alter (λ pages, new ++ drop (length new) pages) (sg_name g) |>) r = Some new) as E.
    { unfold region_bytes. rewrite Eg, segments_update, lookup_alter_eq, Ep. cbn [fmap option_fmap option_map].
      rewrite length_app, length_drop. destruct (N.leb_spec (sr_length r) (N.of_nat (length new + (length pages - length new)))); [|lia].
      f_equal. rewrite <-Hl. by rewrite take_app_length. }
    rewrite Hr. split; [done|]. split; [|eauto].
    intros id2 r2 H2 Hne Hap. split; [done|]. unfold region_bytes. unfold apart in Hap. rewrite Eg in Hap.
    destruct (sr_shared r2) as [g2|]; [|done]. by rewrite segments_update, lookup_alter_ne.
  - injection Hb as <-. rewrite regions_update, Hid.
    assert (region_bytes sm (r <| sr_host := new |>) = Some new) as E by (unfold region_bytes; cbn; by rewrite Eg).
    split; [by rewrite lookup_insert_eq|]. split; [|split; [|done]].
    + intros id2 r2 H2 Hne _. by rewrite lookup_insert_ne.
    + eexists. by rewrite lookup_insert_eq.
Qed.

Lemma store_bytes_ok id r old new sm rs :
  store_ok rs → rs_regions rs !! id = Some r → region_bytes sm r = Some old → length new = length old →
  store_ok (store_bytes r new sm rs).2.
Proof.
  intros Hok Hr Hb Hl. destruct (Hok _ _ Hr) as (Hid & Hlt & Hbk). unfold store_bytes, region_bytes in *.
  destruct (sr_shared r) as [g|] eqn:Eg; [done|]. injection Hb as <-. cbn [snd].
  refine (store_ok_insert rs (sr_id r) (r <| sr_host := new |>) (rs_next_id rs) Hok (N.le_refl _) _).
  split; [done|]. split; [by rewrite Hid|]. cbn. destruct (sr_backing r).
  - destruct Hbk as [? <-]. by rewrite Hl.
  - destruct Hbk as [[? Hn] _]. by rewrite Hn in Eg.
  - destruct Hbk as [? <-]. by rewrite Hl.
  - destruct Hbk as [? Hh]. rewrite Hh in Hl. by destruct new.
Qed.

Lemma write_view_ok id r off new sm rs sm' rs' :
  store_ok rs → rs_regions rs !! id = Some r → write_view r off new sm rs = Some (sm', rs') → store_ok rs'.
Proof.
  intros Hok Hr. unfold write_view. destruct (region_bytes sm r) as [old|] eqn:Hb; [|done].
  case_decide as Hw; [|done]. intros [= E]. change rs' with (sm', rs').2. rewrite <-E.
  eapply store_bytes_ok; [done..|]. by apply write_at_length.
Qed.

Lemma add_host_region_ok name len domain seed requested address rs :
  store_ok rs → (rs_next_id rs < u64_max)%N → (value requested < u64_max)%N →
  store_ok (add_host_region name len domain seed requested address rs).1 ∧
  (rs_next_id rs ≤ rs_next_id (add_host_region name len domain seed requested address rs).1)%N.
Proof.
  intros Hok Hn Hq. unfold add_host_region. destruct (len =? 0)%N; [by split|].
  set (id := if defined requested then requested else from_value (rs_next_id rs)).
  set (rs1 := if defined requested then _ else _).
  assert (rs_regions rs1 = rs_regions rs ∧ (rs_next_id rs ≤ rs_next_id rs1)%N ∧ (value id < rs_next_id rs1)%N) as (E & Hle & Hlt).
  { subst id rs1. destruct (defined requested).
    - destruct (N.leb_spec (rs_next_id rs) (value requested)); cbn [rs_regions rs_next_id]; [|split_and!; [done|lia|lia]].
      change (rs_next_id (rs <| rs_next_id := u64_succ (value requested) |>)) with (u64_succ (value requested)).
      rewrite u64_succ_small by done. split_and!; [done|lia|lia].
    - change (rs_next_id (rs <| rs_next_id ::= u64_succ |>)) with (u64_succ (rs_next_id rs)).
      rewrite u64_succ_small by done. cbn [value]. split_and!; [done|lia|lia]. }
  clearbody rs1 id. assert (store_ok rs1) as Hok1.
  { intros k x Hk. rewrite E in Hk. eapply region_ok_mono; [exact Hle|]. by apply Hok. }
  destruct (rs_regions rs1 !! id); [by split|]. cbn [fst]. split; [|exact Hle].
  refine (store_ok_insert rs1 id _ (rs_next_id rs1) Hok1 (N.le_refl _) _).
  split; [done|]. split; [done|]. cbn. split; [done|]. apply make_pattern_length.
Qed.

Lemma add_host_region_added name len domain seed requested address rs rs' id :
  add_host_region name len domain seed requested address rs = (rs', success id) →
  ∃ r, rs_regions rs' !! id = Some r ∧ sr_shared r = None ∧ length (sr_host r) = N.to_nat (sr_length r).
Proof.
  unfold add_host_region. destruct (len =? 0)%N; [done|]. cbv zeta.
  match goal with |- context [match ?x with Some _ => _ | None => _ end] => destruct x; [done|] end.
  intros [= <- <-]. eexists. split; [apply lookup_insert_eq|]. split; [done|]. apply make_pattern_length.
Qed.

Lemma emplace_region_ok rs id r :
  store_ok rs → (rs_next_id rs < u64_max)%N → id = from_value (rs_next_id rs) →
  (∀ n, (value id < n)%N → region_ok n id r) →
  store_ok (rs <| rs_next_id ::= u64_succ |> <| rs_regions ::= emplace id r |>).
Proof.
  intros Hok Hn Hid Hr. assert (rs_regions rs !! id = None) as Hnone.
  { destruct (rs_regions rs !! id) as [x|] eqn:E; [|done]. destruct (Hok _ _ E) as (_ & Hlt & _). subst id. cbn in Hlt. lia. }
  assert (emplace id r (rs_regions rs) = <[id := r]> (rs_regions rs)) as E by (unfold emplace; by rewrite Hnone).
  pose proof (store_ok_insert rs id r (u64_succ (rs_next_id rs)) Hok) as H. rewrite <-E in H. apply H.
  - rewrite u64_succ_small by done. lia.
  - apply Hr. subst id. cbn. rewrite u64_succ_small by done. lia.
Qed.

(** The operations of the store. *)
Inductive region_step : SharedMemory * RegionStore → SharedMemory * RegionStore → Prop :=
| rs_host name len domain seed requested address sm rs :
    (value requested < u64_max)%N →
    region_step (sm, rs) (sm, (add_host_region name len domain seed requested address rs).1)
| rs_synthetic name len seed address sm rs :
    region_step (sm, rs) (sm, (add_synthetic_cxl_region name len seed address rs).1)
| rs_segment name segment len create sized mapped sm rs :
    region_step (sm, rs) (add_shared_region name segment len create sized mapped sm rs).1
| rs_device name adapter domain evidence len address sm rs :
    region_step (sm, rs) (sm, (attach_device_region name adapter domain evidence len address rs).1)
| rs_fill id seed off len sm rs r : fill id seed off len sm rs = Some r → region_step (sm, rs) r.1
| rs_poke id off val count sm rs r : poke id off val count sm rs = Some r → region_step (sm, rs) r.1
| rs_copy source destination sm rs r : copy_and_verify source destination sm rs = Some r → region_step (sm, rs) r.1
| rs_others sm sm' rs : region_step (sm, rs) (sm', rs).

(** Every operation keeps the store well formed: regions under their own,
    fresh identities, buffers of the declared lengths. *)
Theorem region_store_stays_well_formed st st' :
  region_step st st' → store_ok st.2 → (rs_next_id st.2 < u64_max)%N → store_ok st'.2.
Proof.
  destruct 1; cbn [fst snd]; intros Hok Hn; try done.
  - by apply add_host_region_ok.
  - unfold add_synthetic_cxl_region.
    pose proof (add_host_region_ok name len MemoryDomain.CxlClass seed nil_id address rs Hok Hn eq_refl) as [Hs _].
    destruct (add_host_region _ _ _ _ _ _ _) as [rs1 [id|e]] eqn:E; [|done]. cbn [fst] in *.
    intros k x. change (alter (λ r, r <| sr_evidence_class := EvidenceClass.Synthetic |> <| sr_backing := RegionBacking.Synthetic |>) id
      (rs_regions rs1) !! k = Some x → region_ok (rs_next_id rs1) k x).
    destruct (decide (id = k)) as [<-|Hne]; [|rewrite lookup_alter_ne by done; apply Hs].
    rewrite lookup_alter_eq. destruct (rs_regions rs1 !! id) as [y|] eqn:Ey; [|done]. intros [= <-].
    destruct (Hs _ _ Ey) as (? & ? & Hb). split; [done|]. split; [done|]. cbn.
    destruct (add_host_region_added _ _ _ _ _ _ _ _ _ E) as (z & Ez & Hz). rewrite Ey in Ez. injection Ez as <-. exact Hz.
  - unfold add_shared_region. destruct (open_segment _ _ _ _ _ _) as [sm1 [g|e]]; [|done]. cbn [fst snd].
    apply emplace_region_ok; [done|done|done|]. intros n Hlt. split; [done|]. split; [done|]. cbn. by split.
  - unfold attach_device_region. cbn [fst]. apply emplace_region_ok; [done|done|done|].
    intros n Hlt. split; [done|]. split; [done|]. cbn. by split.
  - unfold fill in H. destruct (rs_regions rs !! id) as [x|] eqn:E; [|by injection H as <-].
    destruct (negb _); [by injection H as <-|]. destruct (write_view _ _ _ _ _) as [[sm1 rs1]|] eqn:Ew; [|done].
    injection H as <-. by eapply write_view_ok.
  - unfold poke in H. destruct (rs_regions rs !! id) as [x|] eqn:E; [|by injection H as <-].
    destruct (negb _); [by injection H as <-|]. destruct (write_view _ _ _ _ _) as [[sm1 rs1]|] eqn:Ew; [|done].
    injection H as <-. by eapply write_view_ok.
  - unfold copy_and_verify in H. destruct (rs_regions rs !! source) as [x|]; [|by injection H as <-].
    destruct (rs_regions rs !! destination) as [y|] eqn:E; [|by injection H as <-].
    destruct (negb _); [by injection H as <-|]. destruct (_ =? _)%N; [by injection H as <-|].
    destruct (region_bytes sm x); [|done]. case_decide; [done|].
    destruct (write_view y _ _ _ _) as [[sm1 rs1]|] eqn:Ew; [|done].
    repeat (case_match; [|done]). injection H as <-. by eapply write_view_ok.
Qed.

(** Writing inside a region: exactly those bytes, and of no other region but
    another mapping of its segment. *)
Lemma write_view_spec id r off new sm rs :
  store_ok rs → rs_regions rs !! id = Some r → backed sm r → N.to_nat off + length new ≤ N.to_nat (sr_length r) →
  ∃ old sm' rs', write_view r off new sm rs = Some (sm', rs') ∧ region_bytes sm r = Some old ∧
    bytes_of sm' rs' id = Some (write_at (N.to_nat off) new old) ∧
    ∀ id2 r2, rs_regions rs !! id2 = Some r2 → id2 ≠ id → apart r r2 →
      rs_regions rs' !! id2 = Some r2 ∧ region_bytes sm' r2 = region_bytes sm r2.
Proof.
  intros Hok Hr (old & Hb & Hl) Hw. unfold write_view. rewrite Hb, decide_True by lia.
  destruct (store_bytes_spec id r old (write_at (N.to_nat off) new old) sm rs Hok Hr Hb) as (H1 & H2 & _).
  { apply write_at_length. lia. }
  destruct (store_bytes r _ sm rs) as [sm' rs']. cbn [fst snd] in *. exists old, sm', rs'. done.
Qed.

Lemma checked_range_inside off len extent :
  u64_ok off → u64_ok len → u64_ok extent → checked_range off len extent = true →
  N.to_nat off + N.to_nat len ≤ N.to_nat extent.
Proof. intros Ho Hl He H. apply checked_range_spec in H; [lia|done..]. Qed.

(** Writes into regions are exact.  Filling or poking a region whose bytes are
    there either is refused, because the range is not inside the region, and
    changes nothing, or replaces exactly the bytes of the range, by the pattern
    of the seed or the value, and no byte of a region that does not map the same
    segment. *)
Theorem region_writes_are_exact id r sm rs off :
  store_ok rs → rs_regions rs !! id = Some r → backed sm r → u64_ok off → u64_ok (sr_length r) →
  (∀ seed len, u64_ok len →
     let effective := if (len =? 0)%N then sr_length r else len in
     ∃ sm' rs' status, fill id seed off len sm rs = Some (sm', rs', status) ∧
     if (off + effective <=? sr_length r)%N then
       status = StatusCode.Ok ∧ ∃ old, bytes_of sm rs id = Some old ∧
       bytes_of sm' rs' id = Some (write_at (N.to_nat off) (make_pattern effective seed) old) ∧
       ∀ id2 r2, rs_regions rs !! id2 = Some r2 → id2 ≠ id → apart r r2 → bytes_of sm' rs' id2 = bytes_of sm rs id2
     else status = StatusCode.InvalidArgument ∧ sm' = sm ∧ rs' = rs) ∧
  (∀ val count, u64_ok count →
     ∃ sm' rs' status, poke id off val count sm rs = Some (sm', rs', status) ∧
     if (off + count <=? sr_length r)%N then
       status = StatusCode.Ok ∧ ∃ old, bytes_of sm rs id = Some old ∧
       bytes_of sm' rs' id = Some (write_at (N.to_nat off) (replicate (N.to_nat count) (to_byte val)) old) ∧
       ∀ id2 r2, rs_regions rs !! id2 = Some r2 → id2 ≠ id → apart r r2 → bytes_of sm' rs' id2 = bytes_of sm rs id2
     else status = StatusCode.InvalidArgument ∧ sm' = sm ∧ rs' = rs).
Proof.
  intros Hok Hr Hbk Ho Hlen.
  assert (∀ n new, u64_ok n → length new = N.to_nat n →
    (∃ sm' rs' status, (if negb (checked_range off n (sr_length r)) then Some (sm, rs, StatusCode.InvalidArgument) else
      match write_view r off new sm rs with None => None | Some (sm, rs) => Some (sm, rs, StatusCode.Ok) end) = Some (sm', rs', status) ∧
      if (off + n <=? sr_length r)%N then
        status = StatusCode.Ok ∧ ∃ old, bytes_of sm rs id = Some old ∧ bytes_of sm' rs' id = Some (write_at (N.to_nat off) new old) ∧
        ∀ id2 r2, rs_regions rs !! id2 = Some r2 → id2 ≠ id → apart r r2 → bytes_of sm' rs' id2 = bytes_of sm rs id2
      else status = StatusCode.InvalidArgument ∧ sm' = sm ∧ rs' = rs)) as Hw.
  { intros n new Hn Hnew. destruct (N.leb_spec (off + n) (sr_length r)) as [Hin|Hout].
    - rewrite (proj2 (checked_range_spec off n (sr_length r) Ho Hn Hlen)) by lia. cbn [negb].
      destruct (write_view_spec id r off new sm rs Hok Hr Hbk) as (old & sm' & rs' & -> & Hold & H1 & H2); [lia|].
      exists sm', rs', StatusCode.Ok. split; [done|]. split; [done|]. exists old. unfold bytes_of at 1. rewrite Hr.
      split; [done|]. split; [done|]. intros id2 r2 Hr2 Hne Hap. destruct (H2 _ _ Hr2 Hne Hap) as [Hl Hb].
      unfold bytes_of. by rewrite Hl, Hr2.
    - destruct (checked_range off n (sr_length r)) eqn:E; [apply checked_range_spec in E; [lia|done..]|]. cbn [negb]. eauto 10. }
  split.
  - intros seed len Hl effective. unfold fill. rewrite Hr. apply (Hw effective (make_pattern effective seed)).
    + subst effective. by destruct (len =? 0)%N.
    + apply make_pattern_length.
  - intros val count Hc. unfold poke. rewrite Hr. apply (Hw count (replicate (N.to_nat count) (to_byte val))); [done|].
    apply length_replicate.
Qed.

(** A certified copy moved the bytes.  Between two regions of one length
    whose bytes are there and which do not map one segment, a copy is certified,
    leaves the source as it was and the destination byte for byte equal to it. *)
Theorem certified_copies_move_bytes source destination from to sm rs :
  store_ok rs → rs_regions rs !! source = Some from → rs_regions rs !! destination = Some to →
  sr_length from = sr_length to → region_data from ≠ region_data to →
  backed sm from → backed sm to → apart to from →
  ∃ sm' rs' bytes, copy_and_verify source destination sm rs = Some (sm', rs', StatusCode.Ok) ∧
    bytes_of sm rs source = Some bytes ∧ bytes_of sm' rs' source = Some bytes ∧ bytes_of sm' rs' destination = Some bytes.
Proof.
  intros Hok Hf Ht Hlen Hd (bytes & Hb & Hl) Hbt Hap. unfold copy_and_verify. rewrite Hf, Ht.
  assert (source ≠ destination) as Hne by (intros ->; rewrite Hf in Ht; by injection Ht as ->).
  rewrite <-Hlen, N.eqb_refl. cbn [negb]. apply N.eqb_neq in Hd as ->.
  rewrite Hb, decide_False by lia. rewrite firstn_all2 by lia.
  destruct (write_view_spec destination to 0 bytes sm rs Hok Ht Hbt) as (old & sm' & rs' & -> & Hold & H1 & H2).
  { rewrite <-Hlen. simpl. lia. }
  destruct (H2 _ _ Hf Hne Hap) as [Hf' Hbf]. rewrite Hf'.
  assert (write_at (N.to_nat 0) bytes old = bytes) as Ew.
  { unfold write_at. simpl. destruct Hbt as (b & Hb' & Hlb). rewrite Hold in Hb'. injection Hb' as <-.
    rewrite drop_ge by lia. apply app_nil_r. }
  rewrite Ew in H1. pose proof H1 as H1'. unfold bytes_of in H1. destruct (rs_regions rs' !! destination) as [to'|]; [|done].
  rewrite Hbf, Hb, H1, fingerprint_eqb_refl. exists sm', rs', bytes. split; [done|].
  unfold bytes_of at 1 2. rewrite Hf, Hf', Hbf. done.
Qed.

(** Alpha's two buffers and two mappings of one segment. *)
Definition no_segments : SharedMemory := mkSharedMemory ∅ 4096.
Definition two_buffers : RegionStore :=
  (add_host_region "b" 16 MemoryDomain.HostPageable 2 nil_id 200
    (add_host_region "a" 16 MemoryDomain.HostPageable 1 nil_id 100 empty_region_store).1).1.
Definition mapped_once := add_shared_region "a" "segment" 16 true true true no_segments empty_region_store.
Definition mapped_twice := add_shared_region "b" "segment" 16 false true true mapped_once.1.1 mapped_once.1.2.

Lemma two_buffers_ok : store_ok two_buffers.
Proof.
  assert (store_ok empty_region_store) as H0 by exact (map_Forall_empty _).
  destruct (add_host_region_ok "a" 16 MemoryDomain.HostPageable 1 nil_id 100 empty_region_store H0) as [H1 _]; [done|done|].
  destruct (add_host_region_ok "b" 16 MemoryDomain.HostPageable 2 nil_id 200 _ H1) as [H2 _]; [by vm_compute|done|done].
Qed.

Definition buffer (id : N) : StoredRegion :=
  default (mkStoredRegion nil_id "" MemoryDomain.HostPageable EvidenceClass.Real RegionBacking.HostHeap 0 [] None 0 "")
    (rs_regions two_buffers !! from_value id).

Lemma region_writes_are_exact_witness :
  ∃ sm' rs' status, poke (from_value 1) 3 255 2 no_segments two_buffers = Some (sm', rs', status) ∧ status = StatusCode.Ok.
Proof.
  destruct (proj2 (region_writes_are_exact (from_value 1) (buffer 1) no_segments two_buffers 3 two_buffers_ok
    ltac:(by vm_compute) ltac:(eexists; by vm_compute) ltac:(by vm_compute) ltac:(by vm_compute)) 255%N 2%N ltac:(by vm_compute))
    as (sm' & rs' & st & E & H).
  exists sm', rs', st. split; [exact E|]. exact (proj1 H).
Defined.

Lemma certified_copies_move_bytes_witness :
  ∃ sm' rs' bytes, copy_and_verify (from_value 1) (from_value 2) no_segments two_buffers = Some (sm', rs', StatusCode.Ok) ∧
    bytes_of no_segments two_buffers (from_value 1) = Some bytes ∧ bytes_of sm' rs' (from_value 1) = Some bytes ∧
    bytes_of sm' rs' (from_value 2) = Some bytes.
Proof.
  apply (certified_copies_move_bytes (from_value 1) (from_value 2) (buffer 1) (buffer 2) no_segments two_buffers two_buffers_ok);
    [by vm_compute|by vm_compute|by vm_compute|by vm_compute|eexists; by vm_compute|eexists; by vm_compute|by vm_compute].
Defined.

(** Two mappings of one segment have different addresses, so the comparison of
    addresses does not see that they are the same bytes: a copy between them
    moves nothing and is certified. *)
Theorem aliased_copy_is_certified :
  let sm := mapped_twice.1.1 in let rs := mapped_twice.1.2 in
  ∃ sm', copy_and_verify (from_value 1) (from_value 2) sm rs = Some (sm', rs, StatusCode.Ok) ∧ sm_segments sm' = sm_segments sm.
Proof. eexists. split; [by vm_compute|]. by vm_compute. Qed.

(** A device region has no host bytes; filling it is undefined. *)
Theorem device_fill_is_undefined name adapter domain evidence len address seed sm :
  (0 < len)%N → u64_ok len →
  fill (from_value 1) seed 0 0 sm (attach_device_region name adapter domain evidence len address empty_region_store).1 = None.
Proof.
  intros Hl Hu. unfold fill, attach_device_region. cbn [fst].
  set (r := mkStoredRegion _ _ _ _ _ _ _ _ _ _).
  assert (rs_regions (empty_region_store <| rs_next_id ::= u64_succ |> <| rs_regions ::= emplace (from_value (rs_next_id empty_region_store)) r |>)
    !! from_value 1 = Some r) as -> by exact (lookup_insert_eq _ _ _).
  change (sr_length r) with len. rewrite N.eqb_refl. unfold u64_ok in Hu.
  rewrite (proj2 (checked_range_spec 0 len len ltac:(done) Hu Hu)) by lia. cbn [negb].
  unfold write_view. cbn. rewrite decide_False; [done|]. rewrite make_pattern_length. lia.
Qed.
