(* ===== verification/Random.v ===== *)
(** * Randomness ([src/ids.cpp], [src/bytes.cpp])

    The identities drawn from the operating system's random source, over the
    calls that read it; the bounded draw of the deterministic generator; the
    hexadecimal text of bytes. *)
From Stdlib Require Import Strings.Byte Strings.String.
From S2P Require Import Prelude Ids Bytes Serialize Checksum Regions.

(** ** The random source *)

(** A call of [read]: the bytes it gives, an interruption, or an error.  Past the
    last call the file has ended. *)
Inductive ReadCall := ReadBytes (bytes : list byte) | ReadInterrupted | ReadFailed.
(** Whether the source opens, and what its reads return. *)
Record Urandom := mkUrandom { ur_opens : bool; ur_reads : list ReadCall }.

(** The loop of [secure_random_bytes]: what is still wanted is read piece by piece. *)
Fixpoint fill_random (want : nat) (reads : list ReadCall) : option (list byte) :=
  match want with
  | O => Some []
  | S _ =>
      match reads with
      | [] | ReadFailed :: _ => None
      | ReadInterrupted :: reads => fill_random want reads
      | ReadBytes bytes :: reads =>
          let got := take want bytes in
          if decide (got = []) then None else (got ++.) <$> fill_random (want - length got) reads
      end
  end.
(** [secure_random_bytes]; [None] is its [false]. *)
Definition secure_random_bytes (u : Urandom) (size : nat) : option (list byte) :=
  if decide (size = 0) then Some [] else if ur_opens u then fill_random size (ur_reads u) else None.

(** ** Identities *)

(** The 128-bit value whose memory the bytes are. *)
Definition raw128 (bytes : list byte) : UInt128 := mkUInt128 (le_value (take 8 bytes)) (le_value (drop 8 bytes)).
Definition generate128 (u : Urandom) : UInt128 :=
  match secure_random_bytes u 16 with
  | None => mkUInt128 0 0
  | Some bytes => let raw := raw128 bytes in if is_zero128 raw then mkUInt128 (high raw) 1 else raw
  end.
(** [generate_participant_boot_id], [generate_session_id], [generate_request_id]. *)
Definition generate_participant_boot_id (u : Urandom) : ParticipantBootId := from_uuid (generate128 u).
Definition generate_session_id (u : Urandom) : SessionId := from_uuid (generate128 u).
Definition generate_request_id (u : Urandom) : RequestId :=
  match secure_random_bytes u 8 with
  | None => nil_id
  | Some bytes => let raw := le_value bytes in from_value (if (raw =? 0)%N then 1 else raw)
  end.

(** ** The deterministic generator *)

(** [next_below], with a bound on the draws. *)
Definition threshold (bound : N) : N := ((two64 - bound) mod bound)%N.
Fixpoint next_below_loop (fuel : nat) (bound : N) (s : DeterministicRandom) : option (DeterministicRandom * N) :=
  match fuel with
  | O => None
  | S fuel => let '(s, r) := next_u64 s in if (threshold bound <=? r)%N then Some (s, (r mod bound)%N) else next_below_loop fuel bound s
  end.
Definition next_below (fuel : nat) (bound : N) (s : DeterministicRandom) : option (DeterministicRandom * N) :=
  if (bound <=? 1)%N then Some (s, 0%N) else next_below_loop fuel bound s.

(** ** Hexadecimal text *)

(** [to_hex] of bytes and [sha256_hex]. *)
Definition hex_of_bytes (data : list byte) : string := foldr (λ b out, hex_digits 2 (Byte.to_N b) +:+ out) "" data.
Definition sha256_hex (data : list byte) : string := hex_of_bytes (sha256 data).

(** ** Lemmas *)

Lemma fill_random_length want reads bytes : fill_random want reads = Some bytes → length bytes = want.
Proof.
  revert want bytes. induction reads as [|r reads IH]; intros [|want] bytes; cbn [fill_random]; try (intros [= <-]; done); try done.
  destruct r as [got| |]; [|apply IH|done]. case_decide as Hg; [done|].
  destruct (fill_random (S want - length (take (S want) got)) reads) as [rest|] eqn:E; [|done]. cbn. intros [= <-].
  apply IH in E. rewrite length_app, E. pose proof (firstn_le_length (S want) got). lia.
Qed.
(** Reads that fail or end early apart, the pieces and the interruptions of the
    reads do not matter. *)
Lemma fill_random_pieces want reads bytes :
  fill_random want reads = Some bytes →
  bytes = take want (concat ((λ r, match r with ReadBytes b => b | _ => [] end) <$> reads)).
Proof.
  revert want bytes. induction reads as [|r reads IH]; intros [|want] bytes; cbn [fill_random]; try (intros [= <-]; done); try done.
  destruct r as [got| |]; [|by apply IH|done]. case_decide as Hg; [done|].
  destruct (fill_random (S want - length (take (S want) got)) reads) as [rest|] eqn:E; [|done]. cbn [fmap option_fmap option_map]. intros [= <-].
  apply IH in E. subst rest. rewrite fmap_cons. cbn [concat]. rewrite length_take, take_app.
  destruct (decide (S want ≤ length got)) as [Hle|Hgt].
  - rewrite Nat.min_l by done. replace (S want - S want) with 0 by lia. replace (S want - length got) with 0 by lia. by rewrite !take_0.
  - by rewrite Nat.min_r by lia.
Qed.
Lemma secure_random_length u n bytes : secure_random_bytes u n = Some bytes → length bytes = n.
Proof.
  unfold secure_random_bytes. case_decide; [intros [= <-]; by subst|]. destruct (ur_opens u); [|done]. apply fill_random_length.
Qed.

(** An identity is nil exactly when the source failed: nothing guessable is made
    up, and what was drawn is never mistaken for no identity. *)
Theorem identities_are_nil_only_without_a_source u :
  (uuid_is_nil (generate_participant_boot_id u) = true ↔ secure_random_bytes u 16 = None) ∧
  (uuid_is_nil (generate_session_id u) = true ↔ secure_random_bytes u 16 = None) ∧
  (is_nil (generate_request_id u) = true ↔ secure_random_bytes u 8 = None).
Proof.
  assert (is_zero128 (generate128 u) = true ↔ secure_random_bytes u 16 = None) as H.
  { unfold generate128. destruct (secure_random_bytes u 16) as [bytes|]; [|done]. cbv zeta.
    destruct (is_zero128 (raw128 bytes)) eqn:E; [|by rewrite E]. unfold is_zero128. cbn [high low].
    split; [|done]. by destruct (high (raw128 bytes) =? 0)%N. }
  split_and!; [exact H|exact H|]. unfold generate_request_id. destruct (secure_random_bytes u 8) as [bytes|]; [|done].
  unfold is_nil. cbn [value]. destruct (N.eqb_spec (le_value bytes) 0) as [|Hne]; [done|]. split; [|done]. intros E%N.eqb_eq. done.
Qed.

(** ** Unbiased draws *)

(** The accepted draws fall into a whole number of blocks of the bound. *)
Lemma accepted_blocks bound : (1 < bound)%N → (bound < two64)%N → (two64 - threshold bound = ((two64 - bound) / bound + 1) * bound)%N.
Proof.
  intros Hb Hl. unfold threshold. pose proof (N.div_mod (two64 - bound) bound). pose proof (N.mod_lt (two64 - bound) bound). nia.
Qed.

(** Every result below the bound comes from the same number of accepted draws:
    those with the result [k] are the numbers [first + j * bound] for the [j] below a
    count that does not depend on [k]. *)
Theorem bounded_draws_are_unbiased bound k :
  (1 < bound)%N → (bound < two64)%N → (k < bound)%N →
  ∃ first, ∀ r, ((threshold bound <= r < two64)%N ∧ (r mod bound)%N = k ↔
                 ∃ j, (j < (two64 - bound) / bound + 1)%N ∧ r = (first + j * bound)%N).
Proof.
  intros Hb Hl Hk. pose proof (accepted_blocks bound Hb Hl) as Ha. set (q := ((two64 - bound) / bound + 1)%N) in *.
  assert (threshold bound < bound)%N as Ht by (apply N.mod_lt; lia). set (t := threshold bound) in *.
  exists (if (t <=? k)%N then k else k + bound)%N. intros r. split.
  - intros [[H1 H2] Hr]. pose proof (N.div_mod r bound). set (d := (r / bound)%N) in *.
    destruct (N.leb_spec t k).
    + exists d. split; [|nia]. nia.
    + exists (d - 1)%N. assert (1 <= d)%N by nia. split; nia.
  - intros (j & Hj & ->). destruct (N.leb_spec t k).
    + split; [nia|]. rewrite N.Div0.mod_add, N.mod_small by done. done.
    + split; [nia|]. replace (k + bound + j * bound)%N with (k + (j + 1) * bound)%N by lia. rewrite N.Div0.mod_add. by apply N.mod_small.
Qed.
