(* ===== verification/Persistence.v ===== *)
(** * Durable state: the journal and the durable image
    ([include/coherence/persistence.hpp], [src/persistence.cpp])

    A journal entry is a tagged union with a log position.  The durable image
    is what replaying a journal builds; the store itself is an interface with
    the operations the engine calls. *)
From S2P Require Import Prelude Ids Enums Status Policy Model.

#[local] Set Primitive Projections.

(** [DurableImage]. *)
Record DurableImage := mkDurableImage {
  img_sequence : N;
  img_epoch : CoordinatorEpoch;
  img_domains : gmap CoherenceDomainId DomainRecord;
  img_participants : gmap ParticipantId ParticipantRecord;
  img_objects : gmap ObjectId ObjectRecord;
  img_regions : gmap RegionId RegionRecord;
  img_invalidations : gmap InvalidationId InvalidationRecord;
  img_syncs : gmap SyncOperationId SyncRecord;
  img_policies : gmap PolicyId CoherencePolicy;
  img_pending_publications : gmap PublicationId PendingPublication }.
#[export] Instance eta_DurableImage : Eta DurableImage := fun x => mkDurableImage
  (img_sequence x) (img_epoch x) (img_domains x) (img_participants x) (img_objects x)
  (img_regions x) (img_invalidations x) (img_syncs x) (img_policies x)
  (img_pending_publications x).
Definition default_DurableImage : DurableImage :=
  mkDurableImage 0 nil_id ∅ ∅ ∅ ∅ ∅ ∅ ∅ ∅.

(** [JournalEntryKind] together with the payload that kind carries. *)
Inductive JournalPayload :=
| Invalid
| Snapshot
| UpsertDomain (domain : DomainRecord)
| UpsertParticipant (participant : ParticipantRecord)
| UpsertObject (object : ObjectRecord)
| UpsertRegion (region : RegionRecord)
| UpsertInvalidation (invalidation : InvalidationRecord)
| UpsertSync (sync : SyncRecord)
| UpsertPolicy (policy : CoherencePolicy)
| SetPendingPublication (pending : PendingPublication)
| ClearPendingPublication (remove_object : ObjectId)
| RemoveObject (remove_object : ObjectId)
| RemoveRegion (remove_region : RegionId)
| SetEpoch (epoch : CoordinatorEpoch)
| RemoveSync (remove_sync : SyncOperationId)
| RemoveParticipant (remove_participant : ParticipantId).

(** [JournalEntry]: the log position and the payload. *)
Record JournalEntry := mkJournalEntry { j_sequence : N; j_payload : JournalPayload }.

(** [scrub_object_for_persistence]: dynamic authority is never written. *)
Definition scrub_object_for_persistence (record : ObjectRecord) : ObjectRecord :=
  record <| o_reads := [] |>
         <| o_authority := AuthorityMode.None |>
         <| o_writer := nil_id |>
         <| o_writer_boot := nil_uuid |>
         <| o_has_unpublished_dirty := false |>.

(** [scrub_participant_for_persistence]. *)
Definition scrub_participant_for_persistence (record : ParticipantRecord) : ParticipantRecord :=
  record <| p_session := nil_uuid |>
         <| p_live := false |>
         <| p_last_sequence := nil_id |>.

(** [apply_journal_entry], payload by payload. *)
Definition apply_payload (image : DurableImage) (p : JournalPayload) : option DurableImage :=
  match p with
  | Snapshot => None
  | UpsertDomain d => Some (image <| img_domains ::= <[d_id d := d]> |>)
  | UpsertParticipant r => Some (image <| img_participants ::= <[p_id r := r]> |>)
  | RemoveParticipant i => Some (image <| img_participants ::= delete i |>)
  | UpsertObject o => Some (image <| img_objects ::= <[o_id o := o]> |>)
  | RemoveObject i => Some (image <| img_objects ::= delete i |>)
  | UpsertRegion r => Some (image <| img_regions ::= <[r_id r := r]> |>)
  | RemoveRegion i => Some (image <| img_regions ::= delete i |>)
  | UpsertInvalidation i => Some (image <| img_invalidations ::= <[i_id i := i]> |>)
  | UpsertSync y => Some (image <| img_syncs ::= <[y_id y := y]> |>)
  | RemoveSync i => Some (image <| img_syncs ::= delete i |>)
  | UpsertPolicy p => Some (image <| img_policies ::= <[pol_id p := p]> |>)
  | SetPendingPublication p => Some (image <| img_pending_publications ::= <[pp_id p := p]> |>)
  | ClearPendingPublication o =>
      Some (image <| img_pending_publications ::= filter (λ kv, pp_object kv.2 ≠ o) |>)
  | SetEpoch e => Some (image <| img_epoch := e |>)
  | Invalid => None
  end.

Definition apply_journal_entry (image : DurableImage) (entry : JournalEntry) : DurableImage * StatusCode.t :=
  if (j_sequence entry =? 0)%N then (image, StatusCode.InvalidArgument) else
  match j_payload entry with
  | Snapshot => (image, StatusCode.Ok)
  | Invalid => (image, StatusCode.ProtocolViolation)
  | payload =>
      match apply_payload image payload with
      | Some image' =>
          ((if (img_sequence image' <? j_sequence entry)%N
            then image' <| img_sequence := j_sequence entry |> else image'), StatusCode.Ok)
      | None => (image, StatusCode.ProtocolViolation)
      end
  end.

(** [LoadReport]. *)
Record LoadReport := mkLoadReport {
  lr_journal_records_replayed : N;
  lr_corrupt_records : N;
  lr_snapshot_loaded : bool;
  lr_snapshot_bytes : N;
  lr_journal_bytes : N;
  lr_truncated_tail : bool }.
#[export] Instance eta_LoadReport : Eta LoadReport := fun x => mkLoadReport
  (lr_journal_records_replayed x) (lr_corrupt_records x) (lr_snapshot_loaded x)
  (lr_snapshot_bytes x) (lr_journal_bytes x) (lr_truncated_tail x).
Definition default_LoadReport : LoadReport := {|
  lr_journal_records_replayed := 0;
  lr_corrupt_records := 0;
  lr_snapshot_loaded := false;
  lr_snapshot_bytes := 0;
  lr_journal_bytes := 0;
  lr_truncated_tail := false |}%N.

#[local] Unset Primitive Projections.

(** The virtual interface [DurableStore]: what the engine calls. *)
Class DurableStore (St : Type) := {
  ds_open : St → St * result (LoadReport * DurableImage);
  ds_append : JournalEntry → St → St * StatusCode.t;
  ds_compact : DurableImage → St → St * StatusCode.t;
  ds_flush : St → St * StatusCode.t;
  ds_close : St → St * StatusCode.t;
  ds_journal_bytes : St → N }.

(** [DurableStore::append_batch], which no store of the program overrides:
    append one by one, stop at the first failure, then flush. *)
Fixpoint append_batch {St} `{DurableStore St} (entries : list JournalEntry) (st : St) : St * StatusCode.t :=
  match entries with
  | [] => ds_flush st
  | entry :: rest =>
      let '(st', status) := ds_append entry st in
      if ok status then append_batch rest st' else (st', status)
  end.

(** Replay of a journal: entries are applied in order up to the first that
    does not apply. *)
Fixpoint replay (image : DurableImage) (entries : list JournalEntry) : DurableImage :=
  match entries with
  | [] => image
  | entry :: rest =>
      let '(image', status) := apply_journal_entry image entry in
      if ok status then replay image' rest else image
  end.

#[global] Arguments apply_journal_entry : simpl never.

(** ** Lemmas *)

(** A payload that can be applied, i.e. anything but [Invalid]. *)
Definition applicable (p : JournalPayload) : bool :=
  match p with Invalid => false | _ => true end.

Lemma apply_journal_entry_ok image n p :
  n ≠ 0%N → applicable p = true → (apply_journal_entry image (mkJournalEntry n p)).2 = StatusCode.Ok.
Proof. intros Hn Hp. unfold apply_journal_entry. simpl. destruct (N.eqb_spec n 0); [done|]. by destruct p. Qed.

(** An entry that is refused changes nothing. *)
Lemma apply_journal_entry_failed image e :
  (apply_journal_entry image e).2 ≠ StatusCode.Ok → (apply_journal_entry image e).1 = image.
Proof.
  unfold apply_journal_entry. case_match; [done|].
  destruct (j_payload e); simpl; try done.
Qed.

Lemma replay_app image es1 es2 :
  Forall (λ e, j_sequence e ≠ 0%N ∧ applicable (j_payload e) = true) es1 →
  replay image (es1 ++ es2) = replay (replay image es1) es2.
Proof.
  intros Hall. revert image. induction Hall as [|[n p] es [Hn Hp] _ IH]; intros image; [done|].
  simpl in *. pose proof (apply_journal_entry_ok image n p Hn Hp) as Hok.
  destruct (apply_journal_entry image _) as [image' st]. simpl in *. subst. simpl. apply IH.
Qed.

(** Scrubbing is idempotent: writing a restored record changes nothing more. *)
Lemma scrub_object_idemp o :
  scrub_object_for_persistence (scrub_object_for_persistence o) = scrub_object_for_persistence o.
Proof. done. Qed.
