(* ===== verification/Framing.v ===== *)
(** * Journal frames and snapshots ([include/coherence/persistence.hpp], [src/persistence.cpp])

    The binary frame around a journal entry and the snapshot file: header,
    lengths, checksums and digest, as they are written and as they are checked. *)
From Stdlib Require Import Strings.Byte Strings.String.
From S2P Require Import Prelude Ids Enums Status Bytes Policy Evidence Model Decisions.
From S2P Require Import Serialize Codec Checksum Persistence.

(** [StoreLimits], less the barrier option that only concerns the file system. *)
Record StoreLimits := mkStoreLimits {
  max_snapshot_bytes : N;
  max_journal_bytes : N;
  max_journal_record_bytes : N;
  max_records : N }.
Definition default_StoreLimits : StoreLimits := {|
  max_snapshot_bytes := N.shiftl 1 31;
  max_journal_bytes := N.shiftl 1 31;
  max_journal_record_bytes := N.shiftl 1 26;
  max_records := 20000000 |}%N.

(** ** Journal entries *)

(** The value of [JournalEntryKind] of a payload. *)
Definition journal_kind (p : JournalPayload) : N :=
  match p with
  | Invalid => 0
  | Snapshot => 1
  | UpsertDomain _ => 2
  | UpsertParticipant _ => 3
  | UpsertObject _ => 4
  | UpsertRegion _ => 5
  | UpsertInvalidation _ => 6
  | UpsertSync _ => 7
  | UpsertPolicy _ => 8
  | SetPendingPublication _ => 9
  | ClearPendingPublication _ => 10
  | RemoveObject _ => 11
  | RemoveRegion _ => 12
  | SetEpoch _ => 13
  | RemoveSync _ => 14
  | RemoveParticipant _ => 15
  end.

(** [encode_payload]; [None] is its [false]. *)
Definition encode_payload (p : JournalPayload) : option (list byte) :=
  match p with
  | Snapshot => Some []
  | UpsertDomain r => Some (encode_domain r)
  | UpsertParticipant r => Some (encode_participant r)
  | UpsertObject r => Some (encode_object r)
  | UpsertRegion r => Some (encode_region r)
  | UpsertInvalidation r => Some (encode_invalidation r)
  | UpsertSync r => Some (encode_sync r)
  | UpsertPolicy r => Some (encode_policy r)
  | SetPendingPublication r => Some (encode_pending_publication r)
  | ClearPendingPublication i => Some (ByteWriter.strong_id i)
  | RemoveObject i => Some (ByteWriter.strong_id i)
  | RemoveRegion i => Some (ByteWriter.strong_id i)
  | RemoveSync i => Some (ByteWriter.strong_id i)
  | RemoveParticipant i => Some (ByteWriter.strong_id i)
  | SetEpoch e => Some (ByteWriter.strong_id e)
  | Invalid => None
  end.

Definition read_map {A B} (f : A → B) (r : Reader A) : Reader B := let* a := r in read_ret (f a).

(** [journal_kind_from_u16] with [decode_payload]: the decoder of a declared
    kind, [None] for an undeclared one. *)
Definition decode_payload (limits : DecodeLimits) (raw : N) : option (Reader JournalPayload) :=
  match raw with
  | 1 => Some (read_ret Snapshot)
  | 2 => Some (read_map UpsertDomain (decode_domain limits))
  | 3 => Some (read_map UpsertParticipant (decode_participant limits))
  | 4 => Some (read_map UpsertObject (decode_object limits))
  | 5 => Some (read_map UpsertRegion (decode_region limits))
  | 6 => Some (read_map UpsertInvalidation (decode_invalidation limits))
  | 7 => Some (read_map UpsertSync (decode_sync limits))
  | 8 => Some (read_map UpsertPolicy (decode_policy limits))
  | 9 => Some (read_map SetPendingPublication (decode_pending_publication limits))
  | 10 => Some (read_map ClearPendingPublication ByteReader.strong_id)
  | 11 => Some (read_map RemoveObject ByteReader.strong_id)
  | 12 => Some (read_map RemoveRegion ByteReader.strong_id)
  | 13 => Some (read_map SetEpoch ByteReader.strong_id)
  | 14 => Some (read_map RemoveSync ByteReader.strong_id)
  | 15 => Some (read_map RemoveParticipant ByteReader.strong_id)
  | _ => None
  end%N.

(** [kJournalRecordMagic], [kJournalFormatVersion], [kJournalHeaderSize],
    [kPayloadCrcSeed]. *)
Definition kJournalRecordMagic : N := 0x43464A31.
Definition kJournalFormatVersion : N := 1.
Definition kJournalHeaderSize : nat := 24.
Definition kPayloadCrcSeed : N := 0.

(** [write_frame_header]: the stores at 0, 4, 6, 8, 16 and 20 fill the header. *)
Definition frame_header (kind sequence payload_length payload_crc : N) : list byte :=
  le_bytes 4 kJournalRecordMagic ++ le_bytes 2 kJournalFormatVersion ++ le_bytes 2 kind ++
  le_bytes 8 sequence ++ le_bytes 4 payload_length ++ le_bytes 4 payload_crc.

(** [encode_journal_entry]; the empty frame when the payload has no encoding. *)
Definition encode_journal_entry (entry : JournalEntry) : list byte :=
  match encode_payload (j_payload entry) with
  | None => []
  | Some payload =>
      frame_header (journal_kind (j_payload entry)) (j_sequence entry) (N.of_nat (length payload))
        (crc32c kPayloadCrcSeed payload) ++ payload
  end.

(** [decode_journal_entry]. *)
Definition decode_journal_entry (frame : list byte) (limits : StoreLimits) : result JournalEntry :=
  if decide (length frame < kJournalHeaderSize) then failure StatusCode.TruncatedInput else
  if negb (load_le 4 frame 0 =? kJournalRecordMagic)%N then failure StatusCode.CorruptionDetected else
  if negb (load_le 2 frame 4 =? kJournalFormatVersion)%N then failure StatusCode.UnsupportedSchema else
  match decode_payload default_decode_limits (load_le 2 frame 6) with
  | None => failure StatusCode.ProtocolViolation
  | Some reader =>
      let sequence := load_le 8 frame 8 in
      let payload_length := load_le 4 frame 16 in
      let payload_crc := load_le 4 frame 20 in
      if (max_journal_record_bytes limits <? payload_length)%N then failure StatusCode.OversizedInput else
      if (N.of_nat (length frame) <? N.of_nat kJournalHeaderSize + payload_length)%N then
        failure StatusCode.TruncatedInput else
      let payload := take (N.to_nat payload_length) (drop kJournalHeaderSize frame) in
      if negb (crc32c kPayloadCrcSeed payload =? payload_crc)%N then failure StatusCode.IntegrityFailure else
      match ByteReader.finish (reader payload) with
      | success p => success (mkJournalEntry sequence p)
      | failure c => failure c
      end
  end.

(** ** Snapshots *)

Definition enc_collection {K A} `{Countable K, Ranked K} (enc : A → list byte) (m : gmap K A) : list byte :=
  enc_list enc (map_values m).

(** [encode_image_payload]. *)
Definition encode_image_payload (image : DurableImage) : list byte :=
  ByteWriter.u64 (img_sequence image) ++
  ByteWriter.strong_id (img_epoch image) ++
  enc_collection encode_domain (img_domains image) ++
  enc_collection encode_participant (img_participants image) ++
  enc_collection encode_policy (img_policies image) ++
  enc_collection encode_object (img_objects image) ++
  enc_collection encode_region (img_regions image) ++
  enc_collection encode_invalidation (img_invalidations image) ++
  enc_collection encode_sync (img_syncs image) ++
  enc_collection encode_pending_publication (img_pending_publications image).

(** [decode_collection]: a record is placed under its own key, the first wins. *)
Definition decode_collection {K A} `{Countable K} (limits : DecodeLimits) (record_key : A → K)
    (dec : Reader A) : Reader (gmap K A) :=
  let* records := dec_list limits dec in
  read_ret (foldl (λ out record, emplace (record_key record) record out) ∅ records).

(** [decode_image_payload]. *)
Definition decode_image_payload (limits : DecodeLimits) : Reader DurableImage :=
  let* sequence := ByteReader.u64 in
  let* epoch := ByteReader.strong_id in
  let* domains := decode_collection limits d_id (decode_domain limits) in
  let* participants := decode_collection limits p_id (decode_participant limits) in
  let* policies := decode_collection limits pol_id (decode_policy limits) in
  let* objects := decode_collection limits o_id (decode_object limits) in
  let* regions := decode_collection limits r_id (decode_region limits) in
  let* invalidations := decode_collection limits i_id (decode_invalidation limits) in
  let* syncs := decode_collection limits y_id (decode_sync limits) in
  let* pending := decode_collection limits pp_id (decode_pending_publication limits) in
  read_ret {| img_sequence := sequence; img_epoch := epoch; img_domains := domains;
    img_participants := participants; img_policies := policies; img_objects := objects;
    img_regions := regions; img_invalidations := invalidations; img_syncs := syncs;
    img_pending_publications := pending |}.

(** [DurableImage::record_count]. *)
Definition record_count (image : DurableImage) : N :=
  map_count (img_domains image) + map_count (img_participants image) + map_count (img_objects image) +
  map_count (img_regions image) + map_count (img_invalidations image) + map_count (img_syncs image) +
  map_count (img_policies image) + map_count (img_pending_publications image).

Definition kSnapshotMagic : N := 0x43465331.
Definition kSnapshotFormatVersion : N := 1.
Definition kPersistenceSchema : N := 1.
Definition kSnapshotHeaderSize : nat := 32.
Definition kSnapshotTrailerSize : nat := 32.

(** The header as written before its own checksum is known: the checksum field
    at 20 is zero. *)
Definition snapshot_header (payload_length payload_crc header_crc sequence : N) : list byte :=
  le_bytes 4 kSnapshotMagic ++ le_bytes 2 kSnapshotFormatVersion ++ le_bytes 2 kPersistenceSchema ++
  le_bytes 8 payload_length ++ le_bytes 4 payload_crc ++ le_bytes 4 header_crc ++ le_bytes 8 sequence.

(** The checksum over the first [kSnapshotHeaderSize - 4] bytes. *)
Definition header_checksum (header : list byte) : N := crc32c 0 (take (kSnapshotHeaderSize - 4) header).

(** [encode_snapshot]. *)
Definition encode_snapshot (image : DurableImage) : list byte :=
  let payload := encode_image_payload image in
  let payload_length := N.of_nat (length payload) in
  let payload_crc := crc32c kPayloadCrcSeed payload in
  let header := snapshot_header payload_length payload_crc 0 (img_sequence image) in
  let header := store_le 4 header 20 (header_checksum header) in
  let out := header ++ payload in
  out ++ sha256 out.

(** [decode_snapshot]. *)
Definition decode_snapshot (bytes : list byte) (limits : StoreLimits) : result DurableImage :=
  if decide (length bytes < kSnapshotHeaderSize + kSnapshotTrailerSize) then
    failure StatusCode.TruncatedInput else
  if negb (load_le 4 bytes 0 =? kSnapshotMagic)%N then failure StatusCode.CorruptionDetected else
  if negb (load_le 2 bytes 4 =? kSnapshotFormatVersion)%N then failure StatusCode.UnsupportedSchema else
  if negb (load_le 2 bytes 6 =? kPersistenceSchema)%N then failure StatusCode.UnsupportedSchema else
  let payload_length := load_le 8 bytes 8 in
  let payload_crc := load_le 4 bytes 16 in
  let header_crc := load_le 4 bytes 20 in
  match checked_add payload_length (N.of_nat (kSnapshotHeaderSize + kSnapshotTrailerSize)) with
  | None => failure StatusCode.OversizedInput
  | Some expected_total =>
      if (max_snapshot_bytes limits <? expected_total)%N then failure StatusCode.OversizedInput else
      if negb (N.of_nat (length bytes) =? expected_total)%N then failure StatusCode.TrailingGarbage else
      let header_copy := store_le 4 (take kSnapshotHeaderSize bytes) 20 0 in
      if negb (header_checksum header_copy =? header_crc)%N then failure StatusCode.IntegrityFailure else
      let len := N.to_nat payload_length in
      let payload := take len (drop kSnapshotHeaderSize bytes) in
      if negb (crc32c kPayloadCrcSeed payload =? payload_crc)%N then failure StatusCode.IntegrityFailure else
      let trailer := take kSnapshotTrailerSize (drop (kSnapshotHeaderSize + len) bytes) in
      if negb (digest_equal trailer (sha256 (take (kSnapshotHeaderSize + len) bytes))) then
        failure StatusCode.IntegrityFailure else
      match ByteReader.finish (decode_image_payload default_decode_limits payload) with
      | failure c => failure c
      | success image =>
          if negb (load_le 8 bytes 24 =? img_sequence image)%N then failure StatusCode.IntegrityFailure else
          if (max_records limits <? record_count image)%N then failure StatusCode.OversizedInput else
          success image
      end
  end.

(** ** Payloads *)

Definition fits_payload (limits : DecodeLimits) (p : JournalPayload) : Prop :=
  match p with
  | Invalid => False
  | Snapshot => True
  | UpsertDomain r => fits_domain limits r
  | UpsertParticipant r => fits_participant limits r
  | UpsertObject r => fits_object limits r
  | UpsertRegion r => fits_region limits r
  | UpsertInvalidation r => fits_invalidation limits r
  | UpsertSync r => fits_sync limits r
  | UpsertPolicy r => fits_policy limits r
  | SetPendingPublication r => fits_pending_publication limits r
  | ClearPendingPublication i => fits_id i
  | RemoveObject i => fits_id i
  | RemoveRegion i => fits_id i
  | RemoveSync i => fits_id i
  | RemoveParticipant i => fits_id i
  | SetEpoch e => fits_id e
  end.

Lemma read_map_written {A B} {fits : A → Prop} {enc dec} `{!Lawful fits enc dec} (f : A → B) a rest :
  fits a → read_map f dec (enc a ++ rest) = Read (f a) rest.
Proof. intros Ha. unfold read_map. by rewrite bind_written. Qed.

Lemma read_map_read {A B} {fits : A → Prop} {enc dec} `{!Lawful fits enc dec} (f : A → B) l b rest :
  read_map f dec l = Read b rest → ∃ a, fits a ∧ b = f a ∧ l = enc a ++ rest.
Proof. intros H. apply bind_read in H as (a & l' & Ha & -> & H). injection H as <- <-. eauto. Qed.

Lemma payload_written limits p rest :
  fits_payload limits p →
  ∃ bytes reader, encode_payload p = Some bytes ∧ decode_payload limits (journal_kind p) = Some reader ∧
    reader (bytes ++ rest) = Read p rest.
Proof.
  destruct p; cbn [fits_payload]; intros Hf; try done;
    (do 2 eexists; split; [reflexivity|split; [reflexivity|]]); first [done|by apply read_map_written].
Qed.

Lemma payload_read limits k reader l p rest :
  decode_payload limits k = Some reader → reader l = Read p rest →
  journal_kind p = k ∧ fits_payload limits p ∧ ∃ bytes, encode_payload p = Some bytes ∧ l = bytes ++ rest.
Proof.
  unfold decode_payload. intros Hk Hr. repeat case_match; simplify_eq.
  all: try (apply read_map_read in Hr as (a & Ha & -> & ->); split; [reflexivity|split; [exact Ha|eauto]]).
  injection Hr as <- <-. split; [reflexivity|split; [done|by exists []]].
Qed.

(** ** Reading the fields of a header *)

Lemma load_skip n x l w off : n ≤ off → load_le w (le_bytes n x ++ l) off = load_le w l (off - n).
Proof.
  intros Hn. unfold load_le. do 2 f_equal. replace off with (length (le_bytes n x) + (off - n)) at 1
    by (rewrite le_bytes_length; lia). by rewrite drop_app_add.
Qed.

Lemma load_here w v l : fits_width w v → load_le w (le_bytes w v ++ l) 0 = v.
Proof. apply load_le_app. Qed.

(** A buffer is its first field and the rest. *)
Lemma field_split w l : w ≤ length l → l = le_bytes w (load_le w l 0) ++ drop w l.
Proof.
  intros Hw. unfold load_le. rewrite drop_0. rewrite <-(take_drop w l) at 1. f_equal.
  rewrite <-(le_bytes_value (take w l)) at 1. f_equal. rewrite length_take. lia.
Qed.

Lemma load_drop w l off : load_le w l off = load_le w (drop off l) 0.
Proof. unfold load_le. by rewrite drop_0. Qed.

(** A field of eight bytes fits 64 bits. *)
Lemma load_width l off : u64_ok (load_le 8 l off).
Proof.
  unfold u64_ok, load_le. eapply N.lt_le_trans; [apply le_value_bound|]. change two64 with (256 ^ 8)%N.
  apply N.pow_le_mono_r; [done|]. rewrite length_take. lia.
Qed.

Ltac load_field := rewrite ?load_skip by lia; cbn [Nat.sub]; rewrite load_here by first [done|reflexivity].

Section frame.
Context (limits : StoreLimits).

(** The entries a frame can carry within the limits. *)
Definition frame_ok (e : JournalEntry) : Prop :=
  fits_payload default_decode_limits (j_payload e) ∧ fits_width 8 (j_sequence e) ∧
  ∀ bytes, encode_payload (j_payload e) = Some bytes →
    (N.of_nat (length bytes) ≤ max_journal_record_bytes limits)%N ∧ fits_width 4 (N.of_nat (length bytes)).

Lemma frame_header_length k s n c : length (frame_header k s n c) = kJournalHeaderSize.
Proof. unfold frame_header. by rewrite !length_app, !le_bytes_length. Qed.

Lemma journal_kind_fits p : fits_width 2 (journal_kind p).
Proof. by destruct p. Qed.

(** Every field of a frame that was written. *)
Lemma frame_fields e payload rest :
  encode_payload (j_payload e) = Some payload → frame_ok e →
  let frame := encode_journal_entry e ++ rest in
  load_le 4 frame 0 = kJournalRecordMagic ∧ load_le 2 frame 4 = kJournalFormatVersion ∧
  load_le 2 frame 6 = journal_kind (j_payload e) ∧ load_le 8 frame 8 = j_sequence e ∧
  load_le 4 frame 16 = N.of_nat (length payload) ∧ load_le 4 frame 20 = crc32c kPayloadCrcSeed payload ∧
  drop kJournalHeaderSize frame = payload ++ rest.
Proof.
  intros Hp (_ & Hs & Hl). destruct (Hl payload Hp) as [_ Hw].
  assert (Hc : fits_width 4 (crc32c kPayloadCrcSeed payload)) by (by apply crc32c_bound).
  pose proof (journal_kind_fits (j_payload e)) as Hk.
  unfold encode_journal_entry. rewrite Hp, <-app_assoc. cbv zeta.
  split_and!; [..|by rewrite drop_app_length' by (by rewrite frame_header_length)].
  all: unfold frame_header; rewrite <-?app_assoc; load_field; done.
Qed.

Lemma frame_length e payload :
  encode_payload (j_payload e) = Some payload → length (encode_journal_entry e) = kJournalHeaderSize + length payload.
Proof. intros Hp. unfold encode_journal_entry. by rewrite Hp, length_app, frame_header_length. Qed.

Lemma decode_encoded e : frame_ok e → decode_journal_entry (encode_journal_entry e) limits = success e.
Proof.
  intros Hok. destruct (payload_written default_decode_limits (j_payload e) [] (proj1 Hok)) as (payload & reader & Hp & Hr & Hd).
  pose proof (frame_fields e payload [] Hp Hok) as (F0 & F1 & F2 & F3 & F4 & F5 & F6). rewrite ?app_nil_r in *.
  destruct Hok as (_ & _ & Hl). destruct (Hl payload Hp) as [Hmax _].
  unfold decode_journal_entry. rewrite F0, F1, F2, F3, F4, F5, F6, !N.eqb_refl, Hr. cbn [negb].
  rewrite decide_False by (rewrite (frame_length _ _ Hp); unfold kJournalHeaderSize; lia).
  destruct (N.ltb_spec (max_journal_record_bytes limits) (N.of_nat (length payload))); [lia|].
  rewrite (frame_length _ _ Hp). destruct (N.ltb_spec (N.of_nat (kJournalHeaderSize + length payload)) (N.of_nat kJournalHeaderSize + N.of_nat (length payload))); [lia|].
  rewrite Nat2N.id, firstn_all, N.eqb_refl. cbn [negb]. rewrite Hd. cbn. by destruct e.
Qed.

(** The parts of any buffer long enough for a header. *)
Lemma frame_split frame :
  kJournalHeaderSize ≤ length frame →
  frame = le_bytes 4 (load_le 4 frame 0) ++ le_bytes 2 (load_le 2 frame 4) ++ le_bytes 2 (load_le 2 frame 6) ++
    le_bytes 8 (load_le 8 frame 8) ++ le_bytes 4 (load_le 4 frame 16) ++ le_bytes 4 (load_le 4 frame 20) ++
    drop kJournalHeaderSize frame.
Proof.
  unfold kJournalHeaderSize. intros Hl.
  rewrite (load_drop 2 frame 4), (load_drop 2 frame 6), (load_drop 8 frame 8), (load_drop 4 frame 16), (load_drop 4 frame 20).
  rewrite (field_split 4 frame) at 1 by lia. f_equal.
  rewrite (field_split 2 (drop 4 frame)) at 1 by (rewrite length_drop; lia). f_equal. rewrite drop_drop.
  rewrite (field_split 2 (drop _ frame)) at 1 by (rewrite length_drop; lia). f_equal. rewrite drop_drop.
  rewrite (field_split 8 (drop _ frame)) at 1 by (rewrite length_drop; lia). f_equal. rewrite drop_drop.
  rewrite (field_split 4 (drop _ frame)) at 1 by (rewrite length_drop; lia). f_equal. rewrite drop_drop.
  rewrite (field_split 4 (drop _ frame)) at 1 by (rewrite length_drop; lia). f_equal. by rewrite drop_drop.
Qed.

(** What a decoded frame was. *)
Lemma decoded_encode frame e :
  decode_journal_entry frame limits = success e →
  N.of_nat (length frame) = (N.of_nat kJournalHeaderSize + load_le 4 frame 16)%N →
  frame_ok e ∧ frame = encode_journal_entry e.
Proof.
  unfold decode_journal_entry. case_decide as Hl; [done|]. intros H Hlen.
  destruct (N.eqb_spec (load_le 4 frame 0) kJournalRecordMagic) as [E0|]; [|done].
  destruct (N.eqb_spec (load_le 2 frame 4) kJournalFormatVersion) as [E1|]; [|done]. cbn [negb] in H.
  destruct (decode_payload _ _) as [reader|] eqn:Er; [|done].
  destruct (N.ltb_spec (max_journal_record_bytes limits) (load_le 4 frame 16)) as [|Hmax]; [done|].
  destruct (_ <? _)%N; [done|].
  assert (Hd : length (drop kJournalHeaderSize frame) = N.to_nat (load_le 4 frame 16)) by (rewrite length_drop; lia).
  rewrite take_ge in H by lia.
  destruct (N.eqb_spec (crc32c kPayloadCrcSeed (drop kJournalHeaderSize frame)) (load_le 4 frame 20)) as [E5|]; [|done].
  cbn [negb] in H. destruct (reader _) as [p [|b rest]| |] eqn:Hp; try done. injection H as <-.
  eapply payload_read in Hp as (Hk & Hf & bytes & Hb & Hbytes); [|exact Er]. rewrite app_nil_r in Hbytes.
  split.
  - split; [exact Hf|]. cbn [j_sequence j_payload]. split.
    + unfold load_le. eapply N.lt_le_trans; [apply le_value_bound|].
      rewrite length_take, length_drop, Nat.min_l; [done|]. unfold kJournalHeaderSize in *. lia.
    + intros bytes' Hb'. rewrite Hb in Hb'. injection Hb' as <-. rewrite <-Hbytes, Hd, N2Nat.id. split; [done|].
      unfold fits_width, load_le. eapply N.lt_le_trans; [apply le_value_bound|].
      rewrite length_take, length_drop, Nat.min_l; [done|]. unfold kJournalHeaderSize in *. lia.
  - unfold encode_journal_entry. cbn [j_sequence j_payload]. rewrite Hb.
    rewrite (frame_split frame) at 1 by lia. unfold frame_header. rewrite <-!app_assoc, E0, E1, Hk, <-Hbytes, E5, Hd, N2Nat.id. done.
Qed.

(** A payload with one changed group of at most four bytes no longer has the
    checksum of the header. *)
Lemma corrupted_frame e before a b after :
  frame_ok e → encode_payload (j_payload e) = Some (before ++ a ++ after) →
  length a = length b → length a ≤ 4 → a ≠ b →
  decode_journal_entry (take kJournalHeaderSize (encode_journal_entry e) ++ before ++ b ++ after) limits =
  failure StatusCode.IntegrityFailure.
Proof.
  intros Hok Hp Hab H4 Hne. destruct (proj2 (proj2 Hok) _ Hp) as [Hmax _].
  destruct (frame_fields e _ [] Hp Hok) as (F0 & F1 & F2 & F3 & F4 & F5 & _). rewrite app_nil_r in *.
  pose proof (frame_length e _ Hp) as Hl. set (header := take _ _). set (payload' := before ++ b ++ after) in *.
  assert (Hh : length header = kJournalHeaderSize) by (unfold header; rewrite length_take; lia).
  assert (Hlen : length payload' = length (before ++ a ++ after)) by (unfold payload'; rewrite !length_app; lia).
  assert (F : ∀ w off, off + w ≤ kJournalHeaderSize → load_le w (header ++ payload') off = load_le w (encode_journal_entry e) off).
  { intros w off Hw. unfold load_le. f_equal. rewrite drop_app_le by lia. rewrite take_app_le by (rewrite length_drop; lia).
    unfold header. rewrite skipn_firstn_comm, take_take. f_equal. lia. }
  unfold decode_journal_entry. rewrite decide_False by (rewrite length_app; lia).
  rewrite !F by (unfold kJournalHeaderSize; lia). rewrite F0, F1, F2, F4, F5, !N.eqb_refl. cbn [negb].
  destruct (payload_written default_decode_limits (j_payload e) [] (proj1 Hok)) as (_ & reader & _ & -> & _).
  destruct (N.ltb_spec (max_journal_record_bytes limits) (N.of_nat (length (before ++ a ++ after)))); [lia|].
  destruct (N.ltb_spec (N.of_nat (length (header ++ payload'))) (N.of_nat kJournalHeaderSize + N.of_nat (length (before ++ a ++ after)))) as [Hs|_];
    [rewrite length_app in Hs; lia|].
  rewrite Nat2N.id, drop_app_length', <-Hlen, firstn_all by done.
  destruct (N.eqb_spec (crc32c kPayloadCrcSeed payload') (crc32c kPayloadCrcSeed (before ++ a ++ after))) as [E|_]; [|done].
  exfalso. revert E. apply crc32c_burst; [done|by symmetry|lia|by symmetry].
Qed.
End frame.

(** ** Snapshots *)

(** The maps a collection can carry: every record under its own key. *)
Definition fits_collection {K A} `{Countable K} (limits : DecodeLimits) (record_key : A → K)
    (fits : A → Prop) (m : gmap K A) : Prop :=
  map_Forall (λ k a, record_key a = k ∧ fits a) m ∧
  (map_count m ≤ max_collection limits)%N ∧ fits_width 8 (map_count m).

Lemma collection_written {K A B} `{Countable K, Ranked K} {fits : A → Prop} {enc dec} `{!Lawful fits enc dec}
    limits (record_key : A → K) (m : gmap K A) (k : gmap K A → Reader B) rest :
  fits_collection limits record_key fits m →
  read_bind (decode_collection limits record_key dec) k (enc_collection enc m ++ rest) = k m rest.
Proof.
  intros (Hm & Hc & Hw). unfold decode_collection, enc_collection. unfold read_bind at 1.
  rewrite bind_written; [|split_and!].
  - cbn. rewrite emplace_values; [done|]. intros i a Hi. by destruct (Hm i a Hi).
  - by rewrite map_values_length.
  - by rewrite map_values_length.
  - apply Forall_forall. intros a Ha. apply map_values_elem in Ha as [i Hi]. by destruct (Hm i a Hi).
Qed.

(** The images a snapshot can carry. *)
Record fits_image (limits : DecodeLimits) (image : DurableImage) : Prop := {
  fit_sequence : fits_width 8 (img_sequence image);
  fit_epoch : fits_id (img_epoch image);
  fit_domains : fits_collection limits d_id (fits_domain limits) (img_domains image);
  fit_participants : fits_collection limits p_id (fits_participant limits) (img_participants image);
  fit_policies : fits_collection limits pol_id (fits_policy limits) (img_policies image);
  fit_objects : fits_collection limits o_id (fits_object limits) (img_objects image);
  fit_regions : fits_collection limits r_id (fits_region limits) (img_regions image);
  fit_invalidations : fits_collection limits i_id (fits_invalidation limits) (img_invalidations image);
  fit_syncs : fits_collection limits y_id (fits_sync limits) (img_syncs image);
  fit_pending : fits_collection limits pp_id (fits_pending_publication limits) (img_pending_publications image) }.

Lemma image_written limits image rest :
  fits_image limits image → decode_image_payload limits (encode_image_payload image ++ rest) = Read image rest.
Proof.
  intros []. unfold decode_image_payload, encode_image_payload. rewrite <-!app_assoc.
  etransitivity; [by apply bind_written|]. etransitivity; [by apply bind_written|]. cbv beta.
  do 7 (etransitivity; [by apply collection_written|]; cbv beta).
  etransitivity; [by apply collection_written|]. reflexivity.
Qed.

Lemma store_at w pre old post off v :
  length pre = off → length old = w → store_le w (pre ++ old ++ post) off v = pre ++ le_bytes w v ++ post.
Proof.
  intros <- Ho. unfold store_le. rewrite <-(Nat.add_0_r (length pre)), list_inserts_app_r. f_equal.
  apply list_inserts_0_r. by rewrite le_bytes_length.
Qed.

(** The checksum field is filled in place and zeroed in place. *)
Lemma snapshot_header_store n c h h' s : store_le 4 (snapshot_header n c h s) 20 h' = snapshot_header n c h' s.
Proof.
  unfold snapshot_header. rewrite !app_assoc. rewrite <-!(app_assoc _ _ (le_bytes 8 s)).
  apply store_at; [by rewrite !length_app, !le_bytes_length|apply le_bytes_length].
Qed.

Lemma snapshot_header_length n c h s : length (snapshot_header n c h s) = kSnapshotHeaderSize.
Proof. unfold snapshot_header. by rewrite !length_app, !le_bytes_length. Qed.

Lemma sha256_length data : length (sha256 data) = kSnapshotTrailerSize.
Proof.
  unfold sha256, finish. case_match. cbn [fmap list_fmap concat]. by rewrite !length_app, !be_bytes_length.
Qed.

(** An image a snapshot file can carry within the store's limits. *)
Definition snapshot_ok (limits : StoreLimits) (image : DurableImage) : Prop :=
  fits_image default_decode_limits image ∧
  (N.of_nat (length (encode_snapshot image)) ≤ max_snapshot_bytes limits)%N ∧
  u64_ok (N.of_nat (length (encode_snapshot image))) ∧
  (record_count image ≤ max_records limits)%N.

(** The file, with every derived field named. *)
Lemma encode_snapshot_parts image :
  let payload := encode_image_payload image in
  let n := N.of_nat (length payload) in
  let c := crc32c kPayloadCrcSeed payload in
  let h := header_checksum (snapshot_header n c 0 (img_sequence image)) in
  let out := snapshot_header n c h (img_sequence image) ++ payload in
  encode_snapshot image = out ++ sha256 out.
Proof. unfold encode_snapshot. by rewrite snapshot_header_store. Qed.

Lemma decode_encoded_snapshot limits image :
  snapshot_ok limits image → decode_snapshot (encode_snapshot image) limits = success image.
Proof.
  intros (Hf & Hmax & Hu & Hrec). pose proof (image_written _ image [] Hf) as Hd. destruct Hf as [Hseq _ _ _ _ _ _ _ _ _].
  pose proof (encode_snapshot_parts image) as E. cbv zeta in E. rewrite app_nil_r in Hd.
  set (payload := encode_image_payload image) in *. set (n := N.of_nat (length payload)) in *.
  set (c := crc32c kPayloadCrcSeed payload) in *. set (h := header_checksum _) in E.
  set (header := snapshot_header n c h (img_sequence image)) in *.
  assert (Hhl : length header = kSnapshotHeaderSize) by apply snapshot_header_length.
  assert (Hlen : length (encode_snapshot image) = kSnapshotHeaderSize + length payload + kSnapshotTrailerSize)
    by (by rewrite E, !length_app, sha256_length, Hhl).
  unfold kSnapshotHeaderSize, kSnapshotTrailerSize, u64_ok, two64 in *. rewrite Hlen in Hmax, Hu.
  assert (Hnv : n = N.of_nat (length payload)) by done.
  assert (Hn : fits_width 8 n) by (change (n < 18446744073709551616)%N; lia).
  assert (Hc : fits_width 4 c) by (by apply crc32c_bound).
  assert (Hh : fits_width 4 h) by (by apply crc32c_bound).
  unfold decode_snapshot. rewrite decide_False by (rewrite Hlen; unfold kSnapshotHeaderSize, kSnapshotTrailerSize; lia).
  set (bytes := encode_snapshot image) in *. rewrite <-app_assoc in E.
  assert (Ef : load_le 4 bytes 0 = kSnapshotMagic ∧ load_le 2 bytes 4 = kSnapshotFormatVersion ∧
    load_le 2 bytes 6 = kPersistenceSchema ∧ load_le 8 bytes 8 = n ∧ load_le 4 bytes 16 = c ∧
    load_le 4 bytes 20 = h ∧ load_le 8 bytes 24 = img_sequence image).
  { rewrite E. unfold header, snapshot_header. rewrite <-!app_assoc. split_and!; load_field; done. }
  destruct Ef as (F0 & F1 & F2 & F3 & F4 & F5 & F6). rewrite F0, F1, F2, F3, F4, F5, F6, !N.eqb_refl. cbn [negb].
  unfold kSnapshotHeaderSize, kSnapshotTrailerSize. change (N.of_nat (32 + 32)) with 64%N. rewrite checked_add_spec by (unfold u64_ok, two64; lia).
  rewrite decide_True by (unfold two64; lia).
  destruct (N.ltb_spec (max_snapshot_bytes limits) (n + 64)); [lia|].
  rewrite (proj2 (N.eqb_eq (N.of_nat (length bytes)) (n + 64))) by lia. cbn [negb].
  assert (D : drop 32 bytes = payload ++ sha256 (header ++ payload)) by (rewrite E; by apply drop_app_length').
  rewrite Hnv, Nat2N.id, D.
  rewrite take_app_length. fold c. rewrite N.eqb_refl. cbn [negb].
  assert (T2 : take (32 + length payload) bytes = header ++ payload).
  { rewrite E, app_assoc. apply take_app_length'. by rewrite length_app, Hhl. }
  rewrite T2, <-drop_drop, D, drop_app_length, take_ge by (rewrite sha256_length; done).
  rewrite (proj2 (digest_equal_spec _ _)) by done. cbn [negb]. rewrite Hd. cbn [ByteReader.finish]. rewrite N.eqb_refl. cbn [negb].
  by destruct (N.ltb_spec (max_records limits) (record_count image)); [lia|].
Qed.

(** What an accepted snapshot file was. *)
Lemma decoded_snapshot bytes limits image :
  decode_snapshot bytes limits = success image →
  (N.of_nat (length bytes) ≤ max_snapshot_bytes limits)%N ∧ (record_count image ≤ max_records limits)%N ∧
  load_le 8 bytes 24 = img_sequence image ∧
  ∃ body, bytes = body ++ sha256 body.
Proof.
  unfold decode_snapshot. case_decide as Hl; [done|]. do 3 (destruct (negb _); [done|]).
  destruct (checked_add _ _) as [total|] eqn:Ea; [|done]. destruct (N.ltb_spec (max_snapshot_bytes limits) total); [done|].
  destruct (N.eqb_spec (N.of_nat (length bytes)) total) as [Et|]; [|done]. cbn [negb].
  set (n := N.to_nat (load_le 8 bytes 8)). destruct (negb _); [done|]. destruct (negb (crc32c _ _ =? _)%N); [done|].
  destruct (digest_equal _ _) eqn:Ed; [|done]. cbn [negb]. apply digest_equal_spec in Ed.
  destruct (ByteReader.finish _) as [i|]; [|done]. destruct (N.eqb_spec (load_le 8 bytes 24) (img_sequence i)) as [Es|]; [|done].
  cbn [negb]. destruct (N.ltb_spec (max_records limits) (record_count i)); [done|]. intros [= <-].
  split; [lia|]. split; [done|]. split; [done|]. exists (take (kSnapshotHeaderSize + n) bytes). rewrite <-Ed.
  rewrite checked_add_spec in Ea; [|apply load_width|done]. case_decide; [|done]. injection Ea as <-.
  rewrite (take_ge (drop _ bytes)); [by rewrite take_drop|]. rewrite length_drop. unfold n, kSnapshotHeaderSize, kSnapshotTrailerSize in *. lia.
Qed.
