(* ===== verification/Protocol.v ===== *)
(** * Control protocol ([include/coherence/protocol.hpp], [src/protocol.cpp],
    [src/control_codec.hpp], [src/transport.cpp])

    Message types, the frame around a message, reading and writing frames on a
    connection, the handshake, the response envelope and the payloads of the
    control messages. *)
From Stdlib Require Import Strings.Byte Strings.String.
From S2P Require Import Prelude Ids Enums Status Bytes Policy Evidence Model Decisions.
From S2P Require Import Serialize Codec Messages Checksum Framing.

(** ** Message types *)

Module MessageType.
Inductive t :=
| Invalid
| Hello
| HelloAck
| Response
| Goodbye
| CreateDomain
| RegisterParticipant
| RegisterObject
| RegisterRegion
| AcquireRead
| AcquireWrite
| MarkDirty
| Publish
| Invalidate
| AcknowledgeInvalidation
| SyncBegin
| SyncComplete
| SyncFail
| Release
| Revalidate
| Query
| Snapshot
| Audit
| FenceParticipant
| RetireRegion
| RetireObject
| Shutdown
| Ping
| SetPolicy
| ListParticipants
| ListObjects
| ListRegions
| DecisionLog
| RecoveryInfo
| DrainSessions
| ListInvalidations
| ResolveRecovery.
#[export] Instance eq_dec : EqDecision t.
Proof. solve_decision. Defined.
Definition to_u16 (m : t) : N :=
  match m with
  | Invalid => 0
  | Hello => 1
  | HelloAck => 2
  | Response => 3
  | Goodbye => 4
  | CreateDomain => 10
  | RegisterParticipant => 11
  | RegisterObject => 12
  | RegisterRegion => 13
  | AcquireRead => 14
  | AcquireWrite => 15
  | MarkDirty => 16
  | Publish => 17
  | Invalidate => 18
  | AcknowledgeInvalidation => 19
  | SyncBegin => 20
  | SyncComplete => 21
  | SyncFail => 22
  | Release => 23
  | Revalidate => 24
  | Query => 25
  | Snapshot => 26
  | Audit => 27
  | FenceParticipant => 28
  | RetireRegion => 29
  | RetireObject => 30
  | Shutdown => 31
  | Ping => 32
  | SetPolicy => 33
  | ListParticipants => 34
  | ListObjects => 35
  | ListRegions => 36
  | DecisionLog => 37
  | RecoveryInfo => 38
  | DrainSessions => 39
  | ListInvalidations => 40
  | ResolveRecovery => 41
  end%N.
Definition to_token (m : t) : string :=
  match m with
  | Invalid => "invalid"
  | Hello => "hello"
  | HelloAck => "hello_ack"
  | Response => "response"
  | Goodbye => "goodbye"
  | CreateDomain => "create_domain"
  | RegisterParticipant => "register_participant"
  | RegisterObject => "register_object"
  | RegisterRegion => "register_region"
  | AcquireRead => "acquire_read"
  | AcquireWrite => "acquire_write"
  | MarkDirty => "mark_dirty"
  | Publish => "publish"
  | Invalidate => "invalidate"
  | AcknowledgeInvalidation => "acknowledge_invalidation"
  | SyncBegin => "sync_begin"
  | SyncComplete => "sync_complete"
  | SyncFail => "sync_fail"
  | Release => "release"
  | Revalidate => "revalidate"
  | Query => "query"
  | Snapshot => "snapshot"
  | Audit => "audit"
  | FenceParticipant => "fence_participant"
  | RetireRegion => "retire_region"
  | RetireObject => "retire_object"
  | Shutdown => "shutdown"
  | Ping => "ping"
  | SetPolicy => "set_policy"
  | ListParticipants => "list_participants"
  | ListObjects => "list_objects"
  | ListRegions => "list_regions"
  | DecisionLog => "decision_log"
  | RecoveryInfo => "recovery_info"
  | DrainSessions => "drain_sessions"
  | ListInvalidations => "list_invalidations"
  | ResolveRecovery => "resolve_recovery"
  end%string.
End MessageType.
Export (hints) MessageType.

(** [message_type_from_u16]: [Invalid] has no number on the wire. *)
Section message_type.
Import MessageType.
Definition message_type_from_u16 (raw : N) : option t :=
  match raw with
  | 1 => Some Hello
  | 2 => Some HelloAck
  | 3 => Some Response
  | 4 => Some Goodbye
  | 10 => Some CreateDomain
  | 11 => Some RegisterParticipant
  | 12 => Some RegisterObject
  | 13 => Some RegisterRegion
  | 14 => Some AcquireRead
  | 15 => Some AcquireWrite
  | 16 => Some MarkDirty
  | 17 => Some Publish
  | 18 => Some Invalidate
  | 19 => Some AcknowledgeInvalidation
  | 20 => Some SyncBegin
  | 21 => Some SyncComplete
  | 22 => Some SyncFail
  | 23 => Some Release
  | 24 => Some Revalidate
  | 25 => Some Query
  | 26 => Some Snapshot
  | 27 => Some Audit
  | 28 => Some FenceParticipant
  | 29 => Some RetireRegion
  | 30 => Some RetireObject
  | 31 => Some Shutdown
  | 32 => Some Ping
  | 33 => Some SetPolicy
  | 34 => Some ListParticipants
  | 35 => Some ListObjects
  | 36 => Some ListRegions
  | 37 => Some DecisionLog
  | 38 => Some RecoveryInfo
  | 39 => Some DrainSessions
  | 40 => Some ListInvalidations
  | 41 => Some ResolveRecovery
  | _ => None
  end%N.
End message_type.

(** ** Connections *)

(** The receiving side of a connection: the pieces in which the bytes arrive,
    and what the call reports when there are no more ([ConnectionClosed] for an
    orderly end, [TransportFailure] otherwise). *)
Record Inbound := mkInbound { pieces : list (list byte); ending : StatusCode.t }.

(** One [recv] of at most [want] bytes: part of the next piece. *)
Fixpoint os_recv (want : nat) (ps : list (list byte)) : option (list byte * list (list byte)) :=
  match ps with
  | [] => None
  | [] :: rest => os_recv want rest
  | p :: rest => Some (take want p, drop want p :: rest)
  end.

(** The loop of [Socket::recv_exact]: [got] bytes are in, [remaining] are
    wanted.  Every call that returns moves at least one byte. *)
Fixpoint recv_loop (fuel : nat) (remaining : nat) (got : list byte) (ps : list (list byte)) (ending : StatusCode.t)
  : list (list byte) * result (list byte) :=
  match remaining, fuel with
  | O, _ => (ps, success got)
  | _, O => (ps, failure ending)
  | _, S fuel =>
      match os_recv (if (0x40000000 <? N.of_nat remaining)%N then N.to_nat 0x40000000 else remaining) ps with
      | None => ([], failure ending)
      | Some (bytes, ps) => recv_loop fuel (remaining - length bytes) (got ++ bytes) ps ending
      end
  end.

(** [Socket::recv_exact]. *)
Definition recv_exact (n : nat) (c : Inbound) : Inbound * result (list byte) :=
  let '(ps, r) := recv_loop n n [] (pieces c) (ending c) in (mkInbound ps (ending c), r).

(** ** Frames *)

Definition kFrameMagic : N := 0x43464731.
Definition kFrameHeaderSize : nat := 60.
Definition protocol_version : N := 1.

#[local] Set Primitive Projections.

Record FrameLimits := mkFrameLimits { max_body_bytes : N; max_blob_bytes : N }.
Definition default_FrameLimits : FrameLimits := mkFrameLimits (16 * 1024 * 1024) (16 * 1024 * 1024).

Record FrameHeader := mkFrameHeader {
  fh_version : N;
  fh_type : MessageType.t;
  fh_flags : N;
  fh_session : SessionId;
  fh_epoch : CoordinatorEpoch;
  fh_sequence : N;
  fh_correlation : N }.

Record Frame := mkFrame { f_header : FrameHeader; f_body : list byte }.

(** [encode_frame]: the stores at 0, 4, 6, 8, 12, 20, 28, 36, 44, 52 and 56
    fill the header. *)
Definition encode_frame (h : FrameHeader) (body : list byte) : list byte :=
  le_bytes 4 kFrameMagic ++ le_bytes 2 (fh_version h) ++ le_bytes 2 (MessageType.to_u16 (fh_type h)) ++
  le_bytes 4 (fh_flags h) ++ le_bytes 8 (high (Ids.uuid (fh_session h))) ++ le_bytes 8 (low (Ids.uuid (fh_session h))) ++
  le_bytes 8 (value (fh_epoch h)) ++ le_bytes 8 (fh_sequence h) ++ le_bytes 8 (fh_correlation h) ++
  le_bytes 4 (N.of_nat (length body)) ++ le_bytes 4 (crc32c 0 body) ++ body.

(** [decode_frame_header]. *)
Definition decode_frame_header (bytes : list byte) (limits : FrameLimits) : result FrameHeader :=
  if decide (length bytes < kFrameHeaderSize) then failure StatusCode.TruncatedInput else
  if negb (load_le 4 bytes 0 =? kFrameMagic)%N then failure StatusCode.ProtocolViolation else
  if negb (load_le 2 bytes 4 =? protocol_version)%N then failure StatusCode.UnsupportedSchema else
  match message_type_from_u16 (load_le 2 bytes 6) with
  | None => failure StatusCode.ProtocolViolation
  | Some type =>
      if (max_body_bytes limits <? load_le 4 bytes 52)%N then failure StatusCode.OversizedInput else
      success {| fh_version := load_le 2 bytes 4; fh_type := type; fh_flags := load_le 4 bytes 8;
        fh_session := from_uuid (mkUInt128 (load_le 8 bytes 12) (load_le 8 bytes 20));
        fh_epoch := from_value (load_le 8 bytes 28); fh_sequence := load_le 8 bytes 36;
        fh_correlation := load_le 8 bytes 44 |}
  end.

(** [read_frame]. *)
Definition read_frame (limits : FrameLimits) (c : Inbound) : Inbound * result Frame :=
  let '(c, head) := recv_exact kFrameHeaderSize c in
  match head with
  | failure e => (c, failure e)
  | success head =>
      match decode_frame_header head limits with
      | failure e => (c, failure e)
      | success header =>
          let '(c, body) := recv_exact (N.to_nat (load_le 4 head 52)) c in
          match body with
          | failure e => (c, failure e)
          | success body =>
              if negb (crc32c 0 body =? load_le 4 head 56)%N then (c, failure StatusCode.IntegrityFailure) else
              (c, success (mkFrame header body))
          end
      end
  end.

(** ** Handshake and envelope *)

Record HelloRequest := mkHelloRequest {
  hq_protocol_version : N;
  hq_schema : N;
  hq_build : string;
  hq_participant_name : string;
  hq_boot : ParticipantBootId;
  hq_node_label : string;
  hq_nonce : N;
  hq_observer : bool }.

Record HelloResponse := mkHelloResponse {
  hr_session : SessionId;
  hr_epoch : CoordinatorEpoch;
  hr_protocol_version : N;
  hr_schema : N;
  hr_build : string;
  hr_nonce : N;
  hr_participant : ParticipantId;
  hr_observer : bool }.

Record ResponseEnvelope := mkResponseEnvelope { re_code : StatusCode.t; re_message : string; re_detail : string }.

(** [encode_hello_request] and [decode_hello_request]. *)
Definition encode_hello_request (v : HelloRequest) : list byte :=
  ByteWriter.u32 (hq_protocol_version v) ++
  ByteWriter.u32 (hq_schema v) ++
  ByteWriter.text (hq_build v) ++
  ByteWriter.text (hq_participant_name v) ++
  ByteWriter.strong_uuid (hq_boot v) ++
  ByteWriter.text (hq_node_label v) ++
  ByteWriter.u64 (hq_nonce v) ++
  ByteWriter.boolean (hq_observer v).
Definition decode_hello_request (limits : DecodeLimits) : Reader HelloRequest :=
  let* protocol_version' := ByteReader.u32 in
  let* schema' := ByteReader.u32 in
  let* build' := dec_text limits in
  let* participant_name' := dec_text limits in
  let* boot' := ByteReader.strong_uuid in
  let* node_label' := dec_text limits in
  let* nonce' := ByteReader.u64 in
  let* observer' := ByteReader.boolean in
  read_ret {| hq_protocol_version := protocol_version'; hq_schema := schema'; hq_build := build';
    hq_participant_name := participant_name'; hq_boot := boot'; hq_node_label := node_label'; hq_nonce := nonce';
    hq_observer := observer' |}.
Definition fits_hello_request (limits : DecodeLimits) (v : HelloRequest) : Prop :=
  fits_width 4 (hq_protocol_version v) ∧ fits_width 4 (hq_schema v) ∧ fits_text (max_text limits) (hq_build v) ∧
  fits_text (max_text limits) (hq_participant_name v) ∧ fits_uuid (hq_boot v) ∧
  fits_text (max_text limits) (hq_node_label v) ∧ fits_width 8 (hq_nonce v).
#[export] Instance hello_request_lawful limits :
  Lawful (fits_hello_request limits) encode_hello_request (decode_hello_request limits).
Proof. solve_record encode_hello_request decode_hello_request fits_hello_request. Qed.

(** [encode_hello_response] and [decode_hello_response]. *)
Definition encode_hello_response (v : HelloResponse) : list byte :=
  ByteWriter.strong_uuid (hr_session v) ++
  ByteWriter.strong_id (hr_epoch v) ++
  ByteWriter.u32 (hr_protocol_version v) ++
  ByteWriter.u32 (hr_schema v) ++
  ByteWriter.text (hr_build v) ++
  ByteWriter.u64 (hr_nonce v) ++
  ByteWriter.strong_id (hr_participant v) ++
  ByteWriter.boolean (hr_observer v).
Definition decode_hello_response (limits : DecodeLimits) : Reader HelloResponse :=
  let* session' := ByteReader.strong_uuid in
  let* epoch' := ByteReader.strong_id in
  let* protocol_version' := ByteReader.u32 in
  let* schema' := ByteReader.u32 in
  let* build' := dec_text limits in
  let* nonce' := ByteReader.u64 in
  let* participant' := ByteReader.strong_id in
  let* observer' := ByteReader.boolean in
  read_ret {| hr_session := session'; hr_epoch := epoch'; hr_protocol_version := protocol_version';
    hr_schema := schema'; hr_build := build'; hr_nonce := nonce'; hr_participant := participant';
    hr_observer := observer' |}.
Definition fits_hello_response (limits : DecodeLimits) (v : HelloResponse) : Prop :=
  fits_uuid (hr_session v) ∧ fits_id (hr_epoch v) ∧ fits_width 4 (hr_protocol_version v) ∧ fits_width 4 (hr_schema v) ∧
  fits_text (max_text limits) (hr_build v) ∧ fits_width 8 (hr_nonce v) ∧ fits_id (hr_participant v).
#[export] Instance hello_response_lawful limits :
  Lawful (fits_hello_response limits) encode_hello_response (decode_hello_response limits).
Proof. solve_record encode_hello_response decode_hello_response fits_hello_response. Qed.

(** [encode_response_envelope] and [decode_response_envelope]. *)
Definition encode_response_envelope (v : ResponseEnvelope) : list byte :=
  enc_code (re_code v) ++ ByteWriter.text (re_message v) ++ ByteWriter.text (re_detail v).
Definition decode_response_envelope (limits : DecodeLimits) : Reader ResponseEnvelope :=
  let* code' := dec_code in
  let* message' := dec_text limits in
  let* detail' := dec_text limits in
  read_ret {| re_code := code'; re_message := message'; re_detail := detail' |}.
Definition fits_response_envelope (limits : DecodeLimits) (v : ResponseEnvelope) : Prop :=
  fits_text (max_text limits) (re_message v) ∧ fits_text (max_text limits) (re_detail v).
#[export] Instance response_envelope_lawful limits :
  Lawful (fits_response_envelope limits) encode_response_envelope (decode_response_envelope limits).
Proof. solve_record encode_response_envelope decode_response_envelope fits_response_envelope. Qed.

(** ** Payloads of the control messages

    Messages with several parts are tuples of their parts. *)

Ltac solve_parts enc dec fits :=
  split;
  [ let v := fresh "v" in let Hf := fresh "Hf" in
    intros v ? Hf; unfold fits in Hf; unfold enc, dec;
    repeat match goal with x : (_ * _)%type |- _ => destruct x end; cbn [fst snd] in *;
    decompose [and] Hf; clear Hf; rewrite <-?app_assoc; repeat written_step; reflexivity
  | let H := fresh "H" in
    intros ? ? ? H; unfold dec in H; repeat read_step H; injection H as <- <-;
    split; [unfold fits; cbn; split_and?; done | unfold enc; cbn [fst snd]; rewrite <-?app_assoc; reflexivity] ].

(** [encode_create_domain] and [decode_create_domain]. *)
Definition encode_create_domain (name : string) : list byte := ByteWriter.text name.
Definition decode_create_domain (limits : DecodeLimits) : Reader string := dec_text limits.

(** [encode_register_object] and [decode_register_object]. *)
Definition encode_register_object (v : CoherenceDomainId * string * N * CoherencePolicy) : list byte :=
  let '(domain, name, length, policy) := v in
  ByteWriter.strong_id domain ++ ByteWriter.text name ++ ByteWriter.u64 length ++ encode_policy policy.
Definition decode_register_object (limits : DecodeLimits) : Reader (CoherenceDomainId * string * N * CoherencePolicy) :=
  let* domain := ByteReader.strong_id in
  let* name := dec_text limits in
  let* length := ByteReader.u64 in
  let* policy := decode_policy limits in
  read_ret (domain, name, length, policy).
Definition fits_register_object (limits : DecodeLimits) (v : CoherenceDomainId * string * N * CoherencePolicy) : Prop :=
  let '(domain, name, length, policy) := v in
  fits_id domain ∧ fits_text (max_text limits) name ∧ fits_width 8 length ∧ fits_policy limits policy.
#[export] Instance register_object_lawful limits :
  Lawful (fits_register_object limits) encode_register_object (decode_register_object limits).
Proof. solve_parts encode_register_object decode_register_object fits_register_object. Qed.

(** [encode_set_policy] and [decode_set_policy]. *)
Definition encode_set_policy (v : ObjectId * ObjectGeneration * PolicyGeneration * CoherencePolicy) : list byte :=
  let '(object, generation, expected, policy) := v in
  ByteWriter.strong_id object ++ ByteWriter.strong_id generation ++ ByteWriter.strong_id expected ++ encode_policy policy.
Definition decode_set_policy (limits : DecodeLimits) : Reader (ObjectId * ObjectGeneration * PolicyGeneration * CoherencePolicy) :=
  let* object := ByteReader.strong_id in
  let* generation := ByteReader.strong_id in
  let* expected := ByteReader.strong_id in
  let* policy := decode_policy limits in
  read_ret (object, generation, expected, policy).
Definition fits_set_policy (limits : DecodeLimits) (v : ObjectId * ObjectGeneration * PolicyGeneration * CoherencePolicy) : Prop :=
  let '(object, generation, expected, policy) := v in
  fits_id object ∧ fits_id generation ∧ fits_id expected ∧ fits_policy limits policy.
#[export] Instance set_policy_lawful limits : Lawful (fits_set_policy limits) encode_set_policy (decode_set_policy limits).
Proof. solve_parts encode_set_policy decode_set_policy fits_set_policy. Qed.

(** [encode_fence_participant] and [decode_fence_participant]. *)
Definition encode_fence_participant (v : ParticipantId * string) : list byte :=
  ByteWriter.strong_id v.1 ++ ByteWriter.text v.2.
Definition decode_fence_participant (limits : DecodeLimits) : Reader (ParticipantId * string) :=
  let* id := ByteReader.strong_id in
  let* reason := dec_text limits in
  read_ret (id, reason).
Definition fits_fence_participant (limits : DecodeLimits) (v : ParticipantId * string) : Prop :=
  fits_id v.1 ∧ fits_text (max_text limits) v.2.
#[export] Instance fence_participant_lawful limits :
  Lawful (fits_fence_participant limits) encode_fence_participant (decode_fence_participant limits).
Proof. solve_parts encode_fence_participant decode_fence_participant fits_fence_participant. Qed.

(** [encode_retire] and [decode_retire]. *)
Definition encode_retire (v : N * N) : list byte := ByteWriter.u64 v.1 ++ ByteWriter.u64 v.2.
Definition decode_retire : Reader (N * N) :=
  let* id := ByteReader.u64 in
  let* generation := ByteReader.u64 in
  read_ret (id, generation).
Definition fits_retire (v : N * N) : Prop := fits_width 8 v.1 ∧ fits_width 8 v.2.
#[export] Instance retire_lawful : Lawful fits_retire encode_retire decode_retire.
Proof. solve_parts encode_retire decode_retire fits_retire. Qed.

(** [encode_snapshot_options] and [decode_snapshot_options]: [include_reads] is
    not sent, the receiver has its default. *)
Definition encode_snapshot_options (v : SnapshotOptions) : list byte :=
  ByteWriter.strong_id (sno_object_filter v) ++
  ByteWriter.u64 (sno_max_objects v) ++
  ByteWriter.boolean (sno_include_regions v) ++
  ByteWriter.boolean (sno_include_participants v) ++
  ByteWriter.boolean (sno_include_invalidations v) ++
  ByteWriter.boolean (sno_include_syncs v).
Definition decode_snapshot_options : Reader SnapshotOptions :=
  let* object_filter := ByteReader.strong_id in
  let* max_objects := ByteReader.u64 in
  let* include_regions := ByteReader.boolean in
  let* include_participants := ByteReader.boolean in
  let* include_invalidations := ByteReader.boolean in
  let* include_syncs := ByteReader.boolean in
  read_ret {| sno_include_regions := include_regions;
    sno_include_reads := sno_include_reads default_SnapshotOptions;
    sno_include_invalidations := include_invalidations; sno_include_syncs := include_syncs;
    sno_include_participants := include_participants; sno_object_filter := object_filter;
    sno_max_objects := max_objects |}.

(** [encode_object_ref], [encode_region_ref] and their decoders. *)
Definition encode_object_ref (id : ObjectId) : list byte := ByteWriter.strong_id id.
Definition decode_object_ref : Reader ObjectId := ByteReader.strong_id.
Definition encode_region_ref (id : RegionId) : list byte := ByteWriter.strong_id id.
Definition decode_region_ref : Reader RegionId := ByteReader.strong_id.

(** [encode_text_block] and [decode_text_block]. *)
Definition encode_text_block (text : string) : list byte := ByteWriter.text text.
Definition decode_text_block (limits : DecodeLimits) : Reader string :=
  ByteReader.text (if (max_text limits =? 0)%N then 4096 else max_text limits).

(** What the coordinator reads of a recovery to resolve: the object, its
    generation and the operator's note. *)
Definition decode_resolve (limits : DecodeLimits) : Reader (ObjectId * N * string) :=
  let* object := decode_object_ref in
  let* generation := ByteReader.u64 in
  let* note := decode_text_block limits in
  read_ret (object, generation, note).

(** What it reads of a query: an object when eight bytes are there, and a
    selector when anything is left. *)
Definition decode_query (limits : DecodeLimits) : Reader (ObjectId * string) :=
  let* object := (λ l, if decide (8 ≤ length l) then decode_object_ref l else Read nil_id l) in
  let* selector := (λ l, match l with [] => Read ""%string [] | _ => decode_text_block limits l end) in
  read_ret (object, selector).

(** ** Round trips of the control payloads *)

#[export] Instance create_domain_lawful limits :
  Lawful (fits_text (max_text limits)) encode_create_domain (decode_create_domain limits) := dec_text_lawful limits.
#[export] Instance object_ref_lawful : Lawful fits_id encode_object_ref decode_object_ref := strong_id_lawful _.
#[export] Instance region_ref_lawful : Lawful fits_id encode_region_ref decode_region_ref := strong_id_lawful _.

Definition fits_text_block (limits : DecodeLimits) : string → Prop :=
  fits_text (if (max_text limits =? 0)%N then 4096 else max_text limits).
#[export] Instance text_block_lawful limits :
  Lawful (fits_text_block limits) encode_text_block (decode_text_block limits) := text_lawful _.

(** The options a snapshot request can carry: not [include_reads]. *)
Definition fits_snapshot_options (v : SnapshotOptions) : Prop :=
  fits_id (sno_object_filter v) ∧ fits_width 8 (sno_max_objects v) ∧
  sno_include_reads v = sno_include_reads default_SnapshotOptions.
#[export] Instance snapshot_options_lawful :
  Lawful fits_snapshot_options encode_snapshot_options decode_snapshot_options.
Proof.
  split.
  - intros v rest (? & ? & Hr). unfold encode_snapshot_options, decode_snapshot_options.
    rewrite <-!app_assoc. repeat written_step. rewrite <-Hr. by destruct v.
  - intros l v rest Hv. unfold decode_snapshot_options in Hv. repeat read_step Hv. injection Hv as <- <-.
    split; [done|]. unfold encode_snapshot_options. by rewrite <-!app_assoc.
Qed.

(** A recovery to resolve, as the inspection program sends it. *)
Definition encode_resolve (v : ObjectId * N * string) : list byte :=
  encode_object_ref v.1.1 ++ ByteWriter.u64 v.1.2 ++ encode_text_block v.2.
Definition fits_resolve (limits : DecodeLimits) (v : ObjectId * N * string) : Prop :=
  fits_id v.1.1 ∧ fits_width 8 v.1.2 ∧ fits_text_block limits v.2.
#[export] Instance resolve_lawful limits : Lawful (fits_resolve limits) encode_resolve (decode_resolve limits).
Proof. solve_parts encode_resolve decode_resolve fits_resolve. Qed.

(** A query of an object alone, and of an object with a selector. *)
Lemma object_ref_length (id : ObjectId) : length (encode_object_ref id) = 8.
Proof. done. Qed.

Lemma query_read limits (id : ObjectId) : fits_id id → decode_query limits (encode_object_ref id) = Read (id, ""%string) [].
Proof.
  intros Hid. unfold decode_query, read_bind. rewrite decide_True by (by rewrite object_ref_length).
  pose proof (read_written id [] Hid : decode_object_ref (encode_object_ref id ++ []) = _) as E.
  rewrite app_nil_r in E. by rewrite E.
Qed.

Lemma query_read_selector limits (id : ObjectId) (selector : string) rest :
  fits_id id → fits_text_block limits selector →
  decode_query limits (encode_object_ref id ++ encode_text_block selector ++ rest) = Read (id, selector) rest.
Proof.
  intros Hid Hs. unfold decode_query, read_bind.
  rewrite decide_True by (rewrite length_app, object_ref_length; lia).
  rewrite (read_written id _ Hid : decode_object_ref (encode_object_ref id ++ _) = _).
  pose proof (read_written selector rest Hs : decode_text_block limits (encode_text_block selector ++ rest) = _) as E.
  rewrite E. by destruct (encode_text_block selector ++ rest) eqn:El; [by apply app_eq_nil in El as []|].
Qed.

(** ** Reading frames back *)

(** A piecewise receipt takes the bytes in order, however they arrive. *)
Lemma os_recv_concat want ps bytes ps' :
  0 < want → os_recv want ps = Some (bytes, ps') →
  concat ps = bytes ++ concat ps' ∧ 0 < length bytes ∧ length bytes ≤ want.
Proof.
  intros Hw. induction ps as [|[|b p] ps IH]; cbn [os_recv]; [done|exact IH|]. intros [= <- <-].
  cbn [concat]. rewrite app_assoc, take_drop. split; [done|]. rewrite length_take. cbn [length]. lia.
Qed.

Lemma os_recv_none want ps : os_recv want ps = None → concat ps = [].
Proof. induction ps as [|[|b p] ps IH]; cbn [os_recv]; try done. Qed.

Lemma recv_loop_spec fuel n got ps e :
  n ≤ fuel →
  if decide (n ≤ length (concat ps)) then
    ∃ ps', recv_loop fuel n got ps e = (ps', success (got ++ take n (concat ps))) ∧ concat ps' = drop n (concat ps)
  else recv_loop fuel n got ps e = ([], failure e).
Proof.
  revert n got ps. induction fuel as [|fuel IH]; intros n got ps Hn.
  { replace n with 0 by lia. rewrite decide_True by lia. exists ps. cbn. by rewrite take_0, app_nil_r, drop_0. }
  destruct n as [|n]; [rewrite decide_True by lia; exists ps; cbn; by rewrite take_0, app_nil_r, drop_0|].
  cbn [recv_loop]. match goal with |- context [os_recv ?w ps] => set (want := w) end.
  assert (Hw : 0 < want ∧ want ≤ S n).
  { unfold want. destruct (N.ltb_spec 0x40000000 (N.of_nat (S n))) as [Hlt|_]; lia. }
  clearbody want. destruct (os_recv want ps) as [[bytes ps']|] eqn:E.
  - apply os_recv_concat in E as (Ec & Hb & Hb'); [|lia]. rewrite Ec, length_app.
    specialize (IH (S n - length bytes) (got ++ bytes) ps' ltac:(lia)). case_decide as H1; case_decide as H2; try lia.
    + destruct IH as (ps'' & E & E'). exists ps''. rewrite E, E'.
      rewrite <-app_assoc, take_app, drop_app, (take_ge bytes), (drop_ge bytes) by lia. done.
    + exact IH.
  - apply os_recv_none in E. rewrite E. by rewrite decide_False by (cbn; lia).
Qed.

(** Receiving depends on the bytes only, not on the pieces. *)
Lemma recv_exact_spec n c :
  if decide (n ≤ length (concat (pieces c))) then
    ∃ ps, recv_exact n c = (mkInbound ps (ending c), success (take n (concat (pieces c)))) ∧
      concat ps = drop n (concat (pieces c))
  else recv_exact n c = (mkInbound [] (ending c), failure (ending c)).
Proof.
  unfold recv_exact. pose proof (recv_loop_spec n n [] (pieces c) (ending c) (Nat.le_refl n)) as H.
  case_decide; [|by rewrite H]. destruct H as (ps & -> & Hp). eauto.
Qed.

(** The headers a frame can carry. *)
Definition fits_frame (limits : FrameLimits) (f : Frame) : Prop :=
  let h := f_header f in
  fh_version h = protocol_version ∧ fh_type h ≠ MessageType.Invalid ∧ fits_width 4 (fh_flags h) ∧
  fits_uuid (fh_session h) ∧ fits_id (fh_epoch h) ∧ fits_width 8 (fh_sequence h) ∧ fits_width 8 (fh_correlation h) ∧
  (N.of_nat (length (f_body f)) ≤ max_body_bytes limits)%N ∧ fits_width 4 (N.of_nat (length (f_body f))).

Lemma message_type_from_to m : m ≠ MessageType.Invalid → message_type_from_u16 (MessageType.to_u16 m) = Some m.
Proof. by destruct m. Qed.

Lemma message_type_to_from raw m : message_type_from_u16 raw = Some m → MessageType.to_u16 m = raw ∧ m ≠ MessageType.Invalid.
Proof. unfold message_type_from_u16. intros H. repeat case_match; simplify_eq; done. Qed.

Lemma frame_head_fields limits f rest :
  fits_frame limits f →
  let bytes := encode_frame (f_header f) (f_body f) ++ rest in
  let h := f_header f in
  load_le 4 bytes 0 = kFrameMagic ∧ load_le 2 bytes 4 = fh_version h ∧
  load_le 2 bytes 6 = MessageType.to_u16 (fh_type h) ∧ load_le 4 bytes 8 = fh_flags h ∧
  load_le 8 bytes 12 = high (Ids.uuid (fh_session h)) ∧ load_le 8 bytes 20 = low (Ids.uuid (fh_session h)) ∧
  load_le 8 bytes 28 = value (fh_epoch h) ∧ load_le 8 bytes 36 = fh_sequence h ∧ load_le 8 bytes 44 = fh_correlation h ∧
  load_le 4 bytes 52 = N.of_nat (length (f_body f)) ∧ load_le 4 bytes 56 = crc32c 0 (f_body f).
Proof.
  intros (Hv & _ & Hf & [Hh Hl] & He & Hs & Hc & _ & Hn).
  assert (Hcrc : fits_width 4 (crc32c 0 (f_body f))) by (by apply crc32c_bound).
  assert (Hv' : fits_width 2 (fh_version (f_header f))) by (by rewrite Hv).
  assert (Ht : fits_width 2 (MessageType.to_u16 (fh_type (f_header f)))) by (by destruct (fh_type _)).
  cbv zeta. unfold encode_frame. rewrite <-!app_assoc. split_and!; load_field; done.
Qed.
