(* ===== verification/Wire.v ===== *)
(** * What the control protocol carries

    Frames are read back whatever the pieces they arrive in, only canonical
    frames are accepted, and messages are read back and, apart from queries, have
    one encoding. *)
From Stdlib Require Import Strings.Byte Strings.String.
From S2P Require Import Prelude Ids Enums Status Bytes Policy Evidence Model Decisions.
From S2P Require Import Serialize Codec Messages Checksum Framing Protocol.

Section wire.
Context (limits : FrameLimits).

Lemma frame_bytes_length h body : length (encode_frame h body) = kFrameHeaderSize + length body.
Proof. unfold encode_frame. rewrite !length_app, !le_bytes_length. done. Qed.

Lemma frame_body_drop h body rest : drop kFrameHeaderSize (encode_frame h body ++ rest) = body ++ rest.
Proof.
  unfold encode_frame. rewrite !app_assoc. rewrite <-(app_assoc _ body rest). apply drop_app_length'.
  by rewrite !length_app, !le_bytes_length.
Qed.

(** A field inside the header does not depend on what follows the header. *)
Lemma load_head w off (l : list byte) : off + w ≤ kFrameHeaderSize → load_le w (take kFrameHeaderSize l) off = load_le w l off.
Proof. intros H. unfold load_le. f_equal. rewrite skipn_firstn_comm, take_take. f_equal. lia. Qed.

Lemma decode_head f rest :
  fits_frame limits f →
  decode_frame_header (take kFrameHeaderSize (encode_frame (f_header f) (f_body f) ++ rest)) limits = success (f_header f).
Proof.
  intros Hf. pose proof (frame_head_fields limits f rest Hf) as (F0 & F1 & F2 & F3 & F4 & F5 & F6 & F7 & F8 & F9 & _).
  set (bytes := _ ++ rest) in *. assert (Hl : kFrameHeaderSize ≤ length bytes) by (unfold bytes; rewrite length_app, frame_bytes_length; lia).
  unfold decode_frame_header. rewrite decide_False by (rewrite length_take; lia).
  rewrite !load_head by (unfold kFrameHeaderSize; lia). rewrite F0, F1, F2, F3, F4, F5, F6, F7, F8, F9.
  destruct Hf as (Hv & Ht & _ & _ & _ & _ & _ & Hb & _). rewrite Hv, !N.eqb_refl, message_type_from_to by done. cbn [negb].
  destruct (N.ltb_spec (max_body_bytes limits) (N.of_nat (length (f_body f)))); [lia|].
  rewrite <-Hv. destruct (f_header f) as [? ? ? [[? ?]] [?] ? ?]. done.
Qed.

(** A frame at the front of what arrives is read, and exactly it. *)
Lemma read_frame_written f c rest :
  fits_frame limits f → concat (pieces c) = encode_frame (f_header f) (f_body f) ++ rest →
  ∃ ps, read_frame limits c = (mkInbound ps (ending c), success f) ∧ concat ps = rest.
Proof.
  intros Hf Hc. pose proof (decode_head f rest Hf) as Hd. rewrite <-Hc in Hd.
  pose proof (frame_head_fields limits f rest Hf) as (_ & _ & _ & _ & _ & _ & _ & _ & _ & F9 & F10). rewrite <-Hc in F9, F10.
  assert (Hl : length (concat (pieces c)) = kFrameHeaderSize + length (f_body f) + length rest)
    by (by rewrite Hc, length_app, frame_bytes_length).
  unfold read_frame. pose proof (recv_exact_spec kFrameHeaderSize c) as H1. rewrite decide_True in H1 by lia.
  destruct H1 as (ps1 & -> & Hp1). cbv iota. rewrite Hd. rewrite !load_head by (unfold kFrameHeaderSize; lia). rewrite F9, F10, Nat2N.id.
  rewrite Hc, frame_body_drop in Hp1.
  pose proof (recv_exact_spec (length (f_body f)) (mkInbound ps1 (ending c))) as H2. cbn [pieces ending] in H2.
  rewrite Hp1, decide_True in H2 by (rewrite length_app; lia). destruct H2 as (ps2 & -> & Hp2). cbv iota.
  rewrite take_app_length, N.eqb_refl. cbn [negb]. rewrite drop_app_length in Hp2. exists ps2. split; [|done]. by destruct f.
Qed.

Lemma read_width w l off : fits_width w (load_le w l off) ∨ length (drop off l) < w.
Proof.
  destruct (Nat.le_gt_cases w (length (drop off l))) as [H|H]; [left|by right]. unfold fits_width, load_le.
  eapply N.lt_le_trans; [apply le_value_bound|]. by rewrite length_take, Nat.min_l.
Qed.

Lemma field_here w l off : off + w ≤ length l → fits_width w (load_le w l off).
Proof. intros H. destruct (read_width w l off) as [?|Hl]; [done|]. rewrite length_drop in Hl. lia. Qed.

(** The fields of a header give its bytes back. *)
Lemma head_split (l : list byte) :
  kFrameHeaderSize ≤ length l →
  l = le_bytes 4 (load_le 4 l 0) ++ le_bytes 2 (load_le 2 l 4) ++ le_bytes 2 (load_le 2 l 6) ++ le_bytes 4 (load_le 4 l 8) ++
    le_bytes 8 (load_le 8 l 12) ++ le_bytes 8 (load_le 8 l 20) ++ le_bytes 8 (load_le 8 l 28) ++ le_bytes 8 (load_le 8 l 36) ++
    le_bytes 8 (load_le 8 l 44) ++ le_bytes 4 (load_le 4 l 52) ++ le_bytes 4 (load_le 4 l 56) ++ drop kFrameHeaderSize l.
Proof.
  unfold kFrameHeaderSize. intros Hl.
  assert (S : ∀ w off k, off + w = k → k ≤ length l → drop off l = le_bytes w (load_le w l off) ++ drop k l).
  { intros w off k <- Hk. rewrite (load_drop w l off), (field_split w (drop off l)) at 1 by (rewrite length_drop; lia).
    by rewrite drop_drop. }
  rewrite <-(S 4 56 60), <-(S 4 52 56), <-(S 8 44 52), <-(S 8 36 44), <-(S 8 28 36), <-(S 8 20 28), <-(S 8 12 20), <-(S 4 8 12),
    <-(S 2 6 8), <-(S 2 4 6), <-(S 4 0 4) by lia. by rewrite drop_0.
Qed.

(** What is read is a canonical frame, and nothing but it is consumed. *)
Lemma read_frame_read c c' f :
  read_frame limits c = (c', success f) →
  fits_frame limits f ∧ concat (pieces c) = encode_frame (f_header f) (f_body f) ++ concat (pieces c').
Proof.
  unfold read_frame. pose proof (recv_exact_spec kFrameHeaderSize c) as H1. case_decide as Hl1; [|by rewrite H1].
  destruct H1 as (ps1 & -> & Hp1). cbv iota. set (l := concat (pieces c)) in *.
  unfold decode_frame_header. rewrite decide_False by (rewrite length_take; lia). rewrite !load_head by (unfold kFrameHeaderSize; lia).
  destruct (N.eqb_spec (load_le 4 l 0) kFrameMagic) as [E0|]; [|done]. destruct (N.eqb_spec (load_le 2 l 4) protocol_version) as [E1|]; [|done].
  cbn [negb]. destruct (message_type_from_u16 (load_le 2 l 6)) as [m|] eqn:Em; [|done]. apply message_type_to_from in Em as [Em Hm].
  destruct (N.ltb_spec (max_body_bytes limits) (load_le 4 l 52)) as [|Hb]; [done|].
  pose proof (recv_exact_spec (N.to_nat (load_le 4 l 52)) (mkInbound ps1 (ending c))) as H2. cbn [pieces ending] in H2.
  rewrite Hp1 in H2. case_decide as Hl2; [|by rewrite H2]. destruct H2 as (ps2 & -> & Hp2). cbv iota.
  set (body := take _ _) in *. assert (Hbl : N.of_nat (length body) = load_le 4 l 52).
  { unfold body. rewrite length_take, length_drop in *. lia. }
  destruct (N.eqb_spec (crc32c 0 body) (load_le 4 l 56)) as [Ec|]; [|done]. cbn [negb]. intros [= <- <-]. cbn [pieces f_header f_body].
  unfold kFrameHeaderSize in Hl1. split.
  - unfold fits_frame. cbn. rewrite E1, Hbl. repeat (split; [first [done|apply (field_here 4 l 8); lia
      | split; [apply (field_here 8 l 12)|apply (field_here 8 l 20)]; lia | apply (field_here 8 l 28); lia | apply (field_here 8 l 36); lia
      | apply (field_here 8 l 44); lia]|]). apply (field_here 4 l 52). lia.
  - unfold encode_frame. cbn [fh_version fh_type fh_flags fh_session fh_epoch fh_sequence fh_correlation Ids.uuid high low value].
    rewrite Em, Hbl, Ec, E1. rewrite (head_split l) at 1 by done. rewrite E0, E1.
    rewrite <-!app_assoc. do 11 f_equal. rewrite Hp2. unfold body. by rewrite take_drop.
Qed.

(** A connection that ends inside a frame. *)
Lemma read_frame_cut f c n :
  fits_frame limits f → n < length (encode_frame (f_header f) (f_body f)) →
  concat (pieces c) = take n (encode_frame (f_header f) (f_body f)) → (read_frame limits c).2 = failure (ending c).
Proof.
  intros Hf Hn Hc. pose proof (frame_bytes_length (f_header f) (f_body f)) as Hl. set (bytes := encode_frame _ _) in *.
  assert (Hlen : length (concat (pieces c)) = n) by (rewrite Hc, length_take; lia).
  unfold read_frame. pose proof (recv_exact_spec kFrameHeaderSize c) as H1. rewrite Hlen in H1.
  case_decide as Hk; [|by rewrite H1]. destruct H1 as (ps1 & -> & Hp1). cbv iota.
  assert (Ht : take kFrameHeaderSize (concat (pieces c)) = take kFrameHeaderSize (bytes ++ [])).
  { rewrite Hc, take_take, Nat.min_l by lia. by rewrite app_nil_r. }
  rewrite Ht. unfold bytes at 1. rewrite decode_head by done. rewrite load_head by (unfold kFrameHeaderSize; lia).
  pose proof (frame_head_fields limits f [] Hf) as (_ & _ & _ & _ & _ & _ & _ & _ & _ & F9 & _). unfold bytes. rewrite F9, Nat2N.id.
  pose proof (recv_exact_spec (length (f_body f)) (mkInbound ps1 (ending c))) as H2. cbn [pieces ending] in H2.
  rewrite decide_False in H2 by (rewrite Hp1, length_drop; lia). by rewrite H2.
Qed.

(** A frame whose body has one changed group of at most four bytes. *)
Lemma read_frame_damaged f before a b after c rest :
  fits_frame limits f → f_body f = before ++ a ++ after → length a = length b → length a ≤ 4 → a ≠ b →
  concat (pieces c) = take kFrameHeaderSize (encode_frame (f_header f) (f_body f)) ++ (before ++ b ++ after) ++ rest →
  (read_frame limits c).2 = failure StatusCode.IntegrityFailure.
Proof.
  intros Hf Hb Hab H4 Hne Hc. pose proof (frame_bytes_length (f_header f) (f_body f)) as Hl. set (bytes := encode_frame _ _) in *.
  set (body' := before ++ b ++ after) in *. assert (Hbl : length body' = length (f_body f)) by (unfold body'; rewrite Hb, !length_app; lia).
  assert (Hh : length (take kFrameHeaderSize bytes) = kFrameHeaderSize) by (rewrite length_take; lia).
  unfold read_frame. pose proof (recv_exact_spec kFrameHeaderSize c) as H1. rewrite Hc in H1.
  rewrite decide_True in H1 by (rewrite length_app; lia). destruct H1 as (ps1 & -> & Hp1). cbv iota.
  rewrite take_app_length', drop_app_length' in * by done. rewrite <-(app_nil_r bytes). unfold bytes. rewrite decode_head by done.
  pose proof (frame_head_fields limits f [] Hf) as (_ & _ & _ & _ & _ & _ & _ & _ & _ & F9 & F10).
  rewrite !load_head by (unfold kFrameHeaderSize; lia). rewrite F9, F10, Nat2N.id.
  pose proof (recv_exact_spec (length (f_body f)) (mkInbound ps1 (ending c))) as H2. cbn [pieces ending] in H2.
  rewrite Hp1, decide_True in H2 by (rewrite length_app; lia). destruct H2 as (ps2 & -> & _). cbv iota.
  rewrite take_app_length' by done.
  destruct (N.eqb_spec (crc32c 0 body') (crc32c 0 (f_body f))) as [E|_]; [|done]. exfalso. revert E. rewrite Hb.
  apply crc32c_burst; [done|by symmetry|lia|by symmetry].
Qed.

(** Reading up to [n] frames, until one cannot be read. *)
Fixpoint read_frames (n : nat) (c : Inbound) : Inbound * list Frame :=
  match n with
  | O => (c, [])
  | S n =>
      let '(c', r) := read_frame limits c in
      match r with
      | failure _ => (c', [])
      | success f => let '(c'', fs) := read_frames n c' in (c'', f :: fs)
      end
  end.

Lemma read_frames_written fs c tail :
  Forall (fits_frame limits) fs → concat (pieces c) = concat ((λ f, encode_frame (f_header f) (f_body f)) <$> fs) ++ tail →
  ∃ c', read_frames (length fs) c = (c', fs) ∧ concat (pieces c') = tail ∧ ending c' = ending c.
Proof.
  intros Hfs. revert c. induction Hfs as [|f fs Hf _ IH]; intros c Hc; [by exists c|]. cbn in Hc. rewrite <-app_assoc in Hc.
  destruct (read_frame_written f c _ Hf Hc) as (ps & E & Hp). cbn [length read_frames]. rewrite E.
  destruct (IH (mkInbound ps (ending c)) Hp) as (c' & -> & H1 & H2). by exists c'.
Qed.
End wire.

(** ** The properties *)

(** C39: frames on a connection.  However the bytes are cut into pieces on the
    way, the frames that were sent are the frames that are read, in order; a
    connection that ends inside a frame is reported with its own error; a frame
    that is read is canonical and nothing after it is consumed; and a change of up
    to four consecutive body bytes is answered with an integrity failure. *)
Theorem frames_survive_fragmentation limits c :
  (∀ fs tail, Forall (fits_frame limits) fs →
     concat (pieces c) = concat ((λ f, encode_frame (f_header f) (f_body f)) <$> fs) ++ tail →
     ∃ c', read_frames limits (length fs) c = (c', fs) ∧ concat (pieces c') = tail ∧ ending c' = ending c) ∧
  (∀ f n, fits_frame limits f → n < length (encode_frame (f_header f) (f_body f)) →
     concat (pieces c) = take n (encode_frame (f_header f) (f_body f)) → (read_frame limits c).2 = failure (ending c)) ∧
  (∀ c' f, read_frame limits c = (c', success f) →
     fits_frame limits f ∧ concat (pieces c) = encode_frame (f_header f) (f_body f) ++ concat (pieces c')) ∧
  (∀ f before a b after rest, fits_frame limits f → f_body f = before ++ a ++ after →
     length a = length b → length a ≤ 4 → a ≠ b →
     concat (pieces c) = take kFrameHeaderSize (encode_frame (f_header f) (f_body f)) ++ (before ++ b ++ after) ++ rest →
     (read_frame limits c).2 = failure StatusCode.IntegrityFailure).
Proof.
  split_and!.
  - intros fs tail. apply read_frames_written.
  - intros f n. apply read_frame_cut.
  - intros c' f. apply read_frame_read.
  - intros f before a b after rest. apply read_frame_damaged.
Qed.

Definition sample_frame : Frame := {|
  f_header := {| fh_version := protocol_version; fh_type := MessageType.Ping; fh_flags := 0;
    fh_session := from_uuid (mkUInt128 1 2); fh_epoch := from_value 1; fh_sequence := 3; fh_correlation := 4 |};
  f_body := ByteWriter.u64 99 |}%N.
Definition sample_pieces : list (list byte) :=
  let bytes := encode_frame (f_header sample_frame) (f_body sample_frame) in
  [take 7 bytes; []; take 50 (drop 7 bytes); drop 57 bytes ++ take 20 bytes; drop 20 bytes].

Lemma frames_survive_fragmentation_witness :
  ∃ c', read_frames default_FrameLimits 2 (mkInbound sample_pieces StatusCode.ConnectionClosed) =
    (c', [sample_frame; sample_frame]).
Proof.
  destruct (proj1 (frames_survive_fragmentation default_FrameLimits (mkInbound sample_pieces StatusCode.ConnectionClosed))
    [sample_frame; sample_frame] []) as (c' & H & _); [|reflexivity|by exists c'].
  repeat constructor; by vm_compute.
Defined.

(** C40: canonical messages.  The decoder of every request with a payload of
    its own, of every decision, of the handshake and of the response envelope
    reads what its encoder wrote, and accepts only the encoding of what it
    answers followed by what it leaves unread; the dispatcher does not look at
    what is left.  Of the options of a snapshot [include_reads] is not carried:
    they are read back when it has its default.  A query has no unique encoding
    (the object and the selector may each be missing): an object alone and an
    object with a selector are read as such. *)
Theorem messages_are_canonical limits :
  (Lawful (fits_read_request limits) encode_read_request (decode_read_request limits) ∧
   Lawful (fits_write_request limits) encode_write_request (decode_write_request limits) ∧
   Lawful (fits_dirty_request limits) encode_dirty_request (decode_dirty_request limits) ∧
   Lawful (fits_publish_request limits) encode_publish_request (decode_publish_request limits) ∧
   Lawful (fits_release_request limits) encode_release_request (decode_release_request limits) ∧
   Lawful (fits_invalidation_request limits) encode_invalidation_request (decode_invalidation_request limits) ∧
   Lawful (fits_invalidation_ack limits) encode_invalidation_ack (decode_invalidation_ack limits) ∧
   Lawful (fits_sync_request limits) encode_sync_request (decode_sync_request limits) ∧
   Lawful (fits_sync_complete limits) encode_sync_complete (decode_sync_complete limits) ∧
   Lawful (fits_sync_fail limits) encode_sync_fail (decode_sync_fail limits) ∧
   Lawful (fits_revalidate_request limits) encode_revalidate_request (decode_revalidate_request limits) ∧
   Lawful (fits_region_registration limits) encode_region_registration (decode_region_registration limits)) ∧
  (Lawful (fits_read_decision limits) encode_read_decision (decode_read_decision limits) ∧
   Lawful (fits_write_grant limits) encode_write_grant (decode_write_grant limits) ∧
   Lawful (fits_publication limits) encode_publication (decode_publication limits) ∧
   Lawful (fits_invalidation_outcome limits) encode_invalidation_outcome (decode_invalidation_outcome limits) ∧
   Lawful (fits_sync_outcome limits) encode_sync_outcome (decode_sync_outcome limits) ∧
   Lawful (fits_release_outcome limits) encode_release_outcome (decode_release_outcome limits)) ∧
  (Lawful (fits_hello_request limits) encode_hello_request (decode_hello_request limits) ∧
   Lawful (fits_hello_response limits) encode_hello_response (decode_hello_response limits) ∧
   Lawful (fits_response_envelope limits) encode_response_envelope (decode_response_envelope limits) ∧
   Lawful (fits_register_object limits) encode_register_object (decode_register_object limits) ∧
   Lawful (fits_set_policy limits) encode_set_policy (decode_set_policy limits) ∧
   Lawful (fits_fence_participant limits) encode_fence_participant (decode_fence_participant limits) ∧
   Lawful fits_retire encode_retire decode_retire ∧
   Lawful (fits_text (max_text limits)) encode_create_domain (decode_create_domain limits) ∧
   Lawful (fits_resolve limits) encode_resolve (decode_resolve limits) ∧
   Lawful fits_snapshot_options encode_snapshot_options decode_snapshot_options ∧
   Lawful (fits_width 8) ByteWriter.u64 ByteReader.u64 ∧
   Lawful (fits_text_block limits) encode_text_block (decode_text_block limits)) ∧
  (∀ options rest, fits_id (sno_object_filter options) → fits_width 8 (sno_max_objects options) →
    decode_snapshot_options (encode_snapshot_options options ++ rest) =
      Read (options <| sno_include_reads := sno_include_reads default_SnapshotOptions |>) rest) ∧
  (∀ (object : ObjectId) selector rest, fits_id object →
    decode_query limits (encode_object_ref object) = Read (object, ""%string) [] ∧
    (fits_text_block limits selector →
      decode_query limits (encode_object_ref object ++ encode_text_block selector ++ rest) = Read (object, selector) rest)).
Proof.
  split; [split_and!; apply _|]. split; [split_and!; apply _|]. split; [split_and!; apply _|]. split.
  - intros options rest Hf Hm. pose (sent := options <| sno_include_reads := sno_include_reads default_SnapshotOptions |>).
    change (encode_snapshot_options options) with (encode_snapshot_options sent). by apply (read_written (fits := fits_snapshot_options)).
  - intros object selector rest Hid. split; [by apply query_read|]. by apply query_read_selector.
Qed.

Lemma messages_are_canonical_witness :
  decode_query default_decode_limits
    (encode_object_ref (from_value 7) ++ encode_text_block "policy"%string ++ [x00]) = Read (from_value 7, "policy"%string) [x00].
Proof.
  destruct (messages_are_canonical default_decode_limits) as (_ & _ & _ & _ & Hq).
  apply (proj2 (Hq (from_value 7) "policy"%string [x00] ltac:(by vm_compute))). split; by vm_compute.
Defined.
