(* ===== verification/Transport.v ===== *)
(** * Sockets ([include/coherence/transport.hpp], [src/transport.cpp])

    The sending and receiving sides of a connected socket over a scripted
    operating system, in which a write may find the connection closed by the peer
    and so raise SIGPIPE, the frames written to and read from it, and the parser
    of endpoint text. *)
From Stdlib Require Import Strings.Byte Strings.String Strings.Ascii.
From S2P Require Import Prelude Ids Enums Status Bytes Policy Evidence Model Decisions.
From S2P Require Import Serialize Codec Messages Checksum Framing Protocol.

(** ** Sockets *)

#[local] Set Primitive Projections.

(** A connected socket: whether the handle is open, whether it was shut down,
    what arrives, what was handed to the network, and what the next calls of
    [send] do: take so many bytes (zero: the call fails), or find the connection
    closed by the peer; past the script, a call takes everything.  On POSIX a
    call that finds the connection closed, by the peer or by [shutdown], raises
    SIGPIPE, which the program neither blocks nor ignores: the process ends
    there.  [so_killed] records it, and what the functions below return
    afterwards is not observed by anyone. *)
Record Socket := mkSocket {
  so_valid : bool;
  so_shut : bool;
  so_in : Inbound;
  so_out : list byte;
  so_sends : list (option nat);
  so_killed : bool }.
#[export] Instance eta_Socket : Eta Socket := fun s => mkSocket
  (so_valid s) (so_shut s) (so_in s) (so_out s) (so_sends s) (so_killed s).

#[local] Unset Primitive Projections.

(** A socket that is not connected. *)
Definition no_socket : Socket := mkSocket false false (mkInbound [] StatusCode.ConnectionClosed) [] [] false.

(** One call of [send] for [want] bytes. *)
Inductive Sent := Took (n : nat) | SendFailed | BrokenPipe.
Definition os_send (want : nat) (script : list (option nat)) : list (option nat) * Sent :=
  match script with
  | [] => ([], Took want)
  | None :: rest => (rest, BrokenPipe)
  | Some O :: rest => (rest, SendFailed)
  | Some k :: rest => (rest, Took (Nat.min k want))
  end.

(** The loop of [Socket::send_all]: what is handed over, the script that is left,
    whether the process was ended, and the status.  Every call that takes
    anything takes at least one byte. *)
Fixpoint send_loop (fuel : nat) (data out : list byte) (script : list (option nat))
    : list byte * list (option nat) * bool * StatusCode.t :=
  match data, fuel with
  | [], _ => (out, script, false, StatusCode.Ok)
  | _, O => (out, script, false, StatusCode.TransportFailure)
  | _, S fuel =>
      let remaining := length data in
      match os_send (if (0x40000000 <? N.of_nat remaining)%N then N.to_nat 0x40000000 else remaining) script with
      | (script, BrokenPipe) => (out, script, true, StatusCode.TransportFailure)
      | (script, SendFailed) => (out, script, false, StatusCode.TransportFailure)
      | (script, Took sent) => send_loop fuel (drop sent data) (out ++ take sent data) script
      end
  end.

(** [Socket::send_all]. *)
Definition send_all (data : list byte) (s : Socket) : Socket * StatusCode.t :=
  if negb (so_valid s) then (s, StatusCode.TransportFailure) else
  if so_shut s then
    (if decide (data = []) then (s, StatusCode.Ok) else (s <| so_killed := true |>, StatusCode.TransportFailure))
  else
  let '(out, script, killed, status) := send_loop (length data) data (so_out s) (so_sends s) in
  (s <| so_out := out |> <| so_sends := script |> <| so_killed ::= orb killed |>, status).

(** [Socket::shutdown] and [Socket::close]; [closed] is what the system reports. *)
Definition shutdown (s : Socket) : Socket * StatusCode.t :=
  (if so_valid s then s <| so_shut := true |> else s, StatusCode.Ok).
Definition close (closed : StatusCode.t) (s : Socket) : Socket * StatusCode.t :=
  if so_valid s then (s <| so_valid := false |>, closed) else (s, StatusCode.Ok).

(** [write_frame] and [read_frame] on a socket. *)
Definition write_frame (h : FrameHeader) (body : list byte) (s : Socket) : Socket * StatusCode.t :=
  send_all (encode_frame h body) s.
Definition receive_frame (limits : FrameLimits) (s : Socket) : Socket * result Frame :=
  if negb (so_valid s) then (s, failure StatusCode.TransportFailure) else
  let '(inbound, r) := read_frame limits (so_in s) in (s <| so_in := inbound |>, r).

(** ** Endpoints *)

(** The digits of [strtol]. *)
Definition digit_of (c : ascii) : option Z :=
  let n := Z.of_nat (nat_of_ascii c) in if (48 <=? n)%Z && (n <=? 57)%Z then Some (n - 48)%Z else None.
Fixpoint digits (acc : Z) (s : string) : Z :=
  match s with
  | EmptyString => acc
  | String c s => match digit_of c with Some d => digits (10 * acc + d)%Z s | None => acc end
  end.
Definition is_space (c : ascii) : bool :=
  let n := nat_of_ascii c in (n =? 32)%nat || (9 <=? n)%nat && (n <=? 13)%nat.
Fixpoint skip_space (s : string) : string :=
  match s with String c rest => if is_space c then skip_space rest else s | EmptyString => s end.

(** [std::strtol] in base ten: blanks, a sign, digits; a value outside [long]
    is clamped, and what follows the digits is ignored. *)
Definition strtol (s : string) : Z :=
  let v := match skip_space s with
    | EmptyString => 0%Z
    | String c rest =>
        if Ascii.eqb c "-" then Z.opp (digits 0 rest) else
        if Ascii.eqb c "+" then digits 0 rest else digits 0 (String c rest)
    end in
  Z.max (- 2 ^ 63) (Z.min (2 ^ 63 - 1) v).

(** [find] of a character, from the front and from the back: the text before and after it. *)
Fixpoint cut_first (c : ascii) (s : string) : option (string * string) :=
  match s with
  | EmptyString => None
  | String x rest => if Ascii.eqb x c then Some (EmptyString, rest) else
      match cut_first c rest with Some (a, b) => Some (String x a, b) | None => None end
  end.
Fixpoint cut_last (c : ascii) (s : string) : option (string * string) :=
  match s with
  | EmptyString => None
  | String x rest =>
      match cut_last c rest with
      | Some (a, b) => Some (String x a, b)
      | None => if Ascii.eqb x c then Some (EmptyString, rest) else None
      end
  end.

(** The port in decimal text. *)
Definition parse_port (text : string) : result N :=
  let parsed := strtol text in
  if (parsed <=? 0)%Z || (65535 <? parsed)%Z then failure StatusCode.InvalidArgument else success (Z.to_N parsed).

(** [parse_endpoint]. *)
Definition parse_endpoint (text : string) (default_port : N) : result (string * N) :=
  let host h := if decide (h = ""%string) then "127.0.0.1"%string else h in
  let with_port h port_text :=
    match parse_port port_text with failure e => failure e | success p => success (host h, p) end in
  match text with
  | EmptyString => failure StatusCode.InvalidArgument
  | String front rest =>
      if Ascii.eqb front "[" then
        match cut_first "]" rest with
        | None => failure StatusCode.InvalidArgument
        | Some (h, EmptyString) => success (host h, default_port)
        | Some (h, String after port_text) =>
            if Ascii.eqb after ":" then with_port h port_text else failure StatusCode.InvalidArgument
        end
      else
        match cut_last ":" text with
        | None => success (host text, default_port)
        | Some (h, port_text) => with_port h port_text
        end
  end.

(** ** Sending *)

(** A call that takes something. *)
Definition takes (x : option nat) : Prop := x ≠ Some 0 ∧ x ≠ None.

(** What is sent is a prefix of the data, all of it exactly when the call
    succeeds; the process is ended only by a connection that was closed. *)
Lemma send_loop_spec fuel data out script :
  length data ≤ fuel →
  ∃ n script' killed status, send_loop fuel data out script = (out ++ take n data, script', killed, status) ∧
    script' `suffix_of` script ∧ (killed = true → None ∈ script) ∧
    (status = StatusCode.Ok ∧ n = length data ∧ killed = false ∨
     status = StatusCode.TransportFailure ∧ n < length data ∧ ¬ Forall takes script).
Proof.
  revert data out script. induction fuel as [|fuel IH]; intros data out script Hf.
  { destruct data; [|simpl in Hf; lia]. exists 0, script, false, StatusCode.Ok. rewrite take_nil, app_nil_r. by split_and!; [..|left]. }
  destruct data as [|b data]; [exists 0, script, false, StatusCode.Ok; rewrite take_nil, app_nil_r; by split_and!; [..|left]|].
  cbn [send_loop]. set (l := b :: data) in *.
  assert (0 < length l) as Hl by (simpl; lia). clearbody l.
  set (want := if (_ <? _)%N then _ else _).
  assert (0 < want ≤ length l) as Hw by (subst want; destruct (N.ltb_spec 0x40000000 (N.of_nat (length l))); lia).
  clearbody want.
  assert (∀ sent x rest, 0 < sent ≤ length l → script = x ++ rest →
    ∃ n script' killed status, send_loop fuel (drop sent l) (out ++ take sent l) rest = (out ++ take n l, script', killed, status) ∧
    script' `suffix_of` script ∧ (killed = true → None ∈ script) ∧
    (status = StatusCode.Ok ∧ n = length l ∧ killed = false ∨
     status = StatusCode.TransportFailure ∧ n < length l ∧ ¬ Forall takes script)) as Hstep.
  { intros sent x rest Hs ->.
    destruct (IH (drop sent l) (out ++ take sent l) rest) as (n & s' & k & st & -> & Hsuf & Hk & Hr); [rewrite length_drop; lia|].
    exists (sent + n), s', k, st. rewrite <-app_assoc, take_take_drop. split; [done|].
    split; [etrans; [exact Hsuf|by exists x]|]. split; [set_solver|].
    rewrite length_drop in Hr. destruct Hr as [(-> & -> & ->)|(-> & ? & Hn)]; [left; split; [done|split; [lia|done]]|right].
    split; [done|]. split; [lia|]. by rewrite Forall_app; intros [_ ?]. }
  destruct script as [|[[|k]|] script]; cbn [os_send].
  - apply (Hstep _ []); [lia|done].
  - exists 0, script, false, StatusCode.TransportFailure. rewrite take_0, app_nil_r. split; [done|]. split; [by exists [Some 0]|].
    split; [done|]. right. split; [done|]. split; [lia|]. by intros [[Hx _] _]%Forall_cons.
  - apply (Hstep _ [Some (S k)]); [lia|done].
  - exists 0, script, true, StatusCode.TransportFailure. rewrite take_0, app_nil_r. split; [done|]. split; [by exists [None]|].
    split; [by left|]. right. split; [done|]. split; [lia|]. by intros [[_ Hx] _]%Forall_cons.
Qed.

Lemma send_all_spec data s :
  so_valid s = true → so_shut s = false →
  ∃ n s', send_all data s = s' ∧ so_out s'.1 = so_out s ++ take n data ∧
    so_valid s'.1 = true ∧ so_shut s'.1 = false ∧ so_in s'.1 = so_in s ∧ so_sends s'.1 `suffix_of` so_sends s ∧
    (so_killed s'.1 = true → so_killed s = true ∨ None ∈ so_sends s) ∧
    (s'.2 = StatusCode.Ok ∧ n = length data ∧ so_killed s'.1 = so_killed s ∨
     s'.2 = StatusCode.TransportFailure ∧ n < length data ∧ ¬ Forall takes (so_sends s)).
Proof.
  intros Hv Hs. unfold send_all. rewrite Hv, Hs. cbn [negb].
  destruct (send_loop_spec (length data) data (so_out s) (so_sends s)) as (n & sc & k & st & E & Hsuf & Hk & Hr); [lia|].
  rewrite E. exists n. eexists. split; [done|]. destruct s. cbn in *. subst. split_and!; try done.
  - destruct k; [auto|by left].
  - destruct Hr as [(-> & -> & ->)|Hr]; [by left|by right].
Qed.

(** A write ends the process only when the connection was closed, by the peer or
    by [shutdown]. *)
Lemma send_all_killed data s :
  so_killed (send_all data s).1 = true → so_killed s = true ∨ so_shut s = true ∨ None ∈ so_sends s.
Proof.
  destruct (so_valid s) eqn:Hv; [destruct (so_shut s) eqn:Hs; [by auto|]|unfold send_all; rewrite Hv; by left].
  destruct (send_all_spec data s Hv Hs) as (n & s' & -> & _ & _ & _ & _ & _ & Hk & _). intros H. destruct (Hk H); auto.
Qed.

(** ** Endpoint text *)

Fixpoint all_digits (s : string) : bool :=
  match s with EmptyString => true | String c s => bool_decide (is_Some (digit_of c)) && all_digits s end.

Lemma digit_char (d : N) : (d < 10)%N → digit_of (pretty_N_char d) = Some (Z.of_N d).
Proof. intros H. assert (d = 0 ∨ d = 1 ∨ d = 2 ∨ d = 3 ∨ d = 4 ∨ d = 5 ∨ d = 6 ∨ d = 7 ∨ d = 8 ∨ d = 9)%N as E by lia.
  by repeat destruct E as [->|E]; subst. Qed.

Lemma pretty_go_digits x s :
  digits 0 (pretty_N_go x s) = digits (Z.of_N x) s ∧ (all_digits s = true → all_digits (pretty_N_go x s) = true).
Proof.
  revert s. induction (N.lt_wf_0 x) as [x _ IH]. intros s.
  destruct (decide (0 < x)%N) as [Hx|Hx].
  - rewrite pretty_N_go_step by done.
    destruct (IH (x `div` 10)%N ltac:(apply N.div_lt; lia) (String (pretty_N_char (x `mod` 10)) s)) as [Hd Ha].
    pose proof (N.mod_lt x 10 ltac:(lia)) as Hm. pose proof (digit_char _ Hm) as Hc.
    rewrite Hd. cbn [digits all_digits]. rewrite Hc. split.
    + f_equal. pose proof (N.div_mod x 10). lia.
    + intros Hs. apply Ha. cbn [all_digits]. rewrite Hc, Hs. done.
  - assert (x = 0)%N as -> by lia. rewrite pretty_N_go_0. done.
Qed.

Lemma pretty_digits n : digits 0 (pretty n) = Z.of_N n ∧ all_digits (pretty n) = true ∧ pretty n ≠ ""%string.
Proof.
  unfold pretty, pretty_N. case_decide; [by subst|].
  destruct (pretty_go_digits n "") as [H1 H2]. split; [done|]. split; [by apply H2|].
  intros E. rewrite E in H1. cbn in H1. lia.
Qed.

Lemma strtol_pretty n : (n < 2 ^ 63)%N → strtol (pretty n) = Z.of_N n.
Proof.
  intros Hn. destruct (pretty_digits n) as (Hd & Ha & Hne). unfold strtol.
  destruct (pretty n) as [|c s]; [done|]. cbn [all_digits] in Ha. apply andb_true_iff in Ha as [[d Hc]%bool_decide_eq_true _].
  unfold digit_of in Hc. destruct ((48 <=? _)%Z && _) eqn:E; [|done]. apply andb_true_iff in E as [E1%Z.leb_le E2%Z.leb_le].
  assert (skip_space (String c s) = String c s) as ->.
  { cbn [skip_space]. unfold is_space. destruct (Nat.eqb_spec (nat_of_ascii c) 32); [lia|].
    destruct (Nat.leb_spec (nat_of_ascii c) 13); [lia|]. by rewrite andb_false_r. }
  destruct (Ascii.eqb_spec c "-") as [->|_]; [by exfalso; apply E1|].
  destruct (Ascii.eqb_spec c "+") as [->|_]; [by exfalso; apply E1|]. rewrite Hd. lia.
Qed.

Lemma parse_port_pretty p : (1 ≤ p ≤ 65535)%N → parse_port (pretty p) = success p.
Proof.
  intros Hp. unfold parse_port. rewrite strtol_pretty by lia.
  destruct (Z.leb_spec (Z.of_N p) 0); [lia|]. destruct (Z.ltb_spec 65535 (Z.of_N p)); [lia|]. cbn [orb].
  f_equal. lia.
Qed.

Lemma digits_lack_colon s : all_digits s = true → cut_last ":" s = None.
Proof.
  induction s as [|c s IH]; [done|]. cbn [all_digits cut_last]. intros [[d Hd]%bool_decide_eq_true Hs]%andb_true_iff.
  rewrite IH by done. by destruct (Ascii.eqb_spec c ":") as [->|].
Qed.

Lemma cut_last_app c h t : cut_last c t = None → cut_last c (h +:+ String c t) = Some (h, t).
Proof.
  intros Ht. induction h as [|x h IH]; simpl.
  - rewrite Ht. by destruct (Ascii.eqb_spec c c).
  - by rewrite IH.
Qed.
Lemma cut_first_app c h t : cut_first c h = None → cut_first c (h +:+ String c t) = Some (h, t).
Proof.
  induction h as [|x h IH]; simpl.
  - intros _. by destruct (Ascii.eqb_spec c c).
  - destruct (Ascii.eqb x c); [done|]. destruct (cut_first c h) as [[? ?]|]; [done|]. intros _. by rewrite IH.
Qed.

(** Endpoints.  A port printed after a host, with or without brackets, is
    read back as that host and that port; whatever the text, an endpoint that is
    accepted has a host, and its port is the default or lies in [1..65535]. *)
Theorem endpoints_read_back :
  (∀ host port default, host ≠ ""%string → String.get 0 host ≠ Some "["%char → (1 ≤ port ≤ 65535)%N →
     parse_endpoint (host +:+ ":" +:+ pretty port) default = success (host, port)) ∧
  (∀ host port default, host ≠ ""%string → cut_first "]" host = None → (1 ≤ port ≤ 65535)%N →
     parse_endpoint ("[" +:+ host +:+ "]:" +:+ pretty port) default = success (host, port)) ∧
  (∀ text default host port, parse_endpoint text default = success (host, port) →
     host ≠ ""%string ∧ (port = default ∨ (1 ≤ port ≤ 65535)%N)).
Proof.
  split; [|split].
  - intros h p d Hne Hb Hp. unfold parse_endpoint. destruct (pretty_digits p) as (_ & Ha & _).
    assert (cut_last ":" (h +:+ ":" +:+ pretty p) = Some (h, pretty p)) as Hc.
    { apply (cut_last_app ":" h), digits_lack_colon, Ha. }
    destruct h as [|x h]; [done|]. simpl in Hc |- *. simpl in Hb.
    destruct (Ascii.eqb_spec x "[") as [->|_]; [by destruct Hb|]. rewrite Hc, parse_port_pretty by done. by rewrite decide_False.
  - intros h p d Hne Hb Hp. unfold parse_endpoint.
    assert (cut_first "]" (h +:+ "]:" +:+ pretty p) = Some (h, String ":" (pretty p))) as Hc by exact (cut_first_app _ _ _ Hb).
    change ("[" +:+ h +:+ "]:" +:+ pretty p) with (String "[" (h +:+ "]:" +:+ pretty p)).
    cbv iota beta zeta. change (Ascii.eqb "[" "[") with true. cbv iota. rewrite Hc.
    change (Ascii.eqb ":" ":") with true. cbv iota. rewrite parse_port_pretty by done. by rewrite decide_False.
  - intros text d h p. unfold parse_endpoint.
    assert (∀ x, (if decide (x = ""%string) then "127.0.0.1"%string else x) ≠ ""%string) as Hh by (intros; by case_decide).
    assert (∀ x, parse_port x = success p → (1 ≤ p ≤ 65535)%N) as Hp.
    { intros x. unfold parse_port. destruct (Z.leb_spec (strtol x) 0), (Z.ltb_spec 65535 (strtol x)); try done.
      intros [= <-]. lia. }
    destruct text as [|x text]; [done|]. destruct (Ascii.eqb x "[").
    + destruct (cut_first "]" text) as [[a [|y b]]|]; [intros [= <- <-]; auto| |done].
      destruct (Ascii.eqb y ":"); [|done]. destruct (parse_port b) as [q|] eqn:E; [|done]. intros [= <- ->]. eauto.
    + destruct (cut_last ":" _) as [[a b]|]; [|intros [= <- <-]; auto].
      destruct (parse_port b) as [q|] eqn:E; [|done]. intros [= <- ->]. eauto.
Qed.
