(* ===== verification/Network.v ===== *)
(** * Sockets and listeners as owners of descriptors ([src/transport.cpp])

    How connections and listeners come to be and end: [Socket::connect],
    [Listener::bind], [Listener::accept], the moves, [close] and [interrupt], over
    the descriptor table of the process.  Name resolution, [socket], [connect],
    [bind], [listen] and [accept] are calls of the operating system; what they
    return is an argument.  The bytes of a connected socket are in [Transport]. *)
From Stdlib Require Import Strings.String.
From S2P Require Import Prelude Status.

(** The members of [Socket] and [Listener]; no handle is the invalid one. *)
Record SocketObject := mkSocketObject { sk_handle : option N; sk_peer : string }.
Record ListenerObject := mkListenerObject { ln_handle : option N; ln_port : N }.

(** What the system answers for one resolved address: the descriptor [socket]
    returns, if any, and whether [connect] succeeds. *)
Record ConnectAttempt := mkConnectAttempt { ca_handle : option N; ca_connects : bool }.
(** The same for a listener: [bind], [listen], and the port [getsockname] reports
    for an address of the internet family. *)
Record BindAttempt := mkBindAttempt { ba_handle : option N; ba_binds : bool; ba_listens : bool; ba_port : option N }.

Definition default_SocketObject : SocketObject := mkSocketObject None "".
Definition default_ListenerObject : ListenerObject := mkListenerObject None 0.

(** ** Descriptors *)

(** The descriptors the process has open.  Closing one that is not open would
    close whatever gets its number next: it is undefined. *)
Definition Descriptors : Type := gset N.
Definition os_close (h : N) (open : Descriptors) : option Descriptors :=
  if decide (h ∈ open) then Some (open ∖ {[h]}) else None.

(** ** Sockets *)

(** The loop of [Socket::connect] over the resolved addresses. *)
Fixpoint connect_loop (attempts : list ConnectAttempt) (open : Descriptors) : option (Descriptors * option N) :=
  match attempts with
  | [] => Some (open, None)
  | a :: rest =>
      match ca_handle a with
      | None => connect_loop rest open
      | Some h =>
          let open := {[h]} ∪ open in
          if ca_connects a then Some (open, Some h) else
          match os_close h open with Some open => connect_loop rest open | None => None end
      end
  end.
(** [Socket::connect]; no list of addresses is a failed resolution. *)
Definition socket_connect (host : string) (port : N) (resolved : option (list ConnectAttempt)) (open : Descriptors)
    : option (Descriptors * result SocketObject) :=
  match resolved with
  | None => Some (open, failure StatusCode.TransportFailure)
  | Some attempts =>
      match connect_loop attempts open with
      | None => None
      | Some (open, None) => Some (open, failure StatusCode.TransportFailure)
      | Some (open, Some h) => Some (open, success (mkSocketObject (Some h) (host +:+ ":" +:+ pretty port)))
      end
  end.
(** [Socket::adopt]. *)
Definition socket_adopt (h : N) : SocketObject := mkSocketObject (Some h) "".

(** [Socket::close]; [closed] is whether the system reports success. *)
Definition socket_close (closed : bool) (s : SocketObject) (open : Descriptors) : option (Descriptors * SocketObject * StatusCode.t) :=
  match sk_handle s with
  | None => Some (open, default_SocketObject, StatusCode.Ok)
  | Some h =>
      open ← os_close h open;
      Some (open, default_SocketObject, if closed then StatusCode.Ok else StatusCode.TransportFailure)
  end.
(** The move assignment of two sockets that are not one: the target, and what is
    left of the source. *)
Definition socket_move (target source : SocketObject) (open : Descriptors) : option (Descriptors * SocketObject * SocketObject) :=
  '(open, _, _) ← socket_close true target open;
  Some (open, source, mkSocketObject None "").

(** ** Listeners *)

(** The loop of [Listener::bind]. *)
Fixpoint bind_loop (attempts : list BindAttempt) (open : Descriptors) : option (Descriptors * ListenerObject) :=
  match attempts with
  | [] => Some (open, default_ListenerObject)
  | a :: rest =>
      match ba_handle a with
      | None => bind_loop rest open
      | Some h =>
          let open := {[h]} ∪ open in
          if ba_binds a && ba_listens a then Some (open, mkListenerObject (Some h) (default 0%N (ba_port a))) else
          match os_close h open with Some open => bind_loop rest open | None => None end
      end
  end.
(** [Listener::bind]. *)
Definition listener_bind (resolved : option (list BindAttempt)) (open : Descriptors) : option (Descriptors * result ListenerObject) :=
  match resolved with
  | None => Some (open, failure StatusCode.TransportFailure)
  | Some attempts =>
      '(open, l) ← bind_loop attempts open;
      Some (open, match ln_handle l with Some _ => success l | None => failure StatusCode.TransportFailure end)
  end.
(** [Listener::accept]; [accepted] is what the system call returns. *)
Definition listener_accept (accepted : option N) (l : ListenerObject) (open : Descriptors) : Descriptors * result SocketObject :=
  match ln_handle l, accepted with
  | Some _, Some h => ({[h]} ∪ open, success (socket_adopt h))
  | _, _ => (open, failure StatusCode.TransportFailure)
  end.
(** [Listener::interrupt]: nothing is closed and nothing is reported. *)
Definition listener_interrupt (l : ListenerObject) : ListenerObject * StatusCode.t := (l, StatusCode.Ok).
(** [Listener::close] and the move assignment. *)
Definition listener_close (closed : bool) (l : ListenerObject) (open : Descriptors) : option (Descriptors * ListenerObject * StatusCode.t) :=
  match ln_handle l with
  | None => Some (open, default_ListenerObject, StatusCode.Ok)
  | Some h =>
      open ← os_close h open;
      Some (open, default_ListenerObject, if closed then StatusCode.Ok else StatusCode.TransportFailure)
  end.
Definition listener_move (target source : ListenerObject) (open : Descriptors) : option (Descriptors * ListenerObject * ListenerObject) :=
  '(open, _, _) ← listener_close true target open;
  Some (open, source, default_ListenerObject).

(** ** A process *)

(** The sockets and listeners a process keeps, by the place it keeps them in, and its descriptors. *)
Record NetState := mkNetState {
  ns_open : Descriptors;
  ns_sockets : gmap nat SocketObject;
  ns_listeners : gmap nat ListenerObject }.

(** What a process does with them: results of [connect], [bind] and [accept] are
    moved into a place, as the coordinator, the client and the sessions do. *)
Inductive net_op :=
| Connect (place : nat) (host : string) (port : N) (resolved : option (list ConnectAttempt))
| Bind (place : nat) (resolved : option (list BindAttempt))
| Accept (listener place : nat) (accepted : option N)
| MoveSocket (target source : nat)
| MoveListener (target source : nat)
| CloseSocket (place : nat) (closed : bool)
| CloseListener (place : nat) (closed : bool)
| Interrupt (place : nat).

Definition socket_at (i : nat) (s : NetState) : SocketObject := default default_SocketObject (ns_sockets s !! i).
Definition listener_at (i : nat) (s : NetState) : ListenerObject := default default_ListenerObject (ns_listeners s !! i).

(** A new socket is moved into its place, where the former one is closed. *)
Definition keep_socket (i : nat) (new : result SocketObject) (open : Descriptors) (s : NetState) : option NetState :=
  match new with
  | failure _ => Some (mkNetState open (ns_sockets s) (ns_listeners s))
  | success new =>
      '(open, target, _) ← socket_move (socket_at i s) new open;
      Some (mkNetState open (<[i := target]> (ns_sockets s)) (ns_listeners s))
  end.
Definition keep_listener (i : nat) (new : result ListenerObject) (open : Descriptors) (s : NetState) : option NetState :=
  match new with
  | failure _ => Some (mkNetState open (ns_sockets s) (ns_listeners s))
  | success new =>
      '(open, target, _) ← listener_move (listener_at i s) new open;
      Some (mkNetState open (ns_sockets s) (<[i := target]> (ns_listeners s)))
  end.

Definition exec_net (o : net_op) (s : NetState) : option NetState :=
  match o with
  | Connect i host port resolved => '(open, new) ← socket_connect host port resolved (ns_open s); keep_socket i new open s
  | Bind i resolved => '(open, new) ← listener_bind resolved (ns_open s); keep_listener i new open s
  | Accept l i accepted => let '(open, new) := listener_accept accepted (listener_at l s) (ns_open s) in keep_socket i new open s
  | MoveSocket i j =>
      if decide (i = j) then Some s else
      '(open, target, source) ← socket_move (socket_at i s) (socket_at j s) (ns_open s);
      Some (mkNetState open (<[i := target]> (<[j := source]> (ns_sockets s))) (ns_listeners s))
  | MoveListener i j =>
      if decide (i = j) then Some s else
      '(open, target, source) ← listener_move (listener_at i s) (listener_at j s) (ns_open s);
      Some (mkNetState open (ns_sockets s) (<[i := target]> (<[j := source]> (ns_listeners s))))
  | CloseSocket i closed =>
      '(open, rest, _) ← socket_close closed (socket_at i s) (ns_open s); Some (mkNetState open (<[i := rest]> (ns_sockets s)) (ns_listeners s))
  | CloseListener i closed =>
      '(open, rest, _) ← listener_close closed (listener_at i s) (ns_open s); Some (mkNetState open (ns_sockets s) (<[i := rest]> (ns_listeners s)))
  | Interrupt i => let '(l, _) := listener_interrupt (listener_at i s) in Some (mkNetState (ns_open s) (ns_sockets s) (<[i := l]> (ns_listeners s)))
  end.
Fixpoint run_net (os : list net_op) (s : NetState) : option NetState :=
  match os with [] => Some s | o :: os => s ← exec_net o s; run_net os s end.

(** ** Ownership *)

(** Who owns a descriptor: a socket or a listener at its place, or the value a
    call is about to return. *)
Definition Owner : Type := option (nat + nat).
Definition handles (s : NetState) (k : Owner) : option N :=
  match k with
  | None => None
  | Some (inl i) => sk_handle (socket_at i s)
  | Some (inr i) => ln_handle (listener_at i s)
  end.

(** Besides those the process was started with, the open descriptors are exactly
    the owned ones, and each has one owner. *)
Definition owned (base open : Descriptors) (hs : Owner → option N) : Prop :=
  (∀ h, h ∈ open ↔ h ∈ base ∨ ∃ k, hs k = Some h) ∧
  (∀ k h, hs k = Some h → h ∉ base) ∧
  (∀ k k' h, hs k = Some h → hs k' = Some h → k = k').
Definition owned_once (base : Descriptors) (s : NetState) : Prop := owned base (ns_open s) (handles s).

Definition set_owner (k : Owner) (v : option N) (hs : Owner → option N) : Owner → option N := λ k', if decide (k' = k) then v else hs k'.

Lemma owned_ext base open hs hs' : owned base open hs → (∀ k, hs' k = hs k) → owned base open hs'.
Proof.
  intros (H1 & H2 & H3) E. split_and!.
  - intros h. rewrite H1. split; (intros [|[k Hk]]; [by left|right; exists k; congruence]).
  - intros k h. rewrite E. apply H2.
  - intros k k' h. rewrite !E. apply H3.
Qed.
Lemma owned_new base open hs k h : owned base open hs → hs k = None → h ∉ open → owned base ({[h]} ∪ open) (set_owner k (Some h) hs).
Proof.
  intros (H1 & H2 & H3) Hk Hn. assert (h ∉ base ∧ ∀ k', hs k' ≠ Some h) as [Hb Hf].
  { split; [intros ?; apply Hn, H1; by left|intros k' ?; apply Hn, H1; eauto]. }
  unfold set_owner. split_and!.
  - intros h'. rewrite elem_of_union, elem_of_singleton, H1. split.
    + intros [->|[?|[k' Hk']]]; [right; exists k; by rewrite decide_True|by left|].
      right. exists k'. rewrite decide_False; [done|congruence].
    + intros [?|[k' Hk']]; [by right; left|]. destruct (decide (k' = k)); [left; congruence|eauto].
  - intros k' h'. destruct (decide (k' = k)); [congruence|apply H2].
  - intros k1 k2 h'. destruct (decide (k1 = k)) as [->|], (decide (k2 = k)) as [->|]; intros E1 E2; simplify_eq; [done| | |by eapply H3];
      exfalso; by eapply Hf.
Qed.
Lemma owned_closed base open hs k h :
  owned base open hs → hs k = Some h → ∃ open', os_close h open = Some open' ∧ owned base open' (set_owner k None hs).
Proof.
  intros (H1 & H2 & H3) Hk. unfold os_close. rewrite decide_True by (apply H1; eauto). eexists; split; [done|].
  unfold set_owner. split_and!.
  - intros h'. rewrite elem_of_difference, elem_of_singleton, H1. split.
    + intros [[?|[k' Hk']] Hne]; [by left|]. right. exists k'. rewrite decide_False; [done|congruence].
    + intros [Hb|[k' Hk']]; [split; [by left|intros ->; by eapply H2]|]. destruct (decide (k' = k)); [done|].
      split; [eauto|]. intros ->. by pose proof (H3 _ _ _ Hk Hk').
  - intros k' h'. destruct (decide (k' = k)); [done|apply H2].
  - intros k1 k2 h'. destruct (decide (k1 = k)), (decide (k2 = k)); try done. apply H3.
Qed.
Lemma owned_moved base open hs k j : owned base open hs → k ≠ j → hs k = None → owned base open (set_owner k (hs j) (set_owner j None hs)).
Proof.
  intros (H1 & H2 & H3) Hne Hk. unfold set_owner. split_and!.
  - intros h. rewrite H1. split; (intros [?|[k' Hk']]; [by left|]; right).
    + destruct (decide (k' = j)) as [->|]; [exists k; by rewrite decide_True|]. exists k'.
      rewrite decide_False, decide_False; [done|done|congruence].
    + destruct (decide (k' = k)); [eauto|]. destruct (decide (k' = j)); [done|eauto].
  - intros k' h. destruct (decide (k' = k)); [apply H2|]. destruct (decide (k' = j)); [done|apply H2].
  - intros k1 k2 h. destruct (decide (k1 = k)), (decide (k2 = k)), (decide (k1 = j)), (decide (k2 = j)); subst; try done;
      intros E1 E2; try (by eapply H3); exfalso; [pose proof (H3 _ _ _ E1 E2); done|pose proof (H3 _ _ _ E1 E2); done].
Qed.

(** A descriptor is closed, when there is one. *)
Lemma closed_if_any base open hs k :
  owned base open hs →
  ∃ open', match hs k with None => Some open | Some h => os_close h open end = Some open' ∧ owned base open' (set_owner k None hs).
Proof.
  intros Ho. destruct (hs k) as [h|] eqn:E; [by apply owned_closed|]. exists open. split; [done|].
  eapply owned_ext; [done|]. intros k'. unfold set_owner. by destruct (decide (k' = k)) as [->|].
Qed.

(** ** The calls *)

(** A descriptor the system hands out is not open. *)
Definition new_handle (open : Descriptors) (h : option N) : bool :=
  match h with Some h => bool_decide (h ∉ open) | None => true end.

Lemma close_new h (open : Descriptors) : h ∉ open → os_close h ({[h]} ∪ open) = Some open.
Proof. intros Hn. unfold os_close. rewrite decide_True by set_solver. f_equal. apply set_eq. set_solver. Qed.

Lemma connect_loop_spec attempts open :
  forallb (new_handle open ∘ ca_handle) attempts = true →
  connect_loop attempts open = Some (open, None) ∨ ∃ h, h ∉ open ∧ connect_loop attempts open = Some ({[h]} ∪ open, Some h).
Proof.
  induction attempts as [|a rest IH]; [by left|]. cbn [forallb connect_loop]. unfold compose at 1, new_handle at 1.
  intros [Hh Hr]%andb_true_iff. destruct (ca_handle a) as [h|]; [|by apply IH]. apply bool_decide_eq_true in Hh.
  destruct (ca_connects a); [right; eauto|]. rewrite close_new by done. by apply IH.
Qed.
Lemma bind_loop_spec attempts open :
  forallb (new_handle open ∘ ba_handle) attempts = true →
  bind_loop attempts open = Some (open, default_ListenerObject) ∨
  ∃ h port, h ∉ open ∧ bind_loop attempts open = Some ({[h]} ∪ open, mkListenerObject (Some h) port).
Proof.
  induction attempts as [|a rest IH]; [by left|]. cbn [forallb bind_loop]. unfold compose at 1, new_handle at 1.
  intros [Hh Hr]%andb_true_iff. destruct (ba_handle a) as [h|]; [|by apply IH]. apply bool_decide_eq_true in Hh.
  destruct (ba_binds a && ba_listens a); [right; eauto|]. rewrite close_new by done. by apply IH.
Qed.

Lemma handles_put_socket s open i new k :
  handles (mkNetState open (<[i := new]> (ns_sockets s)) (ns_listeners s)) k = set_owner (Some (inl i)) (sk_handle new) (handles s) k.
Proof.
  unfold set_owner. case_decide as E; [subst k; cbn; unfold socket_at; cbn; by rewrite lookup_insert_eq|].
  destruct k as [[j|j]|]; [|done..]. cbn. unfold socket_at. cbn. rewrite lookup_insert_ne; [done|congruence].
Qed.
Lemma handles_put_listener s open i new k :
  handles (mkNetState open (ns_sockets s) (<[i := new]> (ns_listeners s))) k = set_owner (Some (inr i)) (ln_handle new) (handles s) k.
Proof.
  unfold set_owner. case_decide as E; [subst k; cbn; unfold listener_at; cbn; by rewrite lookup_insert_eq|].
  destruct k as [[j|j]|]; [done| |done]. cbn. unfold listener_at. cbn. rewrite lookup_insert_ne; [done|congruence].
Qed.

Lemma handles_move_socket s open i j target source k :
  handles (mkNetState open (<[i := target]> (<[j := source]> (ns_sockets s))) (ns_listeners s)) k =
  set_owner (Some (inl i)) (sk_handle target) (set_owner (Some (inl j)) (sk_handle source) (handles s)) k.
Proof.
  etrans; [exact (handles_put_socket (mkNetState open (<[j := source]> (ns_sockets s)) (ns_listeners s)) open i target k)|].
  unfold set_owner at 1 2. case_decide; [done|]. apply handles_put_socket.
Qed.
Lemma handles_move_listener s open i j target source k :
  handles (mkNetState open (ns_sockets s) (<[i := target]> (<[j := source]> (ns_listeners s)))) k =
  set_owner (Some (inr i)) (ln_handle target) (set_owner (Some (inr j)) (ln_handle source) (handles s)) k.
Proof.
  etrans; [exact (handles_put_listener (mkNetState open (ns_sockets s) (<[j := source]> (ns_listeners s))) open i target k)|].
  unfold set_owner at 1 2. case_decide; [done|]. apply handles_put_listener.
Qed.

(** Closing the object at a place gives up what it owns. *)
Lemma socket_close_owned base hs s open i closed :
  owned base open hs → hs (Some (inl i)) = sk_handle (socket_at i s) →
  ∃ open' code, socket_close closed (socket_at i s) open = Some (open', default_SocketObject, code) ∧
    owned base open' (set_owner (Some (inl i)) None hs).
Proof.
  intros Ho E. destruct (closed_if_any base open hs (Some (inl i)) Ho) as (open' & Ec & Ho'). rewrite E in Ec. unfold socket_close.
  destruct (sk_handle (socket_at i s)) as [h|]; [rewrite Ec|simplify_eq]; eauto.
Qed.
Lemma listener_close_owned base hs s open i closed :
  owned base open hs → hs (Some (inr i)) = ln_handle (listener_at i s) →
  ∃ open' code, listener_close closed (listener_at i s) open = Some (open', default_ListenerObject, code) ∧
    owned base open' (set_owner (Some (inr i)) None hs).
Proof.
  intros Ho E. destruct (closed_if_any base open hs (Some (inr i)) Ho) as (open' & Ec & Ho'). rewrite E in Ec. unfold listener_close.
  destruct (ln_handle (listener_at i s)) as [h|]; [rewrite Ec|simplify_eq]; eauto.
Qed.

(** What an owner had is moved to a place that was closed. *)
Lemma owned_replaced base open hs k j v :
  owned base open (set_owner k None hs) → k ≠ j → hs j = v → owned base open (set_owner k v (set_owner j None hs)).
Proof.
  intros Ho Hne Hv. eapply owned_ext; [refine (owned_moved _ _ _ k j Ho Hne _); unfold set_owner; by rewrite decide_True|].
  intros k'. unfold set_owner. rewrite (decide_False (P := j = k)) by done. rewrite Hv.
  destruct (decide (k' = k)); [done|]. by destruct (decide (k' = j)).
Qed.

(** A returned socket or listener is kept at its place. *)
Lemma keep_socket_owned base s open i new h :
  owned base open (set_owner None (Some h) (handles s)) → sk_handle new = Some h →
  ∃ s', keep_socket i (success new) open s = Some s' ∧ owned_once base s'.
Proof.
  intros Ho Eh. destruct (socket_close_owned base _ s open i true Ho) as (open' & code & Ec & Ho'); [done|].
  unfold keep_socket, socket_move. rewrite Ec. cbn. eexists; split; [done|].
  eapply owned_ext; [refine (owned_replaced base open' _ (Some (inl i)) None (Some h) Ho' _ _); done|].
  intros k. cbn [ns_open]. rewrite handles_put_socket, Eh. unfold set_owner. destruct (decide (k = Some (inl i))); [done|].
  by destruct (decide (k = None)) as [->|].
Qed.
Lemma keep_listener_owned base s open i new h :
  owned base open (set_owner None (Some h) (handles s)) → ln_handle new = Some h →
  ∃ s', keep_listener i (success new) open s = Some s' ∧ owned_once base s'.
Proof.
  intros Ho Eh. destruct (listener_close_owned base _ s open i true Ho) as (open' & code & Ec & Ho'); [done|].
  unfold keep_listener, listener_move. rewrite Ec. cbn. eexists; split; [done|].
  eapply owned_ext; [refine (owned_replaced base open' _ (Some (inr i)) None (Some h) Ho' _ _); done|].
  intros k. cbn [ns_open]. rewrite handles_put_listener, Eh. unfold set_owner. destruct (decide (k = Some (inr i))); [done|].
  by destruct (decide (k = None)) as [->|].
Qed.

(** ** Runs *)

(** What the system promises for an operation. *)
Definition system_allows (o : net_op) (open : Descriptors) : bool :=
  match o with
  | Connect _ _ _ (Some attempts) => forallb (new_handle open ∘ ca_handle) attempts
  | Bind _ (Some attempts) => forallb (new_handle open ∘ ba_handle) attempts
  | Accept _ _ accepted => new_handle open accepted
  | _ => true
  end.
Fixpoint run_allowed (os : list net_op) (s : NetState) : bool :=
  match os with
  | [] => true
  | o :: os => system_allows o (ns_open s) && match exec_net o s with Some s => run_allowed os s | None => true end
  end.

Lemma exec_net_owned base o s :
  owned_once base s → system_allows o (ns_open s) = true → ∃ s', exec_net o s = Some s' ∧ owned_once base s'.
Proof.
  intros Ho Ha. destruct o as [i host port [attempts|]|i [attempts|]|l i accepted|i j|i j|i closed|i closed|i]; cbn in Ha |- *.
  - destruct (connect_loop_spec _ _ Ha) as [E|(h & Hn & E)]; rewrite E; cbn; [by eexists|].
    eapply keep_socket_owned; [by apply owned_new|done].
  - by eexists.
  - destruct (bind_loop_spec _ _ Ha) as [E|(h & port & Hn & E)]; rewrite E; cbn; [by eexists|].
    eapply keep_listener_owned; [by apply owned_new|done].
  - by eexists.
  - unfold listener_accept. destruct (ln_handle (listener_at l s)); [|by eexists]. destruct accepted as [h|]; [|by eexists].
    apply bool_decide_eq_true in Ha. eapply keep_socket_owned; [by apply owned_new|done].
  - case_decide as Hij; [by eexists|]. destruct (socket_close_owned base _ s (ns_open s) i true Ho) as (open' & code & Ec & Ho'); [done|].
    unfold socket_move. rewrite Ec. cbn. eexists; split; [done|].
    eapply owned_ext; [refine (owned_replaced base open' _ (Some (inl i)) (Some (inl j)) (sk_handle (socket_at j s)) Ho' _ _); [congruence|done]|].
    intros k. exact (handles_move_socket s open' i j _ _ k).
  - case_decide as Hij; [by eexists|]. destruct (listener_close_owned base _ s (ns_open s) i true Ho) as (open' & code & Ec & Ho'); [done|].
    unfold listener_move. rewrite Ec. cbn. eexists; split; [done|].
    eapply owned_ext; [refine (owned_replaced base open' _ (Some (inr i)) (Some (inr j)) (ln_handle (listener_at j s)) Ho' _ _); [congruence|done]|].
    intros k. exact (handles_move_listener s open' i j _ _ k).
  - destruct (socket_close_owned base _ s (ns_open s) i closed Ho) as (open' & code & Ec & Ho'); [done|]. rewrite Ec. cbn.
    eexists; split; [done|]. eapply owned_ext; [done|]. intros k. cbn [ns_open]. by rewrite handles_put_socket.
  - destruct (listener_close_owned base _ s (ns_open s) i closed Ho) as (open' & code & Ec & Ho'); [done|]. rewrite Ec. cbn.
    eexists; split; [done|]. eapply owned_ext; [done|]. intros k. cbn [ns_open]. by rewrite handles_put_listener.
  - eexists; split; [done|]. eapply owned_ext; [done|]. intros k. cbn [ns_open]. rewrite handles_put_listener. unfold set_owner.
    by destruct (decide (k = Some (inr i))) as [->|].
Qed.

(** C37: descriptors are owned once.  Whatever a process does with its sockets
    and listeners, one call after another, and whatever the resolver and the
    system calls answer, as long as the system does not hand out a descriptor
    that is open (a descriptor is gone once its close returns): it never closes a
    descriptor it does not have, and at every moment the open descriptors are
    those it was started with and exactly those its sockets and listeners own,
    each by one of them.  So failed attempts leave nothing open, and once
    everything is closed only the first ones are. *)
Theorem descriptors_are_owned_once base os :
  run_allowed os (mkNetState base ∅ ∅) = true →
  ∃ s, run_net os (mkNetState base ∅ ∅) = Some s ∧ owned_once base s ∧
    ((∀ k, handles s k = None) → ns_open s = base).
Proof.
  intros Ha. assert (∃ s, run_net os (mkNetState base ∅ ∅) = Some s ∧ owned_once base s) as (s & E & Ho).
  { assert (owned_once base (mkNetState base ∅ ∅)) as H0.
    { split_and!; cbn; [|by intros [[]|]..]. intros h. split; [by left|]. intros [?|[[[]|] ?]]; done. }
    revert Ha H0. generalize (mkNetState base ∅ ∅). induction os as [|o os IH]; intros s Ha Ho; cbn [run_net run_allowed] in *; [by eexists|].
    apply andb_true_iff in Ha as [Ha Hr]. destruct (exec_net_owned base o s Ho Ha) as (s' & E & Ho'). rewrite E in Hr |- *. by apply IH. }
  exists s. split_and!; [done|done|]. intros Hn. destruct Ho as (H1 & _). apply set_eq. intros h. rewrite H1.
  split; [|by left]. intros [?|[k Hk]]; [done|]. by rewrite Hn in Hk.
Qed.

(** The standard streams. *)
Definition standard : Descriptors := {[0%N; 1%N; 2%N]}.
Definition sample_net : list net_op :=
  [Bind 0 (Some [mkBindAttempt (Some 3) false true None; mkBindAttempt (Some 3) true true (Some 4100)]);
   Accept 0 0 (Some 4); Connect 1 "host" 4100 (Some [mkConnectAttempt (Some 5) false; mkConnectAttempt (Some 6) true]);
   MoveSocket 0 1; MoveListener 1 0; CloseSocket 0 false; CloseSocket 0 true; CloseListener 1 true]%N.
Lemma descriptors_are_owned_once_witness :
  ∃ s, run_net sample_net (mkNetState standard ∅ ∅) = Some s ∧ owned_once standard s ∧
    ((∀ k, handles s k = None) → ns_open s = standard).
Proof. refine (descriptors_are_owned_once standard sample_net _). vm_compute. reflexivity. Defined.
