(* ===== verification/Text.v ===== *)
(** * Text: what the programs use of [std::string] and [<cstdlib>]

    Searching, cutting and splitting of strings, and the decimal and
    hexadecimal conversions [strtoll] and [strtoull], as the agent and the
    command line programs use them. *)
From Stdlib Require Import Strings.Ascii Strings.String.
From S2P Require Import Prelude Transport.

(** ** Searching *)

(** [text.find(needle)]: where the needle occurs first. *)
Fixpoint find_text (needle text : string) : option nat :=
  if String.prefix needle text then Some 0 else
  match text with
  | EmptyString => None
  | String _ rest => S <$> find_text needle rest
  end.

(** [text.rfind(needle, pos)]: where it occurs last, starting no later than [pos]. *)
Fixpoint rfind_text (needle : string) (pos : nat) (text : string) : option nat :=
  let here := if String.prefix needle text then Some 0 else None in
  match text, pos with
  | String _ rest, S pos =>
      match rfind_text needle pos rest with Some i => Some (S i) | None => here end
  | _, _ => here
  end.

(** [text.substr(n)]. *)
Fixpoint drop_text (n : nat) (text : string) : string :=
  match n, text with
  | S n, String _ rest => drop_text n rest
  | _, _ => text
  end.

(** The text up to the first character that ends a field, or all of it. *)
Fixpoint until (stop : ascii → bool) (text : string) : string :=
  match text with
  | EmptyString => EmptyString
  | String c rest => if stop c then EmptyString else String c (until stop rest)
  end.

Definition newline : ascii := "010".
Definition newline_text : string := String newline EmptyString.
Definition is_char (c d : ascii) : bool := Ascii.eqb d c.

(** ** Splitting *)

(** The words of a text between separators that are never kept; [current] is
    the word read so far. *)
Fixpoint words_from (blank : ascii → bool) (current text : string) : list string :=
  match text with
  | EmptyString => if decide (current = EmptyString) then [] else [current]
  | String c rest =>
      if blank c then
        (if decide (current = EmptyString) then id else cons current) (words_from blank EmptyString rest)
      else words_from blank (current +:+ String c EmptyString) rest
  end.

(** The parts of a text between separators, empty ones included. *)
Fixpoint parts_from (separator : ascii) (current text : string) : list string :=
  match text with
  | EmptyString => [current]
  | String c rest =>
      if Ascii.eqb c separator then current :: parts_from separator EmptyString rest
      else parts_from separator (current +:+ String c EmptyString) rest
  end.

(** ** Numbers *)

(** The value of a digit in a base up to sixteen. *)
Definition digit_in (base : Z) (c : ascii) : option Z :=
  let n := Z.of_nat (nat_of_ascii c) in
  let d := if (48 <=? n)%Z && (n <=? 57)%Z then Some (n - 48)%Z else
           if (97 <=? n)%Z && (n <=? 102)%Z then Some (n - 87)%Z else
           if (65 <=? n)%Z && (n <=? 70)%Z then Some (n - 55)%Z else None in
  match d with Some d => if (d <? base)%Z then Some d else None | None => None end.

(** The digits at the front of a text, and what follows them. *)
Fixpoint take_digits (base acc : Z) (text : string) : Z * string :=
  match text with
  | EmptyString => (acc, text)
  | String c rest =>
      match digit_in base c with
      | Some d => take_digits base (base * acc + d)%Z rest
      | None => (acc, text)
      end
  end.

(** The sign: whether the number is negative, and the text after it. *)
Definition take_sign (text : string) : bool * string :=
  match text with
  | String c rest => if Ascii.eqb c "-" then (true, rest) else if Ascii.eqb c "+" then (false, rest) else (false, text)
  | EmptyString => (false, text)
  end.

(** In base sixteen a number may start with [0x], when a digit follows. *)
Definition skip_prefix (base : Z) (text : string) : string :=
  match text with
  | String z (String x (String d rest)) =>
      if (base =? 16)%Z && Ascii.eqb z "0" && (Ascii.eqb x "x" || Ascii.eqb x "X") && bool_decide (is_Some (digit_in 16 d))
      then String d rest else text
  | _ => text
  end.

(** Sign, magnitude and rest of the number a text starts with; without a digit
    there is no number. *)
Definition scan_number (base : Z) (text : string) : option (bool * Z * string) :=
  let '(negative, body) := take_sign (skip_space text) in
  match skip_prefix base body with
  | String c rest =>
      match digit_in base c with
      | Some d => let '(v, rest) := take_digits base d rest in Some (negative, v, rest)
      | None => None
      end
  | EmptyString => None
  end.

(** [strtoull]: a magnitude that does not fit is clamped, a negative number is
    taken modulo two to the sixty-fourth, no number is zero. *)
Definition strtoull (base : Z) (text : string) : N :=
  match scan_number base text with
  | None => 0
  | Some (negative, v, _) =>
      if (Z.of_N u64_max <? v)%Z then u64_max
      else Z.to_N (if negative : bool then (- v) mod Z.of_N two64 else v)
  end.

(** [strtoll] in base ten, with the text [end] points at. *)
Definition strtoll (text : string) : Z * string :=
  match scan_number 10 text with
  | None => (0%Z, text)
  | Some (negative, v, rest) => (Z.max (- 2 ^ 63) (Z.min (2 ^ 63 - 1) (if negative : bool then - v else v)), rest)
  end.

(** [*end == '\0']: the end of the text or a null character in it. *)
Definition at_nul (text : string) : bool :=
  match text with EmptyString => true | String c _ => Ascii.eqb c "000" end.

(** ** Lemmas *)

Lemma app_cons_string c (a b : string) : String c a +:+ b = String c (a +:+ b).
Proof. done. Qed.
Lemma app_nil_string (s : string) : s +:+ "" = s.
Proof. induction s as [|c s IH]; [done|]. by rewrite app_cons_string, IH. Qed.
Lemma app_assoc_string (a b c : string) : (a +:+ b) +:+ c = a +:+ (b +:+ c).
Proof. induction a as [|x a IH]; [done|]. by rewrite !app_cons_string, IH. Qed.
Lemma prefix_app needle text : String.prefix needle (needle +:+ text) = true.
Proof.
  induction needle as [|c n IH]; [by destruct text|]. rewrite app_cons_string. cbn [String.prefix].
  by destruct (ascii_dec c c).
Qed.
Lemma drop_text_app a b : drop_text (String.length a) (a +:+ b) = b.
Proof. induction a as [|c a IH]; [by destruct b|]. exact IH. Qed.
Lemma length_app_string a b : String.length (a +:+ b) = String.length a + String.length b.
Proof. induction a as [|c a IH]; [done|]. rewrite app_cons_string. cbn [String.length]. lia. Qed.
Lemma drop_text_add n m s : drop_text (n + m) s = drop_text m (drop_text n s).
Proof. revert s. induction n as [|n IH]; intros s; [done|]. destruct s; [by destruct m|]. exact (IH s). Qed.

(** All characters of a text satisfy a test. *)
Fixpoint all_chars (p : ascii → bool) (s : string) : bool :=
  match s with EmptyString => true | String c s => p c && all_chars p s end.

Lemma all_chars_app p a b : all_chars p (a +:+ b) = all_chars p a && all_chars p b.
Proof. induction a as [|c a IH]; [done|]. rewrite app_cons_string. cbn [all_chars]. by rewrite IH, andb_assoc. Qed.
Lemma all_chars_weaken p q s : (∀ c, p c = true → q c = true) → all_chars p s = true → all_chars q s = true.
Proof. intros Hpq. induction s as [|c s IH]; [done|]. cbn. rewrite !andb_true_iff. intros [? ?]. auto. Qed.

Lemma until_app stop a c b :
  all_chars (λ c, negb (stop c)) a = true → stop c = true → until stop (a +:+ String c b) = a.
Proof.
  induction a as [|x a IH]; intros Ha Hc; [change ("" +:+ String c b) with (String c b); cbn; by rewrite Hc|]. rewrite app_cons_string.
  cbn in *. apply andb_true_iff in Ha as [Hx Ha]. destruct (stop x); [done|]. by rewrite IH.
Qed.
Lemma until_all stop a : all_chars (λ c, negb (stop c)) a = true → until stop a = a.
Proof. induction a as [|x a IH]; cbn; [done|]. intros [Hx Ha]%andb_true_iff. destruct (stop x); [done|]. by rewrite IH. Qed.

(** ** Numbers and their text *)

Lemma digit_in_ten c : digit_in 10 c = digit_of c.
Proof. destruct c as [[] [] [] [] [] [] [] []]; reflexivity. Qed.
Lemma take_digits_ten acc s : (take_digits 10 acc s).1 = digits acc s.
Proof. revert acc. induction s as [|c s IH]; intros acc; cbn; [done|]. rewrite digit_in_ten. by destruct (digit_of c). Qed.
Lemma take_digits_all acc s : all_digits s = true → (take_digits 10 acc s).2 = ""%string.
Proof.
  revert acc. induction s as [|c s IH]; intros acc; cbn; [done|]. rewrite digit_in_ten.
  intros [[d Hd]%bool_decide_eq_true Hs]%andb_true_iff. rewrite Hd. by apply IH.
Qed.

(** The decimal text of a number is scanned to that number and nothing is left. *)
Lemma scan_pretty n : scan_number 10 (pretty n) = Some (false, Z.of_N n, ""%string).
Proof.
  destruct (pretty_digits n) as (Hd & Ha & Hne). destruct (pretty n) as [|c s]; [done|].
  assert (Hc : ∃ d, digit_of c = Some d) by (cbn [all_digits] in Ha; by apply andb_true_iff in Ha as [[d Hd']%bool_decide_eq_true _]; eauto).
  destruct Hc as [d Hc]. assert (Ha' : all_digits s = true) by (cbn [all_digits] in Ha; by apply andb_true_iff in Ha as [_ ?]).
  assert (Hs : take_sign (skip_space (String c s)) = (false, String c s)).
  { clear -Hc. destruct c as [[] [] [] [] [] [] [] []]; try discriminate Hc; reflexivity. }
  unfold scan_number. rewrite Hs. assert (Hp : skip_prefix 10 (String c s) = String c s) by (by destruct s as [|? []]).
  rewrite Hp, digit_in_ten, Hc. destruct (take_digits 10 d s) as [v rest] eqn:E.
  pose proof (take_digits_ten d s) as Hv. pose proof (take_digits_all d s Ha') as Hr. rewrite E in Hv, Hr. cbn in Hv, Hr. subst.
  rewrite <-Hd. do 3 f_equal. cbn [digits]. by rewrite Hc.
Qed.

Lemma strtoull_pretty n : (n < two64)%N → strtoull 10 (pretty n) = n.
Proof.
  intros Hn. unfold strtoull. rewrite scan_pretty. unfold u64_max, two64 in *.
  destruct (Z.ltb_spec (Z.of_N 18446744073709551615) (Z.of_N n)); [lia|]. apply N2Z.id.
Qed.
