(* ===== verification/Client.v ===== *)
(** * The control client ([include/coherence/client.hpp], [src/client.cpp])

    The handshake, the request and response exchange and the orderly end of a
    connection, over the sockets of [Transport.v].  What [Socket::connect]
    returns is an argument. *)
From Stdlib Require Import Strings.Byte Strings.String.
From S2P Require Import Prelude Ids Enums Status Bytes Policy Evidence Model Decisions Persistence.
From S2P Require Import Serialize Codec Messages Checksum Framing Protocol Transport.

#[local] Set Primitive Projections.

(** [ClientOptions], less the address. *)
Record ClientOptions := mkClientOptions {
  cl_participant_name : string;
  cl_boot : ParticipantBootId;
  cl_node_label : string;
  cl_observer : bool;
  cl_frame_limits : FrameLimits }.

Record ControlClient := mkControlClient {
  cl_socket : Socket;
  cl_session : HelloResponse;
  cl_options : ClientOptions;
  cl_next_sequence : N;
  cl_next_correlation : N;
  cl_frames : FrameLimits }.
#[export] Instance eta_ControlClient : Eta ControlClient := fun c => mkControlClient
  (cl_socket c) (cl_session c) (cl_options c) (cl_next_sequence c) (cl_next_correlation c) (cl_frames c).

Record Exchange := mkExchange { ex_envelope : ResponseEnvelope; ex_payload : list byte }.

#[local] Unset Primitive Projections.

Definition default_HelloResponse : HelloResponse :=
  mkHelloResponse nil_uuid nil_id 0 0 "" 0 nil_id false.
Definition default_ClientOptions : ClientOptions := mkClientOptions "" nil_uuid "" false default_FrameLimits.
Definition default_ControlClient : ControlClient :=
  mkControlClient no_socket default_HelloResponse default_ClientOptions 1 1 default_FrameLimits.

(** The header of the next frame, and the client after it took its numbers. *)
Definition next_header (type : MessageType.t) (cl : ControlClient) : FrameHeader :=
  mkFrameHeader protocol_version type 0 (hr_session (cl_session cl)) (hr_epoch (cl_session cl))
    (cl_next_sequence cl) (cl_next_correlation cl).
Definition take_numbers (cl : ControlClient) : ControlClient :=
  cl <| cl_next_sequence ::= u64_succ |> <| cl_next_correlation ::= u64_succ |>.

(** The hello a client sends. *)
Definition client_hello (build : string) (cl : ControlClient) : HelloRequest :=
  mkHelloRequest protocol_version kPersistenceSchema build (cl_participant_name (cl_options cl))
    (cl_boot (cl_options cl)) (cl_node_label (cl_options cl)) (cl_next_correlation cl) (cl_observer (cl_options cl)).

(** [ControlClient::connect_and_handshake].  The session of a client whose
    acknowledgement does not decode is left as it was; the code may have
    overwritten some of its fields by then. *)
Definition connect_and_handshake (build : string) (options : ClientOptions) (connected : result Socket)
    (cl : ControlClient) : ControlClient * StatusCode.t :=
  let cl := cl <| cl_options := options |> <| cl_frames := cl_frame_limits options |> in
  match connected with
  | failure e => (cl, e)
  | success socket =>
      let hello := client_hello build cl in
      let header := mkFrameHeader protocol_version MessageType.Hello 0 nil_uuid nil_id (cl_next_sequence cl) (hq_nonce hello) in
      let cl := take_numbers (cl <| cl_socket := socket |>) in
      let '(socket, sent) := write_frame header (encode_hello_request hello) (cl_socket cl) in
      let cl := cl <| cl_socket := socket |> in
      if negb (ok sent) then (cl, sent) else
      let '(socket, received) := receive_frame (cl_frames cl) (cl_socket cl) in
      let cl := cl <| cl_socket := socket |> in
      match received with
      | failure e => (cl, e)
      | success frame =>
          if decide (fh_type (f_header frame) = MessageType.HelloAck) then
            match decode_hello_response default_decode_limits (f_body frame) with
            | Read session _ =>
                (cl <| cl_session := session |>,
                 if (hr_protocol_version session =? protocol_version)%N then StatusCode.Ok else StatusCode.UnsupportedSchema)
            | _ => (cl, StatusCode.ProtocolViolation)
            end
          else if decide (fh_type (f_header frame) = MessageType.Response) then
            match decode_response_envelope default_decode_limits (f_body frame) with
            | Read envelope _ => (cl, re_code envelope)
            | _ => (cl, StatusCode.ProtocolViolation)
            end
          else (cl, StatusCode.ProtocolViolation)
      end
  end.

(** What a response frame holds for a request with a correlation. *)
Definition open_response (correlation : N) (frame : Frame) : result Exchange :=
  if decide (fh_type (f_header frame) ≠ MessageType.Response) then failure StatusCode.ProtocolViolation else
  if negb (fh_correlation (f_header frame) =? correlation)%N then failure StatusCode.ProtocolViolation else
  match decode_response_envelope default_decode_limits (f_body frame) with
  | Read envelope rest => success (mkExchange envelope rest)
  | _ => failure StatusCode.ProtocolViolation
  end.

(** [ControlClient::request]. *)
Definition request (type : MessageType.t) (body : list byte) (cl : ControlClient) : ControlClient * result Exchange :=
  if negb (so_valid (cl_socket cl)) then (cl, failure StatusCode.TransportFailure) else
  let header := next_header type cl in
  let cl := take_numbers cl in
  let '(socket, sent) := write_frame header body (cl_socket cl) in
  let cl := cl <| cl_socket := socket |> in
  if negb (ok sent) then (cl, failure sent) else
  let '(socket, received) := receive_frame (cl_frames cl) (cl_socket cl) in
  (cl <| cl_socket := socket |>,
   match received with failure e => failure e | success frame => open_response (fh_correlation header) frame end).

(** [ControlClient::ping]. *)
Definition ping (nonce : N) (cl : ControlClient) : ControlClient * result Exchange :=
  request MessageType.Ping (ByteWriter.u64 nonce) cl.

(** [ControlClient::close]; [closed] is what the system reports for the handle. *)
Definition close_client (closed : StatusCode.t) (cl : ControlClient) : ControlClient * StatusCode.t :=
  let cl :=
    if so_valid (cl_socket cl) then
      let header := next_header MessageType.Goodbye cl in
      let cl := take_numbers cl in cl <| cl_socket := (write_frame header [] (cl_socket cl)).1 |>
    else cl in
  let '(socket, shut) := shutdown (cl_socket cl) in
  let '(socket, closed) := close closed socket in
  (cl <| cl_socket := socket |>, if ok closed then shut else closed).

(** [decode_exchange_envelope]. *)
Definition decode_exchange_envelope (e : Exchange) : option ResponseEnvelope :=
  if decide (status_code_name (re_code (ex_envelope e)) = "unknown_status"%string) then None else Some (ex_envelope e).
