(* ===== verification/Files.v ===== *)
(** * Files ([include/coherence/platform_file.hpp], [src/platform_file.cpp])

    The file primitives of the durable store, on their POSIX side, over a small
    model of the operating system: a tree of named nodes and a script that says
    how each system call turns out.  A call may succeed, fail, be interrupted,
    transfer only part of its data, or be the one during which the process dies;
    after its death no call has any effect, so a run with a dying call is the
    run of a process that crashed there.  Bytes that were written stay written:
    the crash modelled is that of the process, not of the machine. *)
From Stdlib Require Import Strings.Byte Strings.String.
From S2P Require Import Prelude Enums Status Serialize.

(** ** The operating system *)

Inductive node :=
| File (bytes : list byte)
| Directory.

(** How one system call turns out. *)
Inductive event :=
| Succeeds
| Fails
| Interrupted
| Transfers (n : nat)
| Dies (n : nat).

(** The disk as one process sees it: the nodes, the outcomes to come, whether
    the process is dead, its identity, and the counter of [unique_sibling]. *)
Record Disk := mkDisk {
  nodes : gmap string node;
  script : list event;
  dead : bool;
  process_id : N;
  sibling_counter : N }.
#[export] Instance eta_Disk : Eta Disk := fun d => mkDisk
  (nodes d) (script d) (dead d) (process_id d) (sibling_counter d).

(** A new process on the same disk, with the outcomes it is going to see. *)
Definition restart (pid : N) (events : list event) (d : Disk) : Disk := mkDisk (nodes d) events false pid 0.

(** A system call takes the next event of the script, success once the script
    is over; a dead process only sees failures. *)
Definition next_event (d : Disk) : Disk * event :=
  if dead d then (d, Fails) else
  match script d with
  | [] => (d, Succeeds)
  | e :: rest =>
      match e with
      | Dies _ => (d <| script := rest |> <| dead := true |>, e)
      | _ => (d <| script := rest |>, e)
      end
  end.

(** A call without a partial outcome: it takes effect entirely or not at all. *)
Definition attempt (effect : gmap string node → option (gmap string node)) (d : Disk) : Disk * bool :=
  let '(d', e) := next_event d in
  match e, effect (nodes d) with
  | Succeeds, Some nodes' => (d' <| nodes := nodes' |>, true)
  | Transfers _, Some nodes' => (d' <| nodes := nodes' |>, true)
  | _, _ => (d', false)
  end.

(** [open] with [O_CREAT | O_APPEND]; a directory cannot be opened to write. *)
Definition os_create (path : string) : Disk → Disk * bool :=
  attempt (λ ns, match ns !! path with
                 | None => Some (<[path := File []]> ns)
                 | Some (File _) => Some ns
                 | Some Directory => None
                 end).

(** [open] to read, and [stat]: the name must be there. *)
Definition os_find (path : string) : Disk → Disk * bool :=
  attempt (λ ns, match ns !! path with None => None | Some _ => Some ns end).

(** [fsync], [close], [fstat] on a descriptor: their outcome alone. *)
Definition os_call : Disk → Disk * bool := attempt Some.

(** [rename]: the target is replaced in one step. *)
Definition os_rename (from to : string) : Disk → Disk * bool :=
  attempt (λ ns, match ns !! from with None => None | Some n => Some (<[to := n]> (delete from ns)) end).

(** [unlink]: nothing to remove is not an error for its caller. *)
Definition os_unlink (path : string) : Disk → Disk * bool := attempt (λ ns, Some (delete path ns)).

(** [mkdir]. *)
Definition os_mkdir (path : string) : Disk → Disk * bool := attempt (λ ns, Some (<[path := Directory]> ns)).

(** What [write] and [read] report: how many bytes, an interruption, an error. *)
Inductive transfer := Moved (n : nat) | Again | Broken.

Definition append_bytes (path : string) (bytes : list byte) (ns : gmap string node) : gmap string node :=
  match ns !! path with
  | Some (File old) => <[path := File (old ++ bytes)]> ns
  | _ => ns
  end.

(** [write] on a descriptor opened with [O_APPEND]; dying leaves a part of the
    data in the file. *)
Definition os_write (path : string) (chunk : list byte) (d : Disk) : Disk * transfer :=
  let '(d', e) := next_event d in
  match e with
  | Succeeds => (d' <| nodes ::= append_bytes path chunk |>, Moved (length chunk))
  | Transfers n => (d' <| nodes ::= append_bytes path (take n chunk) |>, Moved (length (take n chunk)))
  | Interrupted => (d', Again)
  | Dies n => (d' <| nodes ::= append_bytes path (take n chunk) |>, Broken)
  | Fails => (d', Broken)
  end.

(** [read] of at most [want] bytes that start at [offset]. *)
Definition os_read (d : Disk) (want : nat) : Disk * transfer :=
  let '(d', e) := next_event d in
  match e with
  | Succeeds => (d', Moved want)
  | Transfers n => (d', Moved (min n want))
  | Interrupted => (d', Again)
  | _ => (d', Broken)
  end.

(** ** [FileHandle] *)

(** The open descriptor is known by the path it was opened at: every handle is
    closed before its file is renamed. *)
Record FileHandle := mkFileHandle { h_path : option string; h_size : N }.
#[export] Instance eta_FileHandle : Eta FileHandle := fun h => mkFileHandle (h_path h) (h_size h).
Definition no_handle : FileHandle := mkFileHandle None 0.

(** [FileHandle::valid]. *)
Definition valid (h : FileHandle) : bool := bool_decide (is_Some (h_path h)).

Definition node_size (n : option node) : N :=
  match n with Some (File bytes) => N.of_nat (length bytes) | _ => 0 end.

(** [FileHandle::open_append]: open, then size. *)
Definition open_append (path : string) (d : Disk) : Disk * result FileHandle :=
  let '(d, opened) := os_create path d in
  if negb opened then (d, failure StatusCode.PersistenceFailure) else
  let '(d, sized) := os_call d in
  if negb sized then ((os_call d).1, failure StatusCode.PersistenceFailure) else
  (d, success (mkFileHandle (Some path) (node_size (nodes d !! path)))).

Definition kMaxTransferChunk : N := 0x40000000.

(** [remaining > kMaxTransferChunk ? kMaxTransferChunk : remaining] bytes. *)
Definition chunk_of (data : list byte) : list byte :=
  if (kMaxTransferChunk <? N.of_nat (length data))%N then take (N.to_nat kMaxTransferChunk) data else data.

(** [FileHandle::write]: a loop over what [write] accepts; interrupted calls are
    repeated, and a call that moves nothing is an error. *)
Fixpoint write_loop (fuel : nat) (path : string) (data : list byte) (h : FileHandle) (d : Disk)
  : Disk * (FileHandle * StatusCode.t) :=
  match data, fuel with
  | [], _ => (d, (h, StatusCode.Ok))
  | _, O => (d, (h, StatusCode.PersistenceFailure))
  | _, S fuel =>
      let '(d, moved) := os_write path (chunk_of data) d in
      match moved with
      | Again => write_loop fuel path data h d
      | Broken | Moved O => (d, (h, StatusCode.PersistenceFailure))
      | Moved n => write_loop fuel path (drop n data) (h <| h_size ::= λ s, u64_add s (N.of_nat n) |>) d
      end
  end.

Definition write (data : list byte) (h : FileHandle) (d : Disk) : Disk * (FileHandle * StatusCode.t) :=
  match h_path h with
  | None => (d, (h, StatusCode.PersistenceFailure))
  | Some path => write_loop (length data + length (script d)) path data h d
  end.

(** [FileHandle::flush]. *)
Definition flush (h : FileHandle) (d : Disk) : Disk * StatusCode.t :=
  if negb (valid h) then (d, StatusCode.PersistenceFailure) else
  let '(d, done) := os_call d in (d, if done then StatusCode.Ok else StatusCode.PersistenceFailure).

(** [FileHandle::close]: the handle is reset whatever the call says. *)
Definition close (h : FileHandle) (d : Disk) : Disk * (FileHandle * StatusCode.t) :=
  if negb (valid h) then (d, (no_handle, StatusCode.Ok)) else
  let '(d, done) := os_call d in
  (d, (no_handle, if done then StatusCode.Ok else StatusCode.PersistenceFailure)).

(** ** Whole files *)

(** [path_exists]: an error of the query reads as absence. *)
Definition path_exists (path : string) (d : Disk) : Disk * bool := os_find path d.

(** [query_file_size]: none for a directory, an absent file or an error. *)
Definition query_file_size (path : string) (d : Disk) : Disk * option N :=
  let '(d, found) := os_find path d in
  (d, if found then
        match nodes d !! path with Some (File bytes) => Some (N.of_nat (length bytes)) | _ => None end
      else None).

(** The read loop: [got] bytes are in; it ends when all [size] bytes are, or
    when the file has no more. *)
Fixpoint read_loop (fuel : nat) (path : string) (size : nat) (got : list byte) (d : Disk)
  : Disk * result (list byte) :=
  if decide (size ≤ length got) then (d, success got) else
  match fuel with
  | O => (d, failure StatusCode.PersistenceFailure)
  | S fuel =>
      let here := match nodes d !! path with Some (File bytes) => drop (length got) bytes | _ => [] end in
      let '(d, moved) := os_read d (min (size - length got) (length here)) in
      match moved with
      | Again => read_loop fuel path size got d
      | Broken => (d, failure StatusCode.PersistenceFailure)
      | Moved O => (d, success got)
      | Moved n => read_loop fuel path size (got ++ take n here) d
      end
  end.

(** [read_entire_file]: a probe of the size through a descriptor, the size
    again by name, then the bytes. *)
Definition read_entire_file (path : string) (max_bytes : N) (d : Disk) : Disk * result (list byte) :=
  let '(d, probed) := os_find path d in
  if negb probed then (d, failure StatusCode.PersistenceFailure) else
  let '(d, sized) := os_call d in
  let '(d, _) := os_call d in
  if negb sized then (d, failure StatusCode.PersistenceFailure) else
  match nodes d !! path with
  | Some Directory => (d, failure StatusCode.UnknownRequest)
  | probe =>
      if (max_bytes <? node_size probe)%N then (d, failure StatusCode.OversizedInput) else
      let '(d, size) := query_file_size path d in
      match size with
      | None => (d, failure StatusCode.UnknownRequest)
      | Some size =>
          let '(d, opened) := os_find path d in
          if negb opened then (d, failure StatusCode.PersistenceFailure) else
          let '(d, read) := read_loop (N.to_nat size + length (script d)) path (N.to_nat size) [] d in
          ((os_call d).1, read)
      end
  end.

(** [remove_file]. *)
Definition remove_file (path : string) (d : Disk) : Disk * StatusCode.t :=
  let '(d, done) := os_unlink path d in (d, if done then StatusCode.Ok else StatusCode.PersistenceFailure).

(** [unique_sibling]: the process and its counter make the name. *)
Definition sibling_of (path : string) (pid n : N) : string := path +:+ ".tmp-" +:+ pretty pid +:+ "-" +:+ pretty n.
Definition unique_sibling (path : string) (d : Disk) : Disk * string :=
  (d <| sibling_counter ::= u64_succ |>, sibling_of path (process_id d) (sibling_counter d)).

(** [atomic_replace_file]: write a sibling, flush and close it, rename it over
    the target, flush the directory. *)
Definition atomic_replace_file (path : string) (data : list byte) (d : Disk) : Disk * StatusCode.t :=
  let '(d, temp) := unique_sibling path d in
  let '(d, opened) := open_append temp d in
  match opened with
  | failure c => (d, c)
  | success handle =>
      let '(d, (handle, wrote)) := write data handle d in
      if negb (ok wrote) then
        let '(d, _) := close handle d in ((remove_file temp d).1, wrote)
      else
      let '(d, flushed) := flush handle d in
      if negb (ok flushed) then
        let '(d, _) := close handle d in ((remove_file temp d).1, flushed)
      else
      let '(d, (_, closed)) := close handle d in
      if negb (ok closed) then ((remove_file temp d).1, closed) else
      let '(d, renamed) := os_rename temp path d in
      if negb renamed then ((remove_file temp d).1, StatusCode.PersistenceFailure) else
      let '(d, dir_opened) := os_call d in
      if negb dir_opened then (d, StatusCode.Ok) else
      let '(d, _) := os_call d in
      let '(d, _) := os_call d in
      (d, StatusCode.Ok)
  end.

(** [ensure_directory]. *)
Definition ensure_directory (path : string) (d : Disk) : Disk * StatusCode.t :=
  let '(d, found) := path_exists path d in
  if found then
    let '(d, sized) := os_call d in
    (d, match nodes d !! path with
        | Some Directory => if sized then StatusCode.Ok else StatusCode.PersistenceFailure
        | _ => StatusCode.PersistenceFailure
        end)
  else
    let '(d, made) := os_mkdir path d in
    (d, if made then StatusCode.Ok else StatusCode.PersistenceFailure).

(** [rotate_file]: the old backup goes first, its removal is not checked. *)
Definition rotate_file (path backup : string) (d : Disk) : Disk * StatusCode.t :=
  let '(d, found) := path_exists path d in
  if negb found then (d, StatusCode.Ok) else
  let '(d, _) := os_unlink backup d in
  let '(d, renamed) := os_rename path backup d in
  (d, if renamed then StatusCode.Ok else StatusCode.PersistenceFailure).

#[global] Arguments open_append : simpl never.
#[global] Arguments write : simpl never.
#[global] Arguments flush : simpl never.
#[global] Arguments close : simpl never.
#[global] Arguments path_exists : simpl never.
#[global] Arguments query_file_size : simpl never.
#[global] Arguments read_entire_file : simpl never.
#[global] Arguments remove_file : simpl never.
#[global] Arguments atomic_replace_file : simpl never.
#[global] Arguments ensure_directory : simpl never.
#[global] Arguments rotate_file : simpl never.
