(* ===== verification/Stores.v ===== *)
(** * The durable stores ([include/coherence/persistence.hpp], [src/persistence.cpp])

    The replay of a journal of bytes, and the two stores of the program:
    [MemoryDurableStore], which keeps its two buffers in memory, and
    [FileDurableStore], which keeps them in two files.  Both are instances of
    the [DurableStore] interface the engine uses. *)
From Stdlib Require Import Strings.Byte Strings.String.
From S2P Require Import Prelude Ids Enums Status Bytes Policy Evidence Model Decisions.
From S2P Require Import Serialize Codec Checksum Persistence Framing Files.

(** ** Replaying a journal of bytes *)

(** The report of a loop that stops at a record it does not trust. *)
Definition stop_replay (truncated : bool) (report : LoadReport) : LoadReport :=
  report <| lr_corrupt_records ::= u64_succ |>
         <| lr_truncated_tail := truncated || lr_truncated_tail report |>.

(** The loop of [open] in both stores, over the bytes from the offset on.
    Every iteration that continues consumes a whole frame, so the number of
    bytes bounds the iterations. *)
Fixpoint replay_bytes (fuel : nat) (limits : StoreLimits) (data : list byte)
    (image : DurableImage) (report : LoadReport) : DurableImage * LoadReport :=
  match data, fuel with
  | [], _ => (image, report)
  | _, O => (image, report)
  | _, S fuel =>
      if decide (length data < kJournalHeaderSize) then (image, stop_replay true report) else
      let payload_length := load_le 4 data 16 in
      if (max_journal_record_bytes limits <? payload_length)%N then (image, stop_replay true report) else
      let frame_size := (N.of_nat kJournalHeaderSize + payload_length)%N in
      if (N.of_nat (length data) <? frame_size)%N then (image, stop_replay true report) else
      match decode_journal_entry (take (N.to_nat frame_size) data) limits with
      | failure _ => (image, stop_replay true report)
      | success entry =>
          let '(image', applied) := apply_journal_entry image entry in
          if negb (ok applied) then (image', stop_replay false report) else
          replay_bytes fuel limits (drop (N.to_nat frame_size) data) image'
            (report <| lr_journal_records_replayed ::= u64_succ |>)
      end
  end.

(** ** [MemoryDurableStore] *)

Record MemoryDurableStore := mkMemoryDurableStore {
  ms_limits : StoreLimits;
  ms_snapshot : list byte;
  ms_journal : list byte;
  ms_sequence : N;
  ms_next_sequence : N;
  ms_append_count : N;
  ms_fail_append_at : N;
  ms_closed : bool;
  ms_opened : bool }.
#[export] Instance eta_MemoryDurableStore : Eta MemoryDurableStore := fun s => mkMemoryDurableStore
  (ms_limits s) (ms_snapshot s) (ms_journal s) (ms_sequence s) (ms_next_sequence s)
  (ms_append_count s) (ms_fail_append_at s) (ms_closed s) (ms_opened s).
Definition new_MemoryDurableStore (limits : StoreLimits) : MemoryDurableStore := {|
  ms_limits := limits;
  ms_snapshot := [];
  ms_journal := [];
  ms_sequence := 0;
  ms_next_sequence := 1;
  ms_append_count := 0;
  ms_fail_append_at := 0;
  ms_closed := false;
  ms_opened := false |}%N.

(** The log position an appended entry gets, and the next one to give. *)
Definition stamp (next_sequence : N) (entry : JournalEntry) : JournalEntry * N :=
  if (j_sequence entry =? 0)%N then
    (mkJournalEntry next_sequence (j_payload entry), u64_succ next_sequence)
  else if (next_sequence <=? j_sequence entry)%N then (entry, u64_succ (j_sequence entry))
  else (entry, next_sequence).

Module Memory.
(** [MemoryDurableStore::open]. *)
Definition open (s : MemoryDurableStore) : MemoryDurableStore * result (LoadReport * DurableImage) :=
  if ms_closed s then (s, failure StatusCode.PersistenceFailure) else
  let load (image : DurableImage) (report : LoadReport) :=
    let report := report <| lr_journal_bytes := N.of_nat (length (ms_journal s)) |> in
    let '(image, report) := replay_bytes (length (ms_journal s)) (ms_limits s) (ms_journal s) image report in
    (s <| ms_sequence := img_sequence image |>
       <| ms_next_sequence := u64_succ (img_sequence image) |>
       <| ms_opened := true |>, success (report, image)) in
  match ms_snapshot s with
  | [] => load default_DurableImage default_LoadReport
  | snapshot =>
      match decode_snapshot snapshot (ms_limits s) with
      | failure c => (s, failure c)
      | success loaded =>
          load loaded (default_LoadReport <| lr_snapshot_loaded := true |>
                                          <| lr_snapshot_bytes := N.of_nat (length snapshot) |>)
      end
  end.

(** [MemoryDurableStore::append]. *)
Definition append (entry : JournalEntry) (s : MemoryDurableStore) : MemoryDurableStore * StatusCode.t :=
  if ms_closed s || negb (ms_opened s) then (s, StatusCode.PersistenceFailure) else
  let s := s <| ms_append_count ::= u64_succ |> in
  if negb (ms_fail_append_at s =? 0)%N && (ms_append_count s =? ms_fail_append_at s)%N then
    (s, StatusCode.PersistenceFailure)
  else
  let '(stamped, next) := stamp (ms_next_sequence s) entry in
  let s := s <| ms_next_sequence := next |> in
  match encode_journal_entry stamped with
  | [] => (s, StatusCode.InvalidArgument)
  | frame =>
      (s <| ms_journal ::= λ journal, journal ++ frame |>
         <| ms_sequence := j_sequence stamped |>, StatusCode.Ok)
  end.

(** [MemoryDurableStore::compact]. *)
Definition compact (image : DurableImage) (s : MemoryDurableStore) : MemoryDurableStore * StatusCode.t :=
  if ms_closed s || negb (ms_opened s) then (s, StatusCode.PersistenceFailure) else
  (s <| ms_snapshot := encode_snapshot image |>
     <| ms_journal := [] |>
     <| ms_sequence := img_sequence image |>
     <| ms_next_sequence := u64_succ (img_sequence image) |>, StatusCode.Ok).

(** [MemoryDurableStore::close]; [flush] is the one of the base class. *)
Definition close (s : MemoryDurableStore) : MemoryDurableStore * StatusCode.t :=
  (s <| ms_closed := true |> <| ms_opened := false |>, StatusCode.Ok).

Definition journal_bytes (s : MemoryDurableStore) : N := N.of_nat (length (ms_journal s)).

(** The hooks of the tests: the injected failure and the raw buffers. *)
Definition fail_append_at (ordinal : N) (s : MemoryDurableStore) : MemoryDurableStore :=
  s <| ms_fail_append_at := ordinal |>.
Definition set_closed (closed : bool) (s : MemoryDurableStore) : MemoryDurableStore := s <| ms_closed := closed |>.
Definition set_journal_bytes (bytes : list byte) (s : MemoryDurableStore) : MemoryDurableStore :=
  s <| ms_journal := bytes |>.
Definition set_snapshot_bytes (bytes : list byte) (s : MemoryDurableStore) : MemoryDurableStore :=
  s <| ms_snapshot := bytes |>.
End Memory.

#[export] Instance memory_store : DurableStore MemoryDurableStore := {
  ds_open := Memory.open;
  ds_append := Memory.append;
  ds_compact := Memory.compact;
  ds_flush := λ s, (s, StatusCode.Ok);
  ds_close := Memory.close;
  ds_journal_bytes := Memory.journal_bytes }.

(** ** [FileDurableStore] *)

Record FileDurableStore := mkFileDurableStore {
  fs_disk : Disk;
  fs_directory : string;
  fs_limits : StoreLimits;
  fs_barrier_per_append : bool;
  fs_journal : option FileHandle;
  fs_bytes_since_compaction : N;
  fs_next_sequence : N;
  fs_opened : bool }.
#[export] Instance eta_FileDurableStore : Eta FileDurableStore := fun s => mkFileDurableStore
  (fs_disk s) (fs_directory s) (fs_limits s) (fs_barrier_per_append s) (fs_journal s)
  (fs_bytes_since_compaction s) (fs_next_sequence s) (fs_opened s).
Definition new_FileDurableStore (disk : Disk) (directory : string) (limits : StoreLimits) (barrier : bool) : FileDurableStore := {|
  fs_disk := disk;
  fs_directory := directory;
  fs_limits := limits;
  fs_barrier_per_append := barrier;
  fs_journal := None;
  fs_bytes_since_compaction := 0;
  fs_next_sequence := 1;
  fs_opened := false |}%N.

(** The names of the two files and of the rotated journal. *)
Definition snapshot_path (directory : string) : string := directory +:+ "/coherence-fabric.snapshot".
Definition journal_path (directory : string) : string := directory +:+ "/coherence-fabric.journal".
Definition compacted_path (directory : string) : string := journal_path directory +:+ ".compacted".

Module FileStore.
Section store.
Implicit Types s : FileDurableStore.

Definition on_disk {A} (call : Disk → Disk * A) s : FileDurableStore * A :=
  let '(d, a) := call (fs_disk s) in (s <| fs_disk := d |>, a).

(** The journal half of [FileDurableStore::open]. *)
Definition load_journal (image : DurableImage) (report : LoadReport) s
  : FileDurableStore * result (LoadReport * DurableImage) :=
  let path := journal_path (fs_directory s) in
  let '(s, size) := on_disk (query_file_size path) s in
  let report := report <| lr_journal_bytes := default 0%N size |> in
  if (max_journal_bytes (fs_limits s) <? lr_journal_bytes report)%N then
    (s, failure StatusCode.OversizedInput) else
  let finish (image : DurableImage) (report : LoadReport) s :=
    let s := s <| fs_next_sequence := u64_succ (img_sequence image) |> in
    let '(s, handle) := on_disk (open_append path) s in
    match handle with
    | failure c => (s, failure c)
    | success handle => (s <| fs_journal := Some handle |> <| fs_opened := true |>, success (report, image))
    end in
  let '(s, found) := on_disk (path_exists path) s in
  if negb found then finish image report s else
  let '(s, bytes) := on_disk (read_entire_file path (max_journal_bytes (fs_limits s))) s in
  match bytes with
  | failure c => (s, failure c)
  | success data =>
      let '(image, report) := replay_bytes (length data) (fs_limits s) data image report in
      finish image report s
  end.

(** [FileDurableStore::open]. *)
Definition open s : FileDurableStore * result (LoadReport * DurableImage) :=
  let '(s, created) := on_disk (ensure_directory (fs_directory s)) s in
  if negb (ok created) then (s, failure created) else
  let path := snapshot_path (fs_directory s) in
  let '(s, found) := on_disk (path_exists path) s in
  if negb found then load_journal default_DurableImage default_LoadReport s else
  let '(s, size) := on_disk (query_file_size path) s in
  let report := default_LoadReport <| lr_snapshot_bytes := default 0%N size |> in
  let '(s, bytes) := on_disk (read_entire_file path (max_snapshot_bytes (fs_limits s))) s in
  match bytes with
  | failure c => (s, failure c)
  | success bytes =>
      match decode_snapshot bytes (fs_limits s) with
      | failure c => (s, failure c)
      | success loaded => load_journal loaded (report <| lr_snapshot_loaded := true |>) s
      end
  end.

(** [FileDurableStore::append]. *)
Definition append (entry : JournalEntry) s : FileDurableStore * StatusCode.t :=
  match fs_journal s with
  | Some handle =>
      if negb (fs_opened s) then (s, StatusCode.PersistenceFailure) else
      let '(stamped, next) := stamp (fs_next_sequence s) entry in
      let s := s <| fs_next_sequence := next |> in
      match encode_journal_entry stamped with
      | [] => (s, StatusCode.InvalidArgument)
      | frame =>
          let '(s, (handle, wrote)) := on_disk (write frame handle) s in
          let s := s <| fs_journal := Some handle |> in
          if negb (ok wrote) then (s, wrote) else
          let '(s, flushed) :=
            if fs_barrier_per_append s then on_disk (flush handle) s else (s, StatusCode.Ok) in
          if negb (ok flushed) then (s, flushed) else
          (s <| fs_bytes_since_compaction ::= λ n, u64_add n (N.of_nat (length frame)) |>, StatusCode.Ok)
      end
  | None => (s, StatusCode.PersistenceFailure)
  end.

(** [FileDurableStore::compact]: close the journal, replace the snapshot,
    rotate the journal away and remove it, start a new one.  An open store has
    a journal handle, so the default is never used. *)
Definition compact (image : DurableImage) s : FileDurableStore * StatusCode.t :=
  if negb (fs_opened s) then (s, StatusCode.PersistenceFailure) else
  let bytes := encode_snapshot image in
  let path := journal_path (fs_directory s) in
  let compacted := compacted_path (fs_directory s) in
  let '(s, (handle, closed)) := on_disk (close (default no_handle (fs_journal s))) s in
  let s := s <| fs_journal := Some handle |> in
  if negb (ok closed) then (s, closed) else
  let '(s, replaced) :=
    on_disk (atomic_replace_file (snapshot_path (fs_directory s)) bytes) s in
  if negb (ok replaced) then
    let '(s, reopened) := on_disk (open_append path) s in
    match reopened with
    | success handle => (s <| fs_journal := Some handle |>, replaced)
    | failure _ => (s, replaced)
    end
  else
  let '(s, rotated) := on_disk (rotate_file path compacted) s in
  if negb (ok rotated) then (s, rotated) else
  let '(s, removed) := on_disk (remove_file compacted) s in
  if negb (ok removed) then (s, removed) else
  let '(s, reopened) := on_disk (open_append path) s in
  match reopened with
  | failure c => (s, c)
  | success handle =>
      (s <| fs_journal := Some handle |> <| fs_bytes_since_compaction := 0%N |>
         <| fs_next_sequence := u64_succ (img_sequence image) |>, StatusCode.Ok)
  end.

(** [FileDurableStore::flush]. *)
Definition flush s : FileDurableStore * StatusCode.t :=
  match fs_journal s with
  | Some handle => if fs_opened s then on_disk (Files.flush handle) s else (s, StatusCode.Ok)
  | None => (s, StatusCode.Ok)
  end.

(** [FileDurableStore::close]. *)
Definition close s : FileDurableStore * StatusCode.t :=
  match fs_journal s with
  | Some handle =>
      let '(s, (_, closed)) := on_disk (Files.close handle) s in
      (s <| fs_journal := None |> <| fs_opened := false |>, closed)
  | None => (s <| fs_opened := false |>, StatusCode.Ok)
  end.

(** [FileDurableStore::journal_bytes]. *)
Definition journal_bytes s : N :=
  match fs_journal s with
  | Some handle => h_size handle
  | None => default 0%N (query_file_size (journal_path (fs_directory s)) (fs_disk s)).2
  end.
End store.
End FileStore.

#[export] Instance file_store : DurableStore FileDurableStore := {
  ds_open := FileStore.open;
  ds_append := FileStore.append;
  ds_compact := FileStore.compact;
  ds_flush := FileStore.flush;
  ds_close := FileStore.close;
  ds_journal_bytes := FileStore.journal_bytes }.
