(* ===== verification/Replay.v ===== *)
(** * Replaying a journal of bytes

    What the loop of [open] makes of a journal: whole frames are applied in
    order, a torn or damaged record ends the replay, and replaying a journal
    over the image it led to changes nothing. *)
From Stdlib Require Import Strings.Byte Strings.String.
From S2P Require Import Prelude Ids Enums Status Bytes Policy Evidence Model Decisions.
From S2P Require Import Serialize Codec Checksum Persistence Framing Files Stores.

(** ** Whole frames *)

(** The entries a journal can hold and replay: they fit a frame and carry a log
    position. *)
Definition storable (limits : StoreLimits) (e : JournalEntry) : Prop := frame_ok limits e ∧ j_sequence e ≠ 0%N.

(** The bytes of a journal of whole frames. *)
Definition journal_of (es : list JournalEntry) : list byte := concat (encode_journal_entry <$> es).

(** The report after [n] more records. *)
Definition replayed (n : nat) (report : LoadReport) : LoadReport :=
  report <| lr_journal_records_replayed ::= Nat.iter n u64_succ |>.

Lemma replayed_S n report : replayed n (replayed 1 report) = replayed (S n) report.
Proof. unfold replayed, modify_field; cbn -[Nat.iter u64_succ]. by rewrite <-Nat.iter_succ_r. Qed.

Lemma journal_of_app es es' : journal_of (es ++ es') = journal_of es ++ journal_of es'.
Proof. unfold journal_of. by rewrite fmap_app, concat_app. Qed.

Lemma journal_of_snoc es e : journal_of (es ++ [e]) = journal_of es ++ encode_journal_entry e.
Proof. rewrite journal_of_app. unfold journal_of at 2. cbn. by rewrite app_nil_r. Qed.

Lemma storable_applicable limits e : storable limits e → applicable (j_payload e) = true.
Proof. intros [[Hf _] _]. by destruct (j_payload e). Qed.

Lemma storable_replayable limits es :
  Forall (storable limits) es → Forall (λ e, j_sequence e ≠ 0%N ∧ applicable (j_payload e) = true) es.
Proof.
  intros Hes. eapply Forall_impl; [exact Hes|]. intros e He. split; [apply He|by eapply storable_applicable].
Qed.

Lemma apply_storable limits image e : storable limits e → (apply_journal_entry image e).2 = StatusCode.Ok.
Proof.
  intros He. destruct e as [n p]. apply apply_journal_entry_ok; [apply He|exact (storable_applicable _ _ He)].
Qed.

Lemma replay_snoc limits image es e :
  Forall (storable limits) es → storable limits e →
  replay image (es ++ [e]) = (apply_journal_entry (replay image es) e).1.
Proof.
  intros Hes He. rewrite replay_app by (by eapply storable_replayable). cbn.
  pose proof (apply_storable _ (replay image es) _ He) as Ha. by destruct (apply_journal_entry _ e) as [i c]; cbn in *; subst.
Qed.

Lemma frame_payload limits e :
  frame_ok limits e → ∃ payload, encode_payload (j_payload e) = Some payload ∧
    (N.of_nat (length payload) ≤ max_journal_record_bytes limits)%N ∧
    length (encode_journal_entry e) = kJournalHeaderSize + length payload.
Proof.
  intros Hok. destruct (payload_written _ _ [] (proj1 Hok)) as (payload & _ & Hp & _).
  exists payload. split; [done|]. split; [apply Hok, Hp|by apply frame_length].
Qed.

Lemma frame_nonempty limits e : frame_ok limits e → encode_journal_entry e ≠ [].
Proof.
  intros Hok E. destruct (frame_payload _ _ Hok) as (p & _ & _ & Hl). rewrite E in Hl. cbn in Hl. unfold kJournalHeaderSize in Hl. lia.
Qed.

Section replay.
Context (limits : StoreLimits).

(** One iteration over a whole frame. *)
Lemma replay_frame fuel e rest image report :
  storable limits e → length (encode_journal_entry e ++ rest) ≤ S fuel →
  replay_bytes (S fuel) limits (encode_journal_entry e ++ rest) image report =
  replay_bytes fuel limits rest (apply_journal_entry image e).1 (replayed 1 report).
Proof.
  intros He Hfuel. pose proof He as [Hok _]. destruct (frame_payload _ _ Hok) as (payload & Hp & Hmax & Hlen).
  destruct (frame_fields limits e payload rest Hp Hok) as (_ & _ & _ & _ & F4 & _ & _).
  pose proof (apply_storable _ image _ He) as Ha. pose proof (frame_nonempty _ _ Hok) as Hne.
  set (frame := encode_journal_entry e) in *. cbn [replay_bytes].
  destruct (frame ++ rest) as [|b l] eqn:E; [by apply app_eq_nil in E as [? _]|]. rewrite <-E in *. clear E.
  rewrite decide_False by (rewrite length_app, Hlen; lia). rewrite F4.
  destruct (N.ltb_spec (max_journal_record_bytes limits) (N.of_nat (length payload))); [lia|].
  destruct (N.ltb_spec (N.of_nat (length (frame ++ rest))) (N.of_nat kJournalHeaderSize + N.of_nat (length payload))) as [Hs|_];
    [rewrite length_app, Hlen in Hs; lia|].
  replace (N.to_nat (N.of_nat kJournalHeaderSize + N.of_nat (length payload))) with (length frame) by lia.
  rewrite take_app_length, drop_app_length. unfold frame. rewrite decode_encoded by done.
  destruct (apply_journal_entry image e) as [image' c]. cbn in Ha. subst c. done.
Qed.

(** The replay of whole frames, whatever follows them. *)
Lemma replay_frames es tail fuel image report :
  Forall (storable limits) es → length (journal_of es ++ tail) ≤ fuel →
  ∃ fuel', length tail ≤ fuel' ∧
    replay_bytes fuel limits (journal_of es ++ tail) image report =
    replay_bytes fuel' limits tail (replay image es) (replayed (length es) report).
Proof.
  intros Hes. revert fuel image report. induction Hes as [|e es He _ IH]; intros fuel image report Hf; [by exists fuel|].
  change (journal_of (e :: es)) with (encode_journal_entry e ++ journal_of es) in *. rewrite <-app_assoc in *.
  pose proof (frame_payload _ _ (proj1 He)) as (p & _ & _ & Hl). unfold kJournalHeaderSize in Hl.
  destruct fuel as [|fuel]; [rewrite length_app in Hf; lia|]. rewrite replay_frame by done.
  destruct (IH fuel (apply_journal_entry image e).1 (replayed 1 report)) as (fuel' & Hf' & ->); [rewrite length_app in Hf; lia|].
  exists fuel'. split; [done|]. cbn [replay length].
  pose proof (apply_storable _ image _ He) as Ha. destruct (apply_journal_entry image e) as [i c]. cbn in Ha. subst c.
  change (ok StatusCode.Ok) with true. cbv iota. cbn [fst]. by rewrite replayed_S.
Qed.

(** The bound on the iterations is never met: any larger one gives the same. *)
Lemma replay_fuel fuel fuel' data image report :
  length data ≤ fuel → length data ≤ fuel' →
  replay_bytes fuel limits data image report = replay_bytes fuel' limits data image report.
Proof.
  revert fuel' data image report. induction fuel as [|fuel IH]; intros [|fuel'] [|b data] image report H1 H2; try done;
    [cbn in H1; lia|cbn in H2; lia|]. cbn [replay_bytes]. set (bytes := b :: data) in *. clearbody bytes.
  repeat (case_match; try done). apply IH; rewrite length_drop; unfold kJournalHeaderSize in *; lia.
Qed.

Lemma replay_nil fuel image report : replay_bytes fuel limits [] image report = (image, report).
Proof. by destruct fuel. Qed.

(** ** Where the replay ends *)

(** Bytes the loop refuses as soon as it looks at them. *)
Definition rejects (tail : list byte) : Prop :=
  ∀ fuel image report, length tail ≤ fuel → replay_bytes fuel limits tail image report = (image, stop_replay true report).

(** A frame cut anywhere but at its ends. *)
Lemma torn_rejects e n :
  frame_ok limits e → 0 < n → n < length (encode_journal_entry e) → rejects (take n (encode_journal_entry e)).
Proof.
  intros Hok Hn Hlt fuel image report Hf. destruct (frame_payload _ _ Hok) as (payload & Hp & Hmax & Hlen).
  destruct (frame_fields limits e payload [] Hp Hok) as (_ & _ & _ & _ & F4 & _ & _). rewrite app_nil_r in F4.
  set (frame := encode_journal_entry e) in *. assert (Ht : length (take n frame) = n) by (rewrite length_take; lia).
  rewrite Ht in Hf. destruct fuel as [|fuel]; [lia|]. cbn [replay_bytes].
  destruct (take n frame) as [|b l] eqn:E; [cbn in Ht; lia|]. rewrite <-E in *. clear E. rewrite Ht.
  case_decide as Hs; [done|].
  assert (F : load_le 4 (take n frame) 16 = N.of_nat (length payload)).
  { rewrite <-F4. unfold load_le. f_equal. rewrite skipn_firstn_comm, take_take. f_equal. unfold kJournalHeaderSize in Hs. lia. }
  rewrite F. destruct (_ <? _)%N; [done|].
  destruct (N.ltb_spec (N.of_nat n) (N.of_nat kJournalHeaderSize + N.of_nat (length payload))); [done|lia].
Qed.

(** A frame whose payload has one changed group of at most four bytes. *)
Lemma corrupt_rejects e before a b after rest :
  frame_ok limits e → encode_payload (j_payload e) = Some (before ++ a ++ after) →
  length a = length b → length a ≤ 4 → a ≠ b →
  rejects ((take kJournalHeaderSize (encode_journal_entry e) ++ before ++ b ++ after) ++ rest).
Proof.
  intros Hok Hp Hab H4 Hne fuel image report Hf. pose proof (corrupted_frame limits _ _ _ _ _ Hok Hp Hab H4 Hne) as Hd.
  destruct (frame_fields limits e _ [] Hp Hok) as (_ & _ & _ & _ & F4 & _). rewrite app_nil_r in F4.
  pose proof (frame_length e _ Hp) as Hl. set (header := take _ _) in *. set (payload' := before ++ b ++ after) in *.
  assert (Hh : length header = kJournalHeaderSize) by (unfold header; rewrite length_take; lia).
  assert (Hlen : length payload' = length (before ++ a ++ after)) by (unfold payload'; rewrite !length_app; lia).
  assert (F : load_le 4 ((header ++ payload') ++ rest) 16 = N.of_nat (length (before ++ a ++ after))).
  { rewrite <-F4. unfold load_le. f_equal. rewrite <-app_assoc, drop_app_le by (unfold kJournalHeaderSize in Hh; lia).
    rewrite take_app_le by (rewrite length_drop; unfold kJournalHeaderSize in Hh; lia).
    unfold header. rewrite skipn_firstn_comm, take_take. f_equal. }
  rewrite !length_app in Hf. unfold kJournalHeaderSize in *. destruct fuel as [|fuel]; [lia|]. cbn [replay_bytes].
  destruct ((header ++ payload') ++ rest) as [|x l] eqn:E; [apply (f_equal length) in E; rewrite !length_app, Hh in E; discriminate E|].
  rewrite <-E in *. clear E x l. rewrite F. case_decide; [done|]. destruct (_ <? _)%N; [done|].
  destruct (_ <? _)%N; [done|]. unfold kJournalHeaderSize.
  replace (N.to_nat (N.of_nat 24 + N.of_nat (length (before ++ a ++ after)))) with (length (header ++ payload'))
    by (rewrite length_app; lia).
  by rewrite take_app_length, Hd.
Qed.

(** ** What a replay can have applied *)

(** A record the loop applies is a whole, canonical frame at the front. *)
Lemma replay_step fuel data image report :
  (∃ e rest, storable limits e ∧ data = encode_journal_entry e ++ rest ∧
     replay_bytes (S fuel) limits data image report =
     replay_bytes fuel limits rest (apply_journal_entry image e).1 (replayed 1 report)) ∨
  (replay_bytes (S fuel) limits data image report = (image, report) ∧ data = []) ∨
  ∃ truncated, replay_bytes (S fuel) limits data image report = (image, stop_replay truncated report).
Proof.
  destruct (decide (data = [])) as [->|Hne]; [right; left; done|].
  cbn [replay_bytes]. destruct data as [|x l] eqn:E; [done|]. rewrite <-E. clear Hne E x l.
  case_decide as Hl; [right; right; by exists true|].
  destruct (_ <? load_le 4 data 16)%N; [right; right; by exists true|].
  set (size := N.to_nat (_ + load_le 4 data 16)%N). destruct (N.ltb_spec (N.of_nat (length data)) (N.of_nat kJournalHeaderSize + load_le 4 data 16)); [right; right; by exists true|].
  destruct (decode_journal_entry (take size data) limits) as [e|] eqn:Ed; [|right; right; by exists true].
  assert (Hsize : load_le 4 (take size data) 16 = load_le 4 data 16).
  { unfold load_le. f_equal. rewrite skipn_firstn_comm, take_take. f_equal. unfold size, kJournalHeaderSize. lia. }
  apply decoded_encode in Ed as [Hok Et]; [|rewrite Hsize, length_take; lia].
  destruct (apply_journal_entry image e) as [image' c] eqn:Ea. destruct (ok c) eqn:Ec; cbn [negb].
  - left. exists e, (drop size data). rewrite Ea, <-Et, take_drop. split_and!; [|done|done]. split; [done|].
    intros Hz. apply ok_spec in Ec. subst c. unfold apply_journal_entry in Ea. rewrite Hz in Ea. done.
  - right. right. exists false. replace image' with image; [done|].
    pose proof (apply_journal_entry_failed image e) as Hfail. rewrite Ea in Hfail. cbn in Hfail. symmetry. apply Hfail.
    by apply not_ok_spec.
Qed.

(** Whatever the bytes are, the image that comes out is the replay of the whole
    frames they begin with. *)
Lemma replay_sound data fuel image report :
  length data ≤ fuel →
  ∃ es tail, data = journal_of es ++ tail ∧ Forall (storable limits) es ∧
    (replay_bytes fuel limits data image report).1 = replay image es ∧
    lr_journal_records_replayed (replay_bytes fuel limits data image report).2 =
      Nat.iter (length es) u64_succ (lr_journal_records_replayed report).
Proof.
  revert data image report. induction fuel as [|fuel IH]; intros data image report Hf.
  { exists [], []. destruct data; [done|cbn in Hf; lia]. }
  destruct (replay_step fuel data image report) as [(e & rest & He & -> & ->)|[[-> ->]|[t ->]]]; [|by exists [], []|by exists [], data].
  pose proof (frame_payload _ _ (proj1 He)) as (p & _ & _ & Hl). unfold kJournalHeaderSize in Hl.
  destruct (IH rest (apply_journal_entry image e).1 (replayed 1 report)) as (es & tail & -> & Hes & -> & ->); [rewrite length_app in Hf; lia|].
  exists (e :: es), tail. split; [by rewrite (app_assoc (encode_journal_entry e))|]. split; [by constructor|]. cbn [replay length].
  pose proof (apply_storable _ image _ He) as Ha. destruct (apply_journal_entry image e) as [i c]. cbn in Ha. subst c.
  change (ok StatusCode.Ok) with true. split; [done|]. by rewrite Nat.iter_succ_r.
Qed.
End replay.

(** ** Replaying over what was replayed *)

(** How an entry acts on one part of the image: it sets it, or it leaves it
    alone or erases it. *)
Definition settles {A} (g : option A → option A) : Prop := (∃ c, ∀ x, g x = c) ∨ ∀ x, g x = x ∨ g x = None.

Lemma settles_id {A} : settles (@id (option A)).
Proof. right. intros x. by left. Qed.

Lemma settles_const {A} (c : option A) : settles (λ _, c).
Proof. left. by exists c. Qed.

Lemma settles_compose {A} (g h : option A → option A) : settles g → settles h → settles (h ∘ g).
Proof.
  intros [[c Hg]|Hg] [[c' Hh]|Hh].
  1, 3: left; exists c'; intros x; apply Hh.
  - left. exists (h c). intros x. cbn. by rewrite Hg.
  - right. intros x. cbn. destruct (Hg x) as [->| ->]; [apply Hh|]. destruct (Hh None) as [->| ->]; by right.
Qed.

Lemma settles_idemp {A} (g : option A → option A) x : settles g → g (g x) = g x.
Proof. intros [[c Hg]|Hg]; [by rewrite !Hg|]. destruct (Hg x) as [E|E]; rewrite E; [done|]. by destruct (Hg None). Qed.

(** A view of the image every entry acts on in this way. *)
Class Settled {A} (view : DurableImage → option A) :=
  settled e : ∃ g, settles g ∧ ∀ image, view (apply_journal_entry image e).1 = g (view image).

Lemma settled_replay {A} (view : DurableImage → option A) `{!Settled view} limits es :
  Forall (storable limits) es → ∃ g, settles g ∧ ∀ image, view (replay image es) = g (view image).
Proof.
  induction 1 as [|e es He _ (g & Hg & Hv)]; [exists id; split; [apply settles_id|done]|].
  destruct (settled (view := view) e) as (g' & Hg' & Hv'). exists (g ∘ g'). split; [by apply settles_compose|].
  intros image. cbn [replay]. pose proof (apply_storable _ image _ He) as Ha. specialize (Hv' image).
  destruct (apply_journal_entry image e) as [i c]. cbn in *. subst c. change (ok StatusCode.Ok) with true. cbv iota.
  by rewrite Hv, Hv'.
Qed.

Lemma view_replay_idemp {A} (view : DurableImage → option A) `{!Settled view} limits es image :
  Forall (storable limits) es → view (replay (replay image es) es) = view (replay image es).
Proof. intros Hes. destruct (settled_replay view limits es Hes) as (g & Hg & Hv). rewrite !Hv. by apply settles_idemp. Qed.

(** The cases of [apply_journal_entry] for a view that ignores the log position. *)
Lemma settled_payload {A} (view : DurableImage → option A) :
  (∀ image n, view (image <| img_sequence := n |>) = view image) →
  (∀ p, ∃ g, settles g ∧ ∀ image, default (view image) (view <$> apply_payload image p) = g (view image)) →
  Settled view.
Proof.
  intros Hseq Hp e. destruct (Hp (j_payload e)) as (g & Hg & Hv). unfold apply_journal_entry.
  destruct (_ =? 0)%N; [exists id; split; [apply settles_id|done]|]. exists g. split; [done|]. intros image.
  rewrite <-Hv. destruct (j_payload e); cbn [apply_payload fmap option_fmap option_map default]; try done.
  all: case_match; cbn [fst]; by rewrite ?Hseq.
Qed.


Lemma settled_lookup {K A} `{Countable K} (part : DurableImage → gmap K A) k :
  (∀ image n, part (image <| img_sequence := n |>) = part image) →
  (∀ p, (∀ image, default (part image) (part <$> apply_payload image p) = part image) ∨
        (∃ i r, ∀ image, default (part image) (part <$> apply_payload image p) = <[i := r]> (part image)) ∨
        (∃ i, ∀ image, default (part image) (part <$> apply_payload image p) = delete i (part image)) ∨
        ∃ keep : A → bool, ∀ image, default (part image) (part <$> apply_payload image p) = filter (λ kv, keep kv.2 = true) (part image)) →
  Settled (λ image, part image !! k).
Proof.
  intros Hseq Hp. apply settled_payload; [intros image n; by rewrite Hseq|]. intros p.
  assert (E : ∀ image, default (part image !! k) ((λ i, part i !! k) <$> apply_payload image p) =
    default (part image) (part <$> apply_payload image p) !! k) by (intros image; by destruct (apply_payload image p)).
  destruct (Hp p) as [Hpart|[(i & r & Hpart)|[(i & Hpart)|(keep & Hpart)]]].
  - exists id. split; [apply settles_id|]. intros image. by rewrite E, Hpart.
  - destruct (decide (i = k)) as [->|Hne]; [exists (λ _, Some r)|exists id].
    + split; [apply settles_const|]. intros image. by rewrite E, Hpart, lookup_insert_eq.
    + split; [apply settles_id|]. intros image. by rewrite E, Hpart, lookup_insert_ne.
  - destruct (decide (i = k)) as [->|Hne]; [exists (λ _, None)|exists id].
    + split; [apply settles_const|]. intros image. by rewrite E, Hpart, lookup_delete_eq.
    + split; [apply settles_id|]. intros image. by rewrite E, Hpart, lookup_delete_ne.
  - exists (λ x, a ← x; if keep a then Some a else None). split.
    + right. intros [a|]; cbn; [|by left]. destruct (keep a); [by left|by right].
    + intros image. rewrite E, Hpart, map_lookup_filter. destruct (part image !! k) as [a|]; [|done]. cbn.
      destruct (keep a); [by rewrite option_guard_True|by rewrite option_guard_False].
Qed.

(** A payload leaves a collection alone, inserts, deletes or filters. *)
Ltac solve_settled :=
  intros k; apply settled_lookup; [done|]; intros [];
  cbn [apply_payload fmap option_fmap option_map default];
  first [ left; intros ?; reflexivity
        | right; left; do 2 eexists; intros ?; reflexivity
        | right; right; left; eexists; intros ?; reflexivity ].

#[export] Instance domains_settled : ∀ k, Settled (λ image, img_domains image !! k).
Proof. solve_settled. Qed.
#[export] Instance participants_settled : ∀ k, Settled (λ image, img_participants image !! k).
Proof. solve_settled. Qed.
#[export] Instance objects_settled : ∀ k, Settled (λ image, img_objects image !! k).
Proof. solve_settled. Qed.
#[export] Instance regions_settled : ∀ k, Settled (λ image, img_regions image !! k).
Proof. solve_settled. Qed.
#[export] Instance invalidations_settled : ∀ k, Settled (λ image, img_invalidations image !! k).
Proof. solve_settled. Qed.
#[export] Instance syncs_settled : ∀ k, Settled (λ image, img_syncs image !! k).
Proof. solve_settled. Qed.
#[export] Instance policies_settled : ∀ k, Settled (λ image, img_policies image !! k).
Proof. solve_settled. Qed.
#[export] Instance pending_settled : ∀ k, Settled (λ image, img_pending_publications image !! k).
Proof.
  intros k. apply settled_lookup; [done|]. intros [].
  all: cbn [apply_payload fmap option_fmap option_map default].
  all: try (left; intros ?; reflexivity).
  - right. left. do 2 eexists. intros ?. reflexivity.
  - right. right. right. exists (λ p, bool_decide (pp_object p ≠ remove_object)). intros image. cbn.
    apply map_filter_ext. intros i p _. cbn. by rewrite bool_decide_eq_true.
Qed.
#[export] Instance epoch_settled : Settled (λ image, Some (img_epoch image)).
Proof.
  apply settled_payload; [done|]. intros []; cbn [apply_payload fmap option_fmap option_map default].
  14: by exists (λ _, Some epoch); split; [apply settles_const|].
  all: exists id; split; [apply settles_id|]; intros ?; reflexivity.
Qed.

(** The log position is a running maximum. *)
Definition position (e : JournalEntry) : N :=
  match j_payload e with Snapshot | Invalid => 0 | _ => j_sequence e end%N.

Lemma apply_position image e : img_sequence (apply_journal_entry image e).1 = N.max (img_sequence image) (position e).
Proof.
  unfold apply_journal_entry, position. destruct (N.eqb_spec (j_sequence e) 0) as [->|_]; [destruct (j_payload e); cbn; lia|].
  destruct (j_payload e); cbn [apply_payload fst]; try (cbn; lia).
  all: match goal with |- context [(?a <? ?b)%N] => destruct (N.ltb_spec a b) end; cbn in *; lia.
Qed.

Lemma replay_position limits es :
  Forall (storable limits) es → ∃ m, ∀ image, img_sequence (replay image es) = N.max (img_sequence image) m.
Proof.
  induction 1 as [|e es He _ [m Hm]]; [exists 0%N; intros image; cbn; lia|].
  exists (N.max (position e) m). intros image. cbn [replay]. pose proof (apply_storable _ image _ He) as Ha.
  pose proof (apply_position image e) as Hp. destruct (apply_journal_entry image e) as [i c]. cbn in *. subst c.
  change (ok StatusCode.Ok) with true. cbv iota. rewrite Hm, Hp. lia.
Qed.

(** Replaying a journal over the image it led to changes nothing. *)
Lemma replay_idemp limits image es :
  Forall (storable limits) es → replay (replay image es) es = replay image es.
Proof.
  intros Hes. pose proof (λ A v (H : Settled v), @view_replay_idemp A v H limits es image Hes) as V.
  assert (Hseq : img_sequence (replay (replay image es) es) = img_sequence (replay image es)).
  { destruct (replay_position limits es Hes) as [m Hm]. rewrite !Hm. lia. }
  pose proof (V _ _ epoch_settled) as He.
  pose proof (λ k, V _ _ (domains_settled k)) as V1. pose proof (λ k, V _ _ (participants_settled k)) as V2.
  pose proof (λ k, V _ _ (objects_settled k)) as V3. pose proof (λ k, V _ _ (regions_settled k)) as V4.
  pose proof (λ k, V _ _ (invalidations_settled k)) as V5. pose proof (λ k, V _ _ (syncs_settled k)) as V6.
  pose proof (λ k, V _ _ (policies_settled k)) as V7. pose proof (λ k, V _ _ (pending_settled k)) as V8.
  clear V. cbv beta in *. apply map_eq in V1, V2, V3, V4, V5, V6, V7, V8. injection He as He.
  set (i := replay image es) in *. set (j := replay i es) in *. clearbody i j.
  destruct i, j. cbn in *. congruence.
Qed.
