(* ===== verification/StoreFacts.v ===== *)
(** * What the stores hold

    The image a store would load, for the buffers of the memory store and for
    the nodes of a disk, and how opening, appending and compaction change it. *)
From Stdlib Require Import Strings.Byte Strings.String.
From S2P Require Import Prelude Ids Enums Status Bytes Policy Evidence Model Decisions.
From S2P Require Import Serialize Codec Checksum Persistence Framing Files Stores Replay.

(** ** The file primitives

    For every script: which calls leave the nodes alone, what a write that
    reports success or failure left behind, and that a run without errors
    completes. *)

(** *** Single calls *)

Lemma next_event_nodes d : nodes (next_event d).1 = nodes d.
Proof. unfold next_event. destruct (dead d); [done|]. destruct (script d) as [|[] ?]; done. Qed.

Lemma attempt_cases effect d d' b :
  attempt effect d = (d', b) →
  (b = true ∧ effect (nodes d) = Some (nodes d')) ∨ (b = false ∧ nodes d' = nodes d).
Proof.
  unfold attempt. pose proof (next_event_nodes d) as Hn. destruct (next_event d) as [d1 e]. cbn in Hn.
  destruct e; destruct (effect (nodes d)) eqn:E; intros [= <- <-]; auto.
Qed.

(** A property of the nodes that every possible effect keeps. *)
Lemma attempt_keeps (P : gmap string node → Prop) effect d :
  P (nodes d) → (∀ ns, effect (nodes d) = Some ns → P ns) → P (nodes (attempt effect d).1).
Proof.
  intros Hp He. destruct (attempt effect d) as [d' b] eqn:E.
  apply attempt_cases in E as [[_ E]|[_ E]]; cbn; [by apply He|by rewrite E].
Qed.

Lemma os_call_nodes d : nodes (os_call d).1 = nodes d.
Proof. apply (attempt_keeps (λ ns, ns = nodes d)); [done|]. by intros ns [= <-]. Qed.

Lemma os_find_nodes path d : nodes (os_find path d).1 = nodes d.
Proof. apply (attempt_keeps (λ ns, ns = nodes d)); [done|]. intros ns. case_match; by intros [= <-]. Qed.

Lemma close_nodes h d : nodes (close h d).1 = nodes d.
Proof. unfold close. destruct (negb _); [done|]. pose proof (os_call_nodes d). by destruct (os_call d). Qed.

Lemma close_process h d : process_id (close h d).1 = process_id d ∧ sibling_counter (close h d).1 = sibling_counter d.
Proof.
  unfold close. destruct (negb _); [done|]. unfold os_call, attempt, next_event.
  destruct (dead d); [done|]. by destruct (script d) as [|[] ?].
Qed.

Lemma flush_nodes h d : nodes (flush h d).1 = nodes d.
Proof. unfold flush. destruct (negb _); [done|]. pose proof (os_call_nodes d). by destruct (os_call d). Qed.

Lemma flush_handle h d d' c : flush h d = (d', c) → c = StatusCode.Ok → valid h = true.
Proof. unfold flush. destruct (valid h); [done|]. by intros [= <- <-]. Qed.

(** ** Opening and writing *)

(** What [open_append] leaves: the nodes, or the nodes with an empty file. *)
Lemma open_append_nodes path d d' r :
  open_append path d = (d', r) →
  (nodes d' = nodes d ∨ nodes d !! path = None ∧ nodes d' = <[path := File []]> (nodes d)) ∧
  match r with
  | success h => h_path h = Some path ∧ ∃ bytes, nodes d' !! path = Some (File bytes)
  | failure c => c = StatusCode.PersistenceFailure
  end.
Proof.
  unfold open_append. destruct (os_create path d) as [d1 opened] eqn:E1.
  assert (H1 : (nodes d1 = nodes d ∨ nodes d !! path = None ∧ nodes d1 = <[path := File []]> (nodes d)) ∧
    (opened = true → ∃ bytes, nodes d1 !! path = Some (File bytes))).
  { apply attempt_cases in E1 as [[-> E]|[-> E]]; [|by split; [left|]].
    destruct (nodes d !! path) as [[bytes|]|] eqn:Ep; try done; injection E as E.
    - split; [by left|]. intros _. exists bytes. by rewrite <-E.
    - split; [by right|]. intros _. exists []. by rewrite <-E, lookup_insert_eq. }
  destruct opened; cbn [negb]; [|intros [= <- <-]; by split; [apply H1|]].
  pose proof (os_call_nodes d1) as N1. destruct (os_call d1) as [d2 sized] eqn:E2. cbn in N1.
  destruct sized; cbn [negb].
  - intros [= <- <-]. rewrite N1. split; [apply H1|]. split; [done|]. by apply H1.
  - intros [= <- <-]. pose proof (os_call_nodes d2) as N2. rewrite N2, N1. split; [apply H1|done].
Qed.

Lemma append_bytes_file path old bytes ns :
  ns !! path = Some (File old) → append_bytes path bytes ns = <[path := File (old ++ bytes)]> ns.
Proof. intros H. unfold append_bytes. by rewrite H. Qed.

Lemma chunk_prefix data : ∃ k, chunk_of data = take k data ∧ (data ≠ [] → chunk_of data ≠ []).
Proof.
  unfold chunk_of. destruct (_ <? _)%N; [|exists (length data); by rewrite firstn_all].
  eexists. split; [done|]. intros Hd. destruct data; [done|].
  destruct (N.to_nat kMaxTransferChunk) eqn:E; [|done]. unfold kMaxTransferChunk in E. lia.
Qed.

(** One [write]: a prefix of the chunk is in the file, as long as reported. *)
Lemma os_write_nodes path chunk d d' moved old :
  nodes d !! path = Some (File old) → os_write path chunk d = (d', moved) →
  ∃ k, nodes d' = <[path := File (old ++ take k chunk)]> (nodes d) ∧
    (moved = Again → k = 0) ∧ (∀ n, moved = Moved n → n = k ∧ k ≤ length chunk).
Proof.
  intros Hf. unfold os_write. pose proof (next_event_nodes d) as Hn. destruct (next_event d) as [d1 e]. cbn in Hn.
  assert (H0 : nodes d1 = <[path := File (old ++ take 0 chunk)]> (nodes d)) by (rewrite take_0, app_nil_r, insert_id; done).
  assert (Hk : ∀ l, nodes (d1 <| nodes ::= append_bytes path l |>) = <[path := File (old ++ l)]> (nodes d)).
  { intros l. cbn. rewrite Hn. by apply append_bytes_file. }
  destruct e; intros [= <- <-].
  - exists (length chunk). rewrite firstn_all. split; [apply Hk|]. split; [done|]. by intros n [= <-].
  - exists 0. done.
  - exists 0. done.
  - exists (length (take n chunk)). rewrite length_take, Hk. split; [|split; [done|intros ? [= <-]; lia]].
    do 3 f_equal. destruct (Nat.le_gt_cases n (length chunk)); [by rewrite Nat.min_l|]. rewrite Nat.min_r, firstn_all, take_ge by lia. done.
  - exists n. done.
Qed.

(** A write, for every script: a prefix of the data is in the file, all of it
    when the write reports success. *)
Lemma write_loop_nodes fuel path data h d d' h' c old :
  nodes d !! path = Some (File old) → write_loop fuel path data h d = (d', (h', c)) →
  h_path h' = h_path h ∧ ∃ k, nodes d' = <[path := File (old ++ take k data)]> (nodes d) ∧
    (c = StatusCode.Ok → take k data = data).
Proof.
  revert data h d old. induction fuel as [|fuel IH]; intros data h d old Hf.
  { destruct data; cbn; intros [= <- <- <-]; (split; [done|]); exists 0; rewrite take_0, app_nil_r, insert_id; done. }
  destruct data as [|b data]; [cbn; intros [= <- <- <-]; (split; [done|]); exists 0; rewrite take_0, app_nil_r, insert_id; done|].
  cbn [write_loop]. set (bytes := b :: data) in *. destruct (os_write path (chunk_of bytes) d) as [d1 moved] eqn:Ew.
  destruct (os_write_nodes _ _ _ _ _ _ Hf Ew) as (k & Hn & Hz & Hm). destruct (chunk_prefix bytes) as (kc & Hc & _).
  assert (Hf1 : nodes d1 !! path = Some (File (old ++ take k (chunk_of bytes)))) by (by rewrite Hn, lookup_insert_eq).
  rewrite Hc, take_take in Hn, Hf1.
  assert (Hbroken : (d1, (h, StatusCode.PersistenceFailure)) = (d', (h', c)) → h_path h' = h_path h ∧
    ∃ j, nodes d' = <[path := File (old ++ take j bytes)]> (nodes d) ∧ (c = StatusCode.Ok → take j bytes = bytes)).
  { intros [= <- <- <-]. split; [done|]. exists (k `min` kc). done. }
  destruct moved as [[|n]| |]; [apply Hbroken| | |apply Hbroken].
  - destruct (Hm (S n) eq_refl) as [<- Hle]. rewrite Hc, length_take in Hle. rewrite Nat.min_l in Hn, Hf1 by lia.
    intros E. destruct (IH _ _ _ _ Hf1 E) as (-> & j & Hj & Hok). split; [done|]. exists (S n + j).
    rewrite <-app_assoc, take_take_drop in Hj. rewrite Hj, Hn, insert_insert_eq. split; [done|].
    intros Hc'. rewrite <-(take_drop (S n) bytes) at 2. by rewrite <-(Hok Hc'), take_take_drop.
  - rewrite (Hz eq_refl) in *. cbn [Nat.min] in *. rewrite take_0, app_nil_r in Hf1.
    intros E. destruct (IH _ _ _ _ Hf1 E) as (-> & j & Hj & Hok). split; [done|]. exists j.
    by rewrite Hj, Hn, insert_insert_eq.
Qed.

Lemma write_nodes path data h d d' h' c old :
  h_path h = Some path → nodes d !! path = Some (File old) → write data h d = (d', (h', c)) →
  h_path h' = Some path ∧ ∃ k, nodes d' = <[path := File (old ++ take k data)]> (nodes d) ∧
    (c = StatusCode.Ok → take k data = data).
Proof.
  intros Hh Hf. unfold write. rewrite Hh. intros E. destruct (write_loop_nodes _ _ _ _ _ _ _ _ _ Hf E) as [-> H].
  done.
Qed.

(** ** Runs without errors *)

(** An outcome that delays a transfer at most. *)
Definition benign (e : event) : bool :=
  match e with Succeeds | Interrupted | Transfers (S _) => true | _ => false end.

(** A write that meets no error completes: interrupted calls and partial
    transfers use up the script or the data. *)
Lemma write_completes path data h d :
  h_path h = Some path → dead d = false → Forall (λ e, benign e = true) (script d) →
  (write data h d).2.2 = StatusCode.Ok.
Proof.
  intros Hh. unfold write. rewrite Hh. clear Hh.
  assert (Hgen : ∀ fuel data h d, dead d = false → Forall (λ e, benign e = true) (script d) →
    length data + length (script d) ≤ fuel → (write_loop fuel path data h d).2.2 = StatusCode.Ok); [|by intros; apply Hgen].
  clear. induction fuel as [|fuel IH]; intros data h d Hd Hs Hfuel; [by destruct data; [|cbn in Hfuel; lia]|].
  destruct data as [|b data]; [done|]. cbn [write_loop]. set (bytes := b :: data) in *.
  destruct (chunk_prefix bytes) as (kc & Hc & Hne). specialize (Hne ltac:(done)).
  destruct (chunk_of bytes) as [|x chunk] eqn:Ec; [done|]. unfold os_write, next_event. rewrite Hd.
  assert (Hgo : ∀ n d1, dead d1 = false → Forall (λ e, benign e = true) (script d1) → length (script d1) ≤ length (script d) →
    (write_loop fuel path (drop (S n) bytes) (h <| h_size ::= λ s, u64_add s (N.of_nat (S n)) |>) d1).2.2 = StatusCode.Ok).
  { intros n d1 H1 H2 H3. apply IH; [done|done|]. rewrite length_drop. unfold bytes in *. cbn [length] in *. lia. }
  destruct (script d) as [|e rest] eqn:Es; [apply Hgo; cbn; rewrite ?Es; auto|].
  apply Forall_cons in Hs as [He Hr]. destruct e as [| | |[|n]|]; try done.
  - apply Hgo; cbn; auto.
  - apply IH; cbn in *; auto. lia.
  - cbn [take length]. apply Hgo; cbn; auto.
Qed.

(** ** Journals *)

(** A journal of whole frames and a tail the replay refuses or that is empty. *)
Definition journal_holds (limits : StoreLimits) (data : list byte) (es : list JournalEntry) (tail : list byte) : Prop :=
  data = journal_of es ++ tail ∧ Forall (storable limits) es ∧ (tail = [] ∨ rejects limits tail).

Lemma replay_held limits data es tail image report :
  journal_holds limits data es tail →
  replay_bytes (length data) limits data image report =
  (replay image es, if decide (tail = []) then replayed (length es) report
                    else stop_replay true (replayed (length es) report)).
Proof.
  intros (-> & Hes & Ht). destruct (replay_frames limits es tail _ image report Hes (Nat.le_refl _)) as (fuel & Hf & ->).
  destruct Ht as [->|Ht]; [by rewrite decide_True, replay_nil|]. case_decide as E; [subst; by rewrite replay_nil|by apply Ht].
Qed.

Lemma journal_holds_snoc limits data es e :
  journal_holds limits data es [] → storable limits e →
  journal_holds limits (data ++ encode_journal_entry e) (es ++ [e]) [].
Proof.
  intros (-> & Hes & _) He. split_and!; [by rewrite !app_nil_r, journal_of_snoc|by apply Forall_app; split; [|constructor]|by left].
Qed.

(** A frame written up to its [k]th byte after whole frames: the entry is there
    when the frame is complete and not there otherwise. *)
Lemma journal_holds_torn limits data es e k :
  journal_holds limits data es [] → storable limits e →
  ∃ es' tail, journal_holds limits (data ++ take k (encode_journal_entry e)) es' tail ∧
    (if decide (length (encode_journal_entry e) ≤ k) then es' = es ++ [e] ∧ tail = [] else es' = es).
Proof.
  intros Hj He. case_decide as Hk.
  { exists (es ++ [e]), []. rewrite take_ge by done. split; [by apply journal_holds_snoc|done]. }
  destruct Hj as (-> & Hes & _). rewrite app_nil_r.
  exists es, (take k (encode_journal_entry e)). split; [|done]. split_and!; [done|done|].
  destruct k as [|k]; [by left|right]. apply torn_rejects; [apply He|lia|lia].
Qed.

(** ** The memory store *)

Definition memory_holds (s : MemoryDurableStore) (tail : list byte) (image : DurableImage) : Prop :=
  ∃ base es, journal_holds (ms_limits s) (ms_journal s) es tail ∧ image = replay base es ∧
    (ms_snapshot s = [] ∧ base = default_DurableImage ∨
     ms_snapshot s ≠ [] ∧ decode_snapshot (ms_snapshot s) (ms_limits s) = success base).

Definition memory_live (s : MemoryDurableStore) : Prop := ms_closed s = false ∧ ms_opened s = true.

Lemma memory_open_loads s tail image :
  ms_closed s = false → memory_holds s tail image →
  ∃ s' report, Memory.open s = (s', success (report, image)) ∧ memory_live s' ∧ memory_holds s' tail image ∧
    ms_next_sequence s' = u64_succ (img_sequence image) ∧
    lr_truncated_tail report = negb (bool_decide (tail = [])) ∧
    lr_corrupt_records report = (if decide (tail = []) then 0 else 1)%N.
Proof.
  intros Hc (base & es & Hj & -> & Hs). unfold Memory.open. rewrite Hc.
  assert (Hgo : ∀ report, lr_truncated_tail report = false → lr_corrupt_records report = 0%N →
    ∃ s' report', (let '(image, report) := replay_bytes (length (ms_journal s)) (ms_limits s) (ms_journal s) base report in
       (s <| ms_sequence := img_sequence image |> <| ms_next_sequence := u64_succ (img_sequence image) |>
          <| ms_opened := true |>, success (report, image))) = (s', success (report', replay base es)) ∧
    memory_live s' ∧ memory_holds s' tail (replay base es) ∧
    ms_next_sequence s' = u64_succ (img_sequence (replay base es)) ∧
    lr_truncated_tail report' = negb (bool_decide (tail = [])) ∧
    lr_corrupt_records report' = (if decide (tail = []) then 0 else 1)%N).
  { intros report Ht Hr. rewrite (replay_held _ _ _ _ _ _ Hj). do 2 eexists. split; [reflexivity|].
    split; [by split|]. split; [by exists base, es|]. split; [done|].
    case_decide; [rewrite bool_decide_true by done|rewrite bool_decide_false by done]; cbn; by rewrite ?Ht, ?Hr. }
  destruct Hs as [[-> ->]|[Hne Hd]]; [by apply Hgo|].
  destruct (ms_snapshot s) as [|b l]; [done|]. rewrite Hd. by apply Hgo.
Qed.

Lemma memory_append_cases s image e :
  memory_live s → memory_holds s [] image → storable (ms_limits s) (stamp (ms_next_sequence s) e).1 →
  let '(s', c) := Memory.append e s in
  memory_live s' ∧ ms_limits s' = ms_limits s ∧
  ((c = StatusCode.Ok ∧ memory_holds s' [] (apply_journal_entry image (stamp (ms_next_sequence s) e).1).1) ∨
   (c = StatusCode.PersistenceFailure ∧ memory_holds s' [] image ∧
    ms_fail_append_at s = u64_succ (ms_append_count s))).
Proof.
  intros [Hc Ho] (base & es & Hj & -> & Hs) He. unfold Memory.append. rewrite Hc, Ho. cbn [orb negb].
  cbn [modify_field]. destruct (_ && _) eqn:Hfail.
  { apply andb_true_iff in Hfail as [_ Hfail]. apply N.eqb_eq in Hfail. cbn in Hfail.
    split; [done|]. split; [done|]. right. split; [done|]. split; [|done]. by exists base, es. }
  cbn. destruct (stamp (ms_next_sequence s) e) as [stamped next]. cbn in *.
  pose proof (frame_nonempty _ _ (proj1 He)) as Hne.
  destruct (encode_journal_entry stamped) as [|b l] eqn:Ef; [done|]. rewrite <-Ef.
  split; [done|]. split; [done|]. left. split; [done|]. exists base, (es ++ [stamped]). cbn.
  split; [by apply journal_holds_snoc|]. split; [|done]. symmetry. eapply replay_snoc; [apply Hj|done].
Qed.

Lemma encode_snapshot_nonempty image : encode_snapshot image ≠ [].
Proof. rewrite encode_snapshot_parts. cbv zeta. unfold snapshot_header. done. Qed.

Lemma memory_compact_holds s image :
  memory_live s → snapshot_ok (ms_limits s) image →
  ∃ s', Memory.compact image s = (s', StatusCode.Ok) ∧ memory_live s' ∧ ms_limits s' = ms_limits s ∧
    memory_holds s' [] image ∧ ms_journal s' = [].
Proof.
  intros [Hc Ho] Hi. unfold Memory.compact. rewrite Hc, Ho. cbn [orb negb]. eexists. split; [reflexivity|].
  split; [by split|]. split; [done|]. split; [|done]. exists image, []. split; [split_and!; [done|by constructor|by left]|]. split; [done|].
  right. split; [apply encode_snapshot_nonempty|by apply decode_encoded_snapshot].
Qed.

(** ** The file store *)

(** The names are different. *)
Lemma append_cons x (a b : string) : String x a +:+ b = String x (a +:+ b).
Proof. reflexivity. Qed.

Lemma append_cancel (a b c : string) : a +:+ b = a +:+ c → b = c.
Proof. induction a as [|x a IH]; [done|]. rewrite !append_cons. intros [= H]. by apply IH. Qed.

Lemma append_longer (a b : string) : b ≠ "" → a ≠ a +:+ b.
Proof. intros Hb. induction a as [|x a IH]; [intros E; by apply Hb|]. rewrite append_cons. intros [= H]. by apply IH. Qed.

Lemma append_assoc (a b c : string) : (a +:+ b) +:+ c = a +:+ b +:+ c.
Proof. induction a as [|x a IH]; [done|]. rewrite !append_cons. by f_equal. Qed.

(** The paths of a store: [p] differs from the three names the store loads from. *)
Definition apart (dir p : string) : Prop := p ≠ dir ∧ p ≠ snapshot_path dir ∧ p ≠ journal_path dir.

Lemma paths_apart dir : dir ≠ snapshot_path dir ∧ dir ≠ journal_path dir ∧ snapshot_path dir ≠ journal_path dir.
Proof.
  unfold snapshot_path, journal_path. split; [by apply append_longer|]. split; [by apply append_longer|].
  intros E. by apply append_cancel in E.
Qed.

Lemma compacted_apart dir : apart dir (compacted_path dir).
Proof.
  unfold apart, compacted_path, journal_path, snapshot_path. rewrite append_assoc. split_and!; intros E; symmetry in E.
  - revert E. by apply append_longer.
  - by apply append_cancel in E.
  - by apply append_cancel in E.
Qed.

Lemma sibling_apart dir pid n : apart dir (sibling_of (snapshot_path dir) pid n).
Proof.
  unfold apart, sibling_of, journal_path, snapshot_path. rewrite append_assoc. split_and!; intros E; symmetry in E.
  - revert E. by apply append_longer.
  - by apply append_cancel in E.
  - by apply append_cancel in E.
Qed.

Section disk.
Context (limits : StoreLimits) (dir : string).
Implicit Types ns : gmap string node.

(** The snapshot node of a disk. *)
Definition snapshot_holds ns (base : DurableImage) : Prop :=
  ns !! snapshot_path dir = None ∧ base = default_DurableImage ∨
  ∃ bytes, ns !! snapshot_path dir = Some (File bytes) ∧ decode_snapshot bytes limits = success base.

(** The journal node of a disk. *)
Definition journal_node ns (es : list JournalEntry) (tail : list byte) : Prop :=
  ns !! journal_path dir = None ∧ es = [] ∧ tail = [] ∨
  ∃ data, ns !! journal_path dir = Some (File data) ∧ journal_holds limits data es tail ∧
    (N.of_nat (length data) ≤ max_journal_bytes limits)%N.

(** The disk loads as an image; the journal ends in [tail]. *)
Definition disk_holds ns (tail : list byte) (image : DurableImage) : Prop :=
  (ns !! dir = None ∨ ns !! dir = Some Directory) ∧
  ∃ base es, snapshot_holds ns base ∧ journal_node ns es tail ∧ image = replay base es.

(** Nodes of other names do not matter. *)
Lemma disk_holds_ext ns ns' tail image :
  ns' !! dir = ns !! dir → ns' !! snapshot_path dir = ns !! snapshot_path dir →
  ns' !! journal_path dir = ns !! journal_path dir → disk_holds ns tail image → disk_holds ns' tail image.
Proof. unfold disk_holds, snapshot_holds, journal_node. by intros -> -> ->. Qed.

Lemma disk_holds_insert ns p n tail image : apart dir p → disk_holds ns tail image → disk_holds (<[p := n]> ns) tail image.
Proof. intros (? & ? & ?). apply disk_holds_ext; by rewrite lookup_insert_ne. Qed.

Lemma disk_holds_delete ns p tail image : apart dir p → disk_holds ns tail image → disk_holds (delete p ns) tail image.
Proof. intros (? & ? & ?). apply disk_holds_ext; by rewrite lookup_delete_ne. Qed.

(** A journal created empty holds nothing more. *)
Lemma disk_holds_create ns tail image :
  ns !! journal_path dir = None → disk_holds ns tail image → disk_holds (<[journal_path dir := File []]> ns) tail image.
Proof.
  intros Hn (Hd & base & es & Hs & Hj & ->). destruct (paths_apart dir) as (P1 & P2 & P3).
  split; [by rewrite lookup_insert_ne|]. exists base, es. split; [|split; [|done]].
  - unfold snapshot_holds. by rewrite lookup_insert_ne.
  - destruct Hj as [(_ & -> & ->)|(data & Hj & _)]; [|congruence]. right. exists []. rewrite lookup_insert_eq.
    split; [done|]. split; [|cbn; lia]. split_and!; [done|constructor|by left].
Qed.

Lemma open_append_holds d d' r tail image :
  open_append (journal_path dir) d = (d', r) → disk_holds (nodes d) tail image → disk_holds (nodes d') tail image.
Proof.
  intros E Hh. apply open_append_nodes in E as [[->|[Hn ->]] _]; [done|]. by apply disk_holds_create.
Qed.

(** The snapshot replaced by one of the image itself: the journal that is still
    there changes nothing. *)
Lemma disk_holds_snapshot ns tail image :
  snapshot_ok limits image → disk_holds ns tail image →
  disk_holds (<[snapshot_path dir := File (encode_snapshot image)]> ns) tail image.
Proof.
  intros Hok (Hd & base & es & _ & Hj & ->). destruct (paths_apart dir) as (P1 & P2 & P3).
  split; [by rewrite lookup_insert_ne|]. exists (replay base es), es. split; [|split].
  - right. exists (encode_snapshot (replay base es)). rewrite lookup_insert_eq. split; [done|by apply decode_encoded_snapshot].
  - unfold journal_node. by rewrite lookup_insert_ne.
  - destruct Hj as [(_ & -> & _)|(data & _ & (_ & Hes & _) & _)]; [done|]. symmetry. by eapply replay_idemp.
Qed.

(** The journal taken away once the snapshot has the image. *)
Lemma disk_holds_rotate ns image :
  ns !! snapshot_path dir = Some (File (encode_snapshot image)) → snapshot_ok limits image →
  (ns !! dir = None ∨ ns !! dir = Some Directory) → disk_holds (delete (journal_path dir) ns) [] image.
Proof.
  intros Hs Hok Hd. destruct (paths_apart dir) as (P1 & P2 & P3). split; [by rewrite lookup_delete_ne|].
  exists image, []. split; [|split; [|done]].
  - right. exists (encode_snapshot image). rewrite lookup_delete_ne by done. split; [done|by apply decode_encoded_snapshot].
  - left. by rewrite lookup_delete_eq.
Qed.
End disk.

(** *** Appending *)

Definition file_live (s : FileDurableStore) : Prop :=
  fs_opened s = true ∧ (∃ h, fs_journal s = Some h ∧ h_path h = Some (journal_path (fs_directory s))) ∧
  ∃ data, nodes (fs_disk s) !! journal_path (fs_directory s) = Some (File data).

Definition file_holds (s : FileDurableStore) (tail : list byte) (image : DurableImage) : Prop :=
  disk_holds (fs_limits s) (fs_directory s) (nodes (fs_disk s)) tail image.

(** The room an append needs: the frame fits and the journal stays loadable. *)
Definition room (s : FileDurableStore) (e : JournalEntry) : Prop :=
  storable (fs_limits s) (stamp (fs_next_sequence s) e).1 ∧
  ∀ data, nodes (fs_disk s) !! journal_path (fs_directory s) = Some (File data) →
    (N.of_nat (length data + length (encode_journal_entry (stamp (fs_next_sequence s) e).1)) ≤ max_journal_bytes (fs_limits s))%N.

(** The journal with a part of a frame more. *)
Lemma disk_holds_write limits dir ns data e k image :
  ns !! journal_path dir = Some (File data) → disk_holds limits dir ns [] image → storable limits e →
  (N.of_nat (length data + length (encode_journal_entry e)) ≤ max_journal_bytes limits)%N →
  let ns' := <[journal_path dir := File (data ++ take k (encode_journal_entry e))]> ns in
  if decide (length (encode_journal_entry e) ≤ k) then disk_holds limits dir ns' [] (apply_journal_entry image e).1
  else ∃ tail, disk_holds limits dir ns' tail image.
Proof.
  intros Hn (Hd & base & es & Hs & Hj & ->) He Hroom. cbv zeta. destruct (paths_apart dir) as (P1 & P2 & P3).
  destruct Hj as [(Hj & _)|(data' & Hj & Hh & Hl)]; [congruence|]. rewrite Hn in Hj. injection Hj as <-.
  destruct (journal_holds_torn _ _ _ _ k Hh He) as (es' & tail & Hh' & Hes').
  assert (Hgo : disk_holds limits dir (<[journal_path dir := File (data ++ take k (encode_journal_entry e))]> ns) tail (replay base es')).
  { split; [by rewrite lookup_insert_ne|]. exists base, es'. split; [unfold snapshot_holds; by rewrite lookup_insert_ne|].
    split; [|done]. right. eexists. rewrite lookup_insert_eq. split; [done|]. split; [done|].
    rewrite length_app, length_take. lia. }
  case_decide; [|subst es'; by exists tail]. destruct Hes' as [-> ->].
  rewrite <-(replay_snoc limits) by (done || apply Hh). done.
Qed.

Lemma file_append_cases s e image :
  file_live s → file_holds s [] image → room s e →
  let applied := (apply_journal_entry image (stamp (fs_next_sequence s) e).1).1 in
  let '(s', c) := FileStore.append e s in
  (c = StatusCode.Ok → file_live s' ∧ file_holds s' [] applied) ∧
  (c ≠ StatusCode.Ok → (∃ tail, file_holds s' tail image) ∨ file_holds s' [] applied).
Proof.
  intros (Ho & (h & Hh & Hp) & data & Hdata) Hs [He Hroom]. specialize (Hroom data Hdata). cbv zeta.
  unfold FileStore.append. rewrite Hh, Ho. cbn [negb]. destruct (stamp _ e) as [stamped next]. cbn [fst] in *.
  pose proof (frame_nonempty _ _ (proj1 He)) as Hne. destruct (encode_journal_entry stamped) as [|b l] eqn:Ef; [done|].
  rewrite <-Ef in *. clear Ef Hne b l. unfold FileStore.on_disk. cbn.
  destruct (write _ h (fs_disk s)) as [d1 [h1 wrote]] eqn:Ew.
  destruct (write_nodes _ _ _ _ _ _ _ _ Hp Hdata Ew) as (Hp1 & k & Hn & Hall).
  pose proof (disk_holds_write _ _ _ _ _ k _ Hdata Hs He Hroom) as Hw. cbv zeta in Hw. rewrite <-Hn in Hw.
  assert (Hbad : (∃ tail, disk_holds (fs_limits s) (fs_directory s) (nodes d1) tail image) ∨
    disk_holds (fs_limits s) (fs_directory s) (nodes d1) [] (apply_journal_entry image stamped).1)
    by (case_decide; [by right|by left]).
  destruct (ok wrote) eqn:Eok; cbn; [|split; [intros ->; done|done]].
  apply ok_spec in Eok. specialize (Hall Eok).
  rewrite decide_True in Hw by (rewrite <-Hall, length_take; lia).
  assert (Hlive : ∃ bytes, nodes d1 !! journal_path (fs_directory s) = Some (File bytes)).
  { eexists. by rewrite Hn, lookup_insert_eq. }
  destruct (fs_barrier_per_append s).
  - pose proof (flush_nodes h1 d1) as Hf. destruct (flush h1 d1) as [d2 flushed]. cbn in Hf |- *.
    destruct (ok flushed) eqn:Ef; cbn; unfold file_live, file_holds; cbn; rewrite Hf.
    + split; [|done]. intros _. split; [|done]. split; [done|]. split; [by exists h1|done].
    + split; [intros ->; done|]. intros _. done.
  - cbn. split; [|done]. intros _. split; [|done]. split; [done|]. split; [by exists h1|done].
Qed.

(** *** Compaction *)

Section compaction.
Context (limits : StoreLimits) (dir : string).

Lemma remove_holds p d tail image :
  apart dir p → disk_holds limits dir (nodes d) tail image → disk_holds limits dir (nodes (remove_file p d).1) tail image.
Proof.
  intros Hp Hh. unfold remove_file. destruct (os_unlink p d) as [d' b] eqn:E. cbn.
  apply attempt_cases in E as [[_ E]|[_ ->]]; [|done]. injection E as <-. by apply disk_holds_delete.
Qed.

Lemma remove_nodes p d q : q ≠ p → nodes (remove_file p d).1 !! q = nodes d !! q.
Proof.
  intros Hq. unfold remove_file. destruct (os_unlink p d) as [d' b] eqn:E. cbn.
  apply attempt_cases in E as [[_ E]|[_ ->]]; [|done]. injection E as <-. by rewrite lookup_delete_ne.
Qed.

(** The snapshot is replaced in one step or not at all, for every script, when
    the temporary name is new. *)
Lemma atomic_replace_cases d d' c tail image :
  nodes d !! sibling_of (snapshot_path dir) (process_id d) (sibling_counter d) = None →
  snapshot_ok limits image → disk_holds limits dir (nodes d) tail image →
  atomic_replace_file (snapshot_path dir) (encode_snapshot image) d = (d', c) →
  disk_holds limits dir (nodes d') tail image ∧
  (c = StatusCode.Ok → nodes d' !! snapshot_path dir = Some (File (encode_snapshot image))).
Proof.
  intros Hfresh Hok Hh. unfold atomic_replace_file, unique_sibling.
  pose proof (sibling_apart dir (process_id d) (sibling_counter d)) as Hap.
  set (temp := sibling_of _ _ _) in *. set (d0 := d <| sibling_counter ::= u64_succ |>).
  change (nodes d) with (nodes d0) in Hfresh, Hh. clearbody d0 temp. clear d.
  destruct (open_append temp d0) as [d1 opened] eqn:E1. apply open_append_nodes in E1 as [N1 H1].
  assert (Hh1 : disk_holds limits dir (nodes d1) tail image) by (destruct N1 as [->|[_ ->]]; [done|by apply disk_holds_insert]).
  destruct opened as [h|c1]; [|subst c1; by intros [= <- <-]]. destruct H1 as [Hp [old Hold]].
  assert (old = []) as ->.
  { destruct N1 as [N1|[_ N1]]; rewrite N1 in Hold; [congruence|]. rewrite lookup_insert_eq in Hold. congruence. }
  destruct (write (encode_snapshot image) h d1) as [d2 [h2 wrote]] eqn:E2.
  destruct (write_nodes _ _ _ _ _ _ _ _ Hp Hold E2) as (Hp2 & k & N2 & Hall). cbn [app] in N2.
  assert (Hh2 : disk_holds limits dir (nodes d2) tail image) by (rewrite N2; by apply disk_holds_insert).
  (* the ways out before the rename remove the sibling *)
  assert (Hout : ∀ d3 st, nodes d3 = nodes d2 → ok st = false → ((remove_file temp d3).1, st) = (d', c) →
    disk_holds limits dir (nodes d') tail image ∧
    (c = StatusCode.Ok → nodes d' !! snapshot_path dir = Some (File (encode_snapshot image)))).
  { intros d3 st N3 Hst [= <- <-]. split; [apply remove_holds; [done|by rewrite N3]|by intros ->]. }
  destruct (ok wrote) eqn:Ew; cbn [negb].
  2:{ pose proof (close_nodes h2 d2) as N3. destruct (close h2 d2) as [d3 ?]. by apply Hout. }
  apply ok_spec in Ew. specialize (Hall Ew). rewrite Hall in N2.
  pose proof (flush_nodes h2 d2) as N3. destruct (flush h2 d2) as [d3 flushed]. cbn in N3.
  destruct (ok flushed) eqn:Ef; cbn [negb].
  2:{ pose proof (close_nodes h2 d3) as N4. destruct (close h2 d3) as [d4 ?]. cbn in N4. rewrite N3 in N4. by apply Hout. }
  pose proof (close_nodes h2 d3) as N4. destruct (close h2 d3) as [d4 [h4 closed]]. cbn in N4. rewrite N3 in N4.
  destruct (ok closed) eqn:Ec; cbn [negb]; [|by apply Hout].
  destruct (os_rename temp (snapshot_path dir) d4) as [d5 renamed] eqn:E5.
  apply attempt_cases in E5 as [[-> E5]|[-> N5]]; cbn [negb]; [|rewrite N4 in N5; by apply Hout].
  rewrite N4, N2, lookup_insert_eq in E5. injection E5 as N5. rewrite delete_insert_eq in N5.
  assert (Hdone : nodes d' = nodes d5 → c = StatusCode.Ok → disk_holds limits dir (nodes d') tail image ∧
    (c = StatusCode.Ok → nodes d' !! snapshot_path dir = Some (File (encode_snapshot image)))).
  { intros -> ->. rewrite <-N5. split; [|intros _; by rewrite lookup_insert_eq].
    apply disk_holds_snapshot; [done|]. by apply disk_holds_delete. }
  pose proof (os_call_nodes d5) as N6. destruct (os_call d5) as [d6 b6]. cbn in N6.
  destruct b6; cbn [negb]; [|by intros [= <- <-]; apply Hdone].
  pose proof (os_call_nodes d6) as N7. destruct (os_call d6) as [d7 ?]. cbn in N7.
  pose proof (os_call_nodes d7) as N8. destruct (os_call d7) as [d8 ?]. cbn in N8.
  intros [= <- <-]. apply Hdone; [congruence|done].
Qed.

(** Rotation: the journal goes, or stays with the snapshot that covers it. *)
Lemma rotate_cases d d' c tail image :
  nodes d !! snapshot_path dir = Some (File (encode_snapshot image)) → snapshot_ok limits image →
  disk_holds limits dir (nodes d) tail image →
  rotate_file (journal_path dir) (compacted_path dir) d = (d', c) →
  disk_holds limits dir (nodes d') [] image ∨ disk_holds limits dir (nodes d') tail image.
Proof.
  intros Hs Hok Hh. unfold rotate_file, path_exists. pose proof (os_find_nodes (journal_path dir) d) as N1.
  destruct (os_find _ d) as [d1 found]. cbn in N1. rewrite <-N1 in Hs, Hh. destruct found; cbn [negb]; [|intros [= <- _]; by right].
  destruct (compacted_apart dir) as (A1 & A2 & A3).
  destruct (os_unlink _ d1) as [d2 ?] eqn:E2.
  assert (Hh2 : disk_holds limits dir (nodes d2) tail image ∧ nodes d2 !! snapshot_path dir = nodes d1 !! snapshot_path dir).
  { apply attempt_cases in E2 as [[_ E]|[_ ->]]; [|done]. injection E as <-. split; [by apply disk_holds_delete|].
    by rewrite lookup_delete_ne. }
  destruct Hh2 as [Hh2 Hs2]. rewrite Hs in Hs2. destruct (os_rename _ _ d2) as [d3 renamed] eqn:E3. intros [= <- _].
  apply attempt_cases in E3 as [[_ E]|[_ ->]]; [|by right]. left. destruct (nodes d2 !! journal_path dir); [|done].
  injection E as <-. apply disk_holds_insert; [done|]. apply disk_holds_rotate; [done|done|apply Hh2].
Qed.
End compaction.

Lemma file_compact_cases s tail image :
  file_live s → file_holds s tail image → snapshot_ok (fs_limits s) image →
  nodes (fs_disk s) !! sibling_of (snapshot_path (fs_directory s)) (process_id (fs_disk s)) (sibling_counter (fs_disk s)) = None →
  let '(s', c) := FileStore.compact image s in
  (file_holds s' [] image ∨ file_holds s' tail image) ∧ (c = StatusCode.Ok → file_live s').
Proof.
  intros (Ho & (h & Hh & Hp) & data & Hdata) Hs Hok Hfresh. unfold FileStore.compact. rewrite Ho, Hh. cbn [negb default].
  unfold FileStore.on_disk. cbn. pose proof (close_nodes h (fs_disk s)) as N1. pose proof (close_process h (fs_disk s)) as [Pp Pc].
  destruct (close h (fs_disk s)) as [d1 [h1 closed]]. cbn in N1, Pp, Pc. unfold file_holds in *. rewrite <-N1, <-?Pp, <-?Pc in *.
  destruct (ok closed) eqn:Ec; cbn; [|split; [by right|intros ->; done]].
  destruct (atomic_replace_file _ _ d1) as [d2 replaced] eqn:E2.
  destruct (atomic_replace_cases _ _ _ _ _ _ _ Hfresh Hok Hs E2) as [Hs2 Hsnap].
  destruct (ok replaced) eqn:Er; cbn.
  2:{ destruct (open_append _ d2) as [d3 r] eqn:E3. pose proof (open_append_holds _ _ _ _ _ _ _ E3 Hs2) as Hs3.
      destruct r; (split; [by right|intros ->; done]). }
  apply ok_spec in Er. specialize (Hsnap Er).
  destruct (rotate_file _ _ d2) as [d3 rotated] eqn:E3. pose proof (rotate_cases _ _ _ _ _ _ _ Hsnap Hok Hs2 E3) as Hs3.
  destruct (ok rotated) eqn:Ert; cbn; [|split; [done|intros ->; done]].
  pose proof (λ t, remove_holds (fs_limits s) (fs_directory s) (compacted_path (fs_directory s)) d3 t image (compacted_apart _)) as Hrm.
  destruct (remove_file _ d3) as [d4 removed]. cbn in Hrm.
  assert (Hs4 : disk_holds (fs_limits s) (fs_directory s) (nodes d4) [] image ∨
    disk_holds (fs_limits s) (fs_directory s) (nodes d4) tail image) by (destruct Hs3; [left|right]; by apply Hrm).
  destruct (ok removed) eqn:Erm; cbn; [|split; [done|intros ->; done]].
  destruct (open_append _ d4) as [d5 reopened] eqn:E5.
  assert (Hs5 : disk_holds (fs_limits s) (fs_directory s) (nodes d5) [] image ∨
    disk_holds (fs_limits s) (fs_directory s) (nodes d5) tail image).
  { destruct Hs4 as [Hs4|Hs4]; [left|right]; exact (open_append_holds _ _ _ _ _ _ _ E5 Hs4). }
  apply open_append_nodes in E5 as [_ H5]. destruct reopened as [h5|c5]; cbn; (split; [done|]); [|subst c5; done].
  intros _. split; [done|]. split; [exists h5; by split; [|apply H5]|]. apply H5.
Qed.

(** *** Opening *)

(** A process that meets no trouble. *)
Definition quiet (d : Disk) : Prop := script d = [] ∧ dead d = false.

Lemma attempt_quiet effect d :
  quiet d → attempt effect d = match effect (nodes d) with Some ns => (d <| nodes := ns |>, true) | None => (d, false) end.
Proof. intros [Hs Hd]. unfold attempt, next_event. rewrite Hs, Hd. by destruct (effect (nodes d)). Qed.

Lemma os_call_quiet d : quiet d → os_call d = (d, true).
Proof. intros Hq. unfold os_call. rewrite attempt_quiet by done. by destruct d. Qed.

Lemma os_find_quiet path d : quiet d → os_find path d = (d, bool_decide (is_Some (nodes d !! path))).
Proof.
  intros Hq. unfold os_find. rewrite attempt_quiet by done. destruct (nodes d !! path) eqn:E; [|done]. by destruct d.
Qed.

Lemma query_quiet path bytes d :
  quiet d → nodes d !! path = Some (File bytes) → query_file_size path d = (d, Some (N.of_nat (length bytes))).
Proof. intros Hq Hf. unfold query_file_size. rewrite os_find_quiet by done. by rewrite Hf. Qed.

Lemma read_quiet path bytes limit d :
  quiet d → nodes d !! path = Some (File bytes) → (N.of_nat (length bytes) ≤ limit)%N →
  read_entire_file path limit d = (d, success bytes).
Proof.
  intros Hq Hf Hl. unfold read_entire_file. rewrite os_find_quiet, !os_call_quiet by done. rewrite Hf. cbn [bool_decide negb].
  destruct (N.ltb_spec limit (node_size (Some (File bytes)))) as [Hlt|_]; [cbn in Hlt; lia|].
  rewrite (query_quiet _ _ _ Hq Hf), os_find_quiet by done. rewrite Hf. cbn [bool_decide negb]. rewrite Nat2N.id.
  assert (Hr : read_loop (length bytes + length (script d)) path (length bytes) [] d = (d, success bytes)).
  { destruct Hq as [Hs Hd]. rewrite Hs. destruct bytes as [|b l] eqn:Eb; [done|]. rewrite <-Eb in *.
    assert (Hn : length bytes = S (length l)) by (by subst). rewrite Hn at 1. cbn [Nat.add read_loop].
    rewrite decide_False by (cbn; lia). rewrite Hf. cbn [length drop]. rewrite Nat.sub_0_r, Nat.min_id.
    unfold os_read, next_event. rewrite Hd, Hs, Hn. cbn [app]. rewrite take_ge by lia.
    rewrite drop_0, Hn. generalize (length l + 0). intros [|f]; cbn [read_loop]; by rewrite decide_True by lia. }
  rewrite Hr. by rewrite os_call_quiet.
Qed.

Lemma open_append_quiet path d :
  quiet d → nodes d !! path ≠ Some Directory →
  ∃ d' h, open_append path d = (d', success h) ∧ quiet d' ∧ h_path h = Some path ∧
    (∃ bytes, nodes d' !! path = Some (File bytes)) ∧
    (nodes d' = nodes d ∨ nodes d !! path = None ∧ nodes d' = <[path := File []]> (nodes d)).
Proof.
  intros Hq Hn. destruct (open_append path d) as [d' r] eqn:E. pose proof (open_append_nodes _ _ _ _ E) as [H1 H2].
  unfold open_append, os_create in E. rewrite attempt_quiet in E by done.
  destruct (nodes d !! path) as [[bytes|]|] eqn:Ep; [|done|]; cbn [negb] in E; rewrite os_call_quiet in E by done;
    cbn [negb] in E; injection E as <- <-; do 2 eexists; (split; [reflexivity|]); (split; [done|]); destruct H2; auto.
Qed.

(** What a trouble-free [open] ends with. *)
Definition opened_as (s s' : FileDurableStore) (tail : list byte) (image : DurableImage) (report : LoadReport) : Prop :=
  file_live s' ∧ file_holds s' tail image ∧ quiet (fs_disk s') ∧
  fs_limits s' = fs_limits s ∧ fs_directory s' = fs_directory s ∧
  fs_next_sequence s' = u64_succ (img_sequence image) ∧
  lr_truncated_tail report = negb (bool_decide (tail = [])) ∧
  lr_corrupt_records report = (if decide (tail = []) then 0 else 1)%N.

Lemma load_journal_loads s base es tail report :
  quiet (fs_disk s) → journal_node (fs_limits s) (fs_directory s) (nodes (fs_disk s)) es tail →
  file_holds s tail (replay base es) → lr_truncated_tail report = false → lr_corrupt_records report = 0%N →
  ∃ s' report', FileStore.load_journal base report s = (s', success (report', replay base es)) ∧
    opened_as s s' tail (replay base es) report'.
Proof.
  intros Hq Hj Hs Ht Hr. unfold FileStore.load_journal, FileStore.on_disk.
  assert (Hdir : nodes (fs_disk s) !! journal_path (fs_directory s) ≠ Some Directory) by (destruct Hj as [(-> & _)|(? & -> & _)]; done).
  (* the end of both ways *)
  assert (Hfin : ∀ report', lr_truncated_tail report' = negb (bool_decide (tail = [])) →
    lr_corrupt_records report' = (if decide (tail = []) then 0 else 1)%N →
    ∃ s' report'', (let '(s, handle) :=
        let '(d, a) := open_append (journal_path (fs_directory s)) (fs_disk s) in
        (s <| fs_next_sequence := u64_succ (img_sequence (replay base es)) |> <| fs_disk := d |>, a) in
      match handle with
      | failure c => (s, failure c)
      | success handle => (s <| fs_journal := Some handle |> <| fs_opened := true |>, success (report', replay base es))
      end) = (s', success (report'', replay base es)) ∧ opened_as s s' tail (replay base es) report'').
  { intros report' Ht' Hr'. destruct (open_append_quiet (journal_path (fs_directory s)) (fs_disk s) Hq Hdir) as (d' & h & E & Hq' & Hh & Hb & Hn).
    rewrite E. do 2 eexists. split; [reflexivity|].
    split; [split; [done|split; [by exists h|exact Hb]]|].
    split; [exact (open_append_holds _ _ _ _ _ _ _ E Hs)|done]. }
  destruct Hj as [(Hn & -> & ->)|(data & Hn & Hh & Hl)].
  - assert (Hqs : query_file_size (journal_path (fs_directory s)) (fs_disk s) = (fs_disk s, None)).
    { unfold query_file_size. rewrite os_find_quiet by done. by rewrite Hn. }
    rewrite Hqs. cbn. destruct (N.ltb_spec (max_journal_bytes (fs_limits s)) 0); [lia|].
    unfold path_exists. rewrite os_find_quiet by done. rewrite Hn. cbn. by apply Hfin.
  - rewrite (query_quiet _ _ _ Hq Hn). cbn. destruct (N.ltb_spec (max_journal_bytes (fs_limits s)) (N.of_nat (length data))); [lia|].
    unfold path_exists. rewrite os_find_quiet by done. rewrite Hn. cbn. rewrite (read_quiet _ _ _ _ Hq Hn Hl). cbn.
    rewrite (replay_held _ _ _ _ _ _ Hh). apply Hfin; case_decide; cbn; rewrite ?Ht, ?Hr; try done.
    + by rewrite bool_decide_true.
    + by rewrite bool_decide_false.
Qed.

Lemma file_open_loads s tail image :
  quiet (fs_disk s) → file_holds s tail image →
  ∃ s' report, FileStore.open s = (s', success (report, image)) ∧ opened_as s s' tail image report.
Proof.
  intros Hq Hs. unfold FileStore.open, FileStore.on_disk.
  destruct (paths_apart (fs_directory s)) as (P1 & P2 & P3).
  assert (Hdir : ∃ d', ensure_directory (fs_directory s) (fs_disk s) = (d', StatusCode.Ok) ∧ quiet d' ∧
    disk_holds (fs_limits s) (fs_directory s) (nodes d') tail image).
  { unfold ensure_directory, path_exists. rewrite os_find_quiet by done. pose proof Hs as [[Hn|Hn] Hrest]; rewrite Hn.
    - cbn. unfold os_mkdir. rewrite attempt_quiet by done. eexists. split; [reflexivity|]. split; [done|]. cbn.
      split; [right; by rewrite lookup_insert_eq|]. unfold snapshot_holds, journal_node in *. by rewrite !lookup_insert_ne by done.
    - cbn. rewrite os_call_quiet by done. rewrite Hn. by exists (fs_disk s). }
  destruct Hdir as (d1 & -> & Hq1 & Hd1). cbn. unfold path_exists. rewrite os_find_quiet by done.
  set (s1 := s <| fs_disk := d1 |>). pose proof Hd1 as (_ & base & es & Hsnap & Hj & ->).
  pose proof (load_journal_loads s1 base es tail) as Hload.
  destruct Hsnap as [[Hn ->]|(bytes & Hn & Hdec)]; rewrite Hn; cbn.
  - by apply (Hload default_LoadReport).
  - rewrite (query_quiet _ _ _ Hq1 Hn). cbn. rewrite (read_quiet _ _ _ _ Hq1 Hn (proj1 (decoded_snapshot _ _ _ Hdec))). cbn. rewrite Hdec.
    by apply Hload.
Qed.

(** *** What the operations never change *)

Definition same_place (s s' : FileDurableStore) : Prop := fs_limits s' = fs_limits s ∧ fs_directory s' = fs_directory s.

Lemma append_place e s : same_place s (FileStore.append e s).1.
Proof.
  unfold FileStore.append, FileStore.on_disk. destruct (fs_journal s) as [h|]; [|done]. destruct (negb _); [done|].
  destruct (stamp _ e) as [stamped next]. destruct (encode_journal_entry stamped); [done|]. cbn.
  destruct (write _ h _) as [d1 [h1 wrote]]. cbn. destruct (negb (ok wrote)); [done|].
  destruct (fs_barrier_per_append s); [|done]. destruct (flush h1 d1) as [d2 flushed]. cbn. by destruct (negb (ok flushed)).
Qed.

Lemma compact_place image s : same_place s (FileStore.compact image s).1.
Proof.
  unfold FileStore.compact, FileStore.on_disk. destruct (negb _); [done|]. cbn.
  destruct (close _ _) as [d1 [h1 closed]]. cbn. destruct (negb (ok closed)); [done|].
  destruct (atomic_replace_file _ _ d1) as [d2 replaced]. cbn. destruct (negb (ok replaced)).
  { destruct (open_append _ d2) as [d3 []]; done. }
  destruct (rotate_file _ _ d2) as [d3 rotated]. cbn. destruct (negb (ok rotated)); [done|].
  destruct (remove_file _ d3) as [d4 removed]. cbn. destruct (negb (ok removed)); [done|].
  by destruct (open_append _ d4) as [d5 []].
Qed.

(** A new process opens the directory of [s] on the disk [s] left. *)
Definition reopen (pid : N) (s : FileDurableStore) : FileDurableStore * result (LoadReport * DurableImage) :=
  FileStore.open (new_FileDurableStore (restart pid [] (fs_disk s)) (fs_directory s) (fs_limits s) (fs_barrier_per_append s)).

Lemma reopen_loads pid s tail image :
  file_holds s tail image →
  ∃ s' report, reopen pid s = (s', success (report, image)) ∧
    opened_as (new_FileDurableStore (restart pid [] (fs_disk s)) (fs_directory s) (fs_limits s) (fs_barrier_per_append s))
      s' tail image report.
Proof. intros Hs. by apply file_open_loads. Qed.

Lemma write_quiet data h d : quiet d → quiet (write data h d).1.
Proof.
  unfold write. destruct (h_path h) as [path|]; [|done]. generalize (length data + length (script d)) as fuel.
  intros fuel. revert data h d. induction fuel as [|fuel IH]; intros [|b data] h d Hq; try done.
  cbn [write_loop]. unfold os_write, next_event. destruct Hq as [Hs Hd]. rewrite Hs, Hd.
  destruct (length (chunk_of (b :: data))); [done|]. by apply IH.
Qed.

(** An append that meets no error is accepted. *)
Lemma append_accepted_quiet s e :
  file_live s → storable (fs_limits s) (stamp (fs_next_sequence s) e).1 → quiet (fs_disk s) →
  (FileStore.append e s).2 = StatusCode.Ok.
Proof.
  intros (Ho & (h & Hh & Hp) & data & Hdata) He [Hs Hd]. unfold FileStore.append, FileStore.on_disk. rewrite Hh, Ho. cbn [negb].
  destruct (stamp _ e) as [stamped next]. cbn [fst] in He. pose proof (frame_nonempty _ _ (proj1 He)) as Hne.
  destruct (encode_journal_entry stamped) as [|b l]; [done|]. cbn.
  pose proof (write_completes _ (b :: l) h (fs_disk s) Hp Hd) as Hw. rewrite Hs in Hw. specialize (Hw (List.Forall_nil _)).
  pose proof (write_quiet (b :: l) h (fs_disk s) (conj Hs Hd)) as Hq.
  destruct (write (b :: l) h (fs_disk s)) as [d1 [h1 wrote]] eqn:Ew. cbn in Hw, Hq. subst wrote. cbn.
  destruct (fs_barrier_per_append s); [|done].
  destruct (write_nodes _ _ _ _ _ _ _ _ Hp Hdata Ew) as [Hp1 _].
  unfold flush, valid. rewrite Hp1. cbn. by rewrite os_call_quiet.
Qed.
