(* ===== verification/Durability.v ===== *)
(** * What the durable state survives

    The properties of the binary formats and of the two stores: records,
    frames and snapshots decode to what was encoded and to nothing else, a
    journal loads up to its first bad record, and the file store loses neither
    an acknowledged entry nor the image under a crash at any system call. *)
From Stdlib Require Import Strings.Byte Strings.String.
From S2P Require Import Prelude Ids Enums Status Bytes Policy Evidence Model Decisions.
From S2P Require Import Serialize Codec Checksum Persistence Framing Files Stores Replay StoreFacts.

(** ** A small concrete state *)

Definition sample_entry : JournalEntry := mkJournalEntry 1 (SetEpoch (from_value 7)).
Definition sample_image : DurableImage := (apply_journal_entry default_DurableImage sample_entry).1.

Lemma sample_storable : storable default_StoreLimits sample_entry.
Proof. split; [|done]. split; [done|]. split; [done|]. by intros bytes [= <-]. Qed.

Lemma empty_fits {K A} `{Countable K} limits (key : A → K) fits : fits_collection limits key fits ∅.
Proof. split; [apply map_Forall_empty|]. split; [apply N.le_0_l|done]. Qed.

Lemma sample_snapshot_ok : snapshot_ok default_StoreLimits sample_image.
Proof. split; [split; try apply empty_fits; done|]. vm_compute. by split_and!. Qed.

(** A store opened on an empty disk, and the same store with outcomes to come. *)
Definition sample_disk : Disk := mkDisk ∅ [] false 1 0.
Definition sample_store : FileDurableStore :=
  (FileStore.open (new_FileDurableStore sample_disk "d" default_StoreLimits true)).1.
Definition sample_with (events : list event) : FileDurableStore :=
  sample_store <| fs_disk ::= λ d, d <| script := events |> |>.

Lemma sample_holds events : file_live (sample_with events) ∧ file_holds (sample_with events) [] default_DurableImage.
Proof.
  split.
  - split; [done|]. split; [by eexists|by exists []].
  - split; [by right|]. exists default_DurableImage, []. split; [by left|]. split; [|done]. right. exists [].
    split; [done|]. split; [|done]. split; [done|]. split; [constructor|by left].
Qed.

(** ** Encodings *)

(** Canonical records.  For every durable record the decoder returns
    exactly the record that was encoded and leaves what follows it, and what it
    accepts is the encoding of the record it returns: every record has one
    encoding, and no other bytes are accepted for it. *)
Theorem records_are_canonical limits :
  Lawful (fits_policy limits) encode_policy (decode_policy limits) ∧
  Lawful (fits_evidence limits) encode_evidence (decode_evidence limits) ∧
  Lawful (fits_domain limits) encode_domain (decode_domain limits) ∧
  Lawful (fits_participant limits) encode_participant (decode_participant limits) ∧
  Lawful (fits_object limits) encode_object (decode_object limits) ∧
  Lawful (fits_region limits) encode_region (decode_region limits) ∧
  Lawful (fits_invalidation limits) encode_invalidation (decode_invalidation limits) ∧
  Lawful (fits_sync limits) encode_sync (decode_sync limits) ∧
  Lawful (fits_pending_publication limits) encode_pending_publication (decode_pending_publication limits).
Proof. split_and!; apply _. Qed.

(** C24: canonical journal frames.  An entry that fits a frame is decoded from
    it; a frame of the declared size that is accepted is the frame of the entry
    it decodes to; and changing up to four consecutive bytes of the payload in
    any way is answered with an integrity failure. *)
Theorem journal_frames_are_canonical limits :
  (∀ e, frame_ok limits e → decode_journal_entry (encode_journal_entry e) limits = success e) ∧
  (∀ frame e, decode_journal_entry frame limits = success e →
     N.of_nat (length frame) = (N.of_nat kJournalHeaderSize + load_le 4 frame 16)%N →
     frame_ok limits e ∧ frame = encode_journal_entry e) ∧
  (∀ e before a b after, frame_ok limits e → encode_payload (j_payload e) = Some (before ++ a ++ after) →
     length a = length b → length a ≤ 4 → a ≠ b →
     decode_journal_entry (take kJournalHeaderSize (encode_journal_entry e) ++ before ++ b ++ after) limits =
     failure StatusCode.IntegrityFailure).
Proof. split_and!; [apply decode_encoded|apply decoded_encode|apply corrupted_frame]. Qed.

Lemma journal_frames_are_canonical_witness :
  decode_journal_entry (encode_journal_entry sample_entry) default_StoreLimits = success sample_entry ∧
  decode_journal_entry (take kJournalHeaderSize (encode_journal_entry sample_entry) ++ [x07; x00; x00; x01; x00; x00; x00; x00])
    default_StoreLimits = failure StatusCode.IntegrityFailure.
Proof.
  destruct (journal_frames_are_canonical default_StoreLimits) as (H1 & _ & H3). split; [apply H1, sample_storable|].
  apply (H3 sample_entry [x07; x00; x00] [x00] [x01] [x00; x00; x00; x00] (proj1 sample_storable)); [vm_compute; reflexivity|done|cbn; lia|done].
Defined.

(** C25: canonical snapshots.  An image within the limits is loaded back from
    its snapshot; a file that is accepted is within the limits, names its own log
    position, and ends in the digest of everything before it. *)
Theorem snapshots_load_back limits :
  (∀ image, snapshot_ok limits image → decode_snapshot (encode_snapshot image) limits = success image) ∧
  (∀ bytes image, decode_snapshot bytes limits = success image →
     (N.of_nat (length bytes) ≤ max_snapshot_bytes limits)%N ∧ (record_count image ≤ max_records limits)%N ∧
     load_le 8 bytes 24 = img_sequence image ∧ ∃ body, bytes = body ++ sha256 body).
Proof. split; [apply decode_encoded_snapshot|intros; by apply decoded_snapshot]. Qed.

Lemma snapshots_load_back_witness :
  decode_snapshot (encode_snapshot sample_image) default_StoreLimits = success sample_image.
Proof. exact (proj1 (snapshots_load_back default_StoreLimits) _ sample_snapshot_ok). Defined.

(** ** Replay *)

(** C26: replay of a journal.  The loop ends for every input, and any bound at
    least as large as the input gives the same result.  Whole frames followed by
    a cut or damaged frame load as exactly the whole frames, and the report says
    so.  Whatever the bytes are, the image that comes out is the replay of the
    canonical frames they begin with. *)
Theorem journal_replay_is_exact limits image report :
  (∀ fuel data, length data ≤ fuel →
     replay_bytes fuel limits data image report = replay_bytes (length data) limits data image report) ∧
  (∀ es e n, Forall (storable limits) es → storable limits e → n < length (encode_journal_entry e) →
     let data := journal_of es ++ take n (encode_journal_entry e) in
     replay_bytes (length data) limits data image report =
     (replay image es, if decide (n = 0) then replayed (length es) report
                       else stop_replay true (replayed (length es) report))) ∧
  (∀ es e before a b after rest, Forall (storable limits) es → frame_ok limits e →
     encode_payload (j_payload e) = Some (before ++ a ++ after) → length a = length b → length a ≤ 4 → a ≠ b →
     let data := journal_of es ++ (take kJournalHeaderSize (encode_journal_entry e) ++ before ++ b ++ after) ++ rest in
     replay_bytes (length data) limits data image report =
     (replay image es, stop_replay true (replayed (length es) report))) ∧
  (∀ data, ∃ es tail, data = journal_of es ++ tail ∧ Forall (storable limits) es ∧
     (replay_bytes (length data) limits data image report).1 = replay image es).
Proof.
  split_and!.
  - intros fuel data Hf. by apply replay_fuel.
  - intros es e n Hes He Hn. cbv zeta.
    assert (Ht : take n (encode_journal_entry e) = [] ∨ rejects limits (take n (encode_journal_entry e))).
    { destruct n as [|n]; [by left|]. right. apply torn_rejects; [apply He|lia|done]. }
    rewrite (replay_held limits _ es (take n (encode_journal_entry e))) by done. f_equal.
    destruct n as [|n]; [done|]. rewrite !decide_False; [done|done|].
    intros E. apply (f_equal length) in E. rewrite length_take in E. cbn [length] in E. lia.
  - intros es e before a b after rest Hes Hok Hp Hl H4 Hne. cbv zeta.
    pose proof (corrupt_rejects limits e before a b after rest Hok Hp Hl H4 Hne) as Hr.
    rewrite (replay_held limits _ es _ image report (conj eq_refl (conj Hes (or_intror Hr)))).
    rewrite decide_False; [done|]. intros E. apply (f_equal length) in E. rewrite !length_app, length_take in E.
    destruct (frame_payload _ _ Hok) as (? & _ & _ & Hlen). unfold kJournalHeaderSize in *. cbn [length] in E. lia.
  - intros data. destruct (replay_sound limits data (length data) image report) as (es & tail & ? & ? & ? & _); [done|eauto].
Qed.

Lemma journal_replay_is_exact_witness :
  let data := journal_of [sample_entry] ++ take 30 (encode_journal_entry sample_entry) in
  replay_bytes (length data) default_StoreLimits data default_DurableImage default_LoadReport =
  (sample_image, stop_replay true (replayed 1 default_LoadReport)).
Proof.
  refine (proj1 (proj2 (journal_replay_is_exact default_StoreLimits default_DurableImage default_LoadReport))
    [sample_entry] sample_entry 30 _ sample_storable _); [|vm_compute; lia].
  constructor; [exact sample_storable|constructor].
Defined.

(** ** The stores *)

(** The memory store.  A store whose journal is whole loads the image it
    holds, with nothing reported; an append either adds its entry to that image
    or is the injected failure and adds nothing; compaction makes the image it
    is given the one that loads, with an empty journal; and a store whose last
    frame was cut loads the image without it and says the tail was truncated. *)
Theorem memory_store_keeps_image s image :
  memory_live s → memory_holds s [] image →
  (∃ s' report, Memory.open s = (s', success (report, image)) ∧ memory_live s' ∧ memory_holds s' [] image ∧
     lr_corrupt_records report = 0%N ∧ lr_truncated_tail report = false) ∧
  (∀ e, storable (ms_limits s) (stamp (ms_next_sequence s) e).1 →
     let '(s', c) := Memory.append e s in
     (c = StatusCode.Ok ∧ memory_holds s' [] (apply_journal_entry image (stamp (ms_next_sequence s) e).1).1) ∨
     (c = StatusCode.PersistenceFailure ∧ memory_holds s' [] image ∧
      ms_fail_append_at s = u64_succ (ms_append_count s))) ∧
  (∀ image', snapshot_ok (ms_limits s) image' →
     ∃ s', Memory.compact image' s = (s', StatusCode.Ok) ∧ memory_holds s' [] image' ∧ ms_journal s' = []) ∧
  (∀ e n, storable (ms_limits s) e → 0 < n → n < length (encode_journal_entry e) →
     ∃ s' report, Memory.open (Memory.set_journal_bytes (ms_journal s ++ take n (encode_journal_entry e)) s) =
       (s', success (report, image)) ∧ lr_truncated_tail report = true).
Proof.
  intros Hlive Hs. split_and!.
  - destruct (memory_open_loads s [] image (proj1 Hlive) Hs) as (s' & report & H1 & H2 & H3 & _ & H4 & H5). eauto 10.
  - intros e He. pose proof (memory_append_cases s image e Hlive Hs He) as H.
    destruct (Memory.append e s) as [s' c]. apply H.
  - intros image' Hi. destruct (memory_compact_holds s image' Hlive Hi) as (s' & H1 & _ & _ & H2 & H3). eauto.
  - intros e n He H0 Hn. destruct Hs as (base & es & (Hj & Hes & _) & -> & Hb). rewrite app_nil_r in Hj.
    destruct (memory_open_loads (Memory.set_journal_bytes (ms_journal s ++ take n (encode_journal_entry e)) s)
      (take n (encode_journal_entry e)) (replay base es)) as (s' & report & H1 & _ & _ & _ & H2 & _); [apply Hlive| |].
    + exists base, es. split; [|done]. split_and!; [cbn; by rewrite Hj|done|]. right. apply torn_rejects; [apply He|done|done].
    + exists s', report. split; [done|]. rewrite H2. rewrite bool_decide_false; [done|].
      intros E. apply (f_equal length) in E. rewrite length_take in E. cbn in E. lia.
Qed.

Lemma memory_store_keeps_image_witness :
  let s := (Memory.open (new_MemoryDurableStore default_StoreLimits)).1 in
  (Memory.append sample_entry s).2 = StatusCode.Ok ∧
  memory_holds (Memory.append sample_entry s).1 [] sample_image.
Proof.
  intros s. assert (Hh : memory_holds s [] default_DurableImage).
  { exists default_DurableImage, []. split; [|split; [done|by left]]. split; [done|]. split; [constructor|by left]. }
  pose proof (proj1 (proj2 (memory_store_keeps_image s default_DurableImage (conj eq_refl eq_refl) Hh)) sample_entry sample_storable) as H.
  destruct H as [H|(H & _)]; [exact H|discriminate H].
Defined.

(** C27: appending to the file store.  The store is open on its journal, the
    directory loads with nothing left over (the journal is whole: no earlier
    write failed part way), the entry is within the decoder's limits and has a
    log position once stamped, and the journal stays within its size limit.
    Then, whatever the system calls of the append do (fail, be interrupted, write
    a part, end the process in the middle), a process that opens the directory
    afterwards loads the image with the entry when the append had succeeded, and
    the image with or without it otherwise; and a store that meets no error
    accepts the entry. *)
Theorem file_append_is_atomic s e image :
  file_live s → file_holds s [] image → room s e →
  let applied := (apply_journal_entry image (stamp (fs_next_sequence s) e).1).1 in
  let '(s', c) := FileStore.append e s in
  (∀ pid, ∃ s'' report loaded, reopen pid s' = (s'', success (report, loaded)) ∧
     if decide (c = StatusCode.Ok) then loaded = applied ∧ lr_truncated_tail report = false
     else loaded = image ∨ loaded = applied) ∧
  (quiet (fs_disk s) → c = StatusCode.Ok).
Proof.
  intros Hl Hs Hr. cbv zeta. pose proof (file_append_cases s e image Hl Hs Hr) as Hc. cbv zeta in Hc.
  pose proof (append_accepted_quiet s e Hl (proj1 Hr)) as Hq.
  destruct (FileStore.append e s) as [s' c]. destruct Hc as [Hok Hbad]. split; [|done].
  intros pid. case_decide as E.
  - destruct (reopen_loads pid s' [] _ (proj2 (Hok E))) as (s'' & report & H1 & H2). do 3 eexists. split; [exact H1|].
    split; [done|]. apply H2.
  - destruct (Hbad E) as [[tail Ht]|Ht]; [destruct (reopen_loads pid s' tail _ Ht) as (s'' & report & H1 & _)|
      destruct (reopen_loads pid s' [] _ Ht) as (s'' & report & H1 & _)]; eauto 10.
Qed.

Lemma file_append_is_atomic_witness :
  let ran := FileStore.append sample_entry (sample_with [Interrupted; Transfers 10; Dies 5]) in
  ran.2 = StatusCode.PersistenceFailure ∧
  ∃ s report loaded, reopen 2 ran.1 = (s, success (report, loaded)) ∧ (loaded = default_DurableImage ∨ loaded = sample_image).
Proof.
  assert (Hc : (FileStore.append sample_entry (sample_with [Interrupted; Transfers 10; Dies 5])).2 = StatusCode.PersistenceFailure)
    by (vm_compute; reflexivity).
  cbv zeta. split; [exact Hc|]. destruct (sample_holds [Interrupted; Transfers 10; Dies 5]) as [Hl Hs].
  assert (Hr : room (sample_with [Interrupted; Transfers 10; Dies 5]) sample_entry).
  { split; [exact sample_storable|]. by intros data [= <-]. }
  pose proof (file_append_is_atomic _ _ _ Hl Hs Hr) as H. cbv zeta in H. revert Hc H.
  destruct (FileStore.append _ _) as [s' c]. cbn [fst snd]. intros -> [H _]. exact (H 2%N).
Defined.

(** C28: compaction of the file store.  Whatever the system calls of a
    compaction do, and wherever the process ends in it, a process that opens the
    directory afterwards loads the image that was compacted, as long as no file
    has the name of the temporary snapshot; when the compaction succeeded on a
    whole journal, nothing is reported as truncated and the store takes entries
    as before. *)
Theorem file_compaction_is_crash_safe s tail image :
  file_live s → file_holds s tail image → snapshot_ok (fs_limits s) image →
  nodes (fs_disk s) !! sibling_of (snapshot_path (fs_directory s)) (process_id (fs_disk s)) (sibling_counter (fs_disk s)) = None →
  let '(s', c) := FileStore.compact image s in
  (∀ pid, ∃ s'' report, reopen pid s' = (s'', success (report, image)) ∧
     (tail = [] → lr_truncated_tail report = false)) ∧
  (c = StatusCode.Ok → file_live s').
Proof.
  intros Hl Hs Hi Hf. pose proof (file_compact_cases s tail image Hl Hs Hi Hf) as Hc.
  destruct (FileStore.compact image s) as [s' c]. destruct Hc as [Hh Hok]. split; [|done]. intros pid.
  destruct Hh as [Hh|Hh]; destruct (reopen_loads pid s' _ _ Hh) as (s'' & report & H1 & H2); do 2 eexists; (split; [exact H1|]).
  - intros _. apply H2.
  - intros ->. apply H2.
Qed.

Lemma file_compaction_is_crash_safe_witness :
  (FileStore.compact default_DurableImage (sample_with [Succeeds; Succeeds; Succeeds; Dies 40])).2 = StatusCode.PersistenceFailure ∧
  ∃ s report, reopen 2 (FileStore.compact default_DurableImage (sample_with [Succeeds; Succeeds; Succeeds; Dies 40])).1 =
    (s, success (report, default_DurableImage)).
Proof.
  split; [vm_compute; reflexivity|]. destruct (sample_holds [Succeeds; Succeeds; Succeeds; Dies 40]) as [Hl Hs].
  assert (Hi : snapshot_ok (fs_limits (sample_with [Succeeds; Succeeds; Succeeds; Dies 40])) default_DurableImage).
  { split; [split; try apply empty_fits; done|]. vm_compute. by split_and!. }
  pose proof (file_compaction_is_crash_safe _ [] _ Hl Hs Hi eq_refl) as H.
  destruct (FileStore.compact _ _) as [s' c]. destruct H as [H _]. destruct (H 2%N) as (s'' & report & Hre & _).
  by do 2 eexists.
Defined.

(** ** Where the file store falls short *)

Definition later_entry : JournalEntry := mkJournalEntry 2 (SetEpoch (from_value 8)).

(** Entries after a failed write.  When a write stops in the middle of a
    frame without ending the process, the append is refused but the part stays
    in the journal; the next append is accepted, behind it, and a process that
    opens the directory loads neither entry. *)
Theorem append_after_failed_write_is_lost :
  let refused := FileStore.append sample_entry (sample_with [Transfers 10; Fails]) in
  let accepted := FileStore.append later_entry refused.1 in
  refused.2 = StatusCode.PersistenceFailure ∧ accepted.2 = StatusCode.Ok ∧
  ∃ report, (reopen 2 accepted.1).2 = success (report, default_DurableImage) ∧
    lr_truncated_tail report = true ∧ lr_journal_records_replayed report = 0%N.
Proof. vm_compute. split; [reflexivity|]. split; [reflexivity|]. eexists. split; [reflexivity|done]. Qed.

(** A temporary snapshot left behind.  The temporary file of a compaction
    is opened for append under a name made of the process number and a counter
    that starts at zero.  When a process ends while writing it and the next one
    has the same number, the compaction of that one appends to what is there,
    reports success, and removes the journal; the directory no longer opens. *)
Theorem leftover_sibling_destroys_snapshot :
  let stored := (FileStore.append sample_entry (sample_with [])).1 in
  let died := FileStore.compact sample_image (stored <| fs_disk ::= λ d, d <| script := [Succeeds; Succeeds; Succeeds; Dies 40] |> |>) in
  let again := reopen 1 died.1 in
  let compacted := FileStore.compact sample_image again.1 in
  (∃ report, again.2 = success (report, sample_image)) ∧ compacted.2 = StatusCode.Ok ∧
  (reopen 1 compacted.1).2 = failure StatusCode.TrailingGarbage.
Proof. vm_compute. split; [by eexists|done]. Qed.

(** A domain whose name is one byte longer than the decoder takes. *)
Definition long_name : string := Nat.iter 4097 (λ s, "a" +:+ s) "".
Definition long_domain : JournalEntry :=
  mkJournalEntry 1 (UpsertDomain (default_DomainRecord <| d_id := from_value 1 |> <| d_name := long_name |>)).

(** Names beyond the decoder's limit.  Neither the store nor the engine
    bounds the length of a name, but the decoder does: an entry with a longer
    one is accepted and ends the replay, with every entry after it; once it is
    in a snapshot the directory no longer opens. *)
Theorem long_names_stop_the_replay :
  let s1 := FileStore.append long_domain (sample_with []) in
  let s2 := FileStore.append later_entry s1.1 in
  let compacted := FileStore.compact (apply_journal_entry default_DurableImage long_domain).1 (sample_with []) in
  s1.2 = StatusCode.Ok ∧ s2.2 = StatusCode.Ok ∧
  (∃ report, (reopen 2 s2.1).2 = success (report, default_DurableImage) ∧ lr_journal_records_replayed report = 0%N) ∧
  compacted.2 = StatusCode.Ok ∧ (reopen 2 compacted.1).2 = failure StatusCode.TruncatedInput.
Proof.
  split; [vm_compute; reflexivity|]. split; [vm_compute; reflexivity|]. split; [|split; vm_compute; reflexivity].
  eexists. split; [vm_compute; reflexivity|reflexivity].
Qed.
