(* ===== verification/Engine.v ===== *)
(** * Engine state and helpers
    ([src/engine_impl.hpp], [src/engine_core.cpp], [src/engine_helpers.cpp])

    [Impl] is [CoherenceEngine::Impl].  Every engine operation holds the one
    state mutex from its first to its last statement, so an operation is a
    function from [Impl] to [Impl]; [publish], which releases the mutex while
    its record is made durable, is three such functions (see [Publish]).
    A C++ reference into a map is a key: a mutation through it is a write at
    that key. *)
From S2P Require Import Prelude Ids Enums Status Policy Evidence Model Decisions Persistence.

#[local] Set Primitive Projections.

(** [DecisionRecord], without its prose summary. *)
Record DecisionRecord := mkDecisionRecord {
  dl_kind : DecisionKind.t;
  dl_context : DecisionContext;
  dl_code : StatusCode.t }.

(** [CoherenceEngine::Impl], over the type [St] of the attached store. *)
Record Impl (St : Type) := mkImpl {
  config : EngineConfig;
  epoch : CoordinatorEpoch;
  sequence : OperationSequence;
  shutting_down : bool;
  shutdown_complete : bool;
  durable : DurableImage;
  domains : gmap CoherenceDomainId DomainRecord;
  participants : gmap ParticipantId ParticipantRecord;
  objects : gmap ObjectId ObjectRecord;
  regions : gmap RegionId RegionRecord;
  invalidations : gmap InvalidationId InvalidationRecord;
  syncs : gmap SyncOperationId SyncRecord;
  policies : gmap PolicyId CoherencePolicy;
  domain_index : gmap string CoherenceDomainId;
  participant_index : gmap string ParticipantId;
  object_index : gmap (CoherenceDomainId * string) ObjectId;
  region_index : gmap (ObjectId * string) RegionId;
  in_flight_publications : gmap PublicationId PendingPublication;
  next_domain_id : N;
  next_participant_id : N;
  next_object_id : N;
  next_region_id : N;
  next_replica_id : N;
  next_publication_id : N;
  next_invalidation_id : N;
  next_sync_id : N;
  next_lease_id : N;
  next_policy_id : N;
  next_evidence_id : N;
  next_decision_id : N;
  store : option St;
  next_journal_sequence : N;
  compaction_threshold_bytes : N;
  store_healthy : bool;
  recovery_performed : bool;
  recovery_report : RecoveryReport;
  decision_log : list DecisionRecord;
  decisions_recorded : N }.
Arguments mkImpl {St}.
Arguments config {St}. Arguments epoch {St}. Arguments sequence {St}.
Arguments shutting_down {St}. Arguments shutdown_complete {St}. Arguments durable {St}.
Arguments domains {St}. Arguments participants {St}. Arguments objects {St}.
Arguments regions {St}. Arguments invalidations {St}. Arguments syncs {St}.
Arguments policies {St}. Arguments domain_index {St}. Arguments participant_index {St}.
Arguments object_index {St}. Arguments region_index {St}.
Arguments in_flight_publications {St}. Arguments next_domain_id {St}.
Arguments next_participant_id {St}. Arguments next_object_id {St}.
Arguments next_region_id {St}. Arguments next_replica_id {St}.
Arguments next_publication_id {St}. Arguments next_invalidation_id {St}.
Arguments next_sync_id {St}. Arguments next_lease_id {St}. Arguments next_policy_id {St}.
Arguments next_evidence_id {St}. Arguments next_decision_id {St}. Arguments store {St}.
Arguments next_journal_sequence {St}. Arguments compaction_threshold_bytes {St}.
Arguments store_healthy {St}. Arguments recovery_performed {St}.
Arguments recovery_report {St}. Arguments decision_log {St}. Arguments decisions_recorded {St}.

#[export] Instance eta_Impl {St} : Eta (Impl St) := fun x => mkImpl
  (config x) (epoch x) (sequence x) (shutting_down x) (shutdown_complete x) (durable x)
  (domains x) (participants x) (objects x) (regions x) (invalidations x) (syncs x)
  (policies x) (domain_index x) (participant_index x) (object_index x) (region_index x)
  (in_flight_publications x) (next_domain_id x) (next_participant_id x) (next_object_id x)
  (next_region_id x) (next_replica_id x) (next_publication_id x) (next_invalidation_id x)
  (next_sync_id x) (next_lease_id x) (next_policy_id x) (next_evidence_id x)
  (next_decision_id x) (store x) (next_journal_sequence x) (compaction_threshold_bytes x)
  (store_healthy x) (recovery_performed x) (recovery_report x) (decision_log x)
  (decisions_recorded x).

#[local] Unset Primitive Projections.

(** The constructor [CoherenceEngine::CoherenceEngine]: the state a fresh
    engine starts in. *)
Definition make_engine {St} (cfg : EngineConfig) : Impl St :=
  let cfg := if (cfg_max_decision_log cfg =? 0)%N then cfg <| cfg_max_decision_log := 1%N |> else cfg in
  mkImpl cfg (from_value 1) (from_value 1) false false
    (default_DurableImage <| img_epoch := from_value 1 |>)
    ∅ ∅ ∅ ∅ ∅ ∅ ∅ ∅ ∅ ∅ ∅ ∅
    1 1 1 1 1 1 1 1 1 1 1 1
    None 1 8388608 true false default_RecoveryReport [] 0.

Section helpers.
Context {St : Type} `{DurableStore St}.
Implicit Types s : Impl St.

(** [Impl::tick]. *)
Definition tick s : Impl St := s <| sequence ::= next |>.

(** Writes through a reference into one of the maps. *)
Definition set_object (k : ObjectId) (o : ObjectRecord) s : Impl St := s <| objects ::= <[k := o]> |>.
Definition set_region (k : RegionId) (r : RegionRecord) s : Impl St := s <| regions ::= <[k := r]> |>.
Definition set_participant (k : ParticipantId) (p : ParticipantRecord) s : Impl St :=
  s <| participants ::= <[k := p]> |>.
Definition set_invalidation (k : InvalidationId) (i : InvalidationRecord) s : Impl St :=
  s <| invalidations ::= <[k := i]> |>.
Definition set_sync (k : SyncOperationId) (y : SyncRecord) s : Impl St := s <| syncs ::= <[k := y]> |>.

(** [make_evidence] of which the engine keeps the identity and generation;
    it consumes one evidence identity. *)
Definition make_evidence (kind : EvidenceKind.t) (klass : EvidenceClass.t)
    (participant : ParticipantId) (boot : ParticipantBootId) (object : ObjectId)
    (object_generation : ObjectGeneration) (region : RegionId)
    (region_generation : RegionGeneration) (version : VersionId) (content : ContentFingerprint)
    s : EvidenceRecord * Impl St :=
  let record := default_EvidenceRecord
    <| e_id := from_value (next_evidence_id s) |>
    <| e_generation := from_value 1 |>
    <| e_kind := kind |>
    <| e_evidence_class := klass |>
    <| e_participant := participant |>
    <| e_boot := boot |>
    <| e_epoch := epoch s |>
    <| e_object := object |>
    <| e_object_generation := object_generation |>
    <| e_region := region |>
    <| e_region_generation := region_generation |>
    <| e_observed_version := version |> in
  let record := if cf_defined content
    then record <| e_observed_digest := cf_digest content |> <| e_observed_crc32c := cf_crc32c content |>
    else record in
  let record := record
    <| e_sequence := sequence s |>
    <| e_process_local := match kind with
         | EvidenceKind.ProcessLifecycle | EvidenceKind.BackendCompletion
         | EvidenceKind.RuntimeObservation => true
         | _ => false
         end |> in
  (record, s <| next_evidence_id ::= u64_succ |>).

(** [make_context]: consumes one decision identity. *)
Definition make_context (authority : AuthorityContext) (object : ObjectId)
    (generation : ObjectGeneration) (ownership : OwnershipGeneration) s : DecisionContext * Impl St :=
  let found := if defined object then objects s !! object else None in
  let policy_generation := match found with Some o => o_policy_generation o | None => nil_id end in
  let context := {|
    dc_decision := from_value (next_decision_id s);
    dc_epoch := epoch s;
    dc_policy := match found with Some o => o_policy o | None => nil_id end;
    dc_policy_generation := if defined (ac_policy_generation authority)
                            then ac_policy_generation authority else policy_generation;
    dc_object := object;
    dc_object_generation := generation;
    dc_ownership_generation := ownership;
    dc_sequence := sequence s |} in
  (context, s <| next_decision_id ::= u64_succ |>).

(** [record_decision]: append to the bounded log, dropping the oldest. *)
Definition record_decision (kind : DecisionKind.t) (context : DecisionContext) (code : StatusCode.t) s
    : Impl St :=
  if cfg_enable_decision_log (config s) then
    let log := decision_log s ++ [mkDecisionRecord kind context code] in
    let excess := (N.of_nat (length log) - cfg_max_decision_log (config s))%N in
    s <| decision_log := drop (N.to_nat excess) log |> <| decisions_recorded ::= u64_succ |>
  else s.

(** [durability_active]. *)
Definition durability_active s : bool :=
  cfg_enable_durability (config s) && match store s with Some _ => true | None => false end.

(** [append_locked]: journal first, then the in-memory durable image. *)
Definition append_locked (payload : JournalPayload) s : Impl St * StatusCode.t :=
  match (if cfg_enable_durability (config s) then store s else None) with
  | None => (s, StatusCode.Ok)
  | Some st =>
      let stamped := mkJournalEntry (next_journal_sequence s) payload in
      let '(st', written) := ds_append stamped st in
      let s := s <| next_journal_sequence ::= u64_succ |> <| store := Some st' |> in
      if ok written then
        let '(image, applied) := apply_journal_entry (durable s) stamped in
        if ok applied then (s <| durable := image |>, StatusCode.Ok)
        else (s <| durable := image |> <| store_healthy := false |>, applied)
      else (s <| store_healthy := false |>, written)
  end.

(** Stamping of a group: consecutive log positions. *)
Fixpoint stamp_entries (n : N) (payloads : list JournalPayload) : list JournalEntry :=
  match payloads with
  | [] => []
  | p :: rest => mkJournalEntry n p :: stamp_entries (u64_succ n) rest
  end.

(** The apply loop of [append_many_locked]: stop at the first failure. *)
Fixpoint apply_entries (image : DurableImage) (entries : list JournalEntry)
    : DurableImage * StatusCode.t :=
  match entries with
  | [] => (image, StatusCode.Ok)
  | entry :: rest =>
      let '(image', applied) := apply_journal_entry image entry in
      if ok applied then apply_entries image' rest else (image', applied)
  end.

(** [append_many_locked]: one barrier covers the whole group. *)
Definition append_many_locked (payloads : list JournalPayload) s : Impl St * StatusCode.t :=
  match (if cfg_enable_durability (config s) then store s else None), payloads with
  | Some st, _ :: _ =>
      let stamped := stamp_entries (next_journal_sequence s) payloads in
      let s := s <| next_journal_sequence ::= λ n, Nat.iter (length payloads) u64_succ n |> in
      let '(st', written) := append_batch stamped st in
      let s := s <| store := Some st' |> in
      if ok written then
        let '(image, applied) := apply_entries (durable s) stamped in
        if ok applied then (s <| durable := image |>, StatusCode.Ok)
        else (s <| durable := image |> <| store_healthy := false |>, applied)
      else (s <| store_healthy := false |>, written)
  | _, _ => (s, StatusCode.Ok)
  end.

(** The [upsert_durable_*_locked] helpers ignore the append's status. *)
Definition upsert_durable_object_locked (record : ObjectRecord) s : Impl St :=
  (append_locked (UpsertObject (scrub_object_for_persistence record)) s).1.
Definition upsert_durable_region_locked (record : RegionRecord) s : Impl St :=
  (append_locked (UpsertRegion record) s).1.
Definition upsert_durable_participant_locked (record : ParticipantRecord) s : Impl St :=
  (append_locked (UpsertParticipant (scrub_participant_for_persistence record)) s).1.

(** [maybe_compact_locked]: never while a publication reservation exists. *)
Definition maybe_compact_locked s : Impl St * StatusCode.t :=
  match (if cfg_enable_durability (config s) then store s else None) with
  | None => (s, StatusCode.Ok)
  | Some st =>
      if decide (in_flight_publications s ≠ ∅) then (s, StatusCode.Ok) else
      if (ds_journal_bytes st <? compaction_threshold_bytes s)%N then (s, StatusCode.Ok) else
      let '(st', compacted) := ds_compact (durable s) st in
      let s := s <| store := Some st' |> in
      if ok compacted then (s, StatusCode.Ok) else (s <| store_healthy := false |>, compacted)
  end.

(** [compact_locked]. *)
Definition compact_locked s : Impl St :=
  match (if cfg_enable_durability (config s) then store s else None) with
  | None => s
  | Some st =>
      if decide (in_flight_publications s ≠ ∅) then s
      else s <| store := Some (ds_compact (durable s) st).1 |>
  end.

(** [object_replica_ids_locked]. *)
Definition object_replica_ids_locked (object : ObjectId) s : list RegionId :=
  match objects s !! object with Some o => o_replicas o | None => [] end.

Definition invalidation_requested s (id : InvalidationId) : bool :=
  match invalidations s !! id with
  | Some i => bool_decide (i_state i = InvalidationState.Requested)
  | None => false
  end.

(** [has_outstanding_invalidations_locked]. *)
Definition has_outstanding_invalidations_locked (object : ObjectId) s : bool :=
  match objects s !! object with
  | Some o => existsb (invalidation_requested s) (o_outstanding_invalidations o)
  | None => false
  end.

(** One iteration of [mark_regions_stale_locked]. *)
Definition superseded_region (authoritative : VersionId) (r : RegionRecord) : RegionRecord :=
  r <| r_state := CoherenceState.Stale |>
    <| r_note := ("superseded by authoritative version " ++ id_to_string authoritative)%string |>
    <| r_evidence := nil_id |>
    <| r_evidence_generation := nil_id |>.

Definition mark_region_stale (authoritative : VersionId) (except_region : RegionId) s (id : RegionId)
    : Impl St :=
  if decide (id = except_region) then s else
  match regions s !! id with
  | Some r =>
      if decide (r_state r = CoherenceState.Current) then
        let r := superseded_region authoritative r in
        upsert_durable_region_locked r (set_region id r s)
      else s
  | None => s
  end.

(** [mark_regions_stale_locked]. *)
Definition mark_regions_stale_locked (object : ObjectId) (authoritative : VersionId)
    (except_region : RegionId) s : Impl St :=
  match objects s !! object with
  | Some o => foldl (mark_region_stale authoritative except_region) s (o_replicas o)
  | None => s
  end.

(** The grants [release_reads_for_participant_locked] releases. *)
Definition grant_matches (participant : ParticipantId) (boot : ParticipantBootId) (g : ReadGrant) : bool :=
  negb (g_released g) && bool_decide (g_participant g = participant)
  && negb (uuid_defined boot && negb (bool_decide (g_boot g = boot))).

Definition release_matching (participant : ParticipantId) (boot : ParticipantBootId) (g : ReadGrant)
    : ReadGrant :=
  if grant_matches participant boot g then g <| g_released := true |> else g.

Definition release_reads_of_object (participant : ParticipantId) (boot : ParticipantBootId)
    s (id : ObjectId) : Impl St :=
  match objects s !! id with
  | Some o =>
      if existsb (grant_matches participant boot) (o_reads o) then
        let o := o <| o_reads ::= fmap (release_matching participant boot) |>
                   <| o_updated_sequence := sequence s |> in
        upsert_durable_object_locked o (set_object id o s)
      else s
  | None => s
  end.

(** [release_reads_for_participant_locked]. *)
Definition release_reads_for_participant_locked (participant : ParticipantId)
    (boot : ParticipantBootId) s : Impl St :=
  foldl (release_reads_of_object participant boot) s (sorted_keys (objects s)).

Definition any_live_reads (o : ObjectRecord) : bool := existsb (λ g, negb (g_released g)) (o_reads o).

(** [recompute_authority_locked] on the object a reference points to. *)
Definition recomputed_authority s (o : ObjectRecord) : AuthorityMode.t :=
  match o_authority o with
  | AuthorityMode.ExclusiveWriter => AuthorityMode.ExclusiveWriter
  | AuthorityMode.RevalidationRequired => AuthorityMode.RevalidationRequired
  | AuthorityMode.TransferPending =>
      if has_outstanding_invalidations_locked (o_id o) s
      then AuthorityMode.TransferPending else AuthorityMode.ExclusiveWriter
  | _ => if any_live_reads o then AuthorityMode.SharedReaders else AuthorityMode.None
  end.

Definition recompute_authority_locked (id : ObjectId) s : Impl St :=
  match objects s !! id with
  | Some o => set_object id (o <| o_authority := recomputed_authority s o |>) s
  | None => s
  end.

(** [release_region_name_locked]. *)
Definition release_region_name_locked (r : RegionRecord) s : Impl St :=
  if decide (region_index s !! (r_object r, r_name r) = Some (r_id r))
  then s <| region_index ::= delete (r_object r, r_name r) |> else s.

(** [retotal_participant_regions_locked]. *)
Definition count_region (ps : gmap ParticipantId ParticipantRecord) (r : RegionRecord)
    : gmap ParticipantId ParticipantRecord :=
  alter (λ p, p <| p_region_count ::= u64_succ |>) (r_participant r) ps.

Definition retotal_participant_regions_locked s : Impl St :=
  let zeroed := (λ p, p <| p_region_count := 0%N |>) <$> participants s in
  s <| participants := foldl count_region zeroed (omap (regions s !!.) (sorted_keys (regions s))) |>.
End helpers.
