(* ===== verification/Resolve.v ===== *)
(** * Authority resolution and replica selection ([src/engine_helpers.cpp]) *)
From S2P Require Import Prelude Ids Enums Status Policy Evidence Model Decisions Persistence Engine.

Section resolve.
Context {St : Type} `{DurableStore St}.
Implicit Types s : Impl St.

(** [resolve_locked]: the object pointer it leaves behind (set as soon as the
    object is found, also when a later check fails) and its outcome. *)
Definition resolve_object (ctx : AuthorityContext) s : option ObjectRecord :=
  if shutting_down s then None else
  if is_nil (ac_participant ctx) then None else
  if decide (ac_epoch ctx ≠ epoch s) then None else
  objects s !! ac_object ctx.

Definition resolve_locked (ctx : AuthorityContext) s : result (ObjectRecord * ParticipantRecord) :=
  if shutting_down s then failure StatusCode.ShuttingDown else
  if is_nil (ac_participant ctx) then failure StatusCode.InvalidArgument else
  if decide (ac_epoch ctx ≠ epoch s) then failure StatusCode.StaleEpoch else
  match objects s !! ac_object ctx with
  | None => failure StatusCode.UnknownObject
  | Some object =>
      if decide (o_generation object ≠ ac_object_generation ctx) then
        failure StatusCode.StaleObjectGeneration else
      if decide (o_lifecycle object = ObjectLifecycle.Retired) then failure StatusCode.Retired else
      if decide (o_lifecycle object = ObjectLifecycle.RecoveryRequired) then
        failure StatusCode.RecoveryRequired else
      if decide (o_lifecycle object = ObjectLifecycle.Quiescing) then failure StatusCode.Quiescing else
      if decide (defined (ac_policy_generation ctx) = true ∧
                 ac_policy_generation ctx ≠ o_policy_generation object) then
        failure StatusCode.StalePolicy else
      match participants s !! ac_participant ctx with
      | None => failure StatusCode.UnknownParticipant
      | Some participant =>
          if decide (p_lifecycle participant = ParticipantLifecycle.Fenced) then
            failure StatusCode.Fenced else
          if decide (p_lifecycle participant = ParticipantLifecycle.Retired) then
            failure StatusCode.Retired else
          if decide (p_boot participant ≠ ac_boot ctx) then failure StatusCode.StaleBoot else
          success (object, participant)
      end
  end.

(** The ownership generation a decision context records. *)
Definition resolved_ownership (ctx : AuthorityContext) s : OwnershipGeneration :=
  match resolve_object ctx s with Some o => o_ownership_generation o | None => nil_id end.

(** [resolve_internal_locked]: coordinator-internal requests. *)
Definition resolve_internal_locked (ctx : AuthorityContext) s : result ObjectRecord :=
  if shutting_down s then failure StatusCode.ShuttingDown else
  if decide (ac_epoch ctx ≠ epoch s) then failure StatusCode.StaleEpoch else
  match objects s !! ac_object ctx with
  | None => failure StatusCode.UnknownObject
  | Some object =>
      if decide (o_generation object ≠ ac_object_generation ctx) then
        failure StatusCode.StaleObjectGeneration else
      if decide (o_lifecycle object = ObjectLifecycle.Retired) then failure StatusCode.Retired else
      success object
  end.

(** [resolve_region_locked]. *)
Definition resolve_region_locked (object : ObjectRecord) (id : RegionId)
    (generation : RegionGeneration) s : result RegionRecord :=
  match regions s !! id with
  | None => failure StatusCode.UnknownRegion
  | Some region =>
      if decide (r_object region ≠ o_id object) then failure StatusCode.InvalidArgument else
      if decide (defined generation = true ∧ r_generation region ≠ generation) then
        failure StatusCode.StaleRegionGeneration else
      success region
  end.

(** [policy_locked]. *)
Definition policy_locked (object : ObjectRecord) s : option CoherencePolicy :=
  policies s !! o_policy object.

(** [is_synthetic_domain]. *)
Definition is_synthetic_domain (d : MemoryDomain.t) : bool :=
  match d with MemoryDomain.Synthetic | MemoryDomain.CxlClass => true | _ => false end.

(** [assess_region_locked]: the evidence a region carries, judged now. *)
Definition region_evidence_context (policy : CoherencePolicy) (region : RegionRecord) s
    : EvidenceContext := {|
  ec_current_epoch := epoch s;
  ec_live_boot := match participants s !! r_participant region with
                  | Some p => p_boot p | None => nil_uuid end;
  ec_participant := r_participant region;
  ec_current_sequence := sequence s;
  ec_max_age_operations := pol_evidence_max_age_operations policy;
  ec_synthetic_domain := is_synthetic_domain (r_memory_domain region) |}.

Definition region_evidence_record (region : RegionRecord) s : EvidenceRecord :=
  if defined (r_evidence region) then
    default_EvidenceRecord
      <| e_id := r_evidence region |>
      <| e_generation := r_evidence_generation region |>
      <| e_kind := EvidenceKind.ByteComparison |>
      <| e_evidence_class := r_evidence_class region |>
      <| e_participant := r_participant region |>
      <| e_boot := r_boot region |>
      <| e_epoch := epoch s |>
      <| e_region := r_id region |>
      <| e_region_generation := r_generation region |>
      <| e_observed_version := r_version region |>
      <| e_observed_digest := cf_digest (r_content region) |>
      <| e_observed_crc32c := cf_crc32c (r_content region) |>
      <| e_sequence := r_updated_sequence region |>
      <| e_process_local := true |>
  else
    default_EvidenceRecord <| e_id := nil_id |> <| e_kind := EvidenceKind.None |>.

Definition assess_region_locked (policy : CoherencePolicy) (region : RegionRecord) s
    : FreshnessAssessment :=
  assess_evidence (region_evidence_record region s) (region_evidence_context policy region s).

Definition region_state_is (p : CoherenceState.t → bool) s (id : RegionId) : bool :=
  match regions s !! id with Some r => p (r_state r) | None => false end.

(** The scan of [select_read_region_locked]: the first replica in the list
    whose state satisfies the predicate. *)
Definition first_replica (p : CoherenceState.t → bool) (replicas : list RegionId) s : RegionId :=
  match list_find (λ id, region_state_is p s id = true ∧ defined id = true) replicas with
  | Some (_, id) => id
  | None => nil_id
  end.

(** [select_read_region_locked] on the object at [key]; the cache field
    [preferred_current_replica] is written back. *)
Definition select_read_region_locked (key : ObjectId) (requested : RegionId) s : RegionId * Impl St :=
  if defined requested then (requested, s) else
  match objects s !! key with
  | None => (nil_id, s)
  | Some object =>
      let cached := o_preferred_current_replica object in
      if defined cached && region_state_is is_current_state s cached then (cached, s) else
      let object := if defined cached then object <| o_preferred_current_replica := nil_id |> else object in
      let best_current := first_replica is_current_state (o_replicas object) s in
      if defined best_current then
        (best_current, set_object key (object <| o_preferred_current_replica := best_current |>) s)
      else
        (first_replica is_readable_state (o_replicas object) s, set_object key object s)
  end.

(** [add_read_grant_locked]: the object with at most one more grant. *)
Definition same_grant (participant : ParticipantId) (boot : ParticipantBootId) (region : RegionRecord)
    (g : ReadGrant) : bool :=
  negb (g_released g) && bool_decide (g_participant g = participant) && bool_decide (g_boot g = boot)
  && bool_decide (g_region g = r_id region) && bool_decide (g_version g = r_version region).

Definition add_read_grant_locked (object : ObjectRecord) (region : RegionRecord)
    (participant : ParticipantId) (boot : ParticipantBootId) (lease : LeaseId) s : ObjectRecord :=
  if existsb (same_grant participant boot region) (o_reads object) then object else
  match o_authority object with
  | AuthorityMode.ExclusiveWriter | AuthorityMode.TransferPending => object
  | _ =>
      if (cfg_max_reads_per_object (config s) <=? N.of_nat (length (o_reads object)))%N then object else
      let grant := {|
        g_lease := lease;
        g_participant := participant;
        g_boot := boot;
        g_object := o_id object;
        g_object_generation := o_generation object;
        g_ownership_generation := o_ownership_generation object;
        g_version := r_version region;
        g_region := r_id region;
        g_region_generation := r_generation region;
        g_granted_sequence := sequence s;
        g_released := false |} in
      let object := object <| o_reads ::= λ l, l ++ [grant] |> in
      if decide (o_authority object = AuthorityMode.None)
      then object <| o_authority := AuthorityMode.SharedReaders |> else object
  end.
End resolve.
