(* ===== verification/Core.v ===== *)
(** * Domains, participants and fencing ([src/engine_core.cpp]) *)
From S2P Require Import Prelude Ids Enums Status Policy Evidence Model Decisions Persistence Engine.
From S2P Require Import Resolve.

Section core.
Context {St : Type} `{DurableStore St}.
Implicit Types s : Impl St.

(** [create_domain]. *)
Definition create_domain (name : string) s : Impl St * result DomainRecord :=
  if shutting_down s then (s, failure StatusCode.ShuttingDown) else
  if decide (name = ""%string) then (s, failure StatusCode.InvalidArgument) else
  if decide (is_Some (domain_index s !! name)) then (s, failure StatusCode.DuplicateIdentity) else
  if (cfg_max_domains (config s) <=? map_count (domains s))%N then
    (s, failure StatusCode.CapacityExceeded) else
  let record := {|
    d_id := from_value (next_domain_id s);
    d_name := name;
    d_generation := 1;
    d_lifecycle := DomainLifecycle.Active;
    d_created_epoch := epoch s;
    d_current_epoch := epoch s |} in
  let s := s <| next_domain_id ::= u64_succ |> in
  let '(s, written) := append_locked (UpsertDomain record) s in
  if ok written then
    let s := s <| domains ::= emplace (d_id record) record |>
               <| domain_index ::= emplace (d_name record) (d_id record) |> in
    (tick s, success record)
  else (s, failure written).

(** [get_domain]. *)
Definition get_domain (id : CoherenceDomainId) s : result DomainRecord :=
  match domains s !! id with Some d => success d | None => failure StatusCode.UnknownDomain end.

(** ** Participants *)

(** The body of the loop that retires the replicas of a superseded boot. *)
Definition superseded_boot_region (seq : OperationSequence) (r : RegionRecord) : RegionRecord :=
  r <| r_lifecycle := RegionLifecycle.Retired |>
    <| r_state := CoherenceState.Retired |>
    <| r_dirty := if decide (r_dirty r = DirtyCondition.DirtyUnpublished)
                  then DirtyCondition.DirtyLost else r_dirty r |>
    <| r_evidence := nil_id |>
    <| r_evidence_generation := nil_id |>
    <| r_invalidation_pending := false |>
    <| r_pending_invalidation := nil_id |>
    <| r_pending_invalidation_target := nil_id |>
    <| r_updated_sequence := seq |>
    <| r_note := "retired when the owning participant was re-admitted under a new boot identity" |>.

Definition retire_superseded_region (participant : ParticipantId) (boot : ParticipantBootId)
    s (id : RegionId) : Impl St :=
  match regions s !! id with
  | Some r =>
      if decide (r_participant r ≠ participant ∨ r_boot r ≠ boot) then s else
      if decide (r_lifecycle r = RegionLifecycle.Retired) then s else
      let r := superseded_boot_region (sequence s) r in
      upsert_durable_region_locked r (release_region_name_locked r (set_region id r s))
  | None => s
  end.

(** The record of the same incarnation registering again. *)
Definition reregistered_participant (ep : CoordinatorEpoch) (p : ParticipantRecord) : ParticipantRecord :=
  p <| p_last_epoch := ep |> <| p_live := true |>
    <| p_lifecycle := match p_lifecycle p with
         | ParticipantLifecycle.Observed | ParticipantLifecycle.Admitted_ => ParticipantLifecycle.Active
         | l => l
         end |>.

(** The record of a new boot under an existing durable name. *)
Definition readmitted_participant (boot : ParticipantBootId) (ep : CoordinatorEpoch)
    (p : ParticipantRecord) : ParticipantRecord :=
  p <| p_previous_boot := p_boot p |>
    <| p_boot := boot |>
    <| p_lifecycle := ParticipantLifecycle.Active |>
    <| p_live := true |>
    <| p_admitted_epoch := ep |>
    <| p_last_epoch := ep |>
    <| p_session := nil_uuid |>
    <| p_last_sequence := nil_id |>
    <| p_fence_reason := "superseded by a new participant boot identity" |>.

(** The record of a participant that was never seen. *)
Definition admitted_participant (id : ParticipantId) (name : string) (boot : ParticipantBootId)
    (ep : CoordinatorEpoch) : ParticipantRecord :=
  default_ParticipantRecord
    <| p_id := id |> <| p_name := name |> <| p_boot := boot |>
    <| p_lifecycle := ParticipantLifecycle.Active |>
    <| p_admitted_epoch := ep |> <| p_last_epoch := ep |> <| p_live := true |>.

(** The common tail: node label, journal, map and index. *)
Definition store_participant (node_label : string) (record : ParticipantRecord) s
    : Impl St * result ParticipantRecord :=
  let record := record <| p_node_label := node_label |> in
  let '(s, written) := append_locked (UpsertParticipant (scrub_participant_for_persistence record)) s in
  if ok written then
    let s := s <| participants ::= <[p_id record := record]> |>
               <| participant_index ::= <[p_name record := p_id record]> |> in
    (tick s, success record)
  else (s, failure written).

(** [register_participant].  [participants.at] on a key that is missing
    throws; that path is the [InternalError] result. *)
Definition register_participant (name : string) (boot : ParticipantBootId) (ep : CoordinatorEpoch)
    (node_label : string) s : Impl St * result ParticipantRecord :=
  if shutting_down s then (s, failure StatusCode.ShuttingDown) else
  if decide (name = ""%string) then (s, failure StatusCode.InvalidArgument) else
  if uuid_is_nil boot then (s, failure StatusCode.InvalidArgument) else
  if decide (ep ≠ epoch s) then (s, failure StatusCode.StaleEpoch) else
  match participant_index s !! name with
  | None =>
      if (cfg_max_participants (config s) <=? map_count (participants s))%N then
        (s, failure StatusCode.CapacityExceeded) else
      let record := admitted_participant (from_value (next_participant_id s)) name boot ep in
      store_participant node_label record (s <| next_participant_id ::= u64_succ |>)
  | Some id =>
      match participants s !! id with
      | None => (s, failure StatusCode.InternalError)
      | Some record =>
          if decide (p_boot record = boot ∧ p_lifecycle record ≠ ParticipantLifecycle.Retired) then
            let record := reregistered_participant ep record in
            let s := set_participant (p_id record) record s in
            (tick (upsert_durable_participant_locked record s), success record)
          else if decide (p_lifecycle record = ParticipantLifecycle.Retired) then
            (s, failure StatusCode.Retired)
          else
            let s := foldl (retire_superseded_region (p_id record) (p_boot record)) s
                           (sorted_keys (regions s)) in
            store_participant node_label (readmitted_participant boot ep record) s
      end
  end.

(** [get_participant] and [find_participant]. *)
Definition get_participant (id : ParticipantId) s : result ParticipantRecord :=
  match participants s !! id with Some p => success p | None => failure StatusCode.UnknownParticipant end.

Definition find_participant (name : string) s : result ParticipantRecord :=
  match participant_index s !! name with
  | Some id => match participants s !! id with
               | Some p => success p | None => failure StatusCode.InternalError end
  | None => failure StatusCode.UnknownParticipant
  end.

(** [mark_session_closed]. *)
Definition mark_session_closed (id : ParticipantId) (boot : ParticipantBootId) s
    : Impl St * result ParticipantRecord :=
  match participants s !! id with
  | None => (s, failure StatusCode.UnknownParticipant)
  | Some record =>
      if decide (p_boot record ≠ boot) then (s, failure StatusCode.StaleBoot) else
      let record := record <| p_live := false |>
        <| p_lifecycle := if decide (p_lifecycle record = ParticipantLifecycle.Active)
                          then ParticipantLifecycle.Degraded else p_lifecycle record |> in
      let s := upsert_durable_participant_locked record (set_participant id record s) in
      (tick s, success record)
  end.

(** ** Fencing *)

(** The switch over [dirty_loss_policy] when the only holder of an
    unpublished modification is gone. *)
Definition dirty_loss_of (o : ObjectRecord) s : DirtyLossPolicy.t :=
  match policies s !! o_policy o with
  | Some p => pol_dirty_loss_policy p
  | None => DirtyLossPolicy.ReportUnknown
  end.

Definition apply_dirty_loss (loss : DirtyLossPolicy.t) (note : string) (o : ObjectRecord) : ObjectRecord :=
  if o_has_unpublished_dirty o then
    let o := o <| o_has_unpublished_dirty := false |> in
    match loss with
    | DirtyLossPolicy.ReportLost => o <| o_dirty_condition := DirtyCondition.DirtyLost |>
    | DirtyLossPolicy.RequireRecovery =>
        o <| o_dirty_condition := DirtyCondition.DirtyUnknown |>
          <| o_lifecycle := ObjectLifecycle.RecoveryRequired |>
          <| o_recovery_note := note |>
    | _ => o <| o_dirty_condition := DirtyCondition.DirtyUnknown |>
    end
  else o.

Definition clear_pending (o : ObjectRecord) : ObjectRecord :=
  o <| o_pending_publication := nil_id |>
    <| o_pending_version := nil_id |>
    <| o_pending_content := default_ContentFingerprint |>.

Definition fence_note : string :=
  "dirty authority holder was fenced before publication; recoverable state is unknown".

(** Step 1: the object of a fenced writer, and the entries it adds. *)
Definition publication_unsettled (o : ObjectRecord) : bool :=
  match o_publication_state o with
  | PublicationState.PendingDurable | PublicationState.RecoveryRequired => true
  | _ => false
  end.

Definition fenced_writer_object (loss : DirtyLossPolicy.t) (seq : OperationSequence) (o : ObjectRecord)
    : ObjectRecord :=
  let unsettled := publication_unsettled o in
  let o := o <| o_authority := AuthorityMode.None |>
             <| o_writer := nil_id |> <| o_writer_boot := nil_uuid |> in
  let o := if unsettled
           then clear_pending (o <| o_publication_state := PublicationState.Aborted |>) else o in
  (apply_dirty_loss loss fence_note o) <| o_updated_sequence := seq |>.

Definition fence_object (id : ParticipantId) (boot : ParticipantBootId)
    (acc : Impl St * list JournalPayload) (oid : ObjectId) : Impl St * list JournalPayload :=
  let '(s, entries) := acc in
  match objects s !! oid with
  | Some o =>
      if decide (o_writer o = id ∧ o_writer_boot o = boot) then
        let o' := fenced_writer_object (dirty_loss_of o s) (sequence s) o in
        let entries := if publication_unsettled o
                       then entries ++ [ClearPendingPublication (o_id o)] else entries in
        (set_object oid o' s, entries ++ [UpsertObject (scrub_object_for_persistence o')])
      else (s, entries)
  | None => (s, entries)
  end.

(** Step 2: the replicas of the fenced incarnation. *)
Definition fenced_region (reason : string) (seq : OperationSequence) (r : RegionRecord) : RegionRecord :=
  r <| r_state := CoherenceState.Fenced |>
    <| r_dirty := if decide (r_dirty r = DirtyCondition.DirtyUnpublished)
                  then DirtyCondition.DirtyLost else r_dirty r |>
    <| r_evidence := nil_id |>
    <| r_evidence_generation := nil_id |>
    <| r_note := ("owning participant was fenced: " ++ reason)%string |>
    <| r_updated_sequence := seq |>.

Definition fence_region (id : ParticipantId) (boot : ParticipantBootId) (reason : string)
    (acc : Impl St * list JournalPayload) (rid : RegionId) : Impl St * list JournalPayload :=
  let '(s, entries) := acc in
  match regions s !! rid with
  | Some r =>
      if decide (r_participant r ≠ id ∨ r_boot r ≠ boot) then (s, entries) else
      if decide (r_state r = CoherenceState.Retired) then (s, entries) else
      let r := fenced_region reason (sequence s) r in
      (set_region rid r s, entries ++ [UpsertRegion r])
  | None => (s, entries)
  end.

(** Step 3: synchronizations towards the fenced incarnation. *)
Definition sync_settled (y : SyncRecord) : bool :=
  match y_state y with
  | SyncState.Completed | SyncState.Cancelled | SyncState.Failed => true
  | _ => false
  end.

Definition fenced_sync (seq : OperationSequence) (y : SyncRecord) : SyncRecord :=
  y <| y_state := SyncState.OutcomeUnknown |>
    <| y_settled_sequence := seq |>
    <| y_failure_reason := "destination participant was fenced before synchronization completed" |>.

Definition fence_sync (id : ParticipantId) (boot : ParticipantBootId)
    (acc : Impl St * list JournalPayload) (yid : SyncOperationId) : Impl St * list JournalPayload :=
  let '(s, entries) := acc in
  match syncs s !! yid with
  | Some y =>
      if decide (y_destination_participant y ≠ id ∨ y_destination_boot y ≠ boot) then (s, entries) else
      if sync_settled y then (s, entries) else
      let y := fenced_sync (sequence s) y in
      (set_sync yid y s, entries ++ [UpsertSync y])
  | None => (s, entries)
  end.

(** Step 4: outstanding invalidations that targeted the incarnation. *)
Definition fenced_invalidation (seq : OperationSequence) (i : InvalidationRecord) : InvalidationRecord :=
  i <| i_state := InvalidationState.Superseded |>
    <| i_settled_sequence := seq |>
    <| i_rationale := "target replica generation disappeared with the fenced participant" |>.

Definition fence_invalidation (id : ParticipantId) (boot : ParticipantBootId)
    (acc : Impl St * list JournalPayload) (iid : InvalidationId) : Impl St * list JournalPayload :=
  let '(s, entries) := acc in
  match invalidations s !! iid with
  | Some i =>
      if decide (i_target_participant i ≠ id ∨ i_target_boot i ≠ boot) then (s, entries) else
      if decide (i_state i ≠ InvalidationState.Requested) then (s, entries) else
      let i := fenced_invalidation (sequence s) i in
      (set_invalidation iid i s, entries ++ [UpsertInvalidation i])
  | None => (s, entries)
  end.

(** Steps 1 to 4: everything that is journalled as one group. *)
Definition fence_effects (id : ParticipantId) (boot : ParticipantBootId) (reason : string) s
    : Impl St * list JournalPayload :=
  let acc := foldl (fence_object id boot) (s, []) (sorted_keys (objects s)) in
  let acc := foldl (fence_region id boot reason) acc (sorted_keys (regions acc.1)) in
  let acc := foldl (fence_sync id boot) acc (sorted_keys (syncs acc.1)) in
  foldl (fence_invalidation id boot) acc (sorted_keys (invalidations acc.1)).

Definition recompute_all_authority s : Impl St :=
  foldl (λ s id, recompute_authority_locked id s) s (sorted_keys (objects s)).

Definition fenced_participant (reason : string) (ep : CoordinatorEpoch) (p : ParticipantRecord)
    : ParticipantRecord :=
  p <| p_lifecycle := ParticipantLifecycle.Fenced |> <| p_live := false |>
    <| p_fence_reason := reason |> <| p_last_epoch := ep |>.

(** [fence_participant]. *)
Definition fence_participant (id : ParticipantId) (ep : CoordinatorEpoch) (reason : string) s
    : Impl St * result ParticipantRecord :=
  match participants s !! id with
  | None => (s, failure StatusCode.UnknownParticipant)
  | Some participant =>
      if decide (ep ≠ epoch s) then (s, failure StatusCode.StaleEpoch) else
      if decide (p_lifecycle participant = ParticipantLifecycle.Retired) then
        (s, failure StatusCode.Retired) else
      let boot := p_boot participant in
      let '(s, entries) := fence_effects id boot reason (tick s) in
      let s := release_reads_for_participant_locked id boot s in
      let s := recompute_all_authority s in
      let participant := fenced_participant reason ep participant in
      let s := set_participant id participant s in
      let entries := entries ++ [UpsertParticipant (scrub_participant_for_persistence participant)] in
      let '(s, written) := append_many_locked entries s in
      if ok written then (tick s, success participant) else (s, failure written)
  end.
End core.
