(* ===== verification/Registry.v ===== *)
(** * Objects, regions, policies, inspection and shutdown ([src/engine_registry.cpp]) *)
From S2P Require Import Prelude Ids Enums Status Bytes Policy Evidence Model Decisions Persistence.
From S2P Require Import Engine Resolve Core.

Section registry.
Context {St : Type} `{DurableStore St}.
Implicit Types s : Impl St.

(** ** Objects and policies *)

(** [register_object]: the policy and the object a registration stores. *)
Definition stored_policy (policy : CoherencePolicy) (id : PolicyId) : CoherencePolicy :=
  policy <| pol_id := id |> <| pol_generation := from_value 1 |>
         <| pol_name := if decide (pol_name policy = ""%string) then "policy"%string
                        else pol_name policy |>.

Definition new_object (id : ObjectId) (domain : CoherenceDomainId) (name : string) (length : N)
    (stored : CoherencePolicy) (seq : OperationSequence) : ObjectRecord :=
  default_ObjectRecord
    <| o_id := id |>
    <| o_generation := from_value 1 |>
    <| o_domain := domain |>
    <| o_name := name |>
    <| o_length := length |>
    <| o_policy := pol_id stored |>
    <| o_policy_generation := pol_generation stored |>
    <| o_lifecycle := ObjectLifecycle.Active |>
    <| o_authority := AuthorityMode.None |>
    <| o_ownership_generation := from_value 1 |>
    <| o_updated_sequence := seq |>.

Definition register_object (domain : CoherenceDomainId) (name : string) (length : N)
    (policy : CoherencePolicy) s : Impl St * result ObjectRecord :=
  if shutting_down s then (s, failure StatusCode.ShuttingDown) else
  if decide (domains s !! domain = None) then (s, failure StatusCode.UnknownDomain) else
  if decide (name = ""%string) then (s, failure StatusCode.InvalidArgument) else
  if (length =? 0)%N || (cfg_max_object_length (config s) <? length)%N then
    (s, failure StatusCode.InvalidArgument) else
  if negb (ok (validate_policy policy)) then (s, failure (validate_policy policy)) else
  if decide (is_Some (object_index s !! (domain, name))) then (s, failure StatusCode.DuplicateIdentity) else
  if (cfg_max_objects (config s) <=? map_count (objects s))%N then
    (s, failure StatusCode.CapacityExceeded) else
  let stored := stored_policy policy (from_value (next_policy_id s)) in
  let record := new_object (from_value (next_object_id s)) domain name length stored (sequence s) in
  let s := s <| next_policy_id ::= u64_succ |> <| next_object_id ::= u64_succ |> in
  let '(s, written) :=
    append_many_locked [UpsertPolicy stored; UpsertObject (scrub_object_for_persistence record)] s in
  if ok written then
    let s := s <| policies ::= emplace (pol_id stored) stored |>
               <| objects ::= emplace (o_id record) record |>
               <| object_index ::= emplace (domain, name) (o_id record) |> in
    (tick s, success record)
  else (s, failure written).

(** [get_object], [find_object], [get_policy]. *)
Definition get_object (id : ObjectId) s : result ObjectRecord :=
  match objects s !! id with Some o => success o | None => failure StatusCode.UnknownObject end.

Definition find_object (domain : CoherenceDomainId) (name : string) s : result ObjectRecord :=
  match object_index s !! (domain, name) with
  | Some id => match objects s !! id with
               | Some o => success o | None => failure StatusCode.InternalError end
  | None => failure StatusCode.UnknownObject
  end.

Definition get_policy (id : ObjectId) s : result CoherencePolicy :=
  match objects s !! id with
  | None => failure StatusCode.UnknownObject
  | Some o => match policies s !! o_policy o with
              | Some p => success p | None => failure StatusCode.UnknownPolicy end
  end.

(** [set_policy]: the object's policy generation advances with the policy. *)
Definition replacement_policy (next_policy : CoherencePolicy) (o : ObjectRecord) s : CoherencePolicy :=
  next_policy <| pol_id := o_policy o |> <| pol_generation := next (o_policy_generation o) |>
    <| pol_name := if decide (pol_name next_policy = ""%string) then
                     match policies s !! o_policy o with
                     | Some old => pol_name old | None => "policy"%string end
                   else pol_name next_policy |>.

Definition set_policy (id : ObjectId) (generation : ObjectGeneration)
    (expected_generation : PolicyGeneration) (next_policy : CoherencePolicy) s
    : Impl St * result ObjectRecord :=
  if shutting_down s then (s, failure StatusCode.ShuttingDown) else
  match objects s !! id with
  | None => (s, failure StatusCode.UnknownObject)
  | Some object =>
      if decide (o_generation object ≠ generation) then (s, failure StatusCode.StaleObjectGeneration) else
      if decide (o_policy_generation object ≠ expected_generation) then
        (s, failure StatusCode.StalePolicy) else
      if decide (o_publication_state object = PublicationState.PendingDurable) then
        (s, failure StatusCode.InvalidState) else
      if negb (ok (validate_policy next_policy)) then (s, failure (validate_policy next_policy)) else
      let stored := replacement_policy next_policy object s in
      let object := object <| o_policy := pol_id stored |>
                           <| o_policy_generation := pol_generation stored |>
                           <| o_updated_sequence := sequence s |> in
      let s := set_object id object s in
      let '(s, written) :=
        append_many_locked [UpsertPolicy stored; UpsertObject (scrub_object_for_persistence object)] s in
      if ok written then
        let s := tick (s <| policies ::= <[pol_id stored := stored]> |>) in
        let '(context, s) := make_context default_AuthorityContext (o_id object) (o_generation object)
                               (o_ownership_generation object) s in
        (record_decision DecisionKind.PolicyChange context StatusCode.Ok s, success object)
      else (s, failure written)
  end.

(** ** Regions *)

(** The validation prefix of [register_region]. *)
Definition check_registration (rn : RegionRegistration) s : result (ObjectRecord * ParticipantRecord) :=
  let ctx := rn_context rn in
  if shutting_down s then failure StatusCode.ShuttingDown else
  if decide (ac_epoch ctx ≠ epoch s) then failure StatusCode.StaleEpoch else
  match objects s !! ac_object ctx with
  | None => failure StatusCode.UnknownObject
  | Some object =>
      if decide (o_generation object ≠ ac_object_generation ctx) then
        failure StatusCode.StaleObjectGeneration else
      if decide (defined (rn_domain rn) = true ∧ rn_domain rn ≠ o_domain object) then
        failure StatusCode.InvalidArgument else
      if decide (o_lifecycle object = ObjectLifecycle.Retired) then failure StatusCode.Retired else
      if decide (o_lifecycle object = ObjectLifecycle.RecoveryRequired) then
        failure StatusCode.RecoveryRequired else
      match participants s !! ac_participant ctx with
      | None => failure StatusCode.UnknownParticipant
      | Some participant =>
          if decide (p_boot participant ≠ ac_boot ctx) then failure StatusCode.StaleBoot else
          if decide (p_lifecycle participant = ParticipantLifecycle.Fenced) then
            failure StatusCode.Fenced else
          if decide (rn_memory_domain rn = MemoryDomain.Unknown) then
            failure StatusCode.InvalidArgument else
          if decide (rn_evidence_class rn = EvidenceClass.Unsupported) then
            failure StatusCode.Unsupported else
          if decide (rn_name rn = ""%string) then failure StatusCode.InvalidArgument else
          if (rn_length rn =? 0)%N then failure StatusCode.InvalidArgument else
          if negb (checked_range (rn_offset rn) (rn_length rn) (o_length object)) then
            failure StatusCode.InvalidArgument else
          if (cfg_max_regions_per_object (config s) <=? N.of_nat (length (o_replicas object)))%N then
            failure StatusCode.CapacityExceeded else
          if (cfg_max_regions (config s) <=? map_count (regions s))%N then
            failure StatusCode.CapacityExceeded else
          match policies s !! o_policy object with
          | None => failure StatusCode.UnknownPolicy
          | Some policy =>
              if negb (allows_domain policy (rn_memory_domain rn)) then
                failure StatusCode.InvalidArgument else
              if decide (defined (rn_requested_id rn) = true ∧ is_Some (regions s !! rn_requested_id rn))
              then failure StatusCode.DuplicateIdentity else
              success (object, participant)
          end
      end
  end.

(** Identity allocation: a requested identity raises the counter past it. *)
Definition allocate_id {t} (requested : StrongId t) (counter : N) : StrongId t * N :=
  if defined requested then
    (requested, if (counter <=? value requested)%N then u64_add (value requested) 1 else counter)
  else (from_value counter, u64_succ counter).

Definition new_region (id : RegionId) (replica : ReplicaId) (rn : RegionRegistration)
    (object : ObjectRecord) (participant : ParticipantRecord) (seq : OperationSequence) : RegionRecord :=
  default_RegionRecord
    <| r_id := id |>
    <| r_generation := from_value 1 |>
    <| r_replica := replica |>
    <| r_replica_generation := from_value 1 |>
    <| r_domain := o_domain object |>
    <| r_object := o_id object |>
    <| r_object_generation := o_generation object |>
    <| r_participant := p_id participant |>
    <| r_boot := p_boot participant |>
    <| r_memory_domain := rn_memory_domain rn |>
    <| r_evidence_class := rn_evidence_class rn |>
    <| r_name := rn_name rn |>
    <| r_offset := rn_offset rn |>
    <| r_length := rn_length rn |>
    <| r_address_hint := rn_address_hint rn |>
    <| r_declared_writable := rn_declared_writable rn |>
    <| r_lifecycle := RegionLifecycle.Active |>
    <| r_state := if defined (rn_initial_version rn) then CoherenceState.RevalidationRequired
                  else CoherenceState.Unknown |>
    <| r_version := rn_initial_version rn |>
    <| r_ownership_generation := o_ownership_generation object |>
    <| r_dirty := DirtyCondition.Clean |>
    <| r_content := rn_content rn |>
    <| r_updated_sequence := seq |>
    <| r_note := "registered; dynamic currentness requires revalidation" |>.

(** [std::lower_bound] followed by [insert]: before the first identity that
    is not smaller. *)
Fixpoint insert_sorted (id : RegionId) (ids : list RegionId) : list RegionId :=
  match ids with
  | [] => [id]
  | x :: rest => if id_lt x id then x :: insert_sorted id rest else id :: ids
  end.

Definition insert_replica (id : RegionId) (ids : list RegionId) : list RegionId :=
  match last ids with
  | None => ids ++ [id]
  | Some back => if id_lt back id then ids ++ [id] else insert_sorted id ids
  end.

(** The name check: a retired replica does not hold its name. *)
Definition name_taken (key : ObjectId * string) s : bool :=
  match region_index s !! key with
  | None => false
  | Some previous => match regions s !! previous with
                     | None => false
                     | Some r => negb (bool_decide (r_lifecycle r = RegionLifecycle.Retired))
                     end
  end.

Definition register_region (rn : RegionRegistration) s : Impl St * result RegionRecord :=
  match check_registration rn s with
  | failure c => (s, failure c)
  | success (object, participant) =>
      let '(id, region_counter) := allocate_id (rn_requested_id rn) (next_region_id s) in
      let '(replica, replica_counter) := allocate_id (rn_requested_replica rn) (next_replica_id s) in
      let s := s <| next_region_id := region_counter |> <| next_replica_id := replica_counter |> in
      let record := new_region id replica rn object participant (sequence s) in
      let key := (o_id object, r_name record) in
      if name_taken key s then (s, failure StatusCode.DuplicateIdentity) else
      let s := s <| region_index ::= delete key |> in
      let object := object <| o_replicas ::= insert_replica (r_id record) |>
                           <| o_updated_sequence := sequence s |> in
      let s := set_object (ac_object (rn_context rn)) object s in
      let '(s, written) :=
        if durability_active s then
          append_many_locked [UpsertObject (scrub_object_for_persistence object); UpsertRegion record] s
        else (s, StatusCode.Ok) in
      if ok written then
        let s := s <| regions ::= emplace (r_id record) record |>
                   <| region_index ::= <[key := r_id record]> |>
                   <| participants ::= alter (λ p, p <| p_region_count ::= u64_succ |>)
                                             (ac_participant (rn_context rn)) |> in
        (tick s, success record)
      else (s, failure written)
  end.

(** [get_region]. *)
Definition get_region (id : RegionId) s : result RegionRecord :=
  match regions s !! id with Some r => success r | None => failure StatusCode.UnknownRegion end.

(** [retire_region]. *)
Definition retired_region (seq : OperationSequence) (r : RegionRecord) : RegionRecord :=
  r <| r_lifecycle := RegionLifecycle.Retired |>
    <| r_state := CoherenceState.Retired |>
    <| r_dirty := if decide (r_dirty r = DirtyCondition.DirtyUnpublished)
                  then DirtyCondition.DirtyLost else r_dirty r |>
    <| r_evidence := nil_id |>
    <| r_evidence_generation := nil_id |>
    <| r_invalidation_pending := false |>
    <| r_pending_invalidation := nil_id |>
    <| r_pending_invalidation_target := nil_id |>
    <| r_updated_sequence := seq |>.

Definition release_grants_of_region (rid : RegionId) (g : ReadGrant) : ReadGrant :=
  if decide (g_region g = rid ∧ g_released g = false) then g <| g_released := true |> else g.

Definition retire_region (id : RegionId) (generation : RegionGeneration) (ep : CoordinatorEpoch) s
    : Impl St * StatusCode.t :=
  if decide (ep ≠ epoch s) then (s, StatusCode.StaleEpoch) else
  match regions s !! id with
  | None => (s, StatusCode.UnknownRegion)
  | Some region =>
      if decide (r_generation region ≠ generation) then (s, StatusCode.StaleRegionGeneration) else
      if decide (r_lifecycle region = RegionLifecycle.Retired) then (s, StatusCode.Ok) else
      if negb (is_legal_region_transition (r_lifecycle region) RegionLifecycle.Retired) then
        (s, StatusCode.InvalidTransition) else
      let s := tick s in
      let region := retired_region (sequence s) region in
      let s := release_region_name_locked region (set_region id region s) in
      let s :=
        match objects s !! r_object region with
        | None => s
        | Some object =>
            let object := object <| o_reads ::= fmap (release_grants_of_region (r_id region)) |> in
            let s := recompute_authority_locked (r_object region) (set_object (r_object region) object s) in
            match objects s !! r_object region with
            | Some object => upsert_durable_object_locked object s
            | None => s
            end
        end in
      let '(s, written) := append_locked (UpsertRegion region) s in
      if ok written then (tick s, StatusCode.Ok) else (s, written)
  end.

(** [resolve_recovery]. *)
Definition resolution_note : string :=
  "operator resolved recovery: the unpublished modification was lost and the last authoritative version stands".

Definition recovered_object (note : string) (seq : OperationSequence) (o : ObjectRecord) : ObjectRecord :=
  let unsettled := publication_unsettled o in
  let o := clear_pending (o <| o_lifecycle := ObjectLifecycle.Active |>
                            <| o_has_unpublished_dirty := false |>
                            <| o_dirty_condition := DirtyCondition.DirtyLost |>) in
  o <| o_publication_state := if unsettled then PublicationState.Aborted else o_publication_state o |>
    <| o_recovery_note := if decide (note = ""%string) then resolution_note else note |>
    <| o_updated_sequence := seq |>.

Definition resolve_recovery (id : ObjectId) (generation : ObjectGeneration) (ep : CoordinatorEpoch)
    (note : string) s : Impl St * result ObjectRecord :=
  if decide (ep ≠ epoch s) then (s, failure StatusCode.StaleEpoch) else
  match objects s !! id with
  | None => (s, failure StatusCode.UnknownObject)
  | Some object =>
      if decide (defined generation = true ∧ o_generation object ≠ generation) then
        (s, failure StatusCode.StaleObjectGeneration) else
      if decide (o_lifecycle object ≠ ObjectLifecycle.RecoveryRequired) then
        (s, failure StatusCode.InvalidState) else
      if negb (is_legal_object_transition (o_lifecycle object) ObjectLifecycle.Active) then
        (s, failure StatusCode.InvalidTransition) else
      let s := tick s in
      let object := recovered_object note (sequence s) object in
      let s := set_object id object s in
      let '(s, written) := append_locked (UpsertObject (scrub_object_for_persistence object)) s in
      if ok written then
        let '(context, s) := make_context default_AuthorityContext (o_id object) (o_generation object)
                               (o_ownership_generation object) s in
        (record_decision DecisionKind.Recover context StatusCode.Ok s, success object)
      else (s, failure written)
  end.

(** [retire_object]. *)
Definition retired_object (seq : OperationSequence) (o : ObjectRecord) : ObjectRecord :=
  o <| o_lifecycle := ObjectLifecycle.Retired |>
    <| o_authority := AuthorityMode.None |>
    <| o_writer := nil_id |>
    <| o_writer_boot := nil_uuid |>
    <| o_pending_publication := nil_id |>
    <| o_pending_version := nil_id |>
    <| o_publication_state := PublicationState.None |>
    <| o_has_unpublished_dirty := false |>
    <| o_reads ::= fmap (λ g, g <| g_released := true |>) |>
    <| o_updated_sequence := seq |>.

Definition retired_object_region (seq : OperationSequence) (r : RegionRecord) : RegionRecord :=
  r <| r_lifecycle := RegionLifecycle.Retired |>
    <| r_state := CoherenceState.Retired |>
    <| r_dirty := if decide (r_dirty r = DirtyCondition.DirtyUnpublished)
                  then DirtyCondition.DirtyLost else r_dirty r |>
    <| r_evidence := nil_id |>
    <| r_evidence_generation := nil_id |>
    <| r_updated_sequence := seq |>.

Definition retire_replica s (id : RegionId) : Impl St :=
  match regions s !! id with
  | None => s
  | Some r =>
      let r := retired_object_region (sequence s) r in
      upsert_durable_region_locked r (set_region id r s)
  end.

Definition retire_object (id : ObjectId) (generation : ObjectGeneration) (ep : CoordinatorEpoch) s
    : Impl St * StatusCode.t :=
  if decide (ep ≠ epoch s) then (s, StatusCode.StaleEpoch) else
  match objects s !! id with
  | None => (s, StatusCode.UnknownObject)
  | Some object =>
      if decide (o_generation object ≠ generation) then (s, StatusCode.StaleObjectGeneration) else
      if decide (o_lifecycle object = ObjectLifecycle.Retired) then (s, StatusCode.Ok) else
      if negb (is_legal_object_transition (o_lifecycle object) ObjectLifecycle.Retired) then
        (s, StatusCode.InvalidTransition) else
      let s := tick s in
      let object := retired_object (sequence s) object in
      let s := set_object id object s in
      let '(s, written) := append_locked (UpsertObject (scrub_object_for_persistence object)) s in
      if ok written then (tick (foldl retire_replica s (o_replicas object)), StatusCode.Ok)
      else (s, written)
  end.

(** ** Inspection *)

Definition select_objects (options : SnapshotOptions) (os : list ObjectRecord) : list ObjectRecord :=
  let os := filter (λ o, defined (sno_object_filter options) = false ∨ o_id o = sno_object_filter options) os in
  if (sno_max_objects options =? 0)%N then os else take (N.to_nat (sno_max_objects options)) os.

(** [snapshot].  [build_identification] is a compile-time string and an
    argument. *)
Definition snapshot (build : string) (options : SnapshotOptions) s : CoherenceSnapshot :=
  let keep (o : ObjectId) := decide (defined (sno_object_filter options) = false ∨ o = sno_object_filter options) in
  {| sn_epoch := epoch s;
     sn_sequence := sequence s;
     sn_build := build;
     sn_domains := map_values (domains s);
     sn_participants := if sno_include_participants options then map_values (participants s) else [];
     sn_objects := select_objects options (map_values (objects s));
     sn_regions := if sno_include_regions options
                   then List.filter (λ r, if keep (r_object r) then true else false) (map_values (regions s)) else [];
     sn_invalidations := if sno_include_invalidations options
                   then List.filter (λ i, if keep (i_object i) then true else false) (map_values (invalidations s)) else [];
     sn_syncs := if sno_include_syncs options
                   then List.filter (λ y, if keep (y_object y) then true else false) (map_values (syncs s)) else [];
     sn_shutting_down := shutting_down s |}.

(** ** Shutdown *)

Definition shutdown_object_record (seq : OperationSequence) (o : ObjectRecord) : ObjectRecord :=
  let pending := bool_decide (o_publication_state o = PublicationState.PendingDurable) in
  let o := o <| o_authority := AuthorityMode.None |>
             <| o_writer := nil_id |> <| o_writer_boot := nil_uuid |> in
  let o := if pending then clear_pending (o <| o_publication_state := PublicationState.Aborted |>) else o in
  o <| o_reads ::= fmap (λ g, g <| g_released := true |>) |>
    <| o_updated_sequence := seq |>.

Definition shutdown_object s (id : ObjectId) : Impl St :=
  match objects s !! id with
  | None => s
  | Some o =>
      let o' := shutdown_object_record (sequence s) o in
      let s := set_object id o' s in
      let s := if decide (o_publication_state o = PublicationState.PendingDurable)
               then (append_locked (ClearPendingPublication (o_id o)) s).1 else s in
      upsert_durable_object_locked o' s
  end.

Definition shutdown_sync s (id : SyncOperationId) : Impl St :=
  match syncs s !! id with
  | None => s
  | Some y =>
      if sync_settled y then s else
      let y := y <| y_state := SyncState.Cancelled |>
                 <| y_settled_sequence := sequence s |>
                 <| y_failure_reason := "coordinator shutdown" |> in
      (append_locked (UpsertSync y) (set_sync id y s)).1
  end.

Definition shutdown_invalidation s (id : InvalidationId) : Impl St :=
  match invalidations s !! id with
  | None => s
  | Some i =>
      if decide (i_state i ≠ InvalidationState.Requested) then s else
      let i := i <| i_state := InvalidationState.Unknown |>
                 <| i_settled_sequence := sequence s |>
                 <| i_rationale := "coordinator shutdown before acknowledgement" |> in
      (append_locked (UpsertInvalidation i) (set_invalidation id i s)).1
  end.

(** [begin_shutdown]. *)
Definition begin_shutdown (ep : CoordinatorEpoch) s : Impl St * StatusCode.t :=
  if decide (ep ≠ epoch s) then (s, StatusCode.StaleEpoch) else
  if shutting_down s then (s, StatusCode.Ok) else
  let s := tick s <| shutting_down := true |> in
  let s := foldl shutdown_object s (sorted_keys (objects s)) in
  let s := foldl shutdown_sync s (sorted_keys (syncs s)) in
  let s := foldl shutdown_invalidation s (sorted_keys (invalidations s)) in
  let '(context, s) := make_context default_AuthorityContext nil_id nil_id nil_id s in
  (record_decision DecisionKind.Shutdown context StatusCode.Ok s, StatusCode.Ok).

(** [complete_shutdown]: compact, flush and close, ignoring their status. *)
Definition complete_shutdown (ep : CoordinatorEpoch) s : Impl St * StatusCode.t :=
  if decide (ep ≠ epoch s) then (s, StatusCode.StaleEpoch) else
  if negb (shutting_down s) then (s, StatusCode.InvalidState) else
  if shutdown_complete s then (s, StatusCode.Ok) else
  let s := match (if cfg_enable_durability (config s) then store s else None) with
           | None => s
           | Some st =>
               let st := (ds_compact (durable s) st).1 in
               let st := (ds_flush st).1 in
               s <| store := Some (ds_close st).1 |>
           end in
  (s <| shutdown_complete := true |>, StatusCode.Ok).

(** [flush_durable]. *)
Definition flush_durable s : Impl St * StatusCode.t :=
  match (if cfg_enable_durability (config s) then store s else None) with
  | None => (s, StatusCode.Ok)
  | Some st => let '(st', status) := ds_flush st in (s <| store := Some st' |>, status)
  end.
End registry.
