(* ===== verification/Read.v ===== *)
(** * Read authority ([src/engine_ops.cpp]: [compute_read_locked], [acquire_read],
    [explain_read])

    [compute_read_locked] is one long function in the source; it is cut here at
    its early returns, in their order. *)
From S2P Require Import Prelude Ids Enums Status Policy Evidence Model Decisions Persistence Engine.
From S2P Require Import Resolve.

Section read.
Context {St : Type} `{DurableStore St}.
Implicit Types s : Impl St.

(** Every early return: log the decision under its own reason and answer. *)
Definition answer_read (d : ReadDecision) s : Impl St * result ReadDecision :=
  (record_decision DecisionKind.ReadAcquire (rd_context d) (rd_reason d) s, success d).

Definition read_with (outcome : ReadOutcome.t) (reason : StatusCode.t) (d : ReadDecision) : ReadDecision :=
  d <| rd_outcome := outcome |> <| rd_reason := reason |>.

(** The decision when authority validation fails. *)
Definition read_refused (c : StatusCode.t) (d : ReadDecision) : ReadDecision :=
  read_with (if decide (c = StatusCode.UnknownObject) then ReadOutcome.Unknown
             else ReadOutcome.ReadBlocked) c d <| rd_region_state := CoherenceState.Unknown |>.

(** What the decision copies from the selected replica, its staleness and the
    freshness of its evidence. *)
Definition observe_region (region : RegionRecord) (freshness : FreshnessAssessment) (d : ReadDecision)
    : ReadDecision :=
  let d := d <| rd_region_generation := r_generation region |>
             <| rd_region_state := r_state region |>
             <| rd_region_version := r_version region |>
             <| rd_evidence_class := r_evidence_class region |>
             <| rd_evidence := r_evidence region |>
             <| rd_evidence_generation := r_evidence_generation region |> in
  let d := if defined (rd_authoritative_version d) && defined (r_version region)
              && id_le (r_version region) (rd_authoritative_version d)
           then d <| rd_staleness_known := true |>
                  <| rd_staleness := u64_sub (value (rd_authoritative_version d)) (value (r_version region)) |>
           else d in
  d <| rd_evidence_fresh := fresh freshness |>.

(** The lambda [stale_permitted]. *)
Definition stale_permitted (policy : CoherencePolicy) (d : ReadDecision) : bool :=
  match pol_stale_read_policy policy with
  | StaleReadPolicy.Always => true
  | StaleReadPolicy.Bounded =>
      rd_staleness_known d && (rd_staleness d <=? pol_stale_read_bound_versions policy)%N
  | _ => false
  end.

(** The branch for [ConsistencyModel::Snapshot]. *)
Definition snapshot_read (request : ReadRequest) (object : ObjectRecord) (region : RegionRecord)
    (d : ReadDecision) : ReadDecision :=
  let snapshot := rr_snapshot_version request in
  if negb (defined snapshot) then read_with ReadOutcome.ReadBlocked StatusCode.InvalidArgument d else
  if id_lt (o_authoritative_version object) snapshot then
    read_with ReadOutcome.ReadBlocked StatusCode.StalePublication d else
  if defined (r_version region) && id_le snapshot (r_version region)
     && (is_current_state (r_state region) || bool_decide (r_state region = CoherenceState.Stale)) then
    read_with ReadOutcome.ReadCurrent StatusCode.Ok d
      <| rd_authoritative_version := snapshot |>
      <| rd_staleness := u64_sub (value (r_version region)) (value snapshot) |>
      <| rd_staleness_known := true |>
  else
    read_with ReadOutcome.ReadAfterSync StatusCode.SyncRequired d <| rd_sync_required := true |>.

(** Granting the lease of a current read, when one is requested. *)
Definition lease_read (key : ObjectId) (request : ReadRequest) (region : RegionRecord)
    (d : ReadDecision) s : ReadDecision * Impl St :=
  let ctx := rr_context request in
  let s := tick s in
  let lease := from_value (next_lease_id s) in
  let s := s <| next_lease_id ::= u64_succ |> in
  match objects s !! key with
  | None => (d, s)
  | Some object =>
      let object := add_read_grant_locked object region (ac_participant ctx) (ac_boot ctx) lease s in
      let d := match List.find (same_grant (ac_participant ctx) (ac_boot ctx) region) (o_reads object) with
               | Some g => d <| rd_lease := g_lease g |>
               | None => d
               end in
      (d, set_object key object s)
  end.

(** The search for another replica that is current; finding one in the list
    updates the cache. *)
Definition other_current (region : RegionRecord) (cached : RegionId) s (id : RegionId) : bool :=
  negb (bool_decide (id = r_id region)) && negb (bool_decide (id = cached))
  && region_state_is is_current_state s id.

Definition recoverable_source (key : ObjectId) (region : RegionRecord) s : bool * Impl St :=
  match objects s !! key with
  | None => (false, s)
  | Some object =>
      let cached := o_preferred_current_replica object in
      if defined cached && negb (bool_decide (cached = r_id region))
         && region_state_is is_current_state s cached then (true, s) else
      match List.find (other_current region cached s) (o_replicas object) with
      | Some id => (true, set_object key (object <| o_preferred_current_replica := id |>) s)
      | None => (false, s)
      end
  end.

(** The tail of the function: the replica cannot be read as it is. *)
Definition blocked_read (key : ObjectId) (region : RegionRecord) (freshness : FreshnessAssessment)
    (d : ReadDecision) s : Impl St * result ReadDecision :=
  if decide (r_state region = CoherenceState.Retired) then
    answer_read (read_with ReadOutcome.ReadBlocked StatusCode.Retired d) s else
  if decide (r_state region = CoherenceState.Fenced) then
    answer_read (read_with ReadOutcome.ReadBlocked StatusCode.Fenced d) s else
  if decide (fresh freshness = false ∧ fa_verdict freshness = FreshnessVerdict.Unsupported) then
    answer_read (read_with ReadOutcome.Unsupported StatusCode.Unsupported d) s else
  let '(recoverable, s) := recoverable_source key region s in
  if recoverable then
    answer_read (read_with ReadOutcome.ReadAfterSync
                   (if fresh freshness then StatusCode.SyncRequired else fa_reason freshness) d
                   <| rd_sync_required := true |>) s
  else
    answer_read (read_with ReadOutcome.ReadBlocked
                   (if fresh freshness then StatusCode.ReadNotCurrent else fa_reason freshness) d) s.

(** From the resolved replica to the decision. *)
Definition read_region (key : ObjectId) (request : ReadRequest) (create_lease : bool)
    (policy : CoherencePolicy) (object : ObjectRecord) (region : RegionRecord) (d : ReadDecision) s
    : Impl St * result ReadDecision :=
  let freshness := assess_region_locked policy region s in
  let d := observe_region region freshness d in
  if decide (pol_consistency policy = ConsistencyModel.Snapshot) then
    answer_read (snapshot_read request object region d) s else
  let current_by_version := negb (defined (rd_authoritative_version d))
                            || bool_decide (r_version region = rd_authoritative_version d) in
  if is_current_state (r_state region) && current_by_version && fresh freshness then
    let d := read_with ReadOutcome.ReadCurrent StatusCode.Ok d in
    let '(d, s) := if create_lease then lease_read key request region d s else (d, s) in
    answer_read d s else
  if stale_permitted policy d && is_readable_state (r_state region) then
    answer_read (read_with ReadOutcome.ReadStaleAllowed StatusCode.ReadNotCurrent d
                   <| rd_stale_allowed := true |>) s else
  blocked_read key region freshness d s.

(** [compute_read_locked]. *)
Definition compute_read_locked (request : ReadRequest) (create_lease : bool) s
    : Impl St * result ReadDecision :=
  let ctx := rr_context request in
  let key := ac_object ctx in
  let authority := resolve_locked ctx s in
  let '(context, s) := make_context ctx key (ac_object_generation ctx) (resolved_ownership ctx s) s in
  let d := default_ReadDecision <| rd_context := context |> in
  match authority with
  | failure c => answer_read (read_refused c d) s
  | success (object, _) =>
      match policy_locked object s with
      | None =>
          (record_decision DecisionKind.ReadAcquire context StatusCode.UnknownPolicy s,
           failure StatusCode.UnknownPolicy)
      | Some policy =>
          if decide (pol_write_ownership policy = WriteOwnershipMode.Unspecified ∨
                     pol_consistency policy = ConsistencyModel.Unspecified) then
            answer_read (read_with ReadOutcome.Unsupported StatusCode.Unsupported d) s else
          let d := d <| rd_authoritative_version := o_authoritative_version object |> in
          let '(selected, s) := select_read_region_locked key (rr_region request) s in
          let d := d <| rd_region := selected |> in
          if negb (defined (rd_authoritative_version d)) then
            answer_read (read_with ReadOutcome.ReadBlocked StatusCode.NotAuthoritative d) s else
          if negb (defined selected) then
            answer_read (read_with ReadOutcome.ReadBlocked StatusCode.UnknownRegion d) s else
          match resolve_region_locked object selected (rr_region_generation request) s with
          | failure c => answer_read (read_with ReadOutcome.ReadBlocked c d) s
          | success region => read_region key request create_lease policy object region d s
          end
      end
  end.

(** [acquire_read] and [explain_read]. *)
Definition acquire_read (request : ReadRequest) s : Impl St * result ReadDecision :=
  let '(s, outcome) := compute_read_locked request true s in
  ((if has_value outcome then (maybe_compact_locked s).1 else s), outcome).

Definition explain_read (request : ReadRequest) s : Impl St * result ReadDecision :=
  compute_read_locked request false s.
End read.
