(* ===== verification/Write.v ===== *)
(** * Write authority ([src/engine_ops.cpp]: [acquire_write])

    The function is cut at its early returns: policy gates, the writer's own
    replica, the authority already held, and the reservation that issues the
    mandatory invalidations. *)
From S2P Require Import Prelude Ids Enums Status Policy Evidence Model Decisions Persistence Engine.
From S2P Require Import Resolve.

Section write.
Context {St : Type} `{DurableStore St}.
Implicit Types s : Impl St.

(** Log the decision and answer with the grant. *)
Definition answer_write (context : DecisionContext) (grant : WriteGrant) s : Impl St * result WriteGrant :=
  (record_decision DecisionKind.WriteAcquire context (wg_reason grant) s, success grant).

Definition grant_with (reason : StatusCode.t) (g : WriteGrant) : WriteGrant := g <| wg_reason := reason |>.

(** The policy and object gates before any replica is looked at. *)
Definition write_gate (policy : CoherencePolicy) (object : ObjectRecord) : StatusCode.t :=
  if decide (pol_write_ownership policy = WriteOwnershipMode.ReadOnlyObject) then
    StatusCode.NotWriteAuthorized else
  if decide (pol_write_ownership policy ≠ WriteOwnershipMode.SingleWriterExclusive) then
    StatusCode.Unsupported else
  if decide (o_publication_state object = PublicationState.PendingDurable) then
    StatusCode.WriteConflict else
  if o_has_unpublished_dirty object then StatusCode.DirtyUnpublished else
  StatusCode.Ok.

(** The replica the writer names, which must be its own. *)
Definition resolve_writer_region (request : WriteRequest) (object : ObjectRecord) s
    : result (option RegionRecord) :=
  if defined (wr_region request) then
    match resolve_region_locked object (wr_region request) (wr_region_generation request) s with
    | failure c => failure c
    | success region =>
        if decide (r_participant region ≠ ac_participant (wr_context request)) then
          failure StatusCode.NotWriteAuthorized
        else success (Some region)
    end
  else success None.

Definition grant_region (region : option RegionRecord) (g : WriteGrant) : WriteGrant :=
  match region with
  | Some r => g <| wg_writer_region := r_id r |> <| wg_writer_region_generation := r_generation r |>
  | None => g
  end.

(** The object's writer is the caller's incarnation. *)
Definition writer_is (object : ObjectRecord) (ctx : AuthorityContext) : bool :=
  bool_decide (o_writer object = ac_participant ctx) && bool_decide (o_writer_boot object = ac_boot ctx).

(** The invalidations that are still open, for the answer to a waiting writer. *)
Definition open_invalidations (object : ObjectRecord) s : list InvalidationRecord :=
  List.filter (λ i, bool_decide (i_state i = InvalidationState.Requested))
    (omap (invalidations s !!.) (o_outstanding_invalidations object)).

(** A caller that already reserved authority through a transfer. *)
Definition write_transfer_pending (key : ObjectId) (ctx : AuthorityContext) (context : DecisionContext)
    (object : ObjectRecord) (g : WriteGrant) s : Impl St * result WriteGrant :=
  if negb (writer_is object ctx) then
    answer_write context (grant_with StatusCode.ExclusiveWriterConflict g) s else
  if negb (has_outstanding_invalidations_locked (o_id object) s) then
    let object := object <| o_authority := AuthorityMode.ExclusiveWriter |> in
    let s := set_object key object s in
    let '(s, written) := append_locked (UpsertObject (scrub_object_for_persistence object)) s in
    if ok written then
      answer_write context (grant_with StatusCode.Ok g <| wg_granted := true |> <| wg_may_mutate_now := true |>) s
    else (s, failure written)
  else
    answer_write context
      (grant_with StatusCode.InvalidationOutstanding g <| wg_granted := true |>
         <| wg_may_mutate_now := false |>
         <| wg_required_invalidations ::= λ l, l ++ open_invalidations object s |>) s.

(** The replicas a transfer must invalidate: live, not the writer's own and
    not already waiting for revalidation. *)
Definition must_invalidate (writer_region : RegionId) (r : RegionRecord) : bool :=
  negb (bool_decide (r_id r = writer_region)) && is_live_state (r_state r)
  && negb (bool_decide (r_state r = CoherenceState.RevalidationRequired)).

Definition required_of (r : RegionRecord) : InvalidationRecord :=
  default_InvalidationRecord <| i_region := r_id r |> <| i_region_generation := r_generation r |>
    <| i_replica_generation := r_replica_generation r |>.

Definition required_invalidations (object : ObjectRecord) (writer_region : RegionId) s
    : list InvalidationRecord :=
  required_of <$> List.filter (must_invalidate writer_region) (omap (regions s !!.) (o_replicas object)).

(** Numbering and completing one required invalidation. *)
Definition issue_invalidation (object : ObjectRecord) s (n : N) (i : InvalidationRecord)
    : InvalidationRecord :=
  let i := i <| i_id := from_value n |>
             <| i_object := o_id object |>
             <| i_object_generation := o_generation object |>
             <| i_published_version := o_authoritative_version object |>
             <| i_ownership_generation := o_ownership_generation object |>
             <| i_epoch := epoch s |>
             <| i_state := InvalidationState.Requested |>
             <| i_acknowledgement_required := true |>
             <| i_issued_sequence := sequence s |>
             <| i_rationale := "superseded by a write transfer" |> in
  match regions s !! i_region i with
  | Some r => i <| i_target_participant := r_participant r |> <| i_target_boot := r_boot r |>
                <| i_superseded_version := r_version r |>
  | None => i
  end.

Fixpoint issue_invalidations (object : ObjectRecord) s (n : N) (required : list InvalidationRecord)
    : list InvalidationRecord :=
  match required with
  | [] => []
  | i :: rest => issue_invalidation object s n i :: issue_invalidations object s (u64_succ n) rest
  end.

(** The object that carries the reservation. *)
Definition reserve_writer (ctx : AuthorityContext) (boot : ParticipantBootId) (immediate : bool)
    (seq : OperationSequence) (o : ObjectRecord) : ObjectRecord :=
  o <| o_ownership_generation ::= next |>
    <| o_writer := ac_participant ctx |>
    <| o_writer_boot := boot |>
    <| o_authority := if immediate then AuthorityMode.ExclusiveWriter else AuthorityMode.TransferPending |>
    <| o_updated_sequence := seq |>
    <| o_reads ::= fmap (λ g, g <| g_released := true |>) |>.

Definition await_invalidations (issued : list InvalidationRecord) (o : ObjectRecord) : ObjectRecord :=
  o <| o_outstanding_invalidations ::= λ l, merge_sort rank_le (l ++ (i_id <$> issued)) |>.

(** The rollback when the reservation could not be made durable. *)
Definition roll_back_reservation (o : ObjectRecord) : ObjectRecord :=
  o <| o_ownership_generation := from_value (u64_sub (value (o_ownership_generation o)) 1) |>
    <| o_authority := AuthorityMode.None |>
    <| o_writer := nil_id |>
    <| o_writer_boot := nil_uuid |>
    <| o_outstanding_invalidations := [] |>.

(** Installing one durable invalidation and marking its target replica. *)
Definition await_acknowledgement (id : InvalidationId) (seq : OperationSequence) (r : RegionRecord)
    : RegionRecord :=
  r <| r_invalidation_pending := true |>
    <| r_pending_invalidation := id |>
    <| r_pending_invalidation_target := r_generation r |>
    <| r_updated_sequence := seq |>.

Definition install_invalidation s (i : InvalidationRecord) : Impl St :=
  set_invalidation (i_id i) i s
    <| regions ::= alter (await_acknowledgement (i_id i) (sequence s)) (i_region i) |>.

(** Reserving authority: from [impl_->tick()] to the end. *)
Definition reserve_write (key : ObjectId) (ctx : AuthorityContext) (context : DecisionContext)
    (object : ObjectRecord) (participant : ParticipantRecord) (required : list InvalidationRecord)
    (g : WriteGrant) s : Impl St * result WriteGrant :=
  let s := tick s in
  let immediate := bool_decide (required = []) in
  let object := reserve_writer ctx (p_boot participant) immediate (sequence s) object in
  let issued := issue_invalidations object s (next_invalidation_id s) required in
  let object := await_invalidations issued object in
  let s := set_object key object
             (s <| next_invalidation_id ::= λ n, Nat.iter (length required) u64_succ n |>) in
  let g := g <| wg_context ::= λ c, c <| dc_ownership_generation := o_ownership_generation object |> |>
             <| wg_granted := true |>
             <| wg_may_mutate_now := immediate |>
             <| wg_base_version := o_authoritative_version object |>
             <| wg_required_invalidations ::= λ l, l ++ issued |>
             <| wg_reason := if immediate then StatusCode.Ok else StatusCode.InvalidationOutstanding |> in
  let '(s, written) :=
    append_many_locked (UpsertObject (scrub_object_for_persistence object) :: (UpsertInvalidation <$> issued)) s in
  if ok written then answer_write context g (foldl install_invalidation s issued)
  else (set_object key (roll_back_reservation object) s, failure written).

(** [acquire_write]. *)
Definition acquire_write (request : WriteRequest) s : Impl St * result WriteGrant :=
  let ctx := wr_context request in
  let key := ac_object ctx in
  let authority := resolve_locked ctx s in
  let '(context, s) := make_context ctx key (ac_object_generation ctx) (resolved_ownership ctx s) s in
  match authority with
  | failure c => (record_decision DecisionKind.WriteAcquire context c s, failure c)
  | success (object, participant) =>
      let g := default_WriteGrant <| wg_context := context |>
                 <| wg_writer := ac_participant ctx |>
                 <| wg_writer_boot := p_boot participant |>
                 <| wg_base_version := o_authoritative_version object |>
                 <| wg_authoritative_version := o_authoritative_version object |>
                 <| wg_reason := StatusCode.Ok |> in
      match policy_locked object s with
      | None => (s, failure StatusCode.UnknownPolicy)
      | Some policy =>
          if negb (ok (write_gate policy object)) then
            answer_write context (grant_with (write_gate policy object) g) s else
          match resolve_writer_region request object s with
          | failure c => answer_write context (grant_with c g) s
          | success writer_region =>
              let g := grant_region writer_region g in
              if decide (o_authority object = AuthorityMode.ExclusiveWriter ∧ writer_is object ctx = true) then
                answer_write context (g <| wg_granted := true |> <| wg_may_mutate_now := true |>) s else
              if decide (o_authority object = AuthorityMode.TransferPending) then
                write_transfer_pending key ctx context object g s else
              if decide (o_authority object = AuthorityMode.ExclusiveWriter) then
                answer_write context (grant_with StatusCode.ExclusiveWriterConflict g) s else
              let region_state := r_state <$> writer_region in
              if match region_state with Some st => negb (is_writable_state st) | None => false end then
                answer_write context
                  (grant_with (if decide (region_state = Some CoherenceState.RevalidationRequired)
                               then StatusCode.RevalidationRequired else StatusCode.SyncRequired) g) s else
              let required := required_invalidations object (wg_writer_region g) s in
              if decide (required ≠ [] ∧ pol_conflict_behavior policy = ConflictBehavior.Reject) then
                answer_write context (grant_with StatusCode.WriteConflict g) s else
              reserve_write key ctx context object participant required g s
          end
      end
  end.
End write.
