(* ===== verification/Invalidate.v ===== *)
(** * Dirty state, invalidation and revalidation ([src/engine_ops2.cpp]) *)
From S2P Require Import Prelude Ids Enums Status Policy Evidence Model Decisions Persistence Engine.
From S2P Require Import Resolve Write.

Section invalidate.
Context {St : Type} `{DurableStore St}.
Implicit Types s : Impl St.

(** ** Dirty state *)

(** The guards of [mark_dirty] on the object, then on the replica. *)
Definition dirty_object_guard (request : DirtyRequest) (object : ObjectRecord) : StatusCode.t :=
  let ctx := dr_context request in
  if decide (o_authority object ≠ AuthorityMode.ExclusiveWriter) then
    (if decide (o_authority object = AuthorityMode.TransferPending)
     then StatusCode.InvalidationOutstanding else StatusCode.NotWriteAuthorized) else
  if decide (o_writer object ≠ ac_participant ctx ∨ o_writer_boot object ≠ ac_boot ctx) then
    StatusCode.NotWriteAuthorized else
  if decide (dr_ownership_generation request ≠ o_ownership_generation object) then
    StatusCode.StaleOwnership else
  if decide (dr_base_version request ≠ o_authoritative_version object) then
    StatusCode.StalePublication else
  StatusCode.Ok.

Definition dirty_region_guard (request : DirtyRequest) (region : RegionRecord) : StatusCode.t :=
  if decide (r_participant region ≠ ac_participant (dr_context request)) then
    StatusCode.NotWriteAuthorized else
  if decide (r_state region ≠ CoherenceState.Current ∧ r_state region ≠ CoherenceState.Dirty) then
    StatusCode.SyncRequired else
  if negb (is_legal_coherence_transition (r_state region) CoherenceState.Dirty) then
    StatusCode.InvalidTransition else
  StatusCode.Ok.

Definition dirty_region (request : DirtyRequest) (ownership : OwnershipGeneration)
    (seq : OperationSequence) (r : RegionRecord) : RegionRecord :=
  r <| r_dirty := DirtyCondition.DirtyUnpublished |>
    <| r_dirty_base_version := dr_base_version request |>
    <| r_dirty_published := false |>
    <| r_state := CoherenceState.Dirty |>
    <| r_ownership_generation := ownership |>
    <| r_updated_sequence := seq |>
    <| r_note := ("unpublished modification based on version "
                  ++ id_to_string (dr_base_version request))%string |>
    <| r_content := if cf_defined (dr_content request) then dr_content request else r_content r |>.

Definition dirty_object (seq : OperationSequence) (o : ObjectRecord) : ObjectRecord :=
  o <| o_has_unpublished_dirty := true |>
    <| o_dirty_condition := DirtyCondition.DirtyUnpublished |>
    <| o_updated_sequence := seq |>.

(** [mark_dirty]. *)
Definition mark_dirty (request : DirtyRequest) s : Impl St * result DirtyCondition.t :=
  let ctx := dr_context request in
  let key := ac_object ctx in
  let authority := resolve_locked ctx s in
  let '(context, s) := make_context ctx key (ac_object_generation ctx) (resolved_ownership ctx s) s in
  let refuse c := (record_decision DecisionKind.MarkDirty context c s, failure c) in
  match authority with
  | failure c => refuse c
  | success (object, _) =>
      if negb (ok (dirty_object_guard request object)) then refuse (dirty_object_guard request object) else
      match resolve_region_locked object (dr_region request) (dr_region_generation request) s with
      | failure c => refuse c
      | success region =>
          if negb (ok (dirty_region_guard request region)) then refuse (dirty_region_guard request region) else
          let s := tick s in
          let region := dirty_region request (o_ownership_generation object) (sequence s) region in
          let object := dirty_object (sequence s) object in
          let s := set_object key object (set_region (dr_region request) region s) in
          let '(s, written) :=
            append_many_locked [UpsertObject (scrub_object_for_persistence object); UpsertRegion region] s in
          if ok written then
            (record_decision DecisionKind.MarkDirty context StatusCode.Ok s,
             success DirtyCondition.DirtyUnpublished)
          else (s, failure written)
      end
  end.

(** ** Invalidation *)

(** An invalidated replica keeps its bytes but is no source of truth. *)
Definition invalidated_region (id : InvalidationId) (seq : OperationSequence) (r : RegionRecord)
    : RegionRecord :=
  r <| r_state := if defined (r_version r) then CoherenceState.Stale else CoherenceState.Invalid |>
    <| r_evidence := nil_id |>
    <| r_evidence_generation := nil_id |>
    <| r_invalidation_pending := false |>
    <| r_pending_invalidation := nil_id |>
    <| r_pending_invalidation_target := nil_id |>
    <| r_updated_sequence := seq |>
    <| r_note := ("invalidated by " ++ id_to_string id)%string |>.

(** [outstanding_invalidations.erase(std::remove(...))]. *)
Definition settle_outstanding (id : InvalidationId) (o : ObjectRecord) : ObjectRecord :=
  o <| o_outstanding_invalidations ::= filter (λ j, j ≠ id) |>.

(** [push_object_entry] for the object at [key]. *)
Definition durable_object_entry (key : ObjectId) s : list JournalPayload :=
  match objects s !! key with
  | Some o => [UpsertObject (scrub_object_for_persistence o)]
  | None => []
  end.

(** The record [invalidate] issues for a target. *)
Definition new_invalidation (request : InvalidationRequest) (object : ObjectRecord)
    (region : RegionRecord) s : InvalidationRecord :=
  default_InvalidationRecord
    <| i_id := from_value (next_invalidation_id s) |>
    <| i_object := o_id object |>
    <| i_object_generation := o_generation object |>
    <| i_region := r_id region |>
    <| i_region_generation := r_generation region |>
    <| i_replica_generation := r_replica_generation region |>
    <| i_published_version := if defined (ir_published_version request) then ir_published_version request
                              else o_authoritative_version object |>
    <| i_superseded_version := r_version region |>
    <| i_ownership_generation := o_ownership_generation object |>
    <| i_epoch := epoch s |>
    <| i_target_participant := r_participant region |>
    <| i_target_boot := r_boot region |>
    <| i_acknowledgement_required := ir_acknowledgement_required request |>
    <| i_issued_sequence := sequence s |>
    <| i_rationale := "explicit generation-bound invalidation" |>.

Definition outcome_for (region : RegionRecord) (context : DecisionContext) (id : InvalidationId)
    (st : InvalidationState.t) (replayed : bool) : InvalidationOutcome :=
  default_InvalidationOutcome
    <| io_context := context |> <| io_invalidation := id |> <| io_state := st |>
    <| io_reason := StatusCode.Ok |> <| io_region := r_id region |>
    <| io_region_generation := r_generation region |>
    <| io_replica_generation := r_replica_generation region |>
    <| io_idempotent_replay := replayed |>.

(** A replica that can never again be a source of truth. *)
Definition inert_region (r : RegionRecord) : bool :=
  bool_decide (r_lifecycle r = RegionLifecycle.Retired)
  || bool_decide (r_state r = CoherenceState.Retired) || bool_decide (r_state r = CoherenceState.Fenced).

(** The branch for an inert target: settled at once, recorded as superseded. *)
Definition vacuous_invalidation (request : InvalidationRequest) (object : ObjectRecord)
    (region : RegionRecord) s : InvalidationRecord :=
  new_invalidation request object region s
    <| i_acknowledgement_required := false |>
    <| i_settled_sequence := sequence s |>
    <| i_state := InvalidationState.Superseded |>
    <| i_rationale := ("the targeted replica is inert (" ++ lookup_token (r_state region) ++
         "); the invalidation is satisfied vacuously and is not applied to any replacement")%string |>.

Definition invalidate_inert (request : InvalidationRequest) (context : DecisionContext)
    (object : ObjectRecord) (region : RegionRecord) s : Impl St * result InvalidationOutcome :=
  let s := tick s in
  let record := vacuous_invalidation request object region s in
  let s := s <| next_invalidation_id ::= u64_succ |> in
  let '(s, written) := append_locked (UpsertInvalidation record) s in
  if ok written then
    let s := set_invalidation (i_id record) record s in
    (record_decision DecisionKind.Invalidate context StatusCode.Ok s,
     success (outcome_for region context (i_id record) (i_state record) true))
  else (s, failure written).

(** The idempotency search over the object's outstanding list. *)
Definition same_target (region : RegionRecord) s (id : InvalidationId) : bool :=
  match invalidations s !! id with
  | Some i => bool_decide (i_region i = r_id region)
              && bool_decide (i_region_generation i = r_generation region)
              && bool_decide (i_replica_generation i = r_replica_generation region)
  | None => false
  end.

(** The branch that issues a fresh invalidation.  Without an acknowledgement to
    wait for, the effect is applied and settled in the same group. *)
Definition invalidate_live (key : ObjectId) (request : InvalidationRequest) (context : DecisionContext)
    (object : ObjectRecord) (region : RegionRecord) s : Impl St * result InvalidationOutcome :=
  let s := tick s in
  let issued := new_invalidation request object region s in
  let s := s <| next_invalidation_id ::= u64_succ |> in
  let object := object
    <| o_outstanding_invalidations ::= λ l, merge_sort rank_le (l ++ [i_id issued]) |>
    <| o_updated_sequence := sequence s |> in
  let '(s, record, region) :=
    if ir_acknowledgement_required request then
      let region := await_acknowledgement (i_id issued) (sequence s) region in
      (set_region (ir_target_region request) region (set_object key object s), issued, region)
    else
      let settled := issued <| i_state := InvalidationState.Acknowledged |>
                            <| i_settled_sequence := sequence s |> in
      let region := invalidated_region (i_id issued) (sequence s) region in
      let s := set_region (ir_target_region request) region
                 (set_object key (settle_outstanding (i_id issued) object) s) in
      (recompute_authority_locked key s, settled, region) in
  let entries := [UpsertInvalidation issued]
                 ++ (if ir_acknowledgement_required request then [] else [UpsertInvalidation record])
                 ++ [UpsertRegion region] ++ durable_object_entry key s in
  let '(s, written) := append_many_locked entries s in
  if ok written then
    let s := set_invalidation (i_id record) record s in
    (record_decision DecisionKind.Invalidate context StatusCode.Ok s,
     success (outcome_for region context (i_id record) (i_state record) false))
  else (s, failure written).

(** [invalidate]. *)
Definition invalidate (request : InvalidationRequest) s : Impl St * result InvalidationOutcome :=
  let ctx := ir_context request in
  let key := ac_object ctx in
  match resolve_internal_locked ctx s with
  | failure c => (s, failure c)
  | success object =>
      let '(context, s) := make_context ctx key (ac_object_generation ctx) (o_ownership_generation object) s in
      if decide (ir_ownership_generation request ≠ o_ownership_generation object) then
        (s, failure StatusCode.StaleOwnership) else
      match regions s !! ir_target_region request with
      | None => (s, failure StatusCode.UnknownRegion)
      | Some region =>
          if decide (r_object region ≠ o_id object) then (s, failure StatusCode.InvalidArgument) else
          if decide (r_generation region ≠ ir_target_region_generation request ∨
                     r_replica_generation region ≠ ir_target_replica_generation request) then
            (s, failure StatusCode.StaleRegionGeneration) else
          if inert_region region then invalidate_inert request context object region s else
          match List.find (same_target region s) (o_outstanding_invalidations object) with
          | Some id =>
              let st := match invalidations s !! id with
                        | Some i => i_state i | None => InvalidationState.Unknown end in
              (s, success (outcome_for region context id st true))
          | None => invalidate_live key request context object region s
          end
      end
  end.

(** ** Acknowledgement *)

(** Settling an invalidation removes it from the object's outstanding list and
    recomputes the object's authority. *)
Definition settle_invalidation (key : ObjectId) (id : InvalidationId) (record : InvalidationRecord) s
    : Impl St :=
  let s := set_invalidation id record s in
  let s := s <| objects ::= alter (settle_outstanding (i_id record)) key |> in
  recompute_authority_locked key s.

Definition superseded_invalidation (seq : OperationSequence) (why : string) (i : InvalidationRecord)
    : InvalidationRecord :=
  i <| i_state := InvalidationState.Superseded |> <| i_settled_sequence := seq |> <| i_rationale := why |>.

Definition acknowledged_invalidation (ack : InvalidationAck) (seq : OperationSequence)
    (region : RegionRecord) (i : InvalidationRecord) : InvalidationRecord :=
  i <| i_state := InvalidationState.Acknowledged |>
    <| i_settled_sequence := seq |>
    <| i_superseded_version := if defined (ia_superseded_version ack) then ia_superseded_version ack
                               else r_version region |>.

(** The acknowledgement names the generation that is live. *)
Definition ack_current (ack : InvalidationAck) (record : InvalidationRecord) (region : RegionRecord) : bool :=
  bool_decide (r_generation region = i_region_generation record)
  && bool_decide (r_replica_generation region = i_replica_generation record)
  && bool_decide (r_generation region = ia_region_generation ack)
  && bool_decide (r_replica_generation region = ia_replica_generation ack).

(** The final branch: the effect is applied to the targeted generation. *)
Definition apply_acknowledgement (ack : InvalidationAck) (outcome : InvalidationOutcome)
    (record : InvalidationRecord) (region : RegionRecord) s : Impl St * result InvalidationOutcome :=
  let key := ac_object (ia_context ack) in
  let s := tick s in
  let record := acknowledged_invalidation ack (sequence s) region record in
  let region := invalidated_region (i_id record) (sequence s) region in
  let s := settle_invalidation key (ia_invalidation ack) record (set_region (i_region record) region s) in
  let s := s <| objects ::= alter (λ o, o <| o_updated_sequence := sequence s |>) key |> in
  let '(s, written) :=
    append_many_locked ([UpsertInvalidation record; UpsertRegion region] ++ durable_object_entry key s) s in
  if ok written then
    (record_decision DecisionKind.Invalidate (io_context outcome) StatusCode.Ok s,
     success (outcome <| io_state := i_state record |> <| io_reason := StatusCode.Ok |>))
  else (s, failure written).

(** [acknowledge_invalidation]. *)
Definition acknowledge_invalidation (ack : InvalidationAck) s : Impl St * result InvalidationOutcome :=
  let ctx := ia_context ack in
  let key := ac_object ctx in
  match invalidations s !! ia_invalidation ack with
  | None => (s, failure StatusCode.UnknownInvalidation)
  | Some record =>
      let authority := resolve_locked ctx s in
      let '(context, s) := make_context ctx (i_object record) (i_object_generation record)
                             (i_ownership_generation record) s in
      let outcome := default_InvalidationOutcome
        <| io_context := context |> <| io_invalidation := i_id record |> <| io_region := i_region record |>
        <| io_region_generation := i_region_generation record |>
        <| io_replica_generation := i_replica_generation record |> in
      match authority with
      | failure c => (s, failure c)
      | success (object, _) =>
          if decide (o_id object ≠ i_object record) then (s, failure StatusCode.InvalidArgument) else
          if decide (i_target_participant record ≠ ac_participant ctx ∨ i_target_boot record ≠ ac_boot ctx) then
            (s, failure StatusCode.NotWriteAuthorized) else
          if decide (i_state record = InvalidationState.Acknowledged) then
            (s, success (outcome <| io_state := i_state record |> <| io_reason := StatusCode.Ok |>
                                 <| io_idempotent_replay := true |>)) else
          if decide (i_state record = InvalidationState.Superseded) then
            (s, success (outcome <| io_state := i_state record |>
                                 <| io_reason := StatusCode.StaleInvalidation |>)) else
          match regions s !! i_region record with
          | None =>
              let record := superseded_invalidation (sequence s) "target replica no longer exists" record in
              let s := settle_invalidation key (ia_invalidation ack) record s in
              let '(s, written) := append_locked (UpsertInvalidation record) s in
              (s, if ok written
                  then success (outcome <| io_state := i_state record |> <| io_reason := StatusCode.Ok |>)
                  else failure written)
          | Some region =>
              if negb (ack_current ack record region) then
                let record := superseded_invalidation (sequence s)
                  "the targeted replica generation was replaced before the acknowledgement arrived" record in
                let s := settle_invalidation key (ia_invalidation ack) record s in
                let '(s, written) :=
                  append_many_locked (UpsertInvalidation record :: durable_object_entry key s) s in
                (s, if ok written
                    then success (outcome <| io_state := i_state record |> <| io_reason := StatusCode.Ok |>)
                    else failure written)
              else apply_acknowledgement ack outcome record region s
          end
      end
  end.

(** ** Revalidation *)

(** The guards of [revalidate_region] after the replica is resolved. *)
Definition revalidate_guard (request : RevalidateRequest) (object : ObjectRecord)
    (region : RegionRecord) s : StatusCode.t :=
  let ctx := rv_context request in
  if decide (r_participant region ≠ ac_participant ctx ∨ r_boot region ≠ ac_boot ctx) then
    StatusCode.NotWriteAuthorized else
  if decide (r_lifecycle region = RegionLifecycle.Retired) then StatusCode.Retired else
  match policy_locked object s with
  | None => StatusCode.UnknownPolicy
  | Some policy =>
      if decide (pol_require_content_fingerprint policy = true ∧ cf_defined (rv_content request) = false) then
        StatusCode.EvidenceMissing else
      if decide (rv_byte_compared request = false ∧ pol_require_content_fingerprint policy = true) then
        StatusCode.EvidenceMissing else
      if negb (defined (rv_observed_version request)) then StatusCode.InvalidArgument else
      StatusCode.Ok
  end.

Definition revalidated_region (request : RevalidateRequest) (object : ObjectRecord)
    (evidence : EvidenceRecord) (seq : OperationSequence) (r : RegionRecord) : RegionRecord :=
  let authoritative := o_authoritative_version object in
  let observed := rv_observed_version request in
  let dirty := bool_decide (r_dirty r = DirtyCondition.DirtyUnpublished) in
  let r := r <| r_version := observed |>
             <| r_ownership_generation := o_ownership_generation object |>
             <| r_evidence := e_id evidence |>
             <| r_evidence_generation := e_generation evidence |>
             <| r_updated_sequence := seq |>
             <| r_content := if cf_defined (rv_content request) then rv_content request else r_content r |> in
  let r := if dirty then r <| r_dirty := DirtyCondition.DirtyPublished |> <| r_dirty_published := true |>
           else r in
  if negb (defined authoritative) || bool_decide (observed = authoritative) then
    r <| r_state := CoherenceState.Current |>
      <| r_last_synced_version := observed |>
      <| r_note := ("revalidated by direct observation at version " ++ id_to_string observed)%string |>
  else
    r <| r_state := CoherenceState.Stale |>
      <| r_note := ("revalidation observed version " ++ id_to_string observed ++
                    " which is not the authoritative version " ++ id_to_string authoritative)%string |>.

(** [revalidate_region]. *)
Definition revalidate_region (request : RevalidateRequest) s : Impl St * result RegionRecord :=
  let ctx := rv_context request in
  match resolve_locked ctx s with
  | failure c => (s, failure c)
  | success (object, participant) =>
      match resolve_region_locked object (rv_region request) (rv_region_generation request) s with
      | failure c => (s, failure c)
      | success region =>
          if negb (ok (revalidate_guard request object region s)) then
            (s, failure (revalidate_guard request object region s)) else
          let s := tick s in
          let '(evidence, s) := make_evidence
            (if rv_byte_compared request then EvidenceKind.ByteComparison else EvidenceKind.RuntimeObservation)
            (r_evidence_class region) (ac_participant ctx) (p_boot participant) (o_id object)
            (o_generation object) (r_id region) (r_generation region) (rv_observed_version request)
            (rv_content request) s in
          let region := revalidated_region request object evidence (sequence s) region in
          let s := set_region (rv_region request) region s in
          let '(s, written) := append_locked (UpsertRegion region) s in
          if ok written then
            let '(context, s) := make_context ctx (o_id object) (o_generation object)
                                   (o_ownership_generation object) s in
            (record_decision DecisionKind.Revalidate context StatusCode.Ok s, success region)
          else (s, failure written)
      end
  end.
End invalidate.
