(* ===== verification/Publish.v ===== *)
(** * Publication ([src/engine_ops3.cpp]: [publish])

    [publish] holds the state mutex twice and releases it while the pending
    record is appended to the store.  The three phases are three functions; the
    locals that survive from one phase to the next are [PublishLocals].  Between
    two phases any other operation may run, and [publish] itself is the run in
    which none does. *)
From S2P Require Import Prelude Ids Enums Status Policy Evidence Model Decisions Persistence Engine.
From S2P Require Import Resolve Core.

#[local] Set Primitive Projections.

(** The locals of [publish] that outlive phase 1. *)
Record PublishLocals := mkPublishLocals {
  pl_request : PublishRequest;
  pl_receipt : PublicationReceipt;
  pl_pending : PendingPublication;
  pl_entry : JournalEntry;
  pl_base : VersionId;
  pl_ownership : OwnershipGeneration;
  pl_writer : ParticipantId;
  pl_writer_boot : ParticipantBootId;
  pl_durable_required : bool }.

#[local] Unset Primitive Projections.

Section publish.
Context {St : Type} `{DurableStore St}.
Implicit Types s : Impl St.

Definition receipt_with (state : PublicationState.t) (reason : StatusCode.t) (r : PublicationReceipt)
    : PublicationReceipt := r <| pr_state := state |> <| pr_reason := reason |>.

(** ** Phase 1 *)

(** The search for a request identity that already committed. *)
Definition completed_request (request : RequestId) (object : ObjectRecord)
    : option CompletedPublicationRequest :=
  if defined request then List.find (λ c, bool_decide (cr_request c = request)) (o_completed_requests object)
  else None.

Definition replayed_receipt (policy : CoherencePolicy) (completed : CompletedPublicationRequest)
    (r : PublicationReceipt) : PublicationReceipt :=
  receipt_with PublicationState.Committed StatusCode.Ok r
    <| pr_publication := cr_publication completed |>
    <| pr_version := cr_version completed |>
    <| pr_durable := bool_decide (pol_publication_durability policy = PublicationDurability.DurableMetadata) |>
    <| pr_idempotent_replay := true |>.

(** The guards on the object, in the order of the code. *)
Definition publish_object_guard (request : PublishRequest) (policy : CoherencePolicy)
    (object : ObjectRecord) s : StatusCode.t :=
  let ctx := pb_context request in
  if decide (o_authority object ≠ AuthorityMode.ExclusiveWriter) then
    (if decide (o_authority object = AuthorityMode.TransferPending)
     then StatusCode.InvalidationOutstanding else StatusCode.NotWriteAuthorized) else
  if decide (o_writer object ≠ ac_participant ctx ∨ o_writer_boot object ≠ ac_boot ctx) then
    StatusCode.NotWriteAuthorized else
  if decide (pb_ownership_generation request ≠ o_ownership_generation object) then
    StatusCode.StaleOwnership else
  if decide (pb_expected_base_version request ≠ o_authoritative_version object) then
    StatusCode.StalePublication else
  if pol_require_invalidation_acks_before_publication policy
     && has_outstanding_invalidations_locked (o_id object) s then StatusCode.InvalidationOutstanding else
  if pol_require_content_fingerprint policy && negb (cf_defined (pb_content request)) then
    StatusCode.EvidenceMissing else
  StatusCode.Ok.

(** The guards on the published replica. *)
Definition publish_region_guard (request : PublishRequest) (base : VersionId) (region : RegionRecord)
    : StatusCode.t :=
  if decide (r_participant region ≠ ac_participant (pb_context request)) then
    StatusCode.NotWriteAuthorized else
  if negb (pb_allow_without_dirty request) then
    if decide (r_dirty region ≠ DirtyCondition.DirtyUnpublished) then StatusCode.DirtyUnpublished else
    if decide (r_dirty_base_version region ≠ base) then StatusCode.StalePublication else
    StatusCode.Ok
  else
    if decide (r_state region ≠ CoherenceState.Current ∧ r_state region ≠ CoherenceState.Dirty) then
      StatusCode.SyncRequired else
    if decide (defined base = true ∧ r_version region ≠ base) then StatusCode.StalePublication else
    StatusCode.Ok.

Definition next_version (base : VersionId) : VersionId :=
  if defined base then next base else from_value 1.

Definition new_pending (request : PublishRequest) (object : ObjectRecord)
    (participant : ParticipantRecord) s : PendingPublication := {|
  pp_id := from_value (next_publication_id s);
  pp_object := o_id object;
  pp_object_generation := o_generation object;
  pp_version := next_version (o_authoritative_version object);
  pp_prior_version := o_authoritative_version object;
  pp_ownership_generation := o_ownership_generation object;
  pp_epoch := epoch s;
  pp_writer := ac_participant (pb_context request);
  pp_writer_boot := p_boot participant;
  pp_request := ac_request (pb_context request);
  pp_content := pb_content request;
  pp_sequence := sequence s;
  pp_durable := false |}.

Definition reserved_object (pending : PendingPublication) (o : ObjectRecord) : ObjectRecord :=
  o <| o_publication_state := PublicationState.PendingDurable |>
    <| o_pending_publication := pp_id pending |>
    <| o_pending_version := pp_version pending |>
    <| o_pending_content := pp_content pending |>
    <| o_updated_sequence := pp_sequence pending |>.

(** The reservation: from [impl_->tick()] to the end of phase 1. *)
Definition reserve_publication (key : ObjectId) (request : PublishRequest) (policy : CoherencePolicy)
    (object : ObjectRecord) (participant : ParticipantRecord) (receipt : PublicationReceipt) s
    : Impl St * PublishLocals :=
  let s := tick s in
  let pending := new_pending request object participant s in
  let durable_required :=
    bool_decide (pol_publication_durability policy = PublicationDurability.DurableMetadata)
    && durability_active s in
  let s := set_object key (reserved_object pending object) (s <| next_publication_id ::= u64_succ |>) in
  let s := s <| in_flight_publications ::= <[pp_id pending := pending]> |> in
  let entry := mkJournalEntry (next_journal_sequence s) (SetPendingPublication pending) in
  let s := s <| next_journal_sequence ::= u64_succ |> in
  (s, {| pl_request := request;
         pl_receipt := receipt <| pr_publication := pp_id pending |> <| pr_version := pp_version pending |>;
         pl_pending := pending;
         pl_entry := entry;
         pl_base := o_authoritative_version object;
         pl_ownership := o_ownership_generation object;
         pl_writer := ac_participant (pb_context request);
         pl_writer_boot := p_boot participant;
         pl_durable_required := durable_required |}).

(** Phase 1 answers at once ([inl]) or leaves a reservation ([inr]). *)
Definition publish_reserve (request : PublishRequest) s
    : Impl St * (result PublicationReceipt + PublishLocals) :=
  let ctx := pb_context request in
  let key := ac_object ctx in
  let authority := resolve_locked ctx s in
  let '(context, s) := make_context ctx key (ac_object_generation ctx) (resolved_ownership ctx s) s in
  match authority with
  | failure c => (record_decision DecisionKind.Publish context c s, inl (failure c))
  | success (object, participant) =>
      match policy_locked object s with
      | None => (s, inl (failure StatusCode.UnknownPolicy))
      | Some policy =>
          let receipt := default_PublicationReceipt
            <| pr_context := context |>
            <| pr_durability := pol_publication_durability policy |>
            <| pr_prior_version := o_authoritative_version object |>
            <| pr_writer := ac_participant ctx |>
            <| pr_writer_boot := p_boot participant |>
            <| pr_content := pb_content request |> in
          let refuse c := (record_decision DecisionKind.Publish context c s,
                           inl (success (receipt_with PublicationState.None c receipt))) in
          match completed_request (ac_request ctx) object with
          | Some completed =>
              (record_decision DecisionKind.Publish context StatusCode.Ok s,
               inl (success (replayed_receipt policy completed receipt)))
          | None =>
              let guard := publish_object_guard request policy object s in
              if negb (ok guard) then refuse guard else
              match resolve_region_locked object (pb_region request) (pb_region_generation request) s with
              | failure c => refuse c
              | success region =>
                  let guard := publish_region_guard request (o_authoritative_version object) region in
                  if negb (ok guard) then refuse guard else
                  let '(s, locals) := reserve_publication key request policy object participant receipt s in
                  (s, inr locals)
              end
          end
      end
  end.

(** ** Phase 2: the append, with the state lock released. *)
Definition publish_durable (locals : PublishLocals) s : Impl St * StatusCode.t :=
  match (if pl_durable_required locals then store s else None) with
  | None => (s, StatusCode.Ok)
  | Some st =>
      let '(st', written) := ds_append (pl_entry locals) st in
      let s := s <| store := Some st' |> in
      if ok written then (s, StatusCode.Ok) else (s <| store_healthy := false |>, written)
  end.

(** ** Phase 3 *)

Definition aborted_object (o : ObjectRecord) : ObjectRecord :=
  clear_pending (o <| o_publication_state := PublicationState.Aborted |>).

(** The reservation phase 1 made is still the object's. *)
Definition reservation_intact (locals : PublishLocals) (o : ObjectRecord) : bool :=
  bool_decide (o_pending_publication o = pp_id (pl_pending locals))
  && bool_decide (o_ownership_generation o = pl_ownership locals)
  && bool_decide (o_authoritative_version o = pl_base locals).

(** The durable image catches up with the record phase 2 appended. *)
Definition apply_pending_entry (locals : PublishLocals) s : Impl St :=
  if pl_durable_required locals then
    let '(image, applied) := apply_journal_entry (durable s) (pl_entry locals) in
    let s := s <| durable := image |> in
    if ok applied then s else s <| store_healthy := false |>
  else s.

(** The pending record of a superseded reservation is cleared, durably too. *)
Definition clear_superseded (locals : PublishLocals) (object : ObjectId) s : Impl St :=
  if pl_durable_required locals then
    let clear := mkJournalEntry (next_journal_sequence s) (ClearPendingPublication object) in
    let s := s <| next_journal_sequence ::= u64_succ |> in
    let s := match store s with Some st => s <| store := Some (ds_append clear st).1 |> | None => s end in
    s <| durable := (apply_journal_entry (durable s) clear).1 |>
  else s.

(** The retained request identities: newest last, oldest dropped first. *)
Definition retain_request (limit : N) (c : CompletedPublicationRequest)
    (l : list CompletedPublicationRequest) : list CompletedPublicationRequest :=
  let l := l ++ [c] in
  let limit := if (limit =? 0)%N then 1%N else limit in
  drop (length l - N.to_nat limit) l.

Definition committed_object (locals : PublishLocals) (limit : N) (seq : OperationSequence)
    (o : ObjectRecord) : ObjectRecord :=
  let pending := pl_pending locals in
  let request := ac_request (pb_context (pl_request locals)) in
  let o := clear_pending
    (o <| o_authoritative_version := pp_version pending |>
       <| o_published_version := pp_version pending |>
       <| o_publication := pp_id pending |>
       <| o_publication_state := PublicationState.Committed |>
       <| o_committed_sequence := seq |>)
       <| o_has_unpublished_dirty := false |>
       <| o_dirty_condition := DirtyCondition.DirtyPublished |>
       <| o_last_writer := pl_writer locals |>
       <| o_last_writer_boot := pl_writer_boot locals |>
       <| o_updated_sequence := seq |>
       <| o_recovery_note := "" |> in
  if defined request
  then o <| o_completed_requests ::= retain_request limit
              (mkCompletedPublicationRequest request (pp_version pending) (pp_id pending) seq) |>
  else o.

Definition published_region (locals : PublishLocals) (evidence : EvidenceRecord)
    (seq : OperationSequence) (r : RegionRecord) : RegionRecord :=
  let version := pp_version (pl_pending locals) in
  let content := pb_content (pl_request locals) in
  r <| r_state := CoherenceState.Current |>
    <| r_version := version |>
    <| r_last_published_version := version |>
    <| r_ownership_generation := pl_ownership locals |>
    <| r_dirty := DirtyCondition.DirtyPublished |>
    <| r_dirty_published := true |>
    <| r_evidence := e_id evidence |>
    <| r_evidence_generation := e_generation evidence |>
    <| r_content := if cf_defined content then content else r_content r |>
    <| r_updated_sequence := seq |>
    <| r_note := ("authoritative version " ++ id_to_string version ++ " published from this replica")%string |>.

Definition publish_from_region (locals : PublishLocals) (object : ObjectRecord) s : Impl St :=
  let rid := pb_region (pl_request locals) in
  match regions s !! rid with
  | None => s
  | Some r =>
      let '(evidence, s) := make_evidence EvidenceKind.ByteComparison (r_evidence_class r)
        (pl_writer locals) (pl_writer_boot locals) (o_id object) (o_generation object)
        (r_id r) (r_generation r) (pp_version (pl_pending locals)) (pb_content (pl_request locals)) s in
      set_region rid (published_region locals evidence (sequence s) r) s
  end.

(** The commit marker: the object, the cleared pending record, the published
    replica and every other replica of the object. *)
Definition commit_entries (locals : PublishLocals) (object : ObjectRecord) s : list JournalPayload :=
  let rid := pb_region (pl_request locals) in
  let region_entry id := match regions s !! id with Some r => [UpsertRegion r] | None => [] end in
  [UpsertObject (scrub_object_for_persistence object); ClearPendingPublication (o_id object)]
  ++ region_entry rid
  ++ concat (region_entry <$> filter (λ id, id ≠ rid) (o_replicas object)).

(** The commit itself. *)
Definition commit_publication (locals : PublishLocals) (object : ObjectRecord) s
    : Impl St * result PublicationReceipt :=
  let s := tick s in
  let object := committed_object locals (cfg_max_retained_requests_per_object (config s)) (sequence s) object in
  let s := set_object (pp_object (pl_pending locals)) object s in
  let s := publish_from_region locals object s in
  let s := mark_regions_stale_locked (o_id object) (pp_version (pl_pending locals))
             (pb_region (pl_request locals)) s in
  let s := (append_many_locked (commit_entries locals object s) s).1 in
  let receipt := receipt_with PublicationState.Committed StatusCode.Ok (pl_receipt locals)
                   <| pr_durable := pl_durable_required locals |> in
  let s := record_decision DecisionKind.Publish (pr_context receipt) StatusCode.Ok s in
  ((maybe_compact_locked s).1, success receipt).

(** Phase 3. *)
Definition publish_commit (locals : PublishLocals) (durable_status : StatusCode.t) s
    : Impl St * result PublicationReceipt :=
  let key := pp_object (pl_pending locals) in
  let context := pr_context (pl_receipt locals) in
  let s := s <| in_flight_publications ::= delete (pp_id (pl_pending locals)) |> in
  match objects s !! key with
  | None => (s, failure StatusCode.UnknownObject)
  | Some object =>
      if negb (ok durable_status) then
        let s := set_object key (aborted_object object) s in
        (record_decision DecisionKind.Publish context durable_status s, failure durable_status)
      else
        let s := apply_pending_entry locals s in
        if negb (reservation_intact locals object) then
          let s := set_object key (aborted_object object) s in
          let s := clear_superseded locals (o_id object) s in
          (record_decision DecisionKind.Publish context StatusCode.OutcomeUnknown s,
           success (receipt_with PublicationState.Aborted StatusCode.OutcomeUnknown (pl_receipt locals)))
        else commit_publication locals object s
  end.

(** [publish], when nothing else runs between its phases. *)
Definition publish (request : PublishRequest) s : Impl St * result PublicationReceipt :=
  match publish_reserve request s with
  | (s, inl answer) => (s, answer)
  | (s, inr locals) =>
      let '(s, durable_status) := publish_durable locals s in
      publish_commit locals durable_status s
  end.
End publish.
