(* ===== verification/Sync.v ===== *)
(** * Release and synchronization ([src/engine_ops3.cpp]: [release],
    [begin_sync], [complete_sync], [fail_sync]) *)
From S2P Require Import Prelude Ids Enums Status Policy Evidence Model Decisions Persistence Engine.
From S2P Require Import Resolve Core Invalidate.

Section sync.
Context {St : Type} `{DurableStore St}.
Implicit Types s : Impl St.

(** [make_context] when the object was found, otherwise the default context. *)
Definition context_if_resolved (ctx : AuthorityContext) s : DecisionContext * Impl St :=
  match resolve_object ctx s with
  | Some o => make_context ctx (ac_object ctx) (ac_object_generation ctx) (o_ownership_generation o) s
  | None => (default_DecisionContext, s)
  end.

(** ** Release *)

(** Release of the first grant that carries the lease. *)
Fixpoint release_lease (lease : LeaseId) (grants : list ReadGrant) : list ReadGrant :=
  match grants with
  | [] => []
  | g :: rest => if decide (g_lease g = lease) then g <| g_released := true |> :: rest
                 else g :: release_lease lease rest
  end.

Definition find_lease (lease : LeaseId) (grants : list ReadGrant) : option ReadGrant :=
  List.find (λ g, bool_decide (g_lease g = lease)) grants.

(** The branch that names a read lease. *)
Definition release_read (request : ReleaseRequest) (outcome : ReleaseOutcome) (object : ObjectRecord) s
    : Impl St * result ReleaseOutcome :=
  let ctx := rl_context request in
  let key := ac_object ctx in
  match find_lease (rl_lease request) (o_reads object) with
  | None => (s, failure StatusCode.UnknownRequest)
  | Some grant =>
      if decide (g_participant grant ≠ ac_participant ctx ∨ g_boot grant ≠ ac_boot ctx) then
        (s, failure StatusCode.NotWriteAuthorized) else
      let outcome := outcome <| ro_lease := rl_lease request |>
                             <| ro_already_released := g_released grant |>
                             <| ro_version := g_version grant |>
                             <| ro_reason := StatusCode.Ok |> in
      let s := set_object key (object <| o_reads ::= release_lease (rl_lease request) |>) s in
      let s := recompute_authority_locked key s in
      let s := s <| objects ::= alter (λ o, o <| o_updated_sequence := sequence s |>) key |> in
      let '(s, written) := append_many_locked (durable_object_entry key s) s in
      if ok written then
        (record_decision DecisionKind.Release (ro_context outcome) StatusCode.Ok (tick s), success outcome)
      else (s, failure written)
  end.

(** The unpublished modification of a replica whose writer let go of it. *)
Definition lost_region (seq : OperationSequence) (r : RegionRecord) : RegionRecord :=
  r <| r_dirty := DirtyCondition.DirtyLost |>
    <| r_state := CoherenceState.Stale |>
    <| r_note := "unpublished modification was never published" |>
    <| r_updated_sequence := seq |>.

Definition lose_dirty_region (acc : Impl St * list JournalPayload) (id : RegionId)
    : Impl St * list JournalPayload :=
  let '(s, entries) := acc in
  match regions s !! id with
  | Some r =>
      if decide (r_dirty r = DirtyCondition.DirtyUnpublished) then
        let r := lost_region (sequence s) r in (set_region id r s, entries ++ [UpsertRegion r])
      else (s, entries)
  | None => (s, entries)
  end.

Definition release_note : string :=
  "write authority released with an unpublished modification; the newest state was never published and recovery must resolve the outcome".

(** The object after its writer let go: the ownership generation advances. *)
Definition released_object (loss : DirtyLossPolicy.t) (o : ObjectRecord) : ObjectRecord :=
  apply_dirty_loss loss release_note
    (o <| o_ownership_generation ::= next |>
       <| o_writer := nil_id |> <| o_writer_boot := nil_uuid |>
       <| o_authority := AuthorityMode.None |>).

(** The branch that gives up write authority. *)
Definition release_write (request : ReleaseRequest) (outcome : ReleaseOutcome) (object : ObjectRecord) s
    : Impl St * result ReleaseOutcome :=
  let ctx := rl_context request in
  let key := ac_object ctx in
  if decide (o_writer object ≠ ac_participant ctx ∨ o_writer_boot object ≠ ac_boot ctx) then
    (s, failure StatusCode.NotWriteAuthorized) else
  if decide (rl_ownership_generation request ≠ o_ownership_generation object) then
    (s, failure StatusCode.StaleOwnership) else
  let s := tick s in
  let s := set_object key (released_object (dirty_loss_of object s) object) s in
  let '(s, entries) := if o_has_unpublished_dirty object
                       then foldl lose_dirty_region (s, []) (o_replicas object) else (s, []) in
  let s := recompute_authority_locked key s in
  let s := s <| objects ::= alter (λ o, o <| o_updated_sequence := sequence s |>) key |> in
  let '(s, written) := append_many_locked (entries ++ durable_object_entry key s) s in
  if ok written then
    (record_decision DecisionKind.Release (ro_context outcome) StatusCode.Ok s,
     success (outcome <| ro_reason := StatusCode.Ok |>))
  else (s, failure written).

(** [release]. *)
Definition release (request : ReleaseRequest) s : Impl St * result ReleaseOutcome :=
  let ctx := rl_context request in
  let authority := resolve_locked ctx s in
  let '(context, s) := context_if_resolved ctx s in
  let outcome := default_ReleaseOutcome <| ro_context := context |>
                   <| ro_participant := ac_participant ctx |> <| ro_boot := ac_boot ctx |> in
  match authority with
  | failure c => (s, failure c)
  | success (object, _) =>
      if defined (rl_lease request) then release_read request outcome object s else
      if negb (rl_release_write_authority request) then (s, failure StatusCode.InvalidArgument) else
      release_write request outcome object s
  end.

(** ** Beginning a synchronization *)

Definition nominated_source (request : SyncRequest) (object : ObjectRecord) s : result RegionRecord :=
  match regions s !! sr_source_region request with
  | None => failure StatusCode.UnknownRegion
  | Some r =>
      if decide (defined (sr_source_region_generation request) = true ∧
                 r_generation r ≠ sr_source_region_generation request) then
        failure StatusCode.StaleRegionGeneration else
      if decide (r_object r ≠ o_id object) then failure StatusCode.InvalidArgument else
      if decide (r_state r ≠ CoherenceState.Current) then failure StatusCode.ReadNotCurrent else
      success r
  end.

(** A replica that holds the authoritative version, other than the destination. *)
Definition eligible_source (object : ObjectRecord) (destination : RegionRecord) s (id : RegionId) : bool :=
  negb (bool_decide (id = r_id destination))
  && match regions s !! id with
     | Some r => is_current_state (r_state r)
                 && (negb (defined (o_authoritative_version object))
                     || bool_decide (r_version r = o_authoritative_version object))
     | None => false
     end.

Definition select_source (request : SyncRequest) (object : ObjectRecord) (destination : RegionRecord) s
    : result RegionRecord :=
  if defined (sr_source_region request) then nominated_source request object s else
  match List.find (eligible_source object destination s) (o_replicas object) with
  | None => failure StatusCode.NotAuthoritative
  | Some id =>
      if negb (defined id) then failure StatusCode.NotAuthoritative else
      match regions s !! id with Some r => success r | None => failure StatusCode.InternalError end
  end.

Definition new_sync (request : SyncRequest) (object : ObjectRecord)
    (source destination : RegionRecord) s : SyncRecord :=
  let version := if defined (o_authoritative_version object) then o_authoritative_version object
                 else r_version source in
  default_SyncRecord
    <| y_id := from_value (next_sync_id s) |>
    <| y_kind := sr_kind request |>
    <| y_object := o_id object |>
    <| y_object_generation := o_generation object |>
    <| y_source_region := r_id source |>
    <| y_source_region_generation := r_generation source |>
    <| y_destination_region := r_id destination |>
    <| y_destination_region_generation := r_generation destination |>
    <| y_source_version := version |>
    <| y_destination_prior_version := r_version destination |>
    <| y_extent_offset := r_offset source |>
    <| y_extent_length := r_length source |>
    <| y_expected_content := r_content source |>
    <| y_ownership_generation := o_ownership_generation object |>
    <| y_policy := o_policy object |>
    <| y_policy_generation := o_policy_generation object |>
    <| y_epoch := epoch s |>
    <| y_destination_participant := r_participant destination |>
    <| y_destination_boot := r_boot destination |>
    <| y_state := SyncState.Requested |>
    <| y_transport := if decide (sr_transport request = ""%string) then "delegated"%string
                      else sr_transport request |>
    <| y_postcondition := ("destination replica holds version " ++ id_to_string version ++
         " with fingerprint " ++ fingerprint_to_string (r_content source) ++
         " and becomes current under ownership generation " ++
         id_to_string (o_ownership_generation object))%string |>
    <| y_issued_sequence := sequence s |>.

(** The destination while the transfer is in flight: never current. *)
Definition awaiting_sync (sync : SyncOperationId) (source : RegionId) (seq : OperationSequence)
    (r : RegionRecord) : RegionRecord :=
  r <| r_state := match r_state r with
         | CoherenceState.RevalidationRequired => CoherenceState.RevalidationRequired
         | CoherenceState.Retired => CoherenceState.Retired
         | CoherenceState.Fenced => CoherenceState.Fenced
         | _ => CoherenceState.SyncRequired
         end |>
    <| r_note := ("synchronization " ++ id_to_string sync ++ " requested from " ++ id_to_string source)%string |>
    <| r_updated_sequence := seq |>.

(** [begin_sync]. *)
Definition begin_sync (request : SyncRequest) s : Impl St * result SyncOutcome :=
  let ctx := sr_context request in
  let authority := resolve_locked ctx s in
  let '(context, s) := context_if_resolved ctx s in
  match authority with
  | failure c => (s, failure c)
  | success (object, _) =>
      if decide (policy_locked object s = None) then (s, failure StatusCode.UnknownPolicy) else
      if (cfg_max_inflight_syncs (config s) <=? map_count (syncs s))%N then
        (s, failure StatusCode.CapacityExceeded) else
      match resolve_region_locked object (sr_destination_region request)
              (sr_destination_region_generation request) s with
      | failure c => (s, failure c)
      | success destination =>
          if decide (r_participant destination ≠ ac_participant ctx ∨ r_boot destination ≠ ac_boot ctx) then
            (s, failure StatusCode.NotWriteAuthorized) else
          if decide (r_lifecycle destination = RegionLifecycle.Retired) then
            (s, failure StatusCode.Retired) else
          match select_source request object destination s with
          | failure c => (s, failure c)
          | success source =>
              let s := tick s in
              let record := new_sync request object source destination s in
              let s := s <| next_sync_id ::= u64_succ |> in
              let destination := awaiting_sync (y_id record) (r_id source) (sequence s) destination in
              let s := set_region (sr_destination_region request) destination s in
              let '(s, written) := append_many_locked [UpsertSync record; UpsertRegion destination] s in
              if ok written then
                let s := set_sync (y_id record) record s in
                (record_decision DecisionKind.SyncBegin context StatusCode.Ok s,
                 success (default_SyncOutcome <| so_context := context |> <| so_operation := y_id record |>
                            <| so_state := y_state record |> <| so_plan := record |>
                            <| so_reason := StatusCode.Ok |>))
              else (s, failure written)
          end
      end
  end.

(** ** Completing a synchronization *)

(** The guards on a completion that is not a replay. *)
Definition completion_guard (request : SyncCompleteRequest) (record : SyncRecord) : StatusCode.t :=
  let ctx := sc_context request in
  if decide (y_state record = SyncState.Cancelled ∨ y_state record = SyncState.Failed) then
    StatusCode.InvalidTransition else
  if decide (y_destination_participant record ≠ ac_participant ctx) then StatusCode.NotWriteAuthorized else
  if decide (y_destination_boot record ≠ ac_boot ctx) then StatusCode.StaleBoot else
  if decide (sc_destination_region request ≠ y_destination_region record ∨
             sc_destination_region_generation request ≠ y_destination_region_generation record) then
    StatusCode.StaleRegionGeneration else
  if decide (sc_destination_new_version request ≠ y_source_version record) then
    StatusCode.StaleSyncOperation else
  StatusCode.Ok.

Definition settled_sync (state : SyncState.t) (seq : OperationSequence) (why : string) (y : SyncRecord)
    : SyncRecord :=
  y <| y_state := state |> <| y_settled_sequence := seq |> <| y_failure_reason := why |>.

Definition demoted_region (state : CoherenceState.t) (note : string) (seq : OperationSequence)
    (r : RegionRecord) : RegionRecord :=
  r <| r_state := state |> <| r_note := note |> <| r_updated_sequence := seq |>.

(** Settling a transfer that did not make its destination current.  The state
    is written before the journal group; [None] means that the destination is
    not touched. *)
Definition settle_sync (id : SyncOperationId) (record : SyncRecord) (demoted : option RegionRecord) s
    : Impl St * StatusCode.t :=
  let s := set_sync id record s in
  let s := match demoted with Some r => set_region (y_destination_region record) r s | None => s end in
  append_many_locked (UpsertSync record :: match demoted with Some r => [UpsertRegion r] | None => [] end) s.

Definition sync_answer (outcome : SyncOutcome) (state : SyncState.t) (reason : StatusCode.t) : SyncOutcome :=
  outcome <| so_state := state |> <| so_reason := reason |>.

(** The destination was retired while the transfer was in flight. *)
Definition cancel_completion (request : SyncCompleteRequest) (outcome : SyncOutcome)
    (record : SyncRecord) s : Impl St * result SyncOutcome :=
  let s := tick s in
  let record := settled_sync SyncState.Cancelled (sequence s)
                  "the destination replica was retired before the transfer completed" record in
  let '(s, written) := settle_sync (sc_operation request) record None s in
  if ok written then
    (record_decision DecisionKind.SyncComplete (so_context outcome) StatusCode.Retired s,
     success (sync_answer outcome (y_state record) StatusCode.Retired <| so_plan := record |>))
  else (s, failure written).

(** A transfer that failed: what is recorded and where the replica goes. *)
Definition fail_completion (request : SyncCompleteRequest) (outcome : SyncOutcome) (record : SyncRecord)
    (destination : RegionRecord) (why note : string) (state : CoherenceState.t) (reason : StatusCode.t) s
    : Impl St * result SyncOutcome :=
  let s := tick s in
  let record := settled_sync SyncState.Failed (sequence s) why record in
  let destination := demoted_region state note (sequence s) destination in
  let '(s, written) := settle_sync (sc_operation request) record (Some destination) s in
  if ok written then
    (record_decision DecisionKind.SyncComplete (so_context outcome) reason s,
     success (sync_answer outcome (y_state record) reason))
  else (s, failure written).

(** The caller moved nothing: same effect, but neither the append status nor a
    decision is reported. *)
Definition unmoved_completion (request : SyncCompleteRequest) (outcome : SyncOutcome) (record : SyncRecord)
    (destination : RegionRecord) s : Impl St * result SyncOutcome :=
  let s := tick s in
  let why := "the caller reported that no bytes were moved"%string in
  let record := settled_sync SyncState.Failed (sequence s) why record in
  let destination := demoted_region CoherenceState.SyncRequired why (sequence s) destination in
  let '(s, _) := settle_sync (sc_operation request) record (Some destination) s in
  (s, success (sync_answer outcome (y_state record) StatusCode.ContentMismatch)).

(** The destination of a completed transfer. *)
Definition synchronized_region (request : SyncCompleteRequest) (object : ObjectRecord)
    (record : SyncRecord) (r : RegionRecord) : RegionRecord :=
  r <| r_state := CoherenceState.Current |>
    <| r_version := y_source_version record |>
    <| r_last_synced_version := y_source_version record |>
    <| r_ownership_generation := o_ownership_generation object |>
    <| r_dirty := DirtyCondition.Clean |>
    <| r_dirty_published := false |>
    <| r_content := if cf_defined (sc_observed_content request) then sc_observed_content request
                    else r_content r |>.

Definition evidenced_region (evidence : EvidenceRecord) (record : SyncRecord) (seq : OperationSequence)
    (r : RegionRecord) : RegionRecord :=
  r <| r_evidence := e_id evidence |>
    <| r_evidence_generation := e_generation evidence |>
    <| r_note := ("synchronized to version " ++ id_to_string (y_source_version record) ++ " from region "
                  ++ id_to_string (y_source_region record))%string |>
    <| r_updated_sequence := seq |>.

Definition finish_completion (request : SyncCompleteRequest) (outcome : SyncOutcome) (object : ObjectRecord)
    (record : SyncRecord) (destination : RegionRecord) s : Impl St * result SyncOutcome :=
  let ctx := sc_context request in
  let s := tick s in
  let record := record <| y_state := SyncState.Completed |> <| y_settled_sequence := sequence s |> in
  let destination := synchronized_region request object record destination in
  let '(evidence, s) := make_evidence
    (if sc_content_moved request && cf_defined (sc_observed_content request)
     then EvidenceKind.ByteComparison else EvidenceKind.BackendCompletion)
    (r_evidence_class destination) (ac_participant ctx) (ac_boot ctx) (o_id object) (o_generation object)
    (r_id destination) (r_generation destination) (y_source_version record) (r_content destination) s in
  let destination := evidenced_region evidence record (sequence s) destination in
  let '(s, written) := settle_sync (sc_operation request) record (Some destination) s in
  if ok written then
    (record_decision DecisionKind.SyncComplete (so_context outcome) StatusCode.Ok s,
     success (sync_answer outcome (y_state record) StatusCode.Ok <| so_plan := record |>))
  else (s, failure written).

(** Verification of the moved bytes, when the policy asks for it. *)
Definition must_verify (object : ObjectRecord) (record : SyncRecord) s : bool :=
  match policy_locked object s with
  | Some policy => pol_require_content_fingerprint policy
  | None => false
  end && cf_defined (y_expected_content record).

Definition mismatch_reason (request : SyncCompleteRequest) (record : SyncRecord) : string :=
  ("the destination fingerprint does not match the published content fingerprint: expected "
   ++ fingerprint_to_string (y_expected_content record) ++ " observed "
   ++ fingerprint_to_string (sc_observed_content request))%string.

(** The part of [complete_sync] after the guards, on the destination replica. *)
Definition settle_completion (request : SyncCompleteRequest) (outcome : SyncOutcome) (object : ObjectRecord)
    (record : SyncRecord) (destination : RegionRecord) s : Impl St * result SyncOutcome :=
  if decide (r_lifecycle destination = RegionLifecycle.Retired ∨
             r_state destination = CoherenceState.Retired) then cancel_completion request outcome record s else
  if decide (o_authoritative_version object ≠ y_source_version record) then
    fail_completion request outcome record destination
      "the authoritative version advanced while the transfer was in flight"
      ("synchronization completed against a superseded version " ++ id_to_string (y_source_version record))
      CoherenceState.Stale StatusCode.StalePublication s else
  if must_verify object record s && negb (sc_content_moved request) then
    unmoved_completion request outcome record destination s else
  if must_verify object record s
     && negb (fingerprint_eqb (sc_observed_content request) (y_expected_content record)) then
    fail_completion request outcome record destination (mismatch_reason request record)
      (mismatch_reason request record) CoherenceState.RevalidationRequired StatusCode.ContentMismatch s else
  finish_completion request outcome object record destination s.

(** [complete_sync]. *)
Definition complete_sync (request : SyncCompleteRequest) s : Impl St * result SyncOutcome :=
  let ctx := sc_context request in
  match syncs s !! sc_operation request with
  | None => (s, failure StatusCode.UnknownSyncOperation)
  | Some record =>
      let authority := resolve_locked ctx s in
      let '(context, s) := make_context ctx (y_object record) (y_object_generation record)
                             (y_ownership_generation record) s in
      let outcome := default_SyncOutcome <| so_context := context |> <| so_operation := y_id record |>
                       <| so_plan := record |> in
      match authority with
      | failure c => (s, failure c)
      | success (object, _) =>
          if decide (o_id object ≠ y_object record) then (s, failure StatusCode.InvalidArgument) else
          if decide (y_state record = SyncState.Completed) then
            (s, success (sync_answer outcome (y_state record) StatusCode.Ok <| so_idempotent_replay := true |>)) else
          if negb (ok (completion_guard request record)) then (s, failure (completion_guard request record)) else
          match regions s !! y_destination_region record with
          | None => (s, failure StatusCode.UnknownRegion)
          | Some destination => settle_completion request outcome object record destination s
          end
      end
  end.

(** ** Failing a synchronization *)

Definition failed_destination (request : SyncFailRequest) (why : string) (seq : OperationSequence)
    (r : RegionRecord) : RegionRecord :=
  if sf_outcome_unknown request then
    demoted_region CoherenceState.SyncRequired ("synchronization outcome unknown: " ++ why) seq r
  else if decide (sf_cause request = StatusCode.ContentMismatch) then
    demoted_region CoherenceState.RevalidationRequired
      ("content mismatch during synchronization: " ++ why) seq r
  else demoted_region CoherenceState.Invalid ("synchronization failed: " ++ why) seq r.

(** [fail_sync]. *)
Definition fail_sync (request : SyncFailRequest) s : Impl St * result SyncOutcome :=
  let ctx := sf_context request in
  match syncs s !! sf_operation request with
  | None => (s, failure StatusCode.UnknownSyncOperation)
  | Some record =>
      let '(context, s) := make_context ctx (y_object record) (y_object_generation record)
                             (y_ownership_generation record) s in
      let outcome := default_SyncOutcome <| so_context := context |> <| so_operation := y_id record |> in
      if decide (y_state record = SyncState.Completed) then
        (s, success (sync_answer outcome (y_state record) StatusCode.InvalidTransition <| so_plan := record |>)) else
      if decide (y_destination_participant record ≠ ac_participant ctx ∨
                 y_destination_boot record ≠ ac_boot ctx) then (s, failure StatusCode.NotWriteAuthorized) else
      let s := tick s in
      let why := if decide (sf_detail request = ""%string) then status_code_name (sf_cause request)
                 else sf_detail request in
      let record := settled_sync (if sf_outcome_unknown request then SyncState.OutcomeUnknown
                                  else SyncState.Failed) (sequence s) why record in
      let demoted := failed_destination request why (sequence s) <$> regions s !! y_destination_region record in
      let '(s, written) := settle_sync (sf_operation request) record demoted s in
      if ok written then
        (record_decision DecisionKind.SyncComplete context StatusCode.Ok s,
         success (sync_answer outcome (y_state record) StatusCode.Ok <| so_plan := record |>))
      else (s, failure written)
  end.
End sync.
