(* ===== verification/Recovery.v ===== *)
(** * Durable recovery ([src/engine_recovery.cpp]: [attach_store])

    One definition per loop body of [attach_store]; [recover] is the part after
    the store has been opened.  [RecoveryAcc] carries the engine state, the
    report and the number of records whose key disagrees with their body. *)
From S2P Require Import Prelude Ids Enums Status Policy Evidence Model Decisions Persistence Engine.
From S2P Require Import Resolve Core Registry.

Section recovery.
Context {St : Type} `{DurableStore St}.
Implicit Types s : Impl St.

(** [raise_counter]: the increment wraps, as the unsigned one does. *)
Definition raise_counter {t} (id : StrongId t) (counter : N) : N :=
  if defined id && (counter <? u64_add (value id) 1)%N then u64_add (value id) 1 else counter.

Definition RecoveryAcc : Type := Impl St * RecoveryReport * N.

(** ** Domains, participants, policies *)

Definition restored_domain (ep : CoordinatorEpoch) (d : DomainRecord) : DomainRecord :=
  d <| d_current_epoch := ep |>
    <| d_lifecycle := if decide (d_lifecycle d = DomainLifecycle.Quiescing)
                      then DomainLifecycle.RecoveryRequired else d_lifecycle d |>.

Definition restore_domain (image : DurableImage) (acc : RecoveryAcc) (id : CoherenceDomainId) : RecoveryAcc :=
  let '(s, report, bad) := acc in
  match img_domains image !! id with
  | None => acc
  | Some record =>
      if decide (id ≠ d_id record) then (s, report, u64_succ bad) else
      let d := restored_domain (epoch s) record in
      (s <| domains ::= emplace (d_id d) d |> <| domain_index ::= emplace (d_name d) (d_id d) |>
         <| next_domain_id ::= raise_counter (d_id d) |>, report, bad)
  end.

(** Sessions never survive: the incarnation is no longer live. *)
Definition restored_participant (p : ParticipantRecord) : ParticipantRecord :=
  p <| p_live := false |> <| p_session := nil_uuid |> <| p_last_sequence := nil_id |>
    <| p_lifecycle := if decide (p_lifecycle p = ParticipantLifecycle.Active)
                      then ParticipantLifecycle.Degraded else p_lifecycle p |>.

Definition restore_participant (image : DurableImage) (acc : RecoveryAcc) (id : ParticipantId) : RecoveryAcc :=
  let '(s, report, bad) := acc in
  match img_participants image !! id with
  | None => acc
  | Some record =>
      if decide (id ≠ p_id record) then (s, report, u64_succ bad) else
      let p := restored_participant record in
      (s <| participants ::= emplace (p_id p) p |> <| participant_index ::= emplace (p_name p) (p_id p) |>
         <| next_participant_id ::= raise_counter (p_id p) |>,
       report <| rep_participants_restored ::= u64_succ |>, bad)
  end.

Definition restore_policy (image : DurableImage) (acc : RecoveryAcc) (id : PolicyId) : RecoveryAcc :=
  let '(s, report, bad) := acc in
  match img_policies image !! id with
  | None => acc
  | Some record =>
      if decide (id ≠ pol_id record) then (s, report, u64_succ bad) else
      (s <| policies ::= emplace (pol_id record) record |>
         <| next_policy_id ::= raise_counter (pol_id record) |>, report, bad)
  end.

(** The note about ignored records is written here, before the remaining maps
    are walked. *)
Definition note_mismatches (acc : RecoveryAcc) : RecoveryAcc :=
  let '(s, report, bad) := acc in
  if (bad =? 0)%N then acc
  else (s, report <| rep_notes ::= λ l, l ++ [RecordsIgnored bad] |>, bad).

(** ** Invalidations and synchronizations *)

Definition unsettled_invalidation (i : InvalidationRecord) : bool :=
  bool_decide (i_state i = InvalidationState.Requested).

Definition restored_invalidation (seq : OperationSequence) (i : InvalidationRecord) : InvalidationRecord :=
  if unsettled_invalidation i then
    i <| i_state := InvalidationState.Unknown |>
      <| i_settled_sequence := seq |>
      <| i_rationale := "the coordinator restarted before the acknowledgement arrived; every replica was conservatively downgraded, which discharges the invalidation without claiming the acknowledgement was observed" |>
  else i.

Definition restore_invalidation (image : DurableImage) (acc : RecoveryAcc) (id : InvalidationId)
    : RecoveryAcc :=
  let '(s, report, bad) := acc in
  match img_invalidations image !! id with
  | None => acc
  | Some record =>
      if decide (id ≠ i_id record) then (s, report, u64_succ bad) else
      let i := restored_invalidation (sequence s) record in
      (s <| invalidations ::= emplace (i_id i) i |> <| next_invalidation_id ::= raise_counter (i_id i) |>,
       (if unsettled_invalidation record then report <| rep_invalidations_superseded ::= u64_succ |>
        else report), bad)
  end.

Definition unsettled_sync (y : SyncRecord) : bool :=
  match y_state y with
  | SyncState.Requested | SyncState.InProgress | SyncState.Planned | SyncState.OutcomeUnknown => true
  | _ => false
  end.

Definition restored_sync (seq : OperationSequence) (y : SyncRecord) : SyncRecord :=
  if unsettled_sync y then
    y <| y_state := SyncState.OutcomeUnknown |>
      <| y_settled_sequence := seq |>
      <| y_failure_reason := "the coordinator restarted while the transfer was in flight; whether bytes moved is unknown and is reported as unknown" |>
  else y.

Definition restore_sync (image : DurableImage) (acc : RecoveryAcc) (id : SyncOperationId) : RecoveryAcc :=
  let '(s, report, bad) := acc in
  match img_syncs image !! id with
  | None => acc
  | Some record =>
      if decide (id ≠ y_id record) then (s, report, u64_succ bad) else
      let y := restored_sync (sequence s) record in
      (s <| syncs ::= emplace (y_id y) y |> <| next_sync_id ::= raise_counter (y_id y) |>,
       (if unsettled_sync record then report <| rep_syncs_classified_unknown ::= u64_succ |> else report), bad)
  end.

(** ** Objects *)

Definition revoked_note (previous : N) (ep : CoordinatorEpoch) : string :=
  ("dynamic authority was not restored: the coordinator epoch advanced from " ++ pretty previous ++
   " to " ++ id_to_string ep)%string.

(** Dynamic authority is gone. *)
Definition revoked_object (previous : N) (ep : CoordinatorEpoch) (seq : OperationSequence)
    (o : ObjectRecord) : ObjectRecord :=
  o <| o_authority := AuthorityMode.RevalidationRequired |>
    <| o_writer := nil_id |>
    <| o_writer_boot := nil_uuid |>
    <| o_reads := [] |>
    <| o_outstanding_invalidations := [] |>
    <| o_updated_sequence := seq |>
    <| o_recovery_note := revoked_note previous ep |>.

(** What becomes of a publication that was in flight. *)
Inductive PublicationFate :=
| FateComplete (pending : PendingPublication)
| FateOperator
| FateAborted
| FateNone.

Definition publication_fate (image : DurableImage) (policy : option CoherencePolicy) (o : ObjectRecord)
    : PublicationFate :=
  let pending := if defined (o_pending_publication o)
                 then img_pending_publications image !! o_pending_publication o else None in
  match pending with
  | Some pending =>
      let recovery := match policy with
                      | Some p => pol_recovery_policy p | None => RecoveryPolicy.Conservative end in
      if decide (recovery = RecoveryPolicy.CompleteDurablePending) then FateComplete pending else FateOperator
  | None =>
      if decide (o_publication_state o = PublicationState.PendingDurable) then FateAborted else FateNone
  end.

Definition append_note (note : string) (o : ObjectRecord) : ObjectRecord :=
  o <| o_recovery_note ::= λ n, (n ++ note)%string |>.

Definition completed_object (pending : PendingPublication) (seq : OperationSequence) (o : ObjectRecord)
    : ObjectRecord :=
  let o := clear_pending
    (o <| o_authoritative_version := pp_version pending |>
       <| o_published_version := pp_version pending |>
       <| o_publication := pp_id pending |>
       <| o_publication_state := PublicationState.Committed |>
       <| o_committed_sequence := seq |>)
       <| o_has_unpublished_dirty := false |>
       <| o_dirty_condition := DirtyCondition.DirtyPublished |>
       <| o_last_writer := pp_writer pending |>
       <| o_last_writer_boot := pp_writer_boot pending |> in
  if defined (pp_request pending)
  then o <| o_completed_requests ::= λ l, l ++ [mkCompletedPublicationRequest (pp_request pending)
                                                   (pp_version pending) (pp_id pending) seq] |>
  else o.

Definition settle_publication (fate : PublicationFate) (seq : OperationSequence) (o : ObjectRecord)
    : ObjectRecord :=
  match fate with
  | FateComplete pending =>
      append_note "; the durable pending publication was completed under its original publication and version identity"
        (completed_object pending seq o)
  | FateOperator =>
      append_note "; a durable pending publication exists whose completion the active recovery policy does not authorise; an operator must resolve it"
        (o <| o_publication_state := PublicationState.RecoveryRequired |>
           <| o_lifecycle := ObjectLifecycle.RecoveryRequired |>)
  | FateAborted =>
      append_note "; an in-flight publication had no durable record and was aborted rather than assumed to have committed"
        (clear_pending (o <| o_publication_state := PublicationState.Aborted |>))
  | FateNone => o
  end.

(** Unpublished modifications, per the dirty-loss policy. *)
Definition classify_dirty (policy : option CoherencePolicy) (o : ObjectRecord) : ObjectRecord :=
  if o_has_unpublished_dirty o then
    let o := o <| o_has_unpublished_dirty := false |> in
    let o := match match policy with Some p => pol_dirty_loss_policy p | None => DirtyLossPolicy.ReportUnknown end with
             | DirtyLossPolicy.ReportLost => o <| o_dirty_condition := DirtyCondition.DirtyLost |>
             | DirtyLossPolicy.RequireRecovery =>
                 o <| o_dirty_condition := DirtyCondition.DirtyUnknown |>
                   <| o_lifecycle := ObjectLifecycle.RecoveryRequired |>
             | _ => o <| o_dirty_condition := DirtyCondition.DirtyUnknown |>
             end in
    append_note "; an unpublished modification existed at restart and the runtime does not invent a successful publication for it" o
  else o.

Definition unquiesced (o : ObjectRecord) : ObjectRecord :=
  o <| o_lifecycle := if decide (o_lifecycle o = ObjectLifecycle.Quiescing)
                      then ObjectLifecycle.RecoveryRequired else o_lifecycle o |>.

Definition restored_object (image : DurableImage) (policy : option CoherencePolicy) (previous : N)
    (ep : CoordinatorEpoch) (seq : OperationSequence) (stored : ObjectRecord) : ObjectRecord :=
  let o := revoked_object previous ep seq stored in
  unquiesced (classify_dirty policy (settle_publication (publication_fate image policy o) seq o)).

Definition count_fate (fate : PublicationFate) (report : RecoveryReport) : RecoveryReport :=
  match fate with
  | FateComplete _ => report <| rep_publications_completed ::= u64_succ |>
  | FateOperator => report <| rep_publications_requiring_operator ::= u64_succ |>
  | _ => report
  end.

Definition restore_object (image : DurableImage) (previous : N) (acc : RecoveryAcc) (id : ObjectId)
    : RecoveryAcc :=
  let '(s, report, bad) := acc in
  match img_objects image !! id with
  | None => acc
  | Some stored =>
      if decide (id ≠ o_id stored) then (s, report, u64_succ bad) else
      let policy := policies s !! o_policy stored in
      let o := restored_object image policy previous (epoch s) (sequence s) stored in
      (s <| next_object_id ::= raise_counter (o_id o) |>
         <| objects ::= emplace (o_id o) o |>
         <| object_index ::= emplace (o_domain o, o_name o) (o_id o) |>,
       count_fate (publication_fate image policy stored) report
         <| rep_authority_revoked ::= u64_succ |> <| rep_objects_restored ::= u64_succ |>, bad)
  end.

(** ** Regions *)

Definition terminal_region (r : RegionRecord) : bool :=
  bool_decide (r_state r = CoherenceState.Retired) || bool_decide (r_lifecycle r = RegionLifecycle.Retired).

(** Dynamic currentness never survives a restart. *)
Definition downgraded_state (r : RegionRecord) : CoherenceState.t :=
  if terminal_region r then CoherenceState.Retired
  else if decide (r_state r = CoherenceState.Fenced) then CoherenceState.Fenced
  else CoherenceState.RevalidationRequired.

Definition downgraded_region (seq : OperationSequence) (r : RegionRecord) : RegionRecord :=
  r <| r_state := downgraded_state r |>
    <| r_invalidation_pending := false |>
    <| r_pending_invalidation := nil_id |>
    <| r_pending_invalidation_target := nil_id |>
    <| r_updated_sequence := seq |>.

(** Whether the loop counts the replica as downgraded. *)
Definition counts_as_downgraded (r : RegionRecord) : bool :=
  negb (terminal_region r) && negb (bool_decide (r_state r = CoherenceState.Fenced))
  && negb (bool_decide (r_state r = CoherenceState.RevalidationRequired)).

Definition evidence_restored (evidence : EvidenceRecord) (r : RegionRecord) : RegionRecord :=
  r <| r_evidence := e_id evidence |> <| r_evidence_generation := e_generation evidence |>
    <| r_note := "restored from durable metadata; currentness must be re-established by a new observation" |>.

Definition restore_region (image : DurableImage) (acc : RecoveryAcc) (id : RegionId) : RecoveryAcc :=
  let '(s, report, bad) := acc in
  match img_regions image !! id with
  | None => acc
  | Some stored =>
      if decide (id ≠ r_id stored) then (s, report, u64_succ bad) else
      let s := s <| next_region_id ::= raise_counter (r_id stored) |>
                 <| next_replica_id ::= raise_counter (r_replica stored) |> in
      let region := downgraded_region (sequence s) stored in
      let '(region, s) :=
        if terminal_region stored then (region, s) else
        let '(evidence, s) := make_evidence EvidenceKind.PersistedMetadata (r_evidence_class region)
          (r_participant region) (r_boot region) (r_object region) (r_object_generation region)
          (r_id region) (r_generation region) (r_version region) (r_content region) s in
        (evidence_restored evidence region, s) in
      let s := s <| regions ::= emplace (r_id region) region |> in
      let s := if decide (r_lifecycle region = RegionLifecycle.Retired) then s
               else s <| region_index ::= emplace (r_object region, r_name region) (r_id region) |> in
      (s, (if counts_as_downgraded stored then report <| rep_regions_downgraded ::= u64_succ |> else report)
            <| rep_regions_restored ::= u64_succ |>, bad)
  end.

(** ** The write-back *)

Definition recovery_entries (image : DurableImage) s : list JournalPayload :=
  [SetEpoch (epoch s)]
  ++ ((λ p, UpsertParticipant (scrub_participant_for_persistence p)) <$> map_values (participants s))
  ++ ((λ o, UpsertObject (scrub_object_for_persistence o)) <$> map_values (objects s))
  ++ (UpsertRegion <$> map_values (regions s))
  ++ (UpsertInvalidation <$> map_values (invalidations s))
  ++ (UpsertSync <$> map_values (syncs s))
  ++ ((λ p, ClearPendingPublication (pp_object p)) <$> map_values (img_pending_publications image)).

(** The epoch of the new incarnation. *)
Definition next_epoch (image : DurableImage) (cfg : EngineConfig) : CoordinatorEpoch :=
  let previous := if defined (img_epoch image) then value (img_epoch image) else 0%N in
  let initial := if defined (cfg_initial_epoch cfg) then value (cfg_initial_epoch cfg) else 1%N in
  from_value (N.max (u64_add previous 1) initial).

Definition clear_state s : Impl St :=
  s <| domains := ∅ |> <| participants := ∅ |> <| objects := ∅ |> <| regions := ∅ |>
    <| invalidations := ∅ |> <| syncs := ∅ |> <| policies := ∅ |>
    <| domain_index := ∅ |> <| participant_index := ∅ |> <| object_index := ∅ |> <| region_index := ∅ |>.

(** Every map of the image, in the order of the code. *)
Definition restore_image (image : DurableImage) (previous : N) (report : RecoveryReport) s : RecoveryAcc :=
  let acc := (s, report, 0%N) in
  let acc := foldl (restore_domain image) acc (sorted_keys (img_domains image)) in
  let acc := foldl (restore_participant image) acc (sorted_keys (img_participants image)) in
  let acc := foldl (restore_policy image) acc (sorted_keys (img_policies image)) in
  let acc := note_mismatches acc in
  let acc := foldl (restore_invalidation image) acc (sorted_keys (img_invalidations image)) in
  let acc := foldl (restore_sync image) acc (sorted_keys (img_syncs image)) in
  let acc := foldl (restore_object image previous) acc (sorted_keys (img_objects image)) in
  foldl (restore_region image) acc (sorted_keys (img_regions image)).

Definition initial_report (load : LoadReport) (image : DurableImage) (ep : CoordinatorEpoch) : RecoveryReport :=
  default_RecoveryReport
    <| rep_performed := true |>
    <| rep_journal_records_replayed := lr_journal_records_replayed load |>
    <| rep_corrupt_records_skipped := lr_corrupt_records load |>
    <| rep_previous_epoch := img_epoch image |>
    <| rep_new_epoch := ep |>
    <| rep_notes := if lr_truncated_tail load then [TruncatedTail] else [] |>.

(** [attach_store] once the store is open. *)
Definition recover (load : LoadReport) (image : DurableImage) s : Impl St * RecoveryReport :=
  let previous := if defined (img_epoch image) then value (img_epoch image) else 0%N in
  let ep := next_epoch image (config s) in
  let s := clear_state (s <| epoch := ep |> <| durable := image <| img_epoch := ep |> |>) in
  let '(s, report, _) := restore_image image previous (initial_report load image ep) s in
  let s := s <| next_journal_sequence ::= raise_counter (@from_value OperationSequenceTag (img_sequence image)) |> in
  let s := retotal_participant_regions_locked s in
  let '(s, written) := append_many_locked (recovery_entries image s) s in
  let '(s, report) :=
    if ok written then (s, report)
    else (s <| store_healthy := false |>, report <| rep_notes ::= λ l, l ++ [WriteBackFailed written] |>) in
  let s := tick (compact_locked s <| recovery_performed := true |>) in
  let report := report <| rep_notes ::= λ l, l ++ [EpochAdvanced previous (value ep); AuthorityInvalidated] |> in
  let '(context, s) := make_context default_AuthorityContext nil_id nil_id nil_id s in
  let s := record_decision DecisionKind.Recover context StatusCode.Ok s in
  (s <| recovery_report := report |>, report).

(** [attach_store].  The null-pointer check has no counterpart: a store is a
    value. *)
Definition attach_store (st : St) s : Impl St * result RecoveryReport :=
  if decide (is_Some (store s)) then (s, failure StatusCode.InvalidState) else
  if decide (domains s ≠ ∅ ∨ objects s ≠ ∅ ∨ regions s ≠ ∅ ∨ participants s ≠ ∅) then
    (s, failure StatusCode.InvalidState) else
  let '(st, loaded) := ds_open st in
  match loaded with
  | failure c => (s, failure c)
  | success (load, image) =>
      let '(s, report) := recover load image (s <| store := Some st |>) in (s, success report)
  end.
End recovery.
