(* ===== verification/Auditor.v ===== *)
(** * The invariant auditor ([src/engine_recovery.cpp]: [audit])

    One definition per check group; a check contributes a finding when its
    condition holds.  The prose [detail] of a finding is not modelled. *)
From S2P Require Import Prelude Ids Enums Status Bytes Policy Evidence Model Decisions Persistence.
From S2P Require Import Engine Registry.

(** [if (cond) add(f with code)]. *)
Definition check (cond : bool) (f : AuditFinding) (code : StatusCode.t) : list AuditFinding :=
  if cond then [f <| af_code := code |>] else [].

(** The comparator of the final [std::stable_sort], less the prose. *)
Definition finding_key (f : AuditFinding) : list N :=
  [StatusCode.to_u16 (af_code f); value (af_object f); value (af_region f);
   value (af_invalidation f); value (af_sync f)].

Fixpoint key_le (a b : list N) : bool :=
  match a, b with
  | [], _ => true
  | _ :: _, [] => false
  | x :: a, y :: b => if (x =? y)%N then key_le a b else (x <? y)%N
  end.

Definition finding_le (a b : AuditFinding) : Prop := key_le (finding_key a) (finding_key b) = true.
#[export] Instance finding_le_dec a b : Decision (finding_le a b).
Proof. unfold finding_le. apply _. Defined.

Section audit.
Context {St : Type} `{DurableStore St}.
Implicit Types s : Impl St.

Definition entries {K A} `{Countable K, Ranked K} (m : gmap K A) : list (K * A) :=
  omap (λ k, (k,.) <$> m !! k) (sorted_keys m).

Definition present {K A} `{Countable K} (m : gmap K A) (k : K) : bool :=
  match m !! k with Some _ => true | None => false end.

Definition no_finding : AuditFinding := default_AuditFinding.

(** ** Identity uniqueness and index agreement *)

(** [!names.insert(record.name).second]: an earlier record has the name. *)
Fixpoint audit_domains s (seen : list string) (l : list (CoherenceDomainId * DomainRecord))
    : list AuditFinding :=
  match l with
  | [] => []
  | (id, d) :: rest =>
      check (negb (bool_decide (d_id d = id))) no_finding StatusCode.InternalInvariantViolation
      ++ check (bool_decide (d_name d ∈ seen)) no_finding StatusCode.DuplicateIdentity
      ++ check (negb (bool_decide (domain_index s !! d_name d = Some (d_id d)))) no_finding
           StatusCode.InternalInvariantViolation
      ++ audit_domains s (d_name d :: seen) rest
  end.

Fixpoint audit_participants s (seen : list string) (l : list (ParticipantId * ParticipantRecord))
    : list AuditFinding :=
  match l with
  | [] => []
  | (id, p) :: rest =>
      check (negb (bool_decide (p_id p = id))) no_finding StatusCode.InternalInvariantViolation
      ++ check (bool_decide (p_name p ∈ seen)) no_finding StatusCode.DuplicateIdentity
      ++ check (negb (bool_decide (participant_index s !! p_name p = Some (p_id p)))) no_finding
           StatusCode.InternalInvariantViolation
      ++ check (bool_decide (p_lifecycle p = ParticipantLifecycle.Fenced) && p_live p) no_finding
           StatusCode.InternalInvariantViolation
      ++ (if decide (p_lifecycle p = ParticipantLifecycle.Retired) then
            concat ((λ o, check (bool_decide (o_writer o = p_id p)) no_finding StatusCode.Retired)
                    <$> map_values (objects s))
          else [])
      ++ audit_participants s (p_name p :: seen) rest
  end.

Definition audit_object_index s (e : CoherenceDomainId * string * ObjectId) : list AuditFinding :=
  let '(dom, name, id) := e in
  match objects s !! id with
  | None => check true no_finding StatusCode.UnknownObject
  | Some o => check (negb (bool_decide (o_domain o = dom) && bool_decide (o_name o = name))) no_finding
                StatusCode.InternalInvariantViolation
  end.

Definition audit_region_index s (e : ObjectId * string * RegionId) : list AuditFinding :=
  let '(oid, name, id) := e in
  match regions s !! id with
  | None => check true no_finding StatusCode.UnknownRegion
  | Some r => check (negb (bool_decide (r_object r = oid) && bool_decide (r_name r = name))) no_finding
                StatusCode.InternalInvariantViolation
  end.

Definition audit_store s : list AuditFinding :=
  check (durability_active s && negb (store_healthy s)) no_finding StatusCode.PersistenceFailure.

(** ** Regions *)

Definition audit_region_participant (f : AuditFinding) (region : RegionRecord) s : list AuditFinding :=
  match participants s !! r_participant region with
  | None => check true f StatusCode.UnknownParticipant
  | Some p =>
      let terminal := bool_decide (r_lifecycle region = RegionLifecycle.Retired)
                      || bool_decide (r_state region = CoherenceState.Fenced) in
      check (negb terminal && negb (bool_decide (p_boot p = r_boot region))) f StatusCode.StaleBoot
      ++ check (negb terminal && bool_decide (p_lifecycle p = ParticipantLifecycle.Fenced)) f StatusCode.Fenced
  end.

Definition audit_region_pending (f : AuditFinding) (region : RegionRecord) s : list AuditFinding :=
  if r_invalidation_pending region then
    if negb (defined (r_pending_invalidation region)) then
      check true f StatusCode.InternalInvariantViolation
    else match invalidations s !! r_pending_invalidation region with
         | None => check true f StatusCode.UnknownInvalidation
         | Some i => check (negb (bool_decide (i_state i = InvalidationState.Requested))) f
                       StatusCode.InternalInvariantViolation
         end
  else [].

Definition state_is (region : RegionRecord) (st : CoherenceState.t) : bool := bool_decide (r_state region = st).

Definition audit_region s (region : RegionRecord) : list AuditFinding :=
  match objects s !! r_object region with
  | None => check true no_finding StatusCode.UnknownObject
  | Some object =>
      let f := no_finding <| af_object := o_id object |> <| af_region := r_id region |> in
      check (negb (bool_decide (r_object_generation region = o_generation object))) f
        StatusCode.InternalInvariantViolation
      ++ check (negb (checked_range (r_offset region) (r_length region) (o_length object))) f
           StatusCode.InvalidArgument
      ++ audit_region_participant f region s
      ++ check (bool_decide (r_lifecycle region = RegionLifecycle.Retired)
                && negb (state_is region CoherenceState.Retired)) f StatusCode.InternalInvariantViolation
      ++ check (state_is region CoherenceState.Retired && r_invalidation_pending region) f
           StatusCode.InternalInvariantViolation
      ++ check (state_is region CoherenceState.Current && negb (defined (r_evidence region))) f
           StatusCode.EvidenceMissing
      ++ check (state_is region CoherenceState.Current && defined (o_authoritative_version object)
                && negb (bool_decide (r_version region = o_authoritative_version object))) f
           StatusCode.ReadNotCurrent
      ++ check (state_is region CoherenceState.Dirty
                && negb (bool_decide (r_dirty region = DirtyCondition.DirtyUnpublished))) f
           StatusCode.InternalInvariantViolation
      ++ check (state_is region CoherenceState.Dirty && negb (r_declared_writable region)) f
           StatusCode.InvalidTransition
      ++ audit_region_pending f region s
      ++ check (defined (o_authoritative_version object) && defined (r_version region)
                && id_lt (o_authoritative_version object) (r_version region)) f
           StatusCode.InternalInvariantViolation
      ++ check (defined (o_ownership_generation object) && defined (r_ownership_generation region)
                && id_lt (o_ownership_generation object) (r_ownership_generation region)) f
           StatusCode.StaleOwnership
  end.

(** Region accounting of the participants. *)
Definition region_count s (id : ParticipantId) : N :=
  N.of_nat (length (List.filter (λ r, bool_decide (r_participant r = id)) (map_values (regions s)))).

Definition audit_accounting s (e : ParticipantId * ParticipantRecord) : list AuditFinding :=
  check (negb (p_region_count e.2 =? region_count s e.1)%N) no_finding StatusCode.InternalInvariantViolation.

(** ** Objects *)

Definition exclusive (o : ObjectRecord) : bool :=
  match o_authority o with
  | AuthorityMode.ExclusiveWriter | AuthorityMode.TransferPending => true
  | _ => false
  end.

Definition audit_writer (f : AuditFinding) (object : ObjectRecord) s : list AuditFinding :=
  if exclusive object then
    if negb (defined (o_writer object)) then check true f StatusCode.NotAuthoritative else
    match participants s !! o_writer object with
    | None => check true f StatusCode.UnknownParticipant
    | Some p =>
        check (negb (bool_decide (p_boot p = o_writer_boot object))) f StatusCode.StaleBoot
        ++ check (bool_decide (p_lifecycle p = ParticipantLifecycle.Fenced)
                  || bool_decide (p_lifecycle p = ParticipantLifecycle.Retired)) f StatusCode.Fenced
    end
  else [].

Definition audit_grant (f : AuditFinding) (object : ObjectRecord) s (g : ReadGrant) : list AuditFinding :=
  if g_released g then [] else
  match regions s !! g_region g with
  | None => check true f StatusCode.UnknownRegion
  | Some r => check (negb (is_current_state (r_state r)) && negb (is_readable_state (r_state r))) f
                StatusCode.ReadNotCurrent
  end
  ++ check (o_has_unpublished_dirty object
            && negb (bool_decide (g_version g = o_authoritative_version object))
            && defined (g_version g)) f StatusCode.DirtyUnpublished.

(** A live grant held by another incarnation than the writer's. *)
Definition foreign_grant (object : ObjectRecord) (g : ReadGrant) : bool :=
  negb (g_released g)
  && negb (bool_decide (g_participant g = o_writer object) && bool_decide (g_boot g = o_writer_boot object)).

Definition audit_exclusivity (f : AuditFinding) (object : ObjectRecord) : list AuditFinding :=
  check (exclusive object && existsb (foreign_grant object) (o_reads object)) f
    StatusCode.ExclusiveWriterConflict.

Definition audit_pending (f : AuditFinding) (object : ObjectRecord) s : list AuditFinding :=
  if decide (o_publication_state object = PublicationState.PendingDurable) then
    check (negb (defined (o_pending_publication object))) f StatusCode.InternalInvariantViolation
    ++ check (durability_active s
              && negb (present (img_pending_publications (durable s)) (o_pending_publication object))
              && negb (present (in_flight_publications s) (o_pending_publication object))) f
         StatusCode.PersistenceFailure
  else [].

Definition audit_outstanding (f : AuditFinding) s (id : InvalidationId) : list AuditFinding :=
  match invalidations s !! id with
  | None => check true f StatusCode.UnknownInvalidation
  | Some i => check (negb (bool_decide (i_state i = InvalidationState.Requested))) f
                StatusCode.InternalInvariantViolation
  end.

(** [std::adjacent_find] on the sorted copy: a repeated replica. *)
Fixpoint has_adjacent (l : list RegionId) : bool :=
  match l with
  | a :: (b :: _) as rest => bool_decide (a = b) || has_adjacent rest
  | _ => false
  end.

Definition audit_replicas (f : AuditFinding) (object : ObjectRecord) s : list AuditFinding :=
  let sorted := merge_sort rank_le (o_replicas object) in
  check (has_adjacent sorted) f StatusCode.DuplicateIdentity
  ++ check (negb (bool_decide (sorted = o_replicas object))) f StatusCode.InternalInvariantViolation
  ++ concat ((λ id, match regions s !! id with
                    | None => check true f StatusCode.UnknownRegion
                    | Some r => check (negb (bool_decide (r_object r = o_id object))) f
                                  StatusCode.InternalInvariantViolation
                    end) <$> o_replicas object).

Definition audit_object s (object : ObjectRecord) : list AuditFinding :=
  let f := no_finding <| af_object := o_id object |> in
  check (negb (present (domains s) (o_domain object))) f StatusCode.UnknownDomain
  ++ check (negb (present (policies s) (o_policy object))) f StatusCode.UnknownPolicy
  ++ audit_replicas f object s
  ++ check (defined (o_authoritative_version object) && negb (defined (o_publication object))) f
       StatusCode.InternalInvariantViolation
  ++ check (defined (o_published_version object) && defined (o_authoritative_version object)
            && id_lt (o_authoritative_version object) (o_published_version object)) f
       StatusCode.StalePublication
  ++ audit_writer f object s
  ++ check (bool_decide (o_authority object = AuthorityMode.TransferPending)
            && negb (has_outstanding_invalidations_locked (o_id object) s)) f
       StatusCode.InternalInvariantViolation
  ++ concat (audit_grant f object s <$> o_reads object)
  ++ audit_exclusivity f object
  ++ check (o_has_unpublished_dirty object
            && negb (bool_decide (o_dirty_condition object = DirtyCondition.DirtyUnpublished))) f
       StatusCode.InternalInvariantViolation
  ++ audit_pending f object s
  ++ concat (audit_outstanding f s <$> o_outstanding_invalidations object).

(** ** Invalidations and synchronizations *)

Definition audit_invalidation s (i : InvalidationRecord) : list AuditFinding :=
  let f := no_finding <| af_object := i_object i |> <| af_region := i_region i |>
                      <| af_invalidation := i_id i |> in
  check (negb (present (objects s) (i_object i))) f StatusCode.UnknownObject
  ++ check (defined (i_epoch i) && id_lt (epoch s) (i_epoch i)) f StatusCode.StaleEpoch
  ++ check (bool_decide (i_state i = InvalidationState.Acknowledged)
            && negb (defined (i_settled_sequence i))) f StatusCode.InternalInvariantViolation
  ++ (if uuid_defined (i_target_boot i) then
        match participants s !! i_target_participant i with
        | Some p => check (bool_decide (i_state i = InvalidationState.Requested)
                           && negb (bool_decide (p_boot p = i_target_boot i))) f StatusCode.StaleBoot
        | None => []
        end
      else []).

Definition audit_sync s (y : SyncRecord) : list AuditFinding :=
  let f := no_finding <| af_object := y_object y |> <| af_sync := y_id y |> in
  let live_generation := match regions s !! y_destination_region y with
                         | Some r => r_generation r | None => nil_id end in
  check (negb (present (objects s) (y_object y))) f StatusCode.UnknownObject
  ++ check (negb (present (regions s) (y_source_region y))) f StatusCode.UnknownRegion
  ++ check (negb (present (regions s) (y_destination_region y))) f StatusCode.UnknownRegion
  ++ check (defined (y_epoch y) && id_lt (epoch s) (y_epoch y)) f StatusCode.StaleEpoch
  ++ check (bool_decide (y_state y = SyncState.Completed)
            && negb (bool_decide (y_destination_region_generation y = live_generation))) f
       StatusCode.StaleRegionGeneration.

(** Every finding, in the order the code adds them. *)
Definition audit_findings s : list AuditFinding :=
  audit_domains s [] (entries (domains s))
  ++ audit_participants s [] (entries (participants s))
  ++ concat (audit_object_index s <$> map_to_list (object_index s))
  ++ concat (audit_region_index s <$> map_to_list (region_index s))
  ++ audit_store s
  ++ concat (audit_region s <$> map_values (regions s))
  ++ concat (audit_accounting s <$> entries (participants s))
  ++ concat (audit_object s <$> map_values (objects s))
  ++ concat (audit_invalidation s <$> map_values (invalidations s))
  ++ concat (audit_sync s <$> map_values (syncs s)).

(** [audit]. *)
Definition audit s : AuditReport :=
  let findings := merge_sort finding_le (audit_findings s) in
  {| ar_clean := bool_decide (findings = []);
     ar_epoch := epoch s;
     ar_sequence := sequence s;
     ar_objects_checked := map_count (objects s);
     ar_regions_checked := map_count (regions s);
     ar_participants_checked := map_count (participants s);
     ar_invalidations_checked := map_count (invalidations s);
     ar_syncs_checked := map_count (syncs s);
     ar_findings := findings |}.

(** A finding is reported exactly when some check raised it. *)
Lemma elem_of_audit s f : f ∈ ar_findings (audit s) ↔ f ∈ audit_findings s.
Proof. unfold audit. simpl. by rewrite merge_sort_Permutation. Qed.

(** What raises the findings of a code. *)
Lemma elem_of_check b f c g : g ∈ check b f c ↔ b = true ∧ g = f <| af_code := c |>.
Proof. unfold check. destruct b; rewrite ?list_elem_of_singleton, ?elem_of_nil; naive_solver. Qed.

Lemma elem_of_concat_fmap {A} (f : A → list AuditFinding) l g :
  g ∈ concat (f <$> l) ↔ ∃ x, x ∈ l ∧ g ∈ f x.
Proof.
  induction l as [|x l IH]; simpl; [set_solver|]. rewrite elem_of_app, IH. set_solver.
Qed.
End audit.

(** Split a membership in the findings into the checks that can have raised
    it, and drop those of another code. *)
Ltac sift :=
  repeat match goal with
  | H : _ ∈ [] |- _ => by apply elem_of_nil in H
  | H : _ ∈ (_ ++ _) |- _ => apply elem_of_app in H as [H|H]
  | H : _ ∈ check _ _ _ |- _ => apply elem_of_check in H as [? ->]; try discriminate
  | H : _ ∈ concat (_ <$> _) |- _ =>
      let x := fresh "x" in let Hx := fresh "Hx" in
      apply elem_of_concat_fmap in H as (x & Hx & H); try (destruct x as [[? ?] ?]); cbv beta in H
  | H : _ ∈ match ?e with _ => _ end |- _ => destruct e eqn:?
  end.
