(* ===== verification/Coordinator.v ===== *)
(** * The coordinator ([include/coherence/coordinator.hpp], [src/coordinator.cpp])

    The sessions of a coordinator and the dispatch of their requests onto the
    engine.  A connection thread owns a session object, which stays alive after
    the session maps have forgotten it; [co_threads] is the store of these
    objects, and the maps refer into it.  Every function below is one critical
    section of the coordinator, or one call of the engine; what happens between
    two of them may be anything the other threads do.  The section that replaces
    an earlier connection calls the engine twice while it holds the
    coordinator's mutex: it is three functions, and the other sections wait
    ([lock_held]) until it is over, while registrations and requests go on.  Two
    calls are left merged with what they answer to, because nothing reads what
    they write: the shutdown of the socket of a participant an operator fenced,
    and the flag that ends the accept loop.  The engine's epoch is set before
    the first connection and does not change, so the calls that read it for the
    next one are part of that one.

    The prose of answers is not modelled: an answer is its code and the value
    its body encodes ([reply_bytes] gives the bytes for given prose). *)
From Stdlib Require Import Strings.Byte Strings.String.
From S2P Require Import Prelude Ids Enums Status Bytes Policy Evidence Model Decisions Persistence.
From S2P Require Import Serialize Codec Messages Checksum Framing Protocol.
From S2P Require Import Engine Resolve Core Registry Read Write Invalidate Publish Sync Recovery.
From S2P Require Import Auditor.

(** ** Answers *)

(** What [succeed] renders as text. *)
Inductive Rendering :=
| TDirtyCondition (condition : DirtyCondition.t)
| TSnapshot (snapshot : CoherenceSnapshot)
| TPolicy (policy : result CoherencePolicy)
| TAudit (report : AuditReport)
| TDecisionLog (log : list DecisionRecord)
| TRecovery (report : RecoveryReport)
| TParticipants (records : list ParticipantRecord)
| TObjects (records : list ObjectRecord)
| TRegions (records : list RegionRecord)
| TRetired (id : N)
| TShutdown.

(** The body of an answer. *)
Inductive Reply :=
| NoReply
| ReplyPong (nonce : N) (epoch : CoordinatorEpoch) (sequence : OperationSequence)
| ReplyDomain (record : DomainRecord)
| ReplyParticipant (record : ParticipantRecord)
| ReplyObject (record : ObjectRecord)
| ReplyRegion (record : RegionRecord)
| ReplyRead (decision : ReadDecision)
| ReplyWrite (grant : WriteGrant)
| ReplyPublication (receipt : PublicationReceipt)
| ReplyInvalidation (outcome : InvalidationOutcome)
| ReplySync (outcome : SyncOutcome)
| ReplyRelease (outcome : ReleaseOutcome)
| ReplyInvalidations (records : list InvalidationRecord)
| ReplyText (what : Rendering).

(** The bytes of a body, for the words of its prose. *)
Definition reply_bytes (words : string) (r : Reply) : list byte :=
  match r with
  | NoReply => []
  | ReplyPong nonce ep seq => ByteWriter.u64 nonce ++ ByteWriter.strong_id ep ++ ByteWriter.strong_id seq
  | ReplyDomain d => encode_domain d
  | ReplyParticipant p => encode_participant p
  | ReplyObject o => encode_object o
  | ReplyRegion r => encode_region r
  | ReplyRead d => encode_read_decision (d, words)
  | ReplyWrite g => encode_write_grant (g, words)
  | ReplyPublication p => encode_publication (p, words)
  | ReplyInvalidation i => encode_invalidation_outcome (i, words)
  | ReplySync y => encode_sync_outcome (y, words)
  | ReplyRelease o => encode_release_outcome (o, words)
  | ReplyInvalidations l => enc_list encode_invalidation l
  | ReplyText _ => encode_text_block words
  end.

Notation Answer := (StatusCode.t * Reply)%type.

(** ** State *)

#[local] Set Primitive Projections.

(** [Coordinator::Session], less the socket and the peer's name. *)
Record Session := mkSession {
  ss_id : SessionId;
  ss_participant : ParticipantId;
  ss_boot : ParticipantBootId;
  ss_observer : bool;
  ss_replaced : bool;
  ss_said_goodbye : bool;
  ss_last_sequence : N;
  ss_recent_correlations : list N;
  ss_correlation_set : gset N;
  ss_name : string }.
#[export] Instance eta_Session : Eta Session := fun s => mkSession
  (ss_id s) (ss_participant s) (ss_boot s) (ss_observer s) (ss_replaced s) (ss_said_goodbye s)
  (ss_last_sequence s) (ss_recent_correlations s) (ss_correlation_set s) (ss_name s).
Definition default_Session : Session := mkSession nil_uuid nil_id nil_uuid false false false 0 [] ∅ "".

(** How far a connection thread has come in [serve_socket]. *)
Inductive Stage :=
| Connected
| Greeted (hello : HelloRequest)
| Found (hello : HelloRequest) (existing : ParticipantRecord)
| Superseding (hello : HelloRequest) (existing : ParticipantRecord)
| Admitted_ (hello : HelloRequest)
| Joined (hello : HelloRequest)
| Listed (hello : HelloRequest)
| Serving
| Publishing
| Leaving
| Unlisted
| Settling
| Ended.

(** The stages in which a connection holds [Impl::mutex] between two steps. *)
Definition holds_lock (stage : Stage) : bool :=
  match stage with Found _ _ | Superseding _ _ => true | _ => false end.

(** A connection: its stage, its session object, whether its socket was shut
    down.  The handle of a thread stays in [Impl::threads] after the thread has
    ended. *)
Record Thread := mkThread { th_stage : Stage; th_session : Session; th_shut : bool }.
#[export] Instance eta_Thread : Eta Thread := fun t => mkThread (th_stage t) (th_session t) (th_shut t).

(** [CoordinatorOptions], less addresses; the state directory is the store given
    to [start]. *)
Record CoordinatorOptions := mkCoordinatorOptions {
  co_domain_name : string;
  co_engine_config : EngineConfig;
  co_frames : FrameLimits;
  co_max_sessions : N;
  co_correlation_window : N }.
#[export] Instance eta_CoordinatorOptions : Eta CoordinatorOptions := fun o => mkCoordinatorOptions
  (co_domain_name o) (co_engine_config o) (co_frames o) (co_max_sessions o) (co_correlation_window o).

Record Coordinator (St : Type) := mkCoordinator {
  co_options : CoordinatorOptions;
  co_engine : Impl St;
  co_threads : gmap N Thread;
  co_sessions : gmap SessionId N;
  co_participant_session : gmap ParticipantId SessionId;
  co_stopping : bool;
  co_accepted : N;
  co_rejected : N;
  co_domain : CoherenceDomainId;
  co_recovery : RecoveryReport }.
Arguments mkCoordinator {St}.
Arguments co_options {St}. Arguments co_engine {St}. Arguments co_threads {St}.
Arguments co_sessions {St}. Arguments co_participant_session {St}. Arguments co_stopping {St}.
Arguments co_accepted {St}. Arguments co_rejected {St}. Arguments co_domain {St}.
Arguments co_recovery {St}.
#[export] Instance eta_Coordinator St : Eta (Coordinator St) := fun c => mkCoordinator
  (co_options c) (co_engine c) (co_threads c) (co_sessions c) (co_participant_session c)
  (co_stopping c) (co_accepted c) (co_rejected c) (co_domain c) (co_recovery c).

#[local] Unset Primitive Projections.

Section coordinator.
Context {St : Type} `{DurableStore St} (build : string).
Notation Co := (Coordinator St).
Implicit Types c : Co.

Definition set_thread (conn : N) (t : Thread) c : Co := c <| co_threads ::= <[conn := t]> |>.
Definition alter_session (f : Session → Session) (conn : N) c : Co :=
  c <| co_threads ::= alter (λ t, t <| th_session ::= f |>) conn |>.
Definition set_stage (stage : Stage) (conn : N) c : Co :=
  c <| co_threads ::= alter (λ t, t <| th_stage := stage |>) conn |>.
Definition end_thread (conn : N) c : Co := set_stage Ended conn c.
Definition shut_socket (conn : N) c : Co :=
  c <| co_threads ::= alter (λ t, t <| th_shut := true |>) conn |>.

(** ** Start and stop *)

(** The constructor: a body limit of zero means the default. *)
Definition normalize (options : CoordinatorOptions) : CoordinatorOptions :=
  if (max_body_bytes (co_frames options) =? 0)%N
  then options <| co_frames ::= λ f, mkFrameLimits (16 * 1024 * 1024) (max_blob_bytes f) |>
  else options.

(** The domain is established once and then recovered by name. *)
Definition establish_domain (options : CoordinatorOptions) (report : RecoveryReport) (engine : Impl St) : result Co :=
  let make domain engine := mkCoordinator options engine ∅ ∅ ∅ false 0 0 domain report in
  let domains := sn_domains (snapshot build default_SnapshotOptions engine) in
  let domain :=
    match list_find (λ d, d_name d = co_domain_name options) domains with
    | Some (_, record) => d_id record
    | None => nil_id
    end in
  if defined domain then success (make domain engine) else
  match create_domain (co_domain_name options) engine with
  | (_, failure e) => failure e
  | (engine, success record) => success (make (d_id record) engine)
  end.

(** [Coordinator::start], up to the listener.  Without a store durability is off. *)
Definition start (options : CoordinatorOptions) (directory : option St) : result Co :=
  let options := normalize options in
  let engine := make_engine (co_engine_config options <| cfg_enable_durability := bool_decide (is_Some directory) |>) in
  match directory with
  | None => establish_domain options (default_RecoveryReport <| rep_performed := false |> <| rep_new_epoch := epoch engine |>) engine
  | Some st =>
      match attach_store st engine with
      | (_, failure e) => failure e
      | (engine, success report) => establish_domain options report engine
      end
  end.

(** The two calls of [Coordinator::shutdown_engine]; the second is made when the
    first has answered [Ok], that is, when the engine is shutting down. *)
Definition shutdown_begin c : Co * StatusCode.t :=
  let '(engine, begun) := begin_shutdown (epoch (co_engine c)) (co_engine c) in
  (c <| co_engine := engine |>, begun).
Definition shutdown_complete c : Co * StatusCode.t :=
  let '(engine, completed) := complete_shutdown (epoch (co_engine c)) (co_engine c) in
  (c <| co_engine := engine |>, completed).

(** Some connection is inside the section that replaces an earlier one. *)
Definition lock_held c : bool := existsb (λ kt, holds_lock (th_stage kt.2)) (map_to_list (co_threads c)).

(** [Coordinator::stop], up to joining the threads: no more connections, and
    the sockets of the listed sessions are shut down. *)
Definition stop c : Co :=
  if lock_held c then c else
  let c := c <| co_stopping := true |> in
  foldl (λ c conn, shut_socket conn c) c (map_to_list (co_sessions c)).*2.

(** ** Handshake *)

(** [refuse]: the connection ends with a code. *)
Definition refuse (conn : N) (code : StatusCode.t) c : Co * option StatusCode.t :=
  (end_thread conn c <| co_rejected ::= u64_succ |>, Some code).

(** A thread starts on an accepted socket. *)
Definition connect (conn : N) c : Co :=
  match co_threads c !! conn with
  | None => set_thread conn (mkThread Connected default_Session false) c <| co_accepted ::= u64_succ |>
  | Some _ => c
  end.

(** The hello frame, up to the section that replaces an earlier connection; an
    observer skips that section. *)
Definition accept_hello (conn : N) (received : result Frame) c : Co * option StatusCode.t :=
  match co_threads c !! conn, received with
  | Some (mkThread Connected _ _), failure e => (end_thread conn c, Some e)
  | Some (mkThread Connected _ _), success frame =>
      if decide (fh_type (f_header frame) ≠ MessageType.Hello) then refuse conn StatusCode.ProtocolViolation c else
      match decode_hello_request default_decode_limits (f_body frame) with
      | Read hello [] =>
          if negb (hq_protocol_version hello =? protocol_version)%N then refuse conn StatusCode.UnsupportedSchema c else
          if negb (hq_schema hello =? kPersistenceSchema)%N then refuse conn StatusCode.UnsupportedSchema c else
          if shutting_down (co_engine c) then refuse conn StatusCode.ShuttingDown c else
          if hq_observer hello then (set_stage (Admitted_ hello) conn c, None) else
          if decide (hq_participant_name hello = ""%string) then refuse conn StatusCode.InvalidArgument c else
          if uuid_is_nil (hq_boot hello) then refuse conn StatusCode.InvalidArgument c else
          (set_stage (Greeted hello) conn c, None)
      | _ => refuse conn StatusCode.ProtocolViolation c
      end
  | _, _ => (c, None)
  end.

(** The mutex is taken, and the participant is looked up; when it is unknown,
    the section is over. *)
Definition look_up (conn : N) c : Co * option StatusCode.t :=
  match co_threads c !! conn with
  | Some (mkThread (Greeted hello) _ _) =>
      if lock_held c then (c, None) else
      let max_sessions := if (co_max_sessions (co_options c) =? 0)%N then 1%N else co_max_sessions (co_options c) in
      if (max_sessions <=? map_count (co_sessions c))%N then refuse conn StatusCode.CapacityExceeded c else
      match find_participant (hq_participant_name hello) (co_engine c) with
      | failure _ => (set_stage (Admitted_ hello) conn c, None)
      | success existing => (set_stage (Found hello existing) conn c, None)
      end
  | _ => (c, None)
  end.

(** The session listed for a participant is marked replaced, shut down and
    forgotten. *)
Definition forget_session (id : ParticipantId) c : Co :=
  match co_participant_session c !! id with
  | None => c
  | Some sid =>
      match co_sessions c !! sid with
      | None => c
      | Some old =>
          let c := alter_session (λ s, s <| ss_replaced := true |>) old c in
          let c := shut_socket old c in
          c <| co_sessions ::= delete sid |> <| co_participant_session ::= delete id |>
      end
  end.

(** The participant's connection is taken over; when the boot is the one that
    was found, the section is over. *)
Definition take_over (conn : N) c : Co :=
  match co_threads c !! conn with
  | Some (mkThread (Found hello existing) _ _) =>
      set_stage (if decide (p_boot existing = hq_boot hello) then Admitted_ hello else Superseding hello existing) conn
        (forget_session (p_id existing) c)
  | _ => c
  end.

(** The participant is fenced, in whatever incarnation the engine has it now,
    and the mutex is released. *)
Definition supersede (conn : N) c : Co :=
  match co_threads c !! conn with
  | Some (mkThread (Superseding hello existing) _ _) =>
      set_stage (Admitted_ hello) conn
        (c <| co_engine := (fence_participant (p_id existing) (epoch (co_engine c))
               "superseded by a new participant boot identity" (co_engine c)).1 |>)
  | _ => c
  end.

(** Registration with the engine. *)
Definition join_hello (conn : N) c : Co * option StatusCode.t :=
  match co_threads c !! conn with
  | Some (mkThread (Admitted_ hello) session shut) =>
      let joined participant c := (set_thread conn (mkThread (Joined hello) (session <| ss_participant := participant |>) shut) c, None) in
      if hq_observer hello then joined nil_id c else
      let '(engine, registered) :=
        register_participant (hq_participant_name hello) (hq_boot hello) (epoch (co_engine c)) (hq_node_label hello) (co_engine c) in
      let c := c <| co_engine := engine |> in
      match registered with
      | failure e => refuse conn e c
      | success participant => joined (p_id participant) c
      end
  | _ => (c, None)
  end.

(** The session gets its identity and is listed, and the acknowledgement is made;
    [fresh] is what [generate_session_id] returns. *)
Definition list_session (conn : N) (fresh : SessionId) c : Co * result HelloResponse :=
  match co_threads c !! conn with
  | Some (mkThread (Joined hello) session shut) =>
      if uuid_is_nil fresh then ((refuse conn StatusCode.InternalError c).1, failure StatusCode.InternalError) else
      if lock_held c then (c, failure StatusCode.InvalidState) else
      let session := session <| ss_boot := hq_boot hello |> <| ss_observer := hq_observer hello |>
        <| ss_name := hq_participant_name hello |> <| ss_id := fresh |> in
      let participant := ss_participant session in
      let c := c <| co_sessions ::= λ m, if decide (is_Some (m !! fresh)) then m else <[fresh := conn]> m |> in
      let c := if hq_observer hello then c else c <| co_participant_session ::= <[participant := fresh]> |> in
      (set_thread conn (mkThread (Listed hello) session shut) c,
       success {| hr_session := fresh; hr_epoch := epoch (co_engine c); hr_protocol_version := protocol_version;
         hr_schema := kPersistenceSchema; hr_build := build; hr_nonce := hq_nonce hello;
         hr_participant := participant; hr_observer := hq_observer hello |})
  | _ => (c, failure StatusCode.InvalidState)
  end.

(** The acknowledgement is written, or the session is taken off the lists: the
    entry of the participant goes whichever session it names by then. *)
Definition acknowledge_hello (conn : N) (sent : StatusCode.t) c : Co :=
  match co_threads c !! conn with
  | Some (mkThread (Listed hello) session shut) =>
      if ok sent then set_stage Serving conn c else
      if lock_held c then c else
      end_thread conn (c <| co_sessions ::= delete (ss_id session) |>
        <| co_participant_session ::= delete (ss_participant session) |>)
  | _ => c
  end.

(** ** Dispatch *)

(** [fail(reader.status())] when a payload cannot be decoded: the status of the
    reader, which is a failure only when bytes were missing. *)
Definition with_payload {A} (reader : Reader A) (body : list byte) (k : A → list byte → Co * Answer) c : Co * Answer :=
  match reader body with
  | Read a rest => k a rest
  | Failed => (c, (StatusCode.TruncatedInput, NoReply))
  | Rejected => (c, (StatusCode.Ok, NoReply))
  end.

(** A call of the engine whose value is the body. *)
Definition call {A} (f : Impl St → Impl St * result A) (reply : A → Reply) c : Co * Answer :=
  let '(engine, r) := f (co_engine c) in
  (c <| co_engine := engine |>,
   match r with success a => (StatusCode.Ok, reply a) | failure e => (e, NoReply) end).

(** A call of the engine that only has a status. *)
Definition call_status (f : Impl St → Impl St * StatusCode.t) (reply : Reply) c : Co * Answer :=
  let '(engine, status) := f (co_engine c) in
  (c <| co_engine := engine |>, if ok status then (StatusCode.Ok, reply) else (status, NoReply)).

(** A request speaks for the session that carries it. *)
Definition speak (session : Session) (ep : CoordinatorEpoch) (ctx : AuthorityContext) : AuthorityContext :=
  ctx <| ac_participant := ss_participant session |> <| ac_boot := ss_boot session |> <| ac_epoch := ep |>.

(** The messages an observer may send. *)
Definition mutating (type : MessageType.t) : bool :=
  match type with
  | MessageType.Query | MessageType.Snapshot | MessageType.Audit | MessageType.Ping
  | MessageType.ListParticipants | MessageType.ListObjects | MessageType.ListRegions
  | MessageType.DecisionLog | MessageType.RecoveryInfo => false
  | _ => true
  end.

(** The query message: an optional object and an optional selector. *)
Definition dispatch_query (body : list byte) c : Co * Answer :=
  let engine := co_engine c in
  let select (object : ObjectId) (selector : string) : Co * Answer :=
    let text what := (c, (StatusCode.Ok, ReplyText what)) in
    if decide (selector = "policy"%string) then text (TPolicy (get_policy object engine)) else
    if decide (selector = "audit"%string) then text (TAudit (audit engine)) else
    if decide (selector = "decisions"%string) then text (TDecisionLog (decision_log engine)) else
    if decide (selector = "recovery"%string) then text (TRecovery (co_recovery c)) else
    text (TSnapshot (snapshot build (default_SnapshotOptions <| sno_object_filter := object |>) engine)) in
  with_payload (decode_query default_decode_limits) body (λ v _, select v.1 v.2) c.

(** The socket of the live session of a fenced participant is shut down. *)
Definition shut_participant (id : ParticipantId) c : Co :=
  match co_participant_session c !! id with
  | None => c
  | Some sid => match co_sessions c !! sid with None => c | Some conn => shut_socket conn c end
  end.

(** The invalidations that wait for an incarnation. *)
Definition pending_for (session : Session) (engine : Impl St) : list InvalidationRecord :=
  List.filter (λ i, bool_decide (i_state i = InvalidationState.Requested ∧
      i_target_participant i = ss_participant session ∧ i_target_boot i = ss_boot session))
    (sn_invalidations (snapshot build default_SnapshotOptions engine)).

(** The requests that carry an authority context: a participant's own operations. *)
Definition dispatch_session (session : Session) (type : MessageType.t) (body : list byte) c : Co * Answer :=
  let limits := default_decode_limits in
  let ep := epoch (co_engine c) in
  match type with
  | MessageType.RegisterRegion =>
      with_payload (decode_region_registration limits) body (λ r _,
        call (register_region (r <| rn_context ::= speak session ep |>)) ReplyRegion c) c
  | MessageType.AcquireRead =>
      with_payload (decode_read_request limits) body (λ r _,
        call (acquire_read (r <| rr_context ::= speak session ep |>)) ReplyRead c) c
  | MessageType.AcquireWrite =>
      with_payload (decode_write_request limits) body (λ r _,
        call (acquire_write (r <| wr_context ::= speak session ep |>)) ReplyWrite c) c
  | MessageType.MarkDirty =>
      with_payload (decode_dirty_request limits) body (λ r _,
        call (mark_dirty (r <| dr_context ::= speak session ep |>)) (λ d, ReplyText (TDirtyCondition d)) c) c
  | MessageType.Publish =>
      with_payload (decode_publish_request limits) body (λ r _,
        call (publish (r <| pb_context ::= speak session ep |>)) ReplyPublication c) c
  | MessageType.Invalidate =>
      with_payload (decode_invalidation_request limits) body (λ r _,
        call (invalidate (r <| ir_context ::= λ ctx, ctx <| ac_epoch := ep |> |>)) ReplyInvalidation c) c
  | MessageType.AcknowledgeInvalidation =>
      with_payload (decode_invalidation_ack limits) body (λ r _,
        call (acknowledge_invalidation (r <| ia_context ::= speak session ep |>)) ReplyInvalidation c) c
  | MessageType.SyncBegin =>
      with_payload (decode_sync_request limits) body (λ r _,
        call (begin_sync (r <| sr_context ::= speak session ep |>)) ReplySync c) c
  | MessageType.SyncComplete =>
      with_payload (decode_sync_complete limits) body (λ r _,
        call (complete_sync (r <| sc_context ::= speak session ep |>)) ReplySync c) c
  | MessageType.SyncFail =>
      with_payload (decode_sync_fail limits) body (λ r _,
        call (fail_sync (r <| sf_context ::= speak session ep |>)) ReplySync c) c
  | MessageType.Release =>
      with_payload (decode_release_request limits) body (λ r _,
        call (release (r <| rl_context ::= speak session ep |>)) ReplyRelease c) c
  | MessageType.Revalidate =>
      with_payload (decode_revalidate_request limits) body (λ r _,
        call (revalidate_region (r <| rv_context ::= speak session ep |>)) ReplyRegion c) c
  | _ => (c, (StatusCode.Unsupported, NoReply))
  end.

(** The operator's resolution of a recovered object. *)
Definition dispatch_resolve (body : list byte) c : Co * Answer :=
  with_payload (decode_resolve default_decode_limits) body (λ v _,
    call (resolve_recovery v.1.1 (from_value v.1.2) (epoch (co_engine c)) v.2) ReplyObject c) c.

(** The inspections without a payload. *)
Definition dispatch_inspection (session : Session) (type : MessageType.t) c : Co * Answer :=
  let engine := co_engine c in
  let text what := (c, (StatusCode.Ok, ReplyText what)) in
  let every := snapshot build default_SnapshotOptions engine in
  match type with
  | MessageType.Audit => text (TAudit (audit engine))
  | MessageType.ListInvalidations => (c, (StatusCode.Ok, ReplyInvalidations (pending_for session engine)))
  | MessageType.DecisionLog => text (TDecisionLog (decision_log engine))
  | MessageType.RecoveryInfo => text (TRecovery (co_recovery c))
  | MessageType.ListParticipants => text (TParticipants (sn_participants every))
  | MessageType.ListObjects => text (TObjects (sn_objects every))
  | MessageType.ListRegions => text (TRegions (sn_regions every))
  | _ => (c, (StatusCode.Unsupported, NoReply))
  end.

(** The operator's requests. *)
Definition dispatch_control (type : MessageType.t) (body : list byte) c : Co * Answer :=
  let limits := default_decode_limits in
  let ep := epoch (co_engine c) in
  match type with
  | MessageType.SetPolicy =>
      with_payload (decode_set_policy limits) body (λ v _,
        let '(object, generation, expected, policy) := v in
        call (set_policy object generation expected policy) ReplyObject c) c
  | MessageType.FenceParticipant =>
      with_payload (decode_fence_participant limits) body (λ v _,
        let '(c, answer) := call (fence_participant v.1 ep v.2) ReplyParticipant c in
        (if ok answer.1 then shut_participant v.1 c else c, answer)) c
  | MessageType.RetireRegion =>
      with_payload decode_retire body (λ v _,
        call_status (retire_region (from_value v.1) (from_value v.2) ep) (ReplyText (TRetired v.1)) c) c
  | MessageType.RetireObject =>
      with_payload decode_retire body (λ v _,
        call_status (retire_object (from_value v.1) (from_value v.2) ep) (ReplyText (TRetired v.1)) c) c
  | MessageType.Shutdown =>
      let '(c, answer) := call_status (begin_shutdown ep) (ReplyText TShutdown) c in
      (if ok answer.1 then c <| co_stopping := true |> else c, answer)
  | _ => (c, (StatusCode.Unsupported, NoReply))
  end.

(** [Coordinator::dispatch]. *)
Definition dispatch (session : Session) (type : MessageType.t) (body : list byte) c : Co * Answer :=
  let limits := default_decode_limits in
  let engine := co_engine c in
  let ep := epoch engine in
  let text what := (c, (StatusCode.Ok, ReplyText what)) in
  if ss_observer session && mutating type then (c, (StatusCode.NotWriteAuthorized, NoReply)) else
  match type with
  | MessageType.Ping =>
      with_payload ByteReader.u64 body (λ nonce _, (c, (StatusCode.Ok, ReplyPong nonce ep (sequence engine)))) c
  | MessageType.CreateDomain =>
      with_payload (decode_create_domain limits) body (λ name _, call (create_domain name) ReplyDomain c) c
  | MessageType.RegisterObject =>
      with_payload (decode_register_object limits) body (λ v _,
        let '(domain, name, length, policy) := v in call (register_object domain name length policy) ReplyObject c) c
  | MessageType.RegisterRegion | MessageType.AcquireRead | MessageType.AcquireWrite | MessageType.MarkDirty
  | MessageType.Publish | MessageType.Invalidate | MessageType.AcknowledgeInvalidation | MessageType.SyncBegin
  | MessageType.SyncComplete | MessageType.SyncFail | MessageType.Release | MessageType.Revalidate => dispatch_session session type body c
  | MessageType.ResolveRecovery => dispatch_resolve body c
  | MessageType.Snapshot =>
      with_payload decode_snapshot_options body (λ options _, text (TSnapshot (snapshot build options engine))) c
  | MessageType.Query => dispatch_query body c
  | MessageType.Audit | MessageType.ListInvalidations | MessageType.DecisionLog | MessageType.RecoveryInfo
  | MessageType.ListParticipants | MessageType.ListObjects | MessageType.ListRegions => dispatch_inspection session type c
  | MessageType.SetPolicy | MessageType.FenceParticipant | MessageType.RetireRegion | MessageType.RetireObject | MessageType.Shutdown => dispatch_control type body c
  | _ => (c, (StatusCode.Unsupported, NoReply))
  end.

(** ** Request loop *)

(** The correlation window: the oldest identities beyond it are forgotten. *)
Definition remember (window : N) (correlation : N) (s : Session) : Session :=
  let recent := ss_recent_correlations s ++ [correlation] in
  let excess := length recent - N.to_nat window in
  s <| ss_recent_correlations := drop excess recent |>
    <| ss_correlation_set := ({[correlation]} ∪ ss_correlation_set s) ∖ list_to_set (take excess recent) |>.

(** One iteration of the loop: the answer, if there is one, goes out with
    [sent]; the connection leaves the loop on a read error, a goodbye, a frame
    that is refused as not belonging to the stream, or a write error. *)
Definition serve_frame (conn : N) (received : result Frame) (sent : StatusCode.t) c : Co * option Answer :=
  match co_threads c !! conn with
  | Some (mkThread Serving session shut) =>
      match received with
      | failure _ => (set_stage Leaving conn c, None)
      | success frame =>
          let h := f_header frame in
          if decide (fh_type h = MessageType.Goodbye) then
            (set_stage Leaving conn (alter_session (λ s, s <| ss_said_goodbye := true |>) conn c), None)
          else
          let close code := (set_stage Leaving conn c, Some (code, NoReply)) in
          let continue c (answer : Answer) := ((if ok sent then c else set_stage Leaving conn c), Some answer) in
          if decide (fh_session h ≠ ss_id session) then close StatusCode.StaleSession else
          if (fh_sequence h <=? ss_last_sequence session)%N then close StatusCode.ReplayedRequest else
          if decide (fh_correlation h ∈ ss_correlation_set session) then close StatusCode.ReplayedRequest else
          let advanced := λ s, s <| ss_last_sequence := fh_sequence h |> in
          if decide (fh_epoch h ≠ epoch (co_engine c)) then
            continue (alter_session advanced conn c) (StatusCode.StaleEpoch, NoReply)
          else
          let update := λ s, remember (co_correlation_window (co_options c)) (fh_correlation h) (advanced s) in
          let '(c, answer) := dispatch (update session) (fh_type h) (f_body frame) (alter_session update conn c) in
          continue c answer
      end
  | _ => (c, None)
  end.

(** The frame that carries an answer: [message], [detail] and [words] are its prose. *)
Definition response_frame (sid : SessionId) (ep : CoordinatorEpoch) (correlation : N) (message detail words : string)
    (answer : Answer) : Frame :=
  mkFrame (mkFrameHeader protocol_version MessageType.Response 0 sid ep 0 correlation)
    (encode_response_envelope (mkResponseEnvelope answer.1 message detail) ++ reply_bytes words answer.2).

(** A publication releases the engine between its phases, so that the frame of
    another connection may be served in between: [begin_publish] serves a publish
    frame up to the reservation, [append_publish] writes to the journal, and
    [finish_publish] commits and answers. *)
Definition admissible (session : Session) (ep : CoordinatorEpoch) (h : FrameHeader) : bool :=
  bool_decide (fh_session h = ss_id session) && (ss_last_sequence session <? fh_sequence h)%N &&
  bool_decide (fh_correlation h ∉ ss_correlation_set session) && bool_decide (fh_epoch h = ep).

Definition begin_publish (conn : N) (frame : Frame) c : option (Co * PublishLocals) :=
  match co_threads c !! conn with
  | Some (mkThread Serving session shut) =>
      let h := f_header frame in
      let ep := epoch (co_engine c) in
      if decide (fh_type h ≠ MessageType.Publish) then None else
      if negb (admissible session ep h) || ss_observer session then None else
      let update := λ s, remember (co_correlation_window (co_options c)) (fh_correlation h)
        (s <| ss_last_sequence := fh_sequence h |>) in
      match decode_publish_request default_decode_limits (f_body frame) with
      | Read r _ =>
          match publish_reserve (r <| pb_context ::= speak session ep |>) (co_engine c) with
          | (engine, inr locals) =>
              Some (set_stage Publishing conn (alter_session update conn c <| co_engine := engine |>), locals)
          | (_, inl _) => None
          end
      | _ => None
      end
  | _ => None
  end.

Definition append_publish (locals : PublishLocals) c : Co * StatusCode.t :=
  let '(engine, status) := publish_durable locals (co_engine c) in (c <| co_engine := engine |>, status).

Definition finish_publish (conn : N) (locals : PublishLocals) (status sent : StatusCode.t) c : Co * Answer :=
  let '(engine, r) := publish_commit locals status (co_engine c) in
  (set_stage (if ok sent then Serving else Leaving) conn (c <| co_engine := engine |>),
   match r with success receipt => (StatusCode.Ok, ReplyPublication receipt) | failure e => (e, NoReply) end).

(** ** Teardown *)

(** The session is taken off the lists. *)
Definition unlist (conn : N) c : Co :=
  match co_threads c !! conn with
  | Some (mkThread Leaving session shut) =>
      if lock_held c then c else
      let c := c <| co_sessions ::= delete (ss_id session) |> in
      let c :=
        if decide (co_participant_session c !! ss_participant session = Some (ss_id session)) then
          c <| co_participant_session ::= delete (ss_participant session) |> else c in
      set_stage Unlisted conn c
  | _ => c
  end.

(** A replaced session, an observer and a participant that moved on are left
    alone. *)
Definition examine (conn : N) c : Co :=
  match co_threads c !! conn with
  | Some (mkThread Unlisted session shut) =>
      if ss_observer session || ss_replaced session then end_thread conn c else
      if negb (defined (ss_participant session)) then end_thread conn c else
      match get_participant (ss_participant session) (co_engine c) with
      | failure _ => end_thread conn c
      | success live =>
          if decide (p_boot live ≠ ss_boot session) then end_thread conn c else set_stage Settling conn c
      end
  | _ => c
  end.

(** A session that said goodbye is closed; a lost one is fenced, in whatever
    incarnation the engine has the participant now. *)
Definition settle (conn : N) c : Co :=
  match co_threads c !! conn with
  | Some (mkThread Settling session shut) =>
      let engine := co_engine c in
      end_thread conn (c <| co_engine :=
        (if ss_said_goodbye session then mark_session_closed (ss_participant session) (ss_boot session) engine
         else fence_participant (ss_participant session) (epoch engine)
                "the control connection was lost without a clean shutdown" engine).1 |>)
  | _ => c
  end.
End coordinator.
