(* ===== verification/Render.v ===== *)
(** * Renderings ([src/model.cpp], [src/decision.cpp], [src/policy.cpp],
    [src/evidence.cpp], [src/engine_core.cpp], [src/engine_recovery.cpp],
    [src/coordinator.cpp], [src/persistence.cpp])

    The deterministic text of records, decisions and reports, which the
    coordinator sends as text answers and the agent reads back.  Prose that the
    records of the model do not carry (rationales, summaries, details, notes) is
    an argument. *)
From Stdlib Require Import Strings.Ascii Strings.String.
From S2P Require Import Prelude Ids Enums Status Bytes Policy Evidence Model Decisions.
From S2P Require Import Persistence Transport Text Engine Coordinator.

#[local] Open Scope string_scope.

(** [append_field] and [append_id] of [model.cpp], [field] of [decision.cpp]: what they append. *)
Definition append_field (key value : string) : string := " " ++ key ++ "=" ++ value.
Definition append_id {t} (key : string) (id : StrongId t) : string := append_field key (id_to_string id).
Definition yes_no (b : bool) : string := if b then "true" else "false".
Definition count_of {A} (l : list A) : string := pretty (N.of_nat (length l)).
Definition concat_map {A} (f : A → string) (l : list A) : string := foldr (λ a out, f a ++ out) "" l.

(** ** Records *)

Definition render_object (r : ObjectRecord) : string :=
  "object" ++ append_id "id" (o_id r) ++ append_id "generation" (o_generation r) ++ append_id "domain" (o_domain r)
  ++ append_field "name" (o_name r) ++ append_field "length" (pretty (o_length r)) ++ newline_text
  ++ "  policy=" ++ id_to_string (o_policy r) ++ append_id "policy_generation" (o_policy_generation r)
  ++ append_field "lifecycle" (lookup_token (o_lifecycle r)) ++ newline_text
  ++ "  authority=" ++ lookup_token (o_authority r) ++ append_id "writer" (o_writer r)
  ++ append_id "ownership_generation" (o_ownership_generation r) ++ newline_text
  ++ "  authoritative_version=" ++ id_to_string (o_authoritative_version r) ++ append_id "publication" (o_publication r)
  ++ append_field "publication_state" (lookup_token (o_publication_state r)) ++ newline_text
  ++ "  dirty_condition=" ++ lookup_token (o_dirty_condition r)
  ++ append_field "has_unpublished_dirty" (yes_no (o_has_unpublished_dirty r))
  ++ append_field "replicas" (count_of (o_replicas r)) ++ append_field "reads" (count_of (o_reads r))
  ++ append_field "outstanding_invalidations" (count_of (o_outstanding_invalidations r))
  ++ (if decide (o_recovery_note r = "") then "" else newline_text ++ "  recovery_note=" ++ o_recovery_note r).

Definition render_region (r : RegionRecord) : string :=
  "region" ++ append_id "id" (r_id r) ++ append_id "generation" (r_generation r) ++ append_id "replica" (r_replica r)
  ++ append_id "replica_generation" (r_replica_generation r) ++ append_field "name" (r_name r) ++ newline_text
  ++ append_id "object" (r_object r) ++ append_id "object_generation" (r_object_generation r)
  ++ append_id "participant" (r_participant r) ++ append_field "boot" (uuid_to_string (r_boot r)) ++ newline_text
  ++ append_field "memory_domain" (lookup_token (r_memory_domain r))
  ++ append_field "evidence_class" (lookup_token (r_evidence_class r))
  ++ append_field "lifecycle" (lookup_token (r_lifecycle r)) ++ append_field "state" (lookup_token (r_state r)) ++ newline_text
  ++ append_field "offset" (pretty (r_offset r)) ++ append_field "length" (pretty (r_length r))
  ++ append_id "version" (r_version r) ++ append_id "last_synced_version" (r_last_synced_version r)
  ++ append_id "ownership_generation" (r_ownership_generation r) ++ newline_text
  ++ append_field "dirty" (lookup_token (r_dirty r)) ++ append_field "invalidation_pending" (yes_no (r_invalidation_pending r))
  ++ append_field "content" (fingerprint_to_string (r_content r))
  ++ (if decide (r_note r = "") then "" else newline_text ++ append_field "note" (r_note r)).

Definition render_participant (r : ParticipantRecord) : string :=
  "participant" ++ append_id "id" (p_id r) ++ append_field "name" (p_name r) ++ newline_text
  ++ append_field "boot" (uuid_to_string (p_boot r)) ++ append_field "previous_boot" (uuid_to_string (p_previous_boot r))
  ++ append_field "lifecycle" (lookup_token (p_lifecycle r)) ++ append_field "live" (yes_no (p_live r)) ++ newline_text
  ++ append_id "admitted_epoch" (p_admitted_epoch r) ++ append_id "last_epoch" (p_last_epoch r)
  ++ append_field "regions" (pretty (p_region_count r))
  ++ (if decide (p_fence_reason r = "") then "" else newline_text ++ append_field "fence_reason" (p_fence_reason r)).

Definition render_invalidation (r : InvalidationRecord) : string :=
  "invalidation" ++ append_id "id" (i_id r) ++ append_id "object" (i_object r)
  ++ append_id "object_generation" (i_object_generation r) ++ append_id "region" (i_region r)
  ++ append_id "region_generation" (i_region_generation r) ++ append_id "replica_generation" (i_replica_generation r)
  ++ newline_text
  ++ append_id "published_version" (i_published_version r) ++ append_id "superseded_version" (i_superseded_version r)
  ++ append_id "ownership_generation" (i_ownership_generation r) ++ append_id "epoch" (i_epoch r)
  ++ append_id "target" (i_target_participant r) ++ append_field "target_boot" (uuid_to_string (i_target_boot r))
  ++ append_field "state" (lookup_token (i_state r)) ++ append_field "ack_required" (yes_no (i_acknowledgement_required r)).

Definition render_sync (r : SyncRecord) : string :=
  "sync" ++ append_id "id" (y_id r) ++ append_field "kind" (lookup_token (y_kind r))
  ++ append_field "state" (lookup_token (y_state r)) ++ newline_text
  ++ append_id "object" (y_object r) ++ append_id "object_generation" (y_object_generation r)
  ++ append_id "source" (y_source_region r) ++ append_id "source_generation" (y_source_region_generation r)
  ++ append_id "destination" (y_destination_region r) ++ append_id "destination_generation" (y_destination_region_generation r)
  ++ newline_text
  ++ append_id "source_version" (y_source_version r) ++ append_id "destination_prior_version" (y_destination_prior_version r)
  ++ append_id "ownership_generation" (y_ownership_generation r) ++ append_id "epoch" (y_epoch r)
  ++ append_field "transport" (y_transport r) ++ newline_text
  ++ append_field "expected_content" (fingerprint_to_string (y_expected_content r))
  ++ append_field "postcondition" (y_postcondition r)
  ++ (if decide (y_failure_reason r = "") then "" else newline_text ++ append_field "failure_reason" (y_failure_reason r)).

(** [format_id] of [ids.cpp]. *)
Definition format_id (kind : string) (value : N) : string := kind ++ "#" ++ pretty value.
Definition format_id128 (kind : string) (value : UInt128) : string := kind ++ "#" ++ to_hex value.

Definition quoted (s : string) : string := String "034" (s ++ String "034" "").

Definition render_evidence (r : EvidenceRecord) : string :=
  "evidence " ++ format_id "ev" (value (e_id r)) ++ " gen=" ++ id_to_string (e_generation r)
  ++ " kind=" ++ lookup_token (e_kind r) ++ " class=" ++ lookup_token (e_evidence_class r)
  ++ " epoch=" ++ id_to_string (e_epoch r) ++ " object=" ++ id_to_string (e_object r)
  ++ " objgen=" ++ id_to_string (e_object_generation r) ++ " region=" ++ id_to_string (e_region r)
  ++ " reggen=" ++ id_to_string (e_region_generation r) ++ " version=" ++ id_to_string (e_observed_version r)
  ++ " seq=" ++ id_to_string (e_sequence r) ++ (if e_process_local r then " process_local" else "")
  ++ (if decide (e_note r = "") then "" else " note=" ++ quoted (e_note r)).

(** ** Policies *)

(** The memory domains whose byte runs from zero to [Synthetic]. *)
Definition listed_domains : list MemoryDomain.t := omap (λ raw, enum_from_u8 (N.of_nat raw)) (seq 0 9).
Definition render_policy (p : CoherencePolicy) : string :=
  let unassigned {t} (i : StrongId t) := if is_nil i then "unassigned" else id_to_string i in
  "policy id=" ++ unassigned (pol_id p) ++ " generation=" ++ unassigned (pol_generation p) ++ " name=" ++ pol_name p ++ newline_text
  ++ "  consistency=" ++ lookup_token (pol_consistency p) ++ " write_ownership=" ++ lookup_token (pol_write_ownership p)
  ++ " publication_durability=" ++ lookup_token (pol_publication_durability p) ++ newline_text
  ++ "  conflict_behavior=" ++ lookup_token (pol_conflict_behavior p) ++ " recovery_policy="
  ++ lookup_token (pol_recovery_policy p) ++ " stale_read_policy=" ++ lookup_token (pol_stale_read_policy p) ++ newline_text
  ++ "  stale_read_bound_versions=" ++ pretty (pol_stale_read_bound_versions p)
  ++ " evidence_max_age_operations=" ++ pretty (pol_evidence_max_age_operations p) ++ newline_text
  ++ "  dirty_loss_policy=" ++ lookup_token (pol_dirty_loss_policy p) ++ " require_invalidation_acks_before_publication="
  ++ yes_no (pol_require_invalidation_acks_before_publication p) ++ newline_text
  ++ "  require_sync_completion_for_currentness=" ++ yes_no (pol_require_sync_completion_for_currentness p)
  ++ " require_content_fingerprint=" ++ yes_no (pol_require_content_fingerprint p) ++ newline_text
  ++ "  allowed_domains="
  ++ String.concat "," (lookup_token <$> filter (λ d, allows_domain p d = true) listed_domains).

(** [summarize_policy]. *)
Definition summarize_policy (p : CoherencePolicy) : string :=
  pol_name p ++ "/" ++ (if is_nil (pol_generation p) then "-" else id_to_string (pol_generation p))
  ++ " consistency=" ++ lookup_token (pol_consistency p) ++ " ownership=" ++ lookup_token (pol_write_ownership p)
  ++ " durability=" ++ lookup_token (pol_publication_durability p).

(** [render_policy_list] of the coordinator; [words] is the text of a failed status. *)
Definition render_policy_list (words : string) (policy : result CoherencePolicy) : string :=
  match policy with success p => render_policy p | failure _ => words end.

(** ** Decisions *)

Definition append_context (c : DecisionContext) : string :=
  "decision=" ++ id_to_string (dc_decision c) ++ append_id "epoch" (dc_epoch c) ++ append_id "object" (dc_object c)
  ++ append_id "object_generation" (dc_object_generation c) ++ append_id "ownership_generation" (dc_ownership_generation c)
  ++ append_id "policy" (dc_policy c) ++ append_id "policy_generation" (dc_policy_generation c)
  ++ append_id "sequence" (dc_sequence c).

Definition render_read_decision (d : ReadDecision) (rationale : string) : string :=
  "read_decision outcome=" ++ lookup_token (rd_outcome d) ++ " reason=" ++ status_code_name (rd_reason d) ++ newline_text
  ++ "  " ++ append_context (rd_context d) ++ newline_text
  ++ append_id " region" (rd_region d) ++ append_id "region_generation" (rd_region_generation d)
  ++ append_field "region_state" (lookup_token (rd_region_state d)) ++ newline_text
  ++ append_id " authoritative_version" (rd_authoritative_version d) ++ append_id "region_version" (rd_region_version d)
  ++ append_field "staleness" (if rd_staleness_known d then pretty (rd_staleness d) else "unknown") ++ newline_text
  ++ append_field " sync_required" (yes_no (rd_sync_required d)) ++ append_field "stale_allowed" (yes_no (rd_stale_allowed d))
  ++ append_field "evidence_fresh" (yes_no (rd_evidence_fresh d))
  ++ append_field "evidence_class" (lookup_token (rd_evidence_class d)) ++ newline_text
  ++ (if is_nil (rd_evidence d) then ""
      else append_id " evidence" (rd_evidence d) ++ append_id "evidence_generation" (rd_evidence_generation d))
  ++ (if is_nil (rd_required_sync d) then "" else append_id " required_sync" (rd_required_sync d))
  ++ (if is_nil (rd_lease d) then "" else append_id " lease" (rd_lease d)) ++ newline_text
  ++ "  rationale=" ++ rationale.

Definition render_write_grant (g : WriteGrant) (rationale : string) : string :=
  "write_grant granted=" ++ yes_no (wg_granted g) ++ " reason=" ++ status_code_name (wg_reason g) ++ newline_text
  ++ "  " ++ append_context (wg_context g) ++ newline_text
  ++ append_id " writer" (wg_writer g) ++ append_field "writer_boot" (uuid_to_string (wg_writer_boot g))
  ++ append_id "base_version" (wg_base_version g) ++ append_id "authoritative_version" (wg_authoritative_version g) ++ newline_text
  ++ append_id " writer_region" (wg_writer_region g) ++ append_id "writer_region_generation" (wg_writer_region_generation g)
  ++ append_field "may_mutate_now" (yes_no (wg_may_mutate_now g))
  ++ append_field "required_invalidations" (count_of (wg_required_invalidations g)) ++ newline_text
  ++ concat_map (λ i, "  " ++ render_invalidation i ++ newline_text) (wg_required_invalidations g)
  ++ "  rationale=" ++ rationale.

Definition render_publication (r : PublicationReceipt) (rationale : string) : string :=
  "publication " ++ id_to_string (pr_publication r) ++ " state=" ++ lookup_token (pr_state r)
  ++ " reason=" ++ status_code_name (pr_reason r) ++ newline_text
  ++ "  " ++ append_context (pr_context r) ++ newline_text
  ++ append_id " version" (pr_version r) ++ append_id "prior_version" (pr_prior_version r)
  ++ append_id "writer" (pr_writer r) ++ append_field "writer_boot" (uuid_to_string (pr_writer_boot r)) ++ newline_text
  ++ append_field " durability" (lookup_token (pr_durability r)) ++ append_field "durable" (yes_no (pr_durable r))
  ++ append_field "idempotent_replay" (yes_no (pr_idempotent_replay r))
  ++ append_field "completed_by_recovery" (yes_no (pr_completed_by_recovery r)) ++ newline_text
  ++ append_field " content" (fingerprint_to_string (pr_content r)) ++ newline_text
  ++ "  rationale=" ++ rationale.

Definition render_invalidation_outcome (o : InvalidationOutcome) (rationale : string) : string :=
  "invalidation_outcome " ++ id_to_string (io_invalidation o) ++ " state=" ++ lookup_token (io_state o)
  ++ " reason=" ++ status_code_name (io_reason o) ++ newline_text
  ++ "  " ++ append_context (io_context o) ++ newline_text
  ++ append_id " region" (io_region o) ++ append_id "region_generation" (io_region_generation o)
  ++ append_id "replica_generation" (io_replica_generation o)
  ++ append_field "idempotent_replay" (yes_no (io_idempotent_replay o)) ++ newline_text
  ++ "  rationale=" ++ rationale.

Definition render_sync_outcome (o : SyncOutcome) (rationale : string) : string :=
  "sync_outcome " ++ id_to_string (so_operation o) ++ " state=" ++ lookup_token (so_state o)
  ++ " reason=" ++ status_code_name (so_reason o) ++ newline_text
  ++ "  " ++ append_context (so_context o) ++ newline_text
  ++ "  " ++ render_sync (so_plan o) ++ newline_text
  ++ append_field " idempotent_replay" (yes_no (so_idempotent_replay o)) ++ newline_text
  ++ "  rationale=" ++ rationale.

(** ** Reports *)

(** The line of a domain in a snapshot. *)
Definition render_domain (d : DomainRecord) : string :=
  "  domain " ++ id_to_string (d_id d) ++ " name=" ++ d_name d ++ " generation=" ++ pretty (d_generation d)
  ++ " lifecycle=" ++ lookup_token (d_lifecycle d) ++ " created_epoch=" ++ id_to_string (d_created_epoch d)
  ++ " current_epoch=" ++ id_to_string (d_current_epoch d) ++ newline_text.
Definition indented (s : string) : string := "  " ++ s ++ newline_text.

(** The first two lines of a snapshot. *)
Definition snapshot_head (s : CoherenceSnapshot) : string :=
  "coherence_snapshot build=" ++ quoted (sn_build s) ++ " epoch=" ++ id_to_string (sn_epoch s)
  ++ " sequence=" ++ id_to_string (sn_sequence s) ++ " shutting_down=" ++ yes_no (sn_shutting_down s) ++ newline_text
  ++ "domains=" ++ count_of (sn_domains s) ++ " participants=" ++ count_of (sn_participants s)
  ++ " objects=" ++ count_of (sn_objects s) ++ " regions=" ++ count_of (sn_regions s)
  ++ " invalidations=" ++ count_of (sn_invalidations s) ++ " syncs=" ++ count_of (sn_syncs s) ++ newline_text.

(** [CoherenceSnapshot::render]. *)
Definition render_snapshot (s : CoherenceSnapshot) : string :=
  snapshot_head s ++ concat_map render_domain (sn_domains s)
  ++ concat_map (λ p, indented (render_participant p)) (sn_participants s)
  ++ concat_map (λ o, indented (render_object o)) (sn_objects s)
  ++ concat_map (λ r, indented (render_region r)) (sn_regions s)
  ++ concat_map (λ i, indented (render_invalidation i)) (sn_invalidations s)
  ++ concat_map (λ y, indented (render_sync y)) (sn_syncs s).

(** [AuditReport::render], for the details of the findings. *)
Definition render_finding (f : AuditFinding) (detail : string) : string :=
  "  violation code=" ++ status_code_name (af_code f) ++ " object=" ++ id_to_string (af_object f)
  ++ " region=" ++ id_to_string (af_region f) ++ " participant=" ++ id_to_string (af_participant f)
  ++ " detail=" ++ detail ++ newline_text.
Definition render_audit (r : AuditReport) (details : list string) : string :=
  "invariant_audit result=" ++ (if ar_clean r then "clean" else "violations") ++ " violations=" ++ count_of (ar_findings r)
  ++ " epoch=" ++ id_to_string (ar_epoch r) ++ " sequence=" ++ id_to_string (ar_sequence r) ++ newline_text
  ++ "  checked objects=" ++ pretty (ar_objects_checked r) ++ " regions=" ++ pretty (ar_regions_checked r)
  ++ " participants=" ++ pretty (ar_participants_checked r) ++ " invalidations=" ++ pretty (ar_invalidations_checked r)
  ++ " synchronizations=" ++ pretty (ar_syncs_checked r) ++ newline_text
  ++ concat_map id (zip_with render_finding (ar_findings r) details).

(** [RecoveryReport::render], for the texts of the notes. *)
Definition render_recovery (r : RecoveryReport) (notes : list string) : string :=
  "recovery performed=" ++ yes_no (rep_performed r) ++ " previous_epoch=" ++ id_to_string (rep_previous_epoch r)
  ++ " new_epoch=" ++ id_to_string (rep_new_epoch r) ++ newline_text
  ++ "  domains_restored=" ++ pretty (rep_objects_restored r) ++ " participants_restored=" ++ pretty (rep_participants_restored r)
  ++ " regions_restored=" ++ pretty (rep_regions_restored r) ++ newline_text
  ++ "  regions_downgraded=" ++ pretty (rep_regions_downgraded r) ++ " authority_revoked=" ++ pretty (rep_authority_revoked r)
  ++ " publications_completed=" ++ pretty (rep_publications_completed r)
  ++ " publications_requiring_operator=" ++ pretty (rep_publications_requiring_operator r) ++ newline_text
  ++ "  syncs_classified_unknown=" ++ pretty (rep_syncs_classified_unknown r)
  ++ " invalidations_superseded=" ++ pretty (rep_invalidations_superseded r)
  ++ " journal_records_replayed=" ++ pretty (rep_journal_records_replayed r)
  ++ " corrupt_records_skipped=" ++ pretty (rep_corrupt_records_skipped r) ++ newline_text
  ++ concat_map (λ note, "  note=" ++ note ++ newline_text) notes.

(** [render_decision_log_locked], for the summaries of the decisions. *)
Definition render_decision (d : DecisionRecord) (summary : string) : string :=
  let c := dl_context d in
  "  decision=" ++ id_to_string (dc_decision c) ++ " kind=" ++ lookup_token (dl_kind d)
  ++ " code=" ++ status_code_name (dl_code d) ++ " epoch=" ++ id_to_string (dc_epoch c)
  ++ " object=" ++ id_to_string (dc_object c) ++ " ownership_generation=" ++ id_to_string (dc_ownership_generation c)
  ++ " policy_generation=" ++ id_to_string (dc_policy_generation c) ++ " summary=" ++ summary ++ newline_text.
Definition render_decision_log (log : list DecisionRecord) (recorded : N) (summaries : list string) : string :=
  "decision_log entries=" ++ count_of log ++ " total_recorded=" ++ pretty recorded ++ newline_text
  ++ concat_map id (zip_with render_decision log summaries).

(** [Coordinator::render_status]; the address, the port and the state directory
    are not part of the coordinator's model. *)
Definition render_status {St} (build bind : string) (port : N) (directory : string) (notes : list string) (c : Coordinator St) : string :=
  "coordinator build=" ++ quoted build ++ newline_text
  ++ "  port=" ++ pretty port ++ " bind=" ++ bind ++ " domain=" ++ id_to_string (co_domain c)
  ++ " name=" ++ co_domain_name (co_options c) ++ newline_text
  ++ "  durable_state=" ++ (if decide (directory = "") then "ephemeral" else directory) ++ newline_text
  ++ "  epoch=" ++ id_to_string (epoch (co_engine c)) ++ " sequence=" ++ id_to_string (sequence (co_engine c))
  ++ " sessions=" ++ pretty (map_count (co_sessions c)) ++ " accepted=" ++ pretty (co_accepted c)
  ++ " rejected=" ++ pretty (co_rejected c) ++ newline_text
  ++ (if rep_performed (co_recovery c) then render_recovery (co_recovery c) notes else "").

(** What [succeed] prints of the answers whose text has no prose. *)
Definition rendering_text (what : Rendering) : option string :=
  match what with
  | TDirtyCondition d => Some ("dirty_condition=" ++ lookup_token d)
  | TSnapshot s => Some (render_snapshot s)
  | TPolicy (success p) => Some (render_policy p)
  | TParticipants l => Some (concat_map (λ p, render_participant p ++ newline_text) l)
  | TObjects l => Some (concat_map (λ o, render_object o ++ newline_text) l)
  | TRegions l => Some (concat_map (λ r, render_region r ++ newline_text) l)
  | TShutdown => Some "shutdown initiated: authority revoked and pending work settled"
  | _ => None
  end.

(** The words of an answer whose text has no prose. *)
Definition reply_words (r : Reply) : string :=
  match r with ReplyText what => default "" (rendering_text what) | _ => "" end.

(** ** Journal entries *)

(** [to_token] of a [JournalEntryKind]. *)
Definition journal_token (p : JournalPayload) : string :=
  match p with
  | Invalid => "invalid"
  | Snapshot => "snapshot"
  | UpsertDomain _ => "upsert_domain"
  | UpsertParticipant _ => "upsert_participant"
  | UpsertObject _ => "upsert_object"
  | UpsertRegion _ => "upsert_region"
  | UpsertInvalidation _ => "upsert_invalidation"
  | UpsertSync _ => "upsert_sync"
  | UpsertPolicy _ => "upsert_policy"
  | SetPendingPublication _ => "set_pending_publication"
  | ClearPendingPublication _ => "clear_pending_publication"
  | RemoveObject _ => "remove_object"
  | RemoveRegion _ => "remove_region"
  | RemoveSync _ => "remove_sync"
  | RemoveParticipant _ => "remove_participant"
  | SetEpoch _ => "set_epoch"
  end.
(** [JournalEntry::describe]. *)
Definition describe_payload (p : JournalPayload) : string :=
  match p with
  | UpsertDomain d => append_id "domain" (d_id d)
  | UpsertParticipant r => append_id "participant" (p_id r)
  | UpsertObject o => append_id "object" (o_id o) ++ append_id "version" (o_authoritative_version o)
  | UpsertRegion r => append_id "region" (r_id r)
  | UpsertInvalidation i => append_id "invalidation" (i_id i)
  | UpsertSync y => append_id "sync" (y_id y)
  | UpsertPolicy q => append_id "policy" (pol_id q)
  | SetPendingPublication q => append_id "publication" (pp_id q)
  | ClearPendingPublication i | RemoveObject i => append_id "object" i
  | RemoveRegion i => append_id "region" i
  | RemoveSync i => append_id "sync" i
  | RemoveParticipant i => append_id "participant" i
  | SetEpoch e => append_id "epoch" e
  | Snapshot | Invalid => ""
  end.
Definition describe_entry (e : JournalEntry) : string :=
  "journal_sequence=" ++ pretty (j_sequence e) ++ " kind=" ++ journal_token (j_payload e) ++ describe_payload (j_payload e).
