(* ===== verification/Accelerator.v ===== *)
(** * The accelerator adapter ([adapters/cuda_memory.hpp], [adapters/cuda_memory.cpp])

    Device buffers, the capability probe and the mutation of a buffer, on the
    device and on the host.  The vendor's runtime is an interface, [CudaRuntime],
    with what its documentation says of it as [CudaLaws]; the kernel of
    [adapters/cuda_probe_kernel.cu] is modelled thread by thread, and the runtime
    may run the threads of a grid in any order. *)
From Stdlib Require Import Strings.Byte Strings.String.
From S2P Require Import Prelude Status Bytes Serialize Regions Text Render.

#[local] Set Primitive Projections.

(** [CudaDeviceInfo]. *)
Record CudaDeviceInfo := mkCudaDeviceInfo {
  cd_index : Z;
  cd_name : string;
  cd_compute_major : Z;
  cd_compute_minor : Z;
  cd_total_memory : N;
  cd_unified_addressing : bool }.
(** [CudaCapability], less its reason, which is prose. *)
Record CudaCapability := mkCudaCapability {
  cc_available : bool;
  cc_toolkit : string;
  cc_driver_version : Z;
  cc_runtime_version : Z;
  cc_devices : list CudaDeviceInfo }.
(** [CudaBuffer]; the null pointer is zero. *)
Record CudaBuffer := mkCudaBuffer { cb_pointer : N; cb_address : N; cb_bytes : N; cb_device : Z }.

#[local] Unset Primitive Projections.

Definition default_CudaCapability : CudaCapability := mkCudaCapability false "" 0 0 [].
Definition default_CudaBuffer : CudaBuffer := mkCudaBuffer 0 0 0 0.

(** ** The transform *)

(** One byte of [reference_mutation]. *)
Definition reference_byte (seed delta : N) (index : nat) (b : byte) : byte :=
  let key := N.land (N.shiftr seed (8 * N.of_nat (index mod 8))) 0xFF in
  let mixed := N.lxor (N.lxor (Byte.to_N b) key) (N.land (N.of_nat index) 0xFF) in
  to_byte (mixed + N.land delta 0xFF).
(** The loop, from a position on. *)
Fixpoint reference_loop (seed delta : N) (index : nat) (bytes : list byte) : list byte :=
  match bytes with
  | [] => []
  | b :: rest => reference_byte seed delta index b :: reference_loop seed delta (S index) rest
  end.
(** [reference_mutation]. *)
Definition reference_mutation (seed delta : N) (bytes : list byte) : list byte := reference_loop seed delta 0 bytes.

(** A thread of a grid: its block and its place in the block. *)
Definition Thread : Type := N * N.
(** [cf_mutate_kernel] of one thread, in blocks of [dim] threads; an access
    outside the allocation is undefined. *)
Definition cf_mutate_kernel (len seed delta dim : N) (t : Thread) (data : list byte) : option (list byte) :=
  let index := (t.1 * dim + t.2)%N in
  if (len <=? index)%N then Some data else
  match data !! N.to_nat index with
  | None => None
  | Some b =>
      let key := N.land (N.shiftr seed (8 * (index mod 8))) 0xFF in
      let mixed := N.lxor (N.lxor (Byte.to_N b) key) (N.land index 0xFF) in
      Some (<[N.to_nat index := to_byte (mixed + N.land delta 0xFF)]> data)
  end.

(** The threads of a grid, and the run of a kernel by threads in an order. *)
Definition grid (blocks dim : N) : list Thread :=
  b ← seq 0 (N.to_nat blocks); t ← seq 0 (N.to_nat dim); [(N.of_nat b, N.of_nat t)].
Fixpoint run_threads (kernel : Thread → list byte → option (list byte)) (order : list Thread) (data : list byte) : option (list byte) :=
  match order with
  | [] => Some data
  | t :: order => match kernel t data with Some data => run_threads kernel order data | None => None end
  end.

(** ** The vendor's runtime *)

(** The calls the adapter makes.  [device_memory] is the allocation at a pointer. *)
Class CudaRuntime (D : Type) := {
  device_memory : D → N → option (list byte);
  cudaSetDevice : Z → D → D * bool;
  cudaMalloc : N → D → D * option N;
  cudaFree : N → D → D;
  cudaMemcpyHostToDevice : N → list byte → D → D * bool;
  cudaMemcpyDeviceToHost : N → N → D → D * option (list byte);
  cudaStreamSynchronize : D → D * bool;
  cudaDeviceSynchronize : D → D * bool;
  cudaLaunch : N → N → N → (Thread → list byte → option (list byte)) → D → D * Z;
  cudaMemGetInfo : D → option (N * N) }.

(** What the runtime documents: an allocation is new memory of the size asked
    for; a copy that was made and synchronized has moved the bytes; a launch
    needs a block, and one that was accepted and synchronized has run every thread of
    the grid once, in some order. *)
Class CudaLaws (D : Type) `{CudaRuntime D} : Prop := {
  malloc_law n d d' ptr : cudaMalloc n d = (d', Some ptr) →
    ptr ≠ 0%N ∧ ∃ data, device_memory d' ptr = Some data ∧ N.of_nat (length data) = n;
  upload_law ptr bytes old d d1 d2 :
    device_memory d ptr = Some old → length old = length bytes →
    cudaMemcpyHostToDevice ptr bytes d = (d1, true) → cudaStreamSynchronize d1 = (d2, true) →
    device_memory d2 ptr = Some bytes;
  download_law ptr n bytes data d d1 :
    device_memory d ptr = Some data → N.of_nat (length data) = n →
    cudaMemcpyDeviceToHost ptr n d = (d1, Some bytes) → bytes = data;
  empty_grid_law ptr dim kernel d : (cudaLaunch ptr 0 dim kernel d).2 ≠ 0%Z;
  launch_law ptr blocks dim kernel data d d1 d2 :
    device_memory d ptr = Some data →
    cudaLaunch ptr blocks dim kernel d = (d1, 0%Z) → cudaStreamSynchronize d1 = (d2, true) →
    ∃ order, order ≡ₚ grid blocks dim ∧
      ∀ data', run_threads kernel order data = Some data' → device_memory d2 ptr = Some data' }.

(** ** The adapter *)

Section adapter.
Context {D : Type} `{CudaRuntime D}.

(** What the probing calls report: the count of devices, when there is one, the
    versions, and the properties of each device that has them. *)
Record Platform := mkPlatform {
  pf_device_count : option Z;
  pf_runtime_version : Z;
  pf_driver_version : Z;
  pf_properties : Z → option CudaDeviceInfo }.

(** [probe_once]. *)
Definition toolkit_name (runtime_version : Z) : string :=
  "cuda-runtime-" +:+ pretty (runtime_version ÷ 1000)%Z +:+ "." +:+ pretty (Z.rem runtime_version 1000 ÷ 10)%Z.
Definition probe_once (pf : Platform) : CudaCapability :=
  match pf_device_count pf with
  | None => default_CudaCapability
  | Some count =>
      if (count <=? 0)%Z then default_CudaCapability else
      let devices := omap (λ i, (λ info, mkCudaDeviceInfo (Z.of_nat i) (cd_name info) (cd_compute_major info) (cd_compute_minor info)
                                           (cd_total_memory info) (cd_unified_addressing info)) <$> pf_properties pf (Z.of_nat i))
                          (seq 0 (Z.to_nat count)) in
      mkCudaCapability (negb (bool_decide (devices = []))) (toolkit_name (pf_runtime_version pf)) (pf_driver_version pf)
        (pf_runtime_version pf) devices
  end.

(** The adapter's state: the probed capability, once there is one, and the devices. *)
Record Accelerator := mkAccelerator { ac_capability : option CudaCapability; ac_devices : D }.
Definition on_devices (ac : Accelerator) (d : D) : Accelerator := mkAccelerator (ac_capability ac) d.

(** [probe_cuda]: the platform is probed once. *)
Definition probe_cuda (pf : Platform) (ac : Accelerator) : Accelerator * CudaCapability :=
  match ac_capability ac with
  | Some capability => (ac, capability)
  | None => let capability := probe_once pf in (mkAccelerator (Some capability) (ac_devices ac), capability)
  end.

(** [CudaCapability::render]; [reason] is prose. *)
Definition render_device (d : CudaDeviceInfo) : string :=
  "  device " +:+ pretty (cd_index d) +:+ " name=" +:+ cd_name d +:+ " compute=" +:+ pretty (cd_compute_major d) +:+ "."
  +:+ pretty (cd_compute_minor d) +:+ " memory=" +:+ pretty (cd_total_memory d)
  +:+ " unified_addressing=" +:+ yes_no (cd_unified_addressing d) +:+ newline_text.
Definition render_capability (reason : string) (c : CudaCapability) : string :=
  "cuda available=" +:+ yes_no (cc_available c) +:+
  (if cc_available c then
     " toolkit=" +:+ cc_toolkit c +:+ " driver=" +:+ pretty (cc_driver_version c) +:+ " runtime=" +:+ pretty (cc_runtime_version c)
     +:+ newline_text +:+ concat_map render_device (cc_devices c)
   else " reason=" +:+ reason).

(** [CudaBuffer::valid]. *)
Definition buffer_valid (b : CudaBuffer) : bool := negb (cb_pointer b =? 0)%N.

(** [CudaBuffer::release]. *)
Definition release_buffer (b : CudaBuffer) (ac : Accelerator) : Accelerator * CudaBuffer :=
  (if buffer_valid b then on_devices ac (cudaFree (cb_pointer b) (ac_devices ac)) else ac,
   mkCudaBuffer 0 0 0 (cb_device b)).
(** The move assignment of two buffers that are not one: the target, and what is
    left of the source. *)
Definition move_buffer (target source : CudaBuffer) (ac : Accelerator) : Accelerator * CudaBuffer * CudaBuffer :=
  ((release_buffer target ac).1, source, mkCudaBuffer 0 0 0 (cb_device source)).

(** [CudaBuffer::allocate]. *)
Definition allocate (pf : Platform) (bytes : N) (device_index : Z) (ac : Accelerator) : Accelerator * result CudaBuffer :=
  if (bytes =? 0)%N then (ac, failure StatusCode.InvalidArgument) else
  let '(ac, capability) := probe_cuda pf ac in
  if negb (cc_available capability) then (ac, failure StatusCode.Unsupported) else
  let '(d, selected) := cudaSetDevice device_index (ac_devices ac) in
  let ac := on_devices ac d in
  if negb selected then (ac, failure StatusCode.TransportFailure) else
  match cudaMalloc bytes (ac_devices ac) with
  | (d, None) => (on_devices ac d, failure StatusCode.TransportFailure)
  | (d, Some pointer) => (on_devices ac d, success (mkCudaBuffer pointer pointer bytes device_index))
  end.

(** [cuda_status] of a call that returns only a status. *)
Definition cuda_status (ac : Accelerator) (call : D * bool) : Accelerator * StatusCode.t :=
  (on_devices ac call.1, if call.2 then StatusCode.Ok else StatusCode.TransportFailure).

(** [CudaBuffer::synchronize]. *)
Definition synchronize (b : CudaBuffer) (ac : Accelerator) : Accelerator * StatusCode.t :=
  if negb (buffer_valid b) then (ac, StatusCode.InvalidState) else cuda_status ac (cudaDeviceSynchronize (ac_devices ac)).

(** [CudaBuffer::upload]. *)
Definition upload (host : list byte) (b : CudaBuffer) (ac : Accelerator) : Accelerator * StatusCode.t :=
  if negb (buffer_valid b) then (ac, StatusCode.InvalidState) else
  if negb (N.of_nat (length host) =? cb_bytes b)%N then (ac, StatusCode.InvalidArgument) else
  let '(ac, copied) := cuda_status ac (cudaMemcpyHostToDevice (cb_pointer b) host (ac_devices ac)) in
  if negb (ok copied) then (ac, copied) else cuda_status ac (cudaStreamSynchronize (ac_devices ac)).

(** [CudaBuffer::download]. *)
Definition download (b : CudaBuffer) (ac : Accelerator) : Accelerator * result (list byte) :=
  if negb (buffer_valid b) then (ac, failure StatusCode.InvalidState) else
  match cudaMemcpyDeviceToHost (cb_pointer b) (cb_bytes b) (ac_devices ac) with
  | (d, None) => (on_devices ac d, failure StatusCode.TransportFailure)
  | (d, Some host) =>
      let '(ac, synced) := cuda_status ac (cudaStreamSynchronize d) in
      (ac, if ok synced then success host else failure synced)
  end.

(** [CudaBuffer::fill]. *)
Definition fill_buffer (seed : N) (b : CudaBuffer) (ac : Accelerator) : Accelerator * StatusCode.t :=
  if negb (buffer_valid b) then (ac, StatusCode.InvalidState) else upload (make_pattern (cb_bytes b) seed) b ac.

(** [cf_cuda_launch_mutation]: what it returns, zero for a launch. *)
Definition launch_threads : N := 256.
Definition cf_cuda_launch_mutation (pointer len seed delta : N) (d : D) : D * Z :=
  if (pointer =? 0)%N || (len =? 0)%N then (d, 1%Z) else
  let blocks := ((len + launch_threads - 1) mod two64 / launch_threads)%N in
  if (0x7FFFFFFF <? blocks)%N then (d, 2%Z) else
  cudaLaunch pointer blocks launch_threads (cf_mutate_kernel len seed delta launch_threads) d.

(** [CudaBuffer::mutate]. *)
Definition mutate (seed delta : N) (b : CudaBuffer) (ac : Accelerator) : Accelerator * StatusCode.t :=
  if negb (buffer_valid b) then (ac, StatusCode.InvalidState) else
  let '(d, launched) := cf_cuda_launch_mutation (cb_pointer b) (cb_bytes b) seed delta (ac_devices ac) in
  if negb (launched =? 0)%Z then (on_devices ac d, StatusCode.InternalError) else
  let '(d, synchronized) := cudaStreamSynchronize d in
  (on_devices ac d, if synchronized then StatusCode.Ok else StatusCode.InternalError).

(** [cuda_memory_info]. *)
Definition cuda_memory_info (pf : Platform) (device_index : Z) (ac : Accelerator) : Accelerator * result (N * N) :=
  let '(ac, capability) := probe_cuda pf ac in
  if negb (cc_available capability) then (ac, failure StatusCode.Unsupported) else
  let ac := on_devices ac (cudaSetDevice device_index (ac_devices ac)).1 in
  (ac, match cudaMemGetInfo (ac_devices ac) with Some info => success info | None => failure StatusCode.TransportFailure end).

End adapter.
Arguments Accelerator : clear implicits.

(** ** Threads in any order *)

Definition thread_index (t : Thread) : N := (t.1 * launch_threads + t.2)%N.

Lemma seq_blocks (b n : nat) : seq 0 (b * n) = seq 0 b ≫= λ k, (λ t, k * n + t) <$> seq 0 n.
Proof.
  induction b as [|b IH]; [done|]. rewrite seq_S, bind_app, <-IH. cbn [mbind list_bind]. rewrite app_nil_r, fmap_add_seq.
  replace (S b * n) with (b * n + n) by lia. rewrite seq_app. do 2 f_equal. lia.
Qed.
Lemma map_bind {A B C} (f : B → C) (g : A → list B) (l : list A) : f <$> (l ≫= g) = l ≫= λ a, f <$> g a.
Proof. induction l as [|a l IH]; [done|]. by rewrite !bind_cons, fmap_app, IH. Qed.
Lemma bind_ext {A B} (f g : A → list B) (l : list A) : (∀ a, f a = g a) → l ≫= f = l ≫= g.
Proof. intros E. induction l as [|a l IH]; [done|]. by rewrite !bind_cons, E, IH. Qed.
Lemma bind_single {A B} (f : A → B) (l : list A) : l ≫= (λ a, [f a]) = f <$> l.
Proof. induction l as [|a l IH]; [done|]. by rewrite bind_cons, IH. Qed.
Lemma grid_indices blocks : thread_index <$> grid blocks launch_threads = N.of_nat <$> seq 0 (N.to_nat blocks * 256).
Proof.
  rewrite seq_blocks. unfold grid. change (N.to_nat launch_threads) with 256. rewrite !map_bind.
  apply bind_ext. intros k. rewrite bind_single, <-!list_fmap_compose. apply list_fmap_ext. intros i t _.
  unfold compose, thread_index, launch_threads. cbn [fst snd]. lia.
Qed.
Lemma grid_nodup blocks : NoDup (thread_index <$> grid blocks launch_threads).
Proof. rewrite grid_indices. apply (NoDup_fmap_2 N.of_nat), NoDup_seq. Qed.

(** What a thread does to the byte it is for. *)
Lemma kernel_byte len seed delta t data b :
  (thread_index t < len)%N → data !! N.to_nat (thread_index t) = Some b →
  cf_mutate_kernel len seed delta launch_threads t data =
    Some (<[N.to_nat (thread_index t) := reference_byte seed delta (N.to_nat (thread_index t)) b]> data).
Proof.
  intros Hlt Hb. unfold cf_mutate_kernel. fold (thread_index t). destruct (N.leb_spec len (thread_index t)); [lia|].
  rewrite Hb. do 2 f_equal. unfold reference_byte. by rewrite Nat2N.inj_mod, !N2Nat.id.
Qed.

(** The threads of an order, each with an index of its own, change each the byte
    of their index and nothing else. *)
Lemma threads_commute len seed delta order data :
  N.of_nat (length data) = len → NoDup (thread_index <$> order) →
  ∃ data', run_threads (cf_mutate_kernel len seed delta launch_threads) order data = Some data' ∧
    ∀ i, data' !! i = (if decide (N.of_nat i ∈ thread_index <$> order) then reference_byte seed delta i else id) <$> data !! i.
Proof.
  intros Hlen. revert data Hlen. induction order as [|t order IH]; intros data Hlen Hnd; cbn [run_threads].
  { exists data. split; [done|]. intros i. rewrite decide_False by set_solver. by destruct (data !! i). }
  rewrite fmap_cons in Hnd. apply NoDup_cons in Hnd as [Hnew Hnd]. destruct (N.lt_ge_cases (thread_index t) len) as [Hlt|Hge].
  - destruct (lookup_lt_is_Some_2 data (N.to_nat (thread_index t))) as [b Hb]; [lia|]. rewrite (kernel_byte _ _ _ _ _ b Hlt Hb).
    edestruct (IH (<[N.to_nat (thread_index t) := reference_byte seed delta (N.to_nat (thread_index t)) b]> data)) as (data' & E & Hd);
      [by rewrite length_insert|done|].
    exists data'. split; [done|]. intros i. rewrite Hd. destruct (decide (N.of_nat i = thread_index t)) as [Hi|Hi].
    + rewrite (decide_True (P := _ ∈ thread_index <$> t :: order)) by (rewrite Hi, fmap_cons; set_solver).
      rewrite decide_False by (by rewrite Hi). replace i with (N.to_nat (thread_index t)) by lia.
      rewrite list_lookup_insert_eq by lia. by rewrite Hb.
    + rewrite list_lookup_insert_ne by lia. rewrite fmap_cons. f_equal.
      destruct (decide (N.of_nat i ∈ thread_index <$> order)); [rewrite decide_True by set_solver|rewrite decide_False by set_solver]; done.
  - unfold cf_mutate_kernel at 1. fold (thread_index t). destruct (N.leb_spec len (thread_index t)); [|lia].
    destruct (IH data Hlen Hnd) as (data' & E & Hd). exists data'. split; [done|]. intros i. rewrite Hd.
    destruct (decide (i < length data)) as [Hi|Hi]; [|by rewrite lookup_ge_None_2 by lia].
    rewrite fmap_cons. f_equal.
    destruct (decide (N.of_nat i ∈ thread_index <$> order)); [rewrite decide_True by set_solver; done|].
    rewrite decide_False; [done|]. rewrite elem_of_cons. intros [|]; [lia|done].
Qed.

Lemma reference_loop_lookup seed delta k bytes i :
  reference_loop seed delta k bytes !! i = reference_byte seed delta (k + i) <$> bytes !! i.
Proof.
  revert k i. induction bytes as [|b l IH]; intros k i; [by rewrite !lookup_nil|]. destruct i as [|i]; cbn [reference_loop].
  - by rewrite Nat.add_0_r.
  - change (reference_loop seed delta (S k) l !! i = reference_byte seed delta (k + S i) <$> l !! i).
    rewrite (IH (S k) i). do 2 f_equal. lia.
Qed.

Lemma length_reference_loop seed delta k bytes : length (reference_loop seed delta k bytes) = length bytes.
Proof. revert k. induction bytes as [|b l IH]; intros k; [done|]. cbn. by rewrite IH. Qed.

(** Whatever the order of its threads, a grid that has a thread for every byte
    computes the reference transform. *)
Lemma grid_computes_reference blocks seed delta order data :
  (N.of_nat (length data) <= blocks * launch_threads)%N → order ≡ₚ grid blocks launch_threads →
  run_threads (cf_mutate_kernel (N.of_nat (length data)) seed delta launch_threads) order data = Some (reference_mutation seed delta data).
Proof.
  intros Hb Hp. edestruct (threads_commute (N.of_nat (length data)) seed delta order data) as (data' & E & Hd); [done| |].
  { rewrite Hp. apply grid_nodup. }
  rewrite E. f_equal. apply list_eq. intros i. rewrite Hd. unfold reference_mutation. rewrite reference_loop_lookup.
  destruct (decide (i < length data)) as [Hi|Hi]; [|by rewrite lookup_ge_None_2 by lia]. f_equal.
  rewrite decide_True; [done|]. rewrite Hp, grid_indices. apply list_elem_of_fmap. exists i. split; [done|].
  apply elem_of_seq. unfold launch_threads in Hb. lia.
Qed.

(** ** Parity *)

Section parity.
Context {D : Type} `{CudaLaws D}.
#[local] Notation Ac := (Accelerator D).

(** The buffer is an allocation of its size. *)
Definition holds (b : CudaBuffer) (data : list byte) (ac : Ac) : Prop :=
  cb_pointer b ≠ 0%N ∧ device_memory (ac_devices ac) (cb_pointer b) = Some data ∧ N.of_nat (length data) = cb_bytes b.

Lemma allocate_holds pf bytes index (ac ac' : Ac) b :
  allocate pf bytes index ac = (ac', success b) → ∃ data, holds b data ac' ∧ cb_bytes b = bytes.
Proof.
  unfold allocate. destruct (bytes =? 0)%N; [done|]. destruct (probe_cuda pf ac) as [ac0 c]. destruct (cc_available c); [|done].
  cbn [negb]. destruct (cudaSetDevice index (ac_devices ac0)) as [d selected]. destruct selected; [|done]. cbn [negb].
  destruct (cudaMalloc bytes (ac_devices (on_devices ac0 d))) as [d' [ptr|]] eqn:E; [|done].
  intros [= <- <-]. destruct (malloc_law _ _ _ _ E) as (Hp & data & Hm & Hl). by exists data.
Qed.
Lemma upload_holds host data b (ac ac' : Ac) :
  holds b data ac → upload host b ac = (ac', StatusCode.Ok) → holds b host ac'.
Proof.
  intros (Hp & Hm & Hl). unfold upload, buffer_valid. apply N.eqb_neq in Hp as Hp'. rewrite Hp'. cbn [negb].
  destruct (N.eqb_spec (N.of_nat (length host)) (cb_bytes b)) as [Hh|]; [|done]. cbn [negb]. unfold cuda_status.
  destruct (cudaMemcpyHostToDevice _ _ _) as [d1 c1] eqn:E1. cbn. destruct c1; [|done]. cbn.
  destruct (cudaStreamSynchronize d1) as [d2 c2] eqn:E2. cbn. destruct c2; [|done]. intros [= <-].
  split_and!; [done| |done]. cbn. eapply upload_law; [done| |done..]. lia.
Qed.
Lemma download_returns data b (ac ac' : Ac) out :
  holds b data ac → download b ac = (ac', success out) → out = data.
Proof.
  intros (Hp & Hm & Hl). unfold download, buffer_valid. apply N.eqb_neq in Hp as Hp'. rewrite Hp'. cbn [negb].
  destruct (cudaMemcpyDeviceToHost _ _ _) as [d1 [host|]] eqn:E1; [|done]. unfold cuda_status.
  destruct (cudaStreamSynchronize d1) as [d2 []]; cbn; [|done]. intros [= <- <-]. by eapply download_law.
Qed.

(** Enough blocks are launched, or none. *)
Lemma blocks_cover (len : N) :
  (len < two64)%N → let blocks := ((len + launch_threads - 1) mod two64 / launch_threads)%N in
  blocks = 0%N ∨ (len <= blocks * launch_threads)%N.
Proof.
  intros Hl. unfold launch_threads. cbv zeta. destruct (N.lt_ge_cases (len + 256 - 1) two64) as [Hs|Hs].
  - rewrite N.mod_small by done. right. pose proof (N.div_mod (len + 256 - 1) 256). pose proof (N.mod_lt (len + 256 - 1) 256). lia.
  - left. apply N.div_small. replace (len + 256 - 1)%N with ((len + 256 - 1 - two64) + 1 * two64)%N by lia.
    rewrite N.Div0.mod_add. eapply N.le_lt_trans; [apply N.Div0.mod_le|]. unfold two64 in *. lia.
Qed.
Lemma mutate_holds seed delta data b (ac ac' : Ac) :
  (cb_bytes b < two64)%N → holds b data ac → mutate seed delta b ac = (ac', StatusCode.Ok) →
  holds b (reference_mutation seed delta data) ac'.
Proof.
  intros Hb (Hp & Hm & Hl). unfold mutate, buffer_valid. apply N.eqb_neq in Hp as Hp'. rewrite Hp'. cbn [negb].
  unfold cf_cuda_launch_mutation. rewrite Hp'. destruct (N.eqb_spec (cb_bytes b) 0) as [Hz|Hz]; [done|]. cbn [orb].
  destruct (blocks_cover (cb_bytes b) Hb) as [Hc|Hc]; cbv zeta in Hc; revert Hc;
    generalize ((cb_bytes b + launch_threads - 1) mod two64 / launch_threads)%N; intros blocks Hc.
  { subst blocks. change (0x7FFFFFFF <? 0)%N with false. cbv iota.
    pose proof (empty_grid_law (cb_pointer b) launch_threads (cf_mutate_kernel (cb_bytes b) seed delta launch_threads) (ac_devices ac)) as Hne.
    destruct (cudaLaunch _ _ _ _ _) as [d1 launched]. cbn in Hne. destruct (Z.eqb_spec launched 0); done. }
  destruct (0x7FFFFFFF <? blocks)%N; [done|].
  destruct (cudaLaunch _ _ _ _ _) as [d1 launched] eqn:E1. destruct (Z.eqb_spec launched 0) as [->|]; [|done]. cbn [negb].
  destruct (cudaStreamSynchronize d1) as [d2 []] eqn:E2; [|done]. intros [= <-].
  destruct (launch_law _ _ _ _ _ _ _ _ Hm E1 E2) as (order & Ho & Hd). split_and!; [done| |].
  - cbn. apply Hd. rewrite <-Hl. apply (grid_computes_reference blocks); [by rewrite Hl|done].
  - rewrite <-Hl. f_equal. apply length_reference_loop.
Qed.

(** The device computes the host's transform.  For every runtime that keeps
    its documented promises, whatever the order in which it runs the threads of
    a grid: bytes that were uploaded into an allocation, mutated there and
    downloaded again, each call having returned success, are exactly what
    [reference_mutation] makes of them. *)
Theorem device_mutation_is_the_reference pf n index host seed delta (ac ac1 ac2 ac3 ac4 : Ac) b out :
  (n < two64)%N →
  allocate pf n index ac = (ac1, success b) → upload host b ac1 = (ac2, StatusCode.Ok) →
  mutate seed delta b ac2 = (ac3, StatusCode.Ok) → download b ac3 = (ac4, success out) →
  out = reference_mutation seed delta host.
Proof.
  intros Hn Ea Eu Em Ed. destruct (allocate_holds _ _ _ _ _ _ Ea) as (data & Hd & Hb).
  eapply download_returns, Ed. eapply mutate_holds; [by rewrite Hb| |exact Em]. by eapply upload_holds.
Qed.

End parity.

(** ** A device *)

(** A runtime: allocations by pointer and the pointer of the next one.  Its
    threads run from the last to the first. *)
Definition Device : Type := gmap N (list byte) * N.
#[export] Instance one_device : CudaRuntime Device := {|
  device_memory d ptr := d.1 !! ptr;
  cudaSetDevice i d := (d, (i =? 0)%Z);
  cudaMalloc n d := ((<[(d.2 + 1)%N := replicate (N.to_nat n) x00]> d.1, (d.2 + 1 + n)%N), Some (d.2 + 1)%N);
  cudaFree ptr d := (delete ptr d.1, d.2);
  cudaMemcpyHostToDevice ptr bytes d := ((<[ptr := bytes]> d.1, d.2), true);
  cudaMemcpyDeviceToHost ptr n d := (d, d.1 !! ptr);
  cudaStreamSynchronize d := (d, true);
  cudaDeviceSynchronize d := (d, true);
  cudaLaunch ptr blocks dim kernel d :=
    if (blocks =? 0)%N then (d, 9%Z) else
    match d.1 !! ptr with
    | Some data =>
        match run_threads kernel (rev (grid blocks dim)) data with Some data => ((<[ptr := data]> d.1, d.2), 0%Z) | None => (d, 700%Z) end
    | None => (d, 1%Z)
    end;
  cudaMemGetInfo d := Some (0, 0)%N |}.
#[export] Instance one_device_laws : CudaLaws Device.
Proof.
  split.
  - intros n [m next] d' ptr [= <- <-]. split; [lia|]. eexists. cbn. rewrite lookup_insert_eq. split; [done|]. rewrite length_replicate. lia.
  - intros ptr bytes old [m next] d1 d2 _ _ [= <-] [= <-]. cbn. apply lookup_insert_eq.
  - intros ptr n bytes data [m next] d1 Hm _ [= _ Hb]. cbn in *. congruence.
  - done.
  - intros ptr blocks dim kernel data [m next] d1 d2 Hm. cbn in *. rewrite Hm. destruct (blocks =? 0)%N; [done|].
    destruct (run_threads kernel (rev (grid blocks dim)) data) as [data'|] eqn:E; [|done]. intros [= <-] [= <-].
    exists (rev (grid blocks dim)). split; [symmetry; apply Permutation_rev|]. intros data2 E2. cbn. rewrite lookup_insert_eq. congruence.
Qed.

Definition present : Platform :=
  mkPlatform (Some 1%Z) 12040 12040 (λ i, Some (mkCudaDeviceInfo 0 "device" 8 0 (2 ^ 30) true)).
Definition idle : Accelerator Device := mkAccelerator None (∅, 4096%N).
Definition sample_bytes : list byte := Eval vm_compute in make_pattern 300 7.
Definition with_buffer := Eval vm_compute in allocate present 300 0 idle.
Definition the_buffer : CudaBuffer := Eval vm_compute in match with_buffer.2 with success b => b | failure _ => default_CudaBuffer end.
Definition uploaded := Eval vm_compute in upload sample_bytes the_buffer with_buffer.1.
Definition mutated := Eval vm_compute in mutate 0x1234 3 the_buffer uploaded.1.
Definition downloaded := Eval vm_compute in download the_buffer mutated.1.
Definition device_bytes : list byte := Eval vm_compute in match downloaded.2 with success l => l | failure _ => [] end.

Lemma device_mutation_is_the_reference_witness : device_bytes = reference_mutation 0x1234 3 sample_bytes.
Proof.
  refine (device_mutation_is_the_reference present 300 0 sample_bytes 0x1234 3 idle with_buffer.1 uploaded.1 mutated.1 downloaded.1
    the_buffer device_bytes _ _ _ _ _); vm_compute; reflexivity.
Defined.
Example the_bytes_changed : device_bytes ≠ sample_bytes.
Proof. by vm_compute. Qed.
