(* ===== verification/Agent.v ===== *)
(** * The agent ([include/coherence/agent.hpp], [src/agent.cpp])

    A participant process: its options, its control client, its region store and
    what it remembers of the coordinator's answers, and the commands of its
    scripts.  A command is an action on the process, which either returns a
    status, as the code does, or makes an access to memory that is undefined.

    The agent's machine is part of the state: the shared segments, what the
    random source, the allocator and the mapping calls return.  The words of a
    status are not modelled, and neither is [last_error_], which only holds such
    words. *)
From Stdlib Require Import Strings.Byte Strings.Ascii Strings.String.
From S2P Require Import Prelude Ids Enums Status Bytes Policy Evidence Model Decisions Persistence.
From S2P Require Import Serialize Codec Messages Checksum Regions Framing Protocol Transport Text Client.
From S2P Require Import Engine Coordinator Render.

(** ** State *)

#[export] Instance RegionBacking_eq_dec : EqDecision RegionBacking.t.
Proof. solve_decision. Defined.

#[local] Set Primitive Projections.

(** [RegionSpec]. *)
Record RegionSpec := mkRegionSpec {
  rg_name : string;
  rg_memory_domain : MemoryDomain.t;
  rg_backing : RegionBacking.t;
  rg_segment_name : string;
  rg_create_segment : bool;
  rg_offset : N;
  rg_length : N;
  rg_seed : N;
  rg_declared_writable : bool }.
#[export] Instance eta_RegionSpec : Eta RegionSpec := fun s => mkRegionSpec
  (rg_name s) (rg_memory_domain s) (rg_backing s) (rg_segment_name s) (rg_create_segment s) (rg_offset s)
  (rg_length s) (rg_seed s) (rg_declared_writable s).

(** [AgentOptions]. *)
Record AgentOptions := mkAgentOptions {
  ao_client : ClientOptions;
  ao_domain_name : string;
  ao_object_name : string;
  ao_object_length : N;
  ao_consistency : ConsistencyModel.t;
  ao_stale_read_bound : N;
  ao_stale_read_policy : StaleReadPolicy.t;
  ao_regions : list RegionSpec;
  ao_staging_segment : string;
  ao_staging_length : N;
  ao_staging_create : bool;
  ao_stay_open : bool;
  ao_script : list string }.
#[export] Instance eta_AgentOptions : Eta AgentOptions := fun o => mkAgentOptions
  (ao_client o) (ao_domain_name o) (ao_object_name o) (ao_object_length o) (ao_consistency o) (ao_stale_read_bound o)
  (ao_stale_read_policy o) (ao_regions o) (ao_staging_segment o) (ao_staging_length o) (ao_staging_create o)
  (ao_stay_open o) (ao_script o).

(** [Agent]. *)
Record Agent := mkAgent {
  a_options : AgentOptions;
  a_client : ControlClient;
  a_store : RegionStore;
  a_region_ids : gmap string RegionId;
  a_region_generations : gmap RegionId RegionGeneration;
  a_region_versions : gmap RegionId VersionId;
  a_sync_plans : gmap SyncOperationId SyncRecord;
  a_last_region : RegionId;
  a_last_lease : LeaseId;
  a_object : ObjectId;
  a_domain : CoherenceDomainId;
  a_object_generation : ObjectGeneration;
  a_authoritative_version : VersionId;
  a_ownership : OwnershipGeneration;
  a_policy_generation : PolicyGeneration;
  a_epoch : CoordinatorEpoch;
  a_staging : option SharedSegment;
  a_joined : bool;
  a_write_held : bool;
  a_next_region_fallback : N }.
#[export] Instance eta_Agent : Eta Agent := fun a => mkAgent
  (a_options a) (a_client a) (a_store a) (a_region_ids a) (a_region_generations a) (a_region_versions a)
  (a_sync_plans a) (a_last_region a) (a_last_lease a) (a_object a) (a_domain a) (a_object_generation a)
  (a_authoritative_version a) (a_ownership a) (a_policy_generation a) (a_epoch a) (a_staging a) (a_joined a)
  (a_write_held a) (a_next_region_fallback a).

(** What the operating system gives the process: the segments it shares with
    others; what [generate_request_id] returns next, nothing once the source
    fails; where the next buffers are allocated; for the next mappings, whether
    [ftruncate] and [mmap] succeed, and they do when nothing is said. *)
Record Host := mkHost {
  h_memory : SharedMemory;
  h_fresh : list RequestId;
  h_addresses : list N;
  h_mappings : list (bool * bool) }.
#[export] Instance eta_Host : Eta Host := fun h => mkHost (h_memory h) (h_fresh h) (h_addresses h) (h_mappings h).

(** The process: the agent, its machine, the lines a command has printed. *)
Record Proc := mkProc { ps_agent : Agent; ps_host : Host; ps_sink : list string }.
#[export] Instance eta_Proc : Eta Proc := fun p => mkProc (ps_agent p) (ps_host p) (ps_sink p).

#[local] Unset Primitive Projections.

(** The member initializers. *)
Definition default_RegionSpec : RegionSpec :=
  mkRegionSpec "" MemoryDomain.HostPageable RegionBacking.HostHeap "" false 0 0 0 true.
Definition default_AgentOptions : AgentOptions :=
  mkAgentOptions default_ClientOptions "default" "object" 0 ConsistencyModel.Strict 0 StaleReadPolicy.Never [] "" 0 false false [].
Definition default_Agent : Agent :=
  mkAgent default_AgentOptions default_ControlClient empty_region_store ∅ ∅ ∅ ∅ nil_id nil_id nil_id nil_id nil_id
    nil_id nil_id nil_id nil_id None false false 1.

(** ** Actions *)

(** An action returns the process and a result, or is undefined; a failed
    result ends the function it occurs in. *)
Definition act (A : Type) : Type := Proc → option (Proc * result A).
Definition ret {A} (a : A) : act A := λ p, Some (p, success a).
Definition fail {A} (code : StatusCode.t) : act A := λ p, Some (p, failure code).
Definition undefined {A} : act A := λ _, None.
Definition bind {A B} (m : act A) (k : A → act B) : act B := λ p,
  match m p with
  | None => None
  | Some (p, failure e) => Some (p, failure e)
  | Some (p, success a) => k a p
  end.
Declare Scope agent_scope.
Notation "'let!' x := e 'in' k" := (bind e (λ x, k))
  (at level 200, x pattern, e at level 100, k at level 200, right associativity) : agent_scope.
Notation "'do!' e 'in' k" := (bind e (λ _, k))
  (at level 200, e at level 100, k at level 200, right associativity) : agent_scope.
#[local] Open Scope agent_scope.

Definition get {A} (f : Agent → A) : act A := λ p, Some (p, success (f (ps_agent p))).
Definition modify (f : Agent → Agent) : act unit := λ p, Some (p <| ps_agent ::= f |>, success ()).
Definition emit (text : string) : act unit := λ p, Some (p <| ps_sink ::= λ l, l ++ [text] |>, success ()).
(** [if (!test) return Status(code)]. *)
Definition check (test : bool) (code : StatusCode.t) : act unit := if test then ret () else fail code.
Definition of_status (code : StatusCode.t) : act unit := check (ok code) code.
(** A value that is undefined without one. *)
Definition needed {A} (o : option A) : act A := match o with Some a => ret a | None => undefined end.

(** A call of the region store on the memory of the machine. *)
Definition on_store (f : SharedMemory → RegionStore → option (SharedMemory * RegionStore * StatusCode.t)) : act unit := λ p,
  match f (h_memory (ps_host p)) (a_store (ps_agent p)) with
  | None => None
  | Some (sm, rs, code) =>
      of_status code (p <| ps_host ::= λ h, h <| h_memory := sm |> |> <| ps_agent ::= λ a, a <| a_store := rs |> |>)
  end.
Definition get_memory : act SharedMemory := λ p, Some (p, success (h_memory (ps_host p))).
Definition set_memory (sm : SharedMemory) : act unit := λ p, Some (p <| ps_host ::= λ h, h <| h_memory := sm |> |>, success ()).

(** [generate_request_id]. *)
Definition generate_request_id : act RequestId := λ p,
  Some (p <| ps_host ::= λ h, h <| h_fresh ::= tail |> |>, success (default nil_id (head (h_fresh (ps_host p))))).
Definition next_address : act N := λ p,
  Some (p <| ps_host ::= λ h, h <| h_addresses ::= tail |> |>, success (default 0%N (head (h_addresses (ps_host p))))).
Definition next_mapping : act (bool * bool) := λ p,
  Some (p <| ps_host ::= λ h, h <| h_mappings ::= tail |> |>, success (default (true, true) (head (h_mappings (ps_host p))))).

(** [client_.request]. *)
Definition send_request (type : MessageType.t) (body : list byte) : act Exchange := λ p,
  let '(cl, r) := request type body (a_client (ps_agent p)) in
  Some (p <| ps_agent ::= λ a, a <| a_client := cl |> |>, r).
(** A request whose envelope must decode. *)
Definition exchange (type : MessageType.t) (body : list byte) : act (ResponseEnvelope * list byte) :=
  let! e := send_request type body in
  match decode_exchange_envelope e with
  | None => fail StatusCode.ProtocolViolation
  | Some envelope => ret (envelope, ex_payload e)
  end.
(** And be an acceptance. *)
Definition accepted (type : MessageType.t) (body : list byte) : act (list byte) :=
  let! (envelope, payload) := exchange type body in
  do! of_status (re_code envelope) in ret payload.
(** A decoder that must read the payload. *)
Definition decoded {A} (reader : Reader A) (payload : list byte) : act A :=
  match reader payload with Read a _ => ret a | _ => fail StatusCode.ProtocolViolation end.

(** ** Helpers *)

(** [parse_i64]. *)
Definition parse_i64 (text : string) : option Z :=
  match text with
  | EmptyString => None
  | _ => let '(v, rest) := strtoll text in if at_nul rest then Some v else None
  end.

Definition line (key value : string) : string := key +:+ "=" +:+ value.

(** [split_command]. *)
Definition is_blank (c : ascii) : bool :=
  Ascii.eqb c " " || Ascii.eqb c "009" || Ascii.eqb c "013" || Ascii.eqb c "010".
Definition split_command (text : string) : list string := words_from is_blank "" text.

Definition region_id (name : string) (a : Agent) : RegionId := default nil_id (a_region_ids a !! name).
Definition region_generation (id : RegionId) (a : Agent) : RegionGeneration := default nil_id (a_region_generations a !! id).
Definition region_version (id : RegionId) (a : Agent) : VersionId := default nil_id (a_region_versions a !! id).

(** The first configured region that was registered under an identity. *)
Definition spec_of (id : RegionId) (a : Agent) : option RegionSpec :=
  snd <$> list_find (λ s, a_region_ids a !! rg_name s = Some id) (ao_regions (a_options a)).

(** [make_context]. *)
Definition make_context : act AuthorityContext :=
  let! request := generate_request_id in
  get (λ a, mkAuthorityContext (a_epoch a) (hr_participant (cl_session (a_client a))) (cl_boot (ao_client (a_options a)))
    (a_object a) (a_object_generation a) (a_policy_generation a) request).

(** The bytes of a segment that lie where it is mapped; writing there. *)
Definition read_segment (g : SharedSegment) (off len : N) (sm : SharedMemory) : option (list byte) :=
  match sm_segments sm !! sg_name g with
  | None => None
  | Some pages =>
      if (off + len <=? N.of_nat (length pages))%N then Some (take (N.to_nat len) (drop (N.to_nat off) pages)) else None
  end.
Definition write_segment (g : SharedSegment) (off : N) (bytes : list byte) (sm : SharedMemory) : option SharedMemory :=
  match sm_segments sm !! sg_name g with
  | None => None
  | Some pages =>
      if (off + N.of_nat (length bytes) <=? N.of_nat (length pages))%N
      then Some (sm <| sm_segments ::= <[sg_name g := write_at (N.to_nat off) bytes pages]> |>) else None
  end.
(** [memcpy] of the front of a region: the bytes must be there. *)
Definition front (len : N) (bytes : list byte) : option (list byte) :=
  if (len <=? N.of_nat (length bytes))%N then Some (take (N.to_nat len) bytes) else None.

(** ** Joining *)

(** The checks of [configure] on one region. *)
Definition check_spec (len : N) (s : RegionSpec) : StatusCode.t :=
  if (rg_length s =? 0)%N then StatusCode.InvalidArgument else
  if negb (checked_range (rg_offset s) (rg_length s) len) then StatusCode.InvalidArgument else StatusCode.Ok.
Definition check_specs (len : N) (specs : list RegionSpec) : StatusCode.t :=
  foldr (λ s rest, let code := check_spec len s in if ok code then rest else code) StatusCode.Ok specs.

(** [Agent::configure]. *)
Definition configure (options : AgentOptions) : act unit :=
  do! modify (λ a, a <| a_options := options |>) in
  do! check (negb (ao_object_length options =? 0)%N) StatusCode.InvalidArgument in
  do! of_status (check_specs (ao_object_length options) (ao_regions options)) in
  if decide (ao_staging_segment options = ""%string) then ret () else
  let! (sized, mapped) := next_mapping in
  let! sm := get_memory in
  let '(sm, staging) := open_segment (ao_staging_segment options) (ao_staging_length options) (ao_staging_create options) sized mapped sm in
  do! set_memory sm in
  match staging with
  | failure e => fail e
  | success g => modify (λ a, a <| a_staging := Some g |>)
  end.

(** [next_region_identity]. *)
Definition next_region_identity : act RegionId :=
  let! fresh := generate_request_id in
  if defined fresh then ret (from_value (value fresh)) else
  let! n := get a_next_region_fallback in
  do! modify (λ a, a <| a_next_region_fallback ::= u64_succ |>) in ret (from_value n).

(** [extract] of [refresh_object]: what follows the first occurrence of the key. *)
Definition extract (key text : string) : string :=
  let needle := key +:+ "=" in
  match find_text needle text with
  | None => ""
  | Some pos => until (λ c, Ascii.eqb c " " || Ascii.eqb c newline) (drop_text (pos + String.length needle) text)
  end.
Definition to_u64 (text : string) : N := strtoull 10 text.

(** What [refresh_object] takes from the text of a snapshot. *)
Definition read_object_text (text : string) (a : Agent) : Agent :=
  a <| a_domain := from_value (to_u64 (extract "domain" text)) |>
    <| a_object_generation := from_value (to_u64 (extract "generation" text)) |>
    <| a_policy_generation := from_value (to_u64 (extract "policy_generation" text)) |>
    <| a_authoritative_version := from_value (to_u64 (extract "authoritative_version" text)) |>
    <| a_ownership := from_value (to_u64 (extract "ownership_generation" text)) |>.

(** [refresh_object]. *)
Definition refresh_object : act unit :=
  let! object := get a_object in
  let! payload := accepted MessageType.Query (ByteWriter.strong_id object) in
  let! text := decoded (ByteReader.text (2 ^ 20)) payload in
  modify (read_object_text text).

(** The identity in front of the first occurrence of a needle: the word after
    the last [label] before it. *)
Definition id_before (needle label text : string) : option string :=
  match find_text needle text with
  | None => None
  | Some at_ =>
      match rfind_text label at_ text with
      | None => None
      | Some id_at => Some (until (is_char " ") (drop_text (id_at + String.length label) text))
      end
  end.
Definition domain_in_text (name text : string) : string := default "" (id_before ("name=" +:+ name) "domain " text).
Definition object_in_text (name text : string) : option string := id_before (" name=" +:+ name +:+ " ") "object id=" text.

(** The policy an agent registers its object with. *)
Definition agent_policy (o : AgentOptions) : CoherencePolicy :=
  let policy := make_policy (ao_consistency o) "agent-policy" in
  let policy :=
    if decide (pol_consistency policy = ConsistencyModel.Eventual)
    then eventual_policy (if (ao_stale_read_bound o =? 0)%N then 8 else ao_stale_read_bound o) "agent-policy" else policy in
  let policy := policy <| pol_stale_read_policy := ao_stale_read_policy o |> in
  if decide (pol_stale_read_policy policy = StaleReadPolicy.Never ∧ pol_consistency policy = ConsistencyModel.Eventual)
  then policy <| pol_stale_read_policy := StaleReadPolicy.Bounded |> else policy.

(** A domain is created when none was found; the text of its identity. *)
Definition ensure_domain (found : string) : act string :=
  if decide (found = ""%string) then
    let! name := get (λ a, ao_domain_name (a_options a)) in
    let! payload := accepted MessageType.CreateDomain (encode_create_domain name) in
    let! record := decoded (decode_domain default_decode_limits) payload in
    do! modify (λ a, a <| a_domain := d_id record |>) in ret (id_to_string (d_id record))
  else ret found.

(** The object is registered. *)
Definition register_own_object (domain : string) : act unit :=
  let! o := get a_options in
  let! payload := accepted MessageType.RegisterObject
    (encode_register_object (from_value (strtoull 10 domain), ao_object_name o, ao_object_length o, agent_policy o)) in
  let! record := decoded (decode_object default_decode_limits) payload in
  modify (λ a, a <| a_object := o_id record |> <| a_domain := o_domain record |> <| a_object_generation := o_generation record |>
                 <| a_policy_generation := o_policy_generation record |>).

(** [ensure_object]. *)
Definition ensure_object : act unit :=
  let! o := get a_options in
  let! payload := accepted MessageType.Snapshot (encode_snapshot_options default_SnapshotOptions) in
  let! text := decoded (ByteReader.text (2 ^ 22)) payload in
  let found := domain_in_text (ao_domain_name o) text in
  do! match object_in_text (ao_object_name o) text with
      | Some id => modify (λ a, a <| a_object := from_value (strtoull 10 id) |>)
      | None => ret ()
      end in
  let! object := get a_object in
  let! domain := if defined object then ret found else
    let! domain := ensure_domain found in do! register_own_object domain in ret domain in
  let! known := get a_domain in
  do! if negb (defined known) && bool_decide (domain ≠ ""%string)
      then modify (λ a, a <| a_domain := from_value (strtoull 10 domain) |>) else ret () in
  refresh_object.

(** [send_region_registration]; the rendered record is its value. *)
Definition send_region_registration (spec : RegionSpec) (id : RegionId) : act string :=
  let! store := get a_store in
  match find_region id store with
  | None => fail StatusCode.UnknownRegion
  | Some stored =>
      let! context := make_context in
      let! domain := get a_domain in
      let! sm := get_memory in
      let! bytes := needed (region_bytes sm stored) in
      let registration := mkRegionRegistration context domain id (rg_name spec) (sr_memory_domain stored)
        (sr_evidence_class stored) (rg_offset spec) (rg_length spec) (sr_address_hint stored) nil_id
        (rg_declared_writable spec) nil_id (fingerprint_bytes bytes) in
      let! payload := accepted MessageType.RegisterRegion (encode_region_registration registration) in
      let! record := decoded (decode_region default_decode_limits) payload in
      do! modify (λ a, a <| a_region_generations ::= <[id := r_generation record]> |>
                         <| a_region_versions ::= <[id := r_version record]> |>) in
      ret (render_region record)
  end.

(** The local bytes of a configured region. *)
Definition add_region (spec : RegionSpec) (requested : RegionId) : act RegionId :=
  let! store := get a_store in
  let keep store (created : result RegionId) : act RegionId :=
    do! modify (λ a, a <| a_store := store |>) in
    match created with success id => ret id | failure e => fail e end in
  match rg_backing spec with
  | RegionBacking.SharedMapping =>
      let! (sized, mapped) := next_mapping in
      let! sm := get_memory in
      let '(sm, store, created) :=
        add_shared_region (rg_name spec) (rg_segment_name spec) (rg_length spec) (rg_create_segment spec) sized mapped sm store in
      do! set_memory sm in keep store created
  | RegionBacking.Synthetic =>
      let! address := next_address in
      let '(store, created) := add_synthetic_cxl_region (rg_name spec) (rg_length spec) (rg_seed spec) address store in
      keep store created
  | RegionBacking.HostHeap | RegionBacking.DeviceLocal =>
      let! address := next_address in
      let '(store, created) :=
        add_host_region (rg_name spec) (rg_length spec) (rg_memory_domain spec) (rg_seed spec) requested address store in
      keep store created
  end.

(** [register_regions]. *)
Definition register_spec (spec : RegionSpec) : act unit :=
  let! known := get (λ a, a_region_ids a !! rg_name spec) in
  match known with
  | Some _ => ret ()
  | None =>
      let! requested := next_region_identity in
      let! id := add_region spec requested in
      do! send_region_registration spec id in
      modify (λ a, a <| a_region_ids ::= <[rg_name spec := id]> |> <| a_last_region := id |>)
  end.
Fixpoint for_each {A} (f : A → act unit) (l : list A) : act unit :=
  match l with
  | [] => ret ()
  | a :: l => do! f a in for_each f l
  end.
Definition register_regions : act unit :=
  let! o := get a_options in for_each register_spec (ao_regions o).

(** [Agent::join]; [connected] is what [Socket::connect] returns. *)
Definition join (build : string) (connected : result Socket) : act unit :=
  let! o := get a_options in
  do! (λ p, let '(cl, code) := connect_and_handshake build (ao_client o) connected (a_client (ps_agent p)) in
            of_status code (p <| ps_agent ::= λ a, a <| a_client := cl |> |>)) in
  do! modify (λ a, a <| a_epoch := hr_epoch (cl_session (a_client a)) |>) in
  do! ensure_object in
  do! register_regions in
  modify (λ a, a <| a_joined := true |>).

(** ** Commands *)

Definition id_line {t} (key : string) (id : StrongId t) : act unit := emit (line key (id_to_string id)).
Definition code_line (key : string) (code : StatusCode.t) : act unit := emit (line key (status_code_name code)).
Definition bool_line (key : string) (b : bool) : act unit := emit (line key (yes_no b)).

(** The acknowledgement an agent sends for an invalidation. *)
Definition acknowledgement_for (context : AuthorityContext) (r : InvalidationRecord) : InvalidationAck :=
  mkInvalidationAck context (i_id r) (i_region r) (i_region_generation r) (i_replica_generation r) (i_superseded_version r).
Definition acknowledge (r : InvalidationRecord) : act unit :=
  let! context := make_context in
  let! (envelope, _) := exchange MessageType.AcknowledgeInvalidation (encode_invalidation_ack (acknowledgement_for context r)) in
  do! emit ("ack invalidation=" +:+ id_to_string (i_id r) +:+ " status=" +:+ status_code_name (re_code envelope)) in
  if ok (re_code envelope)
  then modify (λ a, a <| a_region_versions ::= alter (λ _, i_superseded_version r) (i_region r) |>) else ret ().
(** A record that does not decode ends the command with the status of the
    reader, which is a failure only when bytes were missing. *)
Fixpoint ack_loop (n : nat) (payload : list byte) : act unit :=
  match n with
  | O => ret ()
  | S n =>
      match decode_invalidation default_decode_limits payload with
      | Read r rest => do! acknowledge r in ack_loop n rest
      | Failed => fail StatusCode.TruncatedInput
      | Rejected => ret ()
      end
  end.
(** [command_ack_pending]. *)
Definition command_ack_pending : act unit :=
  let! payload := accepted MessageType.ListInvalidations [] in
  match ByteReader.u64 payload with
  | Read count rest =>
      do! check (count <=? 100000)%N StatusCode.OversizedInput in
      do! emit (line "pending_invalidations" (pretty count)) in
      ack_loop (N.to_nat count) rest
  | _ => fail StatusCode.TruncatedInput
  end.

(** The region a command names, when it names one. *)
Definition named_region (args : list string) (otherwise : Agent → RegionId) (a : Agent) : RegionId :=
  match args !! 1 with Some name => region_id name a | None => otherwise a end.
(** A name must be the name of a region. *)
Definition chosen_region (args : list string) (otherwise : Agent → RegionId) : act RegionId :=
  let! region := get (named_region args otherwise) in
  do! check (bool_decide (args !! 1 = None) || defined region) StatusCode.UnknownRegion in ret region.
(** Some region must be selected. *)
Definition selected_region (args : list string) : act RegionId :=
  let! region := get (named_region args a_last_region) in
  do! check (defined region) StatusCode.UnknownRegion in ret region.
(** A command that must name a region. *)
Definition required_region (args : list string) : act RegionId :=
  match args !! 1 with
  | None => fail StatusCode.InvalidArgument
  | Some name => let! region := get (region_id name) in do! check (defined region) StatusCode.UnknownRegion in ret region
  end.

(** [command_read]. *)
Definition print_read (d : ReadDecision) : act unit :=
  do! emit (line "read_outcome" (lookup_token (rd_outcome d))) in
  do! code_line "read_reason" (rd_reason d) in
  do! id_line "read_replica" (rd_region d) in
  do! emit (line "read_replica_state" (lookup_token (rd_region_state d))) in
  do! id_line "read_replica_version" (rd_region_version d) in
  do! id_line "read_authoritative_version" (rd_authoritative_version d) in
  do! bool_line "read_sync_required" (rd_sync_required d) in
  do! bool_line "read_stale_allowed" (rd_stale_allowed d) in
  bool_line "read_evidence_fresh" (rd_evidence_fresh d).
Definition command_read (args : list string) : act unit :=
  let! context := make_context in
  let! region := chosen_region args (λ _, nil_id) in
  let! generation := get (λ a, if defined region then region_generation region a else nil_id) in
  let! version := get a_authoritative_version in
  let! (_, payload) := exchange MessageType.AcquireRead (encode_read_request (mkReadRequest context region generation version true)) in
  let! (d, _) := decoded (decode_read_decision default_decode_limits) payload in
  do! modify (λ a, if defined (rd_region d) then a <| a_last_region := rd_region d |> else a) in
  do! print_read d in
  if defined (rd_lease d) then
    do! modify (λ a, a <| a_last_lease := rd_lease d |>) in id_line "read_lease" (rd_lease d)
  else ret ().

(** [command_write]. *)
Definition print_grant (g : WriteGrant) : act unit :=
  do! bool_line "write_granted" (wg_granted g) in
  do! code_line "write_reason" (wg_reason g) in
  do! bool_line "write_may_mutate_now" (wg_may_mutate_now g) in
  do! id_line "write_ownership_generation" (dc_ownership_generation (wg_context g)) in
  do! id_line "write_base_version" (wg_base_version g) in
  for_each (λ i, emit ("required_invalidation id=" +:+ id_to_string (i_id i) +:+ " region=" +:+ id_to_string (i_region i)
                       +:+ " target=" +:+ id_to_string (i_target_participant i))) (wg_required_invalidations g).
Definition command_write (args : list string) : act unit :=
  let! context := make_context in
  let! region := chosen_region args a_last_region in
  let! generation := get (region_generation region) in
  let! (_, payload) := exchange MessageType.AcquireWrite (encode_write_request (mkWriteRequest context region generation)) in
  let! (g, _) := decoded (decode_write_grant default_decode_limits) payload in
  do! modify (λ a, a <| a_ownership := dc_ownership_generation (wg_context g) |> <| a_write_held := wg_granted g |>) in
  print_grant g.

(** A version given as an argument: a number that is not negative. *)
Definition version_arg (arg : option string) (otherwise : VersionId) : act VersionId :=
  match arg with
  | None => ret otherwise
  | Some text =>
      match parse_i64 text with
      | Some v => if (0 <=? v)%Z then ret (from_value (Z.to_N v)) else fail StatusCode.InvalidArgument
      | None => fail StatusCode.InvalidArgument
      end
  end.

(** The authoritative bytes go into the staging segment, when there is one and
    the region was configured. *)
Definition stage_region (region : RegionId) (bytes : list byte) : act unit :=
  let! staging := get a_staging in
  let! spec := get (spec_of region) in
  match staging, spec with
  | Some g, Some s =>
      do! check (checked_range (rg_offset s) (rg_length s) (sg_length g)) StatusCode.InvalidArgument in
      let! copied := needed (front (rg_length s) bytes) in
      let! sm := get_memory in
      let! sm := needed (write_segment g (rg_offset s) copied sm) in
      set_memory sm
  | _, _ => ret ()
  end.

(** [command_publish]. *)
Definition print_receipt (r : PublicationReceipt) : act unit :=
  do! emit (line "publish_state" (lookup_token (pr_state r))) in
  do! code_line "publish_reason" (pr_reason r) in
  do! id_line "publish_version" (pr_version r) in
  do! id_line "publish_prior_version" (pr_prior_version r) in
  do! bool_line "publish_durable" (pr_durable r) in
  bool_line "publish_idempotent_replay" (pr_idempotent_replay r).
(** The publication of the bytes of a region. *)
Definition send_publication (region : RegionId) (base : VersionId) (bytes : list byte) : act unit :=
  let! context := make_context in
  let! ownership := get a_ownership in
  let! generation := get (region_generation region) in
  let req := mkPublishRequest context ownership region generation base (fingerprint_bytes bytes) (negb (defined base)) in
  let! (_, payload) := exchange MessageType.Publish (encode_publish_request req) in
  let! (receipt, _) := decoded (decode_publication default_decode_limits) payload in
  do! print_receipt receipt in
  if decide (pr_state receipt = PublicationState.Committed)
  then modify (λ a, a <| a_authoritative_version := pr_version receipt |>
                      <| a_region_versions ::= <[region := pr_version receipt]> |>)
  else ret ().
Definition command_publish (args : list string) : act unit :=
  let! region := selected_region args in
  let! known := get a_authoritative_version in
  let! base := version_arg (args !! 2) known in
  let! store := get a_store in
  match find_region region store with
  | None => fail StatusCode.UnknownRegion
  | Some stored =>
      let! sm := get_memory in
      let! bytes := needed (region_bytes sm stored) in
      do! stage_region region bytes in
      send_publication region base bytes
  end.

(** The source of a transfer: a local name, or the identity of a region; none
    lets the coordinator choose. *)
Definition source_region (arg : option string) (a : Agent) : result RegionId :=
  match arg with
  | None => success nil_id
  | Some text =>
      if decide (text = "auto"%string) then success nil_id else
      let local := region_id text a in
      if defined local then success local else
      match parse_i64 text with
      | Some v => if (0 <? v)%Z then success (from_value (Z.to_N v)) else failure StatusCode.UnknownRegion
      | None => failure StatusCode.UnknownRegion
      end
  end.
Definition of_result {A} (r : result A) : act A := match r with success a => ret a | failure e => fail e end.

(** [command_sync_begin]. *)
Definition print_plan (o : SyncOutcome) : act unit :=
  do! id_line "sync_source_version" (y_source_version (so_plan o)) in
  do! emit (line "sync_expected_content" (fingerprint_to_string (y_expected_content (so_plan o)))) in
  do! emit (line "sync_transport" (y_transport (so_plan o))) in
  do! emit (line "sync_extent_offset" (pretty (y_extent_offset (so_plan o)))) in
  emit (line "sync_extent_length" (pretty (y_extent_length (so_plan o)))).
Definition command_sync_begin (args : list string) : act unit :=
  let! destination := required_region args in
  let! source := get (source_region (args !! 2)) in
  let! source := of_result source in
  let! context := make_context in
  let! a := get id in
  let req := mkSyncRequest context SyncOperationKind.Copy source
    (if defined source then region_generation source a else nil_id) destination (region_generation destination a)
    (a_ownership a) (if a_staging a then "shared_mapping_staging" else "delegated") in
  let! (_, payload) := exchange MessageType.SyncBegin (encode_sync_request req) in
  let! (o, _) := decoded (decode_sync_outcome default_decode_limits) payload in
  do! id_line "sync_operation" (so_operation o) in
  do! emit (line "sync_state" (lookup_token (so_state o))) in
  do! code_line "sync_reason" (so_reason o) in
  do! id_line "sync_source_region" (y_source_region (so_plan o)) in
  do! modify (λ a, a <| a_region_versions ::= <[y_source_region (so_plan o) := y_source_version (so_plan o)]> |>
                     <| a_region_generations ::= <[y_source_region (so_plan o) := y_source_region_generation (so_plan o)]> |>) in
  do! print_plan o in
  modify (λ a, a <| a_sync_plans ::= <[so_operation o := so_plan o]> |>).

(** The bytes of a planned extent move from the staging segment into a region;
    the bytes of the region afterwards. *)
Definition fetch_extent (g : SharedSegment) (plan : SyncRecord) (destination : RegionId) (stored : StoredRegion) : act (list byte) :=
  let! sm := get_memory in
  let! bytes := needed (read_segment g (y_extent_offset plan) (y_extent_length plan) sm) in
  do! on_store (λ sm rs, match write_view stored 0 bytes sm rs with
                         | Some (sm, rs) => Some (sm, rs, StatusCode.Ok) | None => None end) in
  let! sm := get_memory in
  let! store := get a_store in
  let! stored := needed (find_region destination store) in
  needed (region_bytes sm stored).

(** What arrived is reported. *)
Definition report_arrival (operation : SyncOperationId) (plan : SyncRecord) (destination : RegionId) (bytes : list byte) : act unit :=
  let observed := fingerprint_bytes bytes in
  let! context := make_context in
  let! generation := get (region_generation destination) in
  let req := mkSyncCompleteRequest context operation destination generation (y_source_version plan) observed true in
  let! (_, payload) := exchange MessageType.SyncComplete (encode_sync_complete req) in
  let! (o, _) := decoded (decode_sync_outcome default_decode_limits) payload in
  do! emit (line "sync_state" (lookup_token (so_state o))) in
  do! code_line "sync_reason" (so_reason o) in
  do! emit (line "sync_observed_content" (fingerprint_to_string observed)) in
  if decide (so_state o = SyncState.Completed)
  then modify (λ a, a <| a_region_versions ::= <[destination := y_source_version (so_plan o)]> |>
                      <| a_authoritative_version := y_source_version (so_plan o) |>)
  else ret ().

(** [command_sync_complete]. *)
Definition command_sync_complete (args : list string) : act unit :=
  let! destination := required_region args in
  match args !! 2 with
  | None => fail StatusCode.InvalidArgument
  | Some text =>
      let operation : SyncOperationId := from_value (strtoull 10 text) in
      let! store := get a_store in
      let! staging := get a_staging in
      let! plan := get (λ a, a_sync_plans a !! operation) in
      match find_region destination store, staging, plan with
      | None, _, _ => fail StatusCode.UnknownRegion
      | Some _, None, _ => fail StatusCode.Unsupported
      | Some _, Some _, None => fail StatusCode.UnknownSyncOperation
      | Some stored, Some g, Some plan =>
          do! check (y_extent_length plan =? sr_length stored)%N StatusCode.InvalidArgument in
          do! check (checked_range (y_extent_offset plan) (y_extent_length plan) (sg_length g)) StatusCode.InvalidArgument in
          let! bytes := fetch_extent g plan destination stored in
          report_arrival operation plan destination bytes
      end
  end.

(** [command_invalidate]: the context names no participant and no request. *)
Definition command_invalidate (args : list string) : act unit :=
  let! region := required_region args in
  let! a := get id in
  let context := mkAuthorityContext (a_epoch a) nil_id nil_uuid (a_object a) (a_object_generation a) (a_policy_generation a) nil_id in
  let req := mkInvalidationRequest context region (region_generation region a) (from_value 1) (a_ownership a)
    (a_authoritative_version a) true in
  let! (_, payload) := exchange MessageType.Invalidate (encode_invalidation_request req) in
  let! (o, _) := decoded (decode_invalidation_outcome default_decode_limits) payload in
  do! id_line "invalidate_id" (io_invalidation o) in
  do! emit (line "invalidate_state" (lookup_token (io_state o))) in
  code_line "invalidate_reason" (io_reason o).

(** The fingerprint of a region of the store, when it has one. *)
Definition print_content (region : RegionId) : act unit :=
  let! sm := get_memory in
  let! store := get a_store in
  let! content := needed (region_fingerprint region sm store) in
  match content with success f => emit (line "local_content" (fingerprint_to_string f)) | failure _ => ret () end.

(** [static_cast<std::uint64_t>]. *)
Definition as_u64 (z : Z) : N := Z.to_N (z mod Z.of_N two64).

(** The verb [fill]. *)
Definition command_fill (args : list string) : act unit :=
  match args with
  | _ :: name :: seed :: _ =>
      let! region := required_region args in
      let! seed := of_result match parse_i64 seed with Some v => success v | None => failure StatusCode.InvalidArgument end in
      do! on_store (fill region (as_u64 seed) 0 0) in
      do! emit (line "fill_region" name) in
      print_content region
  | _ => fail StatusCode.InvalidArgument
  end.

(** The verb [poke]. *)
Definition command_poke (args : list string) : act unit :=
  match args with
  | _ :: _ :: offset :: byte_text :: _ =>
      let! region := required_region args in
      let! offset := version_arg (Some offset) nil_id in
      match parse_i64 byte_text with
      | Some v =>
          do! check ((0 <=? v)%Z && (v <=? 255)%Z) StatusCode.InvalidArgument in
          do! on_store (poke region (value offset) (Z.to_N v) 1) in
          print_content region
      | None => fail StatusCode.InvalidArgument
      end
  | _ => fail StatusCode.InvalidArgument
  end.

(** The fingerprint of a region's bytes, none for a region that is not stored. *)
Definition local_content (region : RegionId) : act ContentFingerprint :=
  let! store := get a_store in
  match find_region region store with
  | None => ret default_ContentFingerprint
  | Some stored => let! sm := get_memory in let! bytes := needed (region_bytes sm stored) in ret (fingerprint_bytes bytes)
  end.

(** The verb [mark-dirty]. *)
Definition command_mark_dirty (args : list string) : act unit :=
  let! region := selected_region args in
  let! context := make_context in
  let! a := get id in
  let! content := local_content region in
  let req := mkDirtyRequest context region (region_generation region a) (a_ownership a) (a_authoritative_version a) content in
  let! (envelope, _) := exchange MessageType.MarkDirty (encode_dirty_request req) in
  code_line "mark_dirty_status" (re_code envelope).

(** The verb [revalidate]. *)
Definition command_revalidate (args : list string) : act unit :=
  let! region := selected_region args in
  let! context := make_context in
  let! a := get id in
  let known := if defined (a_authoritative_version a) then a_authoritative_version a else from_value 1 in
  let! observed := version_arg (args !! 2) known in
  let! content := local_content region in
  let req := mkRevalidateRequest context region (region_generation region a) observed content true in
  let! (envelope, payload) := exchange MessageType.Revalidate (encode_revalidate_request req) in
  do! code_line "revalidate_status" (re_code envelope) in
  match decode_region default_decode_limits payload with
  | Read record _ =>
      do! emit (line "revalidate_state" (lookup_token (r_state record))) in
      do! id_line "revalidate_version" (r_version record) in
      modify (λ a, a <| a_region_versions ::= <[region := r_version record]> |>
                     <| a_region_generations ::= <[region := r_generation record]> |>)
  | _ => ret ()
  end.

(** The verbs [release-write] and [release-read]. *)
Definition release_write_request : act (list byte) :=
  let! context := make_context in
  let! ownership := get a_ownership in ret (encode_release_request (mkReleaseRequest context nil_id ownership true)).
Definition command_release_write : act unit :=
  let! body := release_write_request in
  let! (envelope, _) := exchange MessageType.Release body in
  do! code_line "release_status" (re_code envelope) in
  modify (λ a, a <| a_write_held := false |>).
Definition command_release_read : act unit :=
  let! context := make_context in
  let! lease := get a_last_lease in
  let! (envelope, _) := exchange MessageType.Release (encode_release_request (mkReleaseRequest context lease nil_id false)) in
  code_line "release_status" (re_code envelope).

(** The verbs that print a text of the coordinator. *)
Definition inspection (verb : string) : option MessageType.t :=
  if decide (verb = "audit"%string) then Some MessageType.Audit else
  if decide (verb = "snapshot"%string) then Some MessageType.Snapshot else
  if decide (verb = "participants"%string) then Some MessageType.ListParticipants else
  if decide (verb = "objects"%string) then Some MessageType.ListObjects else
  if decide (verb = "regions"%string) then Some MessageType.ListRegions else
  if decide (verb = "decisions"%string) then Some MessageType.DecisionLog else None.
Definition command_inspect (type : MessageType.t) : act unit :=
  let body := if decide (type = MessageType.Snapshot) then encode_snapshot_options default_SnapshotOptions else [] in
  let! (_, payload) := exchange type body in
  let! text := decoded (ByteReader.text (2 ^ 22)) payload in
  emit text.

(** The verb [echo]: what follows the first space of the command. *)
Definition echoed (command : string) : string :=
  match find_text " " command with Some i => drop_text (i + 1) command | None => command end.

(** [Agent::execute]. *)
Definition execute (command : string) : act unit :=
  let args := split_command command in
  match args with
  | [] => ret ()
  | verb :: _ =>
      if decide (verb = "echo"%string) then emit (echoed command) else
      if decide (verb = "refresh"%string) then refresh_object else
      if decide (verb = "ack-pending"%string) then command_ack_pending else
      if decide (verb = "read"%string) then command_read args else
      if decide (verb = "write"%string) then command_write args else
      if decide (verb = "publish"%string) then command_publish args else
      if decide (verb = "sync-begin"%string) then command_sync_begin args else
      if decide (verb = "sync-complete"%string) then command_sync_complete args else
      if decide (verb = "invalidate"%string) then command_invalidate args else
      if decide (verb = "fill"%string) then command_fill args else
      if decide (verb = "poke"%string) then command_poke args else
      if decide (verb = "mark-dirty"%string) then command_mark_dirty args else
      if decide (verb = "revalidate"%string) then command_revalidate args else
      if decide (verb = "release-write"%string) then command_release_write else
      if decide (verb = "release-read"%string) then command_release_read else
      match inspection verb with
      | Some type => command_inspect type
      | None => if decide (verb = "noop"%string) then ret () else fail StatusCode.InvalidArgument
      end
  end.

(** [Agent::run_script]; [described] is the text of the status that ends it. *)
Fixpoint run_commands (described : string) (script : list string) : act unit := λ p,
  match script with
  | [] => Some (p, success ())
  | command :: rest =>
      match (do! emit ("command=" +:+ command) in execute command) p with
      | None => None
      | Some (p, failure e) => (do! emit ("command_failed=" +:+ described) in fail e) p
      | Some (p, success _) => run_commands described rest p
      end
  end.
Definition run_script (described : string) : act unit :=
  let! o := get a_options in run_commands described (ao_script o).

(** [client_.close()]; [closed] is what the system reports for the handle. *)
Definition close_own_client (closed : StatusCode.t) : act StatusCode.t := λ p,
  let '(cl, code) := close_client closed (a_client (ps_agent p)) in
  Some (p <| ps_agent ::= λ a, a <| a_client := cl |> |>, success code).

(** An action whose failure is ignored. *)
Definition ignore {A} (m : act A) : act unit := λ p,
  match m p with None => None | Some (p, _) => Some (p, success ()) end.

(** [Agent::leave]: the release of a held write authority, whose answer is
    ignored; the end of the session. *)
Definition release_held : act unit :=
  let! held := get a_write_held in
  if (held : bool) then
    let! body := release_write_request in
    do! ignore (send_request MessageType.Release body) in
    modify (λ a, a <| a_write_held := false |>)
  else ret ().
Definition say_goodbye (closed : StatusCode.t) : act unit :=
  do! modify (λ a, a <| a_joined := false |>) in
  let! code := close_own_client closed in of_status code.
Definition leave (closed : StatusCode.t) : act unit :=
  let! joined := get a_joined in
  if negb joined then ignore (close_own_client closed) else
  do! release_held in say_goodbye closed.
