(* ===== verification/Programs.v ===== *)
(** * The programs ([apps/coherence_agent.cpp], [apps/coherence_coordinator.cpp], [apps/coherence_cli.cpp])

    The [main] functions around the agent, the coordinator and the engine: their
    arguments, the order of what they do, what they print on standard output and
    the code they exit with.  What is printed on standard error, and usage texts,
    are not modelled.  The commands of the inspection program, which are in
    included files, are an argument of its [main]. *)
From Stdlib Require Import Strings.Byte Strings.Ascii Strings.String.
From S2P Require Import Prelude Ids Enums Status Bytes Policy Evidence Model Decisions Persistence.
From S2P Require Import Serialize Random Regions Protocol Transport Text Client.
From S2P Require Import Engine Core Registry Recovery Coordinator Render Agent.
#[local] Open Scope string_scope.
#[local] Open Scope list_scope.

(** ** Shared *)

(** What is left to do after an argument: the program ends with a code, or goes
    on with its locals. *)
Inductive Next (L : Type) := Exit (code : N) | Continue (locals : L).
Arguments Exit {L}.
Arguments Continue {L}.

(** The lines [std::getline] reads from a text. *)
Definition lines_of (text : string) : list string :=
  let parts := parts_from newline "" text in
  if decide (last parts = Some "") then removelast parts else parts.
(** The commands of a script: its lines, less the empty ones and the comments. *)
Definition is_command (l : string) : bool :=
  match l with EmptyString => false | String c _ => negb (Ascii.eqb c "#") end.
Definition commands_of (text : string) : list string := filter (λ l, is_command l = true) (lines_of text).

(** ** The participant program *)

Module AgentProgram.

#[local] Set Primitive Projections.
(** The locals of [main]; [lo_stdin] is what is left to read of standard input. *)
Record Locals := mkLocals {
  lo_options : AgentOptions;
  lo_coordinator_endpoint : string;
  lo_shared_segment : string;
  lo_create_segment : bool;
  lo_print_boot : bool;
  lo_stdin : string }.
#[export] Instance eta_Locals : Eta Locals := fun l => mkLocals
  (lo_options l) (lo_coordinator_endpoint l) (lo_shared_segment l) (lo_create_segment l) (lo_print_boot l) (lo_stdin l).
#[local] Unset Primitive Projections.

(** [split] and [parse_domain]. *)
Definition split (text : string) (separator : ascii) : list string := parts_from separator "" text.
Definition parse_domain (token : string) : MemoryDomain.t := default MemoryDomain.Unknown (lookup_value token).

Definition number (text : string) : N := strtoull 10 text.
(** The client options of the agent are changed. *)
Definition on_client (f : ClientOptions → ClientOptions) (l : Locals) : Locals :=
  l <| lo_options ::= λ o, o <| ao_client ::= f |> |>.

(** The value of [--boot]. *)
Definition parse_boot (value : string) : option ParticipantBootId :=
  if decide (String.length value = 32) then
    Some (from_uuid (mkUInt128 (strtoull 16 (String.substring 0 16 value)) (strtoull 16 (String.substring 16 16 value))))
  else None.

(** The backing of a region, from the last part of its text. *)
Definition backed_by (backing : string) (l : Locals) (s : RegionSpec) : option RegionSpec :=
  if decide (backing = "shared") then
    Some (s <| rg_backing := RegionBacking.SharedMapping |> <| rg_segment_name := lo_shared_segment l |>
            <| rg_create_segment := lo_create_segment l |>)
  else if decide (backing = "synthetic") then Some (s <| rg_backing := RegionBacking.Synthetic |>)
  else if decide (backing = "heap") then Some (s <| rg_backing := RegionBacking.HostHeap |>)
  else None.
(** The value of [--region]. *)
Definition parse_region (value : string) (l : Locals) : option RegionSpec :=
  match split value ":" with
  | name :: domain :: offset :: len :: rest =>
      let memory_domain := parse_domain domain in
      if decide (memory_domain = MemoryDomain.Unknown) then None else
      let s := default_RegionSpec <| rg_name := name |> <| rg_memory_domain := memory_domain |>
                 <| rg_offset := number offset |> <| rg_length := number len |> in
      match rest with
      | [] => Some s
      | [seed] => Some (s <| rg_seed := number seed |>)
      | seed :: backing :: _ => backed_by backing l (s <| rg_seed := number seed |>)
      end
  | _ => None
  end.

(** The shared regions named so far are changed. *)
Definition on_shared (f : RegionSpec → RegionSpec) (l : Locals) : Locals :=
  l <| lo_options ::= λ o, o <| ao_regions ::= fmap (λ s, if decide (rg_backing s = RegionBacking.SharedMapping) then f s else s) |> |>.

(** The value of [--stage]. *)
Definition parse_stage (value : string) (o : AgentOptions) : option AgentOptions :=
  match split value ":" with
  | name :: len :: rest =>
      let o := o <| ao_staging_segment := name |> <| ao_staging_length := number len |> in
      Some (match rest with create :: _ => if decide (create = "create") then o <| ao_staging_create := true |> else o | [] => o end)
  | _ => None
  end.

(** The text a script is read from: standard input, which is then used up, or a file. *)
Definition script_text (files : string → option string) (value : string) (l : Locals) : option (Locals * string) :=
  if decide (value = "-") then Some (l <| lo_stdin := "" |>, lo_stdin l) else (λ text, (l, text)) <$> files value.

Definition or_exit {A} (o : option A) (f : A → Locals) : Next Locals :=
  match o with Some a => Continue (f a) | None => Exit 2 end.

(** The arguments that take a value; none for another one. *)
Definition with_value (files : string → option string) (arg value : string) (l : Locals) : option (Next Locals) :=
  let set (f : AgentOptions → AgentOptions) := Some (Continue (l <| lo_options ::= f |>)) in
  if decide (arg = "--coordinator") then Some (Continue (l <| lo_coordinator_endpoint := value |>)) else
  if decide (arg = "--name") then
    Some (Continue (on_client (λ c, mkClientOptions value (cl_boot c) (cl_node_label c) (cl_observer c) (cl_frame_limits c)) l)) else
  if decide (arg = "--boot") then Some (or_exit (parse_boot value)
    (λ b, on_client (λ c, mkClientOptions (cl_participant_name c) b (cl_node_label c) (cl_observer c) (cl_frame_limits c)) l)) else
  if decide (arg = "--node") then
    Some (Continue (on_client (λ c, mkClientOptions (cl_participant_name c) (cl_boot c) value (cl_observer c) (cl_frame_limits c)) l)) else
  if decide (arg = "--domain") then set (λ o, o <| ao_domain_name := value |>) else
  if decide (arg = "--object") then set (λ o, o <| ao_object_name := value |>) else
  if decide (arg = "--object-length") then set (λ o, o <| ao_object_length := number value |>) else
  if decide (arg = "--consistency") then
    Some (or_exit (lookup_value value) (λ m, l <| lo_options ::= λ o, o <| ao_consistency := m |> |>)) else
  if decide (arg = "--stale-read") then
    Some (or_exit (lookup_value value) (λ p, l <| lo_options ::= λ o, o <| ao_stale_read_policy := p |> |>)) else
  if decide (arg = "--stale-bound") then set (λ o, o <| ao_stale_read_bound := number value |>) else
  if decide (arg = "--region") then
    Some (or_exit (parse_region value l) (λ s, l <| lo_options ::= λ o, o <| ao_regions ::= λ rs, rs ++ [s] |> |>)) else
  if decide (arg = "--shared-segment") then
    Some (Continue (on_shared (λ s, s <| rg_segment_name := value |>) (l <| lo_shared_segment := value |>))) else
  if decide (arg = "--stage") then Some (or_exit (parse_stage value (lo_options l)) (λ o, l <| lo_options := o |>)) else
  if decide (arg = "--command") then set (λ o, o <| ao_script ::= λ s, s ++ [value] |>) else
  if decide (arg = "--script") then Some (or_exit (script_text files value l)
    (λ '(l, text), l <| lo_options ::= λ o, o <| ao_script ::= λ s, s ++ commands_of text |> |>)) else
  None.

(** The arguments that stand alone; any other one ends the program. *)
Definition alone (arg : string) (l : Locals) : Next Locals :=
  if decide (arg = "--create-segment") then
    Continue (on_shared (λ s, s <| rg_create_segment := true |>) (l <| lo_create_segment := true |>)) else
  if decide (arg = "--stay") then Continue (l <| lo_options ::= λ o, o <| ao_stay_open := true |> |>) else
  if decide (arg = "--print-boot") then Continue (l <| lo_print_boot := true |>) else Exit 2.

(** The loop over the arguments.  An argument that takes a value and is the last
    one is not recognised. *)
Fixpoint parse_arguments (files : string → option string) (args : list string) (l : Locals) : Next Locals :=
  match args with
  | [] => Continue l
  | arg :: rest =>
      if decide (arg = "--help" ∨ arg = "-h") then Exit 0 else
      let unvalued := match alone arg l with Exit code => Exit code | Continue l => parse_arguments files rest l end in
      match rest with
      | value :: rest =>
          match with_value files arg value l with
          | Some (Exit code) => Exit code
          | Some (Continue l) => parse_arguments files rest l
          | None => unvalued
          end
      | [] => unvalued
      end
  end.

(** What the program meets: the files, standard input, the random source, what
    [Socket::connect] returns for an address, the machine, the build, the text of
    the status a script fails with, and what the system reports for the socket. *)
Record World := mkWorld {
  w_files : string → option string;
  w_stdin : string;
  w_random : Urandom;
  w_connect : string → N → result Socket;
  w_host : Host;
  w_build : string;
  w_described : string;
  w_closed : StatusCode.t }.

(** How the program ends: with a code, or by the signal of a write to a
    connection that the peer has closed. *)
Inductive Ending := Exited (code : N) | Signalled.

(** The end, what the program printed (of a program that was ended by the signal:
    at most), and the process, when an agent was made. *)
Record Outcome := mkOutcome { oc_end : Ending; oc_lines : list string; oc_process : option Proc }.

(** The options the agent is made with, and its address; a code when there are none. *)
Definition resolve (w : World) (l : Locals) : Next (AgentOptions * (string * N)) :=
  if decide (lo_coordinator_endpoint l = "") then Exit 2 else
  match parse_endpoint (lo_coordinator_endpoint l) 0 with
  | failure _ => Exit 2
  | success endpoint =>
      let l := if uuid_is_nil (cl_boot (ao_client (lo_options l))) then
                 on_client (λ c, mkClientOptions (cl_participant_name c) (generate_participant_boot_id (w_random w)) (cl_node_label c)
                                   (cl_observer c) (cl_frame_limits c)) l
               else l in
      if uuid_is_nil (cl_boot (ao_client (lo_options l))) then Exit 1 else Continue (lo_options l, endpoint)
  end.

(** The line printed after joining. *)
Definition region_summary (a : Agent) : string :=
  String.concat "," ((λ s, rg_name s +:+ ":" +:+ id_to_string (region_id (rg_name s) a)) <$> ao_regions (a_options a)).
Definition joined_line (a : Agent) : string :=
  "joined=1 participant=" +:+ id_to_string (hr_participant (cl_session (a_client a))) +:+ " object=" +:+ id_to_string (a_object a)
  +:+ " regions=" +:+ region_summary a.

(** A write of the process met a connection that was closed. *)
Definition killed (p : Proc) : bool := so_killed (cl_socket (a_client (ps_agent p))).

(** The end of the program: the destructor of the agent leaves.  A process that
    was ended on the way stays so: no connection is opened a second time. *)
Definition finish (w : World) (code : N) (lines : list string) (p : Proc) : option Outcome :=
  match leave (w_closed w) p with
  | Some (p, _) => Some (mkOutcome (if killed p then Signalled else Exited code) lines (Some p))
  | None => None
  end.

(** The commands read from standard input while the session is kept open. *)
Fixpoint serve_commands (commands : list string) (lines : list string) (p : Proc) : option (list string * Proc) :=
  match commands with
  | [] => Some (lines, p)
  | command :: rest =>
      match execute command (p <| ps_sink := [] |>) with
      | None => None
      | Some (p, step) =>
          let code := match step with success _ => StatusCode.Ok | failure e => e end in
          serve_commands rest (lines ++ ps_sink p ++ ["command_status=" +:+ status_code_name code]) p
      end
  end.
Definition serve (stdin : string) (lines : list string) (p : Proc) : option (list string * Proc) :=
  if ao_stay_open (a_options (ps_agent p)) then serve_commands (commands_of stdin) (lines ++ ["holding=1"]) p else Some (lines, p).

(** The end of a session: the program leaves, says so, and the destructor leaves again. *)
Definition conclude (w : World) (code : N) (last_lines : list string) (lines : list string) (p : Proc) : option Outcome :=
  match leave (w_closed w) p with
  | Some (p, _) => finish w code (lines ++ last_lines) p
  | None => None
  end.

(** The script and what follows it. *)
Definition run_session (w : World) (stdin : string) (lines : list string) (p : Proc) : option Outcome :=
  match run_script (w_described w) (p <| ps_sink := [] |>) with
  | None => None
  | Some (p, failure _) => conclude w 1 [] (lines ++ ps_sink p) p
  | Some (p, success _) =>
      match serve stdin (lines ++ ps_sink p) p with
      | None => None
      | Some (lines, p) => conclude w 0 ["left=1"] lines p
      end
  end.

(** From the options on. *)
Definition run_agent (w : World) (options : AgentOptions) (endpoint : string * N) (stdin : string) (lines : list string) : option Outcome :=
  match configure options (mkProc default_Agent (w_host w) []) with
  | None => None
  | Some (p, failure _) => finish w 1 lines p
  | Some (p, success _) =>
      match join (w_build w) (w_connect w endpoint.1 endpoint.2) p with
      | None => None
      | Some (p, failure _) => finish w 1 lines p
      | Some (p, success _) => run_session w stdin (lines ++ [joined_line (ps_agent p)]) p
      end
  end.

(** [main]. *)
Definition main (w : World) (args : list string) : option Outcome :=
  match parse_arguments (w_files w) args (mkLocals default_AgentOptions "" "" false false (w_stdin w)) with
  | Exit code => Some (mkOutcome (Exited code) [] None)
  | Continue l =>
      match resolve w l with
      | Exit code => Some (mkOutcome (Exited code) [] None)
      | Continue (options, endpoint) =>
          let lines := if lo_print_boot l then ["boot=" +:+ uuid_to_string (cl_boot (ao_client options))] else [] in
          run_agent w options endpoint (lo_stdin l) lines
      end
  end.

End AgentProgram.

(** ** The coordinator program *)

Module CoordinatorProgram.

#[local] Set Primitive Projections.
(** The locals of [main], with the options that are not part of the coordinator's model. *)
Record Locals := mkLocals {
  lo_options : CoordinatorOptions;
  lo_bind_host : string;
  lo_port : N;
  lo_state_directory : string;
  lo_node_label : string;
  lo_accept_once : bool;
  lo_ready_file : string }.
#[export] Instance eta_Locals : Eta Locals := fun l => mkLocals
  (lo_options l) (lo_bind_host l) (lo_port l) (lo_state_directory l) (lo_node_label l) (lo_accept_once l) (lo_ready_file l).
#[local] Unset Primitive Projections.

Definition default_CoordinatorOptions : CoordinatorOptions :=
  mkCoordinatorOptions "default" default_EngineConfig default_FrameLimits 256 4096.
Definition default_Locals : Locals := mkLocals default_CoordinatorOptions "127.0.0.1" 0 "" "" false "".

(** [static_cast] of what [strtoul] returns to a narrower type. *)
Definition narrowed (width : N) (text : string) : N := (strtoull 10 text mod 2 ^ width)%N.

(** The arguments that take a value. *)
Definition with_value (arg value : string) (l : Locals) : option Locals :=
  let set (f : CoordinatorOptions → CoordinatorOptions) := Some (l <| lo_options ::= f |>) in
  if decide (arg = "--bind") then Some (l <| lo_bind_host := value |>) else
  if decide (arg = "--port") then Some (l <| lo_port := narrowed 16 value |>) else
  if decide (arg = "--state") then Some (l <| lo_state_directory := value |>) else
  if decide (arg = "--domain") then set (λ o, o <| co_domain_name := value |>) else
  if decide (arg = "--node") then Some (l <| lo_node_label := value |>) else
  if decide (arg = "--max-sessions") then set (λ o, o <| co_max_sessions := strtoull 10 value |>) else
  if decide (arg = "--max-object-length") then
    set (λ o, o <| co_engine_config ::= λ e, e <| cfg_max_object_length := strtoull 10 value |> |>) else
  if decide (arg = "--max-frame") then
    set (λ o, o <| co_frames ::= λ f, mkFrameLimits (narrowed 32 value) (max_blob_bytes f) |>) else
  if decide (arg = "--ready-file") then Some (l <| lo_ready_file := value |>) else
  None.

(** How the arguments end: a code and what was printed, or locals to go on with. *)
Fixpoint parse_arguments (version : string) (args : list string) (l : Locals) : (N * list string) + Locals :=
  match args with
  | [] => inr l
  | arg :: rest =>
      if decide (arg = "--help" ∨ arg = "-h") then inl (0%N, []) else
      if decide (arg = "--version") then inl (0%N, [version]) else
      let unvalued :=
        if decide (arg = "--accept-once") then parse_arguments version rest (l <| lo_accept_once := true |>) else inl (2%N, []) in
      match rest with
      | value :: rest => match with_value arg value l with Some l => parse_arguments version rest l | None => unvalued end
      | [] => unvalued
      end
  end.

Section program.
Context {St : Type} `{DurableStore St}.

(** What the program meets: the build, the line of [--version], the store of a
    directory, what [Listener::bind] returns, and what the connections do to the
    coordinator while it serves one of them, or all. *)
Record World := mkWorld {
  w_build : string;
  w_version : string;
  w_store : string → St;
  w_bind : string → N → result N;
  w_serve_one : Coordinator St → Coordinator St;
  w_serve : Coordinator St → Coordinator St }.

(** How the program ends; [oc_ready] is the file it announced its port in. *)
Record Outcome := mkOutcome {
  oc_code : N;
  oc_lines : list string;
  oc_ready : option (string * string);
  oc_coordinator : option (Coordinator St) }.

Definition stopped (code : N) (lines : list string) : Outcome := mkOutcome code lines None None.

(** [Coordinator::start] with its listener: the coordinator and its port. *)
Definition start_listening (w : World) (l : Locals) : result (Coordinator St * N) :=
  let directory := if decide (lo_state_directory l = "") then None else Some (w_store w (lo_state_directory l)) in
  match start (w_build w) (lo_options l) directory with
  | failure e => failure e
  | success c => match w_bind w (lo_bind_host l) (lo_port l) with failure e => failure e | success port => success (c, port) end
  end.

(** What is printed once the listener is bound. *)
Definition ready_lines (port : N) (c : Coordinator St) : list string :=
  ["port=" +:+ pretty port; "epoch=" +:+ id_to_string (epoch (co_engine c)); "domain=" +:+ id_to_string (co_domain c)].

(** [main]. *)
Definition main (w : World) (args : list string) : Outcome :=
  match parse_arguments (w_version w) args default_Locals with
  | inl (code, lines) => stopped code lines
  | inr l =>
      match start_listening w l with
      | failure _ => stopped 1 []
      | success (c, port) =>
          let ready := if decide (lo_ready_file l = "") then None else Some (lo_ready_file l, "port=" +:+ pretty port +:+ newline_text) in
          let c' := stop ((if lo_accept_once l then w_serve_one w else w_serve w) c) in
          mkOutcome 0 (ready_lines port c ++ ["stopped=1"]) ready (Some c')
      end
  end.

End program.
Arguments World : clear implicits.
Arguments Outcome : clear implicits.

End CoordinatorProgram.
