(* ===== verification/Inspector.v ===== *)
(** * The inspection program ([apps/coherence_cli.cpp], [apps/cli_embedded.inc])

    The arguments of the program, the mode it runs in, and the commands of its
    embedded mode: a process that owns an engine, attaches a store when a directory
    is given, registers itself as a participant and runs one command.  What a
    command does to the engine and the code it exits with are modelled; what it
    prints is not.  The demonstration and [main] are in [Demo.v], the remote mode is
    in [Remote.v]. *)
From Stdlib Require Import Strings.Ascii Strings.String.
From S2P Require Import Prelude Ids Enums Status Bytes Policy Evidence Model Decisions Persistence.
From S2P Require Import Serialize Regions Transport Text.
From S2P Require Import Engine Resolve Core Registry Read Write Invalidate Publish Sync Recovery Auditor.
#[local] Open Scope string_scope.
#[local] Open Scope list_scope.

(** ** Arguments *)

(** [Args]. *)
Record Args := mkArgs { ar_positional : list string; ar_flags : gmap string string }.

Definition has (key : string) (a : Args) : bool := bool_decide (is_Some (ar_flags a !! key)).
Definition get_flag (key fallback : string) (a : Args) : string := default fallback (ar_flags a !! key).
Definition number (key : string) (fallback : N) (a : Args) : N :=
  match ar_flags a !! key with Some text => strtoull 10 text | None => fallback end.

(** Whether an argument is a flag, and its text after the dashes. *)
Definition flag_text (arg : string) : option string :=
  match arg with
  | String a (String b (String c rest)) => if Ascii.eqb a "-" && Ascii.eqb b "-" then Some (String c rest) else None
  | _ => None
  end.
(** [key=value], when there is an equals sign. *)
Definition split_equals (text : string) : option (string * string) :=
  match find_text "=" text with
  | Some i => Some (String.substring 0 i text, drop_text (i + 1) text)
  | None => None
  end.
Definition starts_with_dash (arg : string) : bool :=
  match arg with String c _ => Ascii.eqb c "-" | EmptyString => false end.

Definition set_flag (key value : string) (a : Args) : Args := mkArgs (ar_positional a) (<[key := value]> (ar_flags a)).
Definition add_positional (arg : string) (a : Args) : Args := mkArgs (ar_positional a ++ [arg]) (ar_flags a).

(** The loop over the arguments: the word after a flag is its value unless it starts with a dash. *)
Fixpoint parse_arguments (args : list string) (a : Args) : Args :=
  match args with
  | [] => a
  | arg :: rest =>
      match flag_text arg with
      | None => parse_arguments rest (add_positional arg a)
      | Some text =>
          match split_equals text, rest with
          | Some (key, value), _ => parse_arguments rest (set_flag key value a)
          | None, value :: rest' =>
              if starts_with_dash value then parse_arguments rest (set_flag text "" a) else parse_arguments rest' (set_flag text value a)
          | None, [] => set_flag text "" a
          end
      end
  end.

(** The mode [main] runs in. *)
Inductive Mode := ModeUsage (code : N) | ModeVersion | ModeRemote | ModeEmbedded.
Definition mode_of (a : Args) : Mode :=
  if bool_decide (ar_positional a = []) || bool_decide (head (ar_positional a) = Some "help") || has "help" a then
    ModeUsage (if decide (ar_positional a = []) then 2 else 0)
  else if has "version" a then ModeVersion
  else if has "coordinator" a then ModeRemote else ModeEmbedded.

(** [initialise_remote]: whether the command runs as an observer. *)
Definition mutating_groups : list string :=
  ["object"; "domain"; "region"; "acquire"; "mark-dirty"; "publish"; "invalidate"; "ack-invalidation"; "sync-begin"; "sync-complete";
   "sync-fail"; "release"; "revalidate"; "participant"].
Definition runs_as_observer (a : Args) : bool := negb (bool_decide (default "" (head (ar_positional a)) ∈ mutating_groups)).

(** [build_policy]. *)
Definition base_policy (a : Args) : CoherencePolicy :=
  let model := get_flag "consistency" "strict" a in
  if decide (model = "release_acquire") then release_acquire_policy "cli" else
  if decide (model = "snapshot") then snapshot_policy "cli" else
  if decide (model = "eventual") then eventual_policy (number "stale-bound" 8 a) "cli" else strict_policy "cli".
(** A flag whose value is not a token changes nothing. *)
Definition override {E} `{EnumTable E} (key : string) (set : E → CoherencePolicy → CoherencePolicy) (a : Args) (p : CoherencePolicy)
    : CoherencePolicy :=
  match ar_flags a !! key with
  | Some text => match lookup_value text with Some v => set v p | None => p end
  | None => p
  end.
Definition build_policy (a : Args) : CoherencePolicy :=
  let p := base_policy a in
  let p := override "stale-read" (λ v p, p <| pol_stale_read_policy := v |>) a p in
  let p := override "durability" (λ v p, p <| pol_publication_durability := v |>) a p in
  let p := override "ownership" (λ v p, p <| pol_write_ownership := v |>) a p in
  let p := override "recovery" (λ v p, p <| pol_recovery_policy := v |>) a p in
  let p := if decide (pol_stale_read_policy p = StaleReadPolicy.Never ∧ pol_consistency p = ConsistencyModel.Eventual)
           then p <| pol_stale_read_policy := StaleReadPolicy.Bounded |> else p in
  if decide (pol_consistency p = ConsistencyModel.Strict ∧ pol_stale_read_policy p ≠ StaleReadPolicy.Never)
  then p <| pol_consistency := ConsistencyModel.Eventual |> else p.

(** ** The embedded mode *)

#[local] Set Primitive Projections.
(** [Embedded]. *)
Record Embedded (St : Type) := mkEmbedded {
  em_engine : Impl St;
  em_store : RegionStore;
  em_participant : ParticipantRecord;
  em_domain : CoherenceDomainId;
  em_region_names : gmap string RegionId;
  em_durable : bool }.
Arguments mkEmbedded {St}.
Arguments em_engine {St}. Arguments em_store {St}. Arguments em_participant {St}.
Arguments em_domain {St}. Arguments em_region_names {St}. Arguments em_durable {St}.
#[export] Instance eta_Embedded St : Eta (Embedded St) := fun e => mkEmbedded
  (em_engine e) (em_store e) (em_participant e) (em_domain e) (em_region_names e) (em_durable e).
#[local] Unset Primitive Projections.

Section embedded.
Context {St : Type} `{DurableStore St} (build : string).
Notation Em := (Embedded St).
Implicit Types e : Em.

(** What the process draws and allocates: its boot, the boot of a participant it
    registers, the identity of its request, and where its buffer lies. *)
Record Draws := mkDraws { dw_boot : ParticipantBootId; dw_other_boot : ParticipantBootId; dw_request : RequestId; dw_address : N }.

Definition put_engine (s : Impl St) e : Em := e <| em_engine := s |>.

(** The store of [--state]; [open] is the store of a directory. *)
Definition attach_state (open : string → St) (a : Args) (s : Impl St) : Impl St * result bool :=
  match ar_flags a !! "state" with
  | None => (s, success false)
  | Some directory => let '(s, recovered) := attach_store (open directory) s in (s, match recovered with success _ => success true | failure c => failure c end)
  end.
(** [initialise_embedded]; a failure ends the program with code one. *)
Definition initialise_embedded (dw : Draws) (open : string → St) (a : Args) : Impl St * option Em :=
  let '(s, attached) := attach_state open a (make_engine default_EngineConfig) in
  match attached with
  | failure _ => (s, None)
  | success durable =>
      match register_participant "cli" (dw_boot dw) (epoch s) "cli" s with
      | (s, failure _) => (s, None)
      | (s, success p) =>
          let domain := match sn_domains (snapshot build default_SnapshotOptions s) with d :: _ => d_id d | [] => nil_id end in
          (s, Some (mkEmbedded s empty_region_store p domain ∅ durable))
      end
  end.

(** [authority_for]. *)
Definition authority_for (dw : Draws) (object : ObjectId) e : AuthorityContext :=
  let '(generation, policy) :=
    match get_object object (em_engine e) with success o => (o_generation o, o_policy_generation o) | failure _ => (nil_id, nil_id) end in
  mkAuthorityContext (epoch (em_engine e)) (p_id (em_participant e)) (p_boot (em_participant e)) object generation policy (dw_request dw).

(** The fingerprint of a region of the store of the process, which holds only host buffers. *)
Definition stored_content (region : RegionId) (otherwise : ContentFingerprint) e : ContentFingerprint :=
  match find_region region (em_store e) with
  | None => otherwise
  | Some stored => match region_bytes (mkSharedMemory ∅ 0) stored with Some bytes => fingerprint_bytes bytes | None => otherwise end
  end.

(** The answer of an engine operation: the code the program exits with. *)
Definition answer {A} (code : A → N) (r : Impl St * result A) e : Em * N :=
  (put_engine r.1 e, match r.2 with success v => code v | failure _ => 1%N end).
Definition status_answer (r : Impl St * StatusCode.t) e : Em * N := (put_engine r.1 e, if ok r.2 then 0%N else 1%N).
Definition always {A} (code : N) (_ : A) : N := code.

(** The identities a command names. *)
Definition id_of {t} (key : string) (a : Args) : StrongId t := from_value (number key 0 a).

(** [domain create], [object create]. *)
Definition domain_create (name : string) e : Em * result CoherenceDomainId :=
  match create_domain name (em_engine e) with
  | (s, failure c) => (put_engine s e, failure c)
  | (s, success d) => (put_engine s e <| em_domain := d_id d |>, success (d_id d))
  end.
Definition choose_domain (a : Args) e : Em * result CoherenceDomainId :=
  let domain := id_of "domain" a in
  if defined domain then (e, success domain) else
  if defined (em_domain e) then (e, success (em_domain e)) else domain_create "default" e.
Definition object_create (a : Args) e : Em * N :=
  match choose_domain a e with
  | (e, failure _) => (e, 1%N)
  | (e, success domain) =>
      answer (always 0%N) (register_object domain (get_flag "name" "object" a) (number "length" 0 a) (build_policy a) (em_engine e)) e
  end.

(** [region register]: the local buffer, and the registration of it. *)
Definition add_local (dw : Draws) (a : Args) (domain : MemoryDomain.t) e : Em * result RegionId :=
  let '(rs, created) :=
    if decide (domain = MemoryDomain.CxlClass)
    then add_synthetic_cxl_region (get_flag "name" "replica" a) (number "length" 0 a) (number "seed" 1 a) (dw_address dw) (em_store e)
    else add_host_region (get_flag "name" "replica" a) (number "length" 0 a) domain (number "seed" 1 a) nil_id (dw_address dw) (em_store e) in
  (e <| em_store := rs |>, created).
Definition region_register (dw : Draws) (a : Args) e : Em * N :=
  let object := id_of "object" a in
  match get_object object (em_engine e) with
  | failure _ => (e, 1%N)
  | success record =>
      match (match ar_flags a !! "memory-domain" with Some text => lookup_value text | None => Some MemoryDomain.HostPageable end) with
      | None => (e, 1%N)
      | Some domain =>
          match add_local dw a domain e with
          | (e, failure _) => (e, 1%N)
          | (e, success id) =>
              match find_region id (em_store e) with
              | None => (e, 1%N)
              | Some stored =>
                  let registration := mkRegionRegistration (authority_for dw object e) (o_domain record) id (get_flag "name" "replica" a)
                    (sr_memory_domain stored) (sr_evidence_class stored) (number "offset" 0 a) (number "length" 0 a)
                    (number "address" (sr_address_hint stored) a) nil_id true nil_id (stored_content id default_ContentFingerprint e) in
                  match register_region registration (em_engine e) with
                  | (s, failure _) => (put_engine s e, 1%N)
                  | (s, success region) => (put_engine s e <| em_region_names ::= <[get_flag "name" "replica" a := r_id region]> |>, 0%N)
                  end
              end
          end
      end
  end.

(** [acquire]. *)
Definition read_code (d : ReadDecision) : N :=
  if decide (rd_outcome d = ReadOutcome.ReadCurrent ∨ rd_outcome d = ReadOutcome.ReadStaleAllowed) then 0%N else 3%N.
Definition acquire (dw : Draws) (verb : string) (a : Args) e : Em * N :=
  let context := authority_for dw (id_of "object" a) e in
  if decide (verb = "read") then
    answer read_code (acquire_read (mkReadRequest context (id_of "region" a) (id_of "region-generation" a) (id_of "snapshot-version" a) true) (em_engine e)) e
  else
    answer (λ g, if wg_granted g then 0%N else 3%N)
      (acquire_write (mkWriteRequest context (id_of "region" a) (id_of "region-generation" a)) (em_engine e)) e.

(** [mark-dirty], [revalidate], [publish]. *)
Definition cli_mark_dirty (dw : Draws) (a : Args) e : Em * N :=
  answer (always 0%N) (mark_dirty (mkDirtyRequest (authority_for dw (id_of "object" a) e) (id_of "region" a) (id_of "region-generation" a)
    (id_of "ownership" a) (id_of "base-version" a) default_ContentFingerprint) (em_engine e)) e.
Definition cli_revalidate (dw : Draws) (a : Args) e : Em * N :=
  let given := mkContentFingerprint (cf_digest default_ContentFingerprint) (number "content-crc" 0 a mod 2 ^ 32) (number "content-length" 0 a)
                 (has "content-crc" a) in
  answer (always 0%N) (revalidate_region (mkRevalidateRequest (authority_for dw (id_of "object" a) e) (id_of "region" a)
    (id_of "region-generation" a) (id_of "version" a) (stored_content (id_of "region" a) given e)
    (bool_decide (get_flag "byte-compared" "true" a = "true"))) (em_engine e)) e.
Definition cli_publish (dw : Draws) (a : Args) e : Em * N :=
  answer (λ r, if decide (pr_state r = PublicationState.Committed) then 0%N else 3%N)
    (publish (mkPublishRequest (authority_for dw (id_of "object" a) e) (id_of "ownership" a) (id_of "region" a) (id_of "region-generation" a)
      (id_of "base-version" a) (stored_content (id_of "region" a) default_ContentFingerprint e) (has "allow-initial" a)) (em_engine e)) e.

(** [invalidate], [ack-invalidation]. *)
Definition cli_invalidate (a : Args) e : Em * N :=
  let object := id_of "object" a in
  let '(generation, policy, ownership, version) :=
    match get_object object (em_engine e) with
    | success o => (o_generation o, o_policy_generation o, o_ownership_generation o, o_authoritative_version o)
    | failure _ => (nil_id, nil_id, nil_id, nil_id)
    end in
  let context := mkAuthorityContext (epoch (em_engine e)) nil_id nil_uuid object generation policy nil_id in
  answer (always 0%N) (invalidate (mkInvalidationRequest context (id_of "region" a) (id_of "region-generation" a)
    (from_value (number "replica-generation" 1 a)) ownership version (bool_decide (get_flag "ack" "true" a = "true"))) (em_engine e)) e.
Definition cli_acknowledge (dw : Draws) (a : Args) e : Em * N :=
  answer (always 0%N) (acknowledge_invalidation (mkInvalidationAck (authority_for dw (id_of "object" a) e) (id_of "invalidation" a)
    (id_of "region" a) (id_of "region-generation" a) (id_of "replica-generation" a) (id_of "superseded-version" a)) (em_engine e)) e.

(** [sync-begin], [sync-complete], [release]. *)
Definition cli_sync_begin (dw : Draws) (a : Args) e : Em * N :=
  answer (always 0%N) (begin_sync (mkSyncRequest (authority_for dw (id_of "object" a) e) SyncOperationKind.Copy (id_of "source" a)
    (id_of "source-generation" a) (id_of "destination" a) (id_of "destination-generation" a) (id_of "ownership" a)
    (get_flag "transport" "delegated" a)) (em_engine e)) e.
Definition cli_sync_complete (dw : Draws) (a : Args) e : Em * N :=
  answer (λ o, if decide (so_state o = SyncState.Completed) then 0%N else 3%N)
    (complete_sync (mkSyncCompleteRequest (authority_for dw (id_of "object" a) e) (id_of "operation" a) (id_of "destination" a)
      (id_of "destination-generation" a) (id_of "version" a) (stored_content (id_of "destination" a) default_ContentFingerprint e)
      (bool_decide (get_flag "content-moved" "true" a = "true"))) (em_engine e)) e.
Definition cli_release (dw : Draws) (a : Args) e : Em * N :=
  answer (always 0%N) (release (mkReleaseRequest (authority_for dw (id_of "object" a) e) (id_of "lease" a) (id_of "ownership" a)
    (has "write" a)) (em_engine e)) e.

(** [object]. *)
Definition object_command (verb : string) (a : Args) e : option (Em * N) :=
  let s := em_engine e in
  if decide (verb = "create") then Some (object_create a e) else
  if decide (verb = "show" ∨ verb = "list") then Some (e, 0%N) else
  if decide (verb = "resolve-recovery") then
    Some match get_object (id_of "object" a) s with
         | failure _ => (e, 1%N)
         | success o => answer (always 0%N) (resolve_recovery (id_of "object" a) (from_value (number "generation" (value (o_generation o)) a))
                          (epoch s) (get_flag "note" "" a) s) e
         end else
  if decide (verb = "retire") then Some (status_answer (retire_object (id_of "object" a) (id_of "generation" a) (epoch s) s) e) else None.
(** [region]. *)
Definition region_command (dw : Draws) (verb : string) (a : Args) e : option (Em * N) :=
  let s := em_engine e in
  if decide (verb = "register") then Some (region_register dw a e) else
  if decide (verb = "list" ∨ verb = "show") then Some (e, 0%N) else
  if decide (verb = "retire") then Some (status_answer (retire_region (id_of "region" a) (id_of "generation" a) (epoch s) s) e) else None.
(** [participant]. *)
Definition participant_command (dw : Draws) (verb : string) (a : Args) e : option (Em * N) :=
  let s := em_engine e in
  if decide (verb = "register") then
    Some (answer (always 0%N) (register_participant (get_flag "name" "participant" a) (dw_other_boot dw) (epoch s) (get_flag "node" "" a) s) e) else
  if decide (verb = "list" ∨ verb = "show") then Some (e, 0%N) else
  if decide (verb = "fence") then
    Some (answer (always 0%N) (fence_participant (id_of "id" a) (epoch s) (get_flag "reason" "fenced by operator" a) s) e) else None.

(** The groups with verbs; none for a group or a verb that is not one of them. *)
Definition verb_command (dw : Draws) (group verb : string) (a : Args) e : option (Em * N) :=
  if decide (group = "domain") then
    (if decide (verb = "create") then
       let '(e, created) := domain_create (get_flag "name" "default" a) e in Some (e, match created with success _ => 0%N | failure _ => 1%N end)
     else if decide (verb = "show") then Some (e, 0%N) else None) else
  if decide (group = "object") then object_command verb a e else
  if decide (group = "policy" ∧ verb = "show") then
    Some (e, match get_policy (id_of "object" a) (em_engine e) with success _ => 0%N | failure _ => 1%N end) else
  if decide (group = "region") then region_command dw verb a e else
  if decide (group = "acquire" ∧ (verb = "read" ∨ verb = "write")) then Some (acquire dw verb a e) else
  if decide (group = "participant") then participant_command dw verb a e else None.

(** The groups without verbs. *)
Definition plain_command (dw : Draws) (group : string) (a : Args) e : option (Em * N) :=
  if decide (group = "mark-dirty") then Some (cli_mark_dirty dw a e) else
  if decide (group = "revalidate") then Some (cli_revalidate dw a e) else
  if decide (group = "publish") then Some (cli_publish dw a e) else
  if decide (group = "invalidate") then Some (cli_invalidate a e) else
  if decide (group = "ack-invalidation") then Some (cli_acknowledge dw a e) else
  if decide (group = "sync-begin") then Some (cli_sync_begin dw a e) else
  if decide (group = "sync-complete") then Some (cli_sync_complete dw a e) else
  if decide (group = "release") then Some (cli_release dw a e) else
  if decide (group = "audit" ∨ group = "verify") then Some (e, if ar_clean (audit (em_engine e)) then 0%N else 4%N) else
  if decide (group = "status" ∨ group = "snapshot" ∨ group = "decisions" ∨ group = "recovery") then Some (e, 0%N) else None.

End embedded.
