(* ===== verification/Remote.v ===== *)
(** * The remote mode of the inspection program ([apps/coherence_cli.cpp], [apps/cli_remote.inc])

    The program attached to a running coordinator: its session, one exchange
    for every command, what it prints and the code it exits with.  The prose of
    a status that the client itself produced is an argument ([says]); that of an
    answer is in the answer. *)
From Stdlib Require Import Strings.Byte Strings.Ascii Strings.String.
From S2P Require Import Prelude Ids Enums Status Bytes Policy Evidence Model Decisions Persistence.
From S2P Require Import Serialize Codec Messages Framing Protocol Transport Text Client Render Programs Inspector.
#[local] Open Scope string_scope.
#[local] Open Scope list_scope.

#[local] Set Primitive Projections.
(** [Remote], and what the program has printed. *)
Record Remote := mkRemote { rm_client : ControlClient; rm_boot : ParticipantBootId; rm_printed : list string }.
#[export] Instance eta_Remote : Eta Remote := fun st => mkRemote (rm_client st) (rm_boot st) (rm_printed st).
#[local] Unset Primitive Projections.
Implicit Types st : Remote.

(** ** Printing *)

(** What [printf] prints of a text for [%s]. *)
Definition c_str (text : string) : string := until (is_char "000") text.
Definition emit (text : string) st : Remote := st <| rm_printed ::= λ out, out ++ [c_str text] |>.
Definition failure_line (code : StatusCode.t) (message : string) : string :=
  "error code=" +:+ status_code_name code +:+ " message=" +:+ c_str message.
Definition emit_failure (code : StatusCode.t) (message : string) st : Remote :=
  st <| rm_printed ::= λ out, out ++ [failure_line code message] |>.
(** [emit_block]: the lines of the text. *)
Definition emit_block (text : string) st : Remote := foldl (λ st line, emit line st) st (lines_of text).

Definition render_domain_record (d : DomainRecord) : string :=
  "domain id=" +:+ id_to_string (d_id d) +:+ " name=" +:+ d_name d +:+ " lifecycle=" +:+ lookup_token (d_lifecycle d)
  +:+ " created_epoch=" +:+ id_to_string (d_created_epoch d) +:+ " current_epoch=" +:+ id_to_string (d_current_epoch d).
Definition render_release_record (o : ReleaseOutcome) (rationale : string) : string :=
  "release reason=" +:+ status_code_name (ro_reason o) +:+ " lease=" +:+ id_to_string (ro_lease o)
  +:+ " already_released=" +:+ yes_no (ro_already_released o) +:+ newline_text +:+ "  rationale=" +:+ rationale.

Section remote.
Context (build : string) (says : StatusCode.t → string).

(** ** Exchanges *)

(** The client's request; the program keeps the client. *)
Definition remote_ask (type : MessageType.t) (body : list byte) st : Remote * result Exchange :=
  let '(cl, r) := request type body (rm_client st) in (st <| rm_client := cl |>, r).

(** What both kinds of exchanges do when there is no accepted answer. *)
Definition accepted_or {A} (r : Remote * result Exchange) (k : list byte → Remote → Remote * A) (otherwise : A) : Remote * A :=
  let '(st, r) := r in
  match r with
  | failure e => (emit_failure e (says e) st, otherwise)
  | success e =>
      if decide (re_code (ex_envelope e) ≠ StatusCode.Ok)
      then (emit_failure (re_code (ex_envelope e)) (re_message (ex_envelope e)) st, otherwise)
      else k (ex_payload e) st
  end.

(** [exchange_record]: the payload must be one record and nothing else. *)
Definition exchange_record {A} (type : MessageType.t) (body : list byte) (decode : Reader A) (render : A → string) st : Remote * N :=
  accepted_or (remote_ask type body st) (λ payload st,
    match decode payload with
    | Read record [] => (emit_block (render record) st, 0%N)
    | _ => (emit "error code=protocol_violation message=response payload could not be decoded" st, 1%N)
    end) 1%N.

(** [exchange_text]. *)
Definition exchange_text (type : MessageType.t) (body : list byte) st : Remote * N :=
  accepted_or (remote_ask type body st) (λ payload st,
    match ByteReader.text (2 ^ 22) payload with
    | Read text _ => (emit_block text st, 0%N)
    | _ => (emit "error code=protocol_violation message=text payload could not be decoded" st, 1%N)
    end) 1%N.

(** [audit] and [verify]: the answer's text decides the code. *)
Definition remote_audit st : Remote * N :=
  accepted_or (remote_ask MessageType.Audit [] st) (λ payload st,
    match ByteReader.text (2 ^ 22) payload with
    | Read text _ => (emit_block text st, match find_text "result=clean" text with Some _ => 0%N | None => 4%N end)
    | _ => (st, 1%N)
    end) 1%N.

(** [status]: any answer to the ping is one. *)
Definition remote_status st : Remote * N :=
  let session := cl_session (rm_client st) in
  let st := emit ("build=" +:+ build) st in
  let st := emit ("epoch=" +:+ id_to_string (hr_epoch session)) st in
  let st := emit ("session=" +:+ uuid_to_string (hr_session session)) st in
  let st := emit ("participant=" +:+ id_to_string (hr_participant session)) st in
  let st := emit (if hr_observer session then "mode=observer" else "mode=participant") st in
  let '(cl, pong) := ping 1 (rm_client st) in
  let st := st <| rm_client := cl |> in
  match pong with
  | failure e => (emit_failure e (says e) st, 1%N)
  | success _ => (emit "ping=ok" st, 0%N)
  end.

(** ** Requests *)

Section requests.
Context (fresh : RequestId) (ep : CoordinatorEpoch) (a : Args).

(** The context every request starts with; the coordinator fills in the session. *)
Definition remote_context : AuthorityContext := default_AuthorityContext
  <| ac_epoch := ep |> <| ac_object := id_of "object" a |>
  <| ac_object_generation := from_value (number "object-generation" 1 a) |> <| ac_request := fresh |>.

(** The fingerprint of [--content-crc] and [--content-length]. *)
Definition remote_content : ContentFingerprint := default_ContentFingerprint
  <| cf_crc32c := (number "content-crc" 0 a mod 2 ^ 32)%N |> <| cf_length := number "content-length" 0 a |>
  <| cf_defined := has "content-crc" a |>.

Definition remote_snapshot_options : SnapshotOptions :=
  default_SnapshotOptions <| sno_object_filter := id_of "object" a |>.

(** The memory domain of a registration; none when its token is not one. *)
Definition remote_memory_domain : option MemoryDomain.t :=
  match ar_flags a !! "memory-domain" with Some text => lookup_value text | None => Some MemoryDomain.Remote end.
Definition remote_evidence_class : EvidenceClass.t :=
  match ar_flags a !! "evidence" with
  | Some text => default EvidenceClass.Unsupported (lookup_value text)
  | None => EvidenceClass.Synthetic
  end.
Definition remote_registration (domain : MemoryDomain.t) : RegionRegistration := default_RegionRegistration
  <| rn_context := remote_context |>
  <| rn_requested_id := id_of "region" a |> <| rn_requested_replica := id_of "replica" a |>
  <| rn_name := get_flag "name" "replica" a |> <| rn_memory_domain := domain |>
  <| rn_evidence_class := remote_evidence_class |>
  <| rn_offset := number "offset" 0 a |> <| rn_length := number "length" 0 a |>
  <| rn_address_hint := number "address" 0 a |>
  <| rn_declared_writable := bool_decide (get_flag "writable" "true" a = "true") |>
  <| rn_content := remote_content |>.

Definition remote_read_request : ReadRequest := default_ReadRequest
  <| rr_context := remote_context |>
  <| rr_region := id_of "region" a |> <| rr_region_generation := id_of "region-generation" a |>
  <| rr_snapshot_version := id_of "snapshot-version" a |> <| rr_require_current := true |>.
Definition remote_write_request : WriteRequest := default_WriteRequest
  <| wr_context := remote_context |>
  <| wr_region := id_of "region" a |> <| wr_region_generation := id_of "region-generation" a |>.
Definition remote_publish_request : PublishRequest := default_PublishRequest
  <| pb_context := remote_context |> <| pb_ownership_generation := id_of "ownership" a |>
  <| pb_region := id_of "region" a |> <| pb_region_generation := id_of "region-generation" a |>
  <| pb_expected_base_version := id_of "base-version" a |>
  <| pb_allow_without_dirty := has "allow-initial" a |> <| pb_content := remote_content |>.
(** The only request without an identity of its own. *)
Definition remote_invalidation_request : InvalidationRequest := default_InvalidationRequest
  <| ir_context := remote_context <| ac_request := nil_id |> |> <| ir_ownership_generation := id_of "ownership" a |>
  <| ir_target_region := id_of "region" a |> <| ir_target_region_generation := id_of "region-generation" a |>
  <| ir_target_replica_generation := from_value (number "replica-generation" 1 a) |>
  <| ir_published_version := id_of "version" a |>
  <| ir_acknowledgement_required := bool_decide (get_flag "ack" "true" a = "true") |>.
Definition remote_sync_request : SyncRequest := default_SyncRequest
  <| sr_context := remote_context |>
  <| sr_source_region := id_of "source" a |> <| sr_source_region_generation := id_of "source-generation" a |>
  <| sr_destination_region := id_of "destination" a |>
  <| sr_destination_region_generation := id_of "destination-generation" a |>
  <| sr_ownership_generation := id_of "ownership" a |> <| sr_transport := get_flag "transport" "delegated" a |>.
Definition remote_sync_complete : SyncCompleteRequest := default_SyncCompleteRequest
  <| sc_context := remote_context |> <| sc_operation := id_of "operation" a |>
  <| sc_destination_region := id_of "destination" a |>
  <| sc_destination_region_generation := id_of "destination-generation" a |>
  <| sc_destination_new_version := id_of "version" a |>
  <| sc_content_moved := bool_decide (get_flag "content-moved" "true" a = "true") |>
  <| sc_observed_content := remote_content |>.
Definition remote_revalidate_request : RevalidateRequest := default_RevalidateRequest
  <| rv_context := remote_context |>
  <| rv_region := id_of "region" a |> <| rv_region_generation := id_of "region-generation" a |>
  <| rv_observed_version := id_of "version" a |> <| rv_content := remote_content |>
  <| rv_byte_compared := bool_decide (get_flag "byte-compared" "true" a = "true") |>.
Definition remote_release_request : ReleaseRequest := default_ReleaseRequest
  <| rl_context := remote_context |> <| rl_lease := id_of "lease" a |>
  <| rl_ownership_generation := id_of "ownership" a |> <| rl_release_write_authority := has "write" a |>.
Definition remote_dirty_request : DirtyRequest := default_DirtyRequest
  <| dr_context := remote_context |>
  <| dr_region := id_of "region" a |> <| dr_region_generation := id_of "region-generation" a |>
  <| dr_ownership_generation := id_of "ownership" a |> <| dr_base_version := id_of "base-version" a |>.

(** ** Commands *)

(** The decoders the program hands to [exchange_record]; a decision comes with its rationale. *)
Notation limits := default_decode_limits.

(** The commands without a verb; none for another group. *)
Definition remote_plain (group : string) : option (Remote → Remote * N) :=
  if decide (group = "status") then Some remote_status else
  if decide (group = "snapshot") then
    Some (exchange_text MessageType.Snapshot (encode_snapshot_options remote_snapshot_options)) else
  if decide (group = "audit" ∨ group = "verify") then Some remote_audit else
  if decide (group = "decisions") then Some (exchange_text MessageType.DecisionLog []) else
  if decide (group = "recovery") then Some (exchange_text MessageType.RecoveryInfo []) else
  if decide (group = "publish") then
    Some (exchange_record MessageType.Publish (encode_publish_request remote_publish_request)
      (decode_publication limits) (λ '(r, rationale), render_publication r rationale)) else
  if decide (group = "invalidate") then
    Some (exchange_record MessageType.Invalidate (encode_invalidation_request remote_invalidation_request)
      (decode_invalidation_outcome limits) (λ '(o, rationale), render_invalidation_outcome o rationale)) else
  if decide (group = "sync-begin") then
    Some (exchange_record MessageType.SyncBegin (encode_sync_request remote_sync_request)
      (decode_sync_outcome limits) (λ '(o, rationale), render_sync_outcome o rationale)) else
  if decide (group = "sync-complete") then
    Some (exchange_record MessageType.SyncComplete (encode_sync_complete remote_sync_complete)
      (decode_sync_outcome limits) (λ '(o, rationale), render_sync_outcome o rationale)) else
  if decide (group = "revalidate") then
    Some (exchange_record MessageType.Revalidate (encode_revalidate_request remote_revalidate_request)
      (decode_region limits) render_region) else
  if decide (group = "release") then
    Some (exchange_record MessageType.Release (encode_release_request remote_release_request)
      (decode_release_outcome limits) (λ '(o, rationale), render_release_record o rationale)) else
  if decide (group = "mark-dirty") then
    Some (exchange_text MessageType.MarkDirty (encode_dirty_request remote_dirty_request)) else
  None.

(** [region register]. *)
Definition remote_region_register st : Remote * N :=
  match remote_memory_domain with
  | None => (emit "error code=invalid_argument message=unknown memory domain" st, 1%N)
  | Some domain =>
      exchange_record MessageType.RegisterRegion (encode_region_registration (remote_registration domain))
        (decode_region limits) render_region st
  end.

(** The commands of a group and a verb; none for another one. *)
Definition remote_object (verb : string) : option (Remote → Remote * N) :=
  if decide (verb = "list" ∨ verb = "show") then Some (exchange_text MessageType.ListObjects []) else
  if decide (verb = "create") then
    Some (exchange_record MessageType.RegisterObject
      (ByteWriter.strong_id (id_of "domain" a : CoherenceDomainId) ++ ByteWriter.text (get_flag "name" "object" a)
        ++ ByteWriter.u64 (number "length" 0 a) ++ encode_policy (build_policy a))
      (decode_object limits) render_object) else
  if decide (verb = "resolve-recovery") then
    Some (exchange_record MessageType.ResolveRecovery
      (ByteWriter.strong_id (id_of "object" a : ObjectId) ++ ByteWriter.u64 (number "generation" 0 a)
        ++ ByteWriter.text (get_flag "note" "" a))
      (decode_object limits) render_object) else
  if decide (verb = "retire") then
    Some (exchange_text MessageType.RetireObject (ByteWriter.u64 (number "object" 0 a) ++ ByteWriter.u64 (number "generation" 0 a))) else
  None.
Definition remote_region (verb : string) : option (Remote → Remote * N) :=
  if decide (verb = "list" ∨ verb = "show") then Some (exchange_text MessageType.ListRegions []) else
  if decide (verb = "register") then Some remote_region_register else
  if decide (verb = "retire") then
    Some (exchange_text MessageType.RetireRegion (ByteWriter.u64 (number "region" 0 a) ++ ByteWriter.u64 (number "generation" 0 a))) else
  None.
Definition remote_participant (verb : string) : option (Remote → Remote * N) :=
  if decide (verb = "list" ∨ verb = "show") then Some (exchange_text MessageType.ListParticipants []) else
  if decide (verb = "fence") then
    Some (exchange_record MessageType.FenceParticipant
      (ByteWriter.strong_id (id_of "id" a : ParticipantId) ++ ByteWriter.text (get_flag "reason" "fenced by operator" a))
      (decode_participant limits) render_participant) else
  None.
Definition remote_domain (verb : string) : option (Remote → Remote * N) :=
  if decide (verb = "create") then
    Some (exchange_record MessageType.CreateDomain (ByteWriter.text (get_flag "name" "default" a))
      (decode_domain limits) render_domain_record) else
  if decide (verb = "show") then Some (exchange_text MessageType.Snapshot []) else None.
Definition remote_acquire (verb : string) : option (Remote → Remote * N) :=
  if decide (verb = "read") then
    Some (exchange_record MessageType.AcquireRead (encode_read_request remote_read_request)
      (decode_read_decision limits) (λ '(d, rationale), render_read_decision d rationale)) else
  if decide (verb = "write") then
    Some (exchange_record MessageType.AcquireWrite (encode_write_request remote_write_request)
      (decode_write_grant limits) (λ '(g, rationale), render_write_grant g rationale)) else
  None.
Definition remote_verb (group verb : string) : option (Remote → Remote * N) :=
  if decide (group = "object") then remote_object verb else
  if decide (group = "region") then remote_region verb else
  if decide (group = "participant") then remote_participant verb else
  if decide (group = "domain") then remote_domain verb else
  if decide (group = "acquire") then remote_acquire verb else None.

(** The command of the arguments. *)
Definition remote_command : option (Remote → Remote * N) :=
  match ar_positional a with
  | [] => None
  | group :: rest => match remote_plain group with Some f => Some f | None => remote_verb group (default "" (head rest)) end
  end.
End requests.

(** [run_remote]; [main] calls it with a command. *)
Definition run_remote (fresh : RequestId) (a : Args) st : Remote * N :=
  match remote_command fresh (hr_epoch (cl_session (rm_client st))) a with
  | Some f => f st
  | None => (st, 2%N)
  end.

(** ** Sessions *)

Definition remote_options (boot : ParticipantBootId) (a : Args) : ClientOptions :=
  mkClientOptions (get_flag "name" "cli-inspector" a) boot "cli" (runs_as_observer a) default_FrameLimits.

(** [initialise_remote]; [connect] is what connecting to an address gives. *)
Definition initialise_remote (boot : ParticipantBootId) (connect : string → N → result Socket) (a : Args) : Remote * bool :=
  let st := mkRemote default_ControlClient nil_uuid [] in
  match parse_endpoint (get_flag "coordinator" "" a) 0 with
  | failure e => (emit_failure e (says e) st, false)
  | success (host, port) =>
      let '(cl, status) := connect_and_handshake build (remote_options boot a) (connect host port) (rm_client st) in
      let st := st <| rm_client := cl |> in
      if ok status then (st <| rm_boot := boot |>, true) else (emit_failure status (says status) st, false)
  end.

(** [main] in the remote mode: the program's last state and its code.  The
    client says goodbye and closes, by its destructor when the handshake failed. *)
Definition remote_main (boot : ParticipantBootId) (fresh : RequestId) (connect : string → N → result Socket) (closed : StatusCode.t)
    (a : Args) : Remote * N :=
  let '(st, ready) := initialise_remote boot connect a in
  let '(st, code) := if ready then run_remote fresh a st else (st, 1%N) in
  (st <| rm_client ::= λ cl, (close_client closed cl).1 |>, code).
End remote.
