(* ===== verification/Demo.v ===== *)
(** * The demonstration of the inspection program ([apps/cli_demo.inc]) and its embedded mode

    The demonstration is a complete lifecycle over real bytes in one process, in which every step is
    checked.  An action of the demonstration changes the engine and the regions
    of the process and the report of its checks; it has no result when the code
    would read the value of a failed [Result], which is undefined, or look up a
    region that is not in the store, which throws. *)
From Stdlib Require Import Strings.Byte Strings.Ascii Strings.String.
From S2P Require Import Prelude Ids Enums Status Bytes Policy Evidence Model Decisions Persistence.
From S2P Require Import Serialize Regions Transport Text.
From S2P Require Import Engine Resolve Core Registry Read Write Invalidate Publish Sync Recovery Auditor Inspector.
#[local] Open Scope string_scope.
#[local] Open Scope list_scope.

#[local] Set Primitive Projections.
(** The process, the checks it has made ([DemoReport]), what it draws and where its buffers lie. *)
Record Demo (St : Type) := mkDemo {
  dm_state : Embedded St;
  dm_report : list (string * bool);
  dm_requests : list RequestId;
  dm_addresses : list N }.
Arguments mkDemo {St}.
Arguments dm_state {St}. Arguments dm_report {St}. Arguments dm_requests {St}. Arguments dm_addresses {St}.
#[export] Instance eta_Demo St : Eta (Demo St) := fun d => mkDemo (dm_state d) (dm_report d) (dm_requests d) (dm_addresses d).
#[local] Unset Primitive Projections.

Definition failures (report : list (string * bool)) : nat := length (List.filter (λ c, negb c.2) report).

(** ** Actions *)

Definition demo (St A : Type) : Type := Demo St → option (Demo St * A).
Definition demo_ret {St A} (a : A) : demo St A := λ d, Some (d, a).
Definition demo_bind {St A B} (m : demo St A) (k : A → demo St B) : demo St B := λ d,
  match m d with Some (d, a) => k a d | None => None end.
Declare Scope demo_scope.
Delimit Scope demo_scope with demo.
Notation "'let$' x := m 'in' k" := (demo_bind m (λ x, k)) (at level 200, x binder, m at level 100, k at level 200) : demo_scope.
Notation "'do$' m 'in' k" := (demo_bind m (λ _ : unit, k)) (at level 200, m at level 100, k at level 200) : demo_scope.
#[local] Open Scope demo_scope.

Section demo.
Context {St : Type} `{DurableStore St} (build : string).
Notation demo := (demo St).

Definition alter_state (f : Embedded St → Embedded St) : demo unit := λ d, Some (d <| dm_state ::= f |>, tt).
(** An operation of the engine, and a question to it. *)
Definition on_engine {A} (f : Impl St → Impl St * A) : demo A := λ d,
  let '(s, a) := f (em_engine (dm_state d)) in Some (d <| dm_state ::= put_engine s |>, a).
Definition ask_engine {A} (f : Impl St → A) : demo A := λ d, Some (d, f (em_engine (dm_state d))).
(** [Result::value], [RegionStore::at]. *)
Definition value_of {A} (r : result A) : demo A := λ d, match r with success a => Some (d, a) | failure _ => None end.
Definition at_region (id : RegionId) : demo StoredRegion := λ d,
  match find_region id (em_store (dm_state d)) with Some r => Some (d, r) | None => None end.
Definition demo_content (id : RegionId) : demo ContentFingerprint :=
  let$ stored := at_region id in demo_ret (fingerprint_bytes (default [] (region_bytes (mkSharedMemory ∅ 0) stored))).
(** An operation on the regions of the process, which are all buffers of its own. *)
Definition on_regions (f : SharedMemory → RegionStore → option (SharedMemory * RegionStore * StatusCode.t)) : demo StatusCode.t := λ d,
  match f (mkSharedMemory ∅ 0) (em_store (dm_state d)) with
  | Some (_, rs, status) => Some (d <| dm_state ::= λ e, e <| em_store := rs |> |>, status)
  | None => None
  end.
(** [DemoReport::check]. *)
Definition demo_check (name : string) (ok : bool) : demo unit := λ d, Some (d <| dm_report ::= λ r, r ++ [(name, ok)] |>, tt).

Definition passes {A} (r : result A) (p : A → bool) : bool := match r with success a => p a | failure _ => false end.

(** [authority_for]; every call draws a request identity, nil once the source is exhausted. *)
Definition authority (object : ObjectId) : demo AuthorityContext := λ d,
  let request := default nil_id (head (dm_requests d)) in
  Some (d <| dm_requests ::= tail |>, authority_for (mkDraws nil_uuid nil_uuid request 0) object (dm_state d)).

(** ** Pieces *)

(** [demo_register_region]. *)
Definition add_buffer (name : string) (len : N) (domain : MemoryDomain.t) : demo (result RegionId) := λ d,
  let address := default 0%N (head (dm_addresses d)) in
  let store := em_store (dm_state d) in
  let '(rs, created) :=
    if decide (domain = MemoryDomain.CxlClass) then add_synthetic_cxl_region name len 7 address store
    else add_host_region name len domain 7 nil_id address store in
  Some (d <| dm_addresses ::= tail |> <| dm_state ::= λ e, e <| em_store := rs |> |>, created).
Definition demo_register_region (object : ObjectId) (name : string) (len : N) (domain : MemoryDomain.t) (class : EvidenceClass.t)
    (initial : VersionId) : demo RegionId :=
  let$ created := add_buffer name len domain in
  match created with
  | failure _ => demo_ret nil_id
  | success id =>
      do$ alter_state (λ e, e <| em_store ::= λ rs, rs <| rs_regions ::= alter (λ r, r <| sr_evidence_class := class |>) id |> |>) in
      let$ context := authority object in
      let$ record := ask_engine (get_object object) in
      let$ record := value_of record in
      let$ stored := at_region id in
      let$ content := demo_content id in
      let$ region := on_engine (register_region (mkRegionRegistration context (o_domain record) id name domain class 0 len
        (sr_address_hint stored) nil_id true initial content)) in
      match region with
      | failure _ => demo_ret nil_id
      | success region => do$ alter_state (λ e, e <| em_region_names ::= <[name := r_id region]> |>) in demo_ret (r_id region)
      end
  end.

Definition demo_generation (region : RegionId) : demo RegionGeneration :=
  let$ record := ask_engine (get_region region) in
  let$ record := value_of record in demo_ret (r_generation record).

(** The lambdas [grant_write] and [release_write]. *)
Definition demo_grant_write (object : ObjectId) (region : RegionId) : demo (result WriteGrant) :=
  let$ context := authority object in
  let$ generation := demo_generation region in
  on_engine (acquire_write (mkWriteRequest context region generation)).
Definition demo_release_write (object : ObjectId) (ownership : OwnershipGeneration) : demo (result ReleaseOutcome) :=
  let$ context := authority object in
  on_engine (release (mkReleaseRequest context nil_id ownership true)).

(** A read, a publication, an observation and an acknowledgement as the steps make them. *)
Definition demo_read (object : ObjectId) (region : RegionId) : demo (result ReadDecision) :=
  let$ context := authority object in
  on_engine (acquire_read (default_ReadRequest <| rr_context := context |> <| rr_region := region |> <| rr_require_current := true |>)).
Definition demo_publish (object : ObjectId) (region : RegionId) (ownership : OwnershipGeneration) (base : VersionId) (initial : bool)
    : demo (result PublicationReceipt) :=
  let$ context := authority object in
  let$ generation := demo_generation region in
  let$ content := demo_content region in
  on_engine (publish (mkPublishRequest context ownership region generation base content initial)).
Definition demo_revalidate (object : ObjectId) (region : RegionId) (generation : RegionGeneration) (version : VersionId)
    : demo (result RegionRecord) :=
  let$ context := authority object in
  let$ content := demo_content region in
  on_engine (revalidate_region (default_RevalidateRequest <| rv_context := context |> <| rv_region := region |>
    <| rv_region_generation := generation |> <| rv_observed_version := version |> <| rv_content := content |>)).
Definition demo_acknowledge (object : ObjectId) (id : InvalidationId) (target : InvalidationRecord) : demo (result InvalidationOutcome) :=
  let$ context := authority object in
  on_engine (acknowledge_invalidation (mkInvalidationAck context id (i_region target) (i_region_generation target)
    (i_replica_generation target) (i_superseded_version target))).

(** ** The steps *)

(** The three replicas, and that a new one is not current. *)
Definition demo_replicas (object : ObjectId) : demo (RegionId * RegionId * RegionId * RegionGeneration) :=
  let host name := demo_register_region object name 4096 MemoryDomain.HostPageable EvidenceClass.Real nil_id in
  let$ a := host "replica-a" in
  let$ b := host "replica-b" in
  let$ synthetic := demo_register_region object "replica-synthetic-cxl" 4096 MemoryDomain.CxlClass EvidenceClass.Synthetic nil_id in
  do$ demo_check "region_registration" (defined a && defined b && defined synthetic) in
  let$ before := ask_engine (get_region a) in
  do$ demo_check "new_replica_is_not_current" (passes before (λ r, bool_decide (r_state r ≠ CoherenceState.Current))) in
  let$ record := value_of before in
  demo_ret (a, b, synthetic, r_generation record).

(** The first authoritative version, from an observation of replica A. *)
Definition demo_first_version (object : ObjectId) (a : RegionId) (generation : RegionGeneration) : demo (WriteGrant * VersionId) :=
  let$ updated := demo_revalidate object a generation (from_value 1) in
  do$ demo_check "revalidate_initial" (passes updated (λ r, bool_decide (r_state r = CoherenceState.Current))) in
  let$ first := demo_grant_write object a in
  do$ demo_check "initial_write_authority" (passes first (λ g, wg_granted g && wg_may_mutate_now g)) in
  let$ grant := value_of first in
  let$ receipt := demo_publish object a (dc_ownership_generation (wg_context grant)) nil_id true in
  do$ demo_check "initial_publication" (passes receipt (λ r, bool_decide (pr_state r = PublicationState.Committed))) in
  demo_ret (grant, match receipt with success r => pr_version r | failure _ => nil_id end).

(** Replica B is brought up to date by a verified copy of real bytes. *)
Definition demo_plan (object : ObjectId) (a b : RegionId) : demo SyncOperationId :=
  let$ decision := demo_read object b in
  do$ demo_check "never_synchronized_replica_is_not_current"
    (passes decision (λ d, bool_decide (rd_outcome d = ReadOutcome.ReadAfterSync))) in
  let$ context := authority object in
  let$ source := demo_generation a in
  let$ destination := demo_generation b in
  let$ record := ask_engine (get_object object) in
  let$ record := value_of record in
  let$ outcome := on_engine (begin_sync (mkSyncRequest context SyncOperationKind.Copy a source b destination
    (o_ownership_generation record) "in_process_byte_copy")) in
  do$ demo_check "synchronization_plan_issued" (passes outcome (λ o, bool_decide (so_state o = SyncState.Requested))) in
  demo_ret (match outcome with success o => so_operation o | failure _ => nil_id end).
Definition demo_synchronize (object : ObjectId) (a b : RegionId) (version : VersionId) : demo unit :=
  let$ operation := demo_plan object a b in
  let$ copied := on_regions (copy_and_verify a b) in
  do$ demo_check "real_byte_copy_verified" (ok copied) in
  let$ context := authority object in
  let$ generation := demo_generation b in
  let$ content := demo_content b in
  let$ outcome := on_engine (complete_sync (mkSyncCompleteRequest context operation b generation version content true)) in
  do$ demo_check "sync_completion_certifies_currentness" (passes outcome (λ o, bool_decide (so_state o = SyncState.Completed))) in
  let$ decision := demo_read object b in
  demo_check "read_current_after_synchronization" (passes decision (λ d,
    bool_decide (rd_outcome d = ReadOutcome.ReadCurrent) && bool_decide (rd_authoritative_version d = version))).

(** The record of an invalidation in a snapshot, the last one of that identity. *)
Definition demo_target (id : InvalidationId) : demo (InvalidationRecord * bool) :=
  let$ all := ask_engine (λ s, sn_invalidations (snapshot build default_SnapshotOptions s)) in
  demo_ret (foldl (λ acc candidate, if decide (i_id candidate = id) then (candidate, true) else acc) (default_InvalidationRecord, false) all).

(** Write authority goes from A to B, after A has acknowledged. *)
Definition demo_transfer (object : ObjectId) (a b : RegionId) (first : WriteGrant) (version : VersionId) : demo WriteGrant :=
  let$ released := demo_release_write object (dc_ownership_generation (wg_context first)) in
  do$ demo_check "first_writer_released_authority" (passes released (λ _, true)) in
  let$ second := demo_grant_write object b in
  let reserved := passes second (λ g, wg_granted g && negb (wg_may_mutate_now g) && (length (wg_required_invalidations g) =? 1)%nat) in
  do$ demo_check "write_transfer_requires_acknowledgement" reserved in
  let$ grant := value_of second in
  let invalidation := if reserved then match wg_required_invalidations grant with i :: _ => i_id i | [] => nil_id end else nil_id in
  let$ receipt := demo_publish object b (dc_ownership_generation (wg_context grant)) version true in
  do$ demo_check "publication_blocked_while_invalidation_outstanding" (passes receipt (λ r,
    bool_decide (pr_state r = PublicationState.None) && bool_decide (pr_reason r = StatusCode.InvalidationOutstanding))) in
  let$ target := demo_target invalidation in
  let$ outcome := demo_acknowledge object invalidation target.1 in
  do$ demo_check "invalidation_acknowledged" (target.2 && passes outcome (λ o, bool_decide (io_state o = InvalidationState.Acknowledged))) in
  let$ invalidated := ask_engine (get_region a) in
  do$ demo_check "invalidated_replica_is_not_current" (passes invalidated (λ r, bool_decide (r_state r ≠ CoherenceState.Current))) in
  let$ second := demo_grant_write object b in
  do$ demo_check "write_authority_effective_after_acknowledgement" (passes second (λ g, wg_granted g && wg_may_mutate_now g)) in
  value_of second.

(** B's bytes are changed and published as the next version. *)
Definition demo_second_version (object : ObjectId) (a b : RegionId) (second : WriteGrant) (version : VersionId) : demo VersionId :=
  let$ poked := on_regions (poke b 0 171 64) in
  do$ demo_check "real_byte_mutation" (ok poked) in
  let$ context := authority object in
  let$ generation := demo_generation b in
  let$ dirty := on_engine (mark_dirty (default_DirtyRequest <| dr_context := context |> <| dr_region := b |>
    <| dr_region_generation := generation |> <| dr_ownership_generation := dc_ownership_generation (wg_context second) |>
    <| dr_base_version := version |>)) in
  do$ demo_check "mark_dirty" (passes dirty (λ _, true)) in
  let$ receipt := demo_publish object b (dc_ownership_generation (wg_context second)) version false in
  do$ demo_check "second_publication" (passes receipt (λ r,
    bool_decide (pr_state r = PublicationState.Committed) && bool_decide (pr_version r = next version))) in
  let$ decision := demo_read object a in
  do$ demo_check "superseded_replica_is_never_reported_current"
    (passes decision (λ d, bool_decide (rd_outcome d ≠ ReadOutcome.ReadCurrent))) in
  demo_ret (match receipt with success r => pr_version r | failure _ => nil_id end).

(** The synthetic replica is observed. *)
Definition demo_synthetic (object : ObjectId) (synthetic : RegionId) (version : VersionId) : demo unit :=
  let$ record := ask_engine (get_region synthetic) in
  let$ record := value_of record in
  let$ updated := demo_revalidate object synthetic (r_generation record) version in
  do$ demo_check "synthetic_cxl_region_revalidated" (passes updated (λ _, true)) in
  demo_check "synthetic_cxl_evidence_class"
    (bool_decide (r_evidence_class record = EvidenceClass.Synthetic) && bool_decide (r_memory_domain record = MemoryDomain.CxlClass)).

(** The acknowledgements of a list of invalidations. *)
Fixpoint demo_acknowledge_all (object : ObjectId) (required : list InvalidationRecord) : demo unit :=
  match required with
  | [] => demo_ret tt
  | i :: rest => let$ _ := demo_acknowledge object (i_id i) i in demo_acknowledge_all object rest
  end.

(** Authority is released and taken again; the old ownership generation is refused. *)
Definition demo_reacquire (object : ObjectId) (b : RegionId) : demo (result WriteGrant) :=
  let$ reacquired := demo_grant_write object b in
  match reacquired with
  | success g => if wg_may_mutate_now g then demo_ret reacquired
                 else do$ demo_acknowledge_all object (wg_required_invalidations g) in demo_grant_write object b
  | failure _ => demo_ret reacquired
  end.
Definition demo_stale (object : ObjectId) (b : RegionId) (stale : OwnershipGeneration) (version : VersionId) : demo unit :=
  let$ context := authority object in
  let$ generation := demo_generation b in
  let$ rejected := on_engine (mark_dirty (default_DirtyRequest <| dr_context := context |> <| dr_region := b |>
    <| dr_region_generation := generation |> <| dr_ownership_generation := stale |> <| dr_base_version := version |>)) in
  demo_check "stale_ownership_generation_rejected"
    (match rejected with success _ => false | failure code => bool_decide (code = StatusCode.StaleOwnership) end).
Definition demo_release (object : ObjectId) (b : RegionId) (version : VersionId) : demo unit :=
  let ownership := let$ record := ask_engine (get_object object) in let$ record := value_of record in demo_ret (o_ownership_generation record) in
  let$ before := ownership in
  let$ released := demo_release_write object before in
  let$ after := ownership in
  do$ demo_check "release_advances_ownership_generation"
    (passes released (λ _, true) && (value after =? u64_succ (value before))%N) in
  let$ reacquired := demo_reacquire object b in
  do$ demo_check "write_authority_reacquired" (passes reacquired wg_may_mutate_now) in
  match reacquired with success _ => demo_stale object b before version | failure _ => demo_ret tt end.

(** [run_demo]: the code the program exits with. *)
Definition demo_lifecycle (object : ObjectId) : demo N :=
  let$ regions := demo_replicas object in
  let '(a, b, synthetic, generation) := regions in
  let$ published := demo_first_version object a generation in
  let '(first, version) := published in
  do$ demo_synchronize object a b version in
  let$ second := demo_transfer object a b first version in
  let$ version2 := demo_second_version object a b second version in
  do$ demo_synthetic object synthetic version2 in
  do$ demo_release object b version2 in
  let$ clean := ask_engine (λ s, ar_clean (audit s)) in
  do$ demo_check "invariant_audit_clean" clean in
  λ d, Some (d, if decide (failures (dm_report d) = 0) then 0%N else 5%N).
Definition run_demo : demo N :=
  let$ domain := on_engine (create_domain "demo") in
  do$ demo_check "domain_create" (passes domain (λ _, true)) in
  match domain with
  | failure _ => demo_ret 1%N
  | success domain =>
      do$ alter_state (λ e, e <| em_domain := d_id domain |>) in
      let$ object := on_engine (register_object (d_id domain) "demo-object" 4096 (strict_policy "demo-strict")) in
      do$ demo_check "object_create" (passes object (λ _, true)) in
      match object with failure _ => demo_ret 1%N | success object => demo_lifecycle (o_id object) end
  end.

(** ** The embedded mode *)

(** [run_embedded]; no result is an undefined end of the demonstration. *)
Definition run_embedded (dw : Draws) (requests : list RequestId) (addresses : list N) (a : Args) (e : Embedded St)
    : option (Embedded St * N) :=
  match ar_positional a with
  | [] => Some (e, 2%N)
  | group :: rest =>
      if decide (group = "demo") then (λ r, (dm_state r.1, r.2)) <$> run_demo (mkDemo e [] requests addresses) else
      match plain_command dw group a e with
      | Some r => Some r
      | None => match verb_command dw group (default "" (head rest)) a e with Some r => Some r | None => Some (e, 2%N) end
      end
  end.

(** [main] in the embedded mode: the engine it leaves, and its code. *)
Definition embedded_main (dw : Draws) (requests : list RequestId) (addresses : list N) (open : string → St) (a : Args)
    : option (Impl St * N) :=
  match initialise_embedded build dw open a with
  | (s, None) => Some (s, 1%N)
  | (_, Some e) => (λ r, (em_engine r.1, r.2)) <$> run_embedded dw requests addresses a e
  end.
End demo.
