(* ===== verification/AgentSafety.v ===== *)
(** * Agents never leave their memory

    What it takes for a process to be well formed (every region of its store has
    its bytes, every mapping lies inside its segment, the region of a
    configuration has the configured length), that every command of a script
    then returns a status, and that it leaves the process well formed. *)
From Stdlib Require Import Strings.Byte Strings.String.
From S2P Require Import Prelude Ids Enums Status Bytes Policy Evidence Model Decisions Persistence.
From S2P Require Import Serialize Codec Messages Checksum Regions Framing Protocol Transport Text Client.
From S2P Require Import Engine Coordinator Render Agent.

#[local] Open Scope agent_scope.

(** ** Reasoning about actions *)

(** An action returns, in a process and with a result of which [Q] holds. *)
Definition returns {A} (m : act A) (Q : result A → Proc → Prop) (p : Proc) : Prop :=
  ∃ p' r, m p = Some (p', r) ∧ Q r p'.

Lemma returns_bind {A B} (m : act A) (k : A → act B) Q p :
  returns m (λ r p', match r with success a => returns (k a) Q p' | failure e => Q (failure e) p' end) p →
  returns (bind m k) Q p.
Proof.
  intros (p' & r & E & Hr). unfold bind. unfold returns. rewrite E. destruct r as [a|e]; [|eauto].
  destruct Hr as (p2 & r2 & ? & ?). eauto.
Qed.

Lemma returns_mono {A} (m : act A) (Q1 Q2 : result A → Proc → Prop) p :
  (∀ r p', Q1 r p' → Q2 r p') → returns m Q1 p → returns m Q2 p.
Proof. intros H (p' & r & E & ?). exists p', r. auto. Qed.

(** ** What commands leave alone *)

(** The part of a process that well-formedness is about. *)
Definition view (p : Proc) : AgentOptions * RegionStore * gmap string RegionId * gmap SyncOperationId SyncRecord * option SharedSegment * SharedMemory :=
  (a_options (ps_agent p), a_store (ps_agent p), a_region_ids (ps_agent p), a_sync_plans (ps_agent p), a_staging (ps_agent p),
   h_memory (ps_host p)).

(** A process in which that part is as it was, and that may only have drawn
    numbers from the random source. *)
Definition calm (p p' : Proc) : Prop :=
  view p' = view p ∧ h_fresh (ps_host p') `suffix_of` h_fresh (ps_host p) ∧
  a_next_region_fallback (ps_agent p') = a_next_region_fallback (ps_agent p).
Lemma calm_refl p : calm p p.
Proof. done. Qed.
Lemma calm_trans p1 p2 p3 : calm p1 p2 → calm p2 p3 → calm p1 p3.
Proof. intros (V & F & B) (V' & F' & B'). split_and!; etrans; eauto. Qed.

(** An action that returns and does not touch that part. *)
Definition quiet {A} (m : act A) : Prop := ∀ p, returns m (λ _ p', calm p p') p.

Lemma quiet_ret {A} (a : A) : quiet (ret a).
Proof. intros p. by exists p, (success a). Qed.
Lemma quiet_fail {A} code : quiet (A := A) (fail code).
Proof. intros p. by exists p, (failure code). Qed.
Lemma quiet_bind {A B} (m : act A) (k : A → act B) : quiet m → (∀ a, quiet (k a)) → quiet (bind m k).
Proof.
  intros Hm Hk p. apply returns_bind. eapply returns_mono; [|apply Hm]. intros [a|e] p' Hv; [|done].
  eapply returns_mono; [|apply Hk]. intros r p2. by apply calm_trans.
Qed.
Lemma quiet_get {A} (f : Agent → A) : quiet (get f).
Proof. intros p. by exists p, (success (f (ps_agent p))). Qed.
Lemma quiet_emit text : quiet (emit text).
Proof. intros p. eexists _, _. split; [reflexivity|done]. Qed.
Lemma quiet_modify f : (∀ p, calm p (p <| ps_agent ::= f |>)) → quiet (modify f).
Proof. intros Hf p. eexists _, _. split; [reflexivity|apply Hf]. Qed.
Lemma quiet_check test code : quiet (check test code).
Proof. destruct test; [apply quiet_ret|apply quiet_fail]. Qed.
Lemma quiet_of_status code : quiet (of_status code).
Proof. apply quiet_check. Qed.
Lemma quiet_of_result {A} (r : result A) : quiet (of_result r).
Proof. destruct r; [apply quiet_ret|apply quiet_fail]. Qed.
Lemma quiet_get_memory : quiet get_memory.
Proof. intros p. by eexists _, _. Qed.
Lemma suffix_of_tail {A} (l : list A) : tail l `suffix_of` l.
Proof. destruct l as [|x l]; [done|]. by exists [x]. Qed.
Lemma quiet_fresh : quiet generate_request_id.
Proof. intros p. eexists _, _. split; [done|]. split; [done|]. split; [apply suffix_of_tail|done]. Qed.
Lemma quiet_address : quiet next_address.
Proof. intros p. by eexists _, _. Qed.
Lemma quiet_mapping : quiet next_mapping.
Proof. intros p. by eexists _, _. Qed.
Lemma quiet_send type body : quiet (send_request type body).
Proof. intros p. unfold returns, send_request. destruct (request type body _) as [cl r]. by eexists _, _. Qed.
Lemma quiet_close closed : quiet (close_own_client closed).
Proof. intros p. unfold returns, close_own_client. destruct (close_client closed _) as [cl r]. by eexists _, _. Qed.
Lemma quiet_ignore {A} (m : act A) : quiet m → quiet (ignore m).
Proof. intros Hm p. destruct (Hm p) as (p' & r & E & Hv). unfold returns, ignore. rewrite E. by eexists _, _. Qed.
Lemma quiet_for_each {A} (f : A → act unit) l : (∀ a, quiet (f a)) → quiet (for_each f l).
Proof. intros Hf. induction l as [|a l IH]; [apply quiet_ret|]. apply quiet_bind; auto. Qed.

Create HintDb quiet.
#[export] Hint Resolve quiet_ret quiet_fail quiet_get quiet_emit quiet_check quiet_of_status quiet_of_result : quiet.
#[export] Hint Resolve quiet_get_memory quiet_fresh quiet_address quiet_mapping quiet_send quiet_close : quiet.

(** Follows an action to its end. *)
Ltac quiet_step :=
  intros; lazymatch goal with
  | |- quiet (bind _ _) => apply quiet_bind
  | |- quiet (modify _) => apply quiet_modify; intros; first [by split_and! | by case_match]
  | |- quiet (ignore _) => apply quiet_ignore
  | |- quiet (for_each _ _) => apply quiet_for_each
  | |- quiet (match ?x with _ => _ end) => destruct x
  | |- quiet _ => solve [auto with quiet]
  end.
Ltac solve_quiet := repeat quiet_step.

Lemma quiet_exchange type body : quiet (exchange type body).
Proof. unfold exchange. solve_quiet. Qed.
#[export] Hint Resolve quiet_exchange : quiet.
Lemma quiet_accepted type body : quiet (accepted type body).
Proof. unfold accepted. solve_quiet. Qed.
Lemma quiet_decoded {A} (reader : Reader A) payload : quiet (decoded reader payload).
Proof. unfold decoded. solve_quiet. Qed.
Lemma quiet_context : quiet make_context.
Proof. unfold make_context. solve_quiet. Qed.
#[export] Hint Resolve quiet_accepted quiet_decoded quiet_context : quiet.
Lemma quiet_chosen args otherwise : quiet (chosen_region args otherwise).
Proof. unfold chosen_region. solve_quiet. Qed.
Lemma quiet_selected args : quiet (selected_region args).
Proof. unfold selected_region. solve_quiet. Qed.
Lemma quiet_required args : quiet (required_region args).
Proof. unfold required_region. solve_quiet. Qed.
Lemma quiet_version arg v : quiet (version_arg arg v).
Proof. unfold version_arg. solve_quiet. Qed.
#[export] Hint Resolve quiet_chosen quiet_selected quiet_required quiet_version : quiet.

Lemma quiet_refresh : quiet refresh_object.
Proof. unfold refresh_object. solve_quiet. Qed.
Lemma quiet_ack_pending : quiet command_ack_pending.
Proof.
  assert (∀ n payload, quiet (ack_loop n payload)) as Hl.
  { induction n as [|n IH]; intros payload; cbn [ack_loop]; [solve_quiet|]. unfold acknowledge. solve_quiet. }
  unfold command_ack_pending. solve_quiet.
Qed.
Lemma quiet_read args : quiet (command_read args).
Proof. unfold command_read, print_read, code_line, id_line, bool_line. solve_quiet. Qed.
Lemma quiet_write args : quiet (command_write args).
Proof. unfold command_write, print_grant, code_line, id_line, bool_line. solve_quiet. Qed.
Lemma quiet_invalidate args : quiet (command_invalidate args).
Proof. unfold command_invalidate, code_line, id_line. solve_quiet. Qed.
Lemma quiet_release_request : quiet release_write_request.
Proof. unfold release_write_request. solve_quiet. Qed.
#[export] Hint Resolve quiet_refresh quiet_ack_pending quiet_read quiet_write quiet_invalidate : quiet.
#[export] Hint Resolve quiet_release_request : quiet.
Lemma quiet_release_write : quiet command_release_write.
Proof. unfold command_release_write, code_line. solve_quiet. Qed.
Lemma quiet_release_read : quiet command_release_read.
Proof. unfold command_release_read, code_line. solve_quiet. Qed.
Lemma quiet_inspect type : quiet (command_inspect type).
Proof. unfold command_inspect. solve_quiet. Qed.
Lemma quiet_leave closed : quiet (leave closed).
Proof. unfold leave, release_held, say_goodbye. solve_quiet. Qed.

(** ** Well-formed processes *)

(** Memory in which every segment has kept its size. *)
Definition same_sizes (sm sm' : SharedMemory) : Prop :=
  ∀ name, length <$> sm_segments sm' !! name = length <$> sm_segments sm !! name.

(** A store whose regions all have their bytes. *)
Definition stored_well (sm : SharedMemory) (rs : RegionStore) : Prop :=
  store_ok rs ∧ map_Forall (λ _ r, backed sm r ∧ u64_ok (sr_length r)) (rs_regions rs).
Definition lengths (rs : RegionStore) : gmap RegionId N := sr_length <$> rs_regions rs.

(** A mapping that lies inside its segment. *)
Definition mapped_well (sm : SharedMemory) (g : SharedSegment) : Prop :=
  u64_ok (sg_length g) ∧ ∃ pages, sm_segments sm !! sg_name g = Some pages ∧ N.to_nat (sg_length g) ≤ length pages.

Definition extent_ok (off len : N) : Prop := u64_ok off ∧ u64_ok len.

Record proc_ok (p : Proc) : Prop := {
  po_store : stored_well (h_memory (ps_host p)) (a_store (ps_agent p));
  po_staging : ∀ g, a_staging (ps_agent p) = Some g → mapped_well (h_memory (ps_host p)) g;
  po_specs : Forall (λ s, extent_ok (rg_offset s) (rg_length s)) (ao_regions (a_options (ps_agent p)));
  po_plans : map_Forall (λ _ y, extent_ok (y_extent_offset y) (y_extent_length y)) (a_sync_plans (ps_agent p));
  po_named : ∀ id s, spec_of id (ps_agent p) = Some s → lengths (a_store (ps_agent p)) !! id = Some (rg_length s);
  po_ids : ∀ name id, a_region_ids (ps_agent p) !! name = Some id → is_Some (lengths (a_store (ps_agent p)) !! id) }.

Lemma proc_ok_view p p' : view p' = view p → proc_ok p → proc_ok p'.
Proof.
  intros [= Eo Es Ei Ep Eg Em] [H1 H2 H3 H4 H5 H6]. split; rewrite ?Eo, ?Es, ?Ei, ?Ep, ?Eg, ?Em; try done.
  intros id s Hs. apply H5. unfold spec_of in *. by rewrite <-Eo, <-Ei.
Qed.

Lemma backed_sizes sm sm' r : same_sizes sm sm' → backed sm r → backed sm' r.
Proof.
  intros Hs (bytes & Hb & Hl). unfold backed, region_bytes in *. destruct (sr_shared r) as [g|]; [|eauto].
  specialize (Hs (sg_name g)). destruct (sm_segments sm !! sg_name g) as [pages|]; [|done].
  destruct (sm_segments sm' !! sg_name g) as [pages'|]; [|done]. injection Hs as Hs. rewrite Hs.
  destruct (N.leb_spec (sr_length r) (N.of_nat (length pages))); [|done]. eexists. split; [done|].
  rewrite length_take, Hs. lia.
Qed.
Lemma mapped_sizes sm sm' g : same_sizes sm sm' → mapped_well sm g → mapped_well sm' g.
Proof.
  intros Hs (Hu & pages & Hp & Hl). split; [done|]. specialize (Hs (sg_name g)). rewrite Hp in Hs.
  destruct (sm_segments sm' !! sg_name g) as [pages'|]; [|done]. injection Hs as Hs. eexists. split; [done|lia].
Qed.

(** Memory may change under a process as long as the segments keep their sizes. *)
Lemma proc_ok_sizes p sm :
  same_sizes (h_memory (ps_host p)) sm → proc_ok p → proc_ok (p <| ps_host ::= λ h, h <| h_memory := sm |> |>).
Proof.
  intros Hs [[H0 H1] H2 H3 H4 H5 H6]. split; try done.
  - split; [exact H0|]. intros id r Hr. destruct (H1 id r Hr). split; [by eapply backed_sizes|done].
  - intros g Hg. eapply mapped_sizes; [done|by apply H2].
Qed.

Lemma store_bytes_sizes r old new sm rs :
  region_bytes sm r = Some old → length new = length old → same_sizes sm (store_bytes r new sm rs).1.
Proof.
  intros Hb Hl name. unfold store_bytes, region_bytes in *. destruct (sr_shared r) as [g|]; [|done]. cbn [fst].
  rewrite segments_update. destruct (decide (sg_name g = name)) as [<-|Hne]; [|by rewrite lookup_alter_ne].
  rewrite lookup_alter_eq. destruct (sm_segments sm !! sg_name g) as [pages|]; [|done].
  destruct (N.leb_spec (sr_length r) (N.of_nat (length pages))); [|done]. injection Hb as <-.
  rewrite length_take in Hl. cbn. f_equal. rewrite length_app, length_drop. lia.
Qed.

Lemma write_view_keeps id r off new sm rs :
  stored_well sm rs → rs_regions rs !! id = Some r → N.to_nat off + length new ≤ N.to_nat (sr_length r) →
  ∃ sm' rs', write_view r off new sm rs = Some (sm', rs') ∧ stored_well sm' rs' ∧ same_sizes sm sm' ∧ lengths rs' = lengths rs.
Proof.
  intros [Hok Hb] Hr Hw. destruct (Hb id r Hr) as [(old & Ho & Hl) Hu].
  destruct (Hok id r Hr) as (Hid & _ & _).
  destruct (write_view r off new sm rs) as [[sm' rs']|] eqn:E.
  2: { unfold write_view in E. rewrite Ho, decide_True in E by lia. done. }
  pose proof (write_view_ok id r off new sm rs sm' rs' Hok Hr E) as Hok'.
  unfold write_view in E. rewrite Ho, decide_True in E by lia.
  pose proof (write_at_length (N.to_nat off) new old ltac:(lia)) as Hlen.
  pose proof (store_bytes_sizes r old _ sm rs Ho Hlen) as Hs. injection E as E. rewrite E in Hs. cbn [fst] in Hs.
  exists sm', rs'. split; [done|].
  enough (lengths rs' = lengths rs ∧ map_Forall (λ _ r, backed sm' r ∧ u64_ok (sr_length r)) (rs_regions rs')) as [H1 H2] by done.
  unfold store_bytes in E. unfold region_bytes in Ho. destruct (sr_shared r) as [g|] eqn:Eg; injection E as E <-.
  - split; [done|]. intros k x Hx. destruct (Hb k x Hx). split; [by eapply backed_sizes|done].
  - injection Ho as Ho. subst old. unfold lengths. rewrite regions_update, Hid. split.
    + rewrite fmap_insert. apply insert_id. by rewrite lookup_fmap, Hr.
    + apply map_Forall_insert_2; [|intros k x Hx; destruct (Hb k x Hx); split; [by eapply backed_sizes|done]].
      split; [|done]. eexists. unfold region_bytes. cbn. rewrite Eg. split; [done|]. by rewrite Hlen.
Qed.

(** ** Commands keep processes well formed *)

Definition keeps {A} (m : act A) : Prop := ∀ p, proc_ok p → returns m (λ _ p', proc_ok p') p.

Lemma quiet_keeps {A} (m : act A) : quiet m → keeps m.
Proof. intros Hm p Hp. eapply returns_mono; [|apply Hm]. intros r p' [Hv _]. exact (proc_ok_view p p' Hv Hp). Qed.
Lemma keeps_bind {A B} (m : act A) (k : A → act B) : keeps m → (∀ a, keeps (k a)) → keeps (bind m k).
Proof.
  intros Hm Hk p Hp. apply returns_bind. eapply returns_mono; [|by apply Hm]. intros [a|e] p' Hp'; [|done]. by apply Hk.
Qed.
(** The value of [get] is what the process has; then the continuation is run in it. *)
Lemma returns_get {A B} (f : Agent → A) (k : A → act B) Q p x : f (ps_agent p) = x → returns (k x) Q p → returns (bind (get f) k) Q p.
Proof. intros <- H. apply returns_bind. by exists p, (success (f (ps_agent p))). Qed.
Ltac get_step x := apply (returns_get _ _ _ _ x eq_refl); cbv beta.
Lemma returns_memory {B} (k : SharedMemory → act B) Q p x : h_memory (ps_host p) = x → returns (k x) Q p → returns (bind get_memory k) Q p.
Proof. intros <- H. apply returns_bind. by exists p, (success (h_memory (ps_host p))). Qed.
Ltac memory_step p := apply (returns_memory _ _ _ (h_memory (ps_host p)) eq_refl); cbv beta.
Lemma returns_needed {A B} (o : option A) a (k : A → act B) Q p : o = Some a → returns (k a) Q p → returns (bind (needed o) k) Q p.
Proof. intros -> H. apply returns_bind. by exists p, (success a). Qed.
Lemma returns_check {B} test code (k : unit → act B) Q p :
  Q (failure code) p → (test = true → returns (k ()) Q p) → returns (bind (check test code) k) Q p.
Proof. intros Hf Hs. apply returns_bind. destruct test; [exists p, (success ()); auto|exists p, (failure code); auto]. Qed.
(** After a quiet action, in a process that looks the same. *)
Lemma returns_quiet {A B} (m : act A) (k : A → act B) (Q : result B → Proc → Prop) p :
  quiet m → (∀ e p', calm p p' → Q (failure e) p') → (∀ a p', calm p p' → returns (k a) Q p') → returns (bind m k) Q p.
Proof. intros Hm Hf Hk. apply returns_bind. eapply returns_mono; [|apply Hm]. intros [a|e] p' Hv; auto. Qed.

Lemma keeps_ret {A} (a : A) : keeps (ret a).
Proof. apply quiet_keeps, quiet_ret. Qed.
Lemma keeps_fail {A} code : keeps (A := A) (fail code).
Proof. apply quiet_keeps, quiet_fail. Qed.

Lemma keeps_bind_fail {A B} code (k : A → act B) : keeps (bind (fail code) k).
Proof. intros p Hp. by exists p, (failure code). Qed.

(** The bytes of a stored region are there. *)
Lemma stored_bytes p id r :
  proc_ok p → find_region id (a_store (ps_agent p)) = Some r →
  ∃ bytes, region_bytes (h_memory (ps_host p)) r = Some bytes ∧ length bytes = N.to_nat (sr_length r) ∧ u64_ok (sr_length r).
Proof. intros [[_ Hb] _ _ _ _ _] Hr. destruct (Hb id r Hr) as [(bytes & ? & ?) ?]. eauto. Qed.

Lemma proc_ok_store p sm rs :
  proc_ok p → stored_well sm rs → same_sizes (h_memory (ps_host p)) sm → lengths rs = lengths (a_store (ps_agent p)) →
  proc_ok (p <| ps_host ::= λ h, h <| h_memory := sm |> |> <| ps_agent ::= λ a, a <| a_store := rs |> |>).
Proof.
  intros [_ H2 H3 H4 H5 H6] Hw Hs Hl. split; try done.
  - intros g Hg. eapply mapped_sizes; [done|by apply H2].
  - intros id s Hsp. etrans; [|by apply H5]. exact (f_equal (.!! id) Hl).
  - intros name id Hid. destruct (H6 name id Hid) as [n Hn]. exists n. etrans; [|exact Hn]. exact (f_equal (.!! id) Hl).
Qed.

(** A call of the store that keeps its regions. *)
Definition store_call (f : SharedMemory → RegionStore → option (SharedMemory * RegionStore * StatusCode.t)) sm rs : Prop :=
  ∃ sm' rs' code, f sm rs = Some (sm', rs', code) ∧ stored_well sm' rs' ∧ same_sizes sm sm' ∧ lengths rs' = lengths rs.
Lemma returns_on_store f p :
  proc_ok p → store_call f (h_memory (ps_host p)) (a_store (ps_agent p)) → returns (on_store f) (λ _ p', proc_ok p') p.
Proof.
  intros Hp (sm & rs & code & E & Hw & Hs & Hl). unfold on_store, returns. rewrite E.
  eexists _, _. split; [by instantiate (1 := if ok code then success () else failure code); unfold of_status, check; destruct (ok code)|].
  by apply proc_ok_store.
Qed.
Lemma store_call_same sm rs code f : stored_well sm rs → f sm rs = Some (sm, rs, code) → store_call f sm rs.
Proof. intros Hw E. exists sm, rs, code. done. Qed.
Lemma fill_call region seed sm rs : stored_well sm rs → store_call (fill region seed 0 0) sm rs.
Proof.
  intros Hw. destruct (rs_regions rs !! region) as [r|] eqn:Er.
  2: { eapply store_call_same; [done|]. unfold fill. by rewrite Er. }
  destruct (write_view_keeps region r 0 (make_pattern (sr_length r) seed) sm rs Hw Er) as (sm' & rs' & E & ? & ? & ?).
  { rewrite make_pattern_length. lia. }
  destruct (checked_range 0 (sr_length r) (sr_length r)) eqn:Ec.
  - exists sm', rs', StatusCode.Ok. unfold fill. rewrite Er. cbn [N.eqb]. by rewrite Ec, E.
  - eapply store_call_same; [done|]. unfold fill. rewrite Er. cbn [N.eqb]. by rewrite Ec.
Qed.
Lemma poke_call region off v sm rs : u64_ok off → stored_well sm rs → store_call (poke region off v 1) sm rs.
Proof.
  intros Ho Hw. destruct (rs_regions rs !! region) as [r|] eqn:Er.
  2: { eapply store_call_same; [done|]. unfold poke. by rewrite Er. }
  destruct (checked_range off 1 (sr_length r)) eqn:Ec.
  2: { eapply store_call_same; [done|]. unfold poke. by rewrite Er, Ec. }
  destruct (proj2 Hw _ _ Er) as [_ Hu]. apply checked_range_inside in Ec as Hi; [|done..].
  destruct (write_view_keeps region r off (replicate (N.to_nat 1) (to_byte v)) sm rs Hw Er) as (sm' & rs' & E & ? & ? & ?).
  { rewrite length_replicate. lia. }
  exists sm', rs', StatusCode.Ok. unfold poke. by rewrite Er, Ec, E.
Qed.

(** Numbers in arguments are signed sixty-four bit numbers. *)
Lemma parse_i64_range text v : parse_i64 text = Some v → (- 2 ^ 63 ≤ v < 2 ^ 63)%Z.
Proof.
  unfold parse_i64, strtoll. destruct text as [|c s]; [done|]. destruct (scan_number 10 (String c s)) as [[[neg m] rest]|].
  - intros E. destruct (at_nul rest); [|done]. injection E as <-. lia.
  - intros E. destruct (at_nul (String c s)); [|done]. injection E as <-. lia.
Qed.
Lemma version_arg_range text otherwise p :
  returns (version_arg (Some text) otherwise) (λ r p', p' = p ∧ match r with success v => u64_ok (value v) | failure _ => True end) p.
Proof.
  unfold version_arg. destruct (parse_i64 text) as [v|] eqn:E; [|by eexists _, _]. apply parse_i64_range in E.
  destruct (Z.leb_spec 0 v); [|by eexists _, _]. eexists _, _. split; [done|]. split; [done|]. cbn [value]. unfold u64_ok, two64. lia.
Qed.

Lemma keeps_content region : keeps (print_content region).
Proof.
  intros p Hp. unfold print_content. memory_step p. get_step (a_store (ps_agent p)). unfold region_fingerprint.
  destruct (rs_regions (a_store (ps_agent p)) !! region) as [r|] eqn:Er.
  - destruct (stored_bytes p region r Hp Er) as (bytes & -> & _). eapply returns_needed; [done|].
    by apply (quiet_keeps (emit _) (quiet_emit _)).
  - eapply returns_needed; [done|]. by apply keeps_ret.
Qed.
Lemma keeps_fill args : keeps (command_fill args).
Proof.
  unfold command_fill. destruct args as [|v [|name [|seed rest]]]; [apply keeps_fail..|].
  apply keeps_bind; [apply quiet_keeps, quiet_required|]. intros region.
  apply keeps_bind; [apply quiet_keeps, quiet_of_result|]. intros n.
  apply keeps_bind; [|intros _; apply keeps_bind; [apply quiet_keeps, quiet_emit|intros _; apply keeps_content]].
  intros p Hp. apply returns_on_store; [done|]. apply fill_call, Hp.
Qed.
Lemma keeps_poke args : keeps (command_poke args).
Proof.
  unfold command_poke. destruct args as [|v [|name [|off [|b rest]]]]; [apply keeps_fail..|].
  apply keeps_bind; [apply quiet_keeps, quiet_required|]. intros region p Hp. apply returns_bind.
  eapply returns_mono; [|apply version_arg_range]. intros [o|e] p' [-> Ho]; [|done].
  destruct (parse_i64 b) as [n|]; [|by apply keeps_fail]. apply returns_check; [done|intros _].
  apply returns_bind. eapply returns_mono; [|apply returns_on_store; [done|apply poke_call; [done|apply Hp]]].
  intros [[]|e] p2 Hp2; [by apply keeps_content|done].
Qed.
Lemma keeps_local_content region : keeps (local_content region).
Proof.
  intros p Hp. unfold local_content. get_step (a_store (ps_agent p)).
  destruct (find_region region (a_store (ps_agent p))) as [r|] eqn:Er; [|by apply keeps_ret].
  destruct (stored_bytes p region r Hp Er) as (bytes & Eb & _). memory_step p. eapply returns_needed; [exact Eb|]. by apply keeps_ret.
Qed.
Lemma keeps_mark_dirty args : keeps (command_mark_dirty args).
Proof.
  unfold command_mark_dirty, code_line. apply keeps_bind; [apply quiet_keeps, quiet_selected|]. intros region.
  apply keeps_bind; [apply quiet_keeps, quiet_context|]. intros context. apply keeps_bind; [apply quiet_keeps, quiet_get|]. intros a.
  apply keeps_bind; [apply keeps_local_content|]. intros content. apply quiet_keeps. solve_quiet.
Qed.
Lemma keeps_revalidate args : keeps (command_revalidate args).
Proof.
  unfold command_revalidate, code_line, id_line. apply keeps_bind; [apply quiet_keeps, quiet_selected|]. intros region.
  apply keeps_bind; [apply quiet_keeps, quiet_context|]. intros context. apply keeps_bind; [apply quiet_keeps, quiet_get|]. intros a.
  apply keeps_bind; [apply quiet_keeps, quiet_version|]. intros observed.
  apply keeps_bind; [apply keeps_local_content|]. intros content. apply quiet_keeps. solve_quiet.
Qed.

(** The plans an agent keeps come from the wire, so their extents are numbers of sixty-four bits. *)
Lemma decoded_plan payload o words rest :
  decode_sync_outcome default_decode_limits payload = Read (o, words) rest →
  extent_ok (y_extent_offset (so_plan o)) (y_extent_length (so_plan o)).
Proof. intros E. apply (written_read (fits := fits_sync_outcome _)) in E as [(_ & _ & Hy & _) _]. by destruct Hy as (?&?&?&?&?&?&?&?&?&?&?&_). Qed.
Lemma keeps_plan operation plan :
  extent_ok (y_extent_offset plan) (y_extent_length plan) → keeps (modify (λ a, a <| a_sync_plans ::= <[operation := plan]> |>)).
Proof.
  intros Hx p [H1 H2 H3 H4 H5 H6]. eexists _, _. split; [done|]. split; try done. by apply map_Forall_insert_2.
Qed.
Lemma keeps_sync_begin args : keeps (command_sync_begin args).
Proof.
  unfold command_sync_begin. apply keeps_bind; [apply quiet_keeps, quiet_required|]. intros destination.
  do 2 (apply keeps_bind; [apply quiet_keeps; solve_quiet|]; intros ?).
  do 2 (apply keeps_bind; [apply quiet_keeps; solve_quiet|]; intros ?).
  apply keeps_bind; [apply quiet_keeps; solve_quiet|]. intros [envelope payload].
  unfold decoded. destruct (decode_sync_outcome default_decode_limits payload) as [[o words] rest| |] eqn:E.
  2,3: apply keeps_bind_fail.
  apply decoded_plan in E. intros p Hp. apply returns_bind. exists p, (success (o, words)). split; [done|]. revert p Hp.
  unfold print_plan, code_line, id_line.
  do 6 (apply keeps_bind; [apply quiet_keeps; solve_quiet|]; intros _). by apply keeps_plan.
Qed.

(** Writing inside a mapping. *)
Lemma write_segment_inside g off bytes sm :
  mapped_well sm g → N.to_nat off + length bytes ≤ N.to_nat (sg_length g) →
  ∃ sm', write_segment g off bytes sm = Some sm' ∧ same_sizes sm sm'.
Proof.
  intros (_ & pages & Hp & Hl) Hi. unfold write_segment. rewrite Hp.
  destruct (N.leb_spec (off + N.of_nat (length bytes)) (N.of_nat (length pages))) as [Hw|]; [|lia].
  eexists. split; [done|]. intros name. rewrite segments_update. destruct (decide (sg_name g = name)) as [<-|Hne].
  - rewrite lookup_insert_eq, Hp. cbn. f_equal. apply write_at_length. lia.
  - by rewrite lookup_insert_ne.
Qed.
Lemma read_segment_inside g off len sm :
  mapped_well sm g → N.to_nat off + N.to_nat len ≤ N.to_nat (sg_length g) →
  ∃ bytes, read_segment g off len sm = Some bytes ∧ length bytes = N.to_nat len.
Proof.
  intros (_ & pages & Hp & Hl) Hi. unfold read_segment. rewrite Hp.
  destruct (N.leb_spec (off + len) (N.of_nat (length pages))) as [Hw|]; [|lia].
  eexists. split; [done|]. rewrite length_take, length_drop. lia.
Qed.

(** A configured extent is one of sixty-four bit numbers. *)
Lemma spec_extent p id s : proc_ok p → spec_of id (ps_agent p) = Some s → extent_ok (rg_offset s) (rg_length s).
Proof.
  intros [_ _ H3 _ _ _] Es. unfold spec_of in Es. apply fmap_Some in Es as ([i x] & Hx & ->). apply list_find_Some in Hx as (Hx & _).
  exact (proj1 (Forall_lookup _ _) H3 _ _ Hx).
Qed.

Lemma returns_stage region r bytes p :
  proc_ok p → find_region region (a_store (ps_agent p)) = Some r → length bytes = N.to_nat (sr_length r) →
  returns (stage_region region bytes) (λ _ p', proc_ok p') p.
Proof.
  intros Hp Hr Hl. unfold stage_region. get_step (a_staging (ps_agent p)). get_step (spec_of region (ps_agent p)).
  destruct (a_staging (ps_agent p)) as [g|] eqn:Eg; [|by apply keeps_ret].
  destruct (spec_of region (ps_agent p)) as [s|] eqn:Es; [|by apply keeps_ret].
  pose proof Hp as [H1 H2 H3 H4 H5 _]. pose proof (H5 _ _ Es) as Hn. pose proof (H2 _ Eg) as Hm.
  assert (rg_length s = sr_length r) as Hlen.
  { unfold lengths in Hn. rewrite lookup_fmap in Hn. unfold find_region in Hr. rewrite Hr in Hn. by injection Hn. }
  destruct (spec_extent p region s Hp Es) as [Ho Hu].
  apply returns_check; [done|]. intros Hc. apply checked_range_inside in Hc; [|done|done|apply Hm].
  assert (front (rg_length s) bytes = Some (take (N.to_nat (rg_length s)) bytes)) as Hf.
  { unfold front. destruct (N.leb_spec (rg_length s) (N.of_nat (length bytes))); [done|]. rewrite Hlen in *. lia. }
  eapply returns_needed; [exact Hf|]. memory_step p.
  destruct (write_segment_inside g (rg_offset s) (take (N.to_nat (rg_length s)) bytes) (h_memory (ps_host p)) Hm) as (sm' & Ew & Hs).
  { rewrite length_take. lia. }
  eapply returns_needed; [exact Ew|]. eexists _, _. split; [done|]. by apply proc_ok_sizes.
Qed.

Lemma quiet_publication region base bytes : quiet (send_publication region base bytes).
Proof. unfold send_publication, print_receipt, code_line, id_line, bool_line. solve_quiet. Qed.
Lemma keeps_publish args : keeps (command_publish args).
Proof.
  unfold command_publish. apply keeps_bind; [apply quiet_keeps, quiet_selected|]. intros region.
  apply keeps_bind; [apply quiet_keeps, quiet_get|]. intros known.
  apply keeps_bind; [apply quiet_keeps, quiet_version|]. intros base p Hp. get_step (a_store (ps_agent p)).
  destruct (find_region region (a_store (ps_agent p))) as [r|] eqn:Er; [|by apply keeps_fail].
  destruct (stored_bytes p region r Hp Er) as (bytes & Eb & Hl & _). memory_step p. eapply returns_needed; [exact Eb|].
  apply returns_bind. eapply returns_mono; [|by eapply returns_stage]. intros [[]|e] p' Hp'; [|done].
  by apply (quiet_keeps (send_publication region base bytes) (quiet_publication region base bytes)).
Qed.

(** What moves into a region that has the length of the planned extent. *)
Lemma returns_fetch g plan destination stored p :
  proc_ok p → a_staging (ps_agent p) = Some g → find_region destination (a_store (ps_agent p)) = Some stored →
  y_extent_length plan = sr_length stored → N.to_nat (y_extent_offset plan) + N.to_nat (y_extent_length plan) ≤ N.to_nat (sg_length g) →
  returns (fetch_extent g plan destination stored) (λ _ p', proc_ok p') p.
Proof.
  intros Hp Hg Hr Hlen Hi. pose proof Hp as [H1 H2 _ _ _ _]. unfold fetch_extent. memory_step p.
  destruct (read_segment_inside g (y_extent_offset plan) (y_extent_length plan) (h_memory (ps_host p)) (H2 _ Hg) Hi) as (bytes & Eb & Hb).
  eapply returns_needed; [exact Eb|].
  destruct (write_view_keeps destination stored 0 bytes _ _ H1 Hr) as (sm' & rs' & Ew & Hw & Hs & Hl); [rewrite Hb, Hlen; lia|].
  apply returns_bind. unfold on_store, returns at 1. rewrite Ew. eexists _, _. split; [done|].
  set (p' := p <| ps_host ::= _ |> <| ps_agent ::= _ |>).
  assert (proc_ok p') as Hp' by by apply proc_ok_store. memory_step p'. get_step (a_store (ps_agent p')).
  assert (∃ r', find_region destination (a_store (ps_agent p')) = Some r') as [r' Hr'].
  { assert (is_Some (lengths rs' !! destination)) as [n Hn]; [|unfold lengths in Hn; rewrite lookup_fmap in Hn; by apply fmap_Some in Hn as (r' & ? & _); eauto].
    rewrite Hl. unfold lengths. rewrite lookup_fmap. unfold find_region in Hr. rewrite Hr. eauto. }
  eapply returns_needed; [exact Hr'|]. destruct (stored_bytes p' destination r' Hp' Hr') as (arrived & Ea & _).
  exists p', (success arrived). split; [|done]. unfold needed. by rewrite Ea.
Qed.
Lemma quiet_arrival operation plan destination bytes : quiet (report_arrival operation plan destination bytes).
Proof. unfold report_arrival, code_line. solve_quiet. Qed.
Lemma keeps_sync_complete args : keeps (command_sync_complete args).
Proof.
  unfold command_sync_complete. apply keeps_bind; [apply quiet_keeps, quiet_required|]. intros destination.
  destruct (args !! 2) as [text|]; [|apply keeps_fail]. intros p Hp. cbv zeta. set (operation := from_value _).
  get_step (a_store (ps_agent p)). get_step (a_staging (ps_agent p)). get_step (a_sync_plans (ps_agent p) !! operation).
  destruct (find_region destination (a_store (ps_agent p))) as [stored|] eqn:Er; [|by apply keeps_fail].
  destruct (a_staging (ps_agent p)) as [g|] eqn:Eg; [|by apply keeps_fail].
  destruct (a_sync_plans (ps_agent p) !! operation) as [plan|] eqn:Ep; [|by apply keeps_fail].
  pose proof Hp as [_ H2 _ H4 _ _]. destruct (H4 _ _ Ep) as [Ho Hu].
  apply returns_check; [done|]. intros Hlen%N.eqb_eq. apply returns_check; [done|]. intros Hc.
  apply checked_range_inside in Hc; [|done|done|apply (H2 _ Eg)].
  apply returns_bind. eapply returns_mono; [|by eapply returns_fetch]. intros [bytes|e] p' Hp'; [|done].
  by apply (quiet_keeps _ (quiet_arrival operation plan destination bytes)).
Qed.

(** ** Every command *)

#[export] Hint Resolve keeps_ret keeps_fail keeps_publish keeps_sync_begin keeps_sync_complete keeps_fill keeps_poke : quiet.
#[export] Hint Resolve keeps_mark_dirty keeps_revalidate quiet_inspect quiet_release_write quiet_release_read : quiet.

Lemma keeps_execute command : keeps (execute command).
Proof.
  unfold execute. destruct (split_command command) as [|verb args]; [auto with quiet|].
  repeat match goal with
  | |- keeps (if decide ?b then _ else _) =>
      destruct (decide b); [first [solve [auto with quiet] | apply quiet_keeps; solve [auto with quiet]]|]
  end.
  destruct (inspection verb); [apply quiet_keeps, quiet_inspect|]. case_decide; auto with quiet.
Qed.
Lemma keeps_commands described script : keeps (run_commands described script).
Proof.
  induction script as [|command rest IH]; intros p Hp; [by apply keeps_ret|].
  assert (keeps (do! emit ("command=" +:+ command) in execute command)) as Hk.
  { apply keeps_bind; [apply quiet_keeps, quiet_emit|]. intros _. apply keeps_execute. }
  destruct (Hk p Hp) as (p' & r & E & Hp'). unfold returns. cbn [run_commands]. rewrite E. destruct r as [[]|e]; [by apply IH|].
  apply (keeps_bind (emit ("command_failed=" +:+ described)) (λ _, fail e)); [apply quiet_keeps, quiet_emit|intros _; apply keeps_fail|done].
Qed.
