(* ===== verification/AgentLife.v ===== *)
(** * The life of an agent

    Configuring and joining build a well-formed process, as long as the segments
    that exist already are as long as the agent was told and identities do not
    wrap around; together with [AgentSafety.v], no agent ever makes an undefined
    access, from its configuration to its departure. *)
From Stdlib Require Import Strings.Byte Strings.String.
From S2P Require Import Prelude Ids Enums Status Bytes Policy Evidence Model Decisions Persistence.
From S2P Require Import Serialize Codec Messages Checksum Regions Framing Protocol Transport Text Client.
From S2P Require Import Engine Coordinator Render Agent AgentSafety.

#[local] Open Scope agent_scope.

(** ** Segments *)

(** The mappings an agent asks for. *)
Definition asks (o : AgentOptions) : list (string * N) :=
  (ao_staging_segment o, ao_staging_length o)
  :: ((λ s, (rg_segment_name s, rg_length s)) <$> filter (λ s, rg_backing s = RegionBacking.SharedMapping) (ao_regions o)).

(** Mappings of one segment have one length, and a segment that exists is long enough. *)
Definition asks_agree (o : AgentOptions) : Prop := ∀ name l l', (name, l) ∈ asks o → (name, l') ∈ asks o → l = l'.
Definition segments_fit (o : AgentOptions) (sm : SharedMemory) : Prop :=
  ∀ name l pages, (name, l) ∈ asks o → sm_segments sm !! name = Some pages → N.to_nat l ≤ length pages.

(** Memory in which the segments are still there. *)
Definition grows (sm sm' : SharedMemory) : Prop := sm_segments sm ⊆ sm_segments sm'.

Lemma backed_grows sm sm' r : grows sm sm' → backed sm r → backed sm' r.
Proof.
  intros Hg (bytes & Hb & Hl). exists bytes. split; [|done]. unfold region_bytes in *. destruct (sr_shared r) as [g|]; [|done].
  destruct (sm_segments sm !! sg_name g) as [pages|] eqn:E; [|done]. by rewrite (lookup_weaken _ _ _ _ E Hg).
Qed.
Lemma mapped_grows sm sm' g : grows sm sm' → mapped_well sm g → mapped_well sm' g.
Proof. intros Hg (Hu & pages & Hp & Hl). split; [done|]. exists pages. split; [by eapply lookup_weaken|done]. Qed.
Lemma stored_grows sm sm' rs : grows sm sm' → stored_well sm rs → stored_well sm' rs.
Proof. intros Hg [Hok Hb]. split; [done|]. intros id r Hr. destruct (Hb id r Hr). split; [by eapply backed_grows|done]. Qed.

(** Opening a mapping the agent asks for. *)
Lemma open_segment_well o name len create sized mapped sm sm' r :
  open_segment name len create sized mapped sm = (sm', r) → (name, len) ∈ asks o → u64_ok len → asks_agree o → segments_fit o sm →
  grows sm sm' ∧ segments_fit o sm' ∧
  match r with success g => mapped_well sm' g ∧ sg_name g = name ∧ sg_length g = len | failure _ => True end.
Proof.
  intros E Hin Hu Ha Hf. assert (∀ e, (sm, failure e) = (sm', r) → grows sm sm' ∧ segments_fit o sm' ∧
    match r with success g => mapped_well sm' g ∧ sg_name g = name ∧ sg_length g = len | failure _ => True end) as Hsame.
  { intros e [= <- <-]. unfold grows. done. }
  unfold open_segment in E. case_decide; [by eapply Hsame|]. destruct (len =? 0)%N; [by eapply Hsame|].
  assert (∀ pages, sm_segments sm !! name = Some pages → mapped_well sm (mkSharedSegment name (sm_next_base sm) len)) as Hm.
  { intros pages Hp. split; [done|]. exists pages. split; [done|]. by eapply Hf. }
  destruct (sm_segments sm !! name) as [pages|] eqn:Ep, create; cbv beta iota in E; try by eapply Hsame.
  - destruct mapped; [|by eapply Hsame]. injection E as <- <-. split; [unfold grows; done|]. split; [exact Hf|]. split; [by eapply Hm|done].
  - destruct sized; [|by eapply Hsame]. set (sm1 := sm <| sm_segments ::= _ |>) in E.
    assert (sm_segments sm1 = <[name := replicate (N.to_nat len) x00]> (sm_segments sm)) as E1 by done.
    assert (grows sm sm1) as Hg by (unfold grows; rewrite E1; by apply insert_subseteq).
    assert (segments_fit o sm1) as Hf1.
    { intros n l p Hl. rewrite E1. destruct (decide (name = n)) as [<-|]; [|rewrite lookup_insert_ne by done; by apply Hf].
      rewrite lookup_insert_eq. intros [= <-]. rewrite length_replicate, (Ha _ _ _ Hl Hin). done. }
    clearbody sm1. destruct mapped; injection E as <- <-; [|done]. split; [exact Hg|]. split; [exact Hf1|].
    split; [|done]. split; [done|]. exists (replicate (N.to_nat len) x00).
    split; [exact (eq_trans (f_equal (.!! name) E1) (lookup_insert_eq _ _ _))|]. by rewrite length_replicate.
Qed.

(** ** Adding regions *)

(** A region that joins a store. *)
Definition joins (rs rs' : RegionStore) (id : RegionId) (len : N) : Prop :=
  lengths rs !! id = None ∧ lengths rs' = <[id := len]> (lengths rs).

Lemma lengths_None rs id : rs_regions rs !! id = None → lengths rs !! id = None.
Proof. intros H. unfold lengths. by rewrite lookup_fmap, H. Qed.

Lemma add_host_region_cases name len domain seed requested address rs rs' r n :
  add_host_region name len domain seed requested address rs = (rs', r) →
  store_ok rs → (rs_next_id rs + N.of_nat (S n) < u64_max)%N → (value requested + N.of_nat (S n) < u64_max)%N → u64_ok len →
  store_ok rs' ∧ (rs_next_id rs' + N.of_nat n < u64_max)%N ∧
  match r with
  | failure _ => rs_regions rs' = rs_regions rs
  | success id =>
      rs_regions rs !! id = None ∧ ∃ reg, rs_regions rs' = <[id := reg]> (rs_regions rs) ∧
      sr_length reg = len ∧ sr_backing reg = RegionBacking.HostHeap ∧ ∀ sm, backed sm reg
  end.
Proof.
  intros E Hok Hn Hq Hu. destruct (add_host_region_ok name len domain seed requested address rs Hok) as [Hok' _]; [lia..|].
  rewrite E in Hok'. split; [exact Hok'|]. unfold add_host_region in E. destruct (len =? 0)%N.
  { injection E as <- <-. split; [lia|done]. }
  set (id := if defined requested then requested else from_value (rs_next_id rs)) in E.
  set (rs1 := if defined requested then _ else _) in E.
  assert (rs_regions rs1 = rs_regions rs ∧ (rs_next_id rs1 + N.of_nat n < u64_max)%N) as [E1 Hn1].
  { subst rs1. destruct (defined requested).
    - destruct (N.leb_spec (rs_next_id rs) (value requested)); [|split; [done|lia]].
      change (rs_next_id (rs <| rs_next_id := u64_succ (value requested) |>)) with (u64_succ (value requested)).
      rewrite u64_succ_small by lia. split; [done|lia].
    - change (rs_next_id (rs <| rs_next_id ::= u64_succ |>)) with (u64_succ (rs_next_id rs)).
      rewrite u64_succ_small by lia. split; [done|lia]. }
  clearbody rs1. destruct (rs_regions rs1 !! id) eqn:Ei; injection E as <- <-; [by split|].
  split; [exact Hn1|]. rewrite <-E1. split; [done|]. eexists. split; [done|]. split; [done|]. split; [done|].
  intros sm. eexists. split; [done|]. apply make_pattern_length.
Qed.

(** The process while it joins: [room] and [spare] identities are left before
    the store's and the agent's counters wrap, and the random source stays that
    far below the largest number. *)
Record ready (o : AgentOptions) (total room spare : nat) (p : Proc) : Prop := {
  ry_ok : proc_ok p;
  ry_options : a_options (ps_agent p) = o;
  ry_fit : segments_fit o (h_memory (ps_host p));
  ry_room : (rs_next_id (a_store (ps_agent p)) + N.of_nat room < u64_max)%N;
  ry_spare : (a_next_region_fallback (ps_agent p) + N.of_nat spare < u64_max)%N;
  ry_fresh : Forall (λ i, (value i + N.of_nat total < u64_max)%N) (h_fresh (ps_host p)) }.

Lemma ready_calm o total room spare p p' : calm p p' → ready o total room spare p → ready o total room spare p'.
Proof.
  intros (Hv & Hf & Hb) [H1 H2 H3 H4 H5 H6]. pose proof (proc_ok_view p p' Hv H1). injection Hv as Eo Es _ _ _ Em.
  split; rewrite ?Eo, ?Es, ?Em, ?Hb; try done. destruct Hf as [k Hk]. rewrite Hk in H6. by apply Forall_app in H6 as [_ ?].
Qed.
Lemma ready_weaken o total room spare room' spare' p :
  room' ≤ room → spare' ≤ spare → ready o total room spare p → ready o total room' spare' p.
Proof. intros Hr Hs [H1 H2 H3 H4 H5 H6]. split; [done..|lia|lia|done]. Qed.

(** A fresh identity, from the random source or the counter. *)
Lemma returns_identity o total n p :
  S n ≤ total → ready o total (S n) (S n) p →
  returns next_region_identity (λ r p', ready o total (S n) n p' ∧ view p' = view p ∧
    match r with success id => (value id + N.of_nat (S n) < u64_max)%N | failure _ => True end) p.
Proof.
  intros Hn Hr. unfold next_region_identity. apply returns_bind. eexists _, _. split; [done|].
  set (p1 := p <| ps_host ::= _ |>). assert (calm p p1) as Hc by (split; [done|split; [apply suffix_of_tail|done]]).
  pose proof (ready_calm _ _ _ _ _ _ Hc Hr) as Hr1. destruct Hr as [_ _ _ _ Hs Hf].
  destruct (defined (default nil_id (head (h_fresh (ps_host p))))) eqn:Ed.
  - exists p1, (success (from_value (value (default nil_id (head (h_fresh (ps_host p))))))). split; [done|]. split; [by eapply ready_weaken; [..|exact Hr1]; lia|].
    split; [done|]. destruct (h_fresh (ps_host p)) as [|i l]; [done|]. apply Forall_cons in Hf as [Hf _]. cbn [head value default] in *. unfold id. lia.
  - apply (returns_get _ _ _ _ (a_next_region_fallback (ps_agent p1)) eq_refl). eexists _, _. split; [done|].
    split; [|split; [done|cbn [value]; exact Hs]]. destruct Hr1 as [H1 H2 H3 H4 H5 H6]. split; try done.
    + by apply (proc_ok_view p1).
    + change (u64_succ (a_next_region_fallback (ps_agent p1)) + N.of_nat n < u64_max)%N.
      rewrite u64_succ_small; lia.
Qed.

(** A process whose store has grown. *)
Lemma proc_ok_joined p sm rs :
  proc_ok p → stored_well sm rs → grows (h_memory (ps_host p)) sm → lengths (a_store (ps_agent p)) ⊆ lengths rs →
  proc_ok (p <| ps_host ::= λ h, h <| h_memory := sm |> |> <| ps_agent ::= λ a, a <| a_store := rs |> |>).
Proof.
  intros [_ H2 H3 H4 H5 H6] Hw Hg Hl. split; try done.
  - intros g Hs. eapply mapped_grows; [done|by apply H2].
  - intros id s Hs. eapply lookup_weaken; [by apply H5|exact Hl].
  - intros name id Hid. destruct (H6 name id Hid) as [n Hn]. exists n. eapply lookup_weaken; [exact Hn|exact Hl].
Qed.
Lemma stored_well_insert sm rs rs' id reg :
  stored_well sm rs → store_ok rs' → rs_regions rs' = <[id := reg]> (rs_regions rs) → backed sm reg → u64_ok (sr_length reg) →
  stored_well sm rs'.
Proof. intros [_ Hb] Hok E Hr Hu. split; [done|]. rewrite E. by apply map_Forall_insert_2. Qed.
Lemma joins_insert rs rs' id reg :
  rs_regions rs !! id = None → rs_regions rs' = <[id := reg]> (rs_regions rs) → joins rs rs' id (sr_length reg).
Proof. intros Hn E. split; [by apply lengths_None|]. unfold lengths. by rewrite E, fmap_insert. Qed.
Lemma joins_subseteq rs rs' id len : joins rs rs' id len → lengths rs ⊆ lengths rs'.
Proof. intros [Hn ->]. by apply insert_subseteq. Qed.

(** What adding a region gives. *)
Definition added (o : AgentOptions) (total n : nat) (len : N) (p : Proc) (r : result RegionId) (p' : Proc) : Prop :=
  ready o total n n p' ∧ a_region_ids (ps_agent p') = a_region_ids (ps_agent p) ∧
  match r with success id => joins (a_store (ps_agent p)) (a_store (ps_agent p')) id len | failure _ => True end.

(** Adding a host buffer, or a synthetic one made from it. *)
Lemma added_store o total n len p rs r :
  ready o total (S n) n p → store_ok rs → (rs_next_id rs + N.of_nat n < u64_max)%N → u64_ok len →
  match r with
  | failure _ => rs_regions rs = rs_regions (a_store (ps_agent p))
  | success id =>
      rs_regions (a_store (ps_agent p)) !! id = None ∧ ∃ reg, rs_regions rs = <[id := reg]> (rs_regions (a_store (ps_agent p))) ∧
      sr_length reg = len ∧ ∀ sm, backed sm reg
  end →
  added o total n len p r (p <| ps_agent ::= λ a, a <| a_store := rs |> |>).
Proof.
  intros [H1 H2 H3 H4 H5 H6] Hok Hn Hu Hr. pose proof H1 as [Hw _ _ _ _ _]. split; [|split; [done|]].
  - split; try done. refine (proc_ok_joined p (h_memory (ps_host p)) rs H1 _ _ _); [| unfold grows; done|].
    + destruct r as [id|e].
      * destruct Hr as (_ & reg & E & Hl & Hb). subst len. by eapply stored_well_insert.
      * split; [done|]. rewrite Hr. apply Hw.
    + destruct r as [id|e]; [|unfold lengths; by rewrite Hr]. destruct Hr as (Hno & reg & E & Hl & Hb).
      eapply joins_subseteq, joins_insert; done.
  - destruct r as [id|e]; [|done]. destruct Hr as (Hno & reg & E & <- & Hb). by apply joins_insert.
Qed.

(** The synthetic region is the host region with two fields changed. *)
Lemma add_synthetic_region_cases name len seed address rs rs' r n :
  add_synthetic_cxl_region name len seed address rs = (rs', r) →
  store_ok rs → (rs_next_id rs + N.of_nat (S n) < u64_max)%N → u64_ok len →
  store_ok rs' ∧ (rs_next_id rs' + N.of_nat n < u64_max)%N ∧
  match r with
  | failure _ => rs_regions rs' = rs_regions rs
  | success id =>
      rs_regions rs !! id = None ∧ ∃ reg, rs_regions rs' = <[id := reg]> (rs_regions rs) ∧
      sr_length reg = len ∧ ∀ sm, backed sm reg
  end.
Proof.
  intros E Hok Hn Hu. unfold add_synthetic_cxl_region in E.
  destruct (add_host_region name len MemoryDomain.CxlClass seed nil_id address rs) as [rs1 r1] eqn:E1.
  eapply add_host_region_cases in E1 as (Hok1 & Hn1 & H1); [|done|exact Hn|change (0 + N.of_nat (S n) < u64_max)%N; lia|done].
  destruct r1 as [id|e]; injection E as <- <-; [|done].
  destruct H1 as (Hno & reg & Er & Hl & Hk & Hb).
  set (synthetic := λ r, r <| sr_evidence_class := EvidenceClass.Synthetic |> <| sr_backing := RegionBacking.Synthetic |>).
  assert (alter synthetic id (rs_regions rs1) = <[id := synthetic reg]> (rs_regions rs)) as Ea.
  { rewrite Er. by rewrite alter_insert_eq. }
  assert (rs_regions rs1 !! id = Some reg) as Hin by (rewrite Er; apply lookup_insert_eq).
  destruct (Hok1 _ _ Hin) as (Hid & Hlt & Hbk). rewrite Hk in Hbk.
  split; [|split; [exact Hn1|split; [done|]]].
  - intros k x Hx. change (alter synthetic id (rs_regions rs1) !! k = Some x) in Hx. change (region_ok (rs_next_id rs1) k x).
    destruct (decide (id = k)) as [<-|Hne]; [|rewrite lookup_alter_ne in Hx by done; by apply Hok1].
    rewrite lookup_alter_eq, Hin in Hx. injection Hx as <-. split; [exact Hid|]. split; [exact Hlt|]. exact Hbk.
  - exists (synthetic reg). split; [exact Ea|]. split; [exact Hl|]. intros sm. destruct (Hb sm) as (bytes & ? & ?). by exists bytes.
Qed.

(** An answer of the store that is kept. *)
Definition keep_region (rs : RegionStore) (r : result RegionId) : act RegionId :=
  do! modify (λ a, a <| a_store := rs |>) in match r with success id => ret id | failure e => fail e end.
Lemma returns_keep o total n len p p1 rs r :
  view p1 = view p → added o total n len p1 r (p1 <| ps_agent ::= λ a, a <| a_store := rs |> |>) →
  returns (keep_region rs r) (added o total n len p) p1.
Proof.
  intros [= _ Es Ei _ _ _] (Hr & Hi & Hj). apply returns_bind. eexists _, _. split; [done|].
  exists (p1 <| ps_agent ::= λ a, a <| a_store := rs |> |>), r. split; [by destruct r|].
  split; [done|]. split; [exact (eq_trans Hi Ei)|]. destruct r; [|done]. by rewrite <-Es.
Qed.
Lemma added_failed o total n len p e p' : ready o total (S n) n p → calm p p' → added o total n len p (failure e) p'.
Proof.
  intros Hr Hc. split; [|split; [|done]]; [eapply ready_weaken; [..|by eapply ready_calm]; lia|]. by destruct Hc as ([= _ _ ? _ _ _] & _).
Qed.
Lemma added_host o total n name domain seed requested address len p p1 rs r :
  ready o total (S n) n p → calm p p1 → (value requested + N.of_nat (S n) < u64_max)%N → u64_ok len →
  add_host_region name len domain seed requested address (a_store (ps_agent p)) = (rs, r) →
  returns (keep_region rs r) (added o total n len p) p1.
Proof.
  intros Hr Hc Hq Hu E. apply returns_keep; [apply Hc|]. pose proof (ready_calm _ _ _ _ _ _ Hc Hr) as Hr1.
  destruct Hc as ([= _ Es _ _ _ _] & _). destruct Hr as [[[Hok _] _ _ _ _ _] _ _ Hn _ _].
  eapply add_host_region_cases in E as (H1 & H2 & H3); [|done..]. apply added_store; [done..|]. rewrite Es.
  destruct r; [|done]. destruct H3 as (? & reg & ? & ? & _ & ?). eauto 10.
Qed.
Lemma added_synthetic o total n name seed address len p p1 rs r :
  ready o total (S n) n p → calm p p1 → u64_ok len →
  add_synthetic_cxl_region name len seed address (a_store (ps_agent p)) = (rs, r) →
  returns (keep_region rs r) (added o total n len p) p1.
Proof.
  intros Hr Hc Hu E. apply returns_keep; [apply Hc|]. pose proof (ready_calm _ _ _ _ _ _ Hc Hr) as Hr1.
  destruct Hc as ([= _ Es _ _ _ _] & _). destruct Hr as [[[Hok _] _ _ _ _ _] _ _ Hn _ _].
  eapply add_synthetic_region_cases in E as (H1 & H2 & H3); [|done..]. apply added_store; [done..|]. by rewrite Es.
Qed.

(** A mapping of a segment, under the next identity of the store. *)
Lemma added_shared o total n name segment len create sized mapped p p1 sm rs r :
  ready o total (S n) n p → calm p p1 → u64_ok len → asks_agree o → (segment, len) ∈ asks o →
  add_shared_region name segment len create sized mapped (h_memory (ps_host p1)) (a_store (ps_agent p)) = (sm, rs, r) →
  returns (do! set_memory sm in keep_region rs r) (added o total n len p) p1.
Proof.
  intros Hr Hc Hu Ha Hin E. pose proof (ready_calm _ _ _ _ _ _ Hc Hr) as [H1 H2 H3 H4 H5 H6].
  destruct Hc as ([= _ Es Ei _ _ _] & _). rewrite <-Es in E. clear Hr. pose proof H1 as [Hw _ _ _ _ _].
  unfold add_shared_region in E. destruct (open_segment segment len create sized mapped _) as [sm1 opened] eqn:Eo.
  eapply open_segment_well in Eo as (Hg & Hf & Hm); [|done..].
  destruct opened as [g|e]; injection E as <- <- <-.
  - destruct Hm as (Hm & Hname & Hlen). apply returns_bind. eexists _, _. split; [done|].
    set (p2 := p1 <| ps_host ::= _ |>). set (id := from_value (rs_next_id (a_store (ps_agent p1)))).
    set (reg := mkStoredRegion _ _ _ _ _ _ _ _ _ _). set (rs2 := _ <| rs_regions ::= _ |>).
    destruct Hw as [Hok Hb].
    assert (rs_regions (a_store (ps_agent p1)) !! id = None) as Hno.
    { destruct (rs_regions (a_store (ps_agent p1)) !! id) as [x|] eqn:Ex; [|done]. destruct (Hok _ _ Ex) as (_ & Hlt & _). cbn [value] in Hlt. unfold id in Hlt. cbn [value] in Hlt. lia. }
    assert (rs_regions rs2 = <[id := reg]> (rs_regions (a_store (ps_agent p1)))) as Er.
    { change (emplace id reg (rs_regions (a_store (ps_agent p1))) = <[id := reg]> (rs_regions (a_store (ps_agent p1)))). unfold emplace. by rewrite Hno. }
    assert (rs_next_id rs2 = (rs_next_id (a_store (ps_agent p1)) + 1)%N) as En.
    { change (u64_succ (rs_next_id (a_store (ps_agent p1))) = (rs_next_id (a_store (ps_agent p1)) + 1)%N). apply u64_succ_small. lia. }
    assert (store_ok rs2) as Hok2.
    { intros k x. rewrite Er, En. destruct (decide (id = k)) as [<-|]; [rewrite lookup_insert_eq; intros [= <-]|rewrite lookup_insert_ne by done].
      - split; [done|]. split; [cbn [value]; unfold id; cbn [value]; lia|]. cbn. eauto.
      - intros Hx. eapply region_ok_mono; [|by apply Hok]. lia. }
    assert (backed sm1 reg) as Hbk.
    { destruct Hm as (_ & pages & Hp & Hl). exists (take (N.to_nat len) pages). unfold region_bytes. cbn. rewrite Hp.
      rewrite Hlen in Hl. destruct (N.leb_spec len (N.of_nat (length pages))); [|lia]. split; [done|]. rewrite length_take. lia. }
    assert (stored_well sm1 rs2) as Hw2.
    { refine (stored_well_insert sm1 (a_store (ps_agent p1)) rs2 id reg _ Hok2 Er Hbk Hu). eapply stored_grows; [exact Hg|by split]. }
    pose proof (joins_insert _ _ _ _ Hno Er) as Hj.
    exists (p2 <| ps_agent ::= λ a, a <| a_store := rs2 |> |>), (success id). split; [done|].
    split; [|split; [exact Ei|rewrite Es in Hj; exact Hj]]. split; try done.
    + refine (proc_ok_joined p1 sm1 rs2 H1 Hw2 Hg _). by eapply joins_subseteq.
    + change (rs_next_id rs2 + N.of_nat n < u64_max)%N. rewrite En. lia.
  - apply returns_bind. eexists _, _. split; [done|]. eexists _, (failure e). split; [done|].
    split; [|split; [exact Ei|done]]. split; try done; [|change (rs_next_id (a_store (ps_agent p1)) + N.of_nat n < u64_max)%N; lia].
    refine (proc_ok_joined p1 sm1 (a_store (ps_agent p1)) H1 _ Hg _); [eapply stored_grows; [exact Hg|exact Hw]|done].
Qed.

Lemma returns_add_region o total n spec requested p :
  ready o total (S n) n p → (value requested + N.of_nat (S n) < u64_max)%N → u64_ok (rg_length spec) → asks_agree o →
  (rg_backing spec = RegionBacking.SharedMapping → (rg_segment_name spec, rg_length spec) ∈ asks o) →
  returns (add_region spec requested) (added o total n (rg_length spec) p) p.
Proof.
  intros Hr Hq Hu Ha Hask. unfold add_region. get_step (a_store (ps_agent p)).
  destruct (rg_backing spec) eqn:Ebk.
  1,4: apply returns_quiet; [apply quiet_address|by intros; apply added_failed|]; intros address p1 Hc;
       destruct (add_host_region _ _ _ _ _ _ _) as [rs r] eqn:E; by eapply added_host.
  2: apply returns_quiet; [apply quiet_address|by intros; apply added_failed|]; intros address p1 Hc;
     destruct (add_synthetic_cxl_region _ _ _ _ _) as [rs r] eqn:E; by eapply added_synthetic.
  apply returns_quiet; [apply quiet_mapping|by intros; apply added_failed|]. intros [sized mapped] p1 Hc. memory_step p1.
  destruct (add_shared_region _ _ _ _ _ _ _ _) as [[sm rs] r] eqn:E. eapply added_shared; eauto.
Qed.

(** ** Joining *)

Lemma quiet_registration id body :
  quiet (let! payload := accepted MessageType.RegisterRegion body in
    let! record := decoded (decode_region default_decode_limits) payload in
    do! modify (λ a, a <| a_region_generations ::= <[id := r_generation record]> |> <| a_region_versions ::= <[id := r_version record]> |>) in
    ret (render_region record)).
Proof. solve_quiet. Qed.
Lemma returns_registration spec id p : proc_ok p → returns (send_region_registration spec id) (λ _ p', calm p p') p.
Proof.
  intros Hp. unfold send_region_registration. get_step (a_store (ps_agent p)).
  destruct (find_region id (a_store (ps_agent p))) as [r|] eqn:Er; [|by exists p, (failure StatusCode.UnknownRegion)].
  destruct (stored_bytes p id r Hp Er) as (bytes & Eb & _).
  apply returns_quiet; [apply quiet_context|done|]. intros context p1 Hc.
  assert (region_bytes (h_memory (ps_host p1)) r = Some bytes) as Eb1 by (destruct Hc as ([= _ _ _ _ _ Em] & _); by rewrite Em).
  get_step (a_domain (ps_agent p1)). memory_step p1. eapply returns_needed; [exact Eb1|]. cbv zeta.
  eapply returns_mono; [intros x p'; by apply calm_trans|]. apply quiet_registration.
Qed.

(** A new name for a region that has the configured length. *)
Lemma proc_ok_named p pre spec post id :
  proc_ok p → ao_regions (a_options (ps_agent p)) = pre ++ spec :: post →
  (∀ s, s ∈ pre → is_Some (a_region_ids (ps_agent p) !! rg_name s)) → a_region_ids (ps_agent p) !! rg_name spec = None →
  (∀ name, a_region_ids (ps_agent p) !! name ≠ Some id) → lengths (a_store (ps_agent p)) !! id = Some (rg_length spec) →
  proc_ok (p <| ps_agent ::= λ a, a <| a_region_ids ::= <[rg_name spec := id]> |> <| a_last_region := id |> |>).
Proof.
  intros [H1 H2 H3 H4 H5 H6] Eo Hpre Hnone Hfresh Hlen. split; try done.
  - intros id' s Hs. change (lengths (a_store (ps_agent p)) !! id' = Some (rg_length s)).
    change (snd <$> list_find (λ s, <[rg_name spec := id]> (a_region_ids (ps_agent p)) !! rg_name s = Some id')
      (ao_regions (a_options (ps_agent p))) = Some s) in Hs.
    destruct (decide (id' = id)) as [->|Hne].
    + apply fmap_Some in Hs as ([i x] & Hf & Hx). cbn in Hx. subst x. apply list_find_Some in Hf as (Hi & Hp & Hbefore).
      enough (s = spec) as -> by done. assert (rg_name s = rg_name spec) as En.
      { destruct (decide (rg_name spec = rg_name s)) as [|Hn]; [done|]. rewrite lookup_insert_ne in Hp by done. by apply Hfresh in Hp. }
      rewrite Eo in Hi. destruct (Nat.lt_total i (length pre)) as [Hlt|[->|Hgt]].
      * rewrite lookup_app_l in Hi by done. apply list_elem_of_lookup_2 in Hi. apply Hpre in Hi as [? Hi]. rewrite En, Hnone in Hi. done.
      * rewrite lookup_app_r, Nat.sub_diag in Hi by done. by injection Hi.
      * exfalso. apply (Hbefore (length pre) spec); [rewrite Eo, lookup_app_r, Nat.sub_diag by done; done|done|]. apply lookup_insert_eq.
    + apply H5. unfold spec_of. rewrite <-Hs. f_equal. apply list_find_ext. intros x.
      destruct (decide (rg_name spec = rg_name x)) as [E|E]; [|by rewrite lookup_insert_ne].
      rewrite <-E, lookup_insert_eq, Hnone. split; congruence.
  - intros name id' Hid. change (<[rg_name spec := id]> (a_region_ids (ps_agent p)) !! name = Some id') in Hid.
    change (is_Some (lengths (a_store (ps_agent p)) !! id')). apply lookup_insert_Some in Hid as [[_ <-]|[_ Hid]]; [eauto|by eapply H6].
Qed.

(** The configured regions that have been registered so far. *)
Definition registered (pre : list RegionSpec) (p : Proc) : Prop := ∀ s, s ∈ pre → is_Some (a_region_ids (ps_agent p) !! rg_name s).

Lemma returns_register o total n pre spec post p :
  ao_regions o = pre ++ spec :: post → S n ≤ total → asks_agree o → ready o total (S n) (S n) p → registered pre p →
  returns (register_spec spec) (λ r p', ready o total n n p' ∧ match r with success _ => registered (pre ++ [spec]) p' | failure _ => True end) p.
Proof.
  intros Eo Hn Ha Hr Hpre. unfold register_spec. get_step (a_region_ids (ps_agent p) !! rg_name spec).
  destruct (a_region_ids (ps_agent p) !! rg_name spec) as [known|] eqn:Ek.
  { exists p, (success ()). split; [done|]. split; [eapply ready_weaken; [..|exact Hr]; lia|].
    intros s [Hs| ->%list_elem_of_singleton]%elem_of_app; [by apply Hpre|eauto]. }
  assert (u64_ok (rg_length spec) ∧ (rg_backing spec = RegionBacking.SharedMapping → (rg_segment_name spec, rg_length spec) ∈ asks o)) as [Hu Hask].
  { pose proof (po_specs _ (ry_ok _ _ _ _ _ Hr)) as Hs. rewrite (ry_options _ _ _ _ _ Hr), Eo in Hs.
    apply Forall_app in Hs as [_ [Hs _]%Forall_cons]. split; [apply Hs|]. intros Hb. unfold asks. apply elem_of_cons. right.
    apply list_elem_of_fmap. exists spec. split; [done|]. apply list_elem_of_filter. split; [done|]. rewrite Eo. set_solver. }
  apply returns_bind. eapply returns_mono; [|by eapply returns_identity]. intros [requested|e] p1 (Hr1 & Hv1 & Hq).
  2: { split; [eapply ready_weaken; [..|exact Hr1]; lia|done]. }
  apply returns_bind. eapply returns_mono; [|by eapply returns_add_region]. intros [id|e] p2 (Hr2 & Hi2 & Hj); [|done].
  apply returns_bind. eapply returns_mono; [|apply returns_registration, Hr2]. intros [rendered|e] p3 Hc.
  2: { split; [by eapply ready_calm|done]. }
  pose proof (ready_calm _ _ _ _ _ _ Hc Hr2) as Hr3. destruct Hc as ([= _ Es3 Ei3 _ _ _] & _ & _).
  assert (a_region_ids (ps_agent p3) = a_region_ids (ps_agent p)) as Ei.
  { etrans; [exact Ei3|]. etrans; [exact Hi2|]. by injection Hv1. }
  destruct Hj as [Hno Hlen]. assert (lengths (a_store (ps_agent p3)) !! id = Some (rg_length spec)) as Hl3.
  { rewrite Es3, Hlen. apply lookup_insert_eq. }
  eexists _, _. split; [done|]. split.
  - destruct Hr3 as [H1 H2 H3 H4 H5 H6]. split; try done. eapply proc_ok_named; [done|by rewrite H2|by rewrite Ei|by rewrite Ei| |done].
    intros name Hname. rewrite Ei3, Hi2 in Hname. apply (po_ids _ (ry_ok _ _ _ _ _ Hr1)) in Hname. rewrite Hno in Hname. by destruct Hname.
  - intros s Hs. change (is_Some (<[rg_name spec := id]> (a_region_ids (ps_agent p3)) !! rg_name s)). rewrite Ei.
    apply lookup_insert_is_Some. destruct (decide (rg_name spec = rg_name s)); [by left|right]. split; [done|].
    apply elem_of_app in Hs as [Hs| ->%list_elem_of_singleton]; [by apply Hpre|done].
Qed.

Lemma returns_registers o total pre post p :
  ao_regions o = pre ++ post → length post ≤ total → asks_agree o → ready o total (length post) (length post) p → registered pre p →
  returns (for_each register_spec post) (λ _ p', proc_ok p') p.
Proof.
  intros Eo Hn Ha Hr Hpre. revert pre p Eo Hr Hpre. induction post as [|spec post IH]; intros pre p Eo Hr Hpre.
  { exists p, (success ()). split; [done|apply Hr]. }
  cbn [for_each]. apply returns_bind. eapply returns_mono; [|by eapply returns_register].
  intros [[]|e] p' [Hr' Hpre']; [|apply Hr']. eapply IH; [cbn in Hn; lia| |done..]. by rewrite <-app_assoc.
Qed.

(** ** From the configuration on *)

(** The options and the machine an agent can be started with. *)
Record can_start (o : AgentOptions) (h : Host) : Prop := {
  cs_specs : Forall (λ s, extent_ok (rg_offset s) (rg_length s)) (ao_regions o);
  cs_staging : u64_ok (ao_staging_length o);
  cs_agree : asks_agree o;
  cs_fit : segments_fit o (h_memory h);
  cs_count : (1 + N.of_nat (length (ao_regions o)) < u64_max)%N;
  cs_fresh : Forall (λ i, (value i + N.of_nat (length (ao_regions o)) < u64_max)%N) (h_fresh h) }.

Definition fresh_agent (h : Host) : Proc := mkProc default_Agent h [].

Lemma empty_proc_ok o h :
  can_start o h → ready o (length (ao_regions o)) (length (ao_regions o)) (length (ao_regions o))
    (fresh_agent h <| ps_agent ::= λ a, a <| a_options := o |> |>).
Proof.
  intros [H1 H2 H3 H4 H5 H6]. split; try done. split; try done; try by intros.
  - intros id s Hs. unfold spec_of in Hs. apply fmap_Some in Hs as ([i x] & Hf & _). apply list_find_Some in Hf as (_ & Hf & _). done.
Qed.

Lemma returns_configure o h :
  can_start o h →
  returns (configure o) (λ _ p', ready o (length (ao_regions o)) (length (ao_regions o)) (length (ao_regions o)) p') (fresh_agent h).
Proof.
  intros Hs. pose proof (empty_proc_ok o h Hs) as Hr. unfold configure. apply returns_bind. eexists _, _. split; [done|].
  set (p := fresh_agent h <| ps_agent ::= _ |>) in *. apply returns_check; [done|intros _]. apply returns_check; [done|intros _].
  case_decide as He; [by exists p, (success ())|].
  apply returns_quiet; [apply quiet_mapping|by intros; eapply ready_calm|]. intros [sized mapped] p1 Hc. memory_step p1.
  pose proof (ready_calm _ _ _ _ _ _ Hc Hr) as [H1 H2 H3 H4 H5 H6].
  destruct (open_segment _ _ _ _ _ _) as [sm opened] eqn:E.
  eapply open_segment_well in E as (Hg & Hf & Hm); [|by apply elem_of_cons; left|apply Hs|apply Hs|exact H3].
  pose proof (proc_ok_joined p1 sm (a_store (ps_agent p1)) H1 (stored_grows _ _ _ Hg (po_store _ H1)) Hg ltac:(done)) as Hj.
  apply returns_bind. eexists _, _. split; [done|]. destruct opened as [g|e].
  - eexists _, _. split; [done|]. split; try done. destruct Hj as [J1 J2 J3 J4 J5 J6]. split; try done.
    intros g' [= <-]. apply Hm.
  - eexists _, _. split; [done|]. split; done.
Qed.

Lemma quiet_connect build options connected :
  quiet (λ p, let '(cl, code) := connect_and_handshake build options connected (a_client (ps_agent p)) in
            of_status code (p <| ps_agent ::= λ a, a <| a_client := cl |> |>)).
Proof.
  intros p. unfold returns. destruct (connect_and_handshake build options connected _) as [cl code].
  unfold of_status, check. destruct (ok code); by eexists _, _.
Qed.
Lemma quiet_ensure_object : quiet ensure_object.
Proof. unfold ensure_object, ensure_domain, register_own_object. solve_quiet. Qed.

Lemma returns_join build connected o p :
  asks_agree o → ready o (length (ao_regions o)) (length (ao_regions o)) (length (ao_regions o)) p → registered [] p →
  returns (join build connected) (λ _ p', proc_ok p') p.
Proof.
  intros Ha Hr _. unfold join. get_step (a_options (ps_agent p)).
  apply returns_quiet; [apply quiet_connect|intros e p1 Hc; by apply (ready_calm _ _ _ _ _ _ Hc Hr)|]. intros _ p1 Hc1.
  apply returns_quiet; [apply quiet_modify; by intros; split_and!|intros e p2 Hc2; by apply (ready_calm _ _ _ _ _ _ (calm_trans _ _ _ Hc1 Hc2) Hr)|].
  intros _ p2 Hc2. pose proof (calm_trans _ _ _ Hc1 Hc2) as Hc. apply returns_quiet; [apply quiet_ensure_object| |].
  { intros e p3 Hc3. by apply (ready_calm _ _ _ _ _ _ (calm_trans _ _ _ Hc Hc3) Hr). }
  intros _ p3 Hc3. pose proof (ready_calm _ _ _ _ _ _ (calm_trans _ _ _ Hc Hc3) Hr) as Hr3. apply returns_bind.
  unfold register_regions. get_step (a_options (ps_agent p3)). rewrite (ry_options _ _ _ _ _ Hr3).
  eapply returns_mono; [|eapply (returns_registers o _ []); [done|done|done|exact Hr3|by intros s ?%not_elem_of_nil]].
  intros [[]|e] p4 Hp4; [|done]. eexists _, _. split; [done|]. by apply (proc_ok_view p4).
Qed.

(** ** Lives *)

(** What has arrived on the connection of a process. *)
Definition heard (inbound : Inbound) (p : Proc) : Proc :=
  p <| ps_agent ::= λ a, a <| a_client ::= λ cl, cl <| cl_socket ::= λ s, s <| so_in := inbound |> |> |> |>.

(** The processes an agent can be: it joined, whether or not that succeeded; it
    executed a command, ran a script or left; other processes wrote into the
    segments; bytes arrived on its connection. *)
Inductive lives (o : AgentOptions) (h : Host) : Proc → Prop :=
| lives_joined build connected p r :
    (do! configure o in join build connected) (fresh_agent h) = Some (p, r) → lives o h p
| lives_executed command p p' r : lives o h p → execute command p = Some (p', r) → lives o h p'
| lives_ran described p p' r : lives o h p → run_script described p = Some (p', r) → lives o h p'
| lives_left closed p p' r : lives o h p → leave closed p = Some (p', r) → lives o h p'
| lives_beside sm p :
    lives o h p → same_sizes (h_memory (ps_host p)) sm → lives o h (p <| ps_host ::= λ h, h <| h_memory := sm |> |>)
| lives_heard inbound p : lives o h p → lives o h (heard inbound p).

Lemma returns_elim {A} (m : act A) (Q : result A → Proc → Prop) p p' r : returns m Q p → m p = Some (p', r) → Q r p'.
Proof. intros (p1 & r1 & E & Hq) E'. rewrite E in E'. by injection E' as -> ->. Qed.

Lemma keeps_script described : keeps (run_script described).
Proof. apply keeps_bind; [apply quiet_keeps, quiet_get|]. intros o. apply keeps_commands. Qed.

Lemma start_returns o h build connected :
  can_start o h → returns (do! configure o in join build connected) (λ _ p', proc_ok p') (fresh_agent h).
Proof.
  intros Hs. apply returns_bind. eapply returns_mono; [|by apply returns_configure]. intros [[]|e] p Hr; [|apply Hr].
  eapply returns_join; [apply Hs|exact Hr|by intros s ?%not_elem_of_nil].
Qed.

Lemma lives_ok o h p : can_start o h → lives o h p → proc_ok p.
Proof.
  intros Hs Hl. induction Hl as [build connected p r E|command p p' r _ IH E|described p p' r _ IH E|closed p p' r _ IH E|sm p _ IH Hz|inbound p _ IH].
  - exact (returns_elim _ _ _ _ _ (start_returns o h build connected Hs) E).
  - exact (returns_elim _ _ _ _ _ (keeps_execute command p IH) E).
  - exact (returns_elim _ _ _ _ _ (keeps_script described p IH) E).
  - exact (returns_elim _ _ _ _ _ (quiet_keeps _ (quiet_leave closed) p IH) E).
  - by apply proc_ok_sizes.
  - by apply (proc_ok_view p).
Qed.

