(* ===== verification/Frame.v ===== *)
(** * What the bookkeeping helpers leave alone

    Journalling, ticking, decision logging and evidence numbering never touch
    the coherence state.  [live_eq] relates two engine states that agree on
    that state; it is an equivalence, every projection of the coherence state
    respects it, and the helpers stay inside a class. *)
From S2P Require Import Prelude Ids Enums Status Policy Evidence Model Decisions Persistence Engine.
From S2P Require Import Resolve.

Section frame.
Context {St : Type} `{DurableStore St}.
Implicit Types s : Impl St.

Record live_eq s s' : Prop := {
  live_config : config s = config s';
  live_epoch : epoch s = epoch s';
  live_shutting_down : shutting_down s = shutting_down s';
  live_domains : domains s = domains s';
  live_participants : participants s = participants s';
  live_objects : objects s = objects s';
  live_regions : regions s = regions s';
  live_invalidations : invalidations s = invalidations s';
  live_syncs : syncs s = syncs s';
  live_policies : policies s = policies s';
  live_domain_index : domain_index s = domain_index s';
  live_participant_index : participant_index s = participant_index s';
  live_object_index : object_index s = object_index s';
  live_region_index : region_index s = region_index s';
  live_in_flight : in_flight_publications s = in_flight_publications s' }.

#[export] Instance live_eq_equivalence : Equivalence live_eq.
Proof.
  split.
  - intros s. by split.
  - intros s s' []. by split.
  - intros s1 s2 s3 [] []. split; congruence.
Qed.

#[export] Instance epoch_proper : Proper (live_eq ==> eq) (@epoch St).
Proof. by intros s s' []. Qed.
#[export] Instance shutting_down_proper : Proper (live_eq ==> eq) (@shutting_down St).
Proof. by intros s s' []. Qed.
#[export] Instance config_proper : Proper (live_eq ==> eq) (@config St).
Proof. by intros s s' []. Qed.
#[export] Instance participants_proper : Proper (live_eq ==> eq) (@participants St).
Proof. by intros s s' []. Qed.
#[export] Instance objects_proper : Proper (live_eq ==> eq) (@objects St).
Proof. by intros s s' []. Qed.
#[export] Instance regions_proper : Proper (live_eq ==> eq) (@regions St).
Proof. by intros s s' []. Qed.
#[export] Instance invalidations_proper : Proper (live_eq ==> eq) (@invalidations St).
Proof. by intros s s' []. Qed.
#[export] Instance syncs_proper : Proper (live_eq ==> eq) (@syncs St).
Proof. by intros s s' []. Qed.
#[export] Instance policies_proper : Proper (live_eq ==> eq) (@policies St).
Proof. by intros s s' []. Qed.

(** Replace every coherence projection of the left state by the right one. *)
Ltac live_rewrite E :=
  destruct E; repeat match goal with H : _ ?x = _ ?y |- _ => rewrite H; clear H end.

(** Authority validation reads coherence state only. *)
#[export] Instance resolve_locked_proper ctx : Proper (live_eq ==> eq) (@resolve_locked St ctx).
Proof. intros s s' E. unfold resolve_locked. by live_rewrite E. Qed.
#[export] Instance resolve_object_proper ctx : Proper (live_eq ==> eq) (@resolve_object St ctx).
Proof. intros s s' E. unfold resolve_object. by live_rewrite E. Qed.
#[export] Instance policy_locked_proper o : Proper (live_eq ==> eq) (@policy_locked St o).
Proof. intros s s' E. unfold policy_locked. by live_rewrite E. Qed.
#[export] Instance resolve_region_locked_proper o id g :
  Proper (live_eq ==> eq) (@resolve_region_locked St o id g).
Proof. intros s s' E. unfold resolve_region_locked. by live_rewrite E. Qed.
#[export] Instance has_outstanding_proper id :
  Proper (live_eq ==> eq) (@has_outstanding_invalidations_locked St id).
Proof.
  intros s s' E. unfold has_outstanding_invalidations_locked, invalidation_requested.
  by live_rewrite E.
Qed.

(** ** The helpers *)

Lemma tick_live s : live_eq (tick s) s.
Proof. by split. Qed.

Lemma make_context_live a o g w s : live_eq (make_context a o g w s).2 s.
Proof. by split. Qed.

Lemma make_evidence_live k c p b o og r rg v f s : live_eq (make_evidence k c p b o og r rg v f s).2 s.
Proof. by split. Qed.

Lemma record_decision_live k c code s : live_eq (record_decision k c code s) s.
Proof. unfold record_decision. case_match; by split. Qed.

Lemma append_locked_live p s : live_eq (append_locked p s).1 s.
Proof.
  unfold append_locked. repeat case_match; simpl; by split.
Qed.

Lemma append_many_locked_live ps s : live_eq (append_many_locked ps s).1 s.
Proof.
  unfold append_many_locked. repeat case_match; simpl; by split.
Qed.

Lemma maybe_compact_live s : live_eq (maybe_compact_locked s).1 s.
Proof. unfold maybe_compact_locked. repeat case_match; simpl; by split. Qed.

Lemma compact_live s : live_eq (compact_locked s) s.
Proof. unfold compact_locked. repeat case_match; simpl; by split. Qed.

Lemma upsert_object_live o s : live_eq (upsert_durable_object_locked o s) s.
Proof. apply append_locked_live. Qed.
Lemma upsert_region_live r s : live_eq (upsert_durable_region_locked r s) s.
Proof. apply append_locked_live. Qed.
Lemma upsert_participant_live p s : live_eq (upsert_durable_participant_locked p s) s.
Proof. apply append_locked_live. Qed.

(** The journal never moves the operation sequence. *)
Lemma append_locked_sequence p s : sequence (append_locked p s).1 = sequence s.
Proof. unfold append_locked. repeat case_match; done. Qed.
Lemma append_many_locked_sequence ps s : sequence (append_many_locked ps s).1 = sequence s.
Proof. unfold append_many_locked. repeat case_match; done. Qed.
End frame.

#[global] Arguments live_eq {St} s s'.

#[export] Hint Resolve tick_live make_context_live make_evidence_live record_decision_live
  append_locked_live append_many_locked_live maybe_compact_live compact_live upsert_object_live
  upsert_region_live upsert_participant_live : coherence.

(** Name the state a journalling or numbering call returns and keep the fact
    that it is live-equal to the one before. *)
Ltac live_step :=
  match goal with
  | |- context [append_many_locked ?ps ?s] =>
      let E := fresh "L" in pose proof (append_many_locked_live ps s) as E;
      let s' := fresh "s" in let w := fresh "w" in
      destruct (append_many_locked ps s) as [s' w]; cbn [fst snd] in E; cbv beta iota zeta
  | |- context [append_locked ?p ?s] =>
      let E := fresh "L" in pose proof (append_locked_live p s) as E;
      let s' := fresh "s" in let w := fresh "w" in
      destruct (append_locked p s) as [s' w]; cbn [fst snd] in E; cbv beta iota zeta
  | |- context [make_context ?a ?o ?g ?w ?s] =>
      let E := fresh "L" in pose proof (make_context_live a o g w s) as E;
      let s' := fresh "s" in let c := fresh "ctx" in
      destruct (make_context a o g w s) as [c s']; cbn [fst snd] in E; cbv beta iota zeta
  | |- context [make_evidence ?k ?c ?p ?b ?o ?og ?r ?rg ?v ?f ?s] =>
      let E := fresh "L" in pose proof (make_evidence_live k c p b o og r rg v f s) as E;
      let s' := fresh "s" in let e := fresh "ev" in
      destruct (make_evidence k c p b o og r rg v f s) as [e s']; cbn [fst snd] in E; cbv beta iota zeta
  end.
