(* ===== verification/Evolution.v ===== *)
(** * How one operation may change objects and regions

    [object_step] and [region_step] are the changes an operation is allowed to
    make to one record; [evolves] lifts them to the engine.  Every operation
    except the commit of a publication and the attachment of a store is an
    [evolves] step, and steps compose, so a property of records that the two
    relations keep is an invariant of the engine. *)
From S2P Require Import Prelude Ids Enums Status Bytes Policy Evidence Model Decisions Persistence.
From S2P Require Import Engine Resolve Frame Auditor.

(** ** Properties of one object *)

(** Exclusive authority leaves no live read grant. *)
Definition reads_ok (o : ObjectRecord) : Prop :=
  exclusive o = true → Forall (λ g, g_released g = true) (o_reads o).

(** Exclusive authority has an owner, and an owner has exclusive authority. *)
Definition writer_ok (o : ObjectRecord) : Prop := defined (o_writer o) = exclusive o.

(** An unpublished modification is tracked with the matching condition. *)
Definition dirty_ok (o : ObjectRecord) : Prop :=
  o_has_unpublished_dirty o = true → o_dirty_condition o = DirtyCondition.DirtyUnpublished.

(** A retired object carries no unpublished modification. *)
Definition retired (o : ObjectRecord) : Prop :=
  o_lifecycle o = ObjectLifecycle.Retired ∧ o_has_unpublished_dirty o = false.

(** The allowed change of an object record. *)
Record object_step (o o' : ObjectRecord) : Prop := {
  os_id : o_id o' = o_id o;
  os_generation : o_generation o' = o_generation o;
  os_domain : o_domain o' = o_domain o;
  os_name : o_name o' = o_name o;
  os_length : o_length o' = o_length o;
  os_replicas : ∀ x, x ∈ o_replicas o → x ∈ o_replicas o';
  os_reads : reads_ok o → reads_ok o';
  os_writer : writer_ok o → writer_ok o';
  os_dirty : dirty_ok o → dirty_ok o';
  os_retired : retired o → retired o' }.

Lemma object_step_refl o : object_step o o.
Proof. by split. Qed.

Lemma object_step_trans o1 o2 o3 : object_step o1 o2 → object_step o2 o3 → object_step o1 o3.
Proof. intros [] []. split; try congruence; auto. Qed.

(** A step that also leaves the authoritative version alone. *)
Definition object_keep (o o' : ObjectRecord) : Prop :=
  object_step o o' ∧ o_authoritative_version o' = o_authoritative_version o.

(** A record that appears satisfies the per-object properties. *)
Definition object_init (k : ObjectId) (o : ObjectRecord) : Prop :=
  o_id o = k ∧ reads_ok o ∧ writer_ok o ∧ dirty_ok o.

(** ** Properties of one region *)

Record region_fixed (r r' : RegionRecord) : Prop := {
  rf_id : r_id r' = r_id r;
  rf_generation : r_generation r' = r_generation r;
  rf_object : r_object r' = r_object r;
  rf_participant : r_participant r' = r_participant r;
  rf_boot : r_boot r' = r_boot r;
  rf_offset : r_offset r' = r_offset r;
  rf_length : r_length r' = r_length r;
  rf_retired : r_lifecycle r = RegionLifecycle.Retired → r_lifecycle r' = RegionLifecycle.Retired;
  rf_lifecycle : r_lifecycle r' = r_lifecycle r ∨ r_lifecycle r' = RegionLifecycle.Retired }.

Lemma region_fixed_refl r : region_fixed r r.
Proof. split; auto. Qed.

Lemma region_fixed_trans r1 r2 r3 : region_fixed r1 r2 → region_fixed r2 r3 → region_fixed r1 r3.
Proof. intros [] []. split; try congruence; [auto|]. destruct rf_lifecycle1 as [->|]; auto. Qed.

(** A current replica holds the authoritative version, once there is one. *)
Definition current_ok (o : ObjectRecord) (r : RegionRecord) : Prop :=
  r_state r = CoherenceState.Current → defined (o_authoritative_version o) = true →
  r_version r = o_authoritative_version o.

(** A change of a region: its identity is fixed, and it is current afterwards
    only if it was before or its version was checked. *)
Definition region_step (os : gmap ObjectId ObjectRecord) (r r' : RegionRecord) : Prop :=
  region_fixed r r' ∧
  (r_state r' = CoherenceState.Current →
     (r_state r = CoherenceState.Current ∧ r_version r' = r_version r)
     ∨ ∀ o, os !! r_object r = Some o → current_ok o r').

Lemma region_step_refl os r : region_step os r r.
Proof. split; [apply region_fixed_refl | auto]. Qed.

(** The invariant of a region among the objects. *)
Definition region_ok (os : gmap ObjectId ObjectRecord) (k : RegionId) (r : RegionRecord) : Prop :=
  r_id r = k ∧ ∃ o, os !! r_object r = Some o ∧ k ∈ o_replicas o
    ∧ checked_range (r_offset r) (r_length r) (o_length o) = true ∧ current_ok o r.

Definition objects_evolve := map_evolves object_keep object_init.

Lemma region_ok_step os os' k r r' :
  objects_evolve os os' → region_step os r r' → region_ok os k r → region_ok os' k r'.
Proof.
  intros [Hos _] [[] Hcur] (Hid & o & Ho & Hin & Hext & Hc).
  destruct (Hos _ _ Ho) as (o' & Ho' & [[] Hver]).
  split; [congruence|]. exists o'. split_and!.
  - congruence.
  - auto.
  - congruence.
  - intros Hst Hdef. rewrite Hver in *. destruct (Hcur Hst) as [[Hst' Hv]|Hv].
    + rewrite Hv. by apply Hc.
    + by apply (Hv o Ho).
Qed.

(** ** Properties of one synchronization *)

(** The destination of a transfer is a replica of the transfer's object. *)
Definition sync_ok (rs : gmap RegionId RegionRecord) (y : SyncRecord) : Prop :=
  ∃ r, rs !! y_destination_region y = Some r ∧ r_object r = y_object y.

(** A transfer keeps its object and destination; one that is new is well
    formed. *)
Definition syncs_evolve (rs' : gmap RegionId RegionRecord) (ys ys' : gmap SyncOperationId SyncRecord) : Prop :=
  ∀ k y', ys' !! k = Some y' →
    (∃ y, ys !! k = Some y ∧ y_object y' = y_object y ∧ y_destination_region y' = y_destination_region y)
    ∨ sync_ok rs' y'.

(** ** The engine *)

Section evolution.
Context {St : Type} `{DurableStore St}.
Implicit Types s : Impl St.

Record evolves s s' : Prop := {
  ev_objects : objects_evolve (objects s) (objects s');
  ev_regions : map_evolves (region_step (objects s)) (region_ok (objects s')) (regions s) (regions s');
  ev_syncs : syncs_evolve (regions s') (syncs s) (syncs s') }.

Lemma syncs_evolve_refl rs ys : syncs_evolve rs ys ys.
Proof. intros k y Hk. left. eauto. Qed.

Lemma evolves_same s s' :
  objects s' = objects s → regions s' = regions s → syncs s' = syncs s → evolves s s'.
Proof.
  intros Ho Hr Hy. split; rewrite ?Ho, ?Hr, ?Hy.
  - apply map_evolves_refl. intros o. split; [apply object_step_refl | done].
  - apply map_evolves_refl, region_step_refl.
  - apply syncs_evolve_refl.
Qed.

Lemma evolves_live s s' : live_eq s' s → evolves s s'.
Proof. intros E. apply evolves_same; by rewrite E. Qed.

Lemma sync_ok_step s s' y y' :
  evolves s s' → y_object y' = y_object y → y_destination_region y' = y_destination_region y →
  sync_ok (regions s) y → sync_ok (regions s') y'.
Proof.
  intros E Ho Hd (r & Hr & Hobj). destruct (proj1 (ev_regions _ _ E) _ _ Hr) as (r' & Hr' & [[] _]).
  exists r'. split; congruence.
Qed.

Lemma objects_evolve_trans (m1 m2 m3 : gmap ObjectId ObjectRecord) :
  objects_evolve m1 m2 → objects_evolve m2 m3 → objects_evolve m1 m3.
Proof.
  apply map_evolves_trans.
  - intros _ a b c _ _ _ [? ?] [? ?]. split; [by eapply object_step_trans | congruence].
  - intros k a b _ _ (? & ? & ? & ?) [[] _]. split_and!; auto. congruence.
  - done.
Qed.

Lemma evolves_trans s1 s2 s3 : evolves s1 s2 → evolves s2 s3 → evolves s1 s3.
Proof.
  intros E1 E2. pose proof E1 as [Ho1 Hr1 Hy1]. pose proof E2 as [Ho2 Hr2 Hy2].
  split; [by eapply objects_evolve_trans| |].
  2: { intros k y3 Hk. destruct (Hy2 _ _ Hk) as [(y2 & Hk2 & ? & ?)|]; [|by right].
       destruct (Hy1 _ _ Hk2) as [(y1 & ? & ? & ?)|Hok]; [left; exists y1; split_and!; congruence|].
       right. by eapply sync_ok_step. }
  revert Hr1 Hr2. apply map_evolves_trans.
  - intros k a b c _ _ _ [Hf1 Hc1] [Hf2 Hc2]. split; [by eapply region_fixed_trans|].
    intros Hc. destruct (Hc2 Hc) as [[Hb Hv]|Hcert].
    + destruct (Hc1 Hb) as [[Ha Hv']|Hcert]; [left; split; congruence|].
      right. intros o Ho _ Hdef. rewrite Hv. by apply (Hcert o Ho).
    + right. intros o Ho _ Hdef. destruct (proj1 Ho1 _ _ Ho) as (o2 & Ho2' & [_ Hver]).
      rewrite <-Hver in *. apply (Hcert o2); [by rewrite (rf_object _ _ Hf1) | done..].
  - intros k a b _ _ Ha Hab. by eapply region_ok_step.
  - intros k a _ Ha. done.
Qed.

Lemma evolves_set_object s k o o' :
  objects s !! k = Some o → object_keep o o' → evolves s (set_object k o' s).
Proof.
  intros Hk Ho. split; simpl.
  - eapply map_evolves_insert; [|done..]. intros a. split; [apply object_step_refl | done].
  - apply map_evolves_refl, region_step_refl.
  - apply syncs_evolve_refl.
Qed.

Lemma evolves_set_region s k r r' :
  regions s !! k = Some r → region_step (objects s) r r' → evolves s (set_region k r' s).
Proof.
  intros Hk Hr. split; simpl.
  - apply map_evolves_refl. intros a. split; [apply object_step_refl | done].
  - eapply map_evolves_insert; [|done..]. apply region_step_refl.
  - apply syncs_evolve_refl.
Qed.

(** A transfer may be rewritten under the same object and destination, or
    recorded once it is well formed. *)
Lemma evolves_set_sync s k y' :
  (∃ y, syncs s !! k = Some y ∧ y_object y' = y_object y ∧ y_destination_region y' = y_destination_region y)
  ∨ sync_ok (regions s) y' → evolves s (set_sync k y' s).
Proof.
  intros Hy. split; simpl.
  - apply map_evolves_refl. intros a. split; [apply object_step_refl | done].
  - apply map_evolves_refl, region_step_refl.
  - intros j z Hj. destruct (decide (k = j)) as [->|].
    + rewrite lookup_insert_eq in Hj. by simplify_eq.
    + rewrite lookup_insert_ne in Hj by done. left. eauto.
Qed.

Lemma evolves_alter_object s k f :
  (∀ o, objects s !! k = Some o → object_keep o (f o)) → evolves s (s <| objects ::= alter f k |>).
Proof.
  intros Hf. destruct (objects s !! k) as [o|] eqn:E.
  - assert (alter f k (objects s) = <[k := f o]> (objects s)) as Ha.
    { apply map_eq. intros j. rewrite lookup_alter, lookup_insert.
      case_decide; subst; [by rewrite E | done]. }
    change (evolves s (s <| objects := alter f k (objects s) |>)). rewrite Ha.
    eapply evolves_set_object; eauto.
  - apply evolves_same; simpl; [|done..]. apply map_eq. intros j.
    rewrite lookup_alter. case_decide; subst; [by rewrite E | done].
Qed.

Lemma evolves_alter_region s k f :
  (∀ r, regions s !! k = Some r → region_step (objects s) r (f r)) →
  evolves s (s <| regions ::= alter f k |>).
Proof.
  intros Hf. destruct (regions s !! k) as [r|] eqn:E.
  - assert (alter f k (regions s) = <[k := f r]> (regions s)) as Ha.
    { apply map_eq. intros j. rewrite lookup_alter, lookup_insert.
      case_decide; subst; [by rewrite E | done]. }
    change (evolves s (s <| regions := alter f k (regions s) |>)). rewrite Ha.
    eapply evolves_set_region; eauto.
  - apply evolves_same; simpl; [done| |done]. apply map_eq. intros j.
    rewrite lookup_alter. case_decide; subst; [by rewrite E | done].
Qed.

Lemma evolves_foldl {B} (f : Impl St → B → Impl St) s l :
  (∀ s x, evolves s (f s x)) → evolves s (foldl f s l).
Proof.
  intros Hf. apply (foldl_preserves evolves); [|apply evolves_trans|done].
  intros a. by apply evolves_same.
Qed.

(** A loop that also collects journal entries. *)
Lemma evolves_foldl_entries {B E} (f : Impl St * E → B → Impl St * E) acc l :
  (∀ acc x, evolves acc.1 (f acc x).1) → evolves acc.1 (foldl f acc l).1.
Proof.
  intros Hf. apply (foldl_preserves (λ a b, evolves a.1 b.1)); [| |done].
  - intros a. by apply evolves_same.
  - intros a b c. apply evolves_trans.
Qed.

(** The invariants an evolution carries along. *)
Definition objects_inv s : Prop := map_Forall object_init (objects s).
Definition regions_inv s : Prop := map_Forall (region_ok (objects s)) (regions s).
Definition syncs_inv s : Prop := map_Forall (λ _, sync_ok (regions s)) (syncs s).

Lemma evolves_syncs_inv s s' : evolves s s' → syncs_inv s → syncs_inv s'.
Proof.
  intros E Hinv k y' Hk. destruct (ev_syncs _ _ E _ _ Hk) as [(y & Hy & ? & ?)|]; [|done].
  eapply sync_ok_step; eauto.
Qed.

Lemma evolves_objects_inv s s' : evolves s s' → objects_inv s → objects_inv s'.
Proof.
  intros [[Ho Hi] _ _] Hinv k o' Hk. destruct (objects s !! k) as [o|] eqn:E; [|eauto].
  destruct (Ho _ _ E) as (o'' & ? & [[] _]). simplify_eq.
  destruct (Hinv _ _ E) as (? & ? & ? & ?). split_and!; auto. congruence.
Qed.

Lemma evolves_regions_inv s s' : evolves s s' → regions_inv s → regions_inv s'.
Proof.
  intros [Hos [Hr Hi] _] Hinv k r' Hk. destruct (regions s !! k) as [r|] eqn:E; [|eauto].
  destruct (Hr _ _ E) as (r'' & ? & ?). simplify_eq. eapply region_ok_step; eauto.
Qed.
End evolution.

#[global] Arguments evolves {St} s s'.
#[global] Arguments objects_inv {St} s.
#[global] Arguments regions_inv {St} s.
#[global] Arguments syncs_inv {St} s.

#[export] Hint Resolve evolves_live evolves_same : coherence.

(** ** The states of the records

    The engine's records carry states with declared transitions
    ([enums.cpp]).  A [rules] value says which changes of these states an
    operation may make; [follows t s s'] says that every record of [s] is still
    there in [s'] with its states changed as [t] allows, and that what is new
    began in the state the engine creates records in.  Most of what an
    operation does leaves every state alone ([idle]), and idle steps can be
    put before and after any other. *)

Definition region_view (k : RegionId) (r : RegionRecord) := (r_lifecycle r, r_state r).
Definition object_view (k : ObjectId) (o : ObjectRecord) := (o_lifecycle o, o_has_unpublished_dirty o).
Definition participant_view (k : ParticipantId) (p : ParticipantRecord) :=
  (p_lifecycle p, p_boot p, bool_decide (p_id p = k)).
Definition sync_view (k : SyncOperationId) (y : SyncRecord) := y_state y.

Record rules := Rules {
  on_region : relation (RegionLifecycle.t * CoherenceState.t);
  on_object : relation (ObjectLifecycle.t * bool);
  on_participant : relation (ParticipantLifecycle.t * ParticipantBootId * bool);
  on_sync : relation SyncState.t }.

#[export] Instance eta_rules : Eta rules :=
  λ t, Rules (on_region t) (on_object t) (on_participant t) (on_sync t).

(** Nothing changes. *)
Definition idle : rules := Rules eq eq eq eq.

(** Nothing has to change. *)
Class Tame (t : rules) : Prop := {
  tame_region :: Reflexive (on_region t);
  tame_object :: Reflexive (on_object t);
  tame_participant :: Reflexive (on_participant t);
  tame_sync :: Reflexive (on_sync t) }.

(** Changes that can be repeated, as the bodies of loops are. *)
Class Steady (t : rules) : Prop := {
  steady_tame :: Tame t;
  steady_region :: Transitive (on_region t);
  steady_object :: Transitive (on_object t);
  steady_participant :: Transitive (on_participant t);
  steady_sync :: Transitive (on_sync t) }.

#[export] Instance idle_steady : Steady idle.
Proof. split; [split|..]; simpl; apply _. Qed.

(** ** Runs that follow rules *)

(** How one map changes: by [R] on the view of a record that stays; a record
    that is new was born in [b].  The view of a record may depend on the key it
    is stored under. *)
Definition view_evolves {K A V} `{Countable K} (view : K → A → V) (R : relation V) (b : V → Prop)
    (m m' : gmap K A) : Prop :=
  (∀ k a, m !! k = Some a → ∃ a', m' !! k = Some a' ∧ R (view k a) (view k a')) ∧
  (∀ k a', m !! k = None → m' !! k = Some a' → ∃ v, b v ∧ R v (view k a')).

Section views.
Context {K A V : Type} `{Countable K} (view : K → A → V) (b : V → Prop).
Implicit Types (R : relation V) (m : gmap K A).

Lemma view_evolves_refl R m : Reflexive R → view_evolves view R b m m.
Proof. intros HR. split; [eauto | by intros k a -> ]. Qed.

Lemma view_evolves_mono (R R' : relation V) m m' :
  (∀ v w, R v w → R' v w) → view_evolves view R b m m' → view_evolves view R' b m m'.
Proof.
  intros HR [Hk Hn]. split.
  - intros k a Ha. destruct (Hk _ _ Ha) as (a' & ? & ?). eauto.
  - intros k a' Ha Ha'. destruct (Hn _ _ Ha Ha') as (v & ? & ?). eauto.
Qed.

Lemma view_evolves_trans (R1 R2 R3 : relation V) m1 m2 m3 :
  Reflexive R1 → (∀ u v w, R1 u v → R2 v w → R3 u w) →
  view_evolves view R1 b m1 m2 → view_evolves view R2 b m2 m3 → view_evolves view R3 b m1 m3.
Proof.
  intros HR HT [Ha Hb] [Hc Hd]. split.
  - intros k a Hk. destruct (Ha _ _ Hk) as (a' & Ha' & ?). destruct (Hc _ _ Ha') as (a'' & ? & ?). eauto.
  - intros k a'' Hk Ha''. destruct (m2 !! k) as [a'|] eqn:E.
    + destruct (Hc _ _ E) as (c & ? & ?). destruct (Hb _ _ Hk E) as (v & ? & ?). simplify_eq. eauto.
    + destruct (Hd _ _ E Ha'') as (v & ? & ?). eauto.
Qed.

(** Insertion under a key that may be new. *)
Lemma view_evolves_put R m k a' :
  Reflexive R → match m !! k with Some a => R (view k a) (view k a') | None => b (view k a') end →
  view_evolves view R b m (<[k := a']> m).
Proof.
  intros HR Hk. split.
  - intros j a Hj. destruct (decide (k = j)) as [->|].
    + rewrite Hj in Hk. rewrite lookup_insert_eq. eauto.
    + rewrite lookup_insert_ne by done. eauto.
  - intros j a Hn. destruct (decide (k = j)) as [->|].
    + rewrite Hn in Hk. rewrite lookup_insert_eq. intros [= <-]. eauto.
    + rewrite lookup_insert_ne by done. congruence.
Qed.

Lemma view_evolves_insert R m k a a' :
  Reflexive R → m !! k = Some a → R (view k a) (view k a') → view_evolves view R b m (<[k := a']> m).
Proof. intros HR Hk Ha. apply view_evolves_put; [done|]. by rewrite Hk. Qed.

Lemma view_evolves_new R m k a :
  Reflexive R → b (view k a) → view_evolves view R b m (emplace k a m).
Proof.
  intros HR Hb. split.
  - intros j x Hj. rewrite lookup_emplace. case_decide; subst; rewrite ?Hj; simpl; eauto.
  - intros j x Hn. rewrite lookup_emplace. case_decide; subst; rewrite Hn; simpl; [|done].
    intros [= <-]. eauto.
Qed.

Lemma view_evolves_alter R m k (f : A → A) :
  Reflexive R → (∀ a, m !! k = Some a → R (view k a) (view k (f a))) → view_evolves view R b m (alter f k m).
Proof.
  intros HR Hf. split.
  - intros j a Hj. rewrite lookup_alter. case_decide; [subst|eauto]. rewrite Hj. simpl. eauto.
  - intros j a Hn. rewrite lookup_alter. case_decide; subst; by rewrite Hn.
Qed.
End views.

Definition born_region (v : RegionLifecycle.t * CoherenceState.t) : Prop :=
  v = (RegionLifecycle.Active, CoherenceState.Unknown) ∨
  v = (RegionLifecycle.Active, CoherenceState.RevalidationRequired).
Definition born_object (v : ObjectLifecycle.t * bool) : Prop := v = (ObjectLifecycle.Active, false).
Definition born_participant (v : ParticipantLifecycle.t * ParticipantBootId * bool) : Prop :=
  v.1.1 = ParticipantLifecycle.Active ∧ v.2 = true.
Definition born_sync (v : SyncState.t) : Prop := v = SyncState.Requested.

Section follows.
Context {St : Type} `{DurableStore St}.
Implicit Types (s : Impl St) (t : rules).

Record follows t s s' : Prop := {
  fo_regions : view_evolves region_view (on_region t) born_region (regions s) (regions s');
  fo_objects : view_evolves object_view (on_object t) born_object (objects s) (objects s');
  fo_participants : view_evolves participant_view (on_participant t) born_participant
                      (participants s) (participants s');
  fo_syncs : view_evolves sync_view (on_sync t) born_sync (syncs s) (syncs s') }.

Lemma follows_same t s s' : Tame t →
  regions s' = regions s → objects s' = objects s → participants s' = participants s →
  syncs s' = syncs s → follows t s s'.
Proof. intros Ht Hr Ho Hp Hy. split; rewrite ?Hr, ?Ho, ?Hp, ?Hy; apply view_evolves_refl, Ht. Qed.

Lemma follows_refl t s : Tame t → follows t s s.
Proof. intros. by apply follows_same. Qed.

Lemma follows_live t s s' : Tame t → live_eq s' s → follows t s s'.
Proof. intros Ht []. by apply follows_same. Qed.

Lemma follows_mono t t' s s' :
  (∀ v w, on_region t v w → on_region t' v w) → (∀ v w, on_object t v w → on_object t' v w) →
  (∀ v w, on_participant t v w → on_participant t' v w) → (∀ v w, on_sync t v w → on_sync t' v w) →
  follows t s s' → follows t' s s'.
Proof. intros ???? []. split; by eapply view_evolves_mono. Qed.

Lemma follows_weaken t s s' : Tame t → follows idle s s' → follows t s s'.
Proof. intros Ht. apply follows_mono; intros v w ->; apply Ht. Qed.

Lemma follows_compose t1 t2 t s1 s2 s3 : Tame t1 →
  (∀ u v w, on_region t1 u v → on_region t2 v w → on_region t u w) →
  (∀ u v w, on_object t1 u v → on_object t2 v w → on_object t u w) →
  (∀ u v w, on_participant t1 u v → on_participant t2 v w → on_participant t u w) →
  (∀ u v w, on_sync t1 u v → on_sync t2 v w → on_sync t u w) →
  follows t1 s1 s2 → follows t2 s2 s3 → follows t s1 s3.
Proof. intros Ht ???? [] []. split; (eapply view_evolves_trans; [apply Ht | done..]). Qed.

Lemma follows_trans t s1 s2 s3 : Steady t → follows t s1 s2 → follows t s2 s3 → follows t s1 s3.
Proof.
  intros Ht. apply follows_compose; [apply _|intros u v w; apply transitivity..].
Qed.

Lemma follows_idle_r t s x y : Tame t → follows idle x y → follows t s x → follows t s y.
Proof. intros Ht Hq Hs. eapply follows_compose; [exact Ht|..|exact Hs|exact Hq]; by intros u v w ? <-. Qed.

Lemma follows_idle_l t s x y : follows idle s x → follows t x y → follows t s y.
Proof. apply follows_compose; [apply _|by intros u v w ->..]. Qed.

Lemma follows_foldl {B} t (f : Impl St → B → Impl St) s l :
  Steady t → (∀ s x, follows t s (f s x)) → follows t s (foldl f s l).
Proof.
  intros Ht Hf. apply (foldl_preserves (follows t)); [|intros a b c; by apply follows_trans|done].
  intros a. apply follows_refl, Ht.
Qed.

Lemma follows_foldl_entries {B E} t (f : Impl St * E → B → Impl St * E) acc l :
  Steady t → (∀ acc x, follows t acc.1 (f acc x).1) → follows t acc.1 (foldl f acc l).1.
Proof.
  intros Ht Hf. apply (foldl_preserves (λ a b, follows t a.1 b.1)); [| |done].
  - intros a. apply follows_refl, Ht.
  - intros a b c. by apply follows_trans.
Qed.

(** ** Backwards, from the last update *)

Lemma follows_end_live t s x y : Tame t → live_eq y x → follows t s x → follows t s y.
Proof. intros Ht L. apply follows_idle_r; [done|]. apply follows_live; [apply idle_steady|done]. Qed.

Lemma follows_end_same t s x y : Tame t →
  regions y = regions x → objects y = objects x → participants y = participants x → syncs y = syncs x →
  follows t s x → follows t s y.
Proof.
  intros Ht ????. apply follows_idle_r; [done|]. apply follows_same; [apply idle_steady|done..].
Qed.

(** One record is replaced by one with the same states. *)
Lemma follows_end_object t s x k o o' : Tame t →
  objects x !! k = Some o → object_view k o' = object_view k o → follows t s x → follows t s (set_object k o' x).
Proof.
  intros Ht Hk Hv. apply follows_idle_r; [done|].
  split; simpl; try (apply view_evolves_refl; apply _). by eapply view_evolves_insert; [apply _|..].
Qed.

Lemma follows_end_region t s x k r r' : Tame t →
  regions x !! k = Some r → region_view k r' = region_view k r → follows t s x → follows t s (set_region k r' x).
Proof.
  intros Ht Hk Hv. apply follows_idle_r; [done|].
  split; simpl; try (apply view_evolves_refl; apply _). by eapply view_evolves_insert; [apply _|..].
Qed.

Lemma follows_end_alter_object t s x k f : Tame t →
  (∀ o, object_view k (f o) = object_view k o) → follows t s x → follows t s (x <| objects ::= alter f k |>).
Proof.
  intros Ht Hf. apply follows_idle_r; [done|].
  split; simpl; try (apply view_evolves_refl; apply _). apply view_evolves_alter; [apply _|]. by intros.
Qed.

Lemma follows_end_alter_region t s x k f : Tame t →
  (∀ r, region_view k (f r) = region_view k r) → follows t s x → follows t s (x <| regions ::= alter f k |>).
Proof.
  intros Ht Hf. apply follows_idle_r; [done|].
  split; simpl; try (apply view_evolves_refl; apply _). apply view_evolves_alter; [apply _|]. by intros.
Qed.

(** A record is new. *)
Lemma follows_end_new_object t s x k o : Tame t →
  born_object (object_view k o) → follows t s x → follows t s (x <| objects ::= emplace k o |>).
Proof.
  intros Ht Hb. apply follows_idle_r; [done|].
  split; simpl; try (apply view_evolves_refl; apply _). apply view_evolves_new; [apply _|done].
Qed.

Lemma follows_end_new_region t s x k r : Tame t →
  born_region (region_view k r) → follows t s x → follows t s (x <| regions ::= emplace k r |>).
Proof.
  intros Ht Hb. apply follows_idle_r; [done|].
  split; simpl; try (apply view_evolves_refl; apply _). apply view_evolves_new; [apply _|done].
Qed.

Lemma follows_end_alter_participant t s x k f : Tame t →
  (∀ p, participant_view k (f p) = participant_view k p) → follows t s x →
  follows t s (x <| participants ::= alter f k |>).
Proof.
  intros Ht Hf. apply follows_idle_r; [done|].
  split; simpl; try (apply view_evolves_refl; apply _). apply view_evolves_alter; [apply _|]. by intros.
Qed.

(** One record changes its states. *)
Lemma follows_set_object t s k o o' : Tame t →
  objects s !! k = Some o → on_object t (object_view k o) (object_view k o') → follows t s (set_object k o' s).
Proof.
  intros Ht Hk Hv. split; simpl; try (apply view_evolves_refl; apply Ht).
  by eapply view_evolves_insert; [apply Ht|..].
Qed.

Lemma follows_set_region t s k r r' : Tame t →
  regions s !! k = Some r → on_region t (region_view k r) (region_view k r') → follows t s (set_region k r' s).
Proof.
  intros Ht Hk Hv. split; simpl; try (apply view_evolves_refl; apply Ht).
  by eapply view_evolves_insert; [apply Ht|..].
Qed.

Lemma follows_set_sync t s k y y' : Tame t →
  syncs s !! k = Some y → on_sync t (y_state y) (y_state y') → follows t s (set_sync k y' s).
Proof.
  intros Ht Hk Hv. split; simpl; try (apply view_evolves_refl; apply Ht).
  by eapply view_evolves_insert; [apply Ht|..].
Qed.

Lemma follows_put_participant t s k p' : Tame t →
  match participants s !! k with
  | Some p => on_participant t (participant_view k p) (participant_view k p')
  | None => born_participant (participant_view k p')
  end → follows t s (set_participant k p' s).
Proof.
  intros Ht Hk. split; simpl; try (apply view_evolves_refl; apply Ht).
  apply view_evolves_put; [apply Ht|done].
Qed.

Lemma follows_put_sync t s x k y : Tame t → syncs x = syncs s →
  match syncs s !! k with
  | Some y0 => on_sync t (sync_view k y0) (sync_view k y)
  | None => born_sync (sync_view k y)
  end → follows t s x → follows t s (set_sync k y x).
Proof.
  intros Ht Hx Hk []. split; [done..|].
  change (view_evolves sync_view (on_sync t) born_sync (syncs s) (<[k := y]> (syncs x))).
  rewrite Hx. apply view_evolves_put; [apply Ht|done].
Qed.

Lemma follows_set_participant t s k p p' : Tame t →
  participants s !! k = Some p → on_participant t (participant_view k p) (participant_view k p') →
  follows t s (set_participant k p' s).
Proof. intros Ht Hk Hp. apply follows_put_participant; [done|]. by rewrite Hk. Qed.
End follows.

#[global] Arguments follows {St} t s s'.
