(* ===== verification/Steps.v ===== *)
(** * Every operation is an evolution

    One lemma per loop body and per operation: [evolves s (op s).1].  The two
    operations that are not are the commit of a publication and the attachment
    of a store; they are treated in [System]. *)
From S2P Require Import Prelude Ids Enums Status Bytes Policy Evidence Model Decisions Persistence.
From S2P Require Import Engine Resolve Core Registry Read Write Invalidate Publish Sync Auditor.
From S2P Require Import Frame Evolution.

(** ** What a validated request establishes *)

Section resolved.
Context {St : Type} `{DurableStore St}.
Implicit Types s : Impl St.

Record resolved (ctx : AuthorityContext) s (o : ObjectRecord) (p : ParticipantRecord) : Prop := {
  res_running : shutting_down s = false;
  res_named : defined (ac_participant ctx) = true;
  res_epoch : ac_epoch ctx = epoch s;
  res_object : objects s !! ac_object ctx = Some o;
  res_generation : o_generation o = ac_object_generation ctx;
  res_lifecycle : o_lifecycle o = ObjectLifecycle.Created ∨ o_lifecycle o = ObjectLifecycle.Active;
  res_policy : defined (ac_policy_generation ctx) = true → ac_policy_generation ctx = o_policy_generation o;
  res_participant : participants s !! ac_participant ctx = Some p;
  res_not_fenced : p_lifecycle p ≠ ParticipantLifecycle.Fenced;
  res_not_retired : p_lifecycle p ≠ ParticipantLifecycle.Retired;
  res_boot : p_boot p = ac_boot ctx }.

Lemma resolve_locked_success ctx s o p : resolve_locked ctx s = success (o, p) ↔ resolved ctx s o p.
Proof.
  unfold resolve_locked. split.
  - destruct (shutting_down s) eqn:Es; [done|].
    destruct (is_nil (ac_participant ctx)) eqn:En; [done|].
    destruct (decide (ac_epoch ctx ≠ epoch s)) as [|He]; [done|].
    destruct (objects s !! ac_object ctx) as [o'|] eqn:Eo; [|done].
    repeat (case_decide; [done|]).
    destruct (participants s !! ac_participant ctx) as [p'|] eqn:Ep; [|done].
    repeat (case_decide; [done|]). intros [= <- <-].
    split; try done; try (by apply dec_stable).
    + unfold defined. by rewrite En.
    + destruct (o_lifecycle o'); first [by auto | congruence].
    + intros Hd. apply dec_stable. intros ?. naive_solver.
  - intros []. unfold defined in res_named0. rewrite res_running0, res_object0, res_participant0.
    destruct (is_nil (ac_participant ctx)); [done|].
    repeat rewrite decide_False by intuition congruence. done.
Qed.

Record region_resolved (o : ObjectRecord) (id : RegionId) (g : RegionGeneration) s (r : RegionRecord) : Prop := {
  rres_region : regions s !! id = Some r;
  rres_object : r_object r = o_id o;
  rres_generation : defined g = true → r_generation r = g }.

Lemma resolve_region_success o id g s r :
  resolve_region_locked o id g s = success r ↔ region_resolved o id g s r.
Proof.
  unfold resolve_region_locked. split.
  - destruct (regions s !! id) as [r'|] eqn:E; [|done].
    repeat (case_decide; [done|]). intros [= <-].
    split; [done..|]. intros. apply dec_stable. naive_solver.
  - intros []. rewrite rres_region0. repeat rewrite decide_False by intuition congruence. done.
Qed.
End resolved.

(** ** Object and region updates *)

Lemma reads_released o : Forall (λ g, g_released g = true) (o_reads o) → reads_ok o.
Proof. by intros ? _. Qed.

Lemma released_all (gs : list ReadGrant) :
  Forall (λ g, g_released g = true) ((λ g, g <| g_released := true |>) <$> gs).
Proof. apply Forall_fmap, Forall_true. done. Qed.

(** Mapping a function that only ever releases grants. *)
Lemma released_fmap (f : ReadGrant → ReadGrant) gs :
  (∀ g, g_released g = true → g_released (f g) = true) →
  Forall (λ g, g_released g = true) gs → Forall (λ g, g_released g = true) (f <$> gs).
Proof. intros Hf HF. apply Forall_fmap. eapply Forall_impl; [done|]. exact Hf. Qed.

#[export] Hint Resolve released_all : coherence.

(** The shape of most object updates: authority, grants, dirty state and
    lifecycle are untouched. *)
Lemma object_keep_plain o o' :
  o_id o' = o_id o → o_generation o' = o_generation o → o_domain o' = o_domain o →
  o_name o' = o_name o → o_length o' = o_length o → o_replicas o' = o_replicas o →
  o_reads o' = o_reads o → o_authority o' = o_authority o → o_writer o' = o_writer o →
  o_has_unpublished_dirty o' = o_has_unpublished_dirty o →
  o_dirty_condition o' = o_dirty_condition o → o_lifecycle o' = o_lifecycle o →
  o_authoritative_version o' = o_authoritative_version o → object_keep o o'.
Proof.
  intros ????? Hrep Hr Ha Hw Hd Hc Hl ?. split; [|done].
  split; try done; unfold reads_ok, writer_ok, dirty_ok, retired, exclusive;
    rewrite ?Hrep, ?Hr, ?Ha, ?Hw, ?Hd, ?Hc, ?Hl; auto.
Qed.

Ltac plain := apply object_keep_plain; reflexivity.

(** A region update that does not make the region current. *)
Lemma region_step_demote os r r' :
  region_fixed r r' → r_state r' ≠ CoherenceState.Current → region_step os r r'.
Proof. by split. Qed.

(** A region update that keeps state and version. *)
Lemma region_step_keep os r r' :
  region_fixed r r' → r_state r' = r_state r → r_version r' = r_version r → region_step os r r'.
Proof. intros ? Hs ?. split; [done|]. rewrite Hs. auto. Qed.

Ltac fixed := split; simpl; first [done | by left | by right].

(** Clearing and restoring fields that authority does not depend on. *)
Lemma clear_pending_keep o : object_keep o (clear_pending o).
Proof. plain. Qed.

Section helpers.
Context {St : Type} `{DurableStore St}.
Implicit Types s : Impl St.

Lemma recomputed_authority_exclusive s o :
  exclusive (o <| o_authority := recomputed_authority s o |>) = exclusive o.
Proof. unfold exclusive, recomputed_authority. simpl. destruct (o_authority o); simpl; repeat case_match; done. Qed.

Lemma recomputed_keep s o : object_keep o (o <| o_authority := recomputed_authority s o |>).
Proof.
  split; [|done]. split; try done.
  - unfold reads_ok. by rewrite recomputed_authority_exclusive.
  - unfold writer_ok. by rewrite recomputed_authority_exclusive.
Qed.

Lemma recompute_evolves id s : evolves s (recompute_authority_locked id s).
Proof.
  unfold recompute_authority_locked. case_match; [|by apply evolves_same].
  eapply evolves_set_object; [done|]. apply recomputed_keep.
Qed.

Lemma mark_region_stale_evolves v e s id : evolves s (mark_region_stale v e s id).
Proof.
  unfold mark_region_stale. case_decide; [by apply evolves_same|].
  destruct (regions s !! id) as [r|] eqn:E; [|by apply evolves_same].
  case_decide; [|by apply evolves_same].
  eapply evolves_trans; [|apply evolves_live; eauto with coherence].
  eapply evolves_set_region; [done|]. apply region_step_demote; [fixed | done].
Qed.

Lemma release_matching_keep p b o :
  object_keep o (o <| o_reads ::= fmap (release_matching p b) |>).
Proof.
  split; [|done]. split; try done. intros Hr He. specialize (Hr He). simpl.
  apply released_fmap; [|done]. intros g Hg. unfold release_matching. by case_match.
Qed.

Lemma release_reads_of_object_evolves p b s id : evolves s (release_reads_of_object p b s id).
Proof.
  unfold release_reads_of_object. destruct (objects s !! id) as [o|] eqn:E; [|by apply evolves_same].
  case_match; [|by apply evolves_same].
  eapply evolves_trans; [|apply evolves_live; eauto with coherence].
  eapply evolves_set_object; [done|]. destruct (release_matching_keep p b o) as [[] ?]. by split.
Qed.

Lemma release_reads_evolves p b s : evolves s (release_reads_for_participant_locked p b s).
Proof. apply evolves_foldl. intros. apply release_reads_of_object_evolves. Qed.
End helpers.

(** ** Domains, participants and fencing *)

(** An evolution is proved from its last state backwards. *)
Section backward.
Context {St : Type} `{DurableStore St}.
Implicit Types s : Impl St.

Lemma evolves_refl s : evolves s s.
Proof. by apply evolves_same. Qed.

Lemma evolves_end_live s x y : live_eq y x → evolves s x → evolves s y.
Proof. intros L E. eapply evolves_trans; [exact E | by apply evolves_live]. Qed.

Lemma evolves_end_same s x y : objects y = objects x → regions y = regions x → syncs y = syncs x → evolves s x → evolves s y.
Proof. intros Ho Hr Hy E. eapply evolves_trans; [exact E | by apply evolves_same]. Qed.

Lemma evolves_end_object s x k o o' :
  objects x !! k = Some o → object_keep o o' → evolves s x → evolves s (set_object k o' x).
Proof. intros Hk Ho E. eapply evolves_trans; [exact E | by eapply evolves_set_object]. Qed.

Lemma evolves_end_region s x k r r' :
  regions x !! k = Some r → region_step (objects x) r r' → evolves s x → evolves s (set_region k r' x).
Proof. intros Hk Hr E. eapply evolves_trans; [exact E | by eapply evolves_set_region]. Qed.

Lemma evolves_end_sync s x k y y' :
  syncs x !! k = Some y → y_object y' = y_object y → y_destination_region y' = y_destination_region y →
  evolves s x → evolves s (set_sync k y' x).
Proof. intros Hk ?? E. eapply evolves_trans; [exact E | apply evolves_set_sync]. left. eauto. Qed.

Lemma evolves_end {x : Impl St} y s : evolves x y → evolves s x → evolves s y.
Proof. intros E1 E2. by eapply evolves_trans. Qed.
End backward.

(** Strip the last calls that cannot change objects or regions. *)
Ltac strip :=
  repeat (cbn [fst snd]; lazymatch goal with
  | |- evolves ?s ?s => apply evolves_refl
  | L : live_eq ?x ?y |- evolves _ ?x => apply (evolves_end_live _ y x L); clear L
  | |- evolves _ (tick _) => eapply evolves_end_live; [apply tick_live|]
  | |- evolves _ (record_decision _ _ _ _) => eapply evolves_end_live; [apply record_decision_live|]
  | |- evolves _ (upsert_durable_object_locked _ _) => eapply evolves_end_live; [apply upsert_object_live|]
  | |- evolves _ (upsert_durable_region_locked _ _) => eapply evolves_end_live; [apply upsert_region_live|]
  | |- evolves _ (upsert_durable_participant_locked _ _) =>
      eapply evolves_end_live; [apply upsert_participant_live|]
  | |- evolves _ (fst (append_locked _ _)) => eapply evolves_end_live; [apply append_locked_live|]
  | |- evolves _ (fst (append_many_locked _ _)) => eapply evolves_end_live; [apply append_many_locked_live|]
  | |- evolves _ (fst (maybe_compact_locked _)) => eapply evolves_end_live; [apply maybe_compact_live|]
  | |- evolves _ (set_participant _ _ ?x) => apply (evolves_end_same _ x); [reflexivity..|]
  | |- evolves _ (set_invalidation _ _ ?x) => apply (evolves_end_same _ x); [reflexivity..|]
  | |- evolves _ (@modify_field _ _ _ _ _ ?x) => apply (evolves_end_same _ x); [reflexivity..|]
  end).

Ltac ends := solve [strip].

Section core.
Context {St : Type} `{DurableStore St}.
Implicit Types s : Impl St.

Lemma create_domain_evolves name s : evolves s (create_domain name s).1.
Proof.
  unfold create_domain. repeat (case_match; [ends|]). live_step. case_match; strip.
Qed.

Lemma retire_superseded_region_evolves p b s id : evolves s (retire_superseded_region p b s id).
Proof.
  unfold retire_superseded_region. destruct (regions s !! id) as [r|] eqn:E; [|ends].
  case_match; [ends|]. case_match; [ends|]. strip.
  unfold release_region_name_locked. case_match; strip;
    (eapply evolves_end_region; [done | apply region_step_demote; [fixed | done] | strip]).
Qed.

Lemma store_participant_evolves l p s : evolves s (store_participant l p s).1.
Proof.
  unfold store_participant. live_step. case_match; strip.
Qed.

Lemma register_participant_evolves name b ep l s : evolves s (register_participant name b ep l s).1.
Proof.
  unfold register_participant. repeat (case_match; [ends|]). case_match.
  - case_match; [|ends]. case_match; [ends|]. case_match; [ends|].
    eapply evolves_end; [apply store_participant_evolves|]. apply evolves_foldl. intros.
    apply retire_superseded_region_evolves.
  - case_match; [ends|]. eapply evolves_end; [apply store_participant_evolves|]. strip.
Qed.

Lemma mark_session_closed_evolves id b s : evolves s (mark_session_closed id b s).1.
Proof.
  unfold mark_session_closed. case_match; [|ends]. case_match; strip.
Qed.

Lemma apply_dirty_loss_keep loss note o : object_keep o (apply_dirty_loss loss note o).
Proof.
  unfold apply_dirty_loss. destruct (o_has_unpublished_dirty o) eqn:E; [|split; [apply object_step_refl|done]].
  destruct loss; split; try done; split; try done; by intros [_ Hd]; rewrite E in Hd.
Qed.

(** Giving up authority keeps every property of an object. *)
Lemma unowned_keep o :
  object_keep o (o <| o_authority := AuthorityMode.None |> <| o_writer := nil_id |> <| o_writer_boot := nil_uuid |>).
Proof. by split. Qed.

Lemma object_keep_trans o1 o2 o3 : object_keep o1 o2 → object_keep o2 o3 → object_keep o1 o3.
Proof. intros [? ?] [? ?]. split; [by eapply object_step_trans | congruence]. Qed.

Lemma touch_keep seq o : object_keep o (o <| o_updated_sequence := seq |>).
Proof. plain. Qed.

Lemma fenced_writer_keep loss seq o : object_keep o (fenced_writer_object loss seq o).
Proof.
  unfold fenced_writer_object. eapply object_keep_trans; [apply unowned_keep|].
  eapply object_keep_trans; [|apply touch_keep].
  eapply object_keep_trans; [|apply apply_dirty_loss_keep]. case_match; plain.
Qed.

Lemma fence_object_evolves id b (acc : Impl St * list JournalPayload) oid : evolves acc.1 (fence_object id b acc oid).1.
Proof.
  destruct acc as [s es]. unfold fence_object. simpl.
  destruct (objects s !! oid) as [o|] eqn:E; [|ends]. case_match; [|ends]. simpl.
  eapply evolves_set_object; [done|]. apply fenced_writer_keep.
Qed.

Lemma fence_region_evolves id b reason (acc : Impl St * list JournalPayload) rid : evolves acc.1 (fence_region id b reason acc rid).1.
Proof.
  destruct acc as [s es]. unfold fence_region. simpl.
  destruct (regions s !! rid) as [r|] eqn:E; [|ends]. do 2 (case_match; [ends|]). simpl.
  eapply evolves_set_region; [done|]. apply region_step_demote; [fixed | done].
Qed.

Lemma fence_sync_evolves id b (acc : Impl St * list JournalPayload) yid : evolves acc.1 (fence_sync id b acc yid).1.
Proof.
  destruct acc as [s es]. unfold fence_sync. cbn [fst].
  destruct (syncs s !! yid) as [y|] eqn:E; [|ends]. do 2 (case_match; [ends|]). cbn [fst].
  eapply evolves_end_sync; [done|done|done|strip].
Qed.

Lemma fence_invalidation_evolves id b (acc : Impl St * list JournalPayload) iid : evolves acc.1 (fence_invalidation id b acc iid).1.
Proof. destruct acc. unfold fence_invalidation. simpl. repeat case_match; strip. Qed.

Lemma fence_effects_evolves id b reason s : evolves s (fence_effects id b reason s).1.
Proof.
  unfold fence_effects.
  eapply evolves_end; [apply evolves_foldl_entries, fence_invalidation_evolves|].
  eapply evolves_end; [apply evolves_foldl_entries, fence_sync_evolves|].
  eapply evolves_end; [apply evolves_foldl_entries, fence_region_evolves|].
  apply (evolves_foldl_entries _ (s, [])), fence_object_evolves.
Qed.

Lemma recompute_all_evolves s : evolves s (recompute_all_authority s).
Proof. apply evolves_foldl. intros. apply recompute_evolves. Qed.

Lemma fence_participant_evolves id ep reason s : evolves s (fence_participant id ep reason s).1.
Proof.
  unfold fence_participant. case_match; [|ends]. do 2 (case_match; [ends|]).
  pose proof (fence_effects_evolves id (p_boot p) reason (tick s)) as He.
  destruct (fence_effects _ _ _ _) as [s1 es]. simpl in He. live_step.
  case_match; strip; (eapply evolves_end; [apply recompute_all_evolves|]);
    (eapply evolves_end; [apply release_reads_evolves|]); (eapply evolves_end; [exact He|]); strip.
Qed.
End core.

(** ** Objects, regions, policies and shutdown *)

Section registry.
Context {St : Type} `{DurableStore St}.
Implicit Types s : Impl St.

Lemma evolves_end_new_object s x k o :
  object_init k o → evolves s x → evolves s (x <| objects ::= emplace k o |>).
Proof.
  intros Hi. apply evolves_end. split; simpl.
  - apply map_evolves_new; [|done]. intros a. split; [apply object_step_refl | done].
  - apply map_evolves_refl, region_step_refl.
  - apply syncs_evolve_refl.
Qed.

Lemma evolves_end_new_region s x k r :
  region_ok (objects x) k r → evolves s x → evolves s (x <| regions ::= emplace k r |>).
Proof.
  intros Hi. apply evolves_end. split; simpl.
  - apply map_evolves_refl. intros a. split; [apply object_step_refl | done].
  - apply map_evolves_new; [apply region_step_refl | done].
  - apply syncs_evolve_refl.
Qed.

Lemma register_object_evolves d n l p s : evolves s (register_object d n l p s).1.
Proof.
  unfold register_object. repeat (case_match; [ends|]). live_step. case_match; [|ends]. strip.
  apply evolves_end_new_object; [|strip]. by split_and!.
Qed.

Lemma set_policy_evolves id g e p s : evolves s (set_policy id g e p s).1.
Proof.
  unfold set_policy. case_match; [ends|]. case_match; [|ends]. repeat (case_match; [ends|]).
  live_step. case_match; [live_step|]; strip; (eapply evolves_end_object; [done|plain|strip]).
Qed.

Lemma elem_of_insert_sorted id l x : x ∈ insert_sorted id l ↔ x = id ∨ x ∈ l.
Proof. induction l as [|y l IH]; simpl; [set_solver|]. case_match; set_solver. Qed.

Lemma elem_of_insert_replica id l x : x ∈ insert_replica id l ↔ x = id ∨ x ∈ l.
Proof.
  unfold insert_replica. case_match; [case_match|]; rewrite ?elem_of_insert_sorted; set_solver.
Qed.

Lemma check_registration_inv rn s o p :
  check_registration rn s = success (o, p) →
  objects s !! ac_object (rn_context rn) = Some o ∧
  participants s !! ac_participant (rn_context rn) = Some p ∧
  checked_range (rn_offset rn) (rn_length rn) (o_length o) = true.
Proof.
  unfold check_registration. do 2 (case_match; [done|]). case_match; [|done].
  repeat (case_match; [done|]). case_match; [|done]. repeat (case_match; [done|]).
  case_match; [|done]. repeat (case_match; [done|]). intros [= <- <-].
  split_and!; [done..|]. by apply negb_false_iff.
Qed.

Lemma register_region_evolves rn s : objects_inv s → evolves s (register_region rn s).1.
Proof.
  intros Hinv. unfold register_region. destruct (check_registration rn s) as [[o p]|c] eqn:Ec; [|ends].
  apply check_registration_inv in Ec as (Ho & Hp & Hx).
  destruct (Hinv _ _ Ho) as (Hid & _).
  destruct (allocate_id (rn_requested_id rn) _) as [id c1].
  destruct (allocate_id (rn_requested_replica rn) _) as [rep c2].
  case_match; [ends|].
  set (s1 := set_object _ _ _).
  assert (Hev : evolves s s1).
  { eapply evolves_end_object; [exact Ho | | strip]. split; [|done]. split; try done.
    intros x Hx'. apply elem_of_insert_replica. auto. }
  match goal with |- context [if durability_active s1 then ?a else ?b] =>
    set (r := if durability_active s1 then a else b) end.
  assert (L : live_eq r.1 s1).
  { subst r. case_match; [apply append_many_locked_live | done]. }
  destruct r as [s2 w]. simpl in L. case_match; [|by strip].
  strip. apply evolves_end_new_region; [|by strip].
  rewrite L. subst s1. split; [done|]. simpl. rewrite Hid.
  eexists. rewrite lookup_insert_eq. split_and!; [done| |done|].
  - apply elem_of_insert_replica. auto.
  - intros Hst. simpl in Hst. case_match; done.
Qed.

Lemma release_grants_of_region_keep rid o :
  object_keep o (o <| o_reads ::= fmap (release_grants_of_region rid) |>).
Proof.
  split; [|done]. split; try done. intros Hr He. specialize (Hr He). simpl.
  apply released_fmap; [|done]. intros g Hg. unfold release_grants_of_region. by case_decide.
Qed.

Lemma retire_region_evolves id g ep s : evolves s (retire_region id g ep s).1.
Proof.
  unfold retire_region. case_match; [ends|]. destruct (regions s !! id) as [r|] eqn:E; [|ends].
  repeat (case_match; [ends|]).
  set (s1 := release_region_name_locked _ _).
  assert (Hev : evolves s s1).
  { subst s1. unfold release_region_name_locked. case_match; strip;
      (eapply evolves_end_region; [done | apply region_step_demote; [fixed|done] | strip]). }
  clearbody s1.
  match goal with |- context [append_locked _ ?x] =>
    assert (Hev2 : evolves s x); [|generalize dependent x; intros s2 Hev2] end.
  { destruct (objects s1 !! _) as [o|] eqn:Eo; [|done]. case_match; strip;
      (eapply evolves_end; [apply recompute_evolves|];
       eapply evolves_end_object; [done|apply release_grants_of_region_keep|done]). }
  live_step. case_match; strip; done.
Qed.

Lemma recovered_keep note seq o :
  o_lifecycle o = ObjectLifecycle.RecoveryRequired → object_keep o (recovered_object note seq o).
Proof. intros Hl. split; [|done]. split; try done. intros [Hr _]. congruence. Qed.

Lemma resolve_recovery_evolves id g ep note s : evolves s (resolve_recovery id g ep note s).1.
Proof.
  unfold resolve_recovery. case_match; [ends|]. case_match; [|ends].
  case_match; [ends|]. case_match; [ends|]. case_match; [ends|]. live_step.
  case_match; [live_step|]; strip; (eapply evolves_end_object; [done| |strip]; apply recovered_keep; by apply dec_stable).
Qed.

Lemma retired_keep seq o : object_keep o (retired_object seq o).
Proof. split; [|done]. by split. Qed.

Lemma retire_replica_evolves s id : evolves s (retire_replica s id).
Proof.
  unfold retire_replica. case_match; [|ends]. strip.
  eapply evolves_end_region; [done | apply region_step_demote; [fixed|done] | strip].
Qed.

Lemma retire_object_evolves id g ep s : evolves s (retire_object id g ep s).1.
Proof.
  unfold retire_object. case_match; [ends|]. case_match; [|ends]. repeat (case_match; [ends|]).
  live_step. case_match; strip; [eapply evolves_end; [apply evolves_foldl, retire_replica_evolves|]; strip|];
    (eapply evolves_end_object; [done|apply retired_keep|strip]).
Qed.

Lemma shutdown_object_keep seq o : object_keep o (shutdown_object_record seq o).
Proof.
  unfold shutdown_object_record. case_match; (split; [|done]); by split.
Qed.

Lemma shutdown_object_evolves s id : evolves s (shutdown_object s id).
Proof.
  unfold shutdown_object. case_match; [|ends]. strip. case_match; strip;
    (eapply evolves_end_object; [done|apply shutdown_object_keep|strip]).
Qed.

Lemma shutdown_sync_evolves s id : evolves s (shutdown_sync s id).
Proof.
  unfold shutdown_sync. destruct (syncs s !! id) as [y|] eqn:E; [|ends]. case_match; [ends|]. strip.
  eapply evolves_end_sync; [done|done|done|strip].
Qed.

Lemma shutdown_invalidation_evolves s id : evolves s (shutdown_invalidation s id).
Proof. unfold shutdown_invalidation. repeat case_match; strip. Qed.

Lemma begin_shutdown_evolves ep s : evolves s (begin_shutdown ep s).1.
Proof.
  unfold begin_shutdown. case_match; [ends|]. case_match; [ends|]. live_step. strip.
  eapply evolves_end; [apply evolves_foldl, shutdown_invalidation_evolves|].
  eapply evolves_end; [apply evolves_foldl, shutdown_sync_evolves|].
  eapply evolves_end; [apply evolves_foldl, shutdown_object_evolves|]. strip.
Qed.

Lemma complete_shutdown_evolves ep s : evolves s (complete_shutdown ep s).1.
Proof. unfold complete_shutdown. repeat case_match; strip. Qed.

Lemma flush_durable_evolves s : evolves s (flush_durable s).1.
Proof. unfold flush_durable. repeat case_match; strip. Qed.
End registry.

(** ** Reads *)

Section read.
Context {St : Type} `{DurableStore St}.
Implicit Types s : Impl St.

Lemma select_read_region_evolves k req s : evolves s (select_read_region_locked k req s).2.
Proof.
  unfold select_read_region_locked. case_match; [ends|]. case_match; [|ends].
  case_match; [ends|].
  case_match; cbn [snd]; (eapply evolves_end_object; [done| |strip]); case_match; plain.
Qed.

Lemma add_read_grant_keep o r p b l s : object_keep o (add_read_grant_locked o r p b l s).
Proof.
  unfold add_read_grant_locked. case_match; [split; [apply object_step_refl|done]|].
  destruct (o_authority o) eqn:Ea; try (split; [apply object_step_refl|done]);
    (case_match; [split; [apply object_step_refl|done]|]); case_match; (split; [|done]); split; try done;
    unfold reads_ok, writer_ok, exclusive; simpl; rewrite ?Ea; try done.
Qed.

Lemma lease_read_evolves k req r d s : evolves s (lease_read k req r d s).2.
Proof.
  unfold lease_read. case_match; [|ends]. cbn [snd].
  eapply evolves_end_object; [done|apply add_read_grant_keep|strip].
Qed.

Lemma recoverable_source_evolves k r s : evolves s (recoverable_source k r s).2.
Proof.
  unfold recoverable_source. case_match; [|ends]. case_match; [ends|]. case_match; [|ends].
  cbn [snd]. eapply evolves_end_object; [done|plain|strip].
Qed.

Lemma read_region_evolves k req lease pol o r d s : evolves s (read_region k req lease pol o r d s).1.
Proof.
  unfold read_region. case_match; [unfold answer_read; strip|]. case_match.
  - destruct lease; [|unfold answer_read; strip].
    match goal with |- context [lease_read k req r ?d s] =>
      pose proof (lease_read_evolves k req r d s) as E; destruct (lease_read k req r d s) end.
    unfold answer_read. strip. exact E.
  - case_match; [unfold answer_read; strip|]. unfold blocked_read, answer_read. repeat (case_match; [ends|]).
    pose proof (recoverable_source_evolves k r s) as E. destruct (recoverable_source k r s) as [b s'].
    simpl in E. case_match; strip; exact E.
Qed.

Lemma compute_read_evolves req lease s : evolves s (compute_read_locked req lease s).1.
Proof.
  unfold compute_read_locked. live_step. case_match; [|unfold answer_read; strip].
  case_match. case_match; [|ends]. case_match; [unfold answer_read; strip|].
  pose proof (select_read_region_evolves (ac_object (rr_context req)) (rr_region req) s0) as E.
  destruct (select_read_region_locked _ _ _) as [sel s1]. simpl in E.
  assert (evolves s s1) by (by eapply evolves_end; [exact E|strip]). clear E L.
  unfold answer_read. do 2 (case_match; [solve [strip; done]|]). case_match; [|by strip].
  by eapply evolves_end; [apply read_region_evolves|].
Qed.

Lemma acquire_read_evolves req s : evolves s (acquire_read req s).1.
Proof.
  unfold acquire_read. pose proof (compute_read_evolves req true s) as E.
  destruct (compute_read_locked req true s) as [s1 out]. cbn [fst]. case_match; strip; exact E.
Qed.
End read.

(** ** Writes *)

Section write.
Context {St : Type} `{DurableStore St}.
Implicit Types s : Impl St.

Lemma reserve_writer_keep ctx b imm seq o :
  defined (ac_participant ctx) = true → ¬ retired o → object_keep o (reserve_writer ctx b imm seq o).
Proof.
  intros Hd Hr. split; [|done]. split; try done.
  - intros _. apply reads_released. simpl. apply released_all.
  - intros _. unfold writer_ok, exclusive. simpl. rewrite Hd. by destruct imm.
Qed.

Lemma await_keep issued o : object_keep o (await_invalidations issued o).
Proof. plain. Qed.

Lemma roll_back_keep o : object_keep o (roll_back_reservation o).
Proof. split; [|done]. by split. Qed.

Lemma exclusive_keep o :
  exclusive o = true → object_keep o (o <| o_authority := AuthorityMode.ExclusiveWriter |>).
Proof.
  intros He. split; [|done]. split; try done; unfold reads_ok, writer_ok; rewrite He; auto.
Qed.

Lemma install_invalidation_evolves s i : evolves s (install_invalidation s i).
Proof.
  unfold install_invalidation. eapply evolves_end; [apply evolves_alter_region|strip].
  intros r _. apply region_step_keep; [fixed|done..].
Qed.

Lemma reserve_write_evolves k ctx c o p req g s :
  objects s !! k = Some o → defined (ac_participant ctx) = true → ¬ retired o →
  evolves s (reserve_write k ctx c o p req g s).1.
Proof.
  intros Hk Hd Hr. unfold reserve_write.
  set (o1 := reserve_writer _ _ _ _ _). set (s1 := set_object _ _ _).
  assert (Hev : evolves s s1).
  { eapply evolves_end_object; [exact Hk| |strip].
    eapply object_keep_trans; [by apply reserve_writer_keep|apply await_keep]. }
  live_step. case_match.
  - unfold answer_write. strip. eapply evolves_end; [apply evolves_foldl, install_invalidation_evolves|].
    by strip.
  - cbn [fst]. eapply evolves_end_object; [|apply roll_back_keep|by strip].
    rewrite L. subst s1. simpl. by rewrite lookup_insert_eq.
Qed.

Lemma resolved_not_retired ctx s o p : resolved ctx s o p → ¬ retired o.
Proof. intros [] [Hl _]. destruct res_lifecycle0; congruence. Qed.

Lemma write_transfer_evolves k ctx c o g s :
  objects s !! k = Some o → o_authority o = AuthorityMode.TransferPending →
  evolves s (write_transfer_pending k ctx c o g s).1.
Proof.
  intros Hk Ha. unfold write_transfer_pending, answer_write. case_match; [ends|]. case_match; [|ends].
  live_step. case_match; strip; (eapply evolves_end_object; [done| |strip]);
    apply exclusive_keep; unfold exclusive; by rewrite Ha.
Qed.

Lemma acquire_write_evolves req s : evolves s (acquire_write req s).1.
Proof.
  unfold acquire_write. live_step. destruct (resolve_locked _ s) as [[o p]|c] eqn:Er; [|ends].
  apply resolve_locked_success in Er.
  assert (Hk : objects s0 !! ac_object (wr_context req) = Some o) by (rewrite L; apply Er).
  destruct (policy_locked o s0) as [pol|]; [|ends]. unfold answer_write.
  destruct (negb (ok (write_gate pol o))); [ends|].
  destruct (resolve_writer_region req o s0) as [wr|c]; [|ends].
  destruct (decide (_ ∧ _)); [ends|]. destruct (decide (o_authority o = AuthorityMode.TransferPending)).
  { eapply evolves_end; [by apply write_transfer_evolves|strip]. }
  destruct (decide (o_authority o = AuthorityMode.ExclusiveWriter)); [ends|].
  match goal with |- context [if ?b then _ else if decide (_ ∧ _) then _ else _] => destruct b end; [ends|].
  destruct (decide (_ ∧ _)); [ends|].
  eapply evolves_end; [apply reserve_write_evolves; [done|apply Er|by eapply resolved_not_retired]|strip].
Qed.
End write.

(** ** Dirty state, invalidation and revalidation *)

Section invalidate.
Context {St : Type} `{DurableStore St}.
Implicit Types s : Impl St.

Lemma dirty_object_keep seq o : ¬ retired o → object_keep o (dirty_object seq o).
Proof. intros Hr. split; [|done]. by split. Qed.

Lemma mark_dirty_evolves req s : evolves s (mark_dirty req s).1.
Proof.
  unfold mark_dirty. live_step. destruct (resolve_locked _ s) as [[o p]|c] eqn:Er; [|ends].
  apply resolve_locked_success in Er. case_match; [ends|].
  destruct (resolve_region_locked _ _ _ _) as [r|c] eqn:Err; [|ends].
  apply resolve_region_success in Err. case_match; [ends|]. live_step.
  case_match; strip; (eapply evolves_end_object; [simpl; rewrite L; apply Er
    | by eapply dirty_object_keep, resolved_not_retired |]);
    (eapply evolves_end_region; [apply Err | apply region_step_demote; [fixed|done] | strip]).
Qed.

Lemma settle_outstanding_keep id o : object_keep o (settle_outstanding id o).
Proof. plain. Qed.

Lemma invalidated_region_step os id seq r : region_step os r (invalidated_region id seq r).
Proof. apply region_step_demote; [fixed|]. simpl. by case_match. Qed.

Lemma invalidate_inert_evolves req c o r s : evolves s (invalidate_inert req c o r s).1.
Proof. unfold invalidate_inert. live_step. case_match; strip. Qed.

Lemma invalidate_live_evolves k req c o r s :
  objects s !! k = Some o → regions s !! ir_target_region req = Some r →
  evolves s (invalidate_live k req c o r s).1.
Proof.
  intros Hk Hr. unfold invalidate_live. destruct (ir_acknowledgement_required req); live_step.
  - case_match; strip; (eapply evolves_end_region; [exact Hr | apply region_step_keep; [fixed|done..] |]);
      (eapply evolves_end_object; [exact Hk | plain | strip]).
  - case_match; strip; (eapply evolves_end; [apply recompute_evolves|]);
      (eapply evolves_end_region; [exact Hr | apply invalidated_region_step |]);
      (eapply evolves_end_object; [exact Hk | plain | strip]).
Qed.

Lemma resolve_internal_inv ctx s o :
  resolve_internal_locked ctx s = success o → objects s !! ac_object ctx = Some o.
Proof.
  unfold resolve_internal_locked. do 2 (case_match; [done|]). case_match; [|done].
  repeat (case_match; [done|]). by intros [= <-].
Qed.

Lemma invalidate_evolves req s : evolves s (invalidate req s).1.
Proof.
  unfold invalidate. destruct (resolve_internal_locked _ _) as [o|c] eqn:Er; [|ends].
  apply resolve_internal_inv in Er. live_step. case_match; [ends|]. case_match; [|ends].
  do 2 (case_match; [ends|]). case_match.
  { eapply evolves_end; [apply invalidate_inert_evolves|strip]. }
  case_match; [ends|]. eapply evolves_end; [apply invalidate_live_evolves|strip]; [by rewrite L | done].
Qed.

Lemma settle_invalidation_evolves k id i s : evolves s (settle_invalidation k id i s).
Proof.
  unfold settle_invalidation. eapply evolves_end; [apply recompute_evolves|].
  eapply evolves_end; [apply evolves_alter_object|strip]. intros. apply settle_outstanding_keep.
Qed.

Lemma touch_evolves k seq s : evolves s (s <| objects ::= alter (λ o, o <| o_updated_sequence := seq |>) k |>).
Proof. apply evolves_alter_object. intros. apply touch_keep. Qed.

Lemma apply_acknowledgement_evolves ack out i r s :
  regions s !! i_region i = Some r → evolves s (apply_acknowledgement ack out i r s).1.
Proof.
  intros Hr. unfold apply_acknowledgement. live_step.
  case_match; strip; (eapply evolves_end; [apply touch_evolves|]);
    (eapply evolves_end; [apply settle_invalidation_evolves|]);
    (eapply evolves_end_region; [exact Hr|apply invalidated_region_step|strip]).
Qed.

Lemma acknowledge_evolves ack s : evolves s (acknowledge_invalidation ack s).1.
Proof.
  unfold acknowledge_invalidation. case_match; [|ends]. live_step. case_match; [|ends].
  case_match. repeat (case_match; [ends|]). destruct (regions s0 !! _) as [r|] eqn:Er.
  - case_match; [|by eapply evolves_end; [apply apply_acknowledgement_evolves|strip]].
    live_step. strip. eapply evolves_end; [apply settle_invalidation_evolves|strip].
  - live_step. strip. eapply evolves_end; [apply settle_invalidation_evolves|strip].
Qed.

(** Revalidation certifies a version that it compared with the authoritative one. *)
Lemma revalidated_region_step req o ev seq r os :
  os !! r_object r = Some o → region_step os r (revalidated_region req o ev seq r).
Proof.
  intros Ho. split.
  - unfold revalidated_region. case_match; case_match; fixed.
  - intros _. right. intros o' Ho' Hst Hd. simplify_eq. revert Hst.
    unfold revalidated_region. rewrite Hd. simpl. case_match; case_match; simpl; try done;
    intros _; by eapply bool_decide_eq_true_1.
Qed.

Lemma revalidate_evolves req s : objects_inv s → evolves s (revalidate_region req s).1.
Proof.
  intros Hinv. unfold revalidate_region. destruct (resolve_locked _ s) as [[o p]|c] eqn:Er; [|ends].
  apply resolve_locked_success in Er.
  destruct (resolve_region_locked _ _ _ _) as [r|c] eqn:Err; [|ends].
  apply resolve_region_success in Err. case_match; [ends|].
  destruct (Hinv _ _ (res_object _ _ _ _ Er)) as (Hid & _).
  live_step. set (s1 := set_region _ _ _). assert (Hev : evolves s s1).
  { eapply evolves_end_region; [rewrite L; apply Err | | strip].
    apply revalidated_region_step. rewrite L, (rres_object _ _ _ _ _ Err), Hid. apply Er. }
  clearbody s1. clear L. live_step. case_match; [live_step|]; strip; done.
Qed.
End invalidate.

(** ** Release and synchronization *)

Section sync.
Context {St : Type} `{DurableStore St}.
Implicit Types s : Impl St.

Lemma context_if_resolved_live ctx s : live_eq (context_if_resolved ctx s).2 s.
Proof. unfold context_if_resolved. case_match; [apply make_context_live|done]. Qed.

(** Name the state [context_if_resolved] returns. *)
Ltac context_step :=
  match goal with
  | |- context [context_if_resolved ?ctx ?s] =>
      let E := fresh "L" in pose proof (context_if_resolved_live ctx s) as E;
      let s' := fresh "s" in let c := fresh "ctx" in
      destruct (context_if_resolved ctx s) as [c s']; cbn [fst snd] in E; cbv beta iota zeta
  end.

Lemma release_lease_released l gs :
  Forall (λ g, g_released g = true) gs → Forall (λ g, g_released g = true) (release_lease l gs).
Proof. induction 1; simpl; [done|]. case_match; constructor; done. Qed.

Lemma release_lease_keep l o : object_keep o (o <| o_reads ::= release_lease l |>).
Proof.
  split; [|done]. split; try done. intros Hr He. simpl. apply release_lease_released, Hr, He.
Qed.

Lemma release_read_evolves req out o s :
  objects s !! ac_object (rl_context req) = Some o → evolves s (release_read req out o s).1.
Proof.
  intros Hk. unfold release_read. case_match; [|ends]. case_match; [ends|]. live_step.
  case_match; strip; (eapply evolves_end; [apply touch_evolves|]);
    (eapply evolves_end; [apply recompute_evolves|]);
    (eapply evolves_end_object; [exact Hk|apply release_lease_keep|strip]).
Qed.

Lemma released_keep loss o : ¬ retired o → object_keep o (released_object loss o).
Proof.
  intros Hr. unfold released_object.
  eapply object_keep_trans; [|apply apply_dirty_loss_keep]. split; [|done]. by split.
Qed.

Lemma lose_dirty_region_evolves (acc : Impl St * list JournalPayload) id :
  evolves acc.1 (lose_dirty_region acc id).1.
Proof.
  destruct acc as [s es]. unfold lose_dirty_region. cbn [fst].
  destruct (regions s !! id) as [r|] eqn:E; [|ends]. case_match; [|ends]. cbn [fst].
  eapply evolves_end_region; [done | apply region_step_demote; [fixed|done] | strip].
Qed.

Lemma release_write_evolves req out o s :
  objects s !! ac_object (rl_context req) = Some o → ¬ retired o → evolves s (release_write req out o s).1.
Proof.
  intros Hk Hr. unfold release_write. do 2 (case_match; [ends|]).
  set (s1 := set_object _ _ _).
  assert (Hev : evolves s s1).
  { eapply evolves_end_object; [exact Hk|by apply released_keep|strip]. }
  clearbody s1.
  match goal with |- context [if o_has_unpublished_dirty o then ?a else ?b] =>
    set (x := if o_has_unpublished_dirty o then a else b) end.
  assert (Hev2 : evolves s x.1).
  { subst x. case_match; [|done].
    eapply evolves_end; [apply (evolves_foldl_entries _ (s1, [])), lose_dirty_region_evolves|done]. }
  destruct x as [s2 es]. cbn [fst] in Hev2. live_step.
  case_match; strip; (eapply evolves_end; [apply touch_evolves|]);
    (eapply evolves_end; [apply recompute_evolves|done]).
Qed.

Lemma release_evolves req s : evolves s (release req s).1.
Proof.
  unfold release. context_step. destruct (resolve_locked _ s) as [[o p]|c] eqn:Er; [|ends].
  apply resolve_locked_success in Er.
  assert (Hk : objects s0 !! ac_object (rl_context req) = Some o) by (rewrite L; apply Er).
  case_match; [by eapply evolves_end; [apply release_read_evolves|strip]|].
  case_match; [ends|].
  eapply evolves_end; [apply release_write_evolves; [done|by eapply resolved_not_retired]|strip].
Qed.

Lemma begin_sync_evolves req s : regions_inv s → evolves s (begin_sync req s).1.
Proof.
  intros Hinv. unfold begin_sync. context_step. case_match; [|ends]. case_match. do 2 (case_match; [ends|]).
  destruct (resolve_region_locked _ _ _ _) as [d|c] eqn:Err; [|ends].
  apply resolve_region_success in Err. do 2 (case_match; [ends|]). case_match; [|ends].
  assert (Hid : r_id d = sr_destination_region req).
  { apply (Hinv (sr_destination_region req) d). rewrite <-L. apply Err. }
  set (s1 := set_region _ _ _). assert (Hev : evolves s s1).
  { eapply evolves_end_region; [apply Err | apply region_step_demote; [fixed|] | strip].
    simpl. by case_match. }
  live_step. case_match; [|by strip]. strip.
  eapply evolves_end; [apply evolves_set_sync|by strip]. right. rewrite L0. eexists.
  simpl. rewrite Hid, lookup_insert_eq. split; [done|]. apply Err.
Qed.

Lemma settle_sync_demote_evolves id y0 y r s :
  syncs s !! id = Some y0 → y_object y = y_object y0 → y_destination_region y = y_destination_region y0 →
  (∀ r', r = Some r' → ∃ r0, regions s !! y_destination_region y = Some r0 ∧ region_step (objects s) r0 r') →
  evolves s (settle_sync id y r s).1.
Proof.
  intros Hy ? ? Hr. unfold settle_sync. strip.
  assert (evolves s (set_sync id y s)) by (by eapply evolves_end_sync; [..|strip]).
  destruct r as [r'|]; [|done].
  destruct (Hr _ eq_refl) as (r0 & Hr0 & ?). by eapply evolves_end_region.
Qed.

(** Name the state [settle_sync] returns, proving that it evolved. *)
Ltac settle_step :=
  match goal with
  | |- context [settle_sync ?id ?y ?r ?s] =>
      let E := fresh "E" in assert (evolves s (settle_sync id y r s).1) as E;
      [eapply settle_sync_demote_evolves; [first [eassumption | match goal with L : live_eq _ _ |- _ => rewrite L; eassumption end]
         | reflexivity..
         | intros ? [= <-] || intros ? [=]]
      |destruct (settle_sync id y r s); cbn [fst] in E; cbv beta iota zeta]
  end.

Lemma demoted_step os st n seq r :
  st ≠ CoherenceState.Current → region_step os r (demoted_region st n seq r).
Proof. intros. apply region_step_demote; [fixed | done]. Qed.

Lemma cancel_completion_evolves req out y s : syncs s !! sc_operation req = Some y → evolves s (cancel_completion req out y s).1.
Proof. intros Hy. unfold cancel_completion. settle_step. case_match; strip; (eapply evolves_end; [exact E|strip]). Qed.

Lemma fail_completion_evolves req out y r why n st c s :
  regions s !! y_destination_region y = Some r → st ≠ CoherenceState.Current →
  syncs s !! sc_operation req = Some y → evolves s (fail_completion req out y r why n st c s).1.
Proof.
  intros Hr Hst Hy. unfold fail_completion. settle_step.
  - exists r. split; [exact Hr | by apply demoted_step].
  - case_match; strip; (eapply evolves_end; [exact E|strip]).
Qed.

Lemma unmoved_completion_evolves req out y r s :
  regions s !! y_destination_region y = Some r → syncs s !! sc_operation req = Some y → evolves s (unmoved_completion req out y r s).1.
Proof.
  intros Hr Hy. unfold unmoved_completion. settle_step.
  - exists r. split; [exact Hr | by apply demoted_step].
  - strip. eapply evolves_end; [exact E|strip].
Qed.

Lemma finish_completion_evolves req out o y r s :
  regions s !! y_destination_region y = Some r →
  objects s !! r_object r = Some o → o_authoritative_version o = y_source_version y →
  syncs s !! sc_operation req = Some y → evolves s (finish_completion req out o y r s).1.
Proof.
  intros Hr Ho Hv Hy. unfold finish_completion. live_step. settle_step.
  - exists r. split; [rewrite L; exact Hr|]. split; [fixed|]. intros _. right. intros o' Ho' _ _.
    rewrite L in Ho'. simpl in *. congruence.
  - case_match; strip; (eapply evolves_end; [exact E|strip]).
Qed.

Lemma settle_completion_evolves req out o y r s :
  regions s !! y_destination_region y = Some r → objects s !! r_object r = Some o →
  syncs s !! sc_operation req = Some y → evolves s (settle_completion req out o y r s).1.
Proof.
  intros Hr Ho Hy. unfold settle_completion. destruct (decide (_ ∨ _)); [by apply cancel_completion_evolves|].
  destruct (decide (_ ≠ _)) as [|Hv]; [by apply fail_completion_evolves|].
  case_match; [by apply unmoved_completion_evolves|].
  case_match; [by apply fail_completion_evolves|].
  apply finish_completion_evolves; [done|done|by apply dec_stable|done].
Qed.

Lemma complete_sync_evolves req s :
  objects_inv s → syncs_inv s → evolves s (complete_sync req s).1.
Proof.
  intros Hinv Hsync. unfold complete_sync. destruct (syncs s !! _) as [y|] eqn:Ey; [|ends].
  live_step. destruct (resolve_locked _ s) as [[o p]|c] eqn:Er; [|ends].
  apply resolve_locked_success in Er. destruct (Hinv _ _ (res_object _ _ _ _ Er)) as (Hid & _).
  destruct (decide _) as [|Hy]; [ends|]. apply dec_stable in Hy. do 2 (case_match; [ends|]).
  destruct (regions s0 !! _) as [r|] eqn:Ereg; [|ends].
  eapply evolves_end; [apply settle_completion_evolves; [done| |by rewrite L]|strip].
  destruct (Hsync _ _ Ey) as (r' & Hr' & Hobj). rewrite L in Ereg |- *. simplify_eq.
  rewrite Hobj, <-Hy, Hid. apply Er.
Qed.

(** Neither beginning nor completing a transfer touches an object. *)
Lemma begin_sync_objects req s : objects (begin_sync req s).1 = objects s.
Proof.
  unfold begin_sync. context_step. rewrite <-L. clear L. case_match; [|done]. case_match.
  do 2 (case_match; [done|]). case_match; [|done]. do 2 (case_match; [done|]). case_match; [|done].
  live_step. case_match; cbn [fst]; rewrite ?record_decision_live; [|by rewrite L].
  simpl. by rewrite L.
Qed.

Lemma settle_sync_objects id y r s : objects (settle_sync id y r s).1 = objects s.
Proof. unfold settle_sync. rewrite append_many_locked_live. by destruct r. Qed.

Lemma complete_sync_objects req s : objects (complete_sync req s).1 = objects s.
Proof.
  unfold complete_sync. case_match; [|done]. live_step. rewrite <-L. clear L. case_match; [|done]. case_match.
  repeat (case_match; [done|]). case_match; [|done]. unfold settle_completion.
  case_match; [|case_match; [|case_match; [|case_match]]];
    unfold cancel_completion, fail_completion, unmoved_completion, finish_completion; try live_step;
    match goal with |- context [settle_sync ?i ?y ?r ?x] =>
      pose proof (settle_sync_objects i y r x) as E; destruct (settle_sync i y r x) as [x' w] end;
    cbn [fst] in *; try (destruct (ok w)); cbn [fst]; rewrite ?record_decision_live, ?E; try done; by rewrite L.
Qed.

Lemma fail_sync_evolves req s : evolves s (fail_sync req s).1.
Proof.
  unfold fail_sync. destruct (syncs s !! _) as [y|] eqn:Ey; [|ends]. live_step. do 2 (case_match; [ends|]).
  assert (Ey' : syncs (tick s0) !! sf_operation req = Some y) by (rewrite tick_live, L; exact Ey).
  destruct (regions (tick s0) !! _) as [r|] eqn:Er; settle_step.
  - exists r. split; [exact Er|]. unfold failed_destination. repeat case_match; by apply demoted_step.
  - destruct (ok _); strip; (eapply evolves_end; [exact E|strip]).
  - destruct (ok _); strip; (eapply evolves_end; [exact E|strip]).
Qed.
End sync.

(** ** The first two phases of a publication *)

Section publish.
Context {St : Type} `{DurableStore St}.
Implicit Types s : Impl St.

Lemma reserved_keep p o : object_keep o (reserved_object p o).
Proof. plain. Qed.

Lemma aborted_keep o : object_keep o (aborted_object o).
Proof. plain. Qed.

Lemma publish_reserve_evolves req s : evolves s (publish_reserve req s).1.
Proof.
  unfold publish_reserve. live_step. destruct (resolve_locked _ s) as [[o p]|c] eqn:Er; [|ends].
  apply resolve_locked_success in Er.
  assert (Hk : objects s0 !! ac_object (pb_context req) = Some o) by (rewrite L; apply Er).
  case_match; [|ends]. case_match; [ends|]. case_match; [ends|].
  destruct (resolve_region_locked _ _ _ _) as [r|?] eqn:Err; [|ends].
  case_match; [ends|]. unfold reserve_publication. strip.
  eapply evolves_end_object; [exact Hk|apply reserved_keep|strip].
Qed.

Lemma publish_durable_live l s : live_eq (publish_durable l s).1 s.
Proof. unfold publish_durable. repeat case_match; by split. Qed.

Lemma apply_pending_entry_live l s : live_eq (apply_pending_entry l s) s.
Proof. unfold apply_pending_entry. repeat case_match; by split. Qed.

Lemma clear_superseded_live l o s : live_eq (clear_superseded l o s) s.
Proof. unfold clear_superseded. repeat case_match; by split. Qed.
End publish.
