(* ===== verification/Moves.v ===== *)
(** * Every operation follows the rules of the engine

    [engine_rules] collects what the operations do to the states of records:
    the transitions declared in [enums.cpp], and the ones the engine makes
    beyond them ([coherence_exception], [sync_exception], the re-admission of
    a fenced participant).  One lemma per loop body and per operation. *)
From S2P Require Import Prelude Ids Enums Status Bytes Policy Evidence Model Decisions Persistence.
From S2P Require Import Engine Resolve Core Registry Read Write Invalidate Publish Sync.
From S2P Require Import Frame Evolution Steps.

(** ** The rules *)

(** Changes of a replica's state that the engine makes and the table does not
    declare. *)
Definition coherence_exception (a b : CoherenceState.t) : bool :=
  match a, b with
  | CoherenceState.Current, CoherenceState.SyncRequired
  | CoherenceState.Dirty, CoherenceState.SyncRequired
  | CoherenceState.Dirty, CoherenceState.RevalidationRequired
  | CoherenceState.Fenced, CoherenceState.Current
  | CoherenceState.Fenced, CoherenceState.Stale
  | CoherenceState.Fenced, CoherenceState.SyncRequired
  | CoherenceState.Retired, CoherenceState.Current
  | CoherenceState.Retired, CoherenceState.Stale
  | CoherenceState.Retired, CoherenceState.Invalid
  | CoherenceState.Retired, CoherenceState.SyncRequired
  | CoherenceState.Retired, CoherenceState.RevalidationRequired => true
  | _, _ => false
  end.

(** Changes of a transfer that the engine makes and the table does not declare. *)
Definition sync_exception (a b : SyncState.t) : bool :=
  match a, b with
  | SyncState.Failed, SyncState.OutcomeUnknown
  | SyncState.Cancelled, SyncState.Failed
  | SyncState.Cancelled, SyncState.OutcomeUnknown => true
  | _, _ => false
  end.

Definition coherence_move (a b : CoherenceState.t) : bool :=
  is_legal_coherence_transition a b || coherence_exception a b.

(** A transfer is never planned without being requested, and never in progress. *)
Definition sync_begun (y : SyncState.t) : bool :=
  match y with SyncState.Planned | SyncState.InProgress => false | _ => true end.

Definition sync_move (a b : SyncState.t) : Prop :=
  sync_begun a = true → sync_begun b = true ∧ is_legal_sync_transition a b || sync_exception a b = true.

Definition region_turn (v w : RegionLifecycle.t * CoherenceState.t) : Prop :=
  (w.1 = v.1 ∨ w.1 = RegionLifecycle.Retired) ∧ coherence_move v.2 w.2 = true.

(** An object: its modification is published or lost (which may require
    recovery), it is modified, retired, or recovered. *)
Definition loses (v w : ObjectLifecycle.t * bool) : Prop :=
  w = v ∨ v.2 = true ∧ w.2 = false ∧ (w.1 = v.1 ∨ w.1 = ObjectLifecycle.RecoveryRequired).

Definition object_turn (v w : ObjectLifecycle.t * bool) : Prop :=
  loses v w ∨ w = (v.1, false) ∨ w = (ObjectLifecycle.Retired, false) ∨
  (v.1 = ObjectLifecycle.Created ∨ v.1 = ObjectLifecycle.Active) ∧ w = (v.1, true) ∨
  v.1 = ObjectLifecycle.RecoveryRequired ∧ w = (ObjectLifecycle.Active, false).

(** A participant: its session closes, it is fenced, it registers again under
    its boot, or it comes back under another one. *)
Definition participant_turn (v w : ParticipantLifecycle.t * ParticipantBootId * bool) : Prop :=
  (v.2 = true → w.2 = true) ∧
  (w.1 = v.1 ∨
   w.1.2 = v.1.2 ∧ (v.1.1 ≠ ParticipantLifecycle.Retired ∧ w.1.1 = ParticipantLifecycle.Fenced ∨
                    v.1.1 = ParticipantLifecycle.Active ∧ w.1.1 = ParticipantLifecycle.Degraded ∨
                    v.1.1 = ParticipantLifecycle.Observed ∧ w.1.1 = ParticipantLifecycle.Active ∨
                    v.1.1 = ParticipantLifecycle.Admitted_ ∧ w.1.1 = ParticipantLifecycle.Active) ∨
   w.1.2 ≠ v.1.2 ∧ v.1.1 ≠ ParticipantLifecycle.Retired ∧ w.1.1 = ParticipantLifecycle.Active).

(** [wrap] admits that a new record replaces an old one of the same identity,
    which happens once the counter of the identities has wrapped. *)
Definition engine_rules (wrap : bool) : rules :=
  Rules region_turn object_turn
    (λ v w, participant_turn v w ∨ wrap = true ∧ born_participant w)
    (λ v w, sync_move v w ∨ wrap = true ∧ born_sync w).

#[export] Instance engine_rules_tame wrap : Tame (engine_rules wrap).
Proof.
  split; simpl.
  - intros [l c]. split; [by left|]. unfold coherence_move. by destruct c.
  - intros v. by do 2 left.
  - intros v. left. split; [done|]. by left.
  - intros y. left. intros Hy. by destruct y.
Qed.

(** Only participants change. *)
Definition admitting (wrap : bool) : rules := idle <| on_participant := on_participant (engine_rules wrap) |>.
#[export] Instance admitting_tame wrap : Tame (admitting wrap).
Proof. split; simpl; try apply _. apply (tame_participant (t := engine_rules wrap)). Qed.

(** Only objects change. *)
Definition turning : rules := idle <| on_object := object_turn |>.
#[export] Instance turning_tame : Tame turning.
Proof. split; simpl; try apply _. apply (tame_object (t := engine_rules true)). Qed.

(** Loops change states one way only. *)
Definition retiring : rules := idle <| on_region := λ v w, w = v ∨ w = (RegionLifecycle.Retired, CoherenceState.Retired) |>.
Definition fencing : rules :=
  Rules (λ v w, w = v ∨ v.2 ≠ CoherenceState.Retired ∧ w = (v.1, CoherenceState.Fenced))
        loses eq (λ y z, z = y ∨ z = SyncState.OutcomeUnknown ∧ (y = SyncState.Requested ∨ y = SyncState.OutcomeUnknown
                                  ∨ sync_begun y = false)).
Definition losing : rules := idle <| on_region := λ v w, w = v ∨ w = (v.1, CoherenceState.Stale) |>.
Definition cancelling : rules :=
  idle <| on_sync := λ y z, z = y ∨ z = SyncState.Cancelled ∧ (y = SyncState.Requested ∨ y = SyncState.OutcomeUnknown
                                  ∨ sync_begun y = false) |>.

#[export] Instance loses_preorder : PreOrder loses.
Proof.
  split; [by left|]. intros u v w [->|(? & ? & ?)] [->|(? & ? & ?)]; [by left|by right|by right|congruence].
Qed.
#[export] Instance retiring_steady : Steady retiring.
Proof. split; [split|..]; simpl; try apply _; [by left|]. intros u v w [->| ->] [->| ->]; auto. Qed.
#[export] Instance fencing_steady : Steady fencing.
Proof.
  split; [split|..]; simpl; try apply _; try (by left).
  - intros u v w [->|[? ->]] [->|[? ->]]; auto.
  - intros u v w [->|[-> ?]] [->|[-> ?]]; auto.
Qed.
#[export] Instance losing_steady : Steady losing.
Proof. split; [split|..]; simpl; try apply _; [by left|]. intros u v w [->| ->] [->| ->]; auto. Qed.
#[export] Instance cancelling_steady : Steady cancelling.
Proof. split; [split|..]; simpl; try apply _; [by left|]. intros u v w [->|[-> ?]] [->|[-> ?]]; auto. Qed.

Section moves.
Context {St : Type} `{DurableStore St}.
Implicit Types s : Impl St.

Lemma follows_engine t wrap s s' :
  (∀ v w, on_region t v w → region_turn v w) → (∀ v w, on_object t v w → object_turn v w) →
  (∀ v w, on_participant t v w → participant_turn v w) → (∀ v w, on_sync t v w → sync_move v w) →
  follows t s s' → follows (engine_rules wrap) s s'.
Proof. intros ????. apply follows_mono; simpl; auto. Qed.

Lemma eq_turns v w : w = v → region_turn v w.
Proof. intros ->. apply (tame_region (t := engine_rules true)). Qed.

Lemma retiring_turns v w : on_region retiring v w → region_turn v w.
Proof. intros [->| ->]; [by apply eq_turns|]. split; [by right|]. by destruct v as [? []]. Qed.

Lemma retiring_engine wrap s s' : follows retiring s s' → follows (engine_rules wrap) s s'.
Proof.
  apply follows_engine; simpl.
  - apply retiring_turns.
  - intros v w <-. by do 2 left.
  - intros v w <-. split; [done|]. by left.
  - intros v w <- Hv. by destruct v.
Qed.

Lemma losing_engine wrap s s' : follows losing s s' → follows (engine_rules wrap) s s'.
Proof.
  apply follows_engine; simpl.
  - intros v w [->| ->]; [by apply eq_turns|]. split; [by left|]. by destruct v as [? []].
  - intros v w <-. by do 2 left.
  - intros v w <-. split; [done|]. by left.
  - intros v w <- Hv. by destruct v.
Qed.

Lemma cancelling_engine wrap s s' : follows cancelling s s' → follows (engine_rules wrap) s s'.
Proof.
  apply follows_engine; simpl.
  - intros v w <-. by apply eq_turns.
  - intros v w <-. by do 2 left.
  - intros v w <-. split; [done|]. by left.
  - intros v w [->|[-> Hv]] Hb; [by destruct v|]. by destruct Hv as [->|[->|?]]; [..|congruence].
Qed.
End moves.

(** Strip the last calls that leave every state alone. *)
Ltac glide :=
  repeat (cbn [fst snd]; lazymatch goal with
  | |- follows _ ?s ?s => apply follows_refl; apply _
  | L : live_eq ?x ?y |- follows _ _ ?x => apply (follows_end_live _ _ y x _ L); clear L
  | |- follows _ _ (tick _) => eapply follows_end_live; [apply _|apply tick_live|]
  | |- follows _ _ (record_decision _ _ _ _) => eapply follows_end_live; [apply _|apply record_decision_live|]
  | |- follows _ _ (upsert_durable_object_locked _ _) => eapply follows_end_live; [apply _|apply upsert_object_live|]
  | |- follows _ _ (upsert_durable_region_locked _ _) => eapply follows_end_live; [apply _|apply upsert_region_live|]
  | |- follows _ _ (upsert_durable_participant_locked _ _) =>
      eapply follows_end_live; [apply _|apply upsert_participant_live|]
  | |- follows _ _ (fst (append_locked _ _)) => eapply follows_end_live; [apply _|apply append_locked_live|]
  | |- follows _ _ (fst (append_many_locked _ _)) => eapply follows_end_live; [apply _|apply append_many_locked_live|]
  | |- follows _ _ (fst (maybe_compact_locked _)) => eapply follows_end_live; [apply _|apply maybe_compact_live|]
  | |- follows _ _ (set_invalidation _ _ ?x) => apply (follows_end_same _ _ x); [apply _|reflexivity..|]
  | |- follows _ _ (@modify_field _ _ _ _ _ ?x) => apply (follows_end_same _ _ x); [apply _|reflexivity..|]
  end).

Ltac glides := solve [glide].

Section core.
Context {St : Type} `{DurableStore St}.
Implicit Types (s : Impl St) (t : rules) (wrap : bool).

(** ** What leaves every state alone *)

Lemma recompute_idle id s : follows idle s (recompute_authority_locked id s).
Proof.
  unfold recompute_authority_locked. case_match; [|glides].
  eapply follows_end_object; [apply _|done|done|glide].
Qed.

Lemma recompute_participants id s : participants (recompute_authority_locked id s) = participants s.
Proof. unfold recompute_authority_locked. by case_match. Qed.

Lemma release_reads_participants p b s id : participants (release_reads_of_object p b s id) = participants s.
Proof. unfold release_reads_of_object. repeat (case_match; try done). by rewrite upsert_object_live. Qed.

Lemma recompute_end t id s x : Tame t → follows t s x → follows t s (recompute_authority_locked id x).
Proof. intros Ht. apply follows_idle_r; [done|]. apply recompute_idle. Qed.

Lemma recompute_all_idle s : follows idle s (recompute_all_authority s).
Proof. apply follows_foldl; [apply _|]. intros. apply recompute_idle. Qed.

Lemma release_reads_idle p b s : follows idle s (release_reads_for_participant_locked p b s).
Proof.
  apply follows_foldl; [apply _|]. intros x id. unfold release_reads_of_object.
  case_match; [|glides]. case_match; [|glides]. glide.
  eapply follows_end_object; [apply _|done|done|glide].
Qed.

Lemma release_region_name_idle r s : follows idle s (release_region_name_locked r s).
Proof. unfold release_region_name_locked. repeat case_match; glide. Qed.

Lemma create_domain_follows name wrap s : follows (engine_rules wrap) s (create_domain name s).1.
Proof. unfold create_domain. repeat (case_match; [glides|]). live_step. case_match; glide. Qed.

(** ** Participants and fencing *)

Lemma retire_superseded_region_follows p b s id : follows retiring s (retire_superseded_region p b s id).
Proof.
  unfold retire_superseded_region. case_match; [|glides]. case_match; [glides|]. case_match; [glides|]. glide.
  eapply follows_idle_r; [apply _|apply release_region_name_idle|].
  eapply follows_set_region; [apply _|done|by right].
Qed.

Lemma retire_superseded_region_participants p b s id :
  participants (retire_superseded_region p b s id) = participants s.
Proof.
  unfold retire_superseded_region. repeat (case_match; try done). rewrite upsert_region_live.
  unfold release_region_name_locked. repeat case_match; done.
Qed.

(** The records of participants are stored under their identities. *)
Definition participants_keyed s : Prop := map_Forall (λ k p, p_id p = k) (participants s).

(** The identities that come next are not taken. *)
Definition fresh_participant s : Prop := participants s !! from_value (next_participant_id s) = None.
Definition fresh_sync s : Prop := syncs s !! from_value (next_sync_id s) = None.

Lemma store_participant_follows t l p s :
  Tame t →
  match participants s !! p_id p with
  | Some q => on_participant t (participant_view (p_id p) q) (participant_view (p_id p) p)
  | None => born_participant (participant_view (p_id p) p)
  end → follows t s (store_participant l p s).1.
Proof.
  intros Ht Hp. unfold store_participant. live_step. destruct (ok w); [|glides]. glide.
  eapply follows_idle_l; [by apply follows_live; [apply _|apply L]|].
  eapply (follows_end_same _ _ (set_participant (p_id p) (p <| p_node_label := l |>) s0)); [done..|].
  apply follows_put_participant; [done|]. by rewrite (live_participants _ _ L).
Qed.

Lemma register_participant_follows name b ep l wrap s :
  participants_keyed s → (wrap = false → fresh_participant s) →
  follows (engine_rules wrap) s (register_participant name b ep l s).1.
Proof.
  intros Hkey Hfresh. unfold register_participant. repeat (case_match; [glides|]). case_match.
  - destruct (participants s !! _) as [p|] eqn:Ep; [|glides]. pose proof (Hkey _ _ Ep) as Hid. simpl in Hid.
    destruct (decide (_ ∧ _)) as [Hsame|Hsame].
    { glide. apply follows_put_participant; [apply _|]. simpl. rewrite Hid, Ep. left.
      unfold participant_turn, participant_view. simpl. split; [done|]. destruct Hsame as [_ Hr].
      destruct (p_lifecycle p) eqn:El; simpl; auto 10. }
    destruct (decide (p_lifecycle p = _)) as [|Hret]; [glides|].
    set (x := foldl _ s _).
    assert (Hx : follows retiring s x).
    { apply follows_foldl; [apply _|]. intros. apply retire_superseded_region_follows. }
    assert (Hp : participants x = participants s).
    { apply (foldl_frame _ (@participants St)). intros. apply retire_superseded_region_participants. }
    eapply (follows_compose retiring (admitting wrap)); [apply _|..|exact Hx|apply store_participant_follows].
    + intros u v w ? <-. by apply retiring_turns.
    + intros u v w -> ->. by do 2 left.
    + by intros u v w ->.
    + intros u v w -> ->. left. intros ?. by destruct w.
    + apply _.
    + simpl. rewrite Hp, Hid, Ep. left. split; [done|]. right. right. simpl. split_and!; [|done..].
      intros ->. by apply Hsame.
  - case_match; [glides|]. apply (follows_mono (admitting wrap)); simpl; [by intros v w <-; apply eq_turns
      |by intros v w <-; do 2 left|auto|by intros v w <-; left; intros Hv; destruct v|].
    eapply follows_idle_l; [by apply (follows_same idle s (s <| next_participant_id ::= u64_succ |>)); [apply _|..]|].
    apply store_participant_follows; [apply _|]. simpl.
    destruct (participants s !! _) as [q|] eqn:E; [|by split; [|apply bool_decide_eq_true]].
    destruct wrap; [right; split; [done|]; by split; [|apply bool_decide_eq_true]|].
    by rewrite Hfresh in E.
Qed.

Lemma mark_session_closed_follows id b wrap s : follows (engine_rules wrap) s (mark_session_closed id b s).1.
Proof.
  unfold mark_session_closed. destruct (participants s !! id) as [p|] eqn:E; [|glides]. case_match; [glides|].
  glide. apply follows_put_participant; [apply _|]. rewrite E. left. split; [done|].
  simpl. destruct (decide (p_lifecycle p = _)); [right; left; auto 10|by left].
Qed.

Lemma apply_dirty_loss_loses k loss note o o1 : object_view k o1 = object_view k o →
  loses (object_view k o) (object_view k (apply_dirty_loss loss note o1)).
Proof.
  intros <-. unfold apply_dirty_loss, loses, object_view.
  destruct (o_has_unpublished_dirty o1) eqn:E; [|left; by rewrite E].
  right. split; [done|]. destruct loss; simpl; auto.
Qed.

Lemma fence_object_follows id b (acc : Impl St * list JournalPayload) oid :
  follows fencing acc.1 (fence_object id b acc oid).1.
Proof.
  destruct acc as [s es]. unfold fence_object. simpl.
  destruct (objects s !! oid) as [o|] eqn:E; [|glides]. case_match; [|glides]. simpl.
  eapply follows_set_object; [apply _|done|]. simpl. unfold fenced_writer_object.
  apply (apply_dirty_loss_loses oid). by case_match.
Qed.

Lemma fence_region_follows id b reason (acc : Impl St * list JournalPayload) rid :
  follows fencing acc.1 (fence_region id b reason acc rid).1.
Proof.
  destruct acc as [s es]. unfold fence_region. simpl.
  destruct (regions s !! rid) as [r|] eqn:E; [|glides]. do 2 (case_match; [glides|]). simpl.
  eapply follows_set_region; [apply _|done|]. by right.
Qed.

Lemma sync_settled_false y : sync_settled y = false →
  y_state y = SyncState.Requested ∨ y_state y = SyncState.OutcomeUnknown ∨ sync_begun (y_state y) = false.
Proof. unfold sync_settled. destruct (y_state y); auto. Qed.

Lemma fence_sync_follows id b (acc : Impl St * list JournalPayload) yid :
  follows fencing acc.1 (fence_sync id b acc yid).1.
Proof.
  destruct acc as [s es]. unfold fence_sync. simpl.
  destruct (syncs s !! yid) as [y|] eqn:E; [|glides]. case_match; [glides|].
  destruct (sync_settled y) eqn:Es; [glides|]. simpl.
  eapply follows_set_sync; [apply _|done|]. right. split; [done|]. by apply sync_settled_false.
Qed.

Lemma fence_effects_follows id b reason s : follows fencing s (fence_effects id b reason s).1.
Proof.
  unfold fence_effects.
  eapply follows_trans; [apply _| |apply follows_foldl_entries; [apply _|]];
    [|intros [x es] iid; unfold fence_invalidation; repeat case_match; glide].
  eapply follows_trans; [apply _| |apply follows_foldl_entries; [apply _|apply fence_sync_follows]].
  eapply follows_trans; [apply _| |apply follows_foldl_entries; [apply _|apply fence_region_follows]].
  apply (follows_foldl_entries _ _ (s, [])); [apply _|apply fence_object_follows].
Qed.

Lemma fence_effects_participants id b reason s : participants (fence_effects id b reason s).1 = participants s.
Proof.
  unfold fence_effects.
  assert (F : ∀ {B} (f : Impl St * list JournalPayload → B → Impl St * list JournalPayload) acc l,
    (∀ acc x, participants (f acc x).1 = participants acc.1) → participants (foldl f acc l).1 = participants acc.1).
  { intros B f acc l Hf. by apply (foldl_frame f (λ acc, participants acc.1)). }
  rewrite F by (intros [] ?; unfold fence_invalidation; by repeat case_match).
  rewrite F by (intros [] ?; unfold fence_sync; by repeat case_match).
  rewrite F by (intros [] ?; unfold fence_region; by repeat case_match).
  rewrite F by (intros [] ?; unfold fence_object; by repeat case_match). done.
Qed.

Lemma fence_participant_follows id ep reason wrap s :
  follows (engine_rules wrap) s (fence_participant id ep reason s).1.
Proof.
  unfold fence_participant. destruct (participants s !! id) as [p|] eqn:Ep; [|glides].
  case_match; [glides|]. destruct (decide (p_lifecycle p = _)) as [|Hr]; [glides|].
  pose proof (fence_effects_follows id (p_boot p) reason (tick s)) as He.
  pose proof (fence_effects_participants id (p_boot p) reason (tick s)) as Hp.
  destruct (fence_effects _ _ _ _) as [s1 es]. cbn [fst] in He. cbv beta iota zeta.
  change (participants s1 = participants s) in Hp.
  set (s2 := recompute_all_authority _). set (s3 := set_participant _ _ _).
  assert (Hq : follows idle s1 s2).
  { eapply follows_trans; [apply _|apply release_reads_idle|apply recompute_all_idle]. }
  assert (Hps : participants s2 = participants s).
  { etrans; [apply (foldl_frame _ (@participants St)); intros; apply recompute_participants|].
    etrans; [apply (foldl_frame _ (@participants St)); intros; apply release_reads_participants|done]. }
  assert (H3 : follows (engine_rules wrap) s s3).
  { apply (follows_compose fencing (admitting wrap) _ _ s2); [apply _|..].
    - intros u v w [->|[? ->]] <-; [by apply eq_turns|]. split; [by left|]. by destruct u as [? []].
    - intros u v w ? <-. by left.
    - by intros u v w ->.
    - intros u v w [->|[-> Hv]] <-; left; intros Hb; [by destruct u|].
      by destruct Hv as [->|[->|?]]; [..|congruence].
    - eapply follows_idle_r; [apply _|exact Hq|].
      eapply follows_idle_l; [apply follows_live; [apply _|apply tick_live]|exact He].
    - eapply follows_set_participant; [apply _|by rewrite Hps|]. left. split; [done|]. right. left. simpl. auto. }
  clearbody s3. live_step. case_match; glide; exact H3.
Qed.
End core.

(** ** Objects, regions and shutdown *)

Section registry.
Context {St : Type} `{DurableStore St}.
Implicit Types (s : Impl St) (t : rules) (wrap : bool).

Lemma register_object_follows d n l p wrap s : follows (engine_rules wrap) s (register_object d n l p s).1.
Proof.
  unfold register_object. repeat (case_match; [glides|]). live_step. case_match; [|glides].
  glide. apply follows_end_new_object; [apply _|done|glide].
Qed.

Lemma set_policy_follows id g e p wrap s : follows (engine_rules wrap) s (set_policy id g e p s).1.
Proof.
  unfold set_policy. case_match; [glides|]. case_match; [|glides]. repeat (case_match; [glides|]).
  live_step. case_match; [live_step|]; glide;
    (eapply follows_end_object; [apply _|done|done|glide]).
Qed.

Lemma register_region_follows rn wrap s : follows (engine_rules wrap) s (register_region rn s).1.
Proof.
  unfold register_region. destruct (check_registration rn s) as [[o p]|c] eqn:Ec; [|glides].
  apply check_registration_inv in Ec as (Ho & _).
  destruct (allocate_id (rn_requested_id rn) _) as [id c1].
  destruct (allocate_id (rn_requested_replica rn) _) as [rep c2].
  case_match; [glides|]. set (s1 := set_object _ _ _).
  assert (Hs1 : follows (engine_rules wrap) s s1).
  { eapply follows_end_object; [apply _|exact Ho|done|glide]. }
  match goal with |- context [if durability_active s1 then ?a else ?b] =>
    set (r := if durability_active s1 then a else b) end.
  assert (L : live_eq r.1 s1).
  { subst r. case_match; [apply append_many_locked_live | done]. }
  destruct r as [s2 w]. cbn [fst] in L. destruct (ok w); [|by glide]. glide.
  apply follows_end_alter_participant; [apply _|done|]. glide.
  apply follows_end_new_region; [apply _| |by glide].
  unfold born_region, region_view. simpl. case_match; auto.
Qed.

Lemma retire_region_follows id g ep wrap s : follows (engine_rules wrap) s (retire_region id g ep s).1.
Proof.
  unfold retire_region. case_match; [glides|]. destruct (regions s !! id) as [r|] eqn:E; [|glides].
  repeat (case_match; [glides|]). set (s1 := release_region_name_locked _ _).
  assert (Hs1 : follows (engine_rules wrap) s s1).
  { eapply follows_idle_r; [apply _|apply release_region_name_idle|]. apply retiring_engine.
    eapply follows_idle_l; [apply follows_live; [apply _|apply tick_live]|].
    eapply follows_set_region; [apply _|exact E|by right]. }
  clearbody s1.
  match goal with |- context [append_locked _ ?x] =>
    assert (Hs2 : follows (engine_rules wrap) s x); [|generalize dependent x; intros s2 Hs2] end.
  { destruct (objects s1 !! _) as [o|] eqn:Eo; [|done]. case_match; glide;
      (apply recompute_end; [apply _|]; eapply follows_end_object; [apply _|done|done|done]). }
  live_step. case_match; glide; done.
Qed.

Lemma resolve_recovery_follows id g ep note wrap s :
  follows (engine_rules wrap) s (resolve_recovery id g ep note s).1.
Proof.
  unfold resolve_recovery. case_match; [glides|]. destruct (objects s !! id) as [o|] eqn:E; [|glides].
  case_match; [glides|]. destruct (decide (o_lifecycle o ≠ _)) as [|Hl]; [glides|]. apply dec_stable in Hl.
  case_match; [glides|]. set (s1 := set_object _ _ _).
  assert (Hs1 : follows (engine_rules wrap) s s1).
  { eapply follows_idle_l; [apply follows_live; [apply _|apply tick_live]|].
    eapply follows_set_object; [apply _|exact E|]. right. right. right. right. done. }
  clearbody s1. live_step. case_match; [live_step|]; glide; exact Hs1.
Qed.

Lemma retire_replica_follows s id : follows retiring s (retire_replica s id).
Proof.
  unfold retire_replica. case_match; [|glides]. glide.
  eapply follows_set_region; [apply _|done|by right].
Qed.

Lemma retire_object_follows id g ep wrap s : follows (engine_rules wrap) s (retire_object id g ep s).1.
Proof.
  unfold retire_object. case_match; [glides|]. destruct (objects s !! id) as [o|] eqn:E; [|glides].
  repeat (case_match; [glides|]). set (s1 := set_object _ _ _).
  assert (Hs1 : follows turning s s1).
  { eapply follows_idle_l; [apply follows_live; [apply _|apply tick_live]|].
    eapply follows_set_object; [apply _|exact E|]. right. right. by left. }
  clearbody s1. live_step.
  assert (Hs0 : follows turning s s0) by (glide; exact Hs1). clear L.
  assert (Hx : ∀ x, follows retiring s0 x → follows (engine_rules wrap) s x).
  { intros x. revert Hs0. apply follows_compose; [apply _|..].
    - intros u v x2 -> ?. by apply retiring_turns.
    - by intros u v x2 ? <-.
    - intros u v x2 -> <-. left. split; [done|]. by left.
    - intros u v x2 -> <-. left. intros ?. by destruct v. }
  case_match; glide; apply Hx; first [glides|apply follows_foldl; [apply _|apply retire_replica_follows]].
Qed.

Lemma shutdown_object_idle s id : follows idle s (shutdown_object s id).
Proof.
  unfold shutdown_object. destruct (objects s !! id) as [o|] eqn:E; [|glides]. glide.
  assert (Hv : object_view id (shutdown_object_record (sequence s) o) = object_view id o).
  { unfold shutdown_object_record. by case_match. }
  case_match; glide; (eapply follows_end_object; [apply _|exact E|exact Hv|glide]).
Qed.

Lemma shutdown_sync_follows s id : follows cancelling s (shutdown_sync s id).
Proof.
  unfold shutdown_sync. destruct (syncs s !! id) as [y|] eqn:E; [|glides].
  destruct (sync_settled y) eqn:Es; [glides|]. glide.
  eapply follows_set_sync; [apply _|exact E|]. right. split; [done|]. by apply sync_settled_false.
Qed.

Lemma begin_shutdown_follows ep wrap s : follows (engine_rules wrap) s (begin_shutdown ep s).1.
Proof.
  unfold begin_shutdown. case_match; [glides|]. case_match; [glides|]. live_step. glide.
  eapply follows_idle_r; [apply _|apply follows_foldl; [apply _|]|].
  { intros x id. unfold shutdown_invalidation. repeat case_match; glide. }
  apply cancelling_engine. eapply follows_idle_l; [|apply follows_foldl; [apply _|apply shutdown_sync_follows]].
  eapply follows_trans; [apply _| |apply follows_foldl; [apply _|apply shutdown_object_idle]]. glide.
Qed.

Lemma complete_shutdown_follows ep wrap s : follows (engine_rules wrap) s (complete_shutdown ep s).1.
Proof. unfold complete_shutdown. repeat case_match; glide. Qed.

Lemma flush_durable_follows wrap s : follows (engine_rules wrap) s (flush_durable s).1.
Proof. unfold flush_durable. repeat case_match; glide. Qed.
End registry.

(** ** Reads and writes *)

Section access.
Context {St : Type} `{DurableStore St}.
Implicit Types (s : Impl St) (t : rules) (wrap : bool).

Lemma select_read_region_idle k req s : follows idle s (select_read_region_locked k req s).2.
Proof.
  unfold select_read_region_locked. case_match; [glides|]. case_match; [|glides].
  case_match; [glides|].
  case_match; cbn [snd]; (eapply follows_end_object; [apply _|done| |glide]); by case_match.
Qed.

Lemma lease_read_idle k req r d s : follows idle s (lease_read k req r d s).2.
Proof.
  unfold lease_read. case_match; [|glides]. cbn [snd].
  eapply follows_end_object; [apply _|done| |glide].
  unfold add_read_grant_locked. by repeat case_match.
Qed.

Lemma recoverable_source_idle k r s : follows idle s (recoverable_source k r s).2.
Proof.
  unfold recoverable_source. case_match; [|glides]. case_match; [glides|]. case_match; [|glides].
  cbn [snd]. eapply follows_end_object; [apply _|done|done|glide].
Qed.

Lemma read_region_idle k req lease pol o r d s : follows idle s (read_region k req lease pol o r d s).1.
Proof.
  unfold read_region. case_match; [unfold answer_read; glide|]. case_match.
  - destruct lease; [|unfold answer_read; glide].
    match goal with |- context [lease_read k req r ?d s] =>
      pose proof (lease_read_idle k req r d s) as E; destruct (lease_read k req r d s) end.
    unfold answer_read. glide. exact E.
  - case_match; [unfold answer_read; glide|]. unfold blocked_read, answer_read. repeat (case_match; [glides|]).
    pose proof (recoverable_source_idle k r s) as E. destruct (recoverable_source k r s) as [b s'].
    simpl in E. case_match; glide; exact E.
Qed.

Lemma compute_read_idle req lease s : follows idle s (compute_read_locked req lease s).1.
Proof.
  unfold compute_read_locked. live_step. case_match; [|unfold answer_read; glide].
  case_match. case_match; [|glides]. case_match; [unfold answer_read; glide|].
  pose proof (select_read_region_idle (ac_object (rr_context req)) (rr_region req) s0) as E.
  destruct (select_read_region_locked _ _ _) as [sel s1]. simpl in E.
  assert (follows idle s s1) by (by eapply follows_idle_r; [apply _|exact E|glide]). clear E L.
  unfold answer_read. do 2 (case_match; [solve [glide; done]|]). case_match; [|by glide].
  by eapply follows_trans; [apply _| |apply read_region_idle].
Qed.

Lemma acquire_read_idle req s : follows idle s (acquire_read req s).1.
Proof.
  unfold acquire_read. pose proof (compute_read_idle req true s) as E.
  destruct (compute_read_locked req true s) as [s1 out]. cbn [fst] in *. case_match; glide; exact E.
Qed.

Lemma install_invalidation_idle s i : follows idle s (install_invalidation s i).
Proof. unfold install_invalidation. apply follows_end_alter_region; [apply _|done|glide]. Qed.

Lemma reserve_write_idle k ctx c o p req g s :
  objects s !! k = Some o → follows idle s (reserve_write k ctx c o p req g s).1.
Proof.
  intros Hk. unfold reserve_write. set (s1 := set_object _ _ _).
  assert (Hs1 : follows idle s s1) by (eapply follows_end_object; [apply _|exact Hk|done|glide]).
  live_step. case_match.
  - unfold answer_write. glide. eapply follows_trans; [apply _|
      |apply follows_foldl; [apply _|apply install_invalidation_idle]]. by glide.
  - cbn [fst]. eapply follows_end_object; [apply _|rewrite L; apply lookup_insert_eq|done|by glide].
Qed.

Lemma acquire_write_idle req s : follows idle s (acquire_write req s).1.
Proof.
  unfold acquire_write. live_step. destruct (resolve_locked _ s) as [[o p]|c] eqn:Er; [|glides].
  apply resolve_locked_success in Er.
  assert (Hk : objects s0 !! ac_object (wr_context req) = Some o) by (rewrite L; apply Er).
  destruct (policy_locked o s0) as [pol|]; [|glides]. unfold answer_write.
  destruct (negb (ok (write_gate pol o))); [glides|].
  destruct (resolve_writer_region req o s0) as [wr|c]; [|glides].
  destruct (decide (_ ∧ _)); [glides|]. destruct (decide (o_authority o = AuthorityMode.TransferPending)).
  { unfold write_transfer_pending, answer_write. case_match; [glides|]. case_match; [|glides].
    live_step. case_match; glide; (eapply follows_end_object; [apply _|exact Hk|done|glide]). }
  destruct (decide (o_authority o = AuthorityMode.ExclusiveWriter)); [glides|].
  match goal with |- context [if ?b then _ else if decide (_ ∧ _) then _ else _] => destruct b end; [glides|].
  destruct (decide (_ ∧ _)); [glides|].
  eapply follows_trans; [apply _| |by apply reserve_write_idle]. glide.
Qed.
End access.

(** ** Modifications, invalidation and revalidation *)

Section invalidate.
Context {St : Type} `{DurableStore St}.
Implicit Types (s : Impl St) (t : rules) (wrap : bool).

Lemma follows_end_turned_region wrap s x k r r' :
  regions x !! k = Some r → region_turn (region_view k r) (region_view k r') →
  follows idle s x → follows (engine_rules wrap) s (set_region k r' x).
Proof.
  intros Hk Hr Hq. eapply follows_idle_l; [exact Hq|]. eapply follows_set_region; [apply _|exact Hk|exact Hr].
Qed.

(** An object and one of its replicas change together. *)
Lemma follows_end_turned_both wrap s x k o o' j r r' :
  objects x !! k = Some o → object_turn (object_view k o) (object_view k o') →
  regions x !! j = Some r → region_turn (region_view j r) (region_view j r') →
  follows idle s x → follows (engine_rules wrap) s (set_object k o' (set_region j r' x)).
Proof.
  intros Hk Ho Hj Hr Hq. eapply follows_idle_l; [exact Hq|].
  split; simpl; try (apply view_evolves_refl; apply engine_rules_tame).
  - eapply view_evolves_insert; [apply (tame_region (t := engine_rules wrap))|exact Hj|exact Hr].
  - eapply view_evolves_insert; [apply (tame_object (t := engine_rules wrap))|exact Hk|exact Ho].
Qed.

Lemma mark_dirty_follows req wrap s : follows (engine_rules wrap) s (mark_dirty req s).1.
Proof.
  unfold mark_dirty. live_step. destruct (resolve_locked _ s) as [[o p]|c] eqn:Er; [|glides].
  apply resolve_locked_success in Er. case_match; [glides|].
  destruct (resolve_region_locked _ _ _ _) as [r|c] eqn:Err; [|glides].
  apply resolve_region_success in Err.
  destruct (negb (ok (dirty_region_guard req r))) eqn:Eg; [glides|].
  match goal with |- context [append_many_locked _ ?x] => set (s1 := x) end.
  assert (Hs1 : follows (engine_rules wrap) s s1).
  { eapply follows_end_turned_both; [simpl; rewrite L; apply Er| |apply Err| |glide].
    - right. right. right. left. split; [apply (res_lifecycle _ _ _ _ Er)|done].
    - split; [by left|]. unfold dirty_region_guard in Eg.
      destruct (decide _); [done|]. destruct (decide _); [done|].
      destruct (is_legal_coherence_transition _ _) eqn:El; [|done].
      unfold coherence_move. simpl. by rewrite El. }
  clearbody s1. clear L. live_step. case_match; glide; exact Hs1.
Qed.

Lemma invalidated_turn k id seq r :
  region_turn (region_view k r) (region_view k (invalidated_region id seq r)).
Proof. split; [by left|]. simpl. destruct (defined _); by destruct (r_state r). Qed.

Lemma invalidate_live_follows k req c o r wrap s :
  objects s !! k = Some o → regions s !! ir_target_region req = Some r →
  follows (engine_rules wrap) s (invalidate_live k req c o r s).1.
Proof.
  intros Hk Hr. unfold invalidate_live. destruct (ir_acknowledgement_required req); live_step.
  - case_match; glide; (eapply follows_end_region; [apply _|exact Hr|done|]);
      (eapply follows_end_object; [apply _|exact Hk|done|glide]).
  - case_match; glide; (apply recompute_end; [apply _|]);
      (eapply follows_end_turned_region; [exact Hr|apply invalidated_turn|]);
      (eapply follows_end_object; [apply _|exact Hk|done|glide]).
Qed.

Lemma invalidate_follows req wrap s : follows (engine_rules wrap) s (invalidate req s).1.
Proof.
  unfold invalidate. destruct (resolve_internal_locked _ _) as [o|c] eqn:Er; [|glides].
  apply resolve_internal_inv in Er. live_step. case_match; [glides|]. case_match; [|glides].
  do 2 (case_match; [glides|]). case_match.
  { unfold invalidate_inert. live_step. case_match; glide. }
  case_match; [glides|]. eapply follows_idle_l; [apply follows_live; [apply _|exact L]|].
  apply invalidate_live_follows; [by rewrite L | done].
Qed.

Lemma settle_invalidation_end t k id i s x : Tame t →
  follows t s x → follows t s (settle_invalidation k id i x).
Proof.
  intros Ht Hx. unfold settle_invalidation. apply recompute_end; [done|].
  apply follows_end_alter_object; [done|done|]. by glide.
Qed.

Lemma acknowledge_follows ack wrap s : follows (engine_rules wrap) s (acknowledge_invalidation ack s).1.
Proof.
  unfold acknowledge_invalidation. case_match; [|glides]. live_step. case_match; [|glides].
  case_match. repeat (case_match; [glides|]). destruct (regions s0 !! _) as [r|] eqn:Er.
  - case_match; [live_step; glide; apply settle_invalidation_end; [apply _|glide]|].
    unfold apply_acknowledgement. live_step. case_match; glide;
      (apply follows_end_alter_object; [apply _|done|]); (apply settle_invalidation_end; [apply _|]);
      (eapply follows_end_turned_region; [exact Er|apply invalidated_turn|glide]).
  - live_step. glide. apply settle_invalidation_end; [apply _|glide].
Qed.

Lemma revalidate_follows req wrap s : follows (engine_rules wrap) s (revalidate_region req s).1.
Proof.
  unfold revalidate_region. destruct (resolve_locked _ s) as [[o p]|c] eqn:Er; [|glides].
  destruct (resolve_region_locked _ _ _ _) as [r|c] eqn:Err; [|glides].
  apply resolve_region_success in Err. case_match; [glides|].
  live_step. set (s1 := set_region _ _ _). assert (Hs1 : follows (engine_rules wrap) s s1).
  { eapply follows_end_turned_region; [rewrite L; apply Err| |glide].
    unfold revalidated_region, region_turn, region_view.
    split; [left; by repeat case_match|]. destruct (_ || _); repeat case_match; simpl; by destruct (r_state r). }
  clearbody s1. clear L. live_step. case_match; [live_step|]; glide; exact Hs1.
Qed.
End invalidate.

(** ** Release and synchronization *)

Section sync.
Context {St : Type} `{DurableStore St}.
Implicit Types (s : Impl St) (t : rules) (wrap : bool).

Lemma lose_dirty_region_follows (acc : Impl St * list JournalPayload) id :
  follows losing acc.1 (lose_dirty_region acc id).1.
Proof.
  destruct acc as [s es]. unfold lose_dirty_region. cbn [fst].
  destruct (regions s !! id) as [r|] eqn:E; [|glides]. case_match; [|glides]. cbn [fst].
  eapply follows_set_region; [apply _|exact E|by right].
Qed.

(** Giving up write authority: the modification is lost, with its replicas. *)
Lemma release_write_follows req out o wrap s :
  objects s !! ac_object (rl_context req) = Some o → follows (engine_rules wrap) s (release_write req out o s).1.
Proof.
  intros Hk. unfold release_write. do 2 (case_match; [glides|]). set (s1 := set_object _ _ _).
  assert (Hs1 : follows turning s s1).
  { eapply follows_idle_l; [apply follows_live; [apply _|apply tick_live]|].
    eapply follows_set_object; [apply _|exact Hk|]. left.
    by apply apply_dirty_loss_loses. }
  clearbody s1.
  match goal with |- context [if o_has_unpublished_dirty o then ?a else ?b] =>
    set (x := if o_has_unpublished_dirty o then a else b) end.
  assert (Hx : follows (engine_rules wrap) s x.1).
  { apply (follows_compose turning losing _ _ s1); [apply _|..|exact Hs1|].
    - intros u v w -> [->| ->]; [by apply eq_turns|]. split; [by left|]. by destruct v as [? []].
    - by intros u v w ? <-.
    - intros u v w -> <-. left. split; [done|]. by left.
    - intros u v w -> <-. left. intros ?. by destruct v.
    - subst x. case_match; [|glides].
      apply (follows_foldl_entries _ _ (s1, [])); [apply _|apply lose_dirty_region_follows]. }
  destruct x as [s2 es]. cbn [fst] in Hx. live_step.
  case_match; glide; (apply follows_end_alter_object; [apply _|done|]);
    (apply recompute_end; [apply _|exact Hx]).
Qed.

Lemma release_follows req wrap s : follows (engine_rules wrap) s (release req s).1.
Proof.
  unfold release. pose proof (context_if_resolved_live (rl_context req) s) as L.
  destruct (context_if_resolved _ s) as [ctx s0]. cbn [fst snd] in L. cbv beta iota zeta.
  destruct (resolve_locked _ s) as [[o p]|c] eqn:Er; [|glides]. apply resolve_locked_success in Er.
  assert (Hk : objects s0 !! ac_object (rl_context req) = Some o) by (rewrite L; apply Er).
  eapply follows_idle_l; [apply follows_live; [apply _|exact L]|]. clear L. case_match.
  - unfold release_read. case_match; [|glides]. case_match; [glides|]. live_step.
    case_match; glide; (apply follows_end_alter_object; [apply _|done|]); (apply recompute_end; [apply _|]);
      (eapply follows_end_object; [apply _|exact Hk|done|glide]).
  - case_match; [glides|]. by apply release_write_follows.
Qed.

Lemma settle_sync_follows id y0 y r wrap s :
  syncs s !! id = Some y0 → sync_move (y_state y0) (y_state y) →
  (∀ r', r = Some r' → ∃ r0, regions s !! y_destination_region y = Some r0 ∧
     region_turn (region_view (y_destination_region y) r0) (region_view (y_destination_region y) r')) →
  follows (engine_rules wrap) s (settle_sync id y r s).1.
Proof.
  intros Hy Hm Hr. unfold settle_sync. glide.
  assert (Hs : ∀ x : Impl St, syncs x = syncs (set_sync id y s) → objects x = objects s →
    participants x = participants s → view_evolves region_view region_turn born_region (regions s) (regions x) →
    follows (engine_rules wrap) s x).
  { intros x Ex Eo Ep Er. split; rewrite ?Ex, ?Eo, ?Ep; [done|..];
      try (apply view_evolves_refl; apply engine_rules_tame).
    simpl. eapply view_evolves_insert; [apply (tame_sync (t := engine_rules wrap))|exact Hy|by left]. }
  destruct r as [r'|]; apply Hs; simpl; try done.
  - destruct (Hr _ eq_refl) as (r0 & Hr0 & Ht).
    eapply view_evolves_insert; [apply (tame_region (t := engine_rules wrap))|exact Hr0|exact Ht].
  - apply view_evolves_refl, (tame_region (t := engine_rules wrap)).
Qed.

(** Name the state [settle_sync] returns, proving that it follows the rules. *)
Ltac settled y0 :=
  match goal with
  | |- context [settle_sync ?id ?y ?r ?s] =>
      let E := fresh "E" in assert (∀ wrap, follows (engine_rules wrap) s (settle_sync id y r s).1) as E;
      [intros ?; apply (settle_sync_follows id y0)
      |destruct (settle_sync id y r s); cbn [fst] in E; cbv beta iota zeta]
  end.

Lemma settle_completion_follows req out o y r wrap s :
  regions s !! y_destination_region y = Some r → syncs s !! sc_operation req = Some y →
  y_state y ≠ SyncState.Completed → y_state y ≠ SyncState.Cancelled → y_state y ≠ SyncState.Failed →
  follows (engine_rules wrap) s (settle_completion req out o y r s).1.
Proof.
  intros Hr Hy H1 H2 H3. unfold settle_completion.
  assert (Hm : ∀ z, z = SyncState.Cancelled ∨ z = SyncState.Failed ∨ z = SyncState.Completed →
                sync_move (y_state y) z).
  { intros z [->|[->| ->]] Hb; by destruct (y_state y). }
  assert (Hq : ∀ x y : Impl St, live_eq x s → follows (engine_rules wrap) x y → follows (engine_rules wrap) s y).
  { intros x z L. apply follows_idle_l, follows_live; [apply _|done]. }
  destruct (decide (_ ∨ _)) as [|Hret].
  { unfold cancel_completion. settled y; [done|apply Hm; auto|done|].
    case_match; glide; (eapply Hq; [apply tick_live|apply E]). }
  assert (Ht : ∀ k (r' : RegionRecord), r_lifecycle r' = r_lifecycle r →
    r_state r' = CoherenceState.Stale ∨ r_state r' = CoherenceState.RevalidationRequired ∨
    r_state r' = CoherenceState.SyncRequired ∨ r_state r' = CoherenceState.Current →
    region_turn (region_view k r) (region_view k r')).
  { intros k r' Hl Hc. split; [by left|]. simpl.
    destruct Hc as [E|[E|[E|E]]]; rewrite E; by destruct (r_state r). }
  destruct (decide (_ ≠ _)); [|case_match; [|case_match]].
  - unfold fail_completion. settled y; [done|apply Hm; auto|intros ? [= <-]; exists r; split; [done|apply Ht; auto]|].
    case_match; glide; (eapply Hq; [apply tick_live|apply E]).
  - unfold unmoved_completion. settled y; [done|apply Hm; auto|intros ? [= <-]; exists r; split; [done|apply Ht; auto]|].
    glide. eapply Hq; [apply tick_live|apply E].
  - unfold fail_completion. settled y; [done|apply Hm; auto|intros ? [= <-]; exists r; split; [done|apply Ht; auto]|].
    case_match; glide; (eapply Hq; [apply tick_live|apply E]).
  - unfold finish_completion. live_step.
    assert (L' : live_eq s0 s) by (by rewrite L). clear L.
    settled y; [by rewrite L'|apply Hm; auto|intros ? [= <-]; exists r; split; [by rewrite L'|apply Ht; auto 10]|].
    case_match; glide; (eapply Hq; [exact L'|apply E]).
Qed.

Lemma complete_sync_follows req wrap s : follows (engine_rules wrap) s (complete_sync req s).1.
Proof.
  unfold complete_sync. destruct (syncs s !! _) as [y|] eqn:Ey; [|glides].
  live_step. destruct (resolve_locked _ s) as [[o p]|c] eqn:Er; [|glides]. case_match; [glides|].
  destruct (decide (y_state y = _)); [glides|].
  destruct (negb (ok (completion_guard req y))) eqn:Eg; [glides|].
  destruct (regions s0 !! _) as [r|] eqn:Ereg; [|glides].
  eapply follows_idle_l; [apply follows_live; [apply _|exact L]|].
  unfold completion_guard in Eg. destruct (decide (_ ∨ _)) as [|Hs]; [done|].
  apply settle_completion_follows; [done|by rewrite L|done|..]; intros ?; apply Hs; auto.
Qed.

Lemma fail_sync_follows req wrap s : follows (engine_rules wrap) s (fail_sync req s).1.
Proof.
  unfold fail_sync. destruct (syncs s !! _) as [y|] eqn:Ey; [|glides]. live_step.
  destruct (decide (y_state y = _)) as [|Hc]; [glides|]. case_match; [glides|].
  assert (L' : live_eq (tick s0) s) by (by rewrite tick_live). clear L.
  assert (Hm : sync_move (y_state y) (if sf_outcome_unknown req then SyncState.OutcomeUnknown else SyncState.Failed)).
  { intros Hb. by destruct (y_state y), (sf_outcome_unknown req). }
  assert (Hq : ∀ x, follows (engine_rules wrap) (tick s0) x → follows (engine_rules wrap) s x).
  { intros x. apply follows_idle_l, follows_live; [apply _|done]. }
  destruct (regions (tick s0) !! _) as [r|] eqn:Er.
  - settled y; [by rewrite L'|exact Hm|intros ? [= <-]; exists r; split; [exact Er|]|].
    + split; [left; unfold failed_destination; by repeat case_match|].
      unfold failed_destination; repeat case_match; simpl; by destruct (r_state r).
    + destruct (ok _); glide; apply Hq, E.
  - settled y; [by rewrite L'|exact Hm|done|]. destruct (ok _); glide; apply Hq, E.
Qed.

Lemma begin_sync_follows req wrap s :
  (wrap = false → fresh_sync s) → follows (engine_rules wrap) s (begin_sync req s).1.
Proof.
  intros Hfresh. unfold begin_sync. pose proof (context_if_resolved_live (sr_context req) s) as L.
  assert (Hn : next_sync_id (context_if_resolved (sr_context req) s).2 = next_sync_id s).
  { unfold context_if_resolved. by case_match. }
  destruct (context_if_resolved _ s) as [ctx s0]. cbn [fst snd] in L, Hn. cbv beta iota zeta.
  case_match; [|glides]. case_match. do 2 (case_match; [glides|]).
  destruct (resolve_region_locked _ _ _ _) as [d|c] eqn:Err; [|glides].
  apply resolve_region_success in Err. do 2 (case_match; [glides|]). case_match; [|glides].
  set (s1 := set_region _ _ _).
  assert (Hs1 : ∀ wrap', follows (engine_rules wrap') s s1).
  { intros wrap'. eapply follows_end_turned_region; [apply Err| |glide]. split; [by left|]. simpl.
    by destruct (r_state d). }
  assert (Hy : syncs s1 = syncs s) by (subst s1; simpl; by rewrite L).
  clearbody s1. clear L. live_step. case_match; [|glide; apply Hs1]. glide.
  set (y := new_sync _ _ _ _ _).
  assert (Hk : y_id y = from_value (next_sync_id s)) by (subst y; simpl; by rewrite <-Hn).
  assert (Hborn : born_sync (sync_view (y_id y) y)) by done.
  clearbody y. rewrite Hk in Hborn |- *.
  apply follows_put_sync; [apply _|by rewrite L| |glide; apply Hs1].
  destruct (syncs s !! _) eqn:E; [|done]. simpl. destruct wrap; [by right|]. by rewrite Hfresh in E.
Qed.
End sync.

(** ** Publication *)

Section publish.
Context {St : Type} `{DurableStore St}.
Implicit Types (s : Impl St) (t : rules) (wrap : bool).

Lemma publish_reserve_idle req s : follows idle s (publish_reserve req s).1.
Proof.
  unfold publish_reserve. live_step. destruct (resolve_locked _ s) as [[o p]|c] eqn:Er; [|glides].
  apply resolve_locked_success in Er.
  assert (Hk : objects s0 !! ac_object (pb_context req) = Some o) by (rewrite L; apply Er).
  case_match; [|glides]. case_match; [glides|]. case_match; [glides|].
  destruct (resolve_region_locked _ _ _ _) as [r|?] eqn:Err; [|glides].
  case_match; [glides|]. unfold reserve_publication. glide.
  eapply follows_end_object; [apply _|exact Hk|done|glide].
Qed.
End publish.
