(* ===== verification/RecoveryFacts.v ===== *)
(** * What recovery establishes

    The state [attach_store] leaves behind, record by record: dynamic
    authority and currentness are gone, static facts are those of the durable
    image. *)
From S2P Require Import Prelude Ids Enums Status Bytes Policy Evidence Model Decisions Persistence.
From S2P Require Import Engine Resolve Core Registry Recovery Auditor Frame Evolution.

(** ** Restored records *)

(** A restored object: static facts kept, dynamic authority gone. *)
Record recovered_from (image : DurableImage) (st o : ObjectRecord) : Prop := {
  rec_id : o_id o = o_id st;
  rec_generation : o_generation o = o_generation st;
  rec_length : o_length o = o_length st;
  rec_replicas : o_replicas o = o_replicas st;
  rec_authority : o_authority o = AuthorityMode.RevalidationRequired;
  rec_writer : o_writer o = nil_id;
  rec_writer_boot : o_writer_boot o = nil_uuid;
  rec_reads : o_reads o = [];
  rec_outstanding : o_outstanding_invalidations o = [];
  rec_dirty : o_has_unpublished_dirty o = false;
  rec_lifecycle : o_lifecycle o = o_lifecycle st ∨ o_lifecycle o = ObjectLifecycle.RecoveryRequired;
  rec_settled : o_publication_state o ≠ PublicationState.PendingDurable;
  rec_version : o_authoritative_version o = o_authoritative_version st ∨
    ∃ pp, img_pending_publications image !! o_pending_publication st = Some pp ∧
          o_authoritative_version o = pp_version pp ∧ o_publication_state o = PublicationState.Committed }.

Lemma restored_object_spec image pol prev ep seq st :
  recovered_from image st (restored_object image pol prev ep seq st).
Proof.
  unfold restored_object. set (o := revoked_object prev ep seq st).
  set (o1 := settle_publication _ _ _).
  assert (H1 : o_id o1 = o_id st ∧ o_generation o1 = o_generation st ∧ o_length o1 = o_length st ∧
    o_replicas o1 = o_replicas st ∧ o_authority o1 = AuthorityMode.RevalidationRequired ∧
    o_writer o1 = nil_id ∧ o_writer_boot o1 = nil_uuid ∧ o_reads o1 = [] ∧
    o_outstanding_invalidations o1 = [] ∧ o_publication_state o1 ≠ PublicationState.PendingDurable ∧
    (o_lifecycle o1 = o_lifecycle st ∨ o_lifecycle o1 = ObjectLifecycle.RecoveryRequired) ∧
    (o_authoritative_version o1 = o_authoritative_version st ∨
     ∃ pp, img_pending_publications image !! o_pending_publication st = Some pp ∧
          o_authoritative_version o1 = pp_version pp ∧ o_publication_state o1 = PublicationState.Committed)).
  { subst o1. unfold publication_fate. change (o_pending_publication o) with (o_pending_publication st).
    destruct (defined (o_pending_publication st)); [destruct (img_pending_publications image !! _) as [pp|]|];
      case_decide; simpl; try (by split_and!; try done; first [by left | by right]).
    unfold completed_object. destruct (defined (pp_request _)); split_and!; try done; try (by left); right; by exists pp. }
  clearbody o1. clear o. split_and_hyps. unfold classify_dirty.
  assert (Hq : ∀ o2, o_lifecycle o2 = o_lifecycle st ∨ o_lifecycle o2 = ObjectLifecycle.RecoveryRequired →
    o_lifecycle (unquiesced o2) = o_lifecycle st ∨ o_lifecycle (unquiesced o2) = ObjectLifecycle.RecoveryRequired).
  { intros o2 Ho2. unfold unquiesced. simpl. case_decide; auto. }
  destruct (o_has_unpublished_dirty o1) eqn:Ed; [|by split; try done; apply Hq].
  destruct (match pol with Some p => _ | None => _ end); split; try done; apply Hq; simpl; auto.
Qed.

Lemma recovered_init image st o : recovered_from image st o → object_init (o_id st) o.
Proof.
  intros []. split_and!; [done| | |].
  - unfold reads_ok. by rewrite rec_reads0.
  - unfold writer_ok, exclusive. by rewrite rec_writer0, rec_authority0.
  - unfold dirty_ok. by rewrite rec_dirty0.
Qed.

(** A restored region is never current; its identity and extent are kept. *)
Record downgraded_from (st r : RegionRecord) : Prop := {
  dg_id : r_id r = r_id st;
  dg_object : r_object r = r_object st;
  dg_offset : r_offset r = r_offset st;
  dg_length : r_length r = r_length st;
  dg_state : r_state r = CoherenceState.Retired ∨ r_state r = CoherenceState.Fenced
             ∨ r_state r = CoherenceState.RevalidationRequired;
  dg_pending : r_invalidation_pending r = false }.

Lemma downgraded_spec seq st : downgraded_from st (downgraded_region seq st).
Proof. split; try done. simpl. unfold downgraded_state. repeat case_match; auto. Qed.

(** What an image must satisfy for the invariants of regions and transfers to
    hold after it was restored: every replica is listed by its object and lies
    inside it, and every transfer goes to a replica of its object. *)
Record image_ok (image : DurableImage) : Prop := {
  io_regions : ∀ k r, img_regions image !! k = Some r → r_id r = k ∧
    ∃ o, img_objects image !! r_object r = Some o ∧ o_id o = r_object r ∧ k ∈ o_replicas o ∧
         checked_range (r_offset r) (r_length r) (o_length o) = true;
  io_syncs : ∀ k y, img_syncs image !! k = Some y →
    ∃ r, img_regions image !! y_destination_region y = Some r ∧ r_object r = y_object y }.

Section recovery.
Context {St : Type} `{DurableStore St}.
Implicit Types (s : Impl St) (acc : @RecoveryAcc St).

Definition live_maps acc := (objects acc.1.1, regions acc.1.1, syncs acc.1.1).

Lemma restore_domain_maps image acc id : live_maps (restore_domain image acc id) = live_maps acc.
Proof. destruct acc as [[s rep] bad]. unfold restore_domain. repeat case_match; done. Qed.
Lemma restore_participant_maps image acc id : live_maps (restore_participant image acc id) = live_maps acc.
Proof. destruct acc as [[s rep] bad]. unfold restore_participant. repeat case_match; done. Qed.
Lemma restore_policy_maps image acc id : live_maps (restore_policy image acc id) = live_maps acc.
Proof. destruct acc as [[s rep] bad]. unfold restore_policy. repeat case_match; done. Qed.
Lemma note_mismatches_maps acc : live_maps (note_mismatches acc) = live_maps acc.
Proof. destruct acc as [[s rep] bad]. unfold note_mismatches. repeat case_match; done. Qed.
Lemma restore_invalidation_maps image acc id : live_maps (restore_invalidation image acc id) = live_maps acc.
Proof. destruct acc as [[s rep] bad]. unfold restore_invalidation. repeat case_match; done. Qed.

(** ** Objects *)

Definition objects_sound image acc : Prop :=
  ∀ k o, objects acc.1.1 !! k = Some o →
    ∃ st, img_objects image !! k = Some st ∧ o_id st = k ∧ recovered_from image st o.

Lemma restore_object_sound image prev acc id :
  objects_sound image acc → objects_sound image (restore_object image prev acc id).
Proof.
  destruct acc as [[s rep] bad]. unfold restore_object. intros Hs.
  destruct (img_objects image !! id) as [st|] eqn:E; [|done]. case_decide as Hid; [done|].
  intros k o. cbn [fst]. simpl. rewrite lookup_emplace.
  set (o' := restored_object _ _ _ _ _ st).
  assert (Hspec : recovered_from image st o') by apply restored_object_spec.
  case_decide as Hk; [|apply Hs]. intros [= <-]. assert (o_id st = k) as <- by exact (eq_trans (eq_sym (rec_id _ _ _ Hspec)) Hk).
  destruct (objects s !! o_id st) as [o2|] eqn:E2; simpl; [by apply Hs|].
  subst id. eauto.
Qed.

Lemma restore_object_complete image prev l acc k st :
  k ∈ l ∨ is_Some (objects acc.1.1 !! k) → img_objects image !! k = Some st → o_id st = k →
  is_Some (objects (foldl (restore_object image prev) acc l).1.1 !! k).
Proof.
  intros Hk Hst Hid. revert acc Hk. induction l as [|x l IH]; intros acc Hk; simpl.
  { destruct Hk as [Hk|]; [|done]. by apply not_elem_of_nil in Hk. }
  apply IH. destruct acc as [[s rep] bad]. cbn [fst] in *.
  assert (Hkeep : is_Some (objects s !! k) → is_Some (objects (restore_object image prev (s, rep, bad) x).1.1 !! k)).
  { intros [o Ho]. unfold restore_object. case_match; [|eauto]. case_decide; [eauto|]. simpl.
    rewrite lookup_emplace. case_decide; eauto. }
  destruct Hk as [Hk|]; [|auto]. apply elem_of_cons in Hk as [<-|]; [|auto]. right.
  unfold restore_object. rewrite Hst. rewrite decide_False by (intros Hn; by apply Hn). simpl.
  rewrite lookup_emplace, decide_True; [eauto | exact (eq_trans (rec_id _ _ _ (restored_object_spec _ _ _ _ _ st)) Hid)].
Qed.

Lemma restore_object_others image prev acc id :
  (regions (restore_object image prev acc id).1.1, syncs (restore_object image prev acc id).1.1)
  = (regions acc.1.1, syncs acc.1.1).
Proof. destruct acc as [[s rep] bad]. unfold restore_object. repeat case_match; done. Qed.

(** ** Regions *)

Definition regions_sound image acc : Prop :=
  ∀ k r, regions acc.1.1 !! k = Some r →
    ∃ st, img_regions image !! k = Some st ∧ r_id st = k ∧ downgraded_from st r.

Lemma restore_region_spec image acc id :
  objects (restore_region image acc id).1.1 = objects acc.1.1 ∧
  syncs (restore_region image acc id).1.1 = syncs acc.1.1 ∧
  ((∃ st r, img_regions image !! id = Some st ∧ r_id st = id ∧ downgraded_from st r ∧
      regions (restore_region image acc id).1.1 = emplace id r (regions acc.1.1)) ∨
   (regions (restore_region image acc id).1.1 = regions acc.1.1 ∧
    ∀ st, img_regions image !! id = Some st → r_id st ≠ id)).
Proof.
  destruct acc as [[s rep] bad]. unfold restore_region.
  destruct (img_regions image !! id) as [st|] eqn:E; [|by split_and!; [..|right]].
  destruct (decide (id ≠ r_id st)) as [Hid|Hid].
  { split; [done|]. split; [done|]. right. split; [done|]. intros ? [= <-] ?. congruence. }
  apply dec_stable in Hid. subst id.
  assert (Hd : downgraded_from st (downgraded_region (sequence s) st)) by apply downgraded_spec.
  destruct (terminal_region st).
  - case_match; (split; [done|]); (split; [done|]); left; exists st, (downgraded_region (sequence s) st); done.
  - live_step. destruct L. case_match; (split; [done|]); (split; [done|]); left;
      exists st, (evidence_restored ev (downgraded_region (sequence s) st));
      (split; [done|]); (split; [done|]); (split; [by destruct Hd|]); exact (f_equal (emplace _ _) live_regions).
Qed.

Lemma restore_region_sound image acc id :
  regions_sound image acc → regions_sound image (restore_region image acc id).
Proof.
  intros Hs. destruct (restore_region_spec image acc id) as (_ & _ & [(st & r & Hst & Hid & Hd & E)|[E _]]).
  - intros k r'. rewrite E, lookup_emplace. case_decide; [|apply Hs]. subst k.
    destruct (regions acc.1.1 !! id) as [r2|] eqn:E2; simpl; intros [= <-]; [by apply Hs|eauto].
  - intros k r. rewrite E. apply Hs.
Qed.

Lemma restore_region_complete image l acc k st :
  k ∈ l ∨ is_Some (regions acc.1.1 !! k) → img_regions image !! k = Some st → r_id st = k →
  is_Some (regions (foldl (restore_region image) acc l).1.1 !! k).
Proof.
  intros Hk Hst Hid. revert acc Hk. induction l as [|x l IH]; intros acc Hk; simpl.
  { destruct Hk as [Hk|]; [|done]. by apply not_elem_of_nil in Hk. }
  apply IH. rewrite elem_of_cons in Hk.
  destruct (restore_region_spec image acc x) as (_ & _ & [(st' & r & Hst' & _ & _ & E)|[E Hbad]]); rewrite E.
  - rewrite lookup_emplace. destruct Hk as [[<-|]|[r2 Hr2]]; [right|by left|right].
    + rewrite decide_True by done. eauto.
    + case_decide; subst; rewrite Hr2; eauto.
  - destruct Hk as [[<-|]|]; [|by left|by right]. by destruct (Hbad _ Hst).
Qed.
(** ** Synchronizations *)

(** A transfer that is not in flight. *)
Definition not_in_flight (y : SyncRecord) : Prop :=
  match y_state y with
  | SyncState.Planned | SyncState.Requested | SyncState.InProgress => False
  | _ => True
  end.

Definition syncs_sound image acc : Prop :=
  ∀ k y, syncs acc.1.1 !! k = Some y → not_in_flight y ∧ ∃ st, img_syncs image !! k = Some st ∧
    y_object y = y_object st ∧ y_destination_region y = y_destination_region st.

Lemma restore_sync_sound image acc id :
  syncs_sound image acc → syncs_sound image (restore_sync image acc id).
Proof.
  destruct acc as [[s rep] bad]. unfold restore_sync. intros Hs.
  destruct (img_syncs image !! id) as [st|] eqn:E; [|done]. case_decide as Hid; [done|]. subst id.
  intros k y. cbn [fst]. simpl. rewrite lookup_emplace. case_decide as Hk; [|apply Hs].
  assert (y_id st = k) as <- by (rewrite <-Hk; unfold restored_sync; by case_match).
  destruct (syncs s !! y_id st) as [y2|] eqn:E2; simpl; intros [= <-]; [by apply Hs|].
  unfold restored_sync, unsettled_sync. split; [|exists st; by case_match].
  unfold not_in_flight. destruct (y_state st) eqn:Es; simpl; try done; by rewrite Es.
Qed.

Lemma restore_sync_others image acc id :
  (objects (restore_sync image acc id).1.1, regions (restore_sync image acc id).1.1)
  = (objects acc.1.1, regions acc.1.1).
Proof. destruct acc as [[s rep] bad]. unfold restore_sync. repeat case_match; done. Qed.

(** ** The whole image *)

Record restored image s : Prop := {
  rs_objects : ∀ k o, objects s !! k = Some o →
    ∃ st, img_objects image !! k = Some st ∧ o_id st = k ∧ recovered_from image st o;
  rs_objects_complete : ∀ k st, img_objects image !! k = Some st → o_id st = k → is_Some (objects s !! k);
  rs_regions : ∀ k r, regions s !! k = Some r →
    ∃ st, img_regions image !! k = Some st ∧ r_id st = k ∧ downgraded_from st r;
  rs_regions_complete : ∀ k st, img_regions image !! k = Some st → r_id st = k → is_Some (regions s !! k);
  rs_syncs : ∀ k y, syncs s !! k = Some y → not_in_flight y ∧ ∃ st, img_syncs image !! k = Some st ∧
    y_object y = y_object st ∧ y_destination_region y = y_destination_region st }.

Lemma restored_live image s s' :
  objects s' = objects s → regions s' = regions s → syncs s' = syncs s → restored image s → restored image s'.
Proof. intros Ho Hr Hy []. split; rewrite ?Ho, ?Hr, ?Hy; auto. Qed.

Lemma restore_image_restored image prev rep s :
  objects s = ∅ → regions s = ∅ → syncs s = ∅ → restored image (restore_image image prev rep s).1.1.
Proof.
  intros Ho Hr Hy. unfold restore_image.
  set (a1 := foldl (restore_domain image) _ _). set (a2 := foldl (restore_participant image) _ _).
  set (a3 := foldl (restore_policy image) _ _). set (a5 := foldl (restore_invalidation image) _ _).
  set (a6 := foldl (restore_sync image) _ _). set (a7 := foldl (restore_object image prev) _ _).
  assert (E5 : live_maps a5 = (∅, ∅, ∅)).
  { subst a5. rewrite foldl_frame by (intros; apply restore_invalidation_maps).
    rewrite note_mismatches_maps. subst a3. rewrite foldl_frame by (intros; apply restore_policy_maps).
    subst a2. rewrite foldl_frame by (intros; apply restore_participant_maps).
    subst a1. rewrite foldl_frame by (intros; apply restore_domain_maps).
    unfold live_maps. cbn [fst snd]. by rewrite Ho, Hr, Hy. }
  clearbody a5. clear a1 a2 a3. injection E5 as Ho5 Hr5 Hy5.
  assert (E6 : (objects a6.1.1, regions a6.1.1) = (∅, ∅)).
  { subst a6. etrans; [apply (foldl_frame _ (λ a, (objects a.1.1, regions a.1.1))), restore_sync_others|].
    by rewrite Ho5, Hr5. }
  assert (S6 : syncs_sound image a6).
  { subst a6. apply (foldl_preserves (λ a b, syncs_sound image a → syncs_sound image b)); auto.
    - intros. by apply restore_sync_sound.
    - intros k y. by rewrite Hy5. }
  clearbody a6. injection E6 as Ho6 Hr6.
  assert (E7 : (regions a7.1.1, syncs a7.1.1) = (∅, syncs a6.1.1)).
  { subst a7. etrans; [apply (foldl_frame _ (λ a, (regions a.1.1, syncs a.1.1))), restore_object_others|].
    by rewrite Hr6. }
  assert (S7 : objects_sound image a7).
  { subst a7. apply (foldl_preserves (λ a b, objects_sound image a → objects_sound image b)); auto.
    - intros. by apply restore_object_sound.
    - intros k o. by rewrite Ho6. }
  assert (C7 : ∀ k st, img_objects image !! k = Some st → o_id st = k → is_Some (objects a7.1.1 !! k)).
  { intros k st Hst Hid. subst a7. eapply restore_object_complete; [|done..].
    left. apply elem_of_sorted_keys. eauto. }
  clearbody a7. injection E7 as Hr7 Hy7.
  set (a8 := foldl (restore_region image) _ _).
  assert (E8 : (objects a8.1.1, syncs a8.1.1) = (objects a7.1.1, syncs a6.1.1)).
  { subst a8. etrans; [apply (foldl_frame _ (λ a, (objects a.1.1, syncs a.1.1)))|by rewrite Hy7].
    intros a x. by destruct (restore_region_spec image a x) as (-> & -> & _). }
  assert (S8 : regions_sound image a8).
  { subst a8. apply (foldl_preserves (λ a b, regions_sound image a → regions_sound image b)); auto.
    - intros. by apply restore_region_sound.
    - intros k r. by rewrite Hr7. }
  injection E8 as Ho8 Hy8. split.
  - rewrite Ho8. exact S7.
  - rewrite Ho8. exact C7.
  - exact S8.
  - intros k st Hst Hid. subst a8. eapply restore_region_complete; [|done..].
    left. apply elem_of_sorted_keys. eauto.
  - rewrite Hy8. exact S6.
Qed.

Lemma recover_restored load image s : restored image (recover load image s).1.
Proof.
  unfold recover.
  match goal with |- context [restore_image image ?p ?r ?x] =>
    pose proof (restore_image_restored image p r x eq_refl eq_refl eq_refl) as R;
    destruct (restore_image image p r x) as [[s1 rep] bad] end.
  cbn [fst] in R. live_step.
  assert (R2 : restored image s0) by (eapply restored_live; [..|exact R]; by rewrite L).
  clear R L. destruct (ok w); live_step; cbn [fst]; eapply restored_live; [..|exact R2| | | |exact R2];
    simpl; rewrite ?record_decision_live, ?L; simpl; rewrite ?compact_live; done.
Qed.

(** The invariants hold right after a recovery. *)
Lemma restored_objects_inv image s : restored image s → objects_inv s.
Proof. intros R k o Hk. destruct (rs_objects _ _ R _ _ Hk) as (st & _ & <- & Hr). by eapply recovered_init. Qed.

Lemma restored_regions_inv image s : image_ok image → restored image s → regions_inv s.
Proof.
  intros Hok R k r Hk. destruct (rs_regions _ _ R _ _ Hk) as (st & Hst & Hid & []).
  destruct (io_regions _ Hok _ _ Hst) as (_ & so & Hso & Hoid & Hin & Hx).
  destruct (rs_objects_complete _ _ R _ _ Hso Hoid) as [o Ho].
  destruct (rs_objects _ _ R _ _ Ho) as (so' & Hso' & _ & []). simplify_eq.
  split; [congruence|]. exists o. split_and!; [congruence|congruence|congruence|].
  intros Hc. destruct dg_state0 as [|[|]]; congruence.
Qed.

Lemma restored_syncs_inv image s : image_ok image → restored image s → syncs_inv s.
Proof.
  intros Hok R k y Hk. destruct (rs_syncs _ _ R _ _ Hk) as (_ & st & Hst & Ho & Hd).
  destruct (io_syncs _ Hok _ _ Hst) as (sr & Hsr & Hobj).
  destruct (io_regions _ Hok _ _ Hsr) as (Hid & _).
  destruct (rs_regions_complete _ _ R _ _ Hsr Hid) as [r Hr].
  destruct (rs_regions _ _ R _ _ Hr) as (sr' & Hsr' & _ & []). simplify_eq.
  exists r. rewrite Hd. split; congruence.
Qed.

(** ** Invalidations and participants *)

(** Nothing waits for an acknowledgement and nobody is live. *)
Definition quiet s : Prop :=
  map_Forall (λ _ i, i_state i ≠ InvalidationState.Requested) (invalidations s) ∧
  map_Forall (λ _ p, p_live p = false) (participants s).

Lemma quiet_same s s' :
  invalidations s' = invalidations s → participants s' = participants s → quiet s → quiet s'.
Proof. unfold quiet. by intros -> ->. Qed.

Lemma emplace_forall {K A} `{Countable K} (P : A → Prop) (m : gmap K A) k a :
  map_Forall (λ _, P) m → P a → map_Forall (λ _, P) (emplace k a m).
Proof. intros Hm Ha. unfold emplace. case_match; [done|]. by apply map_Forall_insert_2. Qed.

Lemma restore_participant_quiet image acc id : quiet acc.1.1 → quiet (restore_participant image acc id).1.1.
Proof.
  destruct acc as [[s rep] bad]. intros [Hi Hp]. unfold restore_participant.
  case_match; [|done]. case_match; [done|]. split; [done|]. by apply emplace_forall.
Qed.

Lemma restore_invalidation_quiet image acc id : quiet acc.1.1 → quiet (restore_invalidation image acc id).1.1.
Proof.
  destruct acc as [[s rep] bad]. intros [Hi Hp]. unfold restore_invalidation.
  case_match; [|done]. case_match; [done|]. split; [|done]. apply emplace_forall; [done|].
  unfold restored_invalidation, unsettled_invalidation. case_bool_decide; simpl; congruence.
Qed.

Lemma restore_region_frame image acc id :
  invalidations (restore_region image acc id).1.1 = invalidations acc.1.1 ∧
  participants (restore_region image acc id).1.1 = participants acc.1.1 ∧
  epoch (restore_region image acc id).1.1 = epoch acc.1.1.
Proof.
  destruct acc as [[s rep] bad]. unfold restore_region. case_match; [|done]. case_match; [done|].
  destruct (terminal_region r); [by case_match|]. live_step. destruct L. by case_match.
Qed.

Lemma restore_image_quiet image prev rep s :
  invalidations s = ∅ → participants s = ∅ → quiet (restore_image image prev rep s).1.1.
Proof.
  intros Hi Hp. unfold restore_image.
  assert (Hfold : ∀ {B} (f : RecoveryAcc → B → RecoveryAcc) l acc,
    (∀ acc x, quiet acc.1.1 → quiet (f acc x).1.1) → quiet acc.1.1 → quiet (foldl f acc l).1.1).
  { intros B f l acc Hf Hq. apply (foldl_preserves (λ a b, quiet a.1.1 → quiet b.1.1)); auto. }
  repeat (apply Hfold; [|]); try (intros; by apply restore_participant_quiet);
    try (intros; by apply restore_invalidation_quiet).
  - intros acc x Hq. by eapply quiet_same; [apply restore_region_frame..|].
  - intros [[? ?] ?] x. unfold restore_object. repeat (case_match; simplify_eq; try done).
  - intros [[? ?] ?] x. unfold restore_sync. repeat (case_match; simplify_eq; try done).
  - set (acc := foldl (restore_policy image) _ _). assert (Hq : quiet acc.1.1).
    { subst acc. apply Hfold; [|apply Hfold; [intros; by apply restore_participant_quiet|apply Hfold]].
      - intros [[? ?] ?] x. unfold restore_policy. repeat (case_match; simplify_eq; try done).
      - intros [[? ?] ?] x. unfold restore_domain. repeat (case_match; simplify_eq; try done).
      - unfold quiet. cbn [fst]. rewrite Hi, Hp. split; apply map_Forall_empty. }
    destruct acc as [[? ?] ?]. unfold note_mismatches. by case_match.
Qed.

Lemma retotal_quiet s : quiet s → quiet (retotal_participant_regions_locked s).
Proof.
  intros [Hi Hp]. split; [done|]. simpl.
  apply (foldl_preserves (λ m m', map_Forall (λ _ p, p_live p = false) m → map_Forall (λ _ p, p_live p = false) m'));
    auto.
  - intros m r Hm k p. unfold count_region. rewrite lookup_alter. case_decide; subst.
    + destruct (m !! _) as [p0|] eqn:E; [|done]. intros [= <-]. simpl. by eapply Hm.
    + apply Hm.
  - intros k p. rewrite lookup_fmap. destruct (participants s !! k) as [p0|] eqn:E; [|done].
    intros [= <-]. simpl. by eapply Hp.
Qed.

Lemma recover_quiet load image s : quiet (recover load image s).1.
Proof.
  unfold recover.
  match goal with |- context [restore_image image ?p ?r ?x] =>
    pose proof (restore_image_quiet image p r x eq_refl eq_refl) as Q;
    destruct (restore_image image p r x) as [[s1 rep] bad] end.
  cbn [fst] in Q.
  assert (Q1 : quiet (retotal_participant_regions_locked
    (s1 <| next_journal_sequence ::= raise_counter (@from_value OperationSequenceTag (img_sequence image)) |>))).
  { apply retotal_quiet. exact Q. }
  live_step. assert (Q2 : quiet s0) by (eapply quiet_same; [..|exact Q1]; by rewrite L).
  clear Q Q1 L. destruct (ok w); live_step; cbn [fst]; eapply quiet_same; [..|exact Q2| | |exact Q2];
    simpl; rewrite ?record_decision_live, ?L; simpl; rewrite ?compact_live; done.
Qed.

(** What holds of every restored participant, and does not depend on the number
    of its regions, holds of every participant after a recovery. *)
Lemma retotal_participants (P : ParticipantId → ParticipantRecord → Prop) s :
  (∀ k p n, P k p → P k (p <| p_region_count := n |>)) →
  map_Forall P (participants s) → map_Forall P (participants (retotal_participant_regions_locked s)).
Proof.
  intros HP Hp. simpl. apply (foldl_preserves (λ m m', map_Forall P m → map_Forall P m')); auto.
  - intros m r Hm k p. unfold count_region. rewrite lookup_alter. case_decide; subst; [|apply Hm].
    destruct (m !! _) as [p0|] eqn:E; [|done]. intros [= <-]. by apply HP, Hm.
  - intros k p. rewrite lookup_fmap. destruct (participants s !! k) as [p0|] eqn:E; [|done].
    intros [= <-]. by apply HP, Hp.
Qed.

Lemma restore_image_participants (P : ParticipantId → ParticipantRecord → Prop) image prev rep s :
  (∀ k st, img_participants image !! k = Some st → p_id st = k → P k (restored_participant st)) →
  participants s = ∅ → map_Forall P (participants (restore_image image prev rep s).1.1).
Proof.
  intros HP Hp. unfold restore_image.
  set (ok (acc : @RecoveryAcc St) := map_Forall P (participants acc.1.1)).
  assert (Hframe : ∀ {B} (f : RecoveryAcc → B → RecoveryAcc) l acc,
    (∀ acc x, participants (f acc x).1.1 = participants acc.1.1) → ok acc → ok (foldl f acc l)).
  { intros B f l acc Hf. unfold ok. by rewrite (foldl_frame f (λ a, participants a.1.1)). }
  apply Hframe; [intros acc x; apply restore_region_frame|].
  apply Hframe; [intros [[? ?] ?] x; unfold restore_object; by repeat (case_match; simplify_eq)|].
  apply Hframe; [intros [[? ?] ?] x; unfold restore_sync; by repeat (case_match; simplify_eq)|].
  apply Hframe; [intros [[? ?] ?] x; unfold restore_invalidation; by repeat (case_match; simplify_eq)|].
  assert (Hnote : ∀ acc, ok acc → ok (note_mismatches acc)).
  { intros [[? ?] ?]. unfold note_mismatches. by case_match. }
  apply Hnote.
  apply Hframe; [intros [[? ?] ?] x; unfold restore_policy; by repeat (case_match; simplify_eq)|].
  apply (foldl_inv ok).
  - intros [[x r] b] id Hok. unfold restore_participant. destruct (img_participants image !! id) as [st|] eqn:E; [|done].
    case_decide as Hid; [done|]. subst id. unfold ok in *. simpl in *.
    intros k p. rewrite lookup_emplace. case_decide; [|apply Hok]. subst k.
    destruct (participants x !! _) as [q|] eqn:E2; intros [= <-]; [by apply Hok|by apply HP].
  - apply Hframe; [intros [[? ?] ?] x; unfold restore_domain; by repeat (case_match; simplify_eq)|].
    unfold ok. simpl. rewrite Hp. apply map_Forall_empty.
Qed.

Lemma recover_participants (P : ParticipantId → ParticipantRecord → Prop) load image s :
  (∀ k st, img_participants image !! k = Some st → p_id st = k → P k (restored_participant st)) →
  (∀ k p n, P k p → P k (p <| p_region_count := n |>)) →
  map_Forall P (participants (recover load image s).1).
Proof.
  intros HP Hn. unfold recover.
  match goal with |- context [restore_image image ?p ?r ?x] =>
    pose proof (restore_image_participants P image p r x HP eq_refl) as Q;
    destruct (restore_image image p r x) as [[s1 rep] bad] end.
  cbn [fst] in Q.
  assert (Q1 : map_Forall P (participants (retotal_participant_regions_locked
    (s1 <| next_journal_sequence ::= raise_counter (@from_value OperationSequenceTag (img_sequence image)) |>)))).
  { by apply retotal_participants. }
  live_step. assert (Q2 : map_Forall P (participants s0)) by (by rewrite (live_participants _ _ L)).
  clear Q Q1 L. destruct (ok w); live_step; cbn [fst]; simpl;
    rewrite (live_participants _ _ (record_decision_live _ _ _ _)), (live_participants _ _ L); simpl;
    by rewrite (live_participants _ _ (compact_live _)).
Qed.

(** The epoch of the recovered engine. *)
(** What restoring an image leaves alone: the store, the epoch, and the counters
    of publications and leases. *)
Definition recovery_frame s :=
  (config s, store s, durable s, store_healthy s, epoch s, next_publication_id s, next_lease_id s).

(** One restored record. *)
Ltac restored_record :=
  intros [[??]?] ?; unfold restore_region, restore_object, restore_sync, restore_invalidation, restore_policy,
    restore_participant, restore_domain, make_evidence;
  repeat case_match; simplify_eq; done.

Lemma restore_image_frame image prev rep s :
  recovery_frame (restore_image image prev rep s).1.1 = recovery_frame s.
Proof.
  assert (Hfold : ∀ {B} (f : RecoveryAcc → B → RecoveryAcc) l acc,
    (∀ acc x, recovery_frame (f acc x).1.1 = recovery_frame acc.1.1) →
    recovery_frame (foldl f acc l).1.1 = recovery_frame acc.1.1).
  { intros B f l acc. apply (foldl_frame f (λ acc : RecoveryAcc, recovery_frame acc.1.1)). }
  unfold restore_image. do 4 (rewrite Hfold; [|restored_record]).
  match goal with |- recovery_frame (note_mismatches ?acc).1.1 = _ => transitivity (recovery_frame acc.1.1) end.
  { unfold note_mismatches. destruct (foldl _ _ _) as [[??]?]. by case_match. }
  do 3 (rewrite Hfold; [|restored_record]). done.
Qed.

Lemma restore_image_epoch image prev rep s : epoch (restore_image image prev rep s).1.1 = epoch s.
Proof. pose proof (restore_image_frame image prev rep s) as E. by injection E. Qed.

Lemma recover_epoch load image s : epoch (recover load image s).1 = next_epoch image (config s).
Proof.
  unfold recover.
  match goal with |- context [restore_image image ?p ?r ?x] =>
    pose proof (restore_image_epoch image p r x) as E;
    destruct (restore_image image p r x) as [[s1 rep] bad] end.
  cbn [fst] in E. live_step. assert (E2 : epoch s0 = next_epoch image (config s)) by (rewrite L; exact E).
  clear E L. destruct (ok w); live_step; cbn [fst]; simpl; rewrite ?record_decision_live, ?L; simpl;
    rewrite ?compact_live; done.
Qed.
End recovery.
