(* ===== verification/System.v ===== *)
(** * The running engine

    The engine as a transition system.  An operation that holds the state
    mutex throughout is one atomic step; a publication is three steps, with
    any other step in between ([Flight] is a publication between its phases).
    Failures of the store, refused requests and shutdown are all steps. *)
From S2P Require Import Prelude Ids Enums Status Bytes Policy Evidence Model Decisions Persistence.
From S2P Require Import Engine Resolve Core Registry Read Write Invalidate Publish Sync Recovery.
From S2P Require Import Auditor Frame Evolution Steps RecoveryFacts.

(** The operations of [CoherenceEngine] that run in one critical section. *)
Inductive op :=
| OpCreateDomain (name : string)
| OpRegisterParticipant (name : string) (boot : ParticipantBootId) (ep : CoordinatorEpoch) (label : string)
| OpMarkSessionClosed (id : ParticipantId) (boot : ParticipantBootId)
| OpFenceParticipant (id : ParticipantId) (ep : CoordinatorEpoch) (reason : string)
| OpRegisterObject (domain : CoherenceDomainId) (name : string) (length : N) (policy : CoherencePolicy)
| OpSetPolicy (id : ObjectId) (g : ObjectGeneration) (e : PolicyGeneration) (policy : CoherencePolicy)
| OpRegisterRegion (rn : RegionRegistration)
| OpRetireRegion (id : RegionId) (g : RegionGeneration) (ep : CoordinatorEpoch)
| OpResolveRecovery (id : ObjectId) (g : ObjectGeneration) (ep : CoordinatorEpoch) (note : string)
| OpRetireObject (id : ObjectId) (g : ObjectGeneration) (ep : CoordinatorEpoch)
| OpAcquireRead (request : ReadRequest)
| OpExplainRead (request : ReadRequest)
| OpAcquireWrite (request : WriteRequest)
| OpMarkDirty (request : DirtyRequest)
| OpInvalidate (request : InvalidationRequest)
| OpAcknowledge (ack : InvalidationAck)
| OpRevalidate (request : RevalidateRequest)
| OpRelease (request : ReleaseRequest)
| OpBeginSync (request : SyncRequest)
| OpCompleteSync (request : SyncCompleteRequest)
| OpFailSync (request : SyncFailRequest)
| OpBeginShutdown (ep : CoordinatorEpoch)
| OpCompleteShutdown (ep : CoordinatorEpoch)
| OpFlush.

Section system.
Context {St : Type} `{DurableStore St}.
Implicit Types s : Impl St.

(** The state an operation leaves behind. *)
Definition exec (o : op) s : Impl St :=
  match o with
  | OpCreateDomain name => (create_domain name s).1
  | OpRegisterParticipant name boot ep label => (register_participant name boot ep label s).1
  | OpMarkSessionClosed id boot => (mark_session_closed id boot s).1
  | OpFenceParticipant id ep reason => (fence_participant id ep reason s).1
  | OpRegisterObject d n l p => (register_object d n l p s).1
  | OpSetPolicy id g e p => (set_policy id g e p s).1
  | OpRegisterRegion rn => (register_region rn s).1
  | OpRetireRegion id g ep => (retire_region id g ep s).1
  | OpResolveRecovery id g ep note => (resolve_recovery id g ep note s).1
  | OpRetireObject id g ep => (retire_object id g ep s).1
  | OpAcquireRead r => (acquire_read r s).1
  | OpExplainRead r => (explain_read r s).1
  | OpAcquireWrite r => (acquire_write r s).1
  | OpMarkDirty r => (mark_dirty r s).1
  | OpInvalidate r => (invalidate r s).1
  | OpAcknowledge a => (acknowledge_invalidation a s).1
  | OpRevalidate r => (revalidate_region r s).1
  | OpRelease r => (release r s).1
  | OpBeginSync r => (begin_sync r s).1
  | OpCompleteSync r => (complete_sync r s).1
  | OpFailSync r => (fail_sync r s).1
  | OpBeginShutdown ep => (begin_shutdown ep s).1
  | OpCompleteShutdown ep => (complete_shutdown ep s).1
  | OpFlush => (flush_durable s).1
  end.

(** A publication between its phases: reserved, or appended with a status. *)
Definition Flight : Type := PublishLocals * option StatusCode.t.

Record Sys := mkSys { sys_engine : Impl St; sys_flights : list Flight }.

(** One step; [P] restricts the images a store may hold when it is attached. *)
Inductive step (P : DurableImage → Prop) : Sys → Sys → Prop :=
| step_op s fs o : step P (mkSys s fs) (mkSys (exec o s) fs)
| step_reserve s fs request s' locals :
    publish_reserve request s = (s', inr locals) →
    step P (mkSys s fs) (mkSys s' (fs ++ [(locals, None)]))
| step_refuse s fs request s' answer :
    publish_reserve request s = (s', inl answer) →
    step P (mkSys s fs) (mkSys s' fs)
| step_append s fs1 fs2 locals s' status :
    publish_durable locals s = (s', status) →
    step P (mkSys s (fs1 ++ (locals, None) :: fs2)) (mkSys s' (fs1 ++ (locals, Some status) :: fs2))
| step_commit s fs1 fs2 locals status s' answer :
    publish_commit locals status s = (s', answer) →
    step P (mkSys s (fs1 ++ (locals, Some status) :: fs2)) (mkSys s' (fs1 ++ fs2))
| step_attach s fs st s' answer :
    (∀ st' load image, ds_open st = (st', success (load, image)) → P image) →
    attach_store st s = (s', answer) →
    step P (mkSys s fs) (mkSys s' fs).

(** The states a fresh engine can reach. *)
Definition reachable (P : DurableImage → Prop) (sys : Sys) : Prop :=
  ∃ cfg, rtc (step P) (mkSys (make_engine cfg) []) sys.

(** ** The commit of a publication *)

(** Marking one replica stale. *)
Definition stale_of (v : VersionId) (e k : RegionId) (r : RegionRecord) : RegionRecord :=
  if decide (k = e) then r else
  if decide (r_state r = CoherenceState.Current) then superseded_region v r else r.

Lemma mark_region_stale_lookup v e s id k :
  regions (mark_region_stale v e s id) !! k =
    if decide (id = k) then stale_of v e k <$> regions s !! k else regions s !! k.
Proof.
  unfold mark_region_stale, stale_of. destruct (decide (id = e)) as [->|Hne].
  { destruct (decide (e = k)) as [->|]; [|done].
    destruct (regions s !! k); simpl; [by rewrite decide_True | done]. }
  destruct (decide (id = k)) as [->|Hk].
  - destruct (regions s !! k) as [r|] eqn:E; simpl; [|done]. rewrite (decide_False (P := k = e)) by done.
    case_decide; [|by rewrite E]. rewrite upsert_region_live. simpl. by rewrite lookup_insert_eq.
  - case_match; [|done]. case_decide; [|done].
    rewrite upsert_region_live. simpl. by rewrite lookup_insert_ne.
Qed.

Lemma stale_of_idemp v e k r : stale_of v e k (stale_of v e k r) = stale_of v e k r.
Proof.
  unfold stale_of. destruct (decide (k = e)); [done|].
  destruct (decide (r_state r = CoherenceState.Current)) as [|Hc]; [done|]. by rewrite decide_False.
Qed.

Lemma stale_of_fixed v e k r : region_fixed r (stale_of v e k r).
Proof.
  unfold stale_of. destruct (decide (k = e)); [apply region_fixed_refl|].
  destruct (decide (r_state r = _)); [fixed|apply region_fixed_refl].
Qed.

Lemma stale_of_current v e k r : k ≠ e → r_state (stale_of v e k r) ≠ CoherenceState.Current.
Proof.
  intros. unfold stale_of. rewrite decide_False by done. by destruct (decide (r_state r = _)).
Qed.

Lemma mark_all_lookup v e l s k :
  regions (foldl (mark_region_stale v e) s l) !! k =
    if decide (k ∈ l) then stale_of v e k <$> regions s !! k else regions s !! k.
Proof.
  revert s. induction l as [|x l IH]; intros s; [done|]. cbn [foldl].
  rewrite IH, mark_region_stale_lookup.
  destruct (decide (x = k)) as [->|Hne].
  - rewrite (decide_True (P := k ∈ k :: l)) by set_solver.
    case_decide; [|done]. destruct (regions s !! k); simpl; [by rewrite stale_of_idemp|done].
  - destruct (decide (k ∈ l)); [rewrite decide_True by set_solver | rewrite decide_False by set_solver]; done.
Qed.

Lemma mark_region_stale_objects v e s id : objects (mark_region_stale v e s id) = objects s.
Proof.
  unfold mark_region_stale. repeat (case_match; [done|]). case_match; [|done].
  case_match; [|done]. by rewrite upsert_region_live.
Qed.
Lemma mark_region_stale_syncs v e s id : syncs (mark_region_stale v e s id) = syncs s.
Proof.
  unfold mark_region_stale. repeat (case_match; [done|]). case_match; [|done].
  case_match; [|done]. by rewrite upsert_region_live.
Qed.
(** What authority validation reads besides the objects. *)
Definition frame_of s := (participants s, epoch s, shutting_down s, policies s).

Lemma frame_of_live s s' : live_eq s s' → frame_of s = frame_of s'.
Proof. intros []. unfold frame_of. congruence. Qed.
#[local] Instance frame_of_proper : Proper (live_eq ==> eq) frame_of.
Proof. exact frame_of_live. Qed.
Lemma mark_region_stale_frame v e s id : frame_of (mark_region_stale v e s id) = frame_of s.
Proof.
  unfold mark_region_stale. repeat (case_match; [done|]). case_match; [|done].
  case_match; [|done]. by rewrite (frame_of_live _ _ (upsert_region_live _ _)).
Qed.
Lemma mark_all_frame v e l s : frame_of (foldl (mark_region_stale v e) s l) = frame_of s.
Proof. apply (foldl_frame _ frame_of), mark_region_stale_frame. Qed.
Lemma mark_all_objects v e l s : objects (foldl (mark_region_stale v e) s l) = objects s.
Proof. apply (foldl_frame _ (@objects St)), mark_region_stale_objects. Qed.
Lemma mark_all_syncs v e l s : syncs (foldl (mark_region_stale v e) s l) = syncs s.
Proof. apply (foldl_frame _ (@syncs St)), mark_region_stale_syncs. Qed.

(** The engine after a commit, map by map. *)
Record committed (l : PublishLocals) (o o' : ObjectRecord) s s' : Prop := {
  cm_object : ∃ lim seq, o' = committed_object l lim seq o;
  cm_frame : frame_of s' = frame_of s;
  cm_objects : objects s' = <[pp_object (pl_pending l) := o']> (objects s);
  cm_step : object_step o o';
  cm_version : o_authoritative_version o' = pp_version (pl_pending l);
  cm_published : o_published_version o' = pp_version (pl_pending l);
  cm_syncs : syncs s' = syncs s;
  cm_region : ∀ r, regions s !! pb_region (pl_request l) = Some r →
    ∃ r', regions s' !! pb_region (pl_request l) = Some r' ∧ region_fixed r r' ∧
          r_state r' = CoherenceState.Current ∧ r_version r' = pp_version (pl_pending l);
  cm_absent : regions s !! pb_region (pl_request l) = None → regions s' !! pb_region (pl_request l) = None;
  cm_others : ∀ k, k ≠ pb_region (pl_request l) →
    regions s' !! k = if decide (k ∈ o_replicas o)
                      then stale_of (pp_version (pl_pending l)) (pb_region (pl_request l)) k <$> regions s !! k
                      else regions s !! k }.

Lemma committed_step l lim seq o : object_step o (committed_object l lim seq o).
Proof. unfold committed_object. destruct (defined _); (split; try done); by intros [? _]. Qed.

Lemma committed_version l lim seq o :
  o_authoritative_version (committed_object l lim seq o) = pp_version (pl_pending l) ∧
  o_published_version (committed_object l lim seq o) = pp_version (pl_pending l) ∧
  o_id (committed_object l lim seq o) = o_id o ∧ o_replicas (committed_object l lim seq o) = o_replicas o.
Proof. unfold committed_object. by destruct (defined _). Qed.

Lemma publish_from_region_spec l o s :
  objects (publish_from_region l o s) = objects s ∧ syncs (publish_from_region l o s) = syncs s ∧
  frame_of (publish_from_region l o s) = frame_of s ∧
  (∀ k, k ≠ pb_region (pl_request l) → regions (publish_from_region l o s) !! k = regions s !! k) ∧
  (∀ r, regions s !! pb_region (pl_request l) = Some r →
    ∃ r', regions (publish_from_region l o s) !! pb_region (pl_request l) = Some r' ∧ region_fixed r r' ∧
          r_state r' = CoherenceState.Current ∧ r_version r' = pp_version (pl_pending l)) ∧
  (regions s !! pb_region (pl_request l) = None →
    regions (publish_from_region l o s) !! pb_region (pl_request l) = None).
Proof.
  unfold publish_from_region. destruct (regions s !! _) as [r|] eqn:E; [|by split_and!].
  live_step. split_and!; [apply L|apply L|exact (frame_of_live _ _ L)| | |done].
  - intros k Hk. simpl. rewrite lookup_insert_ne by done. by rewrite L.
  - intros ? [= <-]. eexists. simpl. rewrite lookup_insert_eq. split; [done|]. split; [fixed|]. done.
Qed.

Lemma commit_publication_spec l o s :
  objects s !! pp_object (pl_pending l) = Some o → o_id o = pp_object (pl_pending l) →
  ∃ o', committed l o o' s (commit_publication l o s).1.
Proof.
  intros Ho Hid. unfold commit_publication.
  set (o' := committed_object _ _ _ o). exists o'.
  destruct (committed_version l (cfg_max_retained_requests_per_object (config (tick s))) (sequence (tick s)) o)
    as (Hv & Hp & Hid' & Hrep). fold o' in Hv, Hp, Hid', Hrep.
  set (s1 := set_object _ o' _).
  destruct (publish_from_region_spec l o' s1) as (Ho2 & Hy2 & Hf2 & Hr2 & Hpub & Habs). set (s2 := publish_from_region l o' s1) in *.
  assert (E : ∀ v e, mark_regions_stale_locked (o_id o') v e s2
                     = foldl (mark_region_stale v e) s2 (o_replicas o)).
  { intros v e. unfold mark_regions_stale_locked. rewrite Ho2, Hid', Hid. subst s1. simpl.
    by rewrite lookup_insert_eq, Hrep. }
  rewrite E. set (s3 := foldl _ s2 _).
  assert (L : ∀ x, live_eq x s3 → objects x = <[pp_object (pl_pending l) := o']> (objects s) ∧
    syncs x = syncs s ∧ frame_of x = frame_of s ∧ ∀ k, regions x !! k = if decide (k ∈ o_replicas o)
      then stale_of (pp_version (pl_pending l)) (pb_region (pl_request l)) k <$> regions s2 !! k else regions s2 !! k).
  { intros x Lx. rewrite Lx. subst s3. rewrite mark_all_objects, Ho2, mark_all_syncs, Hy2.
    split; [done|]. split; [done|]. split.
    - rewrite mark_all_frame, Hf2. done.
    - intros k. rewrite Lx. apply mark_all_lookup. }
  destruct (L (maybe_compact_locked
      (record_decision DecisionKind.Publish (pr_context (receipt_with PublicationState.Committed StatusCode.Ok
         (pl_receipt l) <| pr_durable := pl_durable_required l |>)) StatusCode.Ok
         (append_many_locked (commit_entries l o' s3) s3).1)).1) as (Hobj & Hsync & Hfr & Hreg).
  { rewrite maybe_compact_live, record_decision_live. apply append_many_locked_live. }
  split; try done.
  - by eexists _, _.
  - apply committed_step.
  - intros r Hr. destruct (Hpub r Hr) as (r' & Hr' & Hf & Hst & Hver).
    exists r'. split; [|done]. cbn [fst]. rewrite Hreg, Hr'.
    destruct (decide (_ ∈ _)); [|done]. simpl. unfold stale_of. by rewrite decide_True.
  - intros Hn. cbn [fst]. rewrite Hreg, (Habs Hn). by destruct (decide (_ ∈ _)).
  - intros k Hk. cbn [fst]. rewrite Hreg, (Hr2 k Hk). done.
Qed.

Lemma committed_start l o o' s0 s s' :
  objects s0 = objects s → regions s0 = regions s → syncs s0 = syncs s → frame_of s0 = frame_of s →
  committed l o o' s0 s' → committed l o o' s s'.
Proof. intros Ho Hr Hy Hf []. split; rewrite <-?Ho, <-?Hr, <-?Hy, <-?Hf; auto. Qed.

(** Phase 3 aborts, which is an evolution, or commits. *)
Lemma publish_commit_cases l c s s' a :
  objects_inv s → publish_commit l c s = (s', a) →
  evolves s s' ∨
  ∃ o o', objects s !! pp_object (pl_pending l) = Some o ∧ reservation_intact l o = true ∧
          c = StatusCode.Ok ∧ committed l o o' s s'.
Proof.
  intros Hinv. unfold publish_commit.
  set (s1 := s <| in_flight_publications ::= _ |>).
  destruct (objects s1 !! _) as [o|] eqn:Eo; [|intros [= <- <-]; left; subst s1; ends].
  assert (Eo' : objects s !! pp_object (pl_pending l) = Some o) by exact Eo.
  destruct (negb (ok c)) eqn:Ec.
  { intros [= <- <-]. left. strip. eapply evolves_end_object; [exact Eo|apply aborted_keep|subst s1; strip]. }
  pose proof (apply_pending_entry_live l s1) as L. set (s2 := apply_pending_entry l s1) in *. clearbody s2.
  destruct (negb (reservation_intact l o)) eqn:Er.
  { intros [= <- <-]. left. strip. eapply evolves_end_live; [apply clear_superseded_live|].
    eapply evolves_end_object; [rewrite L; exact Eo|apply aborted_keep|]. strip. subst s1. strip. }
  intros E. right. apply negb_false_iff in Ec, Er.
  destruct (commit_publication_spec l o s2) as [o' Hc].
  - by rewrite L.
  - by destruct (Hinv _ _ Eo').
  - exists o, o'. split; [done|]. split; [done|]. split; [by destruct c|].
    rewrite E in Hc. eapply committed_start; [..|exact Hc]; [by rewrite L..|]. by rewrite (frame_of_live _ _ L).
Qed.

(** ** The invariants *)

(** A publication between its phases still has its object and its replica. *)
Definition flight_ok s (f : Flight) : Prop :=
  pp_version (pl_pending f.1) = next_version (pl_base f.1) ∧
  is_Some (objects s !! pp_object (pl_pending f.1)) ∧
  ∃ r, regions s !! pb_region (pl_request f.1) = Some r ∧ r_object r = pp_object (pl_pending f.1).

Lemma flight_ok_evolves s s' f : evolves s s' → flight_ok s f → flight_ok s' f.
Proof.
  intros E (Hv & [o Ho] & r & Hr & Hobj). split; [done|]. split.
  - destruct (proj1 (ev_objects _ _ E) _ _ Ho) as (o' & ? & _). eauto.
  - destruct (proj1 (ev_regions _ _ E) _ _ Hr) as (r' & ? & [[] _]). exists r'. split; congruence.
Qed.

Lemma committed_objects_inv l o o' s s' :
  objects s !! pp_object (pl_pending l) = Some o → committed l o o' s s' → objects_inv s → objects_inv s'.
Proof.
  intros Ho [] Hinv k x. rewrite cm_objects0. destruct (decide (pp_object (pl_pending l) = k)) as [<-|].
  - rewrite lookup_insert_eq. intros [= <-]. destruct (Hinv _ _ Ho) as (? & ? & ? & ?).
    destruct cm_step0. split_and!; auto. congruence.
  - rewrite lookup_insert_ne by done. apply Hinv.
Qed.

(** The commit makes its own replica current at the new version and demotes
    every other current replica of the object. *)
Lemma committed_regions_inv l o o' s s' :
  objects s !! pp_object (pl_pending l) = Some o → committed l o o' s s' →
  flight_ok s (l, None) → regions_inv s → regions_inv s'.
Proof.
  intros Ho [] (_ & _ & rp & Hrp & Hobj) Hinv k r' Hk. simpl in *.
  assert (Hobjs : ∀ j x, objects s !! j = Some x → ∃ x', objects s' !! j = Some x' ∧ object_step x x' ∧
    (j ≠ pp_object (pl_pending l) → x' = x)).
  { intros j x Hj. rewrite cm_objects0. destruct (decide (pp_object (pl_pending l) = j)) as [<-|Hne].
    - rewrite lookup_insert_eq. simplify_eq. by exists o'.
    - rewrite lookup_insert_ne by done. exists x. split_and!; [done|apply object_step_refl|done]. }
  destruct (decide (k = pb_region (pl_request l))) as [->|Hne].
  - destruct (cm_region0 _ Hrp) as (r2 & Hr2 & [] & Hst & Hver). simplify_eq.
    destruct (Hinv _ _ Hrp) as (Hid & x & Hx & Hin & Hext & _).
    destruct (Hobjs _ _ Hx) as (x' & Hx' & [] & _). split; [congruence|]. exists x'.
    split_and!; [congruence|auto|congruence|]. intros _ _.
    rewrite Hobj, cm_objects0, lookup_insert_eq in Hx'. simplify_eq. congruence.
  - rewrite (cm_others0 k Hne) in Hk.
    assert (∃ r, regions s !! k = Some r ∧ (r' = r ∧ k ∉ o_replicas o ∨
      k ∈ o_replicas o ∧ r' = stale_of (pp_version (pl_pending l)) (pb_region (pl_request l)) k r)) as (r & Hr & Hr').
    { case_decide; [|eauto]. destruct (regions s !! k) as [r|]; [|done]. simplify_eq/=. eauto 10. }
    destruct (Hinv _ _ Hr) as (Hid & x & Hx & Hin & Hext & Hcur).
    assert (Hf : region_fixed r r').
    { destruct Hr' as [[-> _]|[_ ->]]; [apply region_fixed_refl|].
      apply stale_of_fixed. }
    destruct (Hobjs _ _ Hx) as (x' & Hx' & [] & Hsame). destruct Hf. split; [congruence|]. exists x'.
    split_and!; [congruence|auto|congruence|]. intros Hst Hd.
    destruct (decide (r_object r = pp_object (pl_pending l))) as [Heq|Hneq].
    + rewrite Heq in Hx. simplify_eq. destruct Hr' as [[_ Hn]|[_ ->]]; [done|].
      by apply stale_of_current in Hst.
    + rewrite (Hsame Hneq) in *. destruct Hr' as [[-> _]|[_ ->]]; [by apply Hcur|].
      by apply stale_of_current in Hst.
Qed.

Lemma committed_keeps l o o' s s' :
  objects s !! pp_object (pl_pending l) = Some o → committed l o o' s s' →
  (∀ k, is_Some (objects s !! k) → is_Some (objects s' !! k)) ∧
  (∀ k r, regions s !! k = Some r → ∃ r', regions s' !! k = Some r' ∧ r_object r' = r_object r).
Proof.
  intros Ho []. split.
  - intros k Hk. rewrite cm_objects0. destruct (decide (pp_object (pl_pending l) = k)) as [<-|].
    + rewrite lookup_insert_eq. eauto.
    + by rewrite lookup_insert_ne.
  - intros k r Hr. destruct (decide (k = pb_region (pl_request l))) as [->|Hne].
    + destruct (cm_region0 _ Hr) as (r' & ? & [] & _). eauto.
    + rewrite (cm_others0 k Hne), Hr. case_decide; [|eauto]. simpl. eexists. split; [done|].
      apply stale_of_fixed.
Qed.
End system.
