(* ===== verification/Invariants.v ===== *)
(** * Invariants of every reachable state

    By induction on the run: every step is an evolution, a commit or a
    recovery, and each of the three keeps the invariants. *)
From S2P Require Import Prelude Ids Enums Status Bytes Policy Evidence Model Decisions Persistence.
From S2P Require Import Engine Resolve Core Registry Read Write Invalidate Publish Sync Recovery.
From S2P Require Import Auditor Frame Evolution Steps RecoveryFacts System.

Section invariants.
Context {St : Type} `{DurableStore St}.
Implicit Types (s : Impl St) (sys : @Sys St).

(** ** One step *)

(** An operation other than the beginning and the completion of a transfer is
    an evolution whenever the object invariant holds. *)
Lemma exec_evolves_objects o s :
  (∀ r, o ≠ OpBeginSync r) → (∀ r, o ≠ OpCompleteSync r) → objects_inv s → evolves s (exec o s).
Proof.
  intros Hb Hc Ho. destruct o; cbn [exec]; try (by destruct (Hb request)); try (by destruct (Hc request)).
  - apply create_domain_evolves.
  - apply register_participant_evolves.
  - apply mark_session_closed_evolves.
  - apply fence_participant_evolves.
  - apply register_object_evolves.
  - apply set_policy_evolves.
  - by apply register_region_evolves.
  - apply retire_region_evolves.
  - apply resolve_recovery_evolves.
  - apply retire_object_evolves.
  - apply acquire_read_evolves.
  - apply compute_read_evolves.
  - apply acquire_write_evolves.
  - apply mark_dirty_evolves.
  - apply invalidate_evolves.
  - apply acknowledge_evolves.
  - by apply revalidate_evolves.
  - apply release_evolves.
  - apply fail_sync_evolves.
  - apply begin_shutdown_evolves.
  - apply complete_shutdown_evolves.
  - apply flush_durable_evolves.
Qed.

Lemma exec_evolves o s : objects_inv s → regions_inv s → syncs_inv s → evolves s (exec o s).
Proof.
  intros Ho Hr Hy. destruct o; try (by apply exec_evolves_objects).
  - by apply begin_sync_evolves.
  - by apply complete_sync_evolves.
Qed.

Lemma exec_objects o s : objects_inv s → objects_evolve (objects s) (objects (exec o s)).
Proof.
  assert (Hrefl : objects_evolve (objects s) (objects s)) by apply evolves_refl.
  intros Ho. destruct o; try (by apply exec_evolves_objects); cbn [exec].
  - by rewrite begin_sync_objects.
  - by rewrite complete_sync_objects.
Qed.

Lemma objects_evolve_inv s s' : objects_evolve (objects s) (objects s') → objects_inv s → objects_inv s'.
Proof.
  intros [Ho Hi] Hinv k o' Hk. destruct (objects s !! k) as [o|] eqn:E; [|eauto].
  destruct (Ho _ _ E) as (o2 & ? & [[] _]). simplify_eq.
  destruct (Hinv _ _ E) as (? & ? & ? & ?). split_and!; auto. congruence.
Qed.

(** A store is attached to an engine without objects and leaves a restored one. *)
Lemma attach_store_cases st s s' a :
  attach_store st s = (s', a) →
  s' = s ∨ objects s = ∅ ∧
  ∃ st' load image rep, ds_open st = (st', success (load, image)) ∧ a = success rep ∧
    s' = (recover load image (s <| store := Some st' |>)).1.
Proof.
  unfold attach_store. case_decide as Hst; [intros [= <- <-]; by left|].
  destruct (decide (_ ∨ _)) as [|He]; [intros [= <- <-]; by left|].
  destruct (ds_open st) as [st' [[load image]|c]] eqn:Eo; [|intros [= <- <-]; by left].
  destruct (recover _ _ _) as [s1 rep] eqn:Er. intros [= <- <-]. right. split.
  - apply dec_stable. intros ?. apply He. auto.
  - exists st', load, image, rep. by rewrite Er.
Qed.

(** ** The object invariant: any store, any image *)

Lemma step_objects_inv P sys sys' :
  step P sys sys' → objects_inv (sys_engine sys) → objects_inv (sys_engine sys').
Proof.
  intros Hstep Hinv. destruct Hstep as [s fs o|s fs req s' l E|s fs req s' a E|s fs1 fs2 l s' c E
    |s fs1 fs2 l c s' a E|s fs st s' a HP E]; simpl in *.
  - eapply objects_evolve_inv; [by apply exec_objects|done].
  - eapply evolves_objects_inv; [|done]. pose proof (publish_reserve_evolves req s) as Hev. by rewrite E in Hev.
  - eapply evolves_objects_inv; [|done]. pose proof (publish_reserve_evolves req s) as Hev. by rewrite E in Hev.
  - pose proof (publish_durable_live l s) as L. rewrite E in L.
    eapply evolves_objects_inv; [by apply evolves_live|done].
  - destruct (publish_commit_cases l c s s' a Hinv E) as [Hev|(o & o' & Ho & _ & _ & Hc)].
    + by eapply evolves_objects_inv.
    + by eapply committed_objects_inv.
  - apply attach_store_cases in E as [->|(_ & st' & load & image & rep & _ & _ & ->)]; [done|].
    eapply restored_objects_inv, recover_restored.
Qed.

Lemma make_engine_inv cfg : objects_inv (@make_engine St cfg) ∧ regions_inv (@make_engine St cfg)
  ∧ syncs_inv (@make_engine St cfg).
Proof. split_and!; apply map_Forall_empty. Qed.

Lemma reachable_objects_inv P sys : reachable P sys → objects_inv (sys_engine sys).
Proof.
  intros [cfg Hrun]. remember (mkSys (make_engine cfg) []) as sys0 eqn:E0.
  assert (H0 : objects_inv (sys_engine sys0)) by (subst; apply make_engine_inv).
  clear E0. induction Hrun as [|x y z Hxy _ IH]; [done|]. apply IH. by eapply step_objects_inv.
Qed.

(** ** The full invariant: images whose replicas are listed by their objects *)

Record full_inv sys : Prop := {
  fi_objects : objects_inv (sys_engine sys);
  fi_regions : regions_inv (sys_engine sys);
  fi_syncs : syncs_inv (sys_engine sys);
  fi_flights : Forall (flight_ok (sys_engine sys)) (sys_flights sys) }.

Lemma full_inv_evolves s s' fs : evolves s s' → full_inv (mkSys s fs) → full_inv (mkSys s' fs).
Proof.
  intros E []. split; simpl in *.
  - by eapply evolves_objects_inv.
  - by eapply evolves_regions_inv.
  - by eapply evolves_syncs_inv.
  - eapply Forall_impl; [done|]. intros f. by apply flight_ok_evolves.
Qed.

(** What phase 1 leaves for the later phases. *)
Lemma publish_reserve_flight req s s' l :
  objects_inv s → publish_reserve req s = (s', inr l) → flight_ok s (l, None).
Proof.
  intros Hinv. unfold publish_reserve. live_step.
  destruct (resolve_locked _ s) as [[o p]|c] eqn:Er; [|done]. apply resolve_locked_success in Er.
  destruct (Hinv _ _ (res_object _ _ _ _ Er)) as (Hid & _).
  case_match; [|done]. case_match; [done|]. case_match; [done|].
  destruct (resolve_region_locked _ _ _ _) as [r|?] eqn:Err; [|done]. apply resolve_region_success in Err.
  case_match; [done|]. unfold reserve_publication. intros [= <- <-]. split; [done|]. simpl. rewrite Hid. split.
  - rewrite (res_object _ _ _ _ Er). eauto.
  - exists r. rewrite <-L. split; [apply Err|]. by rewrite (rres_object _ _ _ _ _ Err).
Qed.

Lemma step_full_inv sys sys' : step image_ok sys sys' → full_inv sys → full_inv sys'.
Proof.
  intros Hstep Hinv. destruct Hstep as [s fs o|s fs req s' l E|s fs req s' a E|s fs1 fs2 l s' c E
    |s fs1 fs2 l c s' a E|s fs st s' a HP E].
  - eapply full_inv_evolves; [|done]. destruct Hinv. by apply exec_evolves.
  - pose proof (publish_reserve_evolves req s) as Hev. rewrite E in Hev.
    pose proof (publish_reserve_flight _ _ _ _ (fi_objects _ Hinv) E) as Hf.
    destruct (full_inv_evolves _ _ _ Hev Hinv). split; [done..|]. simpl. apply Forall_app. split; [done|].
    apply Forall_singleton. by eapply flight_ok_evolves.
  - pose proof (publish_reserve_evolves req s) as Hev. rewrite E in Hev. by eapply full_inv_evolves.
  - pose proof (publish_durable_live l s) as L. rewrite E in L.
    destruct (full_inv_evolves _ _ _ (evolves_live _ _ L) Hinv). split; [done..|]. simpl in *.
    rewrite Forall_app, Forall_cons in *. done.
  - destruct Hinv as [Ho Hr Hy Hf]. simpl in *. rewrite Forall_app, Forall_cons in Hf.
    destruct Hf as (Hf1 & Hl & Hf2).
    assert (Hfs : Forall (flight_ok s) (fs1 ++ fs2)) by (by apply Forall_app).
    destruct (publish_commit_cases l c s s' a Ho E) as [Hev|(o & o' & Hk & _ & _ & Hc)].
    + by apply (full_inv_evolves _ _ _ Hev).
    + destruct (committed_keeps _ _ _ _ _ Hk Hc) as [Ko Kr]. split; simpl.
      * by eapply committed_objects_inv.
      * by eapply committed_regions_inv.
      * intros k y Hky. rewrite (cm_syncs _ _ _ _ _ Hc) in Hky. destruct (Hy _ _ Hky) as (r & Hr' & ?).
        destruct (Kr _ _ Hr') as (r' & ? & ?). exists r'. split; congruence.
      * eapply Forall_impl; [exact Hfs|]. intros f (Hv & Hobj & r & Hr' & ?).
        destruct (Kr _ _ Hr') as (r' & ? & ?). split; [done|]. split; [auto|]. exists r'. split; congruence.
  - apply attach_store_cases in E as [->|(Hemp & st' & load & image & rep & Hopen & _ & ->)]; [done|].
    pose proof (recover_restored load image (s <| store := Some st' |>)) as R.
    pose proof (HP _ _ _ Hopen) as Hok. split; simpl.
    + by eapply restored_objects_inv.
    + by eapply restored_regions_inv.
    + by eapply restored_syncs_inv.
    + destruct fs as [|f fs]; [constructor|]. exfalso. destruct Hinv as [_ _ _ Hf]. simpl in Hf.
      apply Forall_cons in Hf as ((_ & [o Ho] & _) & _). by rewrite Hemp in Ho.
Qed.

Lemma reachable_full_inv sys : reachable image_ok sys → full_inv sys.
Proof.
  intros [cfg Hrun]. remember (mkSys (make_engine cfg) []) as sys0 eqn:E0.
  assert (H0 : full_inv sys0).
  { subst. destruct (make_engine_inv cfg) as (? & ? & ?). split; [done..|constructor]. }
  clear E0. induction Hrun as [|x y z Hxy _ IH]; [done|]. apply IH. by eapply step_full_inv.
Qed.
End invariants.
