(* ===== verification/Scenario.v ===== *)
(** * A concrete run

    A store that keeps decoded records, and a run of the engine over it that
    the witnesses evaluate: two participants, one object under the strict
    policy, a replica each, a published version, a transfer, a read lease and
    a second write transfer. *)
From S2P Require Import Prelude Ids Enums Status Bytes Policy Evidence Model Decisions Persistence.
From S2P Require Import Engine Resolve Core Registry Read Write Invalidate Publish Sync Recovery.
From S2P Require Import Auditor System.

(** ** A store of decoded records *)

(** The snapshot, the journal since, and the number of the append that fails
    ([0]: none), as the fault injection of the in-memory store has it. *)
Record ListStore := mkListStore {
  ls_snapshot : DurableImage;
  ls_journal : list JournalEntry;
  ls_appends : N;
  ls_fail_at : N }.

(** The image the journal produces, entry by entry. *)
Definition apply_all (image : DurableImage) (entries : list JournalEntry) : DurableImage :=
  foldl (λ image e, (apply_journal_entry image e).1) image entries.

Definition ls_contents (st : ListStore) : DurableImage := apply_all (ls_snapshot st) (ls_journal st).

#[export] Instance list_store : DurableStore ListStore := {
  ds_open st := (st, success (default_LoadReport
    <| lr_journal_records_replayed := N.of_nat (length (ls_journal st)) |>, ls_contents st));
  ds_append e st :=
    let n := u64_succ (ls_appends st) in
    if negb (ls_fail_at st =? 0)%N && (n =? ls_fail_at st)%N
    then (mkListStore (ls_snapshot st) (ls_journal st) n (ls_fail_at st), StatusCode.PersistenceFailure)
    else (mkListStore (ls_snapshot st) (ls_journal st ++ [e]) n (ls_fail_at st), StatusCode.Ok);
  ds_compact image st := (mkListStore image [] (ls_appends st) (ls_fail_at st), StatusCode.Ok);
  ds_flush st := (st, StatusCode.Ok);
  ds_close st := (st, StatusCode.Ok);
  ds_journal_bytes st := N.of_nat (length (ls_journal st)) }.

Definition empty_store : ListStore := mkListStore default_DurableImage [] 0 0.

(** ** Runs *)

Definition run {St} `{DurableStore St} (os : list op) (s : Impl St) : Impl St := foldl (λ s o, exec o s) s os.

Lemma run_reachable {St} `{DurableStore St} P cfg (s : Impl St) fs os :
  rtc (step P) (mkSys (make_engine cfg) []) (mkSys s fs) →
  rtc (step P) (mkSys (make_engine cfg) []) (mkSys (run os s) fs).
Proof.
  revert s. induction os as [|o os IH]; intros s Hs; [done|]. apply IH.
  eapply rtc_r; [done|]. apply step_op.
Qed.

(** ** The participants of the run *)

Notation Engine := (Impl ListStore).

Definition boot_a : ParticipantBootId := from_uuid (mkUInt128 0 1).
Definition boot_b : ParticipantBootId := from_uuid (mkUInt128 0 2).
Definition ep1 : CoordinatorEpoch := from_value 1.
Definition obj : ObjectId := from_value 1.
Definition reg_a : RegionId := from_value 1.
Definition reg_b : RegionId := from_value 2.

Definition ctx_a : AuthorityContext := default_AuthorityContext
  <| ac_epoch := ep1 |> <| ac_participant := from_value 1 |> <| ac_boot := boot_a |>
  <| ac_object := obj |> <| ac_object_generation := from_value 1 |>.
Definition ctx_b : AuthorityContext := ctx_a <| ac_participant := from_value 2 |> <| ac_boot := boot_b |>.

Definition print_a : ContentFingerprint := mkContentFingerprint (from_uuid (mkUInt128 0 7)) 9 64 true.
Definition print_b : ContentFingerprint := mkContentFingerprint (from_uuid (mkUInt128 0 8)) 10 64 true.

Definition replica (ctx : AuthorityContext) (name : string) : RegionRegistration :=
  default_RegionRegistration <| rn_context := ctx |> <| rn_domain := from_value 1 |> <| rn_name := name |>
    <| rn_memory_domain := MemoryDomain.HostPageable |> <| rn_evidence_class := EvidenceClass.Real |>
    <| rn_length := 64%N |>.

(** Registration of everything. *)
Definition setup (policy : CoherencePolicy) : list op := [
  OpCreateDomain "domain";
  OpRegisterParticipant "alpha" boot_a ep1 "node-a";
  OpRegisterParticipant "beta" boot_b ep1 "node-b";
  OpRegisterObject (from_value 1) "object" 64 policy;
  OpRegisterRegion (replica ctx_a "a");
  OpRegisterRegion (replica ctx_b "b") ].

(** Alpha observes its replica and takes write authority. *)
Definition revalidate_a : RevalidateRequest := default_RevalidateRequest
  <| rv_context := ctx_a |> <| rv_region := reg_a |> <| rv_observed_version := from_value 1 |>
  <| rv_content := print_a |>.
Definition write_a : WriteRequest := default_WriteRequest <| wr_context := ctx_a |> <| wr_region := reg_a |>.
Definition establish : list op := [OpRevalidate revalidate_a; OpAcquireWrite write_a].

(** Alpha publishes the initial version. *)
Definition publish_a : PublishRequest := default_PublishRequest
  <| pb_context := ctx_a <| ac_request := from_value 77 |> |> <| pb_ownership_generation := from_value 2 |>
  <| pb_region := reg_a |> <| pb_content := print_a |> <| pb_allow_without_dirty := true |>.

Definition release_a : ReleaseRequest := default_ReleaseRequest
  <| rl_context := ctx_a |> <| rl_ownership_generation := from_value 2 |> <| rl_release_write_authority := true |>.

(** Beta synchronizes its replica and reads. *)
Definition sync_b : SyncRequest := default_SyncRequest <| sr_context := ctx_b |> <| sr_destination_region := reg_b |>.
Definition complete_b : SyncCompleteRequest := default_SyncCompleteRequest
  <| sc_context := ctx_b |> <| sc_operation := from_value 1 |> <| sc_destination_region := reg_b |>
  <| sc_destination_region_generation := from_value 1 |> <| sc_destination_new_version := from_value 1 |>
  <| sc_observed_content := print_a |>.
Definition read_b : ReadRequest := default_ReadRequest <| rr_context := ctx_b |> <| rr_region := reg_b |>.
Definition hand_over : list op := [OpRelease release_a; OpBeginSync sync_b; OpCompleteSync complete_b].
Definition share : list op := hand_over ++ [OpAcquireRead read_b].

(** Alpha takes write authority again; beta acknowledges. *)
Definition ack_b : InvalidationAck := default_InvalidationAck
  <| ia_context := ctx_b |> <| ia_invalidation := from_value 1 |> <| ia_region := reg_b |>
  <| ia_region_generation := from_value 1 |> <| ia_replica_generation := from_value 1 |>.

(** The states of the run. *)
Definition s_fresh : Engine := make_engine default_EngineConfig.
Definition s_attached : Engine := (attach_store empty_store s_fresh).1.
Definition s_setup : Engine := run (setup (strict_policy "strict")) s_attached.
Definition s_write : Engine := run establish s_setup.
Definition s_published : Engine := (publish publish_a s_write).1.
Definition s_synced : Engine := run hand_over s_published.
Definition s_shared : Engine := run share s_published.
Definition s_transfer : Engine := run [OpAcquireWrite write_a] s_shared.
Definition s_exclusive : Engine := run [OpAcknowledge ack_b] s_transfer.

(** Alpha's publication stopped between its phases. *)
Definition no_locals : PublishLocals := mkPublishLocals default_PublishRequest default_PublicationReceipt
  default_PendingPublication (mkJournalEntry 0 Invalid) nil_id nil_id nil_id nil_uuid false.
Definition l_a : PublishLocals :=
  match (publish_reserve publish_a s_write).2 with inr l => l | inl _ => no_locals end.
Definition s_reserved : Engine := (publish_reserve publish_a s_write).1.
Definition s_appended : Engine := (publish_durable l_a s_reserved).1.

(** The same run under the eventual policy, up to a second version that beta's
    replica does not have. *)
Definition publish_a2 : PublishRequest := default_PublishRequest
  <| pb_context := ctx_a <| ac_request := from_value 78 |> |> <| pb_ownership_generation := from_value 4 |>
  <| pb_expected_base_version := from_value 1 |> <| pb_region := reg_a |> <| pb_content := print_b |>
  <| pb_allow_without_dirty := true |>.
Definition e_published : Engine :=
  (publish publish_a (run establish (run (setup (eventual_policy 8 "eventual")) s_attached))).1.
Definition e_exclusive : Engine := run [OpAcquireWrite write_a; OpAcknowledge ack_b] (run share e_published).
Definition s_lagging : Engine := (publish publish_a2 e_exclusive).1.

(** Every state of the run is reachable, whatever the restriction on images,
    provided it admits the empty one. *)
Lemma s_attached_reachable (P : DurableImage → Prop) :
  P default_DurableImage → rtc (step P) (mkSys s_fresh []) (mkSys s_attached []).
Proof.
  intros HP. apply rtc_once. apply (step_attach P s_fresh [] empty_store s_attached
    (attach_store empty_store s_fresh).2).
  - intros st' load image [= <- _ <-]. exact HP.
  - unfold s_attached. by destruct (attach_store _ _).
Qed.

(** A publication whose phases nothing interrupts is a run of three steps. *)
Lemma publish_reachable {St} `{DurableStore St} (P : DurableImage → Prop) (sys0 : @Sys St) s fs req :
  rtc (step P) sys0 (mkSys s fs) → rtc (step P) sys0 (mkSys (publish req s).1 fs).
Proof.
  intros Hs. unfold publish. destruct (publish_reserve req s) as [s1 [a|l]] eqn:E1.
  - eapply rtc_r; [done|]. by eapply step_refuse.
  - destruct (publish_durable l s1) as [s2 c] eqn:E2. destruct (publish_commit l c s2) as [s3 a] eqn:E3.
    eapply rtc_r; [eapply rtc_r; [eapply rtc_r; [done|]|]|].
    + by eapply step_reserve.
    + by apply (step_append P s1 fs [] l s2 c).
    + pose proof (step_commit P s2 fs [] l c s3 a E3) as Hc. rewrite app_nil_r in Hc. exact Hc.
Qed.

Lemma s_published_reachable (P : DurableImage → Prop) :
  P default_DurableImage → rtc (step P) (mkSys s_fresh []) (mkSys s_published []).
Proof. intros HP. by apply publish_reachable, run_reachable, run_reachable, s_attached_reachable. Qed.

(** A publication that stopped after its second phase. *)
Lemma publication_stops {St} `{DurableStore St} (P : DurableImage → Prop) (sys0 : @Sys St) s req s1 l s2 c :
  rtc (step P) sys0 (mkSys s []) → publish_reserve req s = (s1, inr l) → publish_durable l s1 = (s2, c) →
  rtc (step P) sys0 (mkSys s2 [(l, Some c)]).
Proof.
  intros Hs H1 H2. eapply rtc_r; [eapply rtc_r; [exact Hs|by eapply step_reserve]|].
  by apply (step_append P s1 [] [] l s2 c).
Qed.

Lemma s_appended_reachable (P : DurableImage → Prop) :
  P default_DurableImage → reachable P (mkSys s_appended [(l_a, Some StatusCode.Ok)]).
Proof.
  intros HP. exists default_EngineConfig. apply (publication_stops P _ s_write publish_a s_reserved).
  - by apply run_reachable, run_reachable, s_attached_reachable.
  - by vm_compute.
  - by vm_compute.
Qed.

Lemma s_transfer_reachable (P : DurableImage → Prop) :
  P default_DurableImage → reachable P (mkSys s_transfer []).
Proof. intros HP. eexists. by apply run_reachable, run_reachable, s_published_reachable. Qed.

Lemma s_exclusive_reachable (P : DurableImage → Prop) :
  P default_DurableImage → reachable P (mkSys s_exclusive []).
Proof. intros HP. eexists. by apply run_reachable, run_reachable, run_reachable, s_published_reachable. Qed.

Definition object_of (s : Engine) : ObjectRecord := default default_ObjectRecord (objects s !! obj).
Definition region_of (s : Engine) (id : RegionId) : RegionRecord := default default_RegionRecord (regions s !! id).

(** The value of an answer that succeeded. *)
Definition answer_or {A} (d : A) (r : result A) : A := match r with success a => a | failure _ => d end.
