(* ===== verification/Transitions.v ===== *)
(** * The declared transitions, and the ones that are made

    [docs/SEMANTICS.md] says that a transition is legal only as declared by the
    tables of [enums.cpp]; the engine asks them in four places only.  Here the
    tables are compared with everything a step of the running engine does:
    every change of a record's state is declared, or is one of the listed
    exceptions. *)
From S2P Require Import Prelude Ids Enums Status Bytes Policy Evidence Model Decisions Persistence.
From S2P Require Import Engine Resolve Core Registry Read Write Invalidate Publish Sync Recovery.
From S2P Require Import Frame Evolution Steps Moves RecoveryFacts System Invariants Scenario.

(** ** States that do not occur *)

(** No object is merely created, and only an active one is modified; no
    participant is merely observed or admitted; no transfer is merely planned. *)
Definition object_fine (v : ObjectLifecycle.t * bool) : Prop :=
  v.1 ≠ ObjectLifecycle.Created ∧ (v.2 = true → v.1 = ObjectLifecycle.Active).

Definition participant_fine (v : ParticipantLifecycle.t * ParticipantBootId * bool) : Prop :=
  v.2 = true ∧ v.1.1 ≠ ParticipantLifecycle.Observed ∧ v.1.1 ≠ ParticipantLifecycle.Admitted_.

(** The same of a durable image; the engine writes no other. *)
Record image_settled (image : DurableImage) : Prop := {
  is_objects : map_Forall (λ _ o, o_lifecycle o ≠ ObjectLifecycle.Created) (img_objects image);
  is_participants : map_Forall (λ _ p, p_lifecycle p ≠ ParticipantLifecycle.Observed ∧
                                       p_lifecycle p ≠ ParticipantLifecycle.Admitted_) (img_participants image) }.

Lemma object_turn_fine v w : object_turn v w → object_fine v →
  object_fine w ∧ is_legal_object_transition v.1 w.1 = true.
Proof.
  destruct v as [l d], w as [l' d']. unfold object_turn, loses, object_fine. simpl.
  intros Ht [Hc Hd].
  destruct Ht as [[[= -> ->]|(-> & -> & [->| ->])]|[[= -> ->]|[[= -> ->]|[[Hl [= -> ->]]|[-> [= -> ->]]]]]];
    try (rewrite (Hd eq_refl)); try (destruct Hl as [->| ->]); try done; destruct l; try done.
Qed.

Lemma participant_turn_fine v w : participant_turn v w → participant_fine v →
  participant_fine w ∧ (is_legal_participant_transition v.1.1 w.1.1 = true ∨
    v.1.1 = ParticipantLifecycle.Fenced ∧ w.1.1 = ParticipantLifecycle.Active ∧ w.1.2 ≠ v.1.2).
Proof.
  destruct v as [[l b] k], w as [[l' b'] k']. unfold participant_turn, participant_fine. simpl.
  intros [Hk Ht] (-> & Ho & Ha). specialize (Hk eq_refl). subst k'.
  destruct Ht as [[= -> ->]|[(-> & [[Hr ->]|[[-> ->]|[[-> ->]|[-> ->]]]])|(Hb & Hr & ->)]];
    (split; [done|]); first [by left | by destruct l; auto].
Qed.

Section transitions.
Context {St : Type} `{DurableStore St}.
Implicit Types (s : Impl St) (sys : @Sys St) (wrap : bool).

Record settled s : Prop := {
  se_objects : map_Forall (λ k o, object_fine (object_view k o)) (objects s);
  se_participants : map_Forall (λ k p, participant_fine (participant_view k p)) (participants s);
  se_syncs : map_Forall (λ k y, sync_begun (sync_view k y) = true) (syncs s) }.

Lemma view_evolves_forall {K A V} `{Countable K} (view : K → A → V) (R : relation V) (b Q : V → Prop) m m' :
  view_evolves view R b m m' → (∀ v w, R v w → Q v → Q w) → (∀ v, b v → Q v) →
  map_Forall (λ k a, Q (view k a)) m → map_Forall (λ k a, Q (view k a)) m'.
Proof.
  intros [Hk Hn] HR Hb Hm k a' Ha'. destruct (m !! k) as [a|] eqn:E.
  - destruct (Hk _ _ E) as (a'' & ? & ?). simplify_eq. eapply HR; [done|]. by apply (Hm k a).
  - destruct (Hn _ _ E Ha') as (v & ? & ?). eauto.
Qed.

Lemma born_participant_fine v : born_participant v → participant_fine v.
Proof. intros [Hl Hk]. split; [done|]. by rewrite Hl. Qed.

Lemma follows_settled wrap s s' : follows (engine_rules wrap) s s' → settled s → settled s'.
Proof.
  intros [_ Ho Hp Hy] []. split.
  - eapply view_evolves_forall; [exact Ho| |by intros v ->|done].
    intros v w Ht Hv. by apply (object_turn_fine v).
  - eapply view_evolves_forall; [exact Hp| |apply born_participant_fine|done].
    intros v w [Ht|[_ Hb]] Hv; [by apply (participant_turn_fine v)|by apply born_participant_fine].
  - eapply (view_evolves_forall _ _ _ (λ v, sync_begun v = true)); [exact Hy| |by intros v ->|done].
    intros v w [Hm|[_ ->]] Hv; [by apply Hm|done].
Qed.

Lemma settled_keyed s : settled s → participants_keyed s.
Proof. intros [_ Hp _] k p Hk. destruct (Hp k p Hk) as [Hb _]. by apply bool_decide_eq_true in Hb. Qed.

(** ** One step *)

Definition fresh_ids s : Prop := fresh_participant s ∧ fresh_sync s.

Lemma exec_follows o wrap s :
  participants_keyed s → (wrap = false → fresh_ids s) → follows (engine_rules wrap) s (exec o s).
Proof.
  intros Hk Hf. destruct o; cbn [exec].
  - apply create_domain_follows.
  - apply register_participant_follows; [done|]. intros. by apply Hf.
  - apply mark_session_closed_follows.
  - apply fence_participant_follows.
  - apply register_object_follows.
  - apply set_policy_follows.
  - apply register_region_follows.
  - apply retire_region_follows.
  - apply resolve_recovery_follows.
  - apply retire_object_follows.
  - apply follows_weaken; [apply _|apply acquire_read_idle].
  - apply follows_weaken; [apply _|apply compute_read_idle].
  - apply follows_weaken; [apply _|apply acquire_write_idle].
  - apply mark_dirty_follows.
  - apply invalidate_follows.
  - apply acknowledge_follows.
  - apply revalidate_follows.
  - apply release_follows.
  - apply begin_sync_follows. intros. by apply Hf.
  - apply complete_sync_follows.
  - apply fail_sync_follows.
  - apply begin_shutdown_follows.
  - apply complete_shutdown_follows.
  - apply flush_durable_follows.
Qed.

(** The commit: its own replica becomes current whatever state it is in. *)
Lemma committed_follows l o o' wrap s s' :
  objects s !! pp_object (pl_pending l) = Some o → committed l o o' s s' → follows (engine_rules wrap) s s'.
Proof.
  intros Ho []. split.
  - split.
    + intros k r Hr. destruct (decide (k = pb_region (pl_request l))) as [->|Hne].
      * destruct (cm_region _ Hr) as (r' & Hr' & Hf & Hc & _). exists r'. split; [done|].
        split; [apply Hf|]. simpl. rewrite Hc. by destruct (r_state r).
      * rewrite cm_others, Hr by done. destruct (decide (k ∈ _)); [|exists r; split; [done|by apply eq_turns]].
        eexists. split; [done|]. split; [apply stale_of_fixed|]. unfold stale_of. rewrite decide_False by done.
        simpl. destruct (decide (r_state r = _)) as [->|]; [done|]. by destruct (r_state r).
    + intros k r' Hn Hr'. exfalso. destruct (decide (k = pb_region (pl_request l))) as [->|Hne].
      * by rewrite (cm_absent Hn) in Hr'.
      * rewrite cm_others, Hn in Hr' by done. by destruct (decide (k ∈ _)).
  - rewrite cm_objects. eapply view_evolves_insert; [apply (tame_object (t := engine_rules wrap))|exact Ho|].
    destruct cm_object as (lim & seq & ->). right. left. unfold committed_object. by destruct (defined _).
  - injection cm_frame as Hp _ _ _. rewrite Hp.
    apply view_evolves_refl, (tame_participant (t := engine_rules wrap)).
  - rewrite cm_syncs. apply view_evolves_refl, (tame_sync (t := engine_rules wrap)).
Qed.

Lemma publish_commit_follows l c s s' a wrap :
  objects_inv s → publish_commit l c s = (s', a) → follows (engine_rules wrap) s s'.
Proof.
  intros Hinv. unfold publish_commit. set (s1 := s <| in_flight_publications ::= _ |>).
  destruct (objects s1 !! _) as [o|] eqn:Eo; [|intros [= <- <-]; subst s1; glide].
  assert (Eo' : objects s !! pp_object (pl_pending l) = Some o) by exact Eo.
  destruct (negb (ok c)) eqn:Ec.
  { intros [= <- <-]. glide. eapply follows_end_object; [apply _|exact Eo|done|subst s1; glide]. }
  pose proof (apply_pending_entry_live l s1) as L. set (s2 := apply_pending_entry l s1) in *. clearbody s2.
  destruct (negb (reservation_intact l o)) eqn:Er.
  { intros [= <- <-]. glide. eapply follows_end_live; [apply _|apply clear_superseded_live|].
    eapply follows_end_object; [apply _|rewrite L; exact Eo|done|]. glide. subst s1. glide. }
  intros E. destruct (commit_publication_spec l o s2) as [o' Hc]; [by rewrite L|by destruct (Hinv _ _ Eo')|].
  rewrite E in Hc. cbn [fst] in Hc. eapply committed_follows; [exact Eo'|].
  eapply committed_start; [..|exact Hc]; [by rewrite L..|]. by rewrite (frame_of_live _ _ L).
Qed.

(** Every step but the attachment of a store. *)
Lemma step_follows sys sys' wrap :
  objects_inv (sys_engine sys) → participants_keyed (sys_engine sys) →
  (wrap = false → fresh_ids (sys_engine sys)) →
  step (λ _, False) sys sys' → follows (engine_rules wrap) (sys_engine sys) (sys_engine sys').
Proof.
  intros Hinv Hk Hf Hstep. destruct Hstep as [s fs o|s fs req s' l E|s fs req s' a E|s fs1 fs2 l s' c E
    |s fs1 fs2 l c s' a E|s fs st s' a HP E]; simpl in *.
  - by apply exec_follows.
  - apply follows_weaken; [apply _|]. pose proof (publish_reserve_idle req s) as Hr. by rewrite E in Hr.
  - apply follows_weaken; [apply _|]. pose proof (publish_reserve_idle req s) as Hr. by rewrite E in Hr.
  - pose proof (publish_durable_live l s) as L. rewrite E in L. by apply follows_live; [apply _|].
  - by eapply publish_commit_follows.
  - apply attach_store_cases in E as [->|(_ & st' & load & image & rep & Ho & _)]; [by apply follows_refl, _|].
    by destruct (HP _ _ _ Ho).
Qed.

(** A step is the attachment of a store or a step of the running engine. *)
Lemma decide_attach P sys sys' : step P sys sys' →
  step (λ _, False) sys sys' ∨
  ∃ s fs st s' a, sys = mkSys s fs ∧ sys' = mkSys s' fs ∧
    (∀ st' load image, ds_open st = (st', success (load, image)) → P image) ∧ attach_store st s = (s', a).
Proof. destruct 1; [by left; econstructor..|]. right. eauto 10. Qed.

Lemma recover_settled load image s : image_settled image → settled (recover load image s).1.
Proof.
  intros [Ho Hp]. pose proof (recover_restored load image s) as R. split.
  - intros k o Hk. destruct (rs_objects _ _ R _ _ Hk) as (st & Hst & _ & []). split; simpl.
    + destruct rec_lifecycle as [->| ->]; [by apply (Ho k)|done].
    + by rewrite rec_dirty.
  - apply recover_participants.
    + intros k st Hst Hid. split; [by apply bool_decide_eq_true|]. destruct (Hp _ _ Hst). simpl. by case_decide.
    + done.
  - intros k y Hk. destruct (rs_syncs _ _ R _ _ Hk) as (Hn & _). unfold not_in_flight, sync_view in *.
    by destruct (y_state y).
Qed.

Lemma reachable_settled P sys :
  (∀ image, P image → image_settled image) → reachable P sys → settled (sys_engine sys).
Proof.
  intros HP [cfg Hrun]. remember (mkSys (make_engine cfg) []) as sys0 eqn:E0.
  assert (H0 : objects_inv (sys_engine sys0) ∧ settled (sys_engine sys0)).
  { subst. split; [apply make_engine_inv|]. split; apply map_Forall_empty. }
  clear E0. induction Hrun as [|x y z Hxy _ IH]; [apply H0|]. apply IH. destruct H0 as [Hinv Hs].
  split; [by eapply step_objects_inv|].
  destruct (decide_attach P x y Hxy) as [Hq|(s & fs & st & s' & a & -> & -> & HPi & E)].
  - eapply (follows_settled true); [|exact Hs]. apply step_follows; [done|by apply settled_keyed|done|done].
  - simpl in *. apply attach_store_cases in E as [->|(_ & st' & load & image & rep & Ho & _ & ->)]; [done|].
    apply recover_settled. eauto.
Qed.

(** ** Every change is declared or listed *)

(** C6: In a running engine every change of a state is declared by the tables of
    [enums.cpp] or is a listed exception.  From any reachable state, over any
    store whose images have no merely created object and no merely observed or
    admitted participant, and while the counters of participants and transfers
    have not wrapped, one step of any operation or publication phase makes no
    record disappear; a replica's lifecycle and an object's lifecycle change only
    as declared; a replica's state changes as declared or along one of the eleven
    pairs of [coherence_exception]; a participant's lifecycle changes as declared,
    except that a fenced one becomes active again under another boot; and a
    transfer's state changes as declared or along one of the three pairs of
    [sync_exception]. *)
Theorem state_changes_are_tabled (P : DurableImage → Prop) sys sys' :
  (∀ image, P image → image_settled image) → reachable P sys → fresh_ids (sys_engine sys) →
  step (λ _, False) sys sys' →
  (∀ k r, regions (sys_engine sys) !! k = Some r → ∃ r', regions (sys_engine sys') !! k = Some r' ∧
     is_legal_region_transition (r_lifecycle r) (r_lifecycle r') = true ∧
     (is_legal_coherence_transition (r_state r) (r_state r') = true ∨
      coherence_exception (r_state r) (r_state r') = true)) ∧
  (∀ k o, objects (sys_engine sys) !! k = Some o → ∃ o', objects (sys_engine sys') !! k = Some o' ∧
     is_legal_object_transition (o_lifecycle o) (o_lifecycle o') = true) ∧
  (∀ k p, participants (sys_engine sys) !! k = Some p → ∃ p', participants (sys_engine sys') !! k = Some p' ∧
     (is_legal_participant_transition (p_lifecycle p) (p_lifecycle p') = true ∨
      p_lifecycle p = ParticipantLifecycle.Fenced ∧ p_lifecycle p' = ParticipantLifecycle.Active ∧
      p_boot p' ≠ p_boot p)) ∧
  (∀ k y, syncs (sys_engine sys) !! k = Some y → ∃ y', syncs (sys_engine sys') !! k = Some y' ∧
     (is_legal_sync_transition (y_state y) (y_state y') = true ∨
      sync_exception (y_state y) (y_state y') = true)).
Proof.
  intros HP Hreach Hfresh Hstep. pose proof (reachable_settled P sys HP Hreach) as Hs.
  destruct (step_follows sys sys' false (reachable_objects_inv P sys Hreach) (settled_keyed _ Hs) (λ _, Hfresh) Hstep)
    as [[Hr _] [Ho _] [Hp _] [Hy _]]. destruct Hs as [So Sp Sy]. split_and!.
  - intros k r Hk. destruct (Hr k r Hk) as (r' & Hr' & Hl & Hm). exists r'. split; [done|]. simpl in *. split.
    + destruct Hl as [->| ->]; by destruct (r_lifecycle r).
    + by apply orb_true_iff.
  - intros k o Hk. destruct (Ho k o Hk) as (o' & Ho' & Ht). exists o'. split; [done|].
    by apply (object_turn_fine _ _ Ht), So.
  - intros k p Hk. destruct (Hp k p Hk) as (p' & Hp' & [Ht|[? _]]); [|done]. exists p'. split; [done|].
    by apply (participant_turn_fine _ _ Ht), Sp.
  - intros k y Hk. destruct (Hy k y Hk) as (y' & Hy' & [Ht|[? _]]); [|done]. exists y'. split; [done|].
    apply orb_true_iff, Ht. by apply (Sy k).
Qed.
End transitions.

(** ** The exceptions happen *)

(** Beta has a current replica and asks for another transfer onto it; the
    transfer stays open. *)
Definition open_sync : Engine := run [OpBeginSync sync_b] s_synced.

(** Beta's reports about that transfer. *)
Definition fail_b (unknown : bool) (cause : StatusCode.t) : SyncFailRequest := default_SyncFailRequest
  <| sf_context := ctx_b |> <| sf_operation := from_value 2 |> <| sf_cause := cause |>
  <| sf_outcome_unknown := unknown |>.

(** Beta observes its replica, becomes the writer and modifies it. *)
Definition revalidate_b (ep : CoordinatorEpoch) (v : N) : RevalidateRequest := default_RevalidateRequest
  <| rv_context := ctx_b <| ac_epoch := ep |> |> <| rv_region := reg_b |> <| rv_observed_version := from_value v |>
  <| rv_content := print_a |>.
Definition write_b : WriteRequest := default_WriteRequest <| wr_context := ctx_b |> <| wr_region := reg_b |>.
Definition ack_a : InvalidationAck := default_InvalidationAck
  <| ia_context := ctx_a |> <| ia_invalidation := from_value 1 |> <| ia_region := reg_a |>
  <| ia_region_generation := from_value 1 |> <| ia_replica_generation := from_value 1 |>.
Definition dirty_b : DirtyRequest := default_DirtyRequest <| dr_context := ctx_b |> <| dr_region := reg_b |>
  <| dr_ownership_generation := from_value 4 |> <| dr_base_version := from_value 1 |>.
Definition dirty_sync : Engine := run [OpRevalidate (revalidate_b ep1 1); OpAcquireWrite write_b; OpAcknowledge ack_a;
  OpMarkDirty dirty_b] open_sync.

(** Beta is fenced, or its replica is retired. *)
Definition fence_b : op := OpFenceParticipant (from_value 2) ep1 "lost".
Definition retire_of (id : RegionId) : op := OpRetireRegion id (from_value 1) ep1.
Definition fenced_sync_state : Engine := run [fence_b] open_sync.
Definition retired_sync : Engine := run [retire_of reg_b] open_sync.
Definition retired_transfer : Engine := run [retire_of reg_b] s_transfer.

(** The coordinator died while it journalled the fence: the replica's record is
    on disk, the participant's is not.  It starts again, and beta comes back with
    the boot it had. *)
Definition cut_store (s : Engine) : ListStore :=
  match store s with
  | Some st => mkListStore (ls_snapshot st) (take (length (ls_journal st) - 1) (ls_journal st)) 0 0
  | None => empty_store
  end.
Definition ep2 : CoordinatorEpoch := from_value 2.
Definition half_fenced : Engine := (attach_store (cut_store fenced_sync_state) s_fresh).1.
Definition half_fenced_back : Engine := run [OpRegisterParticipant "beta" boot_b ep2 "node-b"] half_fenced.

(** Alpha's replica is retired while its publication is being appended. *)
Definition retired_flight : Engine := run [retire_of reg_a] s_appended.
Definition retired_commit : Engine := (publish_commit l_a StatusCode.Ok retired_flight).1.

Lemma default_image_settled : image_settled default_DurableImage.
Proof. split; apply map_Forall_empty. Qed.

Lemma open_sync_reachable : reachable image_settled (mkSys open_sync []).
Proof.
  eexists. apply run_reachable, run_reachable, s_published_reachable, default_image_settled.
Qed.

Lemma reachable_run s os : reachable image_settled (mkSys s []) → reachable image_settled (mkSys (run os s : Engine) []).
Proof. intros [cfg Hs]. exists cfg. by apply run_reachable. Qed.

Lemma list_store_opens (st st' : ListStore) load image :
  ds_open st = (st', success (load, image)) → image = ls_contents st.
Proof. by intros [= _ _ <-]. Qed.

Lemma half_fenced_reachable : reachable image_settled (mkSys half_fenced []).
Proof.
  eexists. apply rtc_once. apply (step_attach _ s_fresh [] (cut_store fenced_sync_state) half_fenced
    (attach_store (cut_store fenced_sync_state) s_fresh).2).
  - intros st' load image Ho. rewrite (list_store_opens _ _ _ _ Ho).
    split; refine (bool_decide_unpack _ _); by vm_compute.
  - unfold half_fenced. by destruct (attach_store _ _).
Qed.

Lemma retired_flight_reachable : reachable image_settled (mkSys retired_flight [(l_a, Some StatusCode.Ok)]).
Proof.
  destruct (s_appended_reachable image_settled default_image_settled) as [cfg Hs]. exists cfg.
  by apply run_reachable.
Qed.

(** A step of the running engine that takes the replica [k] from [a] to [b]. *)
Definition happens (a b : CoherenceState.t) : Prop :=
  ∃ (sys sys' : @Sys ListStore) k r r',
    reachable image_settled sys ∧ step (λ _, False) sys sys' ∧
    regions (sys_engine sys) !! k = Some r ∧ regions (sys_engine sys') !! k = Some r' ∧
    r_state r = a ∧ r_state r' = b.

Lemma happens_op (s : Engine) o k a b :
  reachable image_settled (mkSys s []) →
  (r_state <$> regions s !! k) = Some a → (r_state <$> regions (exec o s) !! k) = Some b → happens a b.
Proof.
  intros Hs Ha Hb. destruct (regions s !! k) as [r|] eqn:Er; [|done].
  destruct (regions (exec o s) !! k) as [r'|] eqn:Er'; [|done]. simplify_eq/=.
  exists (mkSys s []), (mkSys (exec o s) []), k, r, r'. split_and!; try done. apply step_op.
Qed.

(** Every pair of [coherence_exception] is a change the engine makes: a current
    or modified replica is declared to need a transfer, a fenced one is reported
    on, or comes back after a restart in the middle of its fence, and a retired
    one is brought back by a late report, a late acknowledgement or a late
    commit. *)
Theorem exceptions_happen a b : coherence_exception a b = true → happens a b.
Proof.
  assert (Hf : reachable image_settled (mkSys half_fenced_back [])) by (apply reachable_run, half_fenced_reachable).
  assert (Hs := open_sync_reachable).
  assert (Hd : reachable image_settled (mkSys dirty_sync [])) by (by apply reachable_run).
  assert (Hr : reachable image_settled (mkSys retired_sync [])) by (by apply reachable_run).
  destruct a, b; try done; intros _.
  - apply (happens_op s_synced (OpBeginSync sync_b) reg_b); [|by vm_compute..].
    apply reachable_run. eexists. apply s_published_reachable, default_image_settled.
  - by apply (happens_op dirty_sync (OpFailSync (fail_b true StatusCode.Ok)) reg_b); [|vm_compute..].
  - by apply (happens_op dirty_sync (OpFailSync (fail_b false StatusCode.ContentMismatch)) reg_b); [|vm_compute..].
  - by apply (happens_op half_fenced_back (OpRevalidate (revalidate_b ep2 7)) reg_b); [|vm_compute..].
  - by apply (happens_op half_fenced_back (OpRevalidate (revalidate_b ep2 1)) reg_b); [|vm_compute..].
  - apply (happens_op fenced_sync_state (OpFailSync (fail_b true StatusCode.Ok)) reg_b); [|by vm_compute..].
    exact (reachable_run open_sync [fence_b] Hs).
  - by apply (happens_op retired_sync (OpFailSync (fail_b false StatusCode.Ok)) reg_b); [|vm_compute..].
  - apply (happens_op retired_transfer (OpAcknowledge ack_b) reg_b); [|by vm_compute..].
    exact (reachable_run s_transfer [retire_of reg_b] (s_transfer_reachable _ default_image_settled)).
  - exists (mkSys retired_flight [(l_a, Some StatusCode.Ok)]), (mkSys retired_commit []), reg_a,
      (region_of retired_flight reg_a), (region_of retired_commit reg_a).
    split; [apply retired_flight_reachable|]. split; [|split_and!; by vm_compute].
    apply (step_commit _ _ [] [] l_a StatusCode.Ok retired_commit (publish_commit l_a StatusCode.Ok retired_flight).2).
    unfold retired_commit. by destruct (publish_commit _ _ _).
  - by apply (happens_op retired_sync (OpFailSync (fail_b true StatusCode.Ok)) reg_b); [|vm_compute..].
  - by apply (happens_op retired_sync (OpFailSync (fail_b false StatusCode.ContentMismatch)) reg_b); [|vm_compute..].
Qed.

(** The same of transfers: settled ones are rewritten by a failure report. *)
Definition complete_b2 : SyncCompleteRequest := complete_b <| sc_operation := from_value 2 |>.
Definition sync_state_of (s : Engine) : option SyncState.t := y_state <$> syncs s !! from_value 2.

Theorem sync_exceptions_happen a b : sync_exception a b = true →
  ∃ (s : Engine) o, reachable image_settled (mkSys s []) ∧
    sync_state_of s = Some a ∧ sync_state_of (exec o s) = Some b.
Proof.
  assert (Hc : reachable image_settled (mkSys (run [OpCompleteSync complete_b2] retired_sync) [])).
  { exact (reachable_run retired_sync [OpCompleteSync complete_b2]
             (reachable_run open_sync [retire_of reg_b] open_sync_reachable)). }
  destruct a, b; try done; intros _.
  - exists (run [OpFailSync (fail_b false StatusCode.Ok)] open_sync), (OpFailSync (fail_b true StatusCode.Ok)).
    split; [exact (reachable_run open_sync [OpFailSync (fail_b false StatusCode.Ok)] open_sync_reachable)|].
    split; by vm_compute.
  - exists (run [OpCompleteSync complete_b2] retired_sync), (OpFailSync (fail_b false StatusCode.Ok)).
    split; [exact Hc|]. split; by vm_compute.
  - exists (run [OpCompleteSync complete_b2] retired_sync), (OpFailSync (fail_b true StatusCode.Ok)).
    split; [exact Hc|]. split; by vm_compute.
Qed.

(** A replica that was retired while its publication was being appended is made
    current by the commit, and is then answered as a current source of reads. *)
Definition read_a : ReadRequest := default_ReadRequest <| rr_context := ctx_a |> <| rr_region := reg_a |>.

Theorem retired_replica_is_read :
  reachable image_settled (mkSys retired_commit []) ∧
  r_lifecycle (region_of retired_commit reg_a) = RegionLifecycle.Retired ∧
  ∃ d, (acquire_read read_a retired_commit).2 = success d ∧
       rd_outcome d = ReadOutcome.ReadCurrent ∧ rd_region d = reg_a.
Proof.
  split; [|split; [by vm_compute|]].
  - destruct retired_flight_reachable as [cfg Hs]. exists cfg. eapply rtc_r; [exact Hs|].
    apply (step_commit _ _ [] [] l_a StatusCode.Ok retired_commit (publish_commit l_a StatusCode.Ok retired_flight).2).
    unfold retired_commit. by destruct (publish_commit _ _ _).
  - exists (answer_or default_ReadDecision (acquire_read read_a retired_commit).2). split_and!; by vm_compute.
Qed.

(** A replica that was modified while a transfer to it was open is made current
    by the completion, without a publication; the object goes on to record an
    unpublished modification that no replica has. *)
Definition dirty_completed : Engine := run [OpCompleteSync complete_b2] dirty_sync.

Theorem dirty_replica_completes_transfer :
  reachable image_settled (mkSys dirty_sync []) ∧ step (λ _, False) (mkSys dirty_sync []) (mkSys dirty_completed []) ∧
  r_state (region_of dirty_sync reg_b) = CoherenceState.Dirty ∧
  r_state (region_of dirty_completed reg_b) = CoherenceState.Current ∧
  r_version (region_of dirty_completed reg_b) = o_authoritative_version (object_of dirty_sync) ∧
  o_authoritative_version (object_of dirty_completed) = o_authoritative_version (object_of dirty_sync) ∧
  o_has_unpublished_dirty (object_of dirty_completed) = true.
Proof.
  split; [exact (reachable_run open_sync _ open_sync_reachable)|]. split; [apply step_op|].
  split_and!; by vm_compute.
Qed.

(** The hypotheses hold of the run with beta's open transfer, at the report that
    it failed. *)
Definition report_before : @Sys ListStore := mkSys open_sync [].
Definition report_after : @Sys ListStore := mkSys (exec (OpFailSync (fail_b true StatusCode.Ok)) open_sync) [].

Lemma report_step : step (λ _, False) report_before report_after.
Proof. apply step_op. Qed.

Lemma report_fresh : fresh_ids (sys_engine report_before).
Proof. split; by vm_compute. Qed.

Lemma report_region : regions (sys_engine report_before) !! reg_b = Some (region_of open_sync reg_b).
Proof. by vm_compute. Qed.

Lemma state_changes_are_tabled_witness :
  fresh_ids (sys_engine report_before) ∧
  ∃ r', regions (sys_engine report_after) !! reg_b = Some r' ∧
     is_legal_region_transition (r_lifecycle (region_of open_sync reg_b)) (r_lifecycle r') = true ∧
     (is_legal_coherence_transition (r_state (region_of open_sync reg_b)) (r_state r') = true ∨
      coherence_exception (r_state (region_of open_sync reg_b)) (r_state r') = true).
Proof.
  split; [exact report_fresh|].
  exact (proj1 (state_changes_are_tabled image_settled report_before report_after (λ _ H, H)
    open_sync_reachable report_fresh report_step) reg_b _ report_region).
Defined.
