(* ===== verification/Safety.v ===== *)
(** * Safety of the running engine

    Theorems about every reachable state and every step, over any store,
    including stores that fail and publications interrupted between phases. *)
From S2P Require Import Prelude Ids Enums Status Bytes Policy Evidence Model Decisions Persistence.
From S2P Require Import Engine Resolve Core Registry Read Write Invalidate Publish Sync Recovery.
From S2P Require Import Auditor Frame Evolution Steps RecoveryFacts System Invariants Scenario.

Lemma default_image_ok : image_ok default_DurableImage.
Proof. by split. Qed.

Section safety.
Context {St : Type} `{DurableStore St}.
Implicit Types (sys : @Sys St).

(** C1: single-writer exclusion.  In every state an engine can reach, over any
    store and any attached image, with store failures and publications in
    flight, an object whose authority is exclusive or being transferred has no
    live read grant. *)
Theorem exclusive_excludes_readers P sys k o :
  reachable P sys → objects (sys_engine sys) !! k = Some o → exclusive o = true →
  Forall (λ g, g_released g = true) (o_reads o).
Proof. intros HR Hk. apply (reachable_objects_inv P sys HR k o Hk). Qed.

(** C2: currentness.  In every reachable state (over images whose replicas
    their objects list) a replica that is marked current holds exactly the
    authoritative version of its object, once the object has one. *)
Theorem current_replica_is_authoritative sys k r o :
  reachable image_ok sys → regions (sys_engine sys) !! k = Some r →
  objects (sys_engine sys) !! r_object r = Some o →
  r_state r = CoherenceState.Current → defined (o_authoritative_version o) = true →
  r_version r = o_authoritative_version o.
Proof.
  intros HR Hk Ho Hst Hd. destruct (fi_regions _ (reachable_full_inv sys HR) k r Hk) as (_ & o' & Ho' & _ & _ & Hc).
  simplify_eq. by apply Hc.
Qed.

(** C3: versions advance one at a time.  A step from a reachable state leaves
    the authoritative version of an object alone, or it is the commit of a
    publication that reserved that very version, the successor of the one the
    object still has. *)
Theorem version_advances_by_one sys sys' k o o' :
  reachable image_ok sys → step image_ok sys sys' →
  objects (sys_engine sys) !! k = Some o → objects (sys_engine sys') !! k = Some o' →
  o_authoritative_version o' = o_authoritative_version o ∨
  (o_authoritative_version o' = next_version (o_authoritative_version o) ∧
   ∃ l, (l, Some StatusCode.Ok) ∈ sys_flights sys ∧ pp_object (pl_pending l) = k ∧
        pp_version (pl_pending l) = o_authoritative_version o').
Proof.
  intros HR Hstep Hk Hk'. pose proof (reachable_full_inv sys HR) as [Ho Hr Hy Hf].
  assert (Hev : ∀ s', evolves (sys_engine sys) s' → objects s' !! k = Some o' →
    o_authoritative_version o' = o_authoritative_version o).
  { intros s' E Hs'. destruct (proj1 (ev_objects _ _ E) _ _ Hk) as (o2 & ? & [_ ?]). by simplify_eq. }
  destruct Hstep as [s fs op|s fs req s' l E|s fs req s' a E|s fs1 fs2 l s' c E
    |s fs1 fs2 l c s' a E|s fs st s' a HP E]; simpl in *.
  - left. by eapply Hev; [apply exec_evolves|].
  - left. eapply Hev; [|done]. pose proof (publish_reserve_evolves req s) as E'. by rewrite E in E'.
  - left. eapply Hev; [|done]. pose proof (publish_reserve_evolves req s) as E'. by rewrite E in E'.
  - left. eapply Hev; [|done]. pose proof (publish_durable_live l s) as L. rewrite E in L. by apply evolves_live.
  - destruct (publish_commit_cases l c s s' a Ho E) as [E'|(x & x' & Hx & Hres & -> & Hc)]; [left; eauto|].
    rewrite (cm_objects _ _ _ _ _ Hc) in Hk'. destruct (decide (pp_object (pl_pending l) = k)) as [<-|Hne].
    + rewrite lookup_insert_eq in Hk'. simplify_eq. right.
      rewrite Forall_app, Forall_cons in Hf. destruct Hf as (_ & (Hv & _) & _). simpl in Hv.
      unfold reservation_intact in Hres. apply andb_true_iff in Hres as [_ Hb]. apply bool_decide_eq_true in Hb.
      rewrite (cm_version _ _ _ _ _ Hc). split; [congruence|]. exists l. split; [set_solver|done].
    + rewrite lookup_insert_ne in Hk' by done. left. congruence.
  - apply attach_store_cases in E as [->|(Hemp & _)]; [left; congruence|]. by rewrite Hemp in Hk.
Qed.

(** C4: write authority has an owner and only it has.  In every reachable state
    the recorded writer is defined exactly when authority is exclusive or being
    transferred, and an unpublished modification is always tracked under the
    matching dirty condition. *)
Theorem writer_iff_exclusive P sys k o :
  reachable P sys → objects (sys_engine sys) !! k = Some o →
  o_id o = k ∧ defined (o_writer o) = exclusive o ∧
  (o_has_unpublished_dirty o = true → o_dirty_condition o = DirtyCondition.DirtyUnpublished).
Proof. intros HR Hk. destruct (reachable_objects_inv P sys HR k o Hk) as (? & _ & ? & ?). done. Qed.

(** C5: replica placement.  In every reachable state each replica is stored
    under its own identity, is listed by its object, and its extent lies inside
    the object's extent. *)
Theorem replica_well_placed sys k r :
  reachable image_ok sys → regions (sys_engine sys) !! k = Some r →
  u64_ok (r_offset r) → u64_ok (r_length r) →
  r_id r = k ∧ ∃ o, objects (sys_engine sys) !! r_object r = Some o ∧ k ∈ o_replicas o ∧
    (u64_ok (o_length o) → r_offset r + r_length r ≤ o_length o)%N.
Proof.
  intros HR Hk Hoff Hlen. destruct (fi_regions _ (reachable_full_inv sys HR) k r Hk) as (Hid & o & Ho & Hin & Hx & _).
  split; [done|]. exists o. split_and!; [done..|]. intros. by apply checked_range_spec.
Qed.

(** The change one step makes to objects and regions that exist. *)
Lemma step_keeps_retired sys sys' :
  full_inv sys → step image_ok sys sys' →
  (∀ k o, objects (sys_engine sys) !! k = Some o → retired o →
     ∃ o', objects (sys_engine sys') !! k = Some o' ∧ retired o') ∧
  (∀ k r, regions (sys_engine sys) !! k = Some r → r_lifecycle r = RegionLifecycle.Retired →
     ∃ r', regions (sys_engine sys') !! k = Some r' ∧ r_lifecycle r' = RegionLifecycle.Retired ∧
           r_object r' = r_object r).
Proof.
  intros [Ho Hr Hy Hf] Hstep.
  assert (Hev : ∀ s', evolves (sys_engine sys) s' →
    (∀ k o, objects (sys_engine sys) !! k = Some o → retired o → ∃ o', objects s' !! k = Some o' ∧ retired o') ∧
    (∀ k r, regions (sys_engine sys) !! k = Some r → r_lifecycle r = RegionLifecycle.Retired →
     ∃ r', regions s' !! k = Some r' ∧ r_lifecycle r' = RegionLifecycle.Retired ∧ r_object r' = r_object r)).
  { intros s' E. split.
    - intros k o Hk Hret. destruct (proj1 (ev_objects _ _ E) _ _ Hk) as (o' & ? & [[] _]). eauto.
    - intros k r Hk Hret. destruct (proj1 (ev_regions _ _ E) _ _ Hk) as (r' & ? & [[] _]). eauto. }
  destruct Hstep as [s fs op|s fs req s' l E|s fs req s' a E|s fs1 fs2 l s' c E
    |s fs1 fs2 l c s' a E|s fs st s' a HP E]; simpl in *.
  - by apply Hev, exec_evolves.
  - apply Hev. pose proof (publish_reserve_evolves req s) as E'. by rewrite E in E'.
  - apply Hev. pose proof (publish_reserve_evolves req s) as E'. by rewrite E in E'.
  - apply Hev. pose proof (publish_durable_live l s) as L. rewrite E in L. by apply evolves_live.
  - destruct (publish_commit_cases l c s s' a Ho E) as [E'|(x & x' & Hx & _ & _ & Hc)]; [by apply Hev|].
    split.
    + intros k o Hk Hret. rewrite (cm_objects _ _ _ _ _ Hc). destruct (decide (pp_object (pl_pending l) = k)) as [<-|].
      * rewrite lookup_insert_eq. simplify_eq. exists x'. split; [done|]. by apply (cm_step _ _ _ _ _ Hc).
      * rewrite lookup_insert_ne by done. eauto.
    + intros k r Hk Hret. destruct (decide (k = pb_region (pl_request l))) as [->|Hne].
      * destruct (cm_region _ _ _ _ _ Hc _ Hk) as (r' & ? & [] & _). eauto.
      * rewrite (cm_others _ _ _ _ _ Hc k Hne), Hk. case_decide; [|eauto]. simpl. eexists.
        split; [done|]. destruct (stale_of_fixed (pp_version (pl_pending l)) (pb_region (pl_request l)) k r). auto.
  - apply attach_store_cases in E as [->|(Hemp & _)]; [split; eauto|]. split.
    + intros k o Hk. by rewrite Hemp in Hk.
    + intros k r Hk. destruct (Hr _ _ Hk) as (_ & o & Hko & _). by rewrite Hemp in Hko.
Qed.

(** Retirement is permanent.  From a reachable state, whatever runs
    afterwards, an object that is retired (and carries no unpublished
    modification) stays retired, and a retired replica stays retired and bound
    to its object. *)
Theorem retirement_is_permanent sys sys' :
  reachable image_ok sys → rtc (step image_ok) sys sys' →
  (∀ k o, objects (sys_engine sys) !! k = Some o → retired o →
     ∃ o', objects (sys_engine sys') !! k = Some o' ∧ retired o') ∧
  (∀ k r, regions (sys_engine sys) !! k = Some r → r_lifecycle r = RegionLifecycle.Retired →
     ∃ r', regions (sys_engine sys') !! k = Some r' ∧ r_lifecycle r' = RegionLifecycle.Retired ∧
           r_object r' = r_object r).
Proof.
  intros HR Hrun. apply reachable_full_inv in HR. induction Hrun as [x|x y z Hxy Hyz IH]; [split; eauto|].
  destruct (step_keeps_retired _ _ HR Hxy) as [H1 H2].
  destruct (IH (step_full_inv _ _ Hxy HR)) as [H3 H4]. split.
  - intros k o Hk Hret. destruct (H1 _ _ Hk Hret) as (o' & ? & ?). eauto.
  - intros k r Hk Hret. destruct (H2 _ _ Hk Hret) as (r' & Hk' & Hret' & <-). eauto.
Qed.

(** The findings of three codes come from one check each. *)
Lemma audit_domains_codes (s : Impl St) seen l f :
  f ∈ audit_domains s seen l →
  af_code f = StatusCode.InternalInvariantViolation ∨ af_code f = StatusCode.DuplicateIdentity.
Proof.
  revert seen. induction l as [|[id d] l IH]; intros seen Hf; simpl in Hf; sift; eauto.
Qed.

Lemma audit_participants_codes (s : Impl St) seen l f :
  f ∈ audit_participants s seen l →
  af_code f = StatusCode.InternalInvariantViolation ∨ af_code f = StatusCode.DuplicateIdentity
  ∨ af_code f = StatusCode.Retired.
Proof.
  revert seen. induction l as [|[id p] l IH]; intros seen Hf; simpl in Hf; sift; eauto.
Qed.

(** The codes the next theorem excludes, and the facts that would raise them. *)
Definition excluded (c : StatusCode.t) : Prop :=
  c = StatusCode.ExclusiveWriterConflict ∨ c = StatusCode.NotAuthoritative ∨ c = StatusCode.InvalidArgument.

Ltac other_code := repeat match goal with H : excluded _ |- _ => destruct H as [H|[H|H]]; simpl in H end; discriminate.

Lemma audit_region_source (s : Impl St) r f :
  f ∈ audit_region s r → excluded (af_code f) →
  ∃ o, objects s !! r_object r = Some o ∧ checked_range (r_offset r) (r_length r) (o_length o) = false.
Proof.
  unfold audit_region, audit_region_participant, audit_region_pending. intros Hf Hc.
  sift; try other_code. all: eexists; split; [done|]; by apply negb_true_iff.
Qed.

Lemma audit_object_source (s : Impl St) o f :
  f ∈ audit_object s o → excluded (af_code f) →
  exclusive o = true ∧ (defined (o_writer o) = false ∨ existsb (foreign_grant o) (o_reads o) = true).
Proof.
  unfold audit_object, audit_replicas, audit_writer, audit_grant, audit_exclusivity, audit_pending,
    audit_outstanding. intros Hf Hc. sift; try other_code.
  - split; [done|]. left. by apply negb_true_iff.
  - apply andb_true_iff in H0 as []. auto.
Qed.

Lemma audit_source (s : Impl St) f :
  f ∈ audit_findings s → excluded (af_code f) →
  (∃ k r o, regions s !! k = Some r ∧ objects s !! r_object r = Some o ∧
     checked_range (r_offset r) (r_length r) (o_length o) = false) ∨
  (∃ k o, objects s !! k = Some o ∧ exclusive o = true ∧
     (defined (o_writer o) = false ∨ existsb (foreign_grant o) (o_reads o) = true)).
Proof.
  intros Hf Hc. unfold audit_findings in Hf.
  repeat (apply elem_of_app in Hf as [Hf|Hf]).
  - apply audit_domains_codes in Hf as [E|E]; rewrite E in Hc; other_code.
  - apply audit_participants_codes in Hf as [E|[E|E]]; rewrite E in Hc; other_code.
  - unfold audit_object_index in Hf. sift; other_code.
  - unfold audit_region_index in Hf. sift; other_code.
  - unfold audit_store in Hf. sift; other_code.
  - left. apply elem_of_concat_fmap in Hf as (r & Hr & Hf). apply map_values_elem in Hr as [k Hk].
    destruct (audit_region_source s r f Hf Hc) as (o & ? & ?). eauto 6.
  - unfold audit_accounting in Hf. sift; other_code.
  - right. apply elem_of_concat_fmap in Hf as (o & Ho & Hf). apply map_values_elem in Ho as [k Hk].
    destruct (audit_object_source s o f Hf Hc). eauto.
  - unfold audit_invalidation in Hf. sift; other_code.
  - unfold audit_sync in Hf. sift; other_code.
Qed.

(** What the auditor can never report.  In a reachable state the audit has
    no finding about a reader beside an exclusive writer, about write authority
    without an owner, or about a replica extent outside its object. *)
Theorem audit_never_reports sys f :
  reachable image_ok sys → f ∈ ar_findings (audit (sys_engine sys)) →
  af_code f ≠ StatusCode.ExclusiveWriterConflict ∧ af_code f ≠ StatusCode.NotAuthoritative ∧
  af_code f ≠ StatusCode.InvalidArgument.
Proof.
  intros HR Hf. apply elem_of_audit in Hf. cut (¬ excluded (af_code f)); [unfold excluded; tauto|].
  intros Hc. pose proof (reachable_full_inv sys HR) as [Ho Hr _ _].
  destruct (audit_source _ f Hf Hc) as [(k & r & o & Hk & Hro & Hx)|(k & o & Hk & He & Hw)].
  - destruct (Hr _ _ Hk) as (_ & o' & ? & _ & ? & _). simplify_eq. congruence.
  - destruct (Ho _ _ Hk) as (_ & Hreads & Hwr & _). unfold writer_ok in Hwr. destruct Hw as [Hw|Hw]; [congruence|].
    apply existsb_exists in Hw as (g & Hg & Hfg). apply list_elem_of_In in Hg.
    pose proof (proj1 (Forall_forall _ _) (Hreads He) g Hg) as Hrel. unfold foreign_grant in Hfg. by rewrite Hrel in Hfg.
Qed.
End safety.

(** ** Instances on the concrete run *)

Lemma exclusive_excludes_readers_witness :
  length (o_reads (object_of s_exclusive)) = 1 ∧
  Forall (λ g, g_released g = true) (o_reads (object_of s_exclusive)).
Proof.
  split; [vm_compute; reflexivity|].
  apply (exclusive_excludes_readers (λ _, True) (mkSys s_exclusive []) obj (object_of s_exclusive));
    [by apply s_exclusive_reachable|vm_compute; reflexivity..].
Defined.

Lemma current_replica_is_authoritative_witness :
  r_version (region_of s_transfer reg_a) = o_authoritative_version (object_of s_transfer).
Proof.
  apply (current_replica_is_authoritative (mkSys s_transfer []) reg_a (region_of s_transfer reg_a) (object_of s_transfer));
    [apply s_transfer_reachable, default_image_ok|vm_compute; reflexivity..].
Defined.

Lemma version_advances_by_one_witness :
  o_authoritative_version (object_of s_published) = o_authoritative_version (object_of s_appended) ∨
  (o_authoritative_version (object_of s_published) = next_version (o_authoritative_version (object_of s_appended)) ∧
   ∃ l, (l, Some StatusCode.Ok) ∈ [(l_a, Some StatusCode.Ok)] ∧ pp_object (pl_pending l) = obj ∧
        pp_version (pl_pending l) = o_authoritative_version (object_of s_published)).
Proof.
  apply (version_advances_by_one (mkSys s_appended [(l_a, Some StatusCode.Ok)])
    (mkSys (publish_commit l_a StatusCode.Ok s_appended).1 []) obj (object_of s_appended) (object_of s_published)).
  - apply s_appended_reachable, default_image_ok.
  - apply (step_commit image_ok s_appended [] [] l_a StatusCode.Ok _ (publish_commit l_a StatusCode.Ok s_appended).2).
    by destruct (publish_commit _ _ _).
  - vm_compute; reflexivity.
  - vm_compute; reflexivity.
Defined.

Lemma writer_iff_exclusive_witness :
  o_id (object_of s_exclusive) = obj ∧
  defined (o_writer (object_of s_exclusive)) = exclusive (object_of s_exclusive) ∧
  (o_has_unpublished_dirty (object_of s_exclusive) = true →
   o_dirty_condition (object_of s_exclusive) = DirtyCondition.DirtyUnpublished).
Proof.
  apply (writer_iff_exclusive (λ _, True) (mkSys s_exclusive []) obj (object_of s_exclusive));
    [by apply s_exclusive_reachable|vm_compute; reflexivity].
Defined.

Lemma replica_well_placed_witness :
  r_id (region_of s_transfer reg_b) = reg_b ∧ ∃ o, objects (sys_engine (mkSys s_transfer [])) !! r_object (region_of s_transfer reg_b) = Some o ∧
    reg_b ∈ o_replicas o ∧ (u64_ok (o_length o) → r_offset (region_of s_transfer reg_b) + r_length (region_of s_transfer reg_b) ≤ o_length o)%N.
Proof.
  apply (replica_well_placed (mkSys s_transfer []) reg_b (region_of s_transfer reg_b));
    [apply s_transfer_reachable, default_image_ok|vm_compute; reflexivity..].
Defined.

(** Beta's replica is retired and the run goes on. *)
Definition s_retired : Engine := run [OpRetireRegion reg_b (from_value 1) ep1] s_transfer.

Lemma retirement_is_permanent_witness :
  r_lifecycle (region_of s_retired reg_b) = RegionLifecycle.Retired ∧
  ∃ r', regions (sys_engine (mkSys (exec (OpAcquireWrite write_a) s_retired) [])) !! reg_b = Some r' ∧
    r_lifecycle r' = RegionLifecycle.Retired ∧ r_object r' = r_object (region_of s_retired reg_b).
Proof.
  split; [vm_compute; reflexivity|].
  apply (proj2 (retirement_is_permanent (mkSys s_retired []) (mkSys (exec (OpAcquireWrite write_a) s_retired) [])
    ltac:(eexists; apply run_reachable, run_reachable, run_reachable, s_published_reachable, default_image_ok)
    ltac:(apply rtc_once, step_op)) reg_b (region_of s_retired reg_b)); vm_compute; reflexivity.
Defined.

(** Fencing leaves findings, none of them of the excluded kinds. *)
Definition s_cut_off : Engine := run [OpFenceParticipant (from_value 2) ep1 "gone"] s_transfer.

Lemma audit_never_reports_witness :
  match ar_findings (audit (sys_engine (mkSys s_cut_off []))) with
  | f :: _ => af_code f ≠ StatusCode.ExclusiveWriterConflict ∧ af_code f ≠ StatusCode.NotAuthoritative ∧
              af_code f ≠ StatusCode.InvalidArgument
  | [] => False
  end.
Proof.
  destruct (ar_findings (audit (sys_engine (mkSys s_cut_off [])))) as [|f l] eqn:E; [vm_compute in E; discriminate E|].
  apply (audit_never_reports (mkSys s_cut_off []) f).
  - eexists. apply run_reachable, run_reachable, run_reachable, s_published_reachable, default_image_ok.
  - rewrite E. apply list_elem_of_here.
Defined.
