(* ===== verification/Reading.v ===== *)
(** * What a read decision means

    The answers of [compute_read_locked] that let the caller use a replica:
    a current read is backed by the replica's state, version and evidence, or by
    the snapshot it covers, and a stale read by what the policy declares. *)
From S2P Require Import Prelude Ids Enums Status Bytes Policy Evidence Model Decisions Persistence.
From S2P Require Import Engine Resolve Core Registry Read Auditor Frame Evolution Steps Scenario.

Section reading.
Context {St : Type} `{DurableStore St}.
Implicit Types s : Impl St.

(** ** The replica a decision is about *)

(** The request was validated and names, or was given, replica [r] of [o]. *)
Record read_basis (req : ReadRequest) s (d : ReadDecision) (o : ObjectRecord) (pol : CoherencePolicy)
    (r : RegionRecord) : Prop := {
  rb_resolved : ∃ p, resolved (rr_context req) s o p;
  rb_policy : policies s !! o_policy o = Some pol;
  rb_version : defined (o_authoritative_version o) = true;
  rb_region : regions s !! rd_region d = Some r;
  rb_object : r_object r = o_id o;
  rb_requested : defined (rr_region req) = true → rd_region d = rr_region req;
  rb_generation : defined (rr_region_generation req) = true → r_generation r = rr_region_generation req }.

(** A replica may serve the authoritative version now. *)
Definition serves_current s (pol : CoherencePolicy) (o : ObjectRecord) (r : RegionRecord) : Prop :=
  r_state r = CoherenceState.Current ∧ r_version r = o_authoritative_version o ∧
  fresh (assess_region_locked pol r s) = true.

(** A replica may serve the snapshot [v] the request names. *)
Definition serves_snapshot (o : ObjectRecord) (v : VersionId) (r : RegionRecord) : Prop :=
  defined v = true ∧ (value v ≤ value (o_authoritative_version o))%N ∧ (value v ≤ value (r_version r))%N ∧
  (r_state r = CoherenceState.Current ∨ r_state r = CoherenceState.Stale).

(** The policy lets a replica lag. *)
Definition lag_permitted (pol : CoherencePolicy) (o : ObjectRecord) (r : RegionRecord) : Prop :=
  pol_stale_read_policy pol = StaleReadPolicy.Always ∨
  pol_stale_read_policy pol = StaleReadPolicy.Bounded ∧ defined (r_version r) = true ∧
  (value (r_version r) ≤ value (o_authoritative_version o) ∧
   u64_sub (value (o_authoritative_version o)) (value (r_version r)) ≤ pol_stale_read_bound_versions pol)%N.

(** Two records with the same grants and authority. *)
Definition same_reads (o o' : ObjectRecord) : Prop :=
  o_reads o' = o_reads o ∧ o_authority o' = o_authority o.

(** ** Inversion of the decision *)

(** Selection only rewrites the object's cache. *)
Lemma select_read_region_frame key req s :
  let s' := (select_read_region_locked key req s).2 in
  regions s' = regions s ∧ participants s' = participants s ∧ epoch s' = epoch s ∧ sequence s' = sequence s
  ∧ config s' = config s ∧
  ∀ o, objects s !! key = Some o → ∃ o', objects s' !! key = Some o' ∧ same_reads o o'.
Proof.
  unfold select_read_region_locked, same_reads. repeat case_match; split_and!; try done; try (by eauto).
  all: intros o' Ho'; simplify_eq; cbn [snd]; first [by eauto|eexists; split; [apply lookup_insert_eq|first [done|by case_match]]].
Qed.

Lemma select_requested key req s :
  defined req = true → (select_read_region_locked key req s).1 = req.
Proof. unfold select_read_region_locked. by intros ->. Qed.

Lemma observe_region_fields r f d :
  rd_region (observe_region r f d) = rd_region d ∧
  rd_authoritative_version (observe_region r f d) = rd_authoritative_version d.
Proof. unfold observe_region. by case_match. Qed.

Lemma lease_read_fields key req r d s :
  rd_outcome (lease_read key req r d s).1 = rd_outcome d ∧ rd_region (lease_read key req r d s).1 = rd_region d.
Proof. unfold lease_read. by repeat case_match. Qed.

(** A usable answer comes from [read_region] on a resolved replica. *)
Lemma compute_read_inv req lease s s' d :
  compute_read_locked req lease s = (s', success d) →
  rd_outcome d = ReadOutcome.ReadCurrent ∨ rd_outcome d = ReadOutcome.ReadStaleAllowed →
  ∃ o pol r d0 s1,
    (∃ p, resolved (rr_context req) s o p) ∧ policies s !! o_policy o = Some pol ∧
    defined (o_authoritative_version o) = true ∧ rd_authoritative_version d0 = o_authoritative_version o ∧
    rd_staleness_known d0 = false ∧ (defined (rr_region req) = true → rd_region d0 = rr_region req) ∧
    region_resolved o (rd_region d0) (rr_region_generation req) s r ∧
    assess_region_locked pol r s1 = assess_region_locked pol r s ∧ config s1 = config s ∧
    (∃ o1, objects s1 !! ac_object (rr_context req) = Some o1 ∧ same_reads o o1) ∧
    read_region (ac_object (rr_context req)) req lease pol o r d0 s1 = (s', success d).
Proof.
  unfold compute_read_locked. intros Hc Hd. revert Hc.
  destruct (make_context _ _ _ _ s) as [ctx s0] eqn:Emc. unfold make_context in Emc. simplify_eq.
  set (s0 := s <| next_decision_id ::= u64_succ |>).
  destruct (resolve_locked _ s) as [[o p]|c] eqn:Er.
  2: { unfold answer_read, read_refused, read_with. intros [= <- <-]. simpl in Hd. case_match; naive_solver. }
  apply resolve_locked_success in Er.
  destruct (policy_locked o s0) as [pol|] eqn:Ep; [|done].
  destruct (decide (_ ∨ _)) as [|Hspec]; [intros [= <- <-]; simpl in Hd; naive_solver|].
  pose proof (select_read_region_frame (ac_object (rr_context req)) (rr_region req) s0) as Hf.
  pose proof (select_requested (ac_object (rr_context req)) (rr_region req) s0) as Hsel.
  destruct (select_read_region_locked _ _ s0) as [sel s1]. cbn [fst snd] in *. destruct Hf as (Hr1 & Hp1 & He1 & Hs1 & Hc1 & Ho1).
  destruct (negb (defined _)) eqn:Hdef; [intros [= <- <-]; simpl in Hd; naive_solver|].
  destruct (negb (defined sel)); [intros [= <- <-]; simpl in Hd; naive_solver|].
  destruct (resolve_region_locked _ _ _ s1) as [r|c] eqn:Err; [|intros [= <- <-]; simpl in Hd; naive_solver].
  apply resolve_region_success in Err. intros Hread. apply negb_false_iff in Hdef.
  eexists o, pol, r, _, s1. split_and!; [eauto|exact Ep|exact Hdef|..|exact Hread]; [done|done|done| | |done|by apply (Ho1 _ (res_object _ _ _ _ Er))].
  - change (regions s1 = regions s) in Hr1. destruct Err. split; [by rewrite <-Hr1|done..].
  - unfold assess_region_locked, region_evidence_record, region_evidence_context. by rewrite Hp1, He1, Hs1.
Qed.

(** The two usable answers of [read_region]. *)
Lemma read_region_current key req lease pol o r d0 s s' d :
  rd_authoritative_version d0 = o_authoritative_version o → defined (o_authoritative_version o) = true →
  read_region key req lease pol o r d0 s = (s', success d) → rd_outcome d = ReadOutcome.ReadCurrent →
  rd_region d = rd_region d0 ∧
  (pol_consistency pol ≠ ConsistencyModel.Snapshot ∧ serves_current s pol o r ∨
   pol_consistency pol = ConsistencyModel.Snapshot ∧ serves_snapshot o (rr_snapshot_version req) r).
Proof.
  intros Hv Hdef. unfold read_region.
  destruct (observe_region_fields r (assess_region_locked pol r s) d0) as [Hrg Hav].
  set (d1 := observe_region _ _ d0) in *.
  destruct (decide (pol_consistency pol = _)) as [Hs|Hs].
  { unfold snapshot_read, answer_read, read_with. intros [= <- <-]. revert Hrg.
    destruct (negb (defined (rr_snapshot_version req))) eqn:Hsd; [done|]. apply negb_false_iff in Hsd.
    destruct (id_lt _ _) eqn:Hlt; [done|]. destruct (_ && _) eqn:Hall; [|done]. simpl. intros Hrg _.
    split; [done|]. right. split; [done|].
    rewrite !andb_true_iff, orb_true_iff, is_current_state_spec, bool_decide_eq_true, id_le_spec in Hall.
    split; [done|]. split; [|tauto]. apply N.le_ngt. intros Hx. apply id_lt_spec in Hx. congruence. }
  destruct (_ && _ && _) eqn:Hall.
  - intros He Ho. assert (rd_region d = rd_region d0) as ->.
    { destruct lease; [|unfold answer_read in He; by simplify_eq].
      pose proof (lease_read_fields key req r (read_with ReadOutcome.ReadCurrent StatusCode.Ok d1) s) as [_ Hl].
      destruct (lease_read _ _ _ _ s). unfold answer_read in He. simplify_eq. cbn [fst] in Hl. by rewrite Hl. }
    split; [done|]. left. split; [done|].
    rewrite !andb_true_iff, orb_true_iff, is_current_state_spec, bool_decide_eq_true, Hav, Hv, Hdef in Hall.
    destruct Hall as [[? [|]] ?]; [done|]. by split_and!.
  - destruct (stale_permitted _ _ && _); [intros [= <- <-]; done|].
    unfold blocked_read, answer_read. repeat (case_match; [intros [= <- <-]; done|]).
    destruct (recoverable_source _ _ _) as [[] ?]; intros [= <- <-]; done.
Qed.

Lemma read_region_stale key req lease pol o r d0 s s' d :
  rd_authoritative_version d0 = o_authoritative_version o →
  read_region key req lease pol o r d0 s = (s', success d) → rd_outcome d = ReadOutcome.ReadStaleAllowed →
  rd_region d = rd_region d0 ∧ is_readable_state (r_state r) = true ∧
  pol_consistency pol ≠ ConsistencyModel.Snapshot ∧ ¬ serves_current s pol o r ∧
  (rd_staleness_known d0 = false → lag_permitted pol o r).
Proof.
  intros Hv. unfold read_region.
  destruct (observe_region_fields r (assess_region_locked pol r s) d0) as [Hrg Hav].
  destruct (decide (pol_consistency pol = _)) as [Hs|Hs].
  { unfold snapshot_read, answer_read, read_with. intros [= <- <-]. repeat (case_match; [done|]). done. }
  destruct (is_current_state _ && _ && _) eqn:Hall.
  { destruct lease; [|by intros [= <- <-]]. intros He Ho.
    match type of He with context [lease_read key req r ?x s] => pose proof (lease_read_fields key req r x s) as [Hl _] end.
    destruct (lease_read _ _ _ _ s). unfold answer_read in He. simplify_eq. cbn [fst] in Hl. by rewrite Hl in Ho. }
  destruct (stale_permitted _ _ && _) eqn:Hst.
  - intros [= <- <-] _. apply andb_true_iff in Hst as [Hst Hread]. split_and!; [done..| |].
    { intros (Hcu & Hve & Hfr). rewrite Hav, Hv, Hcu, Hve, Hfr, bool_decide_true in Hall by done.
      by rewrite orb_true_r in Hall. }
    intros Hk. unfold stale_permitted, observe_region in Hst. unfold lag_permitted.
    destruct (pol_stale_read_policy pol); try done; [|by left]. right. split; [done|].
    destruct (_ && _ && _) eqn:Hb in Hst; simpl in Hst; [|by rewrite Hk in Hst].
    simpl in Hb. rewrite !andb_true_iff, id_le_spec, Hv in Hb. rewrite N.leb_le, Hv in Hst. tauto.
  - unfold blocked_read, answer_read. repeat (case_match; [intros [= <- <-]; done|]).
    destruct (recoverable_source _ _ _) as [[] ?]; intros [= <- <-]; done.
Qed.

Lemma acquire_read_compute req s s' d :
  acquire_read req s = (s', success d) →
  compute_read_locked req true s = ((compute_read_locked req true s).1, success d).
Proof. unfold acquire_read. destruct (compute_read_locked req true s) as [s1 x]. by intros [= _ ->]. Qed.

(** C9: a current read is current.  When [acquire_read] answers that a replica
    may be read as current, the request was validated, the answer names a
    replica of the object, and, outside snapshot consistency, that replica is in
    the current state, holds the authoritative version and carries evidence that
    is fresh now; under snapshot consistency it covers the named snapshot, which
    is not newer than the authoritative version. *)
Theorem current_read_is_current req s s' d :
  acquire_read req s = (s', success d) → rd_outcome d = ReadOutcome.ReadCurrent →
  ∃ o pol r, read_basis req s d o pol r ∧
    (pol_consistency pol ≠ ConsistencyModel.Snapshot ∧ serves_current s pol o r ∨
     pol_consistency pol = ConsistencyModel.Snapshot ∧ serves_snapshot o (rr_snapshot_version req) r).
Proof.
  intros Hr%acquire_read_compute Hd.
  destruct (compute_read_inv _ _ _ _ _ Hr (or_introl Hd))
    as (o & pol & r & d0 & s1 & ? & ? & ? & Hv & _ & Hreq & [] & Ha & _ & _ & Hread).
  destruct (read_region_current _ _ _ _ _ _ _ _ _ _ Hv H2 Hread Hd) as (Hrg & Hc).
  exists o, pol, r. split; [split; rewrite ?Hrg; done|]. unfold serves_current in *. by rewrite Ha in Hc.
Qed.

(** C10: every read that is served was declared.  When [acquire_read] lets the
    caller use a replica, the request was validated, the answer names a replica
    of the object, and the policy of the object accounts for it: a read answered
    as current is current (C9's conditions), or it is a snapshot read, under
    snapshot consistency, of a version the replica covers, and then neither its
    lag nor its evidence is bounded; a read answered as stale is outside
    snapshot consistency, its replica is not current but in a readable state,
    and the policy allows stale reads always (then without a bound) or bounds
    them and the replica lags the authoritative version by at most that bound.
    Under a strict policy that passed validation only current replicas are
    served. *)
Theorem served_reads_are_declared req s s' d :
  acquire_read req s = (s', success d) →
  rd_outcome d = ReadOutcome.ReadCurrent ∨ rd_outcome d = ReadOutcome.ReadStaleAllowed →
  ∃ o pol r, read_basis req s d o pol r ∧
    (rd_outcome d = ReadOutcome.ReadCurrent →
       pol_consistency pol ≠ ConsistencyModel.Snapshot ∧ serves_current s pol o r ∨
       pol_consistency pol = ConsistencyModel.Snapshot ∧ serves_snapshot o (rr_snapshot_version req) r) ∧
    (rd_outcome d = ReadOutcome.ReadStaleAllowed →
       pol_consistency pol ≠ ConsistencyModel.Snapshot ∧ is_readable_state (r_state r) = true ∧
       ¬ serves_current s pol o r ∧ lag_permitted pol o r) ∧
    (validate_policy pol = StatusCode.Ok → pol_consistency pol = ConsistencyModel.Strict →
       rd_outcome d = ReadOutcome.ReadCurrent ∧ serves_current s pol o r).
Proof.
  intros Hr%acquire_read_compute Hd.
  destruct (compute_read_inv _ _ _ _ _ Hr Hd)
    as (o & pol & r & d0 & s1 & ? & ? & ? & Hv & Hk & Hreq & [] & Ha & _ & _ & Hread).
  assert (serves_current s1 pol o r ↔ serves_current s pol o r) as Hsc by (unfold serves_current; by rewrite Ha).
  exists o, pol, r. destruct Hd as [Hd|Hd].
  - destruct (read_region_current _ _ _ _ _ _ _ _ _ _ Hv H2 Hread Hd) as (Hrg & Hc). rewrite Hsc in Hc.
    split; [split; rewrite ?Hrg; done|]. split; [done|]. split; [intros; congruence|].
    intros _ Hst. destruct Hc as [[_ Hc]|[Hc _]]; [done|congruence].
  - destruct (read_region_stale _ _ _ _ _ _ _ _ _ _ Hv Hread Hd) as (Hrg & Hrd & Hns & Hnc & Hlag). rewrite Hsc in Hnc.
    split; [split; rewrite ?Hrg; done|]. split; [intros; congruence|]. split; [intros _; auto|].
    intros Hval Hst. pose proof (validate_strict pol Hval Hst) as Hn.
    destruct (Hlag Hk) as [Hal|[Hb _]]; congruence.
Qed.

(** The grant a lease leaves behind. *)
Definition live_grant (ctx : AuthorityContext) (id : RegionId) (v : VersionId) (l : LeaseId) (g : ReadGrant) : Prop :=
  g_released g = false ∧ g_participant g = ac_participant ctx ∧ g_boot g = ac_boot ctx ∧
  g_region g = id ∧ g_version g = v ∧ g_lease g = l.

Lemma add_read_grant_same o r p b l s :
  exclusive o = false → (N.of_nat (length (o_reads o)) < cfg_max_reads_per_object (config s))%N →
  existsb (same_grant p b r) (o_reads (add_read_grant_locked o r p b l s)) = true.
Proof.
  intros He Hlen. unfold add_read_grant_locked. destruct (existsb _ (o_reads o)) eqn:Hex; [done|].
  apply N.leb_gt in Hlen. unfold exclusive in He. rewrite Hlen.
  destruct (o_authority o); try done; case_decide; simpl; rewrite existsb_app, Hex; simpl;
    unfold same_grant; simpl; by rewrite !bool_decide_true by done.
Qed.

Lemma lease_read_grant key req r d s o :
  objects s !! key = Some o → exclusive o = false →
  (N.of_nat (length (o_reads o)) < cfg_max_reads_per_object (config s))%N →
  ∃ o' g, objects (lease_read key req r d s).2 !! key = Some o' ∧ g ∈ o_reads o' ∧
    live_grant (rr_context req) (r_id r) (r_version r) (rd_lease (lease_read key req r d s).1) g.
Proof.
  intros Ho He Hlen. unfold lease_read. simpl. rewrite Ho. cbn [snd].
  set (o' := add_read_grant_locked _ _ _ _ _ _).
  assert (existsb (same_grant (ac_participant (rr_context req)) (ac_boot (rr_context req)) r) (o_reads o') = true) as Hex
    by (by apply add_read_grant_same).
  destruct (List.find _ (o_reads o')) as [g|] eqn:Hf.
  - exists o', g. apply List.find_some in Hf as [Hin Hg]. rewrite <-list_elem_of_In in Hin.
    unfold same_grant in Hg. rewrite !andb_true_iff, negb_true_iff, !bool_decide_eq_true in Hg.
    split_and!; [apply lookup_insert_eq|done|]. unfold live_grant. simpl. intuition.
  - apply existsb_exists in Hex as (g & Hin & Hg). pose proof (List.find_none _ _ Hf _ Hin). congruence.
Qed.

(** A current read takes its lease.  When [acquire_read] answers that a
    replica is current, outside snapshot consistency, and the object is neither
    exclusively owned nor at its limit of grants, the object afterwards records
    a live grant of the caller's incarnation on that replica at the
    authoritative version, under the lease the answer carries. *)
Theorem current_read_takes_lease req s s' d o pol r :
  acquire_read req s = (s', success d) → rd_outcome d = ReadOutcome.ReadCurrent →
  read_basis req s d o pol r → pol_consistency pol ≠ ConsistencyModel.Snapshot → exclusive o = false →
  (N.of_nat (length (o_reads o)) < cfg_max_reads_per_object (config s))%N →
  ∃ o' g, objects s' !! ac_object (rr_context req) = Some o' ∧ g ∈ o_reads o' ∧
    live_grant (rr_context req) (r_id r) (o_authoritative_version o) (rd_lease d) g.
Proof.
  intros Hr Hd Hb Hns He Hlen. pose proof (acquire_read_compute _ _ _ _ Hr) as Hc.
  assert (live_eq s' (compute_read_locked req true s).1) as L.
  { unfold acquire_read in Hr. rewrite Hc in Hr. simplify_eq. apply maybe_compact_live. }
  destruct (compute_read_inv _ _ _ _ _ Hc (or_introl Hd))
    as (o2 & pol2 & r2 & d0 & s1 & [p Hres] & Hpol & Hdef & Hv & _ & Hreq & Hrr & Ha & Hcfg & (o1 & Ho1 & Hrd & Hau) & Hread).
  destruct (read_region_current _ _ _ _ _ _ _ _ _ _ Hv Hdef Hread Hd) as (Hrg & Hsv).
  destruct Hb as [[p' Hres'] Hpol' _ Hreg' _ _ _]. destruct Hres, Hres', Hrr. rewrite Hrg in Hreg'. simplify_eq.
  destruct Hsv as [[_ (Hst & Hver & Hfr)]|[? _]]; [|done].
  setoid_rewrite (live_objects _ _ L). revert Hread. generalize (compute_read_locked req true s).1 as t. intros t. unfold read_region.
  rewrite decide_False by done. destruct (_ && _ && _) eqn:Hall.
  - match goal with |- context [lease_read ?k req r ?x s1] => destruct (lease_read_grant k req r x s1 o1 Ho1) as (o' & g & Hg);
      [by unfold exclusive in *; rewrite Hau|by rewrite Hrd, Hcfg|]; destruct (lease_read k req r x s1) as [dl sl] end.
    cbn [fst snd] in Hg. rewrite Hver in Hg. unfold answer_read. intros [= <- <-].
    setoid_rewrite (live_objects _ _ (record_decision_live _ _ _ _)). eauto.
  - exfalso. destruct (observe_region_fields r (assess_region_locked pol r s1) d0) as [_ Hav].
    rewrite Hav, Hv, Hst, Hver, Hfr in Hall. rewrite bool_decide_true in Hall by done.
    by rewrite orb_true_r in Hall.
Qed.
End reading.

(** ** Instances on the concrete run *)

Definition d_current : ReadDecision := answer_or default_ReadDecision (acquire_read read_b s_synced).2.
Definition d_stale : ReadDecision := answer_or default_ReadDecision (acquire_read read_b s_lagging).2.
Definition pol_strict : CoherencePolicy :=
  default default_CoherencePolicy (policies s_synced !! o_policy (object_of s_synced)).

Lemma current_read_is_current_witness :
  ∃ o pol r, read_basis read_b s_synced d_current o pol r ∧
    (pol_consistency pol ≠ ConsistencyModel.Snapshot ∧ serves_current s_synced pol o r ∨
     pol_consistency pol = ConsistencyModel.Snapshot ∧ serves_snapshot o (rr_snapshot_version read_b) r).
Proof.
  apply (current_read_is_current read_b s_synced (acquire_read read_b s_synced).1 d_current); vm_compute; reflexivity.
Defined.

Lemma served_reads_are_declared_witness :
  rd_outcome d_stale = ReadOutcome.ReadStaleAllowed ∧
  ∃ o pol r, read_basis read_b s_lagging d_stale o pol r ∧ ¬ serves_current s_lagging pol o r ∧ lag_permitted pol o r.
Proof.
  split; [by vm_compute|].
  destruct (served_reads_are_declared read_b s_lagging (acquire_read read_b s_lagging).1 d_stale)
    as (o & pol & r & Hb & _ & Hs & _); [vm_compute; reflexivity|right; vm_compute; reflexivity|].
  destruct Hs as (_ & _ & Hn & Hl); [vm_compute; reflexivity|]. exists o, pol, r. done.
Defined.

Lemma current_read_takes_lease_witness :
  ∃ o' g, objects (acquire_read read_b s_synced).1 !! ac_object (rr_context read_b) = Some o' ∧ g ∈ o_reads o' ∧
    live_grant (rr_context read_b) (r_id (region_of s_synced reg_b))
      (o_authoritative_version (object_of s_synced)) (rd_lease d_current) g.
Proof.
  apply (current_read_takes_lease read_b s_synced (acquire_read read_b s_synced).1 d_current (object_of s_synced)
    pol_strict (region_of s_synced reg_b)); try (vm_compute; reflexivity); [|by vm_compute].
  split; try (vm_compute; reflexivity); try (by intros ?).
  eexists. apply resolve_locked_success. vm_compute. reflexivity.
Defined.
