(* ===== verification/Writing.v ===== *)
(** * What a write grant means

    Exclusion between incarnations, what permission to mutate establishes, and
    what a transfer that is still pending waits for. *)
From S2P Require Import Prelude Ids Enums Status Bytes Policy Evidence Model Decisions Persistence.
From S2P Require Import Engine Resolve Core Registry Read Write Auditor Frame Evolution Steps.
From S2P Require Import System Scenario.

Section writing.
Context {St : Type} `{DurableStore St}.
Implicit Types s : Impl St.

(** ** Inversion of the handler *)

(** What [acquire_write] does once the request has passed its gates. *)
Inductive write_case (req : WriteRequest) s (o : ObjectRecord) : Impl St → result WriteGrant → Prop :=
  (** Refused, without any effect on the coherence state. *)
  | write_refused s' a :
      live_eq s' s → (∀ g, a = success g → wg_granted g = false ∧ wg_may_mutate_now g = false) →
      write_case req s o s' a
  (** The caller is the writer already. *)
  | write_held s' g :
      o_authority o = AuthorityMode.ExclusiveWriter → writer_is o (wr_context req) = true → live_eq s' s →
      write_case req s o s' (success g)
  (** The caller's transfer is pending. *)
  | write_pending s0 s' a c g :
      o_authority o = AuthorityMode.TransferPending → live_eq s0 s → wg_granted g = false →
      wg_may_mutate_now g = false →
      write_transfer_pending (ac_object (wr_context req)) (wr_context req) c o g s0 = (s', a) →
      write_case req s o s' a
  (** A reservation. *)
  | write_reserved s0 s' a c g p :
      exclusive o = false → live_eq s0 s → next_invalidation_id s0 = next_invalidation_id s →
      wg_required_invalidations g = [] → p_boot p = ac_boot (wr_context req) →
      reserve_write (ac_object (wr_context req)) (wr_context req) c o p
        (required_invalidations o (wg_writer_region g) s0) g s0 = (s', a) →
      write_case req s o s' a.

Lemma make_context_next a k n w s : next_invalidation_id (make_context a k n w s).2 = next_invalidation_id s.
Proof. done. Qed.

Lemma acquire_write_cases req s o s' a :
  objects s !! ac_object (wr_context req) = Some o → acquire_write req s = (s', a) → write_case req s o s' a.
Proof.
  intros Ho. unfold acquire_write.
  pose proof (make_context_next (wr_context req) (ac_object (wr_context req)) (ac_object_generation (wr_context req))
    (resolved_ownership (wr_context req) s) s) as Hnx. live_step. cbn [snd] in Hnx.
  assert (Hno : ∀ c g t, live_eq t s → wg_granted g = false → wg_may_mutate_now g = false →
    answer_write c g t = (s', a) → write_case req s o s' a).
  { intros c g t Hl Hg Hm. unfold answer_write. intros [= <- <-]. apply write_refused.
    - by rewrite record_decision_live.
    - intros ? [= <-]. done. }
  destruct (resolve_locked _ s) as [[o' p]|c] eqn:Er.
  2: { intros [= <- <-]. apply write_refused; [by rewrite record_decision_live|done]. }
  apply resolve_locked_success in Er. destruct Er as [_ _ _ Ho' _ _ _ _ _ _ Hboot]. simplify_eq.
  destruct (policy_locked o s0) as [pol|]; [|intros [= <- <-]; by apply write_refused].
  destruct (negb (ok _)); [by eapply Hno|].
  destruct (resolve_writer_region _ _ _) as [wr|c]; [|by eapply Hno].
  set (g := grant_region wr _).
  assert (wg_granted g = false ∧ wg_may_mutate_now g = false ∧ wg_required_invalidations g = []) as (Hg & Hm & Hq)
    by (by destruct wr).
  destruct (decide (o_authority o = AuthorityMode.ExclusiveWriter ∧ _)) as [[Ha Hw]|Hn].
  { unfold answer_write. intros [= <- <-]. apply write_held; [done..|]. by rewrite record_decision_live. }
  destruct (decide (o_authority o = AuthorityMode.TransferPending)) as [Ht|Ht].
  { intros Hp. by eapply write_pending. }
  destruct (decide (o_authority o = AuthorityMode.ExclusiveWriter)) as [He|He]; [by apply Hno|].
  destruct (match r_state <$> wr with Some _ => _ | None => _ end); [by apply Hno|].
  destruct (decide (_ ∧ _)); [by apply Hno|].
  intros Hp. eapply write_reserved; [|done|exact Hnx|exact Hq|exact Hboot|exact Hp].
  unfold exclusive. by destruct (o_authority o).
Qed.

Lemma unresolved_write req s :
  objects s !! ac_object (wr_context req) = None →
  live_eq (acquire_write req s).1 s ∧ has_value (acquire_write req s).2 = false.
Proof.
  intros Ho. unfold acquire_write. live_step. destruct (resolve_locked _ s) as [[o p]|c] eqn:Er.
  - apply resolve_locked_success in Er as []. congruence.
  - simpl. split; [|done]. by rewrite record_decision_live.
Qed.

(** Exclusion.  While one incarnation owns an object, exclusively or
    through a pending transfer, a write request of any other incarnation is not
    granted and leaves the whole coherence state as it was. *)
Theorem writers_exclude_each_other req s o :
  objects s !! ac_object (wr_context req) = Some o → exclusive o = true → writer_is o (wr_context req) = false →
  live_eq (acquire_write req s).1 s ∧
  ∀ g, (acquire_write req s).2 = success g → wg_granted g = false ∧ wg_may_mutate_now g = false.
Proof.
  intros Ho He Hw. destruct (acquire_write req s) as [s' a] eqn:E.
  destruct (acquire_write_cases _ _ _ _ _ Ho E) as [s' a Hl Hn|? ? ? Hw' ?|s0 s' a c g Ha Hl Hg Hm Hp|]; [done|congruence| |congruence].
  unfold write_transfer_pending in Hp. rewrite Hw in Hp. simpl in Hp. unfold answer_write in Hp. simplify_eq. simpl.
  split; [by rewrite record_decision_live|]. by intros ? [= <-].
Qed.

(** ** The invalidations of a transfer *)

#[local] Arguments issue_invalidation : simpl never.

Lemma install_fold_objects l s : objects (foldl install_invalidation s l) = objects s.
Proof. revert s. induction l as [|i l IH]; intros s; simpl; [done|]. by rewrite IH. Qed.

Lemma install_fold_other l s k :
  k ∉ i_id <$> l → invalidations (foldl install_invalidation s l) !! k = invalidations s !! k.
Proof.
  revert s. induction l as [|i l IH]; intros s Hk; simpl in *; [done|]. rewrite not_elem_of_cons in Hk.
  rewrite IH by tauto. apply lookup_insert_ne. naive_solver.
Qed.

Lemma install_fold_in l s i :
  NoDup (i_id <$> l) → i ∈ l → invalidations (foldl install_invalidation s l) !! i_id i = Some i.
Proof.
  revert s. induction l as [|j l IH]; intros s; simpl; [set_solver|]. rewrite NoDup_cons, elem_of_cons.
  intros [Hj Hnd] [->|Hi]; [|by apply IH]. rewrite install_fold_other by done. apply lookup_insert_eq.
Qed.

Lemma issue_fields o s n q : i_id (issue_invalidation o s n q) = from_value n ∧
  i_region (issue_invalidation o s n q) = i_region q ∧ i_object (issue_invalidation o s n q) = o_id o ∧
  i_region_generation (issue_invalidation o s n q) = i_region_generation q ∧
  i_state (issue_invalidation o s n q) = InvalidationState.Requested.
Proof. unfold issue_invalidation. by case_match. Qed.

Lemma issue_ids o s n l i m :
  (n + N.of_nat (length l) ≤ u64_max)%N → i ∈ issue_invalidations o s n l → i_id i = from_value m → (n ≤ m)%N.
Proof.
  revert n. induction l as [|q l IH]; intros n Hn; simpl; [set_solver|]. rewrite elem_of_cons. intros [->|Hi] Hm.
  - pose proof (eq_trans (eq_sym (proj1 (issue_fields o s n q))) Hm) as [= ->]. done.
  - simpl in Hn. rewrite (u64_succ_small n) in Hi by lia. apply IH in Hi; [lia..|done].
Qed.

Lemma issue_NoDup o s n l :
  (n + N.of_nat (length l) ≤ u64_max)%N → NoDup (i_id <$> issue_invalidations o s n l).
Proof.
  revert n. induction l as [|q l IH]; intros n Hn; simpl in *; [constructor|]. rewrite (u64_succ_small n) by lia.
  constructor; [|apply IH; lia]. intros (i & Hv & Hi)%list_elem_of_fmap.
  apply (issue_ids _ _ _ _ _ n) in Hi; [lia..|]. exact (eq_trans (eq_sym Hv) (proj1 (issue_fields o s n q))).
Qed.

Lemma issue_covers o s n l q :
  q ∈ l → ∃ i, i ∈ issue_invalidations o s n l ∧ i_region i = i_region q ∧ i_object i = o_id o ∧
    i_region_generation i = i_region_generation q ∧ i_state i = InvalidationState.Requested.
Proof.
  revert n. induction l as [|q' l IH]; intros n; simpl; [set_solver|]. rewrite elem_of_cons. intros [->|Hq].
  - destruct (issue_fields o s n q') as (_ & ?). eexists. split; [by left|done].
  - destruct (IH (u64_succ n) Hq) as (i & ? & ?). exists i. split; [by right|done].
Qed.

(** ** The reservation *)

(** Either the reservation could not be made durable and is rolled back, or it
    stands: the caller owns the object under the next ownership generation,
    every read grant is released, and the issued invalidations are installed. *)
Lemma reserve_write_spec k ctx c o p required g s s' a :
  reserve_write k ctx c o p required g s = (s', a) →
  match a with
  | failure _ => True
  | success g' =>
      ∃ o' issued, objects s' !! k = Some o' ∧ o_writer o' = ac_participant ctx ∧ o_writer_boot o' = p_boot p ∧
        o_authority o' = (if bool_decide (required = []) then AuthorityMode.ExclusiveWriter
                          else AuthorityMode.TransferPending) ∧
        o_ownership_generation o' = next (o_ownership_generation o) ∧
        Forall (λ x, x.(g_released) = true) (o_reads o') ∧
        wg_granted g' = true ∧ wg_may_mutate_now g' = bool_decide (required = []) ∧
        wg_writer_region g' = wg_writer_region g ∧
        wg_required_invalidations g' = wg_required_invalidations g ++ issued ∧
        (∀ q, q ∈ required → ∃ i, i ∈ issued ∧ i_region i = i_region q ∧ i_object i = o_id o ∧
           i_region_generation i = i_region_generation q ∧ i_state i = InvalidationState.Requested) ∧
        (∀ i, i ∈ issued → i_id i ∈ o_outstanding_invalidations o') ∧
        ((next_invalidation_id s + N.of_nat (length required) ≤ u64_max)%N →
           ∀ i, i ∈ issued → invalidations s' !! i_id i = Some i)
  end.
Proof.
  unfold reserve_write. set (issued := issue_invalidations _ _ _ _). set (o' := await_invalidations issued _).
  live_step. destruct (ok w); unfold answer_write; intros [= <- <-]; [|done].
  exists o', issued. rewrite (live_objects _ _ (record_decision_live _ _ _ _)), install_fold_objects, (live_objects _ _ L).
  split; [apply lookup_insert_eq|].
  split_and!; try done.
  - apply (released_all (o_reads o)).
  - intros q Hq. exact (issue_covers (reserve_writer _ _ _ _ o) _ _ _ q Hq).
  - intros i Hi. unfold o', await_invalidations. simpl. rewrite merge_sort_Permutation, elem_of_app. right.
    apply list_elem_of_fmap. eauto.
  - intros Hn i Hi. rewrite (live_invalidations _ _ (record_decision_live _ _ _ _)).
    apply install_fold_in; [|done]. by apply issue_NoDup.
Qed.

(** Every replica the transfer has to invalidate is in the required list. *)
Lemma required_covers o w s id r :
  id ∈ o_replicas o → regions s !! id = Some r → must_invalidate w r = true →
  required_of r ∈ required_invalidations o w s.
Proof.
  intros Hid Hr Hm. unfold required_invalidations. apply list_elem_of_fmap. exists r. split; [done|].
  apply list_elem_of_In, List.filter_In. split; [|done]. apply list_elem_of_In, list_elem_of_omap. eauto.
Qed.

Lemma required_length o w s : length (required_invalidations o w s) ≤ length (o_replicas o).
Proof.
  unfold required_invalidations. rewrite length_fmap. etransitivity; [apply List.filter_length_le|].
  induction (o_replicas o) as [|id l IH]; csimpl; [done|].
  destruct (regions s !! id); csimpl; lia.
Qed.

(** C14: permission to mutate is exclusive.  When [acquire_write] permits
    mutation now, the object afterwards is exclusively owned by the caller's
    incarnation, and every read grant is released if those of an owned object
    were (which they are in every reachable state).  If the object was not
    owned before, this request took it: ownership moved to the next generation,
    and every replica of the object is the writer's own, not live, or waiting
    for revalidation.  If it was owned, exclusively or through a transfer, the
    caller was its writer already, the generation stays, and what became of the
    other replicas is not this request's doing. *)
Theorem write_grant_is_exclusive req s s' g o :
  objects s !! ac_object (wr_context req) = Some o → acquire_write req s = (s', success g) →
  wg_may_mutate_now g = true →
  ∃ o', objects s' !! ac_object (wr_context req) = Some o' ∧
    o_authority o' = AuthorityMode.ExclusiveWriter ∧ writer_is o' (wr_context req) = true ∧
    ((exclusive o = true → Forall (λ x, g_released x = true) (o_reads o)) → Forall (λ x, g_released x = true) (o_reads o')) ∧
    if exclusive o then writer_is o (wr_context req) = true ∧ o_ownership_generation o' = o_ownership_generation o
    else
      o_ownership_generation o' = next (o_ownership_generation o) ∧
      ∀ id r, id ∈ o_replicas o → regions s !! id = Some r →
        r_id r = wg_writer_region g ∨ is_live_state (r_state r) = false ∨ r_state r = CoherenceState.RevalidationRequired.
Proof.
  intros Ho E Hm. pose proof (acquire_write_cases _ _ _ _ _ Ho E) as Hc. inversion Hc as
    [s1 a Hl Hn|s1 g1 Ha Hw Hl|s0 s1 a c g0 Ha Hl Hg Hm0 Hp|s0 s1 a c g0 p Hx Hl _ Hq Hb Hp]; subst; clear Hc.
  - destruct (Hn g eq_refl). congruence.
  - assert (exclusive o = true) as Hx by (unfold exclusive; by rewrite Ha).
    exists o. rewrite (live_objects _ _ Hl), Hx. split_and!; auto.
  - assert (exclusive o = true) as Hx by (unfold exclusive; by rewrite Ha). rewrite Hx.
    revert Hp. unfold write_transfer_pending. destruct (writer_is o _) eqn:Hw; simpl;
      [|unfold answer_write; intros [= <- <-]; simpl in Hm; congruence].
    destruct (negb _); [|unfold answer_write; intros [= <- <-]; done].
    live_step. destruct (ok w); [|done]. unfold answer_write. intros [= <- _].
    eexists. rewrite (live_objects _ _ (record_decision_live _ _ _ _)), (live_objects _ _ L).
    split; [apply lookup_insert_eq|]. split_and!; [done|exact Hw|intros Hrd; exact (Hrd eq_refl)|done|done].
  - apply reserve_write_spec in Hp as (o' & issued & Ho' & Hwr & Hbt & Hau & Hown & Hrd & Hgr & Hmm & Hwg & _).
    rewrite Hmm in Hm. rewrite Hm in Hau. exists o'. rewrite Hx. split_and!; [done..| |done|done|].
    + unfold writer_is. by rewrite !bool_decide_true by congruence.
    + intros id r Hid Hr. rewrite Hwg. apply bool_decide_eq_true in Hm. rewrite <-(live_regions _ _ Hl) in Hr.
      destruct (must_invalidate (wg_writer_region g0) r) eqn:Hmi.
      * pose proof (required_covers _ _ _ _ _ Hid Hr Hmi) as Hin. rewrite Hm in Hin. by apply elem_of_nil in Hin.
      * unfold must_invalidate in Hmi. rewrite !andb_false_iff, !negb_false_iff, !bool_decide_eq_true in Hmi. tauto.
Qed.

(** A transfer waits for every live replica.  When [acquire_write] takes
    authority without permitting mutation, the object is in transfer under the
    caller, and each replica that must give way has an invalidation, recorded as
    requested, listed in the answer and counted among the outstanding ones of
    the object (invalidation numbers not wrapping). *)
Theorem transfer_waits_for_replicas req s s' g o :
  objects s !! ac_object (wr_context req) = Some o → exclusive o = false →
  acquire_write req s = (s', success g) → wg_granted g = true → wg_may_mutate_now g = false →
  (next_invalidation_id s + N.of_nat (length (o_replicas o)) ≤ u64_max)%N →
  ∃ o', objects s' !! ac_object (wr_context req) = Some o' ∧
    o_authority o' = AuthorityMode.TransferPending ∧ writer_is o' (wr_context req) = true ∧
    ∀ id r, id ∈ o_replicas o → regions s !! id = Some r → must_invalidate (wg_writer_region g) r = true →
      ∃ i, i ∈ wg_required_invalidations g ∧ i_region i = r_id r ∧ i_region_generation i = r_generation r ∧
        i_id i ∈ o_outstanding_invalidations o' ∧ invalidations s' !! i_id i = Some i ∧
        i_state i = InvalidationState.Requested.
Proof.
  intros Ho Hx E Hg Hm Hnw. pose proof (acquire_write_cases _ _ _ _ _ Ho E) as Hc. inversion Hc as
    [s1 a Hl Hn|s1 g1 Ha Hw Hl|s0 s1 a c g0 Ha Hl Hg0 Hm0 Hp|s0 s1 a c g0 p _ Hl Hnx Hq Hb Hp]; subst; clear Hc.
  - destruct (Hn g eq_refl). congruence.
  - unfold exclusive in Hx. by rewrite Ha in Hx.
  - unfold exclusive in Hx. by rewrite Ha in Hx.
  - apply reserve_write_spec in Hp as
      (o' & issued & Ho' & Hwr & Hbt & Hau & Hown & Hrd & Hgr & Hmm & Hwg & Hreq & Hcov & Hout & Hinst).
    rewrite Hmm in Hm. rewrite Hm in Hau. exists o'. split_and!; [done..| |].
    + unfold writer_is. by rewrite !bool_decide_true by congruence.
    + intros id r Hid Hr Hmi. rewrite Hwg in Hmi. rewrite <-(live_regions _ _ Hl) in Hr.
      destruct (Hcov _ (required_covers _ _ _ _ _ Hid Hr Hmi)) as (i & Hi & Hreg & _ & Hgen & Hst).
      exists i. rewrite Hreq. split_and!; [set_solver|done|done|auto| |done]. apply Hinst; [|done].
      rewrite Hnx. pose proof (required_length o (wg_writer_region g0) s0). lia.
Qed.
End writing.

(** ** Instances on the concrete run *)

(** Beta asks for write authority while alpha's transfer is pending. *)
Definition write_b : WriteRequest := default_WriteRequest <| wr_context := ctx_b |> <| wr_region := reg_b |>.

Lemma writers_exclude_each_other_witness :
  live_eq (acquire_write write_b s_transfer).1 s_transfer ∧
  ∀ g, (acquire_write write_b s_transfer).2 = success g → wg_granted g = false ∧ wg_may_mutate_now g = false.
Proof.
  apply (writers_exclude_each_other write_b s_transfer (object_of s_transfer)); vm_compute; reflexivity.
Defined.

Definition g_immediate : WriteGrant :=
  answer_or default_WriteGrant (acquire_write write_a (run [OpRevalidate revalidate_a; OpRetireRegion reg_b (from_value 1) ep1] s_setup)).2.
Definition s_alone : Engine := run [OpRevalidate revalidate_a; OpRetireRegion reg_b (from_value 1) ep1] s_setup.

Lemma write_grant_is_exclusive_witness :
  exclusive (object_of s_alone) = false ∧
  ∃ o', objects (acquire_write write_a s_alone).1 !! ac_object (wr_context write_a) = Some o' ∧
    o_authority o' = AuthorityMode.ExclusiveWriter ∧ writer_is o' (wr_context write_a) = true ∧
    Forall (λ x, g_released x = true) (o_reads o') ∧
    o_ownership_generation o' = next (o_ownership_generation (object_of s_alone)).
Proof.
  split; [by vm_compute|].
  destruct (write_grant_is_exclusive write_a s_alone (acquire_write write_a s_alone).1 g_immediate (object_of s_alone))
    as (o' & H1 & H2 & H3 & H4 & H5); [vm_compute; reflexivity..|].
  assert (exclusive (object_of s_alone) = false) as E by (by vm_compute). rewrite E in H4, H5.
  exists o'. exact (conj H1 (conj H2 (conj H3 (conj (H4 (λ e, ltac:(discriminate e))) (proj1 H5))))).
Defined.

Definition g_transfer : WriteGrant := answer_or default_WriteGrant (acquire_write write_a s_shared).2.

Lemma transfer_waits_for_replicas_witness :
  must_invalidate (wg_writer_region g_transfer) (region_of s_shared reg_b) = true ∧
  ∃ o', objects (acquire_write write_a s_shared).1 !! ac_object (wr_context write_a) = Some o' ∧
    o_authority o' = AuthorityMode.TransferPending ∧ writer_is o' (wr_context write_a) = true ∧
    ∀ id r, id ∈ o_replicas (object_of s_shared) → regions s_shared !! id = Some r →
      must_invalidate (wg_writer_region g_transfer) r = true →
      ∃ i, i ∈ wg_required_invalidations g_transfer ∧ i_region i = r_id r ∧ i_region_generation i = r_generation r ∧
        i_id i ∈ o_outstanding_invalidations o' ∧ invalidations (acquire_write write_a s_shared).1 !! i_id i = Some i ∧
        i_state i = InvalidationState.Requested.
Proof.
  split; [vm_compute; reflexivity|].
  apply (transfer_waits_for_replicas write_a s_shared (acquire_write write_a s_shared).1 g_transfer (object_of s_shared));
    try (vm_compute; reflexivity). by vm_compute.
Defined.
