(* ===== verification/Fencing.v ===== *)
(** * What fencing cuts off

    [fence_participant] walks the objects, replicas, transfers, invalidations
    and read grants of one incarnation; afterwards nothing in the engine still
    depends on it, and no request in its name passes validation.  At the end, a
    run that leaves findings of the engine's own audit behind. *)
From S2P Require Import Prelude Ids Enums Status Bytes Policy Evidence Model Decisions Persistence.
From S2P Require Import Engine Resolve Core Registry Auditor Frame Evolution Steps System Scenario.

Section fencing.
Context {St : Type} `{DurableStore St}.
Implicit Types s : Impl St.
Context (id : ParticipantId) (boot : ParticipantBootId).

(** ** What must not depend on the incarnation any more *)

Definition not_writer (o : ObjectRecord) : Prop := ¬ (o_writer o = id ∧ o_writer_boot o = boot).

Definition no_grant (o : ObjectRecord) : Prop :=
  Forall (λ g, g_participant g = id → g_boot g = boot → g_released g = true) (o_reads o).

Definition region_cut (r : RegionRecord) : Prop :=
  r_participant r = id → r_boot r = boot →
  r_state r = CoherenceState.Fenced ∨ r_state r = CoherenceState.Retired.

Definition sync_cut (y : SyncRecord) : Prop :=
  y_destination_participant y = id → y_destination_boot y = boot →
  sync_settled y = true ∨ y_state y = SyncState.OutcomeUnknown.

Definition invalidation_cut (i : InvalidationRecord) : Prop :=
  i_target_participant i = id → i_target_boot i = boot → i_state i ≠ InvalidationState.Requested.

Record severed s : Prop := {
  sv_writer : map_Forall (λ _, not_writer) (objects s);
  sv_reads : map_Forall (λ _, no_grant) (objects s);
  sv_regions : map_Forall (λ _, region_cut) (regions s);
  sv_syncs : map_Forall (λ _, sync_cut) (syncs s);
  sv_invalidations : map_Forall (λ _, invalidation_cut) (invalidations s) }.

(** ** The loops *)

Notation Acc := (Impl St * list JournalPayload)%type.

(** A loop over the keys of a map whose body updates the entry it visits: a
    property every update establishes holds of all entries afterwards. *)
Lemma keys_loop {A K V} `{Countable K, Ranked K} (m : A → gmap K V) (g : A → V → option V) (P : V → Prop)
    (f : A → K → A) a :
  (∀ a k, m (f a k) = update_key (g a) (m a) k) → (∀ a v, P (default v (g a v))) →
  map_Forall (λ _, P) (m (foldl f a (sorted_keys (m a)))).
Proof.
  intros Hf HP k. apply (foldl_establishes (λ k a, ∀ v, m a !! k = Some v → P v)).
  - intros b x v. rewrite Hf, lookup_update_key, decide_True by done. destruct (m b !! x); [|done].
    intros [= <-]. apply HP.
  - intros b x Hq v. rewrite Hf, lookup_update_key. case_decide; [|apply Hq]. destruct (m b !! k); [|done].
    intros [= <-]. apply HP.
  - rewrite elem_of_sorted_keys. destruct (m a !! k); [left; eauto|by right].
Qed.

(** The same when the body may change entries in a way the property survives. *)
Lemma keys_keep {A K V B} `{Countable K} (m : A → gmap K V) (P : V → Prop) (f : A → B → A) a l :
  (∀ a x, ∃ (g : V → option V) k, m (f a x) = update_key g (m a) k ∧ ∀ v, P v → P (default v (g v))) →
  map_Forall (λ _, P) (m a) → map_Forall (λ _, P) (m (foldl f a l)).
Proof.
  intros Hf. apply (foldl_inv (λ a, map_Forall (λ _, P) (m a))). intros b x Hb k v.
  destruct (Hf b x) as (g & j & -> & Hg). rewrite lookup_update_key. case_decide; [|apply Hb].
  destruct (m b !! k) eqn:E; [|done]. intros [= <-]. eauto.
Qed.

Definition fenced_writer (a : Acc) (o : ObjectRecord) : option ObjectRecord :=
  if decide (o_writer o = id ∧ o_writer_boot o = boot)
  then Some (fenced_writer_object (dirty_loss_of o a.1) (sequence a.1) o) else None.

Lemma fence_object_update (a : Acc) k :
  objects (fence_object id boot a k).1 = update_key (fenced_writer a) (objects a.1) k.
Proof.
  destruct a as [s es]. unfold fence_object, update_key, fenced_writer. cbn [fst].
  destruct (objects s !! k) as [o|]; [|done]. by case_decide.
Qed.

Lemma fenced_writer_none loss seq o : o_writer (fenced_writer_object loss seq o) = nil_id.
Proof. unfold fenced_writer_object, apply_dirty_loss. by repeat case_match. Qed.

Lemma fence_object_writer (a : Acc) : defined id = true →
  map_Forall (λ _, not_writer) (objects (foldl (fence_object id boot) a (sorted_keys (objects a.1))).1).
Proof.
  intros Hid. apply (keys_loop (λ a : Acc, objects a.1) fenced_writer); [apply fence_object_update|].
  intros b o. unfold fenced_writer. case_decide; simpl; [|done]. intros [Hw _].
  rewrite fenced_writer_none in Hw. rewrite <-Hw in Hid. by rewrite nil_not_defined in Hid.
Qed.

Lemma fence_region_cut reason (a : Acc) :
  map_Forall (λ _, region_cut) (regions (foldl (fence_region id boot reason) a (sorted_keys (regions a.1))).1).
Proof.
  apply (keys_loop (λ a : Acc, regions a.1) (λ a r, if decide (r_participant r ≠ id ∨ r_boot r ≠ boot) then None else
    if decide (r_state r = CoherenceState.Retired) then None else Some (fenced_region reason (sequence a.1) r))).
  - intros [s es] k. unfold fence_region, update_key. cbn [fst]. destruct (regions s !! k) as [r|]; [|done].
    destruct (decide (_ ∨ _)); [done|]. by destruct (decide (r_state r = _)).
  - intros b r. unfold region_cut. destruct (decide (_ ∨ _)); simpl; [naive_solver|].
    destruct (decide (r_state r = _)); simpl; auto.
Qed.

Lemma fence_sync_cut (a : Acc) :
  map_Forall (λ _, sync_cut) (syncs (foldl (fence_sync id boot) a (sorted_keys (syncs a.1))).1).
Proof.
  apply (keys_loop (λ a : Acc, syncs a.1) (λ a y, if decide (y_destination_participant y ≠ id ∨ y_destination_boot y ≠ boot)
    then None else if sync_settled y then None else Some (fenced_sync (sequence a.1) y))).
  - intros [s es] k. unfold fence_sync, update_key. cbn [fst]. destruct (syncs s !! k) as [y|]; [|done].
    destruct (decide (_ ∨ _)); [done|]. by destruct (sync_settled y).
  - intros b y. unfold sync_cut. destruct (decide (_ ∨ _)); simpl; [naive_solver|].
    destruct (sync_settled y) eqn:E; simpl; auto.
Qed.

Lemma fence_invalidation_cut (a : Acc) :
  map_Forall (λ _, invalidation_cut)
    (invalidations (foldl (fence_invalidation id boot) a (sorted_keys (invalidations a.1))).1).
Proof.
  apply (keys_loop (λ a : Acc, invalidations a.1) (λ a i, if decide (i_target_participant i ≠ id ∨ i_target_boot i ≠ boot)
    then None else if decide (i_state i ≠ InvalidationState.Requested) then None else Some (fenced_invalidation (sequence a.1) i))).
  - intros [s es] k. unfold fence_invalidation, update_key. cbn [fst]. destruct (invalidations s !! k) as [i|]; [|done].
    destruct (decide (_ ∨ _)); [done|]. by destruct (decide (i_state i ≠ _)).
  - intros b i. unfold invalidation_cut. destruct (decide (_ ∨ _)); simpl; [naive_solver|].
    destruct (decide (i_state i ≠ _)); simpl; auto.
Qed.

(** Each loop leaves the maps of the earlier ones alone. *)
Lemma fence_region_others reason (a : Acc) l :
  objects (foldl (fence_region id boot reason) a l).1 = objects a.1.
Proof. apply (foldl_frame _ (λ a : Acc, objects a.1)). intros [s es] k. unfold fence_region. by repeat case_match. Qed.
Lemma fence_sync_others (a : Acc) l :
  objects (foldl (fence_sync id boot) a l).1 = objects a.1 ∧ regions (foldl (fence_sync id boot) a l).1 = regions a.1.
Proof.
  split; [apply (foldl_frame _ (λ a : Acc, objects a.1))|apply (foldl_frame _ (λ a : Acc, regions a.1))];
    intros [s es] k; unfold fence_sync; by repeat case_match.
Qed.
Lemma fence_invalidation_others (a : Acc) l :
  objects (foldl (fence_invalidation id boot) a l).1 = objects a.1 ∧
  regions (foldl (fence_invalidation id boot) a l).1 = regions a.1 ∧
  syncs (foldl (fence_invalidation id boot) a l).1 = syncs a.1.
Proof.
  split_and!; [apply (foldl_frame _ (λ a : Acc, objects a.1))|apply (foldl_frame _ (λ a : Acc, regions a.1))
    |apply (foldl_frame _ (λ a : Acc, syncs a.1))]; intros [s es] k; unfold fence_invalidation; by repeat case_match.
Qed.

Lemma fence_effects_cut reason s : defined id = true →
  let s' := (fence_effects id boot reason s).1 in
  map_Forall (λ _, not_writer) (objects s') ∧ map_Forall (λ _, region_cut) (regions s') ∧
  map_Forall (λ _, sync_cut) (syncs s') ∧ map_Forall (λ _, invalidation_cut) (invalidations s').
Proof.
  intros Hid. unfold fence_effects. cbv zeta.
  set (a1 := foldl (fence_object _ _) _ _). set (a2 := foldl (fence_region _ _ _) _ _).
  set (a3 := foldl (fence_sync _ _) _ _).
  destruct (fence_invalidation_others a3 (sorted_keys (invalidations a3.1))) as (Eo4 & Er4 & Es4).
  destruct (fence_sync_others a2 (sorted_keys (syncs a2.1))) as (Eo3 & Er3). fold a3 in Eo3, Er3.
  pose proof (fence_region_others reason a1 (sorted_keys (regions a1.1))) as Eo2. fold a2 in Eo2.
  split_and!.
  - rewrite Eo4, Eo3, Eo2. by apply (fence_object_writer (s, [])).
  - rewrite Er4, Er3. apply fence_region_cut.
  - rewrite Es4. apply fence_sync_cut.
  - apply fence_invalidation_cut.
Qed.

(** ** Read grants *)

Definition release_update s (o : ObjectRecord) : option ObjectRecord :=
  if existsb (grant_matches id boot) (o_reads o)
  then Some (o <| o_reads ::= fmap (release_matching id boot) |> <| o_updated_sequence := sequence s |>) else None.

Lemma release_reads_update s k :
  objects (release_reads_of_object id boot s k) = update_key (release_update s) (objects s) k.
Proof.
  unfold release_reads_of_object, update_key, release_update. destruct (objects s !! k) as [o|]; [|done].
  destruct (existsb _ _); [|done]. by rewrite (live_objects _ _ (upsert_object_live _ _)).
Qed.

Lemma grant_matches_own g :
  g_released g = false → g_participant g = id → g_boot g = boot → grant_matches id boot g = true.
Proof.
  intros Hr Hp Hb. unfold grant_matches. rewrite Hr, Hp, Hb, !bool_decide_true by done. by destruct (uuid_defined _).
Qed.

Lemma release_reads_cut s : map_Forall (λ _, no_grant) (objects (release_reads_for_participant_locked id boot s)).
Proof.
  apply (keys_loop (@objects St) release_update); [apply release_reads_update|].
  intros b o. unfold no_grant, release_update. destruct (existsb _ _) eqn:Hex; simpl.
  - apply Forall_fmap, Forall_true. intros g. simpl. unfold release_matching.
    destruct (grant_matches id boot g) eqn:Hg; simpl; [done|]. intros Hp Hb.
    destruct (g_released g) eqn:Hr; [done|]. by rewrite (grant_matches_own g Hr Hp Hb) in Hg.
  - apply Forall_forall. intros g Hin Hp Hb. destruct (g_released g) eqn:Hr; [done|].
    assert (existsb (grant_matches id boot) (o_reads o) = true) as Hc; [|congruence].
    apply existsb_exists. exists g. split; [by apply list_elem_of_In|by apply grant_matches_own].
Qed.

Lemma release_reads_writer s :
  map_Forall (λ _, not_writer) (objects s) →
  map_Forall (λ _, not_writer) (objects (release_reads_for_participant_locked id boot s)).
Proof.
  apply keys_keep. intros b k. exists (release_update b), k. split; [apply release_reads_update|].
  intros o Ho. unfold release_update. by destruct (existsb _ _).
Qed.

Lemma recompute_all_keep (P : ObjectRecord → Prop) s :
  (∀ o m, P o → P (o <| o_authority := m |>)) →
  map_Forall (λ _, P) (objects s) → map_Forall (λ _, P) (objects (recompute_all_authority s)).
Proof.
  intros HP. apply keys_keep. intros b k. exists (λ o, Some (o <| o_authority := recomputed_authority b o |>)), k.
  split; [|intros o Ho; exact (HP o _ Ho)]. unfold recompute_authority_locked, update_key. by destruct (objects b !! k).
Qed.

Lemma release_reads_others s :
  let s' := release_reads_for_participant_locked id boot s in
  (regions s', syncs s', invalidations s') = (regions s, syncs s, invalidations s).
Proof.
  apply (foldl_frame _ (λ s : Impl St, (regions s, syncs s, invalidations s))). intros b k.
  unfold release_reads_of_object. repeat case_match; try done.
  destruct (upsert_object_live (o <| o_reads ::= fmap (release_matching id boot) |> <| o_updated_sequence := sequence b |>)
    (set_object k (o <| o_reads ::= fmap (release_matching id boot) |> <| o_updated_sequence := sequence b |>) b)).
  by rewrite live_regions, live_syncs, live_invalidations.
Qed.

Lemma recompute_all_others s :
  let s' := recompute_all_authority s in
  (regions s', syncs s', invalidations s') = (regions s, syncs s, invalidations s).
Proof.
  apply (foldl_frame _ (λ s : Impl St, (regions s, syncs s, invalidations s))). intros b k.
  unfold recompute_authority_locked. by case_match.
Qed.
End fencing.

Section fence.
Context {St : Type} `{DurableStore St}.
Implicit Types s : Impl St.

Lemma severed_live id boot s s' :
  objects s' = objects s → regions s' = regions s → syncs s' = syncs s → invalidations s' = invalidations s →
  severed id boot s → severed id boot s'.
Proof. intros Ho Hr Hy Hi []. split; by rewrite ?Ho, ?Hr, ?Hy, ?Hi. Qed.

Lemma fence_participant_severs id ep reason s p :
  defined id = true → participants s !! id = Some p → ep = epoch s →
  p_lifecycle p ≠ ParticipantLifecycle.Retired →
  let s' := (fence_participant id ep reason s).1 in
  severed id (p_boot p) s' ∧
  participants s' !! id = Some (fenced_participant reason ep p) ∧
  ∀ ctx o q, ac_participant ctx = id → resolve_locked ctx s' ≠ success (o, q).
Proof.
  intros Hid Hp -> Hl. unfold fence_participant. rewrite Hp.
  rewrite decide_False by (intros Hn; by apply Hn). rewrite decide_False by done.
  pose proof (fence_effects_cut id (p_boot p) reason (tick s) Hid) as Hcut.
  destruct (fence_effects _ _ _ _) as [s1 es]. cbn [fst] in Hcut. cbv zeta in Hcut.
  destruct Hcut as (Hw & Hr & Hy & Hi).
  pose proof (release_reads_others id (p_boot p) s1) as E2. pose proof (release_reads_cut id (p_boot p) s1) as Hg.
  apply release_reads_writer in Hw. set (s2 := release_reads_for_participant_locked _ _ s1) in *.
  pose proof (recompute_all_others s2) as E3.
  apply (recompute_all_keep (not_writer id (p_boot p))) in Hw; [|done].
  apply (recompute_all_keep (no_grant id (p_boot p))) in Hg; [|done].
  cbv zeta in *. set (s3 := recompute_all_authority s2) in *.
  injection E2 as Er2 Ey2 Ei2. injection E3 as Er3 Ey3 Ei3.
  assert (severed id (p_boot p) s3) as Hsev.
  { split; [done..| | |]; rewrite ?Er3, ?Ey3, ?Ei3, ?Er2, ?Ey2, ?Ei2; done. }
  live_step. assert (severed id (p_boot p) s0 ∧ participants s0 !! id = Some (fenced_participant reason (epoch s) p)) as [Hsv Hpp].
  { split; [|rewrite (live_participants _ _ L); apply lookup_insert_eq].
    eapply severed_live; [..|exact Hsev]; [by rewrite L..]. }
  assert (∀ ctx o q, ac_participant ctx = id → resolve_locked ctx s0 ≠ success (o, q)) as Hres.
  { intros ctx o q Hc Hs. apply resolve_locked_success in Hs as [_ _ _ _ _ _ _ Hq Hnf _ _].
    rewrite Hc, Hpp in Hq. simplify_eq. }
  destruct (ok w); cbn [fst]; split_and!; try done.
  by eapply severed_live; [..|exact Hsv].
Qed.

(** C15: a fenced incarnation is cut off.  Fencing a known participant in the
    current epoch, whether or not the journal accepts the change, leaves no
    object owned by that incarnation, none of its read grants live, all of its
    replicas fenced or retired, no transfer into it open, no invalidation
    waiting for it; the participant is fenced, and every later request in its
    name is refused as long as it is not admitted again. *)
Theorem fencing_severs id ep reason s p :
  defined id = true → participants s !! id = Some p → ep = epoch s →
  p_lifecycle p ≠ ParticipantLifecycle.Retired →
  let s' := (fence_participant id ep reason s).1 in
  severed id (p_boot p) s' ∧
  participants s' !! id = Some (fenced_participant reason ep p) ∧
  ∀ ctx o q, ac_participant ctx = id → resolve_locked ctx s' ≠ success (o, q).
Proof. apply fence_participant_severs. Qed.
End fence.

(** Beta is fenced while alpha waits for it. *)
Lemma fencing_severs_witness :
  let p := default default_ParticipantRecord (participants s_transfer !! from_value 2) in
  let s' := (fence_participant (from_value 2) ep1 "gone" s_transfer).1 in
  severed (from_value 2) (p_boot p) s' ∧
  participants s' !! from_value 2 = Some (fenced_participant "gone" ep1 p) ∧
  ∀ ctx o q, ac_participant ctx = from_value 2 → resolve_locked ctx s' ≠ success (o, q).
Proof.
  intros p. apply (fencing_severs (from_value 2) ep1 "gone" s_transfer p); try (vm_compute; reflexivity).
  intros Hl. vm_compute in Hl. discriminate Hl.
Defined.

(** ** Fencing the target of an invalidation *)

(** Beta is fenced while alpha's transfer waits for its acknowledgement. *)
Definition s_fenced : Engine := run [OpFenceParticipant (from_value 2) ep1 "gone"] s_transfer.

(** Fencing leaves settled invalidations behind.  The transfer completes, but the superseded invalidation stays on the
    object's outstanding list and on the fenced replica, and the engine's own
    audit reports both. *)
Theorem fencing_leaves_audit_findings :
  ar_clean (audit s_transfer) = true ∧
  o_authority (object_of s_fenced) = AuthorityMode.ExclusiveWriter ∧
  o_outstanding_invalidations (object_of s_fenced) = [from_value 1] ∧
  ar_clean (audit s_fenced) = false.
Proof. vm_compute. done. Qed.
