(* ===== verification/Sessions.v ===== *)
(** * What the coordinator guarantees

    The coordinator as a transition system over the engine calls and critical
    sections of [Coordinator.v], with any number of connections, any frames and
    any interleaving, and the theorems about its runs: it drives the engine only
    through operations the engine's own theorems cover, a request reaches the
    engine once and as the operation its body asks for, in the name of its
    session where it carries authority, and what the end of a connection and the
    admission of a new incarnation take away. *)
From Stdlib Require Import Strings.Byte Strings.String.
From S2P Require Import Prelude Ids Enums Status Bytes Policy Evidence Model Decisions Persistence.
From S2P Require Import Serialize Codec Messages Checksum Framing Protocol.
From S2P Require Import Engine Resolve Core Registry Read Write Invalidate Publish Sync Recovery.
From S2P Require Import Auditor Coordinator Frame Evolution Steps System Scenario Fencing.

Section sessions.
Context {St : Type} `{DurableStore St} (build : string).
Notation Co := (Coordinator St).
Implicit Types c : Co.

(** The steps of a running coordinator. *)
Inductive co_step : Co → Co → Prop :=
| co_connect conn c : co_step c (connect conn c)
| co_accept conn received c : co_step c (accept_hello conn received c).1
| co_look_up conn c : co_step c (look_up conn c).1
| co_take_over conn c : co_step c (take_over conn c)
| co_supersede conn c : co_step c (supersede conn c)
| co_join conn c : co_step c (join_hello conn c).1
| co_list conn fresh c : co_step c (list_session build conn fresh c).1
| co_acknowledge_hello conn sent c : co_step c (acknowledge_hello conn sent c)
| co_serve conn received sent c : co_step c (serve_frame build conn received sent c).1
| co_unlist conn c : co_step c (unlist conn c)
| co_examine conn c : co_step c (examine conn c)
| co_settle conn c : co_step c (settle conn c)
| co_stop c : co_step c (stop c)
| co_shutdown_begin c : co_step c (shutdown_begin c).1
| co_shutdown_complete c : shutting_down (co_engine c) = true → co_step c (shutdown_complete c).1.

(** ** What a request may do *)

(** The context names the session's participant and boot, in the epoch. *)
Definition speaks_for (session : Session) (ep : CoordinatorEpoch) (ctx : AuthorityContext) : Prop :=
  ac_participant ctx = ss_participant session ∧ ac_boot ctx = ss_boot session ∧ ac_epoch ctx = ep.

(** What a payload asks for, when it can be read. *)
Definition asks {A} (reader : Reader A) (body : list byte) (f : A → op) : option op :=
  match reader body with Read a _ => Some (f a) | _ => None end.

(** The operation the body of a frame asks for in the name of a session. *)
Definition request_op (session : Session) (ep : CoordinatorEpoch) (type : MessageType.t) (body : list byte) : option op :=
  let limits := default_decode_limits in
  let own := speak session ep in
  match type with
  | MessageType.CreateDomain => asks (decode_create_domain limits) body OpCreateDomain
  | MessageType.RegisterObject =>
      asks (decode_register_object limits) body (λ v, let '(d, n, l, p) := v in OpRegisterObject d n l p)
  | MessageType.SetPolicy => asks (decode_set_policy limits) body (λ v, let '(o, g, e, p) := v in OpSetPolicy o g e p)
  | MessageType.RegisterRegion => asks (decode_region_registration limits) body (λ r, OpRegisterRegion (r <| rn_context ::= own |>))
  | MessageType.AcquireRead => asks (decode_read_request limits) body (λ r, OpAcquireRead (r <| rr_context ::= own |>))
  | MessageType.AcquireWrite => asks (decode_write_request limits) body (λ r, OpAcquireWrite (r <| wr_context ::= own |>))
  | MessageType.MarkDirty => asks (decode_dirty_request limits) body (λ r, OpMarkDirty (r <| dr_context ::= own |>))
  | MessageType.AcknowledgeInvalidation => asks (decode_invalidation_ack limits) body (λ r, OpAcknowledge (r <| ia_context ::= own |>))
  | MessageType.SyncBegin => asks (decode_sync_request limits) body (λ r, OpBeginSync (r <| sr_context ::= own |>))
  | MessageType.SyncComplete => asks (decode_sync_complete limits) body (λ r, OpCompleteSync (r <| sc_context ::= own |>))
  | MessageType.SyncFail => asks (decode_sync_fail limits) body (λ r, OpFailSync (r <| sf_context ::= own |>))
  | MessageType.Release => asks (decode_release_request limits) body (λ r, OpRelease (r <| rl_context ::= own |>))
  | MessageType.Revalidate => asks (decode_revalidate_request limits) body (λ r, OpRevalidate (r <| rv_context ::= own |>))
  | MessageType.Invalidate =>
      asks (decode_invalidation_request limits) body (λ r, OpInvalidate (r <| ir_context ::= λ ctx, ctx <| ac_epoch := ep |> |>))
  | MessageType.FenceParticipant => asks (decode_fence_participant limits) body (λ v, OpFenceParticipant v.1 ep v.2)
  | MessageType.RetireRegion => asks decode_retire body (λ v, OpRetireRegion (from_value v.1) (from_value v.2) ep)
  | MessageType.RetireObject => asks decode_retire body (λ v, OpRetireObject (from_value v.1) (from_value v.2) ep)
  | MessageType.ResolveRecovery =>
      asks (decode_resolve limits) body (λ v, OpResolveRecovery v.1.1 (from_value v.1.2) ep v.2)
  | MessageType.Shutdown => Some (OpBeginShutdown ep)
  | _ => None
  end.

(** In whose name an operation acts.  The participant's own requests name the
    session's incarnation; an invalidation keeps the participant and the boot
    the client wrote, and only its epoch is the engine's; the operator's
    requests name nobody, and the last three not even an epoch of the
    coordinator's choice. *)
Definition permitted (session : Session) (ep : CoordinatorEpoch) (o : op) : Prop :=
  match o with
  | OpRegisterRegion r => speaks_for session ep (rn_context r)
  | OpAcquireRead r => speaks_for session ep (rr_context r)
  | OpAcquireWrite r => speaks_for session ep (wr_context r)
  | OpMarkDirty r => speaks_for session ep (dr_context r)
  | OpAcknowledge r => speaks_for session ep (ia_context r)
  | OpRevalidate r => speaks_for session ep (rv_context r)
  | OpRelease r => speaks_for session ep (rl_context r)
  | OpBeginSync r => speaks_for session ep (sr_context r)
  | OpCompleteSync r => speaks_for session ep (sc_context r)
  | OpFailSync r => speaks_for session ep (sf_context r)
  | OpInvalidate r => ac_epoch (ir_context r) = ep
  | OpFenceParticipant _ e _ | OpRetireRegion _ _ e | OpRetireObject _ _ e
  | OpResolveRecovery _ _ e _ | OpBeginShutdown e => e = ep
  | OpCreateDomain _ | OpRegisterObject _ _ _ _ | OpSetPolicy _ _ _ _ => True
  | _ => False
  end.

(** What one request does to the engine. *)
Inductive issued (session : Session) (ep : CoordinatorEpoch) (type : MessageType.t) (body : list byte) (s : Impl St) :
    Impl St → Prop :=
| issued_nothing : issued session ep type body s s
| issued_op o : ss_observer session = false → request_op session ep type body = Some o → permitted session ep o →
    issued session ep type body s (exec o s)
| issued_publish r rest : ss_observer session = false → type = MessageType.Publish →
    decode_publish_request default_decode_limits body = Read r rest →
    issued session ep type body s (publish (r <| pb_context ::= speak session ep |>) s).1.

Lemma speak_speaks session ep ctx : speaks_for session ep (speak session ep ctx).
Proof. done. Qed.

Lemma with_payload_cases {A} (R : Co → Prop) (reader : Reader A) body k c :
  R c → (∀ a rest, R (k a rest).1) → R (with_payload reader body k c).1.
Proof. intros Hc Hk. unfold with_payload. by destruct (reader body). Qed.
Lemma with_payload_engine {A} (R : Impl St → Prop) (reader : Reader A) body k c :
  R (co_engine c) → (∀ a rest, reader body = Read a rest → R (co_engine (k a rest).1)) →
  R (co_engine (with_payload reader body k c).1).
Proof. intros Hc Hk. unfold with_payload. destruct (reader body); [by eapply Hk|done|done]. Qed.
Lemma asks_read {A} (reader : Reader A) body f a rest : reader body = Read a rest → asks reader body f = Some (f a).
Proof. unfold asks. by intros ->. Qed.

Lemma call_engine {A} (f : Impl St → Impl St * result A) reply c :
  co_engine (call f reply c).1 = (f (co_engine c)).1.
Proof. unfold call. by destruct (f (co_engine c)). Qed.
Lemma call_status_engine (f : Impl St → Impl St * StatusCode.t) reply c :
  co_engine (call_status f reply c).1 = (f (co_engine c)).1.
Proof. unfold call_status. by destruct (f (co_engine c)). Qed.
Lemma shut_participant_engine id c : co_engine (shut_participant id c) = co_engine c.
Proof. unfold shut_participant. by repeat case_match. Qed.

Lemma dispatch_query_same body c : (dispatch_query build body c).1 = c.
Proof.
  unfold dispatch_query, with_payload.
  assert (∀ o t, (if decide (t = "policy"%string)
    then (c, (StatusCode.Ok, ReplyText (TPolicy (get_policy o (co_engine c))))) else
    if decide (t = "audit"%string) then (c, (StatusCode.Ok, ReplyText (TAudit (audit (co_engine c))))) else
    if decide (t = "decisions"%string) then (c, (StatusCode.Ok, ReplyText (TDecisionLog (decision_log (co_engine c))))) else
    if decide (t = "recovery"%string) then (c, (StatusCode.Ok, ReplyText (TRecovery (co_recovery c)))) else
    (c, (StatusCode.Ok, ReplyText (TSnapshot (snapshot build (default_SnapshotOptions <| sno_object_filter := o |>)
       (co_engine c)))))).1 = c) as E.
  { intros. by repeat case_decide. }
  by repeat case_match.
Qed.

(** A call as an operation of the engine's transition system. *)
Lemma issued_exec session ep type body s s' o :
  ss_observer session = false → request_op session ep type body = Some o → permitted session ep o →
  s' = exec o s → issued session ep type body s s'.
Proof. intros ? ? ? ->. by constructor. Qed.

Ltac asked :=
  rewrite ?call_engine, ?call_status_engine;
  eapply issued_exec; [by auto|by eapply asks_read|done|done].

Lemma dispatch_issued session type body c :
  issued session (epoch (co_engine c)) type body (co_engine c) (co_engine (dispatch build session type body c).1).
Proof.
  unfold dispatch, dispatch_session, dispatch_resolve, dispatch_inspection, dispatch_control.
  destruct (ss_observer session && mutating type) eqn:Em; [apply issued_nothing|].
  assert (mutating type = true → ss_observer session = false) as Hm.
  { intros E. by rewrite E, andb_true_r in Em. }
  destruct type; try rewrite dispatch_query_same; try apply issued_nothing;
    try (apply with_payload_engine; [apply issued_nothing|intros a rest Ha]); try apply issued_nothing.
  - asked.
  - destruct a as [[[d n] l] p]. asked.
  - asked.
  - asked.
  - asked.
  - asked.
  - rewrite call_engine. eapply issued_publish; [by auto|done|done].
  - asked.
  - asked.
  - asked.
  - asked.
  - asked.
  - asked.
  - asked.
  - pose proof (call_engine (fence_participant a.1 (epoch (co_engine c)) a.2) ReplyParticipant c) as E.
    destruct (call _ _ c) as [c' answer]. cbn [fst] in *.
    assert (co_engine (if ok answer.1 then shut_participant a.1 c' else c') = co_engine c') as ->.
    { destruct (ok answer.1); [apply shut_participant_engine|done]. }
    rewrite E. asked.
  - asked.
  - asked.
  - pose proof (call_status_engine (begin_shutdown (epoch (co_engine c))) (ReplyText TShutdown) c) as E.
    destruct (call_status _ _ c) as [c' answer]. cbn [fst] in *.
    assert (co_engine (if ok answer.1 then c' <| co_stopping := true |> else c') = co_engine c') as ->.
    { by destruct (ok answer.1). }
    rewrite E. eapply issued_exec; [by auto|done|done|done].
  - destruct a as [[[o g] e] p]. asked.
  - asked.
Qed.

(** ** Runs of the engine *)

Definition runs (P : DurableImage → Prop) (s s' : Impl St) : Prop := ∀ fs, rtc (step P) (mkSys s fs) (mkSys s' fs).

Lemma runs_same P s : runs P s s.
Proof. intros fs. apply rtc_refl. Qed.
Lemma runs_op P o s s' : s' = exec o s → runs P s s'.
Proof. intros -> fs. apply rtc_once, step_op. Qed.
Lemma issued_runs P session ep type body s s' : issued session ep type body s s' → runs P s s'.
Proof. intros [|o|r rest]; [apply runs_same|by eapply runs_op|intros fs; apply publish_reachable, rtc_refl]. Qed.

Lemma refuse_engine conn code c : co_engine (refuse conn code c).1 = co_engine c.
Proof. done. Qed.

Lemma accept_hello_engine conn received c : co_engine (accept_hello conn received c).1 = co_engine c.
Proof. unfold accept_hello. by repeat case_match. Qed.
Lemma look_up_engine conn c : co_engine (look_up conn c).1 = co_engine c.
Proof. unfold look_up. by repeat case_match. Qed.
Lemma take_over_engine conn c : co_engine (take_over conn c) = co_engine c.
Proof.
  unfold take_over. destruct (co_threads c !! conn) as [[[] ? ?]|]; try done.
  cbn [set_stage co_engine]. unfold forget_session. by repeat case_match.
Qed.
Lemma supersede_runs P conn c : runs P (co_engine c) (co_engine (supersede conn c)).
Proof.
  unfold supersede. destruct (co_threads c !! conn) as [[stage session shut]|]; [|apply runs_same].
  destruct stage; try apply runs_same. by eapply (runs_op _ (OpFenceParticipant _ _ _)).
Qed.

Lemma join_hello_runs P conn c : runs P (co_engine c) (co_engine (join_hello conn c).1).
Proof.
  unfold join_hello. destruct (co_threads c !! conn) as [[stage session shut]|]; [|apply runs_same].
  destruct stage; try apply runs_same. destruct (hq_observer hello); [apply runs_same|].
  destruct (register_participant _ _ _ _ _) as [s' r] eqn:E.
  assert (runs P (co_engine c) s').
  { eapply runs_op. instantiate (1 := OpRegisterParticipant _ _ _ _). cbn [exec]. by rewrite E. }
  by destruct r.
Qed.

Lemma list_session_engine conn fresh c : co_engine (list_session build conn fresh c).1 = co_engine c.
Proof. unfold list_session. by repeat case_match. Qed.
Lemma acknowledge_hello_engine conn sent c : co_engine (acknowledge_hello conn sent c) = co_engine c.
Proof. unfold acknowledge_hello. by repeat case_match. Qed.
Lemma unlist_engine conn c : co_engine (unlist conn c) = co_engine c.
Proof. unfold unlist. by repeat case_match. Qed.
Lemma examine_engine conn c : co_engine (examine conn c) = co_engine c.
Proof. unfold examine. by repeat case_match. Qed.

(** The engine under one iteration of the request loop. *)
Lemma serve_frame_engine conn received sent c :
  co_engine (serve_frame build conn received sent c).1 = co_engine c ∨
  ∃ session shut frame, co_threads c !! conn = Some (mkThread Serving session shut) ∧ received = success frame ∧
    admissible session (epoch (co_engine c)) (f_header frame) = true ∧
    issued session (epoch (co_engine c)) (fh_type (f_header frame)) (f_body frame) (co_engine c)
      (co_engine (serve_frame build conn received sent c).1).
Proof.
  unfold serve_frame. destruct (co_threads c !! conn) as [[stage session shut]|] eqn:Et; [|by left].
  destruct stage; try by left. destruct received as [frame|]; [|by left].
  destruct (decide (fh_type _ = _)); [by left|]. destruct (decide (fh_session _ ≠ _)) as [|Hs]; [by left|].
  destruct (_ <=? _)%N eqn:Hq; [by left|]. destruct (decide (_ ∈ _)) as [|Hc]; [by left|].
  destruct (decide (fh_epoch _ ≠ _)) as [|He]; [left; by destruct (ok sent)|].
  right. exists session, shut, frame. split; [done|]. split; [done|]. split.
  { unfold admissible. apply N.leb_gt in Hq. apply N.ltb_lt in Hq.
    rewrite Hq, !bool_decide_eq_true_2; [done| |done|].
    - destruct (decide (fh_epoch (f_header frame) = epoch (co_engine c))); [done|exfalso; auto].
    - destruct (decide (fh_session (f_header frame) = ss_id session)); [done|exfalso; auto]. }
  pose proof (dispatch_issued
    (remember (co_correlation_window (co_options c)) (fh_correlation (f_header frame))
       (session <| ss_last_sequence := fh_sequence (f_header frame) |>)) (fh_type (f_header frame)) (f_body frame)
    (alter_session (λ s, remember (co_correlation_window (co_options c)) (fh_correlation (f_header frame))
       (s <| ss_last_sequence := fh_sequence (f_header frame) |>)) conn c)) as Hd.
  destruct (dispatch _ _ _ _ _) as [c' a]. cbn [fst] in *.
  assert (co_engine (if ok sent then c' else set_stage Leaving conn c') = co_engine c') as -> by by destruct (ok sent).
  destruct Hd as [|o|r rest]; [apply issued_nothing|by apply issued_op|].
  by apply (issued_publish session (epoch (co_engine c)) _ _ (co_engine c) r rest).
Qed.

Lemma serve_frame_runs P conn received sent c :
  runs P (co_engine c) (co_engine (serve_frame build conn received sent c).1).
Proof.
  destruct (serve_frame_engine conn received sent c) as [->|(?&?&?&_&_&_&Hi)]; [apply runs_same|].
  by eapply issued_runs.
Qed.

Lemma settle_runs P conn c : runs P (co_engine c) (co_engine (settle conn c)).
Proof.
  unfold settle. destruct (co_threads c !! conn) as [[stage session shut]|]; [|apply runs_same].
  destruct stage; try apply runs_same. destruct (ss_said_goodbye session).
  - by apply (runs_op _ (OpMarkSessionClosed (ss_participant session) (ss_boot session))).
  - by eapply (runs_op _ (OpFenceParticipant _ _ _)).
Qed.

Lemma shutdown_begin_runs P c : runs P (co_engine c) (co_engine (shutdown_begin c).1).
Proof.
  unfold shutdown_begin. destruct (begin_shutdown _ _) as [s b] eqn:E.
  apply (runs_op _ (OpBeginShutdown (epoch (co_engine c)))). cbn [exec]. by rewrite E.
Qed.
Lemma shutdown_complete_runs P c : runs P (co_engine c) (co_engine (shutdown_complete c).1).
Proof.
  unfold shutdown_complete. destruct (complete_shutdown _ _) as [s b] eqn:E.
  apply (runs_op _ (OpCompleteShutdown (epoch (co_engine c)))). cbn [exec]. by rewrite E.
Qed.

Lemma stop_engine c : co_engine (stop c) = co_engine c.
Proof. unfold stop. destruct (lock_held c); [done|]. by rewrite (foldl_frame _ co_engine). Qed.

Lemma connect_engine conn c : co_engine (connect conn c) = co_engine c.
Proof. unfold connect. by destruct (co_threads c !! conn). Qed.

Lemma co_step_runs P c c' : co_step c c' → runs P (co_engine c) (co_engine c').
Proof.
  destruct 1; rewrite ?connect_engine, ?accept_hello_engine, ?look_up_engine, ?take_over_engine, ?list_session_engine,
    ?acknowledge_hello_engine, ?unlist_engine, ?examine_engine, ?stop_engine; try apply runs_same.
  - apply supersede_runs.
  - apply join_hello_runs.
  - apply serve_frame_runs.
  - apply settle_runs.
  - apply shutdown_begin_runs.
  - apply shutdown_complete_runs.
Qed.

(** A coordinator at work: its state and the publications its connections have
    between their phases. *)
Record Running := mkRunning { ru_co : Co; ru_publishing : list (N * Flight) }.

Inductive run_step : Running → Running → Prop :=
| run_co c c' ps : co_step c c' → run_step (mkRunning c ps) (mkRunning c' ps)
| run_begin c ps conn frame c' locals :
    begin_publish conn frame c = Some (c', locals) →
    run_step (mkRunning c ps) (mkRunning c' (ps ++ [(conn, (locals, None))]))
| run_append c ps1 ps2 conn locals :
    run_step (mkRunning c (ps1 ++ (conn, (locals, None)) :: ps2))
      (mkRunning (append_publish locals c).1 (ps1 ++ (conn, (locals, Some (append_publish locals c).2)) :: ps2))
| run_finish c ps1 ps2 conn locals status sent :
    run_step (mkRunning c (ps1 ++ (conn, (locals, Some status)) :: ps2))
      (mkRunning (finish_publish conn locals status sent c).1 (ps1 ++ ps2)).

(** The engine side of a running coordinator. *)
Definition engine_of (ru : Running) : Sys := mkSys (co_engine (ru_co ru)) (ru_publishing ru).*2.

Lemma begin_publish_reserves conn frame c c' locals :
  begin_publish conn frame c = Some (c', locals) →
  ∃ session shut r, co_threads c !! conn = Some (mkThread Serving session shut) ∧
    admissible session (epoch (co_engine c)) (f_header frame) = true ∧ ss_observer session = false ∧
    speaks_for session (epoch (co_engine c)) (pb_context r) ∧
    publish_reserve r (co_engine c) = (co_engine c', inr locals).
Proof.
  unfold begin_publish. destruct (co_threads c !! conn) as [[stage session shut]|]; [|done].
  destruct stage; try done. case_decide; [done|].
  destruct (negb _ || _) eqn:Ea; [done|]. apply orb_false_iff in Ea as [Ha%negb_false_iff Ho].
  destruct (decode_publish_request _ _) as [r rest| |]; [|done..].
  destruct (publish_reserve _ _) as [s' [a|l]] eqn:E; [done|]. intros [= <- <-].
  exists session, shut, (r <| pb_context ::= speak session (epoch (co_engine c)) |>). by rewrite E.
Qed.

Lemma run_step_engine P ru ru' : run_step ru ru' → rtc (step P) (engine_of ru) (engine_of ru').
Proof.
  destruct 1 as [c c' ps Hs|c ps conn frame c' l Hb|c ps1 ps2 conn l|c ps1 ps2 conn l status sent];
    unfold engine_of; cbn [ru_co ru_publishing]; rewrite ?fmap_app; cbn [fmap list_fmap].
  - by apply co_step_runs.
  - apply begin_publish_reserves in Hb as (session & shut & r & _ & _ & _ & _ & E).
    apply rtc_once. by eapply step_reserve.
  - unfold append_publish. destruct (publish_durable l (co_engine c)) as [s' status] eqn:E.
    apply rtc_once. by eapply step_append.
  - unfold finish_publish. destruct (publish_commit l status (co_engine c)) as [s' a] eqn:E.
    apply rtc_once. by eapply step_commit.
Qed.

(** ** Start *)

Lemma establish_domain_runs P options report s c :
  establish_domain build options report s = success c →
  runs P s (co_engine c) ∧ co_threads c = ∅ ∧ co_sessions c = ∅.
Proof.
  unfold establish_domain. destruct (defined _); [intros [= <-]; split; [apply runs_same|done]|].
  destruct (create_domain _ s) as [s' [d|e]] eqn:Ed; [|done]. intros [= <-]. split; [|done].
  apply (runs_op _ (OpCreateDomain (co_domain_name options))). cbn [exec co_engine]. by rewrite Ed.
Qed.

Lemma start_reachable P options directory c :
  start build options directory = success c →
  (∀ st, directory = Some st → ∀ st' load image, ds_open st = (st', success (load, image)) → P image) →
  reachable P (engine_of (mkRunning c [])) ∧ co_threads c = ∅ ∧ co_sessions c = ∅.
Proof.
  intros Hst HP. unfold start in Hst. set (cfg := _ <| cfg_enable_durability := _ |>) in Hst.
  destruct directory as [st|]; [destruct (attach_store st (make_engine cfg)) as [s [report|e]] eqn:Ea; [|done]|].
  all: apply (establish_domain_runs P) in Hst as [Hr Hc]; split; [|done]; exists cfg.
  - eapply rtc_l; [|apply Hr]. eapply step_attach; [|exact Ea]. eauto.
  - apply Hr.
Qed.

(** ** Connections move forward *)

(** A connection is never forgotten, and the last sequence it has seen only grows. *)
Definition forward (m m' : gmap N Thread) : Prop := ∀ conn t, m !! conn = Some t →
  ∃ t', m' !! conn = Some t' ∧ (ss_last_sequence (th_session t) ≤ ss_last_sequence (th_session t'))%N.

#[local] Instance forward_preorder : PreOrder forward.
Proof.
  split.
  - intros m conn t Ht. by exists t.
  - intros m1 m2 m3 H1 H2 conn t Ht. destruct (H1 _ _ Ht) as (t2 & Ht2 & ?).
    destruct (H2 _ _ Ht2) as (t3 & Ht3 & ?). exists t3. split; [done|lia].
Qed.

Lemma forward_alter f conn m :
  (∀ t, m !! conn = Some t → ss_last_sequence (th_session t) ≤ ss_last_sequence (th_session (f t)))%N →
  forward m (alter f conn m).
Proof.
  intros Hf k t Hk. destruct (decide (conn = k)) as [<-|Hne].
  - rewrite lookup_alter_eq, Hk. eexists. split; [done|]. by apply Hf.
  - rewrite lookup_alter_ne by done. by exists t.
Qed.
Lemma forward_insert conn t m :
  (∀ t0, m !! conn = Some t0 → ss_last_sequence (th_session t0) ≤ ss_last_sequence (th_session t))%N →
  forward m (<[conn := t]> m).
Proof.
  intros Hf k t0 Hk. destruct (decide (conn = k)) as [<-|Hne].
  - rewrite lookup_insert_eq. eauto.
  - rewrite lookup_insert_ne by done. by exists t0.
Qed.

Lemma set_stage_forward stage conn c : forward (co_threads c) (co_threads (set_stage stage conn c)).
Proof. by apply forward_alter. Qed.
Lemma shut_socket_forward conn c : forward (co_threads c) (co_threads (shut_socket conn c)).
Proof. by apply forward_alter. Qed.
Lemma call_threads {A} (f : Impl St → Impl St * result A) reply c : co_threads (call f reply c).1 = co_threads c.
Proof. unfold call. by destruct (f (co_engine c)). Qed.
Lemma call_status_threads (f : Impl St → Impl St * StatusCode.t) reply c :
  co_threads (call_status f reply c).1 = co_threads c.
Proof. unfold call_status. by destruct (f (co_engine c)). Qed.
(** A dispatch touches no connection but to shut its socket down. *)
Definition only_shut (m m' : gmap N Thread) : Prop := ∀ k t, m !! k = Some t →
  ∃ shut, m' !! k = Some (mkThread (th_stage t) (th_session t) shut).
Lemma only_shut_refl m : only_shut m m.
Proof. intros k [? ? shut] Hk. by exists shut. Qed.
Lemma only_shut_forward m m' : only_shut m m' → forward m m'.
Proof. intros Hm k t Hk. destruct (Hm k t Hk) as [shut E]. eexists. split; [exact E|]. done. Qed.

Lemma shut_participant_only_shut id c : only_shut (co_threads c) (co_threads (shut_participant id c)).
Proof.
  unfold shut_participant. repeat case_match; [|apply only_shut_refl..].
  intros k t Hk. destruct (decide (n = k)) as [->|Hne].
  - exists true. etrans; [apply lookup_alter_eq|]. exact (f_equal (fmap (λ t, t <| th_shut := true |>)) Hk).
  - exists (th_shut t). etrans; [by apply lookup_alter_ne|exact Hk].
Qed.

Lemma dispatch_only_shut session type body c :
  only_shut (co_threads c) (co_threads (dispatch build session type body c).1).
Proof.
  pose proof (only_shut_refl (co_threads c)) as Hr.
  unfold dispatch, dispatch_session, dispatch_resolve, dispatch_inspection, dispatch_control.
  destruct (ss_observer session && mutating type); [exact Hr|].
  destruct type; try rewrite dispatch_query_same; try exact Hr;
    try (apply (with_payload_cases (λ x, only_shut (co_threads c) (co_threads x))); [exact Hr|intros a rest]);
    rewrite ?call_threads, ?call_status_threads; try exact Hr.
  - destruct a as [[[? ?] ?] ?]. rewrite call_threads; exact Hr.
  - pose proof (call_threads (fence_participant a.1 (epoch (co_engine c)) a.2) ReplyParticipant c) as E.
    destruct (call _ _ c) as [c' answer]. cbn [fst] in *. rewrite <-E.
    destruct (ok answer.1); [apply shut_participant_only_shut|apply only_shut_refl].
  - pose proof (call_status_threads (begin_shutdown (epoch (co_engine c))) (ReplyText TShutdown) c) as E.
    destruct (call_status _ _ c) as [c' answer]. cbn [fst] in *. rewrite <-E. destruct (ok answer.1); apply only_shut_refl.
  - destruct a as [[[? ?] ?] ?]. rewrite call_threads; exact Hr.
Qed.

Lemma dispatch_forward session type body c :
  forward (co_threads c) (co_threads (dispatch build session type body c).1).
Proof. apply only_shut_forward, dispatch_only_shut. Qed.

Lemma remember_last window correlation s : ss_last_sequence (remember window correlation s) = ss_last_sequence s.
Proof. done. Qed.

(** A frame that is let through raises the last sequence to its own. *)
Lemma serve_frame_forward conn received sent c :
  forward (co_threads c) (co_threads (serve_frame build conn received sent c).1) ∧
  ∀ session shut frame, co_threads c !! conn = Some (mkThread Serving session shut) → received = success frame →
    fh_type (f_header frame) ≠ MessageType.Goodbye →
    admissible session (epoch (co_engine c)) (f_header frame) = true →
    ∃ t, co_threads (serve_frame build conn received sent c).1 !! conn = Some t ∧
         (fh_sequence (f_header frame) ≤ ss_last_sequence (th_session t))%N.
Proof.
  unfold serve_frame. destruct (co_threads c !! conn) as [[stage session shut]|] eqn:Et; [|done].
  destruct stage; try done. destruct received as [frame|]; [|split; [apply set_stage_forward|done]].
  assert (∀ f : Session → Session, (∀ s, ss_last_sequence s ≤ ss_last_sequence (f s))%N →
    forward (co_threads c) (co_threads (alter_session f conn c))) as Hf by (intros f ?; by apply forward_alter).
  destruct (decide (fh_type _ = _)) as [Hg|Hg].
  { split; [|intros ? ? ? _ [= <-]; done]. etrans; [by apply (Hf (λ s, s <| ss_said_goodbye := true |>))|apply set_stage_forward]. }
  destruct (decide (fh_session _ ≠ _)) as [Hs|_].
  { split; [apply set_stage_forward|]. intros ? ? ? [= <- <-] [= <-] _. unfold admissible.
    by rewrite bool_decide_eq_false_2. }
  destruct (_ <=? _)%N eqn:Hq.
  { split; [apply set_stage_forward|]. intros ? ? ? [= <- <-] [= <-] _. unfold admissible.
    apply N.leb_le, N.ltb_ge in Hq. by rewrite Hq, andb_false_r. }
  destruct (decide (_ ∈ _)) as [Hc|_].
  { split; [apply set_stage_forward|]. intros ? ? ? [= <- <-] [= <-] _. unfold admissible.
    rewrite (bool_decide_eq_false_2 (_ ∉ _)) by tauto. by rewrite andb_false_r. }
  apply N.leb_gt in Hq.
  assert (∀ c1 : Co, forward c1.(co_threads) (co_threads (if ok sent then c1 else set_stage Leaving conn c1))) as Hk.
  { intros c1. destruct (ok sent); [done|apply set_stage_forward]. }
  assert (∀ f : Session → Session, ss_last_sequence (f session) = fh_sequence (f_header frame) →
    forward (co_threads c) (co_threads (alter_session f conn c)) ∧
    ∀ m, forward (co_threads (alter_session f conn c)) m → ∃ t, m !! conn = Some t ∧
         (fh_sequence (f_header frame) ≤ ss_last_sequence (th_session t))%N) as Hup.
  { intros f Ef. split.
    - apply forward_alter. intros t Ht. pose proof (eq_trans (eq_sym Ht) Et) as [= ->].
      cbn [th_session]. change (ss_last_sequence session ≤ ss_last_sequence (f session))%N. lia.
    - intros m Hm. destruct (Hm conn (mkThread Serving (f session) shut)) as (t & Ht & Hl).
      { etrans; [apply lookup_alter_eq|]. exact (f_equal (fmap (λ t, t <| th_session ::= f |>)) Et). }
      exists t. split; [done|]. cbn [th_session] in Hl. lia. }
  destruct (decide (fh_epoch _ ≠ _)) as [He|He].
  { destruct (Hup (λ s, s <| ss_last_sequence := fh_sequence (f_header frame) |>) ltac:(done)) as [H1 H2].
    split; [by etrans; [exact H1|]|]. intros ? ? ? [= <- <-] [= <-] _ _. apply H2. by etrans; [|]. }
  set (update := λ s, remember _ _ _).
  destruct (Hup update ltac:(done)) as [H1 H2].
  pose proof (dispatch_forward (update session) (fh_type (f_header frame)) (f_body frame) (alter_session update conn c)) as Hd.
  destruct (dispatch _ _ _ _ _) as [c' a]. cbn [fst] in *. specialize (Hk c').
  assert (forward (co_threads (alter_session update conn c)) (co_threads (if ok sent then c' else set_stage Leaving conn c')))
    as Hall by (by etrans).
  split; [by etrans|]. intros ? ? ? [= <- <-] [= <-] _ _. by apply H2.
Qed.

Lemma accept_hello_forward conn received c : forward (co_threads c) (co_threads (accept_hello conn received c).1).
Proof. unfold accept_hello. repeat (case_match; try apply set_stage_forward; try done). Qed.

Lemma look_up_forward conn c : forward (co_threads c) (co_threads (look_up conn c).1).
Proof. unfold look_up. repeat (case_match; try apply set_stage_forward; try done). Qed.

Lemma forget_session_forward id c : forward (co_threads c) (co_threads (forget_session id c)).
Proof.
  unfold forget_session. destruct (co_participant_session c !! id) as [sid|]; [|done].
  destruct (co_sessions c !! sid) as [old|]; [|done].
  change (forward (co_threads c) (co_threads (shut_socket old (alter_session (λ s, s <| ss_replaced := true |>) old c)))).
  etrans; [|apply shut_socket_forward]. by apply forward_alter.
Qed.

Lemma take_over_forward conn c : forward (co_threads c) (co_threads (take_over conn c)).
Proof.
  unfold take_over. destruct (co_threads c !! conn) as [[[] ? ?]|]; try done.
  etrans; [apply forget_session_forward|apply set_stage_forward].
Qed.

Lemma supersede_forward conn c : forward (co_threads c) (co_threads (supersede conn c)).
Proof.
  unfold supersede. destruct (co_threads c !! conn) as [[stage session shut]|]; [|done].
  destruct stage; try done. exact (set_stage_forward _ conn c).
Qed.

Lemma join_hello_forward conn c : forward (co_threads c) (co_threads (join_hello conn c).1).
Proof.
  unfold join_hello. destruct (co_threads c !! conn) as [[stage session shut]|] eqn:Et; [|done].
  destruct stage; try done.
  assert (∀ p, forward (co_threads c)
    (<[conn := mkThread (Joined hello) (session <| ss_participant := p |>) shut]> (co_threads c))) as Hj.
  { intros p. apply forward_insert. intros t Ht. by pose proof (eq_trans (eq_sym Ht) Et) as [= ->]. }
  destruct (hq_observer hello); [apply Hj|]. destruct (register_participant _ _ _ _ _) as [s' [r|e]]; [apply Hj|].
  exact (set_stage_forward Ended conn c).
Qed.

Lemma list_session_forward conn fresh c : forward (co_threads c) (co_threads (list_session build conn fresh c).1).
Proof.
  unfold list_session. destruct (co_threads c !! conn) as [[stage session shut]|] eqn:Et; [|done].
  destruct stage; try done. destruct (uuid_is_nil fresh); [apply set_stage_forward|]. destruct (lock_held c); [done|].
  assert (∀ s, ss_last_sequence s = ss_last_sequence session →
    forward (co_threads c) (<[conn := mkThread (Listed hello) s shut]> (co_threads c))) as Hl.
  { intros s E. apply forward_insert. intros t Ht. pose proof (eq_trans (eq_sym Ht) Et) as [= ->].
    change (ss_last_sequence session ≤ ss_last_sequence s)%N. lia. }
  destruct (hq_observer hello); by apply Hl.
Qed.

Lemma acknowledge_hello_forward conn sent c : forward (co_threads c) (co_threads (acknowledge_hello conn sent c)).
Proof. unfold acknowledge_hello. repeat (case_match; try done); [apply set_stage_forward|exact (set_stage_forward Ended conn c)]. Qed.

Lemma unlist_forward conn c : forward (co_threads c) (co_threads (unlist conn c)).
Proof. unfold unlist. repeat (case_match; try done); exact (set_stage_forward Unlisted conn c). Qed.

Lemma examine_forward conn c : forward (co_threads c) (co_threads (examine conn c)).
Proof. unfold examine. repeat (case_match; try done; try apply set_stage_forward). Qed.

Lemma settle_forward conn c : forward (co_threads c) (co_threads (settle conn c)).
Proof. unfold settle. repeat (case_match; try done); exact (set_stage_forward Ended conn c). Qed.

Lemma stop_forward c : forward (co_threads c) (co_threads (stop c)).
Proof.
  unfold stop. destruct (lock_held c); [done|]. set (l := (map_to_list _).*2). clearbody l.
  assert (∀ x : Co, forward (co_threads x) (co_threads (foldl (λ y conn, shut_socket conn y) x l))) as Hx.
  { induction l as [|k l IH]; intros x; cbn [foldl]; [done|]. etrans; [apply shut_socket_forward|apply IH]. }
  etrans; [|apply Hx]. done.
Qed.

Lemma co_step_forward c c' : co_step c c' → forward (co_threads c) (co_threads c').
Proof.
  destruct 1.
  - unfold connect. destruct (co_threads c !! conn) eqn:E; [done|].
    apply forward_insert. intros t Ht. by pose proof (eq_trans (eq_sym Ht) E).
  - apply accept_hello_forward.
  - apply look_up_forward.
  - apply take_over_forward.
  - apply supersede_forward.
  - apply join_hello_forward.
  - apply list_session_forward.
  - apply acknowledge_hello_forward.
  - apply serve_frame_forward.
  - apply unlist_forward.
  - apply examine_forward.
  - apply settle_forward.
  - apply stop_forward.
  - unfold shutdown_begin. by case_match.
  - unfold shutdown_complete. by case_match.
Qed.

Lemma begin_publish_forward conn frame c c' locals :
  begin_publish conn frame c = Some (c', locals) → forward (co_threads c) (co_threads c').
Proof.
  unfold begin_publish. destruct (co_threads c !! conn) as [[stage session shut]|] eqn:Et; [|done].
  destruct stage; try done. case_decide; [done|].
  destruct (negb _ || _) eqn:Ea; [done|]. apply orb_false_iff in Ea as [Ha%negb_false_iff Ho].
  destruct (decode_publish_request _ _) as [r rest| |]; [|done..].
  destruct (publish_reserve _ _) as [s' [a|l]]; [done|]. intros [= <- <-].
  etrans; [|apply (set_stage_forward Publishing conn)].
  apply forward_alter. intros t Ht. pose proof (eq_trans (eq_sym Ht) Et) as [= ->].
  unfold admissible in Ha. apply andb_true_iff in Ha as [[[_ Hq%N.ltb_lt]%andb_true_iff _]%andb_true_iff _].
  change (ss_last_sequence session ≤ fh_sequence (f_header frame))%N. lia.
Qed.

Lemma run_step_forward ru ru' : run_step ru ru' → forward (co_threads (ru_co ru)) (co_threads (ru_co ru')).
Proof.
  destruct 1; cbn [ru_co].
  - by apply co_step_forward.
  - by eapply begin_publish_forward.
  - unfold append_publish. by destruct (publish_durable _ _).
  - unfold finish_publish. destruct (publish_commit _ _ _). exact (set_stage_forward _ conn c).
Qed.

Lemma runs_forward ru ru' : rtc run_step ru ru' → forward (co_threads (ru_co ru)) (co_threads (ru_co ru')).
Proof. induction 1; [done|]. etrans; [by apply run_step_forward|done]. Qed.

(** ** Theorems *)

(** C7: a coordinator is an engine that is driven correctly.  Whatever the
    connections send, in whatever order their handshakes, requests, phases of
    publications and teardowns interleave, the engine of a coordinator that was
    started on an acceptable state directory is in a state the engine can reach
    by its own operations, with the publications of the connections as its
    publications in flight; every theorem about reachable engines holds of it. *)
Theorem coordinator_refines_engine P options directory c ru :
  start build options directory = success c →
  (∀ st, directory = Some st → ∀ st' load image, ds_open st = (st', success (load, image)) → P image) →
  rtc run_step (mkRunning c []) ru →
  reachable P (engine_of ru).
Proof.
  intros Hst HP Hru. destruct (start_reachable P _ _ _ Hst HP) as [[cfg Hc] _].
  exists cfg. etrans; [exact Hc|]. clear -Hru.
  induction Hru as [|x y z Hxy _ IH]; [done|]. etrans; [by apply run_step_engine|done].
Qed.

(** C8: a request acts for its own session, once, in the current epoch.  If
    serving a frame changes the engine, the connection is past its handshake and
    not an observer, the frame carries the session's identity, a sequence above
    all earlier ones, a correlation outside the window and the engine's epoch,
    and the change is that of one operation: the one the frame's type and body
    ask for.  A participant's own request (registration of a replica, read,
    write, dirty mark, publication, acknowledgement, transfer, release,
    revalidation) is made in the name of the session's participant and boot and
    in the engine's epoch, whatever the body says; of an invalidation only the
    epoch is the engine's, the participant and the boot are the client's; the
    operator's requests to fence, retire, resolve and shut down carry the
    engine's epoch, and the creation of domains and objects and the change of a
    policy carry no authority at all. *)
Theorem requests_act_for_their_session conn received sent c :
  co_engine (serve_frame build conn received sent c).1 ≠ co_engine c →
  ∃ session shut frame,
    co_threads c !! conn = Some (mkThread Serving session shut) ∧ received = success frame ∧
    ss_observer session = false ∧
    fh_session (f_header frame) = ss_id session ∧ fh_epoch (f_header frame) = epoch (co_engine c) ∧
    (ss_last_sequence session < fh_sequence (f_header frame))%N ∧
    fh_correlation (f_header frame) ∉ ss_correlation_set session ∧
    let s' := co_engine (serve_frame build conn received sent c).1 in
    (∃ o, request_op session (epoch (co_engine c)) (fh_type (f_header frame)) (f_body frame) = Some o ∧
          permitted session (epoch (co_engine c)) o ∧ s' = exec o (co_engine c)) ∨
    (∃ r rest, fh_type (f_header frame) = MessageType.Publish ∧
          decode_publish_request default_decode_limits (f_body frame) = Read r rest ∧
          s' = (publish (r <| pb_context ::= speak session (epoch (co_engine c)) |>) (co_engine c)).1).
Proof.
  intros Hne. destruct (serve_frame_engine conn received sent c) as [E|(session & shut & frame & Ht & -> & Ha & Hi)];
    [by destruct Hne|].
  exists session, shut, frame. unfold admissible in Ha.
  rewrite !andb_true_iff, !bool_decide_eq_true, N.ltb_lt in Ha. destruct Ha as [[[? ?] ?] ?].
  destruct Hi as [|o Ho|r rest Ho]; [by destruct Hne|..]; (split_and!; [done..|]); cbv zeta; [left; by exists o|right; by exists r, rest].
Qed.

(** C11: no request is executed twice.  After a connection has let a frame
    through, whatever happens on this and on other connections, a frame it lets
    through later carries a larger sequence number. *)
Theorem sequences_strictly_increase conn frame1 sent c session1 shut1 ps ru frame2 session2 shut2 :
  co_threads c !! conn = Some (mkThread Serving session1 shut1) →
  fh_type (f_header frame1) ≠ MessageType.Goodbye →
  admissible session1 (epoch (co_engine c)) (f_header frame1) = true →
  rtc run_step (mkRunning (serve_frame build conn (success frame1) sent c).1 ps) ru →
  co_threads (ru_co ru) !! conn = Some (mkThread Serving session2 shut2) →
  admissible session2 (epoch (co_engine (ru_co ru))) (f_header frame2) = true →
  (fh_sequence (f_header frame1) < fh_sequence (f_header frame2))%N.
Proof.
  intros Ht1 Hg Ha1 Hru Ht2 Ha2.
  destruct (proj2 (serve_frame_forward conn (success frame1) sent c) _ _ _ Ht1 eq_refl Hg Ha1) as (t & Ht & Hl).
  destruct (runs_forward _ _ Hru _ _ Ht) as (t' & Ht' & Hl'). rewrite Ht2 in Ht'. simplify_eq.
  cbn [th_session] in Hl'. unfold admissible in Ha2.
  rewrite !andb_true_iff, N.ltb_lt in Ha2. destruct Ha2 as [[[? ?] ?] ?]. lia.
Qed.

(** Stages and the mutex. *)
Lemma lookup_set_stage' stage conn c t :
  co_threads c !! conn = Some t → co_threads (set_stage stage conn c) !! conn = Some (t <| th_stage := stage |>).
Proof. intros Ht. etrans; [apply lookup_alter_eq|]. exact (f_equal (fmap (λ t, t <| th_stage := stage |>)) Ht). Qed.
Lemma lookup_set_stage stage conn c stage0 session shut :
  co_threads c !! conn = Some (mkThread stage0 session shut) →
  co_threads (set_stage stage conn c) !! conn = Some (mkThread stage session shut).
Proof. apply lookup_set_stage'. Qed.
Lemma set_stage_keeps stage conn c old t :
  co_threads c !! old = Some t → ss_replaced (th_session t) = true → th_shut t = true →
  ∃ t', co_threads (set_stage stage conn c) !! old = Some t' ∧ ss_replaced (th_session t') = true ∧ th_shut t' = true.
Proof.
  intros Ht ? ?. destruct (decide (conn = old)) as [<-|Hne].
  - eexists. split; [by apply lookup_set_stage'|]. done.
  - exists t. split; [|done]. etrans; [by apply lookup_alter_ne|exact Ht].
Qed.
Lemma lock_held_by conn c t : co_threads c !! conn = Some t → holds_lock (th_stage t) = true → lock_held c = true.
Proof.
  intros Ht Hh. apply existsb_exists. exists (conn, t). split; [|done].
  by apply list_elem_of_In, elem_of_map_to_list.
Qed.

Lemma take_over_superseding conn c hello existing session shut :
  co_threads c !! conn = Some (mkThread (Found hello existing) session shut) → p_boot existing ≠ hq_boot hello →
  take_over conn c = set_stage (Superseding hello existing) conn (forget_session (p_id existing) c).
Proof. intros Ht Hb. unfold take_over. by rewrite Ht, (decide_False (P := p_boot existing = _)). Qed.
Lemma forget_session_spec id c sid old t :
  co_participant_session c !! id = Some sid → co_sessions c !! sid = Some old → co_threads c !! old = Some t →
  co_sessions (forget_session id c) !! sid = None ∧ co_participant_session (forget_session id c) !! id = None ∧
  ∃ t', co_threads (forget_session id c) !! old = Some t' ∧ ss_replaced (th_session t') = true ∧ th_shut t' = true.
Proof.
  intros Hsid Hold Ht. unfold forget_session. rewrite Hsid, Hold.
  split; [apply lookup_delete_eq|]. split; [apply lookup_delete_eq|].
  set (m1 := alter (λ t, t <| th_session ::= λ s, s <| ss_replaced := true |> |>) old (co_threads c)).
  exists (t <| th_session ::= λ s, s <| ss_replaced := true |> |> <| th_shut := true |>). split; [|done].
  change (alter (λ t, t <| th_shut := true |>) old m1 !! old =
    Some (t <| th_session ::= λ s, s <| ss_replaced := true |> |> <| th_shut := true |>)).
  subst m1. by rewrite !lookup_alter_eq, Ht.
Qed.

Lemma mark_session_closed_spec id boot (s : Impl St) p :
  participants s !! id = Some p → p_boot p = boot →
  ∃ q, participants (mark_session_closed id boot s).1 !! id = Some q ∧ p_live q = false ∧ p_boot q = boot.
Proof.
  intros Hp Hb. unfold mark_session_closed. rewrite Hp, decide_False by (rewrite Hb; tauto). cbv zeta.
  set (r := p <| p_live := false |> <| p_lifecycle := _ |>). exists r.
  split; [|by rewrite <-Hb].
  change (participants (upsert_durable_participant_locked r (set_participant id r s)) !! id = Some r).
  rewrite (live_participants _ _ (upsert_participant_live _ _)). apply lookup_insert_eq.
Qed.

Lemma settle_lost_severs conn c session shut p :
  co_threads c !! conn = Some (mkThread Settling session shut) → ss_said_goodbye session = false →
  defined (ss_participant session) = true → participants (co_engine c) !! ss_participant session = Some p →
  p_lifecycle p ≠ ParticipantLifecycle.Retired →
  severed (ss_participant session) (p_boot p) (co_engine (settle conn c)) ∧
  ∀ ctx o q, ac_participant ctx = ss_participant session → resolve_locked ctx (co_engine (settle conn c)) ≠ success (o, q).
Proof.
  intros Ht Hg Hd Hp Hl. unfold settle. rewrite Ht, Hg.
  destruct (fence_participant_severs (ss_participant session) (epoch (co_engine c))
    "the control connection was lost without a clean shutdown" (co_engine c) p Hd Hp eq_refl Hl) as (Hs & _ & Hr). done.
Qed.

(** C12: what becomes of an incarnation whose connection ended.  First the
    teardown looks: the engine is left alone, and the thread ends unless the
    session is a participant's, was not replaced, and the engine still has the
    participant under the session's boot.  Then it settles, in a call of its
    own: a session that said goodbye is no longer live if its boot is still the
    current one, and changes nothing otherwise; for a lost one, the incarnation
    the engine has under the identity at that moment, which is the session's
    unless another boot has registered since the look, loses every authority,
    and requests of the participant are refused. *)
Theorem teardown_settles_authority conn c session shut p :
  defined (ss_participant session) = true →
  participants (co_engine c) !! ss_participant session = Some p →
  p_lifecycle p ≠ ParticipantLifecycle.Retired →
  (co_threads c !! conn = Some (mkThread Unlisted session shut) →
     co_engine (examine conn c) = co_engine c ∧
     co_threads (examine conn c) !! conn = Some (mkThread
       (if ss_observer session || ss_replaced session || bool_decide (p_boot p ≠ ss_boot session) then Ended else Settling)
       session shut)) ∧
  (co_threads c !! conn = Some (mkThread Settling session shut) →
     let s' := co_engine (settle conn c) in
     co_threads (settle conn c) !! conn = Some (mkThread Ended session shut) ∧
     if ss_said_goodbye session then
       if decide (p_boot p = ss_boot session) then
         ∃ q, participants s' !! ss_participant session = Some q ∧ p_live q = false ∧ p_boot q = p_boot p
       else s' = co_engine c
     else severed (ss_participant session) (p_boot p) s' ∧
       ∀ ctx o q, ac_participant ctx = ss_participant session → resolve_locked ctx s' ≠ success (o, q)).
Proof.
  intros Hd Hp Hl. split; intros Ht.
  - unfold examine. rewrite Ht. split; [by repeat case_match|].
    pose proof (λ stage, lookup_set_stage stage _ _ _ _ _ Ht) as Hs.
    destruct (ss_observer session || ss_replaced session); [apply Hs|]. rewrite Hd. cbn [negb orb].
    unfold get_participant. rewrite Hp. destruct (decide (p_boot p ≠ ss_boot session)).
    + rewrite bool_decide_eq_true_2 by done. apply Hs.
    + rewrite bool_decide_eq_false_2 by done. apply Hs.
  - cbv zeta. split; [unfold settle; rewrite Ht; exact (lookup_set_stage Ended _ _ _ _ _ Ht)|].
    destruct (ss_said_goodbye session) eqn:Hg; [|by apply (settle_lost_severs conn c session shut)].
    unfold settle. rewrite Ht, Hg. case_decide as Hb.
    + rewrite Hb. exact (mark_session_closed_spec _ _ _ _ Hp Hb).
    + cbn. unfold mark_session_closed. by rewrite Hp, decide_True.
Qed.

(** C13: admission of a new incarnation.  When the hello of a participant that
    is known under another boot passes the section that replaces the earlier
    connection, then in it: a connection that is listed for the participant is
    shut down, marked replaced and no longer listed, without a change of the
    engine; and, in a call of its own, whichever incarnation the engine has
    under the identity loses every authority, and requests of the participant
    are refused.  Until then no connection can be listed, because the mutex is
    held.  An incarnation that registers afterwards, before this one does, is
    not covered. *)
Theorem new_boot_supersedes conn c session shut hello existing :
  p_boot existing ≠ hq_boot hello →
  (co_threads c !! conn = Some (mkThread (Found hello existing) session shut) →
     let c' := take_over conn c in
     co_engine c' = co_engine c ∧ lock_held c' = true ∧
     th_stage <$> co_threads c' !! conn = Some (Superseding hello existing) ∧
     ∀ sid old t, co_participant_session c !! p_id existing = Some sid → co_sessions c !! sid = Some old →
       co_threads c !! old = Some t →
       co_sessions c' !! sid = None ∧ co_participant_session c' !! p_id existing = None ∧
       ∃ t', co_threads c' !! old = Some t' ∧ ss_replaced (th_session t') = true ∧ th_shut t' = true) ∧
  (co_threads c !! conn = Some (mkThread (Superseding hello existing) session shut) →
     (∀ k fresh, co_sessions (list_session build k fresh c).1 = co_sessions c ∧
                 co_participant_session (list_session build k fresh c).1 = co_participant_session c) ∧
     ∀ p, participants (co_engine c) !! p_id existing = Some p → defined (p_id existing) = true →
       p_lifecycle p ≠ ParticipantLifecycle.Retired →
       let c' := supersede conn c in
       th_stage <$> co_threads c' !! conn = Some (Admitted_ hello) ∧
       severed (p_id existing) (p_boot p) (co_engine c') ∧
       ∀ ctx o q, ac_participant ctx = p_id existing → resolve_locked ctx (co_engine c') ≠ success (o, q)).
Proof.
  intros Hb. split; intros Ht.
  - cbv zeta. split; [apply take_over_engine|]. rewrite (take_over_superseding _ _ _ _ _ _ Ht Hb).
    set (c1 := forget_session (p_id existing) c).
    assert (∃ t, co_threads c1 !! conn = Some t) as [t1 Ht1].
    { destruct (forget_session_forward (p_id existing) c _ _ Ht) as (t1 & Ht1 & _). by exists t1. }
    pose proof (lookup_set_stage' (Superseding hello existing) _ _ _ Ht1) as Hs.
    split; [by eapply lock_held_by; [exact Hs|]|]. split; [by rewrite Hs|].
    intros sid old t Hsid Hold Hto. destruct (forget_session_spec _ _ _ _ _ Hsid Hold Hto) as (H1 & H2 & t2 & H3 & H4 & H5).
    split; [exact H1|]. split; [exact H2|]. by eapply set_stage_keeps.
  - split.
    + intros k fresh. assert (lock_held c = true) as Hk by (by eapply lock_held_by).
      unfold list_session. rewrite Hk. by repeat case_match.
    + intros p Hp Hd Hl. cbv zeta. unfold supersede. rewrite Ht.
      destruct (fence_participant_severs (p_id existing) (epoch (co_engine c))
        "superseded by a new participant boot identity" (co_engine c) p Hd Hp eq_refl Hl) as (Hs & _ & Hr).
      split; [|done]. exact (f_equal (fmap th_stage) (lookup_set_stage' (Admitted_ hello) conn c _ Ht)).
Qed.

(** The phases of a publication compose.  Serving a publish frame in one go
    is the reservation, the append and the commit with nothing in between: same
    state, same answer. *)
Theorem publish_phases_compose conn frame sent c c' locals :
  begin_publish conn frame c = Some (c', locals) →
  serve_frame build conn (success frame) sent c =
    let '(c1, status) := append_publish locals c' in
    let '(c2, answer) := finish_publish conn locals status sent c1 in (c2, Some answer).
Proof.
  unfold begin_publish, serve_frame. destruct (co_threads c !! conn) as [[stage session shut]|] eqn:Et; [|done].
  destruct stage; try done. case_decide as Hty; [done|].
  destruct (negb _ || _) eqn:Ea; [done|]. apply orb_false_iff in Ea as [Ha%negb_false_iff Ho].
  unfold admissible in Ha. rewrite !andb_true_iff, !bool_decide_eq_true, N.ltb_lt in Ha. destruct Ha as [[[Hs Hq] Hc] He].
  set (update := λ s : Session, remember _ _ _).
  destruct (decode_publish_request _ _) as [r rest| |] eqn:Ed; [|done..].
  destruct (publish_reserve _ _) as [s1 [a|l]] eqn:E1; [done|]. intros [= <- <-].
  rewrite (decide_False (P := fh_type _ = MessageType.Goodbye)) by (by rewrite Hty).
  rewrite (decide_False (P := fh_session _ ≠ _)) by tauto.
  apply N.leb_gt in Hq as ->. rewrite (decide_False (P := _ ∈ _)) by done.
  rewrite (decide_False (P := fh_epoch _ ≠ _)) by tauto. cbv zeta.
  unfold dispatch, dispatch_session, with_payload, call, publish, append_publish, finish_publish. rewrite Hty, Ed.
  match goal with |- context [ss_observer ?x && _] => change (ss_observer x) with (ss_observer session) end.
  rewrite Ho. cbn [andb].
  match goal with |- context [publish_reserve ?x ?y] =>
    change (publish_reserve x y) with
      (publish_reserve (r <| pb_context ::= speak session (epoch (co_engine c)) |>) (co_engine c)) end.
  rewrite E1. change (co_engine (set_stage Publishing conn (alter_session update conn c <| co_engine := s1 |>))) with s1.
  destruct (publish_durable l s1) as [s2 status]. cbn [co_engine].
  change (co_engine (set_stage Publishing conn (alter_session update conn c <| co_engine := s1 |>) <| co_engine := s2 |>)) with s2.
  destruct (publish_commit l status s2) as [s3 answer].
  set (m := alter (λ t, t <| th_session ::= update |>) conn (co_threads c)).
  assert (∀ stage, alter (λ t, t <| th_stage := stage |>) conn (alter (λ t, t <| th_stage := Publishing |>) conn m)
    = alter (λ t, t <| th_stage := stage |>) conn m) as Em.
  { intros stage. by rewrite alter_alter, decide_True. }
  assert (alter (λ t, t <| th_stage := Serving |>) conn m = m) as Es.
  { apply alter_id. intros t. subst m. rewrite lookup_alter_eq, Et. by intros [= <-]. }
  assert (∀ stage, c <| co_threads := alter (λ t, t <| th_stage := stage |>) conn m |> <| co_engine := s3 |> =
    c <| co_threads := alter (λ t, t <| th_stage := stage |>) conn (alter (λ t, t <| th_stage := Publishing |>) conn m) |>
      <| co_engine := s3 |>) as Ec by (intros stage; by rewrite Em).
  f_equal. destruct (ok sent).
  - etrans; [|exact (Ec Serving)]. by rewrite Es.
  - exact (Ec Leaving).
Qed.
End sessions.
