(* ===== verification/SessionRuns.v ===== *)
(** * Sessions at work

    Concrete runs of the coordinator: the witnesses of the theorems of
    [Sessions.v], and the behaviours in which the coordinator does not keep what
    its comments say. *)
From Stdlib Require Import Strings.Byte Strings.String.
From S2P Require Import Prelude Ids Enums Status Bytes Policy Evidence Model Decisions Persistence.
From S2P Require Import Serialize Codec Messages Checksum Framing Protocol.
From S2P Require Import Engine Resolve Core Registry Read Write Invalidate Publish Sync Recovery.
From S2P Require Import Auditor Coordinator RecoveryFacts System Invariants Scenario Safety Fencing Sessions.

Notation Co := (Coordinator ListStore).

(** ** The connections of the runs *)

Definition options : CoordinatorOptions :=
  mkCoordinatorOptions "domain" default_EngineConfig default_FrameLimits 256 1024.
Definition no_coordinator : Co := mkCoordinator options s_fresh ∅ ∅ ∅ false 0 0 nil_id default_RecoveryReport.
Definition co0 : Co := answer_or no_coordinator (start "build" options (Some empty_store)).

Definition hello (name : string) (boot : ParticipantBootId) : HelloRequest :=
  mkHelloRequest 1 kPersistenceSchema "build" name boot "node" 1 false.
Definition frame (type : MessageType.t) (sid : SessionId) (n : N) (body : list byte) : Frame :=
  mkFrame (mkFrameHeader 1 type 0 sid ep1 n n) body.
Definition hello_frame (h : HelloRequest) : Frame := frame MessageType.Hello nil_uuid 0 (encode_hello_request h).
Definition sid_of (conn : N) : SessionId := from_uuid (mkUInt128 0 conn).

(** The handshake: up to the lookup, up to admission, and the rest. *)
Definition greet (conn : N) (h : HelloRequest) (c : Co) : Co :=
  (look_up conn (accept_hello conn (success (hello_frame h)) (connect conn c)).1).1.
Definition knock (conn : N) (h : HelloRequest) (c : Co) : Co := supersede conn (take_over conn (greet conn h c)).
Definition enter (conn : N) (c : Co) : Co :=
  acknowledge_hello conn StatusCode.Ok (list_session "build" conn (sid_of conn) (join_hello conn c).1).1.
Definition ask (conn n : N) (type : MessageType.t) (body : list byte) (c : Co) : Co :=
  (serve_frame "build" conn (success (frame type (sid_of conn) n body)) StatusCode.Ok c).1.
Definition lose (conn : N) (c : Co) : Co :=
  unlist conn (serve_frame "build" conn (failure StatusCode.TransportFailure) StatusCode.Ok c).1.
Definition hang_up (conn : N) (c : Co) : Co := settle conn (examine conn (lose conn c)).

(** Alpha registers an object and its replica and takes write authority. *)
Definition co_alpha : Co := enter 1 (knock 1 (hello "alpha" boot_a) co0).
Definition take_authority (conn : N) (c : Co) : Co :=
  ask conn 4 MessageType.AcquireWrite (encode_write_request write_a)
  (ask conn 3 MessageType.Revalidate (encode_revalidate_request revalidate_a)
  (ask conn 2 MessageType.RegisterRegion (encode_region_registration (replica ctx_a "a"))
  (ask conn 1 MessageType.RegisterObject (encode_register_object (from_value 1, "object"%string, 64%N, strict_policy "strict")) c))).
Definition co_write : Co := take_authority 1 co_alpha.
Definition asking_frame (n : N) : Frame :=
  frame MessageType.AcquireWrite (sid_of 1) n (encode_write_request write_a).
Definition publish_frame (n : N) : Frame :=
  frame MessageType.Publish (sid_of 1) n (encode_publish_request publish_a).

(** ** Runs *)

Section runs.
Context (c0 : Co).
Notation from c := (rtc (run_step "build") (mkRunning c0 []) (mkRunning c [])).

Lemma step_from c c' : from c → co_step "build" c c' → from c'.
Proof. intros Hc Hs. eapply rtc_r; [exact Hc|]. by apply run_co. Qed.
Ltac by_step := (eapply step_from; [|econstructor]).
Lemma knock_from conn h c : from c → from (knock conn h c).
Proof. intros Hc. unfold knock, greet. do 5 by_step. exact Hc. Qed.
Lemma enter_from conn c : from c → from (enter conn c).
Proof. intros Hc. unfold enter. do 3 by_step. exact Hc. Qed.
Lemma ask_from conn n type body c : from c → from (ask conn n type body c).
Proof. intros Hc. eapply step_from; [exact Hc|]. apply co_serve. Qed.
Lemma take_authority_from conn c : from c → from (take_authority conn c).
Proof. intros. unfold take_authority. by repeat apply ask_from. Qed.
Lemma lose_from conn c : from c → from (lose conn c).
Proof. intros Hc. unfold lose. do 2 by_step. exact Hc. Qed.
Lemma hang_up_from conn c : from c → from (hang_up conn c).
Proof. intros Hc. unfold hang_up. do 2 by_step. by apply lose_from. Qed.
End runs.

Lemma co_write_from : rtc (run_step "build") (mkRunning co0 []) (mkRunning co_write []).
Proof. apply take_authority_from, enter_from, knock_from, rtc_refl. Qed.

(** ** Witnesses *)

Definition session_at (conn : N) (c : Co) : Session :=
  match co_threads c !! conn with Some t => th_session t | None => default_Session end.

(** Alpha's coordinator, with its state directory, while alpha writes. *)
Lemma coordinator_refines_engine_witness :
  reachable image_ok (engine_of (mkRunning co_write [])) ∧
  o_authority <$> objects (co_engine co_write) !! obj = Some AuthorityMode.ExclusiveWriter.
Proof.
  split; [|by vm_compute].
  apply (coordinator_refines_engine "build" image_ok options (Some empty_store) co0 (mkRunning co_write [])).
  - by vm_compute.
  - intros st [= <-] st' load image [= <- _ <-]. exact default_image_ok.
  - exact co_write_from.
Defined.

(** Alpha's request for write authority. *)
Definition co_asking : Co :=
  ask 1 3 MessageType.Revalidate (encode_revalidate_request revalidate_a)
  (ask 1 2 MessageType.RegisterRegion (encode_region_registration (replica ctx_a "a"))
  (ask 1 1 MessageType.RegisterObject (encode_register_object (from_value 1, "object"%string, 64%N, strict_policy "strict")) co_alpha)).

Lemma requests_act_for_their_session_witness :
  ∃ session shut frame,
    co_threads co_asking !! 1%N = Some (mkThread Serving session shut) ∧ success (asking_frame 4) = success frame ∧
    ss_observer session = false ∧
    fh_session (f_header frame) = ss_id session ∧ fh_epoch (f_header frame) = epoch (co_engine co_asking) ∧
    (ss_last_sequence session < fh_sequence (f_header frame))%N ∧
    fh_correlation (f_header frame) ∉ ss_correlation_set session ∧
    let s' := co_engine (serve_frame "build" 1 (success (asking_frame 4)) StatusCode.Ok co_asking).1 in
    (∃ o, request_op session (epoch (co_engine co_asking)) (fh_type (f_header frame)) (f_body frame) = Some o ∧
          permitted session (epoch (co_engine co_asking)) o ∧ s' = exec o (co_engine co_asking)) ∨
    (∃ r rest, fh_type (f_header frame) = MessageType.Publish ∧
          decode_publish_request default_decode_limits (f_body frame) = Read r rest ∧
          s' = (publish (r <| pb_context ::= speak session (epoch (co_engine co_asking)) |>) (co_engine co_asking)).1).
Proof.
  apply (requests_act_for_their_session "build" 1 (success (asking_frame 4)) StatusCode.Ok co_asking).
  intros E. apply (f_equal (λ s, o_authority <$> objects s !! obj)) in E. by vm_compute in E.
Defined.

(** The request for write authority and a later one. *)
Lemma sequences_strictly_increase_witness :
  (fh_sequence (f_header (asking_frame 4)) < fh_sequence (f_header (publish_frame 5)))%N.
Proof.
  apply (sequences_strictly_increase "build" 1 (asking_frame 4) StatusCode.Ok co_asking (session_at 1 co_asking) false []
    (mkRunning (serve_frame "build" 1 (success (asking_frame 4)) StatusCode.Ok co_asking).1 [])
    (publish_frame 5) (session_at 1 co_write) false).
  - by vm_compute.
  - done.
  - by vm_compute.
  - apply rtc_refl.
  - by vm_compute.
  - by vm_compute.
Defined.

(** Alpha's connection is lost while it holds write authority. *)
Definition co_lost : Co := examine 1 (lose 1 co_write).
Definition alpha_in (c : Co) : ParticipantRecord :=
  answer_or default_ParticipantRecord (get_participant (from_value 1) (co_engine c)).
Definition lost_session : Session := Eval vm_compute in session_at 1 co_lost.
Definition alpha_live : ParticipantRecord := Eval vm_compute in alpha_in co_lost.

Lemma teardown_settles_authority_witness :
  (o_writer <$> objects (co_engine co_lost) !! obj = Some (from_value 1)) ∧
  severed (from_value 1) boot_a (co_engine (settle 1 co_lost)).
Proof.
  split; [by vm_compute|].
  refine (proj1 (proj2 (proj2 (teardown_settles_authority 1 co_lost lost_session false alpha_live _ _ _) _))); by vm_compute.
Defined.

(** Alpha comes back with another boot while its first connection is up. *)
Definition co_found : Co := greet 2 (hello "alpha" boot_b) co_write.
Definition co_taken : Co := take_over 2 co_found.

Lemma new_boot_supersedes_witness :
  co_sessions co_taken !! sid_of 1 = None ∧ severed (from_value 1) boot_a (co_engine (supersede 2 co_taken)).
Proof.
  destruct (new_boot_supersedes "build" 2 co_found default_Session false (hello "alpha" boot_b) alpha_live ltac:(done)) as [Hf _].
  destruct (new_boot_supersedes "build" 2 co_taken default_Session false (hello "alpha" boot_b) alpha_live ltac:(done)) as [_ Hs].
  split.
  - destruct (Hf ltac:(vm_compute; reflexivity)) as (_ & _ & _ & Hl).
    exact (proj1 (Hl (sid_of 1) 1%N (mkThread Serving lost_session false) ltac:(vm_compute; reflexivity)
      ltac:(vm_compute; reflexivity) ltac:(vm_compute; reflexivity))).
  - destruct (Hs ltac:(vm_compute; reflexivity)) as [_ Hp].
    refine (proj1 (proj2 (Hp alpha_live _ _ _))); by vm_compute.
Defined.

Definition begun : Co * PublishLocals :=
  match begin_publish 1 (publish_frame 5) co_write with Some r => r | None => (co_write, no_locals) end.

Lemma publish_phases_compose_witness :
  serve_frame "build" 1 (success (publish_frame 5)) StatusCode.Ok co_write =
    (let '(c1, status) := append_publish begun.2 begun.1 in
     let '(c2, answer) := finish_publish 1 begun.2 status StatusCode.Ok c1 in (c2, Some answer)).
Proof. apply (publish_phases_compose "build" 1 (publish_frame 5) StatusCode.Ok co_write begun.1 begun.2). by vm_compute. Defined.

(** ** Where the coordinator departs from its comments *)

Definition boot_c : ParticipantBootId := from_uuid (mkUInt128 0 3).

(** Two later incarnations of alpha knock before either of them registers. *)
Definition co_knocked : Co := knock 3 (hello "alpha" boot_c) (knock 2 (hello "alpha" boot_b) co_alpha).
Definition co_raced : Co := enter 3 (take_authority 2 (enter 2 co_knocked)).

(** Two handshakes of one participant can leave write authority with a dead
    incarnation.  The lock that replaces and fences the previous incarnation is
    released before the new one is registered; when two incarnations pass it one
    after the other, the first one registered is neither fenced by the handshake
    of the second nor at the end of its own connection.  The object it took for
    writing stays owned by it, the auditor reports the stale boot, and the live
    incarnation is refused. *)
Theorem racing_incarnations_keep_authority :
  let c := hang_up 2 co_raced in
  rtc (run_step "build") (mkRunning co0 []) (mkRunning c []) ∧
  (∃ o, objects (co_engine c) !! obj = Some o ∧ o_authority o = AuthorityMode.ExclusiveWriter ∧
        o_writer o = from_value 1 ∧ o_writer_boot o = boot_b) ∧
  (∃ p, participants (co_engine c) !! from_value 1 = Some p ∧ p_boot p = boot_c ∧ p_live p = true) ∧
  af_code <$> ar_findings (audit (co_engine c)) = [StatusCode.StaleBoot] ∧
  ∃ grant, (serve_frame "build" 3 (success (frame MessageType.AcquireWrite (sid_of 3) 9 (encode_write_request write_a)))
      StatusCode.Ok c).2 = Some (StatusCode.Ok, ReplyWrite grant) ∧
    wg_granted grant = false ∧ wg_reason grant = StatusCode.ExclusiveWriterConflict.
Proof.
  split; [apply hang_up_from, enter_from, take_authority_from, enter_from, knock_from, knock_from, enter_from, knock_from, rtc_refl|].
  split; [eexists; by vm_compute|]. split; [eexists; by vm_compute|]. split; [by vm_compute|].
  eexists. by vm_compute.
Qed.

(** The teardown of an old connection can fence a new incarnation.  The lost
    connection of alpha's first boot has found its boot current; before it
    fences, the second boot comes in and takes write authority; the fence then
    falls on the second boot, whose own connection is up and listed, and whose
    requests are refused from there on. *)
Definition co_late : Co := take_authority 2 (enter 2 (knock 2 (hello "alpha" boot_b) (examine 1 (lose 1 co_alpha)))).
Definition late_session : Session := Eval vm_compute in session_at 1 co_late.
Definition late_alpha : ParticipantRecord := Eval vm_compute in alpha_in co_late.

Theorem late_teardown_fences_the_successor :
  rtc (run_step "build") (mkRunning co0 []) (mkRunning co_late []) ∧
  (o_writer_boot <$> objects (co_engine co_late) !! obj) = Some boot_b ∧
  let c := settle 1 co_late in
  severed (from_value 1) boot_b (co_engine c) ∧
  co_participant_session c !! from_value 1 = Some (sid_of 2) ∧
  (th_stage <$> co_threads c !! 2%N) = Some Serving ∧ (th_shut <$> co_threads c !! 2%N) = Some false ∧
  (serve_frame "build" 2 (success (frame MessageType.AcquireWrite (sid_of 2) 9 (encode_write_request write_a)))
      StatusCode.Ok c).2 = Some (StatusCode.Fenced, NoReply).
Proof.
  split.
  { apply take_authority_from, enter_from, knock_from. eapply step_from; [|apply co_examine].
    apply lose_from, enter_from, knock_from, rtc_refl. }
  split; [by vm_compute|]. cbv zeta. split; [|by vm_compute].
  refine (proj1 (settle_lost_severs 1 co_late late_session false late_alpha _ _ _ _ _)); by vm_compute.
Qed.

(** A malformed request is answered as an empty success.  A write request
    whose bytes are all there but whose record version or enumerators are not
    accepted fails to decode without a reader error, and [fail(reader.status())]
    answers [Ok] with an empty body; the engine is not touched. *)
Theorem malformed_request_answered_ok (c : Co) conn session shut fr :
  co_threads c !! conn = Some (mkThread Serving session shut) → ss_observer session = false →
  fh_type (f_header fr) = MessageType.AcquireWrite →
  admissible session (epoch (co_engine c)) (f_header fr) = true →
  decode_write_request default_decode_limits (f_body fr) = Rejected →
  let r := serve_frame "build" conn (success fr) StatusCode.Ok c in
  r.2 = Some (StatusCode.Ok, NoReply) ∧ co_engine r.1 = co_engine c.
Proof.
  intros Ht Ho Hty Ha Hd. unfold serve_frame. rewrite Ht.
  unfold admissible in Ha. rewrite !andb_true_iff, !bool_decide_eq_true, N.ltb_lt in Ha. destruct Ha as [[[Hs Hq] Hc] He].
  rewrite (decide_False (P := fh_type _ = MessageType.Goodbye)) by (by rewrite Hty).
  rewrite (decide_False (P := fh_session _ ≠ _)) by tauto.
  apply N.leb_gt in Hq as ->. rewrite (decide_False (P := _ ∈ _)) by done.
  rewrite (decide_False (P := fh_epoch _ ≠ _)) by tauto. cbv zeta.
  unfold dispatch, dispatch_session, with_payload. rewrite Hty, Hd.
  match goal with |- context [ss_observer ?x && _] => change (ss_observer x) with (ss_observer session) end.
  by rewrite Ho.
Qed.

Definition malformed_frame : Frame := frame MessageType.AcquireWrite (sid_of 1) 9 [x09; x09; x00; x00].

Lemma malformed_request_answered_ok_witness :
  (serve_frame "build" 1 (success malformed_frame) StatusCode.Ok co_write).2 = Some (StatusCode.Ok, NoReply).
Proof.
  by apply (malformed_request_answered_ok co_write 1 (session_at 1 co_write) false malformed_frame); vm_compute.
Defined.
