(* ===== verification/Conversation.v ===== *)
(** * A client and its coordinator

    The control client of [Client.v], the wire of [Wire.v] and the coordinator
    of [Coordinator.v] put together: what a client asks arrives, what it is told
    is the coordinator's answer, and an honest client is never taken for a
    replay. *)
From Stdlib Require Import Strings.Byte Strings.String.
From S2P Require Import Prelude Ids Enums Status Bytes Policy Evidence Model Decisions Persistence.
From S2P Require Import Serialize Codec Messages Checksum Framing Protocol Wire Transport Client.
From S2P Require Import Engine Resolve Core Registry Read Write Invalidate Publish Sync Recovery.
From S2P Require Import Auditor Coordinator System Scenario Fencing Sessions SessionRuns.

(** ** Writing and reading on sockets *)

Definition connected (s : Socket) : Prop := so_valid s = true ∧ so_shut s = false ∧ Forall takes (so_sends s).

Lemma write_frame_written h body s :
  connected s → ∃ s', write_frame h body s = (s', StatusCode.Ok) ∧ so_out s' = so_out s ++ encode_frame h body ∧
    so_in s' = so_in s ∧ so_valid s' = true.
Proof.
  intros (Hv & Hs & Hn). unfold write_frame.
  destruct (send_all_spec (encode_frame h body) s Hv Hs) as (n & [s' st] & E & Ho & Hv' & _ & Hi & _ & _ & Hr).
  cbn [fst snd] in *. destruct Hr as [(-> & -> & _)|(_ & _ & Hin)]; [|by destruct Hin].
  exists s'. split; [exact E|]. by rewrite Ho, firstn_all.
Qed.

Lemma receive_frame_written limits f s rest :
  so_valid s = true → fits_frame limits f → concat (pieces (so_in s)) = encode_frame (f_header f) (f_body f) ++ rest →
  ∃ s', receive_frame limits s = (s', success f) ∧ concat (pieces (so_in s')) = rest ∧ so_out s' = so_out s.
Proof.
  intros Hv Hf Hc. unfold receive_frame. rewrite Hv. cbn [negb].
  destruct (read_frame_written limits f (so_in s) rest Hf Hc) as (ps & -> & Hp). by eexists.
Qed.

(** The client's side of an exchange. *)
Lemma request_answered type body cl response rest :
  connected (cl_socket cl) →
  fits_frame (cl_frames cl) response →
  concat (pieces (so_in (cl_socket cl))) = encode_frame (f_header response) (f_body response) ++ rest →
  ∃ cl', request type body cl = (cl', open_response (cl_next_correlation cl) response) ∧
    so_out (cl_socket cl') = so_out (cl_socket cl) ++ encode_frame (next_header type cl) body ∧
    concat (pieces (so_in (cl_socket cl'))) = rest ∧
    cl_session cl' = cl_session cl ∧ cl_next_sequence cl' = u64_succ (cl_next_sequence cl) ∧
    cl_next_correlation cl' = u64_succ (cl_next_correlation cl).
Proof.
  intros Hc Hf Hin. unfold request. rewrite (proj1 Hc). cbn [negb].
  destruct (write_frame_written (next_header type cl) body (cl_socket cl) Hc) as (s1 & E1 & Ho & Hi & Hv).
  change (cl_socket (take_numbers cl)) with (cl_socket cl). rewrite E1. cbn [ok negb].
  rewrite <-Hi in Hin. destruct (receive_frame_written (cl_frames cl) response s1 rest Hv Hf Hin) as (s2 & E2 & Hr & Ho2).
  change (receive_frame (cl_frames (take_numbers cl <| cl_socket := s1 |>)) (cl_socket (take_numbers cl <| cl_socket := s1 |>)))
    with (receive_frame (cl_frames cl) s1). rewrite E2.
  eexists. split; [done|]. split; [|done]. etrans; [exact Ho2|exact Ho].
Qed.

(** The client opens the response to its request. *)
Lemma response_opened sid ep correlation message detail words answer :
  fits_response_envelope default_decode_limits (mkResponseEnvelope answer.1 message detail) →
  open_response correlation (response_frame sid ep correlation message detail words answer) =
    success (mkExchange (mkResponseEnvelope answer.1 message detail) (reply_bytes words answer.2)).
Proof.
  intros He. unfold open_response. rewrite decide_False by (by intros Hn; apply Hn).
  cbn [response_frame f_header fh_correlation f_body]. rewrite N.eqb_refl. cbn [negb]. by rewrite read_written.
Qed.

Section conversation.
Context {St : Type} `{DurableStore St} (build : string).
Notation Co := (Coordinator St).
Implicit Types c : Co.

(** ** An exchange *)

(** C31: a client is told what the coordinator answered it.  A request that is
    sent over a connection which loses nothing, in whatever pieces it is sent and
    received, reaches the coordinator as the request it was; if the coordinator's
    answer arrives back, the client returns its code and exactly the bytes of its
    body; and the client moves on to fresh numbers. *)
Theorem exchanges_carry_answers type body cl conn c c' (wire : Inbound) sent answer message detail words rest :
  let asked := mkFrame (next_header type cl) body in
  let response := response_frame (hr_session (cl_session cl)) (epoch (co_engine c')) (cl_next_correlation cl)
    message detail words answer in
  connected (cl_socket cl) →
  fits_frame (co_frames (co_options c)) asked → fits_frame (cl_frames cl) response →
  fits_response_envelope default_decode_limits (mkResponseEnvelope answer.1 message detail) →
  so_out (cl_socket cl) ++ concat (pieces wire) = so_out (cl_socket (request type body cl).1) →
  serve_frame build conn (success asked) sent c = (c', Some answer) →
  concat (pieces (so_in (cl_socket cl))) = encode_frame (f_header response) (f_body response) ++ rest →
  serve_frame build conn (read_frame (co_frames (co_options c)) wire).2 sent c = (c', Some answer) ∧
  (request type body cl).2 = success (mkExchange (mkResponseEnvelope answer.1 message detail) (reply_bytes words answer.2)) ∧
  cl_next_sequence (request type body cl).1 = u64_succ (cl_next_sequence cl) ∧
  cl_next_correlation (request type body cl).1 = u64_succ (cl_next_correlation cl).
Proof.
  intros asked response Hc Ha Hr He Hw Hserve Hin.
  destruct (request_answered type body cl response rest Hc Hr Hin) as (cl' & E & Ho & _ & _ & Hs & Hk).
  rewrite E in *. cbn [fst snd] in *. rewrite Ho in Hw. apply app_inv_head in Hw.
  destruct (read_frame_written (co_frames (co_options c)) asked wire [] Ha) as (ps & Er & _); [by rewrite app_nil_r|].
  rewrite Er. split; [done|]. split; [by apply response_opened|done].
Qed.

(** ** Keeping in step *)

(** The client's numbers are ahead of what its session has seen. *)
Definition in_step (cl : ControlClient) (session : Session) : Prop :=
  ss_id session = hr_session (cl_session cl) ∧
  (ss_last_sequence session < cl_next_sequence cl)%N ∧
  ∀ x, x ∈ ss_correlation_set session → (x < cl_next_correlation cl)%N.

Lemma remember_set window x s y :
  y ∈ ss_correlation_set (remember window x s) → y = x ∨ y ∈ ss_correlation_set s.
Proof.
  assert (∃ old, ss_correlation_set (remember window x s) = ({[x]} ∪ ss_correlation_set s) ∖ old) as [old ->] by (by eexists).
  rewrite elem_of_difference, elem_of_union, elem_of_singleton. tauto.
Qed.

(** A client that is in step is admitted. *)
Lemma in_step_admissible cl session ep type :
  in_step cl session → hr_epoch (cl_session cl) = ep → admissible session ep (next_header type cl) = true.
Proof.
  intros (Hid & Hs & Hc) He. unfold admissible, next_header. cbn [fh_session fh_sequence fh_correlation fh_epoch].
  apply N.ltb_lt in Hs. rewrite Hs, !bool_decide_eq_true_2; [done|done| |done].
  intros Hin. specialize (Hc _ Hin). lia.
Qed.

(** The request of a client that is in step is dispatched. *)
Lemma in_step_served conn c cl session shut type body :
  co_threads c !! conn = Some (mkThread Serving session shut) →
  in_step cl session → hr_epoch (cl_session cl) = epoch (co_engine c) → type ≠ MessageType.Goodbye →
  let update := λ s : Session, remember (co_correlation_window (co_options c)) (cl_next_correlation cl)
    (s <| ss_last_sequence := cl_next_sequence cl |>) in
  serve_frame build conn (success (mkFrame (next_header type cl) body)) StatusCode.Ok c =
    let '(c', answer) := dispatch build (update session) type body (alter_session update conn c) in (c', Some answer).
Proof.
  intros Ht Hi He Hty update. set (asked := mkFrame (next_header type cl) body).
  pose proof (in_step_admissible cl session (epoch (co_engine c)) type Hi He) as Ha.
  unfold admissible in Ha. rewrite !andb_true_iff, !bool_decide_eq_true, N.ltb_lt in Ha. destruct Ha as [[[Hs Hlt] Hc] Hep].
  unfold serve_frame. rewrite Ht.
  rewrite (decide_False (P := fh_type (f_header asked) = MessageType.Goodbye)) by done.
  rewrite (decide_False (P := fh_session (f_header asked) ≠ _)) by (intros Hn; by apply Hn).
  apply N.leb_gt in Hlt. change (fh_sequence (f_header asked)) with (cl_next_sequence cl).
  cbn [fh_sequence next_header] in Hlt. rewrite Hlt. rewrite (decide_False (P := fh_correlation (f_header asked) ∈ _)) by done.
  rewrite (decide_False (P := fh_epoch (f_header asked) ≠ _)) by (intros Hn; by apply Hn). done.
Qed.

(** C32: an honest client is never taken for a replay.  While a client and its
    session are in step and the epoch is the client's, the next request of the
    client is let through to the dispatcher, and when its answer goes out the
    client, with its next numbers, and the session are in step again, until the
    64-bit counters are exhausted. *)
Theorem honest_clients_stay_in_step conn c cl session shut type body :
  co_threads c !! conn = Some (mkThread Serving session shut) →
  in_step cl session → hr_epoch (cl_session cl) = epoch (co_engine c) →
  type ≠ MessageType.Goodbye →
  (cl_next_sequence cl < u64_max)%N → (cl_next_correlation cl < u64_max)%N →
  let asked := mkFrame (next_header type cl) body in
  let update := λ s : Session, remember (co_correlation_window (co_options c)) (cl_next_correlation cl)
    (s <| ss_last_sequence := cl_next_sequence cl |>) in
  let r := serve_frame build conn (success asked) StatusCode.Ok c in
  (∃ answer, r.2 = Some answer ∧
     answer = (dispatch build (update session) type body (alter_session update conn c)).2) ∧
  ∃ shut', co_threads r.1 !! conn = Some (mkThread Serving (update session) shut') ∧
    in_step (take_numbers cl) (update session).
Proof.
  intros Ht Hi He Hty Hq Hk asked update r.
  pose proof (dispatch_only_shut build (update session) type body (alter_session update conn c) conn
    (mkThread Serving (update session) shut)) as Hd.
  assert (r = let '(c', answer) := dispatch build (update session) type body (alter_session update conn c) in (c', Some answer)) as ->
    by (by apply (in_step_served conn c cl session shut type body)).
  destruct (dispatch _ _ _ _ _) as [c' answer]. cbn [fst snd] in *. split; [by exists answer|].
  destruct Hd as [shut' Hd].
  { etrans; [apply lookup_alter_eq|]. exact (f_equal (fmap (λ t, t <| th_session ::= update |>)) Ht). }
  exists shut'. split; [exact Hd|]. destruct Hi as (Hid & Hs' & Hc').
  unfold in_step, take_numbers. cbn [cl_session cl_next_sequence cl_next_correlation].
  split; [exact Hid|]. split.
  - change (cl_next_sequence cl < u64_succ (cl_next_sequence cl))%N. rewrite u64_succ_small by done. lia.
  - intros x Hx. change (x < u64_succ (cl_next_correlation cl))%N. rewrite u64_succ_small by done.
    apply remember_set in Hx as [->|Hx]; [lia|]. specialize (Hc' x Hx). lia.
Qed.

(** ** The handshake *)

Definition acknowledgement (correlation : N) (hr : HelloResponse) : Frame :=
  mkFrame (mkFrameHeader protocol_version MessageType.HelloAck 0 nil_uuid nil_id 0 correlation) (encode_hello_response hr).

(** A handshake puts both sides in step.  When the coordinator lists the
    session of a fresh client and the acknowledgement arrives, the client has
    sent its hello and nothing else, has learned the session's identity and the
    engine's epoch, and is in step with the session. *)
Theorem handshakes_start_in_step conn fresh c c1 c' hello participant shut hr correlation options socket rest :
  co_threads c !! conn = Some (mkThread (Joined hello) (default_Session <| ss_participant := participant |>) shut) →
  list_session build conn fresh c = (c1, success hr) → c' = acknowledge_hello conn StatusCode.Ok c1 →
  connected socket →
  fits_frame (cl_frame_limits options) (acknowledgement correlation hr) →
  fits_hello_response default_decode_limits hr →
  concat (pieces (so_in socket)) =
    encode_frame (f_header (acknowledgement correlation hr)) (f_body (acknowledgement correlation hr)) ++ rest →
  ∃ cl session shut', connect_and_handshake build options (success socket) default_ControlClient = (cl, StatusCode.Ok) ∧
    so_out (cl_socket cl) = so_out socket ++ encode_frame (mkFrameHeader protocol_version MessageType.Hello 0 nil_uuid nil_id 1 1)
      (encode_hello_request (client_hello build (default_ControlClient <| cl_options := options |>))) ∧
    co_threads c' !! conn = Some (mkThread Serving session shut') ∧ ss_id session = fresh ∧
    in_step cl session ∧ hr_epoch (cl_session cl) = epoch (co_engine c') ∧ cl_session cl = hr.
Proof.
  intros Ht Hl -> Hc Hf Hh Hin. unfold list_session in Hl. rewrite Ht in Hl.
  destruct (uuid_is_nil fresh); [done|]. destruct (lock_held c); [done|].
  set (session := default_Session <| ss_participant := participant |> <| ss_boot := _ |> <| ss_observer := _ |>
    <| ss_name := _ |> <| ss_id := fresh |>) in Hl.
  set (c0 := c <| co_sessions ::= _ |>) in Hl. injection Hl as Hc1 Hhr.
  assert (co_threads c1 !! conn = Some (mkThread (Listed hello) session shut)) as Ht1 by (by rewrite <-Hc1; apply lookup_insert_eq).
  assert (acknowledge_hello conn StatusCode.Ok c1 = set_stage Serving conn c1) as -> by (unfold acknowledge_hello; by rewrite Ht1).
  set (cl0 := default_ControlClient <| cl_options := options |> <| cl_frames := cl_frame_limits options |>).
  set (h := mkFrameHeader protocol_version MessageType.Hello 0 nil_uuid nil_id 1 1).
  destruct (write_frame_written h (encode_hello_request (client_hello build cl0)) socket Hc) as (s1 & E1 & Ho & Hi & Hv).
  rewrite <-Hi in Hin.
  destruct (receive_frame_written (cl_frame_limits options) (acknowledgement correlation hr) s1 rest Hv Hf Hin) as (s2 & E2 & _ & Ho2).
  set (cl := take_numbers (cl0 <| cl_socket := socket |>) <| cl_socket := s1 |> <| cl_socket := s2 |> <| cl_session := hr |>).
  exists cl, session, shut. split_and!; [| |exact (lookup_set_stage Serving _ _ _ _ _ Ht1)|done| | |done].
  - unfold connect_and_handshake. fold cl0. cbv zeta.
    change (cl_socket (take_numbers (cl0 <| cl_socket := socket |>))) with socket.
    change (mkFrameHeader protocol_version MessageType.Hello 0 nil_uuid nil_id (cl_next_sequence cl0) _) with h.
    rewrite E1. cbn [ok negb].
    change (receive_frame (cl_frames _) (cl_socket _)) with (receive_frame (cl_frame_limits options) s1). rewrite E2.
    rewrite decide_True by done. cbn [acknowledgement f_body].
    pose proof (read_written (dec := decode_hello_response default_decode_limits) hr [] Hh) as Hrd. rewrite app_nil_r in Hrd.
    rewrite Hrd. assert (hr_protocol_version hr = protocol_version) as -> by (by rewrite <-Hhr). done.
  - etrans; [exact Ho2|exact Ho].
  - split; [change (fresh = hr_session hr); by rewrite <-Hhr|split; [done|]]. intros x Hx. exfalso. revert Hx. apply not_elem_of_empty.
  - change (hr_epoch hr = epoch (co_engine c1)). rewrite <-Hhr, <-Hc1. by destruct (hq_observer hello).
Qed.
End conversation.

(** ** Witnesses *)

(** Alpha's handshake: the acknowledgement arrives in two pieces, the hello
    leaves in two. *)
Definition co_joined : Coordinator ListStore := (join_hello 1 (knock 1 (hello "alpha" boot_a) co0)).1.
Definition hr_alpha : HelloResponse :=
  Eval vm_compute in answer_or default_HelloResponse (list_session "build" 1 (sid_of 1) co_joined).2.
Definition options_alpha : ClientOptions := mkClientOptions "alpha" boot_a "node" false default_FrameLimits.
Definition socket_with (bytes : list byte) : Socket :=
  mkSocket true false (mkInbound [take 30 bytes; drop 30 bytes] StatusCode.ConnectionClosed) [] [Some 40] false.
Definition ack_bytes : list byte :=
  encode_frame (f_header (acknowledgement 1 hr_alpha)) (f_body (acknowledgement 1 hr_alpha)).

Lemma handshakes_start_in_step_witness :
  ∃ cl session, connect_and_handshake "build" options_alpha (success (socket_with ack_bytes)) default_ControlClient
      = (cl, StatusCode.Ok) ∧ in_step cl session ∧ ss_id session = sid_of 1.
Proof.
  destruct (handshakes_start_in_step "build" 1 (sid_of 1) co_joined
    (list_session "build" 1 (sid_of 1) co_joined).1
    (acknowledge_hello 1 StatusCode.Ok (list_session "build" 1 (sid_of 1) co_joined).1) (hello "alpha" boot_a) (from_value 1) false hr_alpha 1
    options_alpha (socket_with ack_bytes) []) as (cl & session & _ & H1 & _ & _ & H2 & H3 & _).
  - by vm_compute.
  - by vm_compute.
  - reflexivity.
  - by split_and!; [..|repeat constructor].
  - repeat split; by vm_compute.
  - repeat split; by vm_compute.
  - by vm_compute.
  - exists cl, session. exact (conj H1 (conj H3 H2)).
Defined.

(** Alpha pings. *)
Definition cl_alpha (bytes : list byte) : ControlClient :=
  mkControlClient (socket_with bytes) hr_alpha options_alpha 2 2 default_FrameLimits.
Definition alpha_session : Session := Eval vm_compute in session_at 1 co_alpha.
Definition ping_frame : Frame := mkFrame (next_header MessageType.Ping (cl_alpha [])) (ByteWriter.u64 9).

Lemma honest_clients_stay_in_step_witness :
  ∃ shut', co_threads (serve_frame "build" 1 (success ping_frame) StatusCode.Ok co_alpha).1 !! 1%N =
      Some (mkThread Serving (remember 1024 2 (alpha_session <| ss_last_sequence := 2%N |>)) shut') ∧
    in_step (take_numbers (cl_alpha [])) (remember 1024 2 (alpha_session <| ss_last_sequence := 2%N |>)).
Proof.
  refine (proj2 (honest_clients_stay_in_step "build" 1 co_alpha (cl_alpha []) alpha_session false MessageType.Ping
    (ByteWriter.u64 9) _ _ _ _ _ _)).
  - by vm_compute.
  - split; [done|]. split; [done|]. intros x Hx. exfalso. revert Hx. apply not_elem_of_empty.
  - by vm_compute.
  - done.
  - done.
  - done.
Defined.

Definition pong : StatusCode.t * Reply :=
  Eval vm_compute in default (StatusCode.InternalError, NoReply) (serve_frame "build" 1 (success ping_frame) StatusCode.Ok co_alpha).2.
Definition pong_frame : Frame := response_frame (sid_of 1) ep1 2 "pong" "" "" pong.
Definition pong_bytes : list byte := encode_frame (f_header pong_frame) (f_body pong_frame).
Definition ping_wire : Inbound :=
  let bytes := encode_frame (f_header ping_frame) (f_body ping_frame) in
  mkInbound [take 13 bytes; []; drop 13 bytes] StatusCode.ConnectionClosed.

Lemma exchanges_carry_answers_witness :
  (request MessageType.Ping (ByteWriter.u64 9) (cl_alpha pong_bytes)).2 =
    success (mkExchange (mkResponseEnvelope StatusCode.Ok "pong" "") (reply_bytes "" pong.2)).
Proof.
  refine (proj1 (proj2 (exchanges_carry_answers "build" MessageType.Ping (ByteWriter.u64 9) (cl_alpha pong_bytes) 1 co_alpha
    (serve_frame "build" 1 (success ping_frame) StatusCode.Ok co_alpha).1 ping_wire StatusCode.Ok pong "pong" "" "" []
    _ _ _ _ _ _ _))).
  - by split_and!; [..|repeat constructor].
  - repeat split; by vm_compute.
  - repeat split; by vm_compute.
  - repeat split; by vm_compute.
  - by vm_compute.
  - by vm_compute.
  - by vm_compute.
Defined.
