(* ===== verification/RemoteFacts.v ===== *)
(** * Facts about the remote mode of the inspection program

    What the program sends and when it ends; and, with the coordinator of
    [Coordinator.v] at the other end of the connection, what a command does to
    the engine and what it prints. *)
From Stdlib Require Import Strings.Byte Strings.Ascii Strings.String.
From S2P Require Import Prelude Ids Enums Status Bytes Policy Evidence Model Decisions Persistence.
From S2P Require Import Serialize Codec Messages Checksum Framing Protocol Wire Transport Text Client.
From S2P Require Import Engine Resolve Core Registry Read Write Invalidate Publish Sync Recovery.
From S2P Require Import Auditor Coordinator Render Programs Inspector Remote System Scenario Sessions SessionRuns Conversation.
#[local] Open Scope string_scope.
#[local] Open Scope list_scope.
Implicit Types st : Remote.

(** ** What is sent *)

(** A part of a frame goes out on a socket, which stays open or shut. *)
Definition sends_part (frame : list byte) (s s' : Socket) : Prop :=
  ∃ n, so_out s' = so_out s ++ take n frame ∧ so_valid s' = so_valid s ∧ so_shut s' = so_shut s.

Lemma sends_nothing frame s : sends_part frame s s.
Proof. exists 0. by rewrite app_nil_r. Qed.

Lemma write_frame_sends h body s : sends_part (encode_frame h body) s (write_frame h body s).1.
Proof.
  unfold write_frame. destruct (so_valid s) eqn:Ev, (so_shut s) eqn:Es.
  2: { destruct (send_all_spec (encode_frame h body) s Ev Es) as (n & s' & -> & Ho & Hv & Hs & _). exists n. split_and!; congruence. }
  all: unfold send_all; rewrite Ev, ?Es; cbn [negb]; try case_decide; try apply sends_nothing.
  exists 0. by rewrite app_nil_r.
Qed.

Lemma receive_frame_sends limits s s1 frame : sends_part frame s s1 → sends_part frame s (receive_frame limits s1).1.
Proof.
  intros Hs. unfold receive_frame. destruct (negb (so_valid s1)); [done|].
  by destruct (read_frame limits (so_in s1)).
Qed.

Lemma request_sends_part type body cl :
  sends_part (encode_frame (next_header type cl) body) (cl_socket cl) (cl_socket (request type body cl).1) ∧
  cl_session (request type body cl).1 = cl_session cl.
Proof.
  unfold request. destruct (negb (so_valid (cl_socket cl))); [split; [apply sends_nothing|done]|].
  change (cl_socket (take_numbers cl)) with (cl_socket cl).
  pose proof (write_frame_sends (next_header type cl) body (cl_socket cl)) as Hw.
  destruct (write_frame _ _ _) as [s1 sent]. cbn [fst] in Hw. destruct (negb (ok sent)); [done|].
  match goal with |- context [receive_frame ?l ?s] =>
    pose proof (receive_frame_sends l (cl_socket cl) s1 _ Hw) as Hr; change (receive_frame l s) with (receive_frame l s1) end.
  by destruct (receive_frame _ s1).
Qed.

(** A command: at most one request, of one type, and an exit code. *)
Definition asks (type : MessageType.t) (f : Remote → Remote * N) : Prop := ∀ st,
  (f st).2 ∈ [0; 1; 4]%N ∧
  ∃ body,
    sends_part (encode_frame (next_header type (rm_client st)) body) (cl_socket (rm_client st)) (cl_socket (rm_client (f st).1)).

Lemma emits_client lines st : rm_client (foldl (λ st line, emit line st) st lines) = rm_client st.
Proof. revert st. induction lines as [|l ls IH]; intros st; [done|]. etrans; [apply IH|done]. Qed.

Section facts.
Context (build : string) (says : StatusCode.t → string).

Lemma accepted_asks type body (k : list byte → Remote → Remote * N) :
  (∀ payload st, rm_client (k payload st).1 = rm_client st ∧ (k payload st).2 ∈ [0; 1; 4]%N) →
  asks type (λ st, accepted_or says (remote_ask type body st) k 1%N).
Proof.
  intros Hk st. unfold accepted_or, remote_ask. pose proof (proj1 (request_sends_part type body (rm_client st))) as Hs.
  destruct (request type body (rm_client st)) as [cl [e|code]]; cbn [fst] in Hs;
    [|split; [set_solver|exists body; exact Hs]].
  case_decide; [split; [set_solver|exists body; exact Hs]|].
  destruct (Hk (ex_payload e) (st <| rm_client := cl |>)) as [Hc Hn].
  split; [done|]. exists body. by rewrite Hc.
Qed.

Lemma record_asks {A} type body (decode : Reader A) render : asks type (exchange_record says type body decode render).
Proof.
  apply accepted_asks. intros payload st.
  destruct (decode payload) as [r [|b l]| |]; (split; [first [apply emits_client|done]|set_solver]).
Qed.

Lemma text_asks type body : asks type (exchange_text says type body).
Proof.
  apply accepted_asks. intros payload st.
  destruct (ByteReader.text _ payload) as [r l| |]; (split; [first [apply emits_client|done]|set_solver]).
Qed.

Lemma audit_asks : asks MessageType.Audit (remote_audit says).
Proof.
  apply accepted_asks. intros payload st. destruct (ByteReader.text _ payload) as [r l| |]; [|by split; [|set_solver]..].
  split; [apply emits_client|]. cbn [snd]. case_match; set_solver.
Qed.

Lemma status_asks : asks MessageType.Ping (remote_status build says).
Proof.
  intros st. unfold remote_status, ping.
  match goal with |- context [request ?t ?b ?cl] => change (request t b cl) with (request t b (rm_client st)) end.
  pose proof (proj1 (request_sends_part MessageType.Ping (ByteWriter.u64 1) (rm_client st))) as Hs.
  destruct (request MessageType.Ping _ (rm_client st)) as [cl [e|code]];
    (split; [set_solver|exists (ByteWriter.u64 1); exact Hs]).
Qed.

Lemma register_asks fresh ep a : asks MessageType.RegisterRegion (remote_region_register says fresh ep a).
Proof.
  intros st. unfold remote_region_register. destruct (remote_memory_domain a); [apply record_asks|].
  split; [set_solver|exists []; apply sends_nothing].
Qed.

(** A command that may run as an observer, or may not. *)
Definition proper_command (observer : bool) (f : Remote → Remote * N) : Prop :=
  ∃ type, asks type f ∧ type ≠ MessageType.Goodbye ∧ type ≠ MessageType.Hello ∧ (observer = true → mutating type = false).

Lemma proper_asks type observer f :
  asks type f → type ≠ MessageType.Goodbye → type ≠ MessageType.Hello → observer && mutating type = false → proper_command observer f.
Proof. intros Ha Hg Hh Hm. exists type. split_and!; try done. intros ->. exact Hm. Qed.

#[local] Ltac asking :=
  lazymatch goal with
  | |- asks _ (exchange_record _ _ _ _ _) => apply record_asks
  | |- asks _ (exchange_text _ _ _) => apply text_asks
  | |- asks _ (remote_audit _) => apply audit_asks
  | |- asks _ (remote_status _ _) => apply status_asks
  | |- asks _ (remote_region_register _ _ _ _) => apply register_asks
  end.
#[local] Ltac each_command Hf :=
  repeat (case_decide; [destruct_or?; subst; injection Hf as <-;
    (eapply proper_asks; [asking|done|done|by vm_compute])|]);
  try done.

Lemma plain_proper fresh ep a group f :
  remote_plain build says fresh ep a group = Some f → proper_command (negb (bool_decide (group ∈ mutating_groups))) f.
Proof. unfold remote_plain. intros Hf. each_command Hf. Qed.

Lemma verb_proper fresh ep a group verb f :
  remote_verb says fresh ep a group verb = Some f → proper_command (negb (bool_decide (group ∈ mutating_groups))) f.
Proof.
  unfold remote_verb. intros Hf.
  case_decide; [subst; unfold remote_object in Hf; each_command Hf|].
  case_decide; [subst; unfold remote_region in Hf; each_command Hf|].
  case_decide; [subst; unfold remote_participant in Hf; each_command Hf|].
  case_decide; [subst; unfold remote_domain in Hf; each_command Hf|].
  case_decide; [subst; unfold remote_acquire in Hf; each_command Hf|done].
Qed.

Lemma command_proper fresh ep a f : remote_command build says fresh ep a = Some f → proper_command (runs_as_observer a) f.
Proof.
  unfold remote_command, runs_as_observer. destruct (ar_positional a) as [|group rest]; [done|].
  destruct (remote_plain build says fresh ep a group) as [g|] eqn:Eg; [intros [= <-]; by eapply plain_proper|apply verb_proper].
Qed.
(** ** The whole session *)

Lemma handshake_sends options socket :
  let cl := (connect_and_handshake build options (success socket) default_ControlClient).1 in
  ∃ h, fh_type h = MessageType.Hello ∧
    sends_part (encode_frame h (encode_hello_request (client_hello build (default_ControlClient <| cl_options := options |>))))
      socket (cl_socket cl).
Proof.
  unfold connect_and_handshake. cbv zeta.
  set (h := mkFrameHeader protocol_version MessageType.Hello 0 nil_uuid nil_id _ _). exists h. split; [done|].
  match goal with |- context [write_frame h ?b ?s] => change (write_frame h b s) with (write_frame h b socket) end.
  match goal with |- context [write_frame h ?b _] => pose proof (write_frame_sends h b socket) as Hw end.
  destruct (write_frame _ _ _) as [s1 sent]. cbn [fst] in Hw. destruct (negb (ok sent)); [done|].
  match goal with |- context [receive_frame ?l ?s] =>
    pose proof (receive_frame_sends l socket s1 _ Hw) as Hr; change (receive_frame l s) with (receive_frame l s1) end.
  destruct (receive_frame _ s1) as [s2 [frame|e]]; [|done].
  repeat (case_decide; [case_match; try done|]); done.
Qed.

Lemma closed_socket closed s :
  so_valid (close closed (shutdown s).1).1 = false ∧ so_out (close closed (shutdown s).1).1 = so_out s.
Proof. unfold close, shutdown. by destruct s as [[] ? ? ? ?]. Qed.

Lemma close_sends closed cl :
  let cl' := (close_client closed cl).1 in
  ∃ h, fh_type h = MessageType.Goodbye ∧ so_valid (cl_socket cl') = false ∧
    ∃ n, so_out (cl_socket cl') = so_out (cl_socket cl) ++ take n (encode_frame h []).
Proof.
  exists (next_header MessageType.Goodbye cl). split; [done|]. unfold close_client.
  set (cl1 := if so_valid (cl_socket cl) then _ else cl).
  assert (∃ n, so_out (cl_socket cl1) = so_out (cl_socket cl) ++ take n (encode_frame (next_header MessageType.Goodbye cl) [])) as [n Hn].
  { subst cl1. destruct (so_valid (cl_socket cl)); [|exists 0; by rewrite app_nil_r].
    destruct (write_frame_sends (next_header MessageType.Goodbye cl) [] (cl_socket cl)) as (n & Ho & _). by exists n. }
  destruct (closed_socket closed (cl_socket cl1)) as [Hv Ho].
  destruct (shutdown (cl_socket cl1)) as [s1 shut]. cbn [fst] in Hv, Ho. destruct (close closed s1) as [s2 st].
  split; [exact Hv|]. exists n. etrans; [exact Ho|exact Hn].
Qed.

(** What a whole session sends on its socket: a part of a hello, of one request
    and of a goodbye, in this order. *)
Definition brief (observer : bool) (out out' : list byte) : Prop :=
  ∃ hello request goodbye h hq r rq g,
    out' = out ++ hello ++ request ++ goodbye ∧
    hello `prefix_of` encode_frame h hq ∧ fh_type h = MessageType.Hello ∧
    request `prefix_of` encode_frame r rq ∧ fh_type r ≠ MessageType.Hello ∧ fh_type r ≠ MessageType.Goodbye ∧
    (observer = true → mutating (fh_type r) = false) ∧
    goodbye `prefix_of` encode_frame g [] ∧ fh_type g = MessageType.Goodbye.

Lemma run_remote_sends fresh a st :
  let r := run_remote build says fresh a st in
  r.2 ∈ [0; 1; 2; 4]%N ∧ ∃ h body, fh_type h ≠ MessageType.Hello ∧ fh_type h ≠ MessageType.Goodbye ∧
    (runs_as_observer a = true → mutating (fh_type h) = false) ∧
    sends_part (encode_frame h body) (cl_socket (rm_client st)) (cl_socket (rm_client r.1)).
Proof.
  unfold run_remote. destruct (remote_command _ _ _ _ _) as [f|] eqn:Ef.
  - destruct (command_proper _ _ _ _ Ef) as (type & Ha & Hg & Hh & Hm). destruct (Ha st) as (Hc & body & Hs).
    split; [set_solver|]. by exists (next_header type (rm_client st)), body.
  - split; [set_solver|]. exists (next_header MessageType.Ping (rm_client st)), []. split_and!; [done..|apply sends_nothing].
Qed.

(** Whatever its arguments, whatever the coordinator sends back and wherever
    the connection breaks, the remote mode of the inspection program ends with
    one of its four codes, with its connection closed, and has sent on it at most
    a hello, one request and a goodbye; a command that runs as an observer sends
    no request that could change anything, and nothing is sent when the address
    is not one or the connection is refused. *)
Theorem remote_session_is_brief boot fresh connect closed a :
  let r := remote_main build says boot fresh connect closed a in
  r.2 ∈ [0; 1; 2; 4]%N ∧ so_valid (cl_socket (rm_client r.1)) = false ∧
  match parse_endpoint (get_flag "coordinator" "" a) 0 with
  | success (host, port) =>
      match connect host port with
      | success socket => brief (runs_as_observer a) (so_out socket) (so_out (cl_socket (rm_client r.1)))
      | failure e => e ≠ StatusCode.Ok → so_out (cl_socket (rm_client r.1)) = [] ∧ r.2 = 1%N
      end
  | failure e => so_out (cl_socket (rm_client r.1)) = [] ∧ r.2 = 1%N
  end.
Proof.
  unfold remote_main, initialise_remote.
  destruct (parse_endpoint _ _) as [[host port]|e]; [|split; [cbn [snd]; set_solver|done]].
  destruct (connect host port) as [socket|e] eqn:Ec.
  - destruct (handshake_sends (remote_options boot a) socket) as (h & Hh & n & Ho & _).
    change (rm_client (mkRemote default_ControlClient nil_uuid [])) with default_ControlClient.
    destruct (connect_and_handshake _ _ _ _) as [cl status]. cbn [fst] in Ho.
    set (st0 := (if ok status then _ else _ : Remote * bool)).
    assert (cl_socket (rm_client st0.1) = cl_socket cl) as E0 by (subst st0; by destruct (ok status)).
    destruct st0 as [st ready]. cbn [fst] in E0.
    set (r := if ready then run_remote build says fresh a st else (st, 1%N)).
    assert (r.2 ∈ [0; 1; 2; 4]%N ∧ ∃ h body, fh_type h ≠ MessageType.Hello ∧ fh_type h ≠ MessageType.Goodbye ∧
      (runs_as_observer a = true → mutating (fh_type h) = false) ∧
      sends_part (encode_frame h body) (cl_socket (rm_client st)) (cl_socket (rm_client r.1))) as (Hc & hr & body & H1 & H2 & H3 & m & Hm & _).
    { subst r. destruct ready; [apply run_remote_sends|]. split; [set_solver|].
      exists (next_header MessageType.Ping (rm_client st)), []. split_and!; [done..|apply sends_nothing]. }
    destruct r as [st1 code]. cbn [fst snd] in *.
    destruct (close_sends closed (rm_client st1)) as (hg & Hg & Hv & k & Hk).
    split; [done|]. split; [exact Hv|].
    set (hq := encode_hello_request _) in Ho. set (hello := encode_frame h hq) in *.
    set (request := encode_frame hr body) in *. set (bye := encode_frame hg []) in *.
    exists (take n hello), (take m request), (take k bye), h, hq, hr, body, hg.
    split_and!; [|apply prefix_take|done|apply prefix_take|done|done|done|apply prefix_take|done].
    etrans; [exact Hk|]. rewrite Hm, E0, Ho. by rewrite !app_assoc.
  - cbn [connect_and_handshake]. set (st0 := (if ok e then _ else _ : Remote * bool)).
    split; [|split].
    + destruct st0 as [st []]; [|cbn [snd]; set_solver]. destruct (run_remote_sends fresh a st) as [Hc _]. by destruct (run_remote _ _ _ _ _).
    + destruct st0 as [st ready]. destruct (if ready then _ else _) as [st1 code].
      by destruct (close_sends closed (rm_client st1)) as (_ & _ & Hv & _).
    + intros He. assert (ok e = false) as Hok by (by destruct e). subst st0. by rewrite Hok.
Qed.
End facts.
