(* ===== verification/AgentBytes.v ===== *)
(** * The byte path between agents

    An agent that publishes a region puts its bytes into the staging segment and
    announces their fingerprint; an agent that completes a transfer takes the
    planned extent out of the segment and reports the fingerprint of what
    arrived. *)
From Stdlib Require Import Strings.Byte Strings.String.
From S2P Require Import Prelude Ids Enums Status Bytes Policy Evidence Model Decisions Persistence.
From S2P Require Import Serialize Codec Messages Checksum Regions Framing Protocol Transport Text Client.
From S2P Require Import Engine Coordinator Render Agent AgentSafety Conversation.

#[local] Open Scope agent_scope.

(** ** What is sent *)

(** The bytes a process has written to its connection. *)
Definition sent (p : Proc) : list byte := so_out (cl_socket (a_client (ps_agent p))).
Definition online (p : Proc) : Prop := connected (cl_socket (a_client (ps_agent p))).

Lemma request_sends type body cl :
  connected (cl_socket cl) →
  so_out (cl_socket (request type body cl).1) = so_out (cl_socket cl) ++ encode_frame (next_header type cl) body.
Proof.
  intros Hc. unfold request. rewrite (proj1 Hc). cbn [negb].
  destruct (write_frame_written (next_header type cl) body (cl_socket cl) Hc) as (s1 & E1 & Ho & _).
  change (cl_socket (take_numbers cl)) with (cl_socket cl). rewrite E1. cbn [ok negb].
  unfold receive_frame. destruct (so_valid _); cbn [negb]; [|exact Ho]. destruct (read_frame _ _) as [inbound r]. exact Ho.
Qed.

(** An action that neither sends nor touches memory. *)
Definition still (p p' : Proc) : Prop := view p' = view p ∧ a_client (ps_agent p') = a_client (ps_agent p).
Definition silent {A} (m : act A) : Prop := ∀ p, returns m (λ _ p', still p p') p.
Lemma still_trans p1 p2 p3 : still p1 p2 → still p2 p3 → still p1 p3.
Proof. intros [V C] [V' C']. split; etrans; eauto. Qed.
Lemma silent_ret {A} (a : A) : silent (ret a).
Proof. intros p. by exists p, (success a). Qed.
Lemma silent_fail {A} code : silent (A := A) (fail code).
Proof. intros p. by exists p, (failure code). Qed.
Lemma silent_bind {A B} (m : act A) (k : A → act B) : silent m → (∀ a, silent (k a)) → silent (bind m k).
Proof.
  intros Hm Hk p. apply returns_bind. eapply returns_mono; [|apply Hm]. intros [a|e] p' Hv; [|done].
  eapply returns_mono; [|apply Hk]. intros r p2. by apply still_trans.
Qed.
Lemma silent_emit text : silent (emit text).
Proof. intros p. by eexists _, _. Qed.
Lemma silent_modify f : (∀ p, still p (p <| ps_agent ::= f |>)) → silent (modify f).
Proof. intros Hf p. eexists _, _. split; [reflexivity|apply Hf]. Qed.
Lemma silent_get {A} (f : Agent → A) : silent (get f).
Proof. intros p. by eexists _, _. Qed.
Lemma silent_fresh : silent generate_request_id.
Proof. intros p. by eexists _, _. Qed.
Lemma silent_decoded {A} (reader : Reader A) payload : silent (decoded reader payload).
Proof. unfold decoded. destruct (reader payload); [apply silent_ret|apply silent_fail..]. Qed.
#[export] Hint Resolve silent_ret silent_fail silent_emit silent_get silent_fresh silent_decoded : quiet.
Ltac solve_silent := repeat (intros; lazymatch goal with
  | |- silent (bind _ _) => apply silent_bind
  | |- silent (modify _) => apply silent_modify; by intros; split_and!
  | |- silent (match ?x with _ => _ end) => destruct x
  | |- silent _ => solve [auto with quiet]
  end).

Lemma silent_context : silent make_context.
Proof. unfold make_context. solve_silent. Qed.

(** A request is sent, and what follows it sends nothing more. *)
Lemma returns_exchange {B} type body (k : ResponseEnvelope * list byte → act B) p :
  online p → (∀ x, silent (k x)) →
  returns (bind (exchange type body) k)
    (λ _ p', sent p' = sent p ++ encode_frame (next_header type (a_client (ps_agent p))) body ∧ view p' = view p) p.
Proof.
  intros Hc Hk. apply returns_bind. unfold exchange. apply returns_bind. unfold send_request, returns at 1.
  pose proof (request_sends type body (a_client (ps_agent p)) Hc) as Hs.
  destruct (request type body (a_client (ps_agent p))) as [cl [e|code]]; cbn [fst] in Hs.
  - eexists _, _. split; [done|]. cbv beta iota. destruct (decode_exchange_envelope e) as [env|].
    + eexists _, _. split; [done|]. eapply returns_mono; [|apply Hk]. intros r p' [V C].
      split; [|exact V]. unfold sent at 1. rewrite C. exact Hs.
    + eexists _, _. split; [done|]. split; [exact Hs|done].
  - eexists _, _. split; [done|]. split; [exact Hs|done].
Qed.

(** The steps of a command that succeed. *)
Lemma bind_success {A B} (m : act A) (k : A → act B) p p' a : m p = Some (p', success a) → bind m k p = k a p'.
Proof. intros E. unfold bind. by rewrite E. Qed.
Lemma bind_get {A B} (f : Agent → A) (k : A → act B) p x : f (ps_agent p) = x → bind (get f) k p = k x p.
Proof. by intros <-. Qed.
Lemma bind_check {B} test code (k : unit → act B) p : test = true → bind (check test code) k p = k () p.
Proof. by intros ->. Qed.
Lemma bind_needed {A B} (o : option A) (k : A → act B) p a : o = Some a → bind (needed o) k p = k a p.
Proof. by intros ->. Qed.
Lemma bind_memory {B} (k : SharedMemory → act B) p sm : h_memory (ps_host p) = sm → bind get_memory k p = k sm p.
Proof. by intros <-. Qed.

(** ** Publishing *)

(** A publication of a configured region through a staging segment. *)
Record publishes (args : list string) (p : Proc) (region : RegionId) (base : VersionId) (g : SharedSegment) (s : RegionSpec)
    (bytes : list byte) : Prop := {
  pu_ok : proc_ok p;
  pu_online : online p;
  pu_region : named_region args a_last_region (ps_agent p) = region;
  pu_defined : defined region = true;
  pu_base : version_arg (args !! 2) (a_authoritative_version (ps_agent p)) p = Some (p, success base);
  pu_bytes : bytes_of (h_memory (ps_host p)) (a_store (ps_agent p)) region = Some bytes;
  pu_staging : a_staging (ps_agent p) = Some g;
  pu_spec : spec_of region (ps_agent p) = Some s;
  pu_range : (rg_offset s + rg_length s ≤ sg_length g)%N }.

(** What it sends. *)
Definition publication_of (context : AuthorityContext) (region : RegionId) (base : VersionId) (bytes : list byte) (a : Agent) : PublishRequest :=
  mkPublishRequest context (a_ownership a) region (region_generation region a) base (fingerprint_bytes bytes) (negb (defined base)).

Lemma write_read_segment g off bytes sm sm' :
  write_segment g off bytes sm = Some sm' → read_segment g off (N.of_nat (length bytes)) sm' = Some bytes.
Proof.
  unfold write_segment, read_segment. destruct (sm_segments sm !! sg_name g) as [pages|]; [|done].
  destruct (N.leb_spec (off + N.of_nat (length bytes)) (N.of_nat (length pages))) as [Hl|]; [|done]. intros [= <-].
  rewrite segments_update, lookup_insert_eq. rewrite write_at_length by lia.
  destruct (N.leb_spec (off + N.of_nat (length bytes)) (N.of_nat (length pages))); [|lia]. f_equal. unfold write_at.
  rewrite drop_app_length' by (rewrite length_take; lia). rewrite Nat2N.id. by rewrite take_app_length.
Qed.

Lemma publication_sent region base bytes p :
  online p →
  returns (send_publication region base bytes) (λ _ p', ∃ context,
    sent p' = sent p ++ encode_frame (next_header MessageType.Publish (a_client (ps_agent p)))
                          (encode_publish_request (publication_of context region base bytes (ps_agent p))) ∧ view p' = view p) p.
Proof.
  intros Hon. unfold send_publication. apply returns_bind. eexists _, _. split; [reflexivity|].
  set (p1 := p <| ps_host ::= _ |>). get_step (a_ownership (ps_agent p1)). get_step (region_generation region (ps_agent p1)).
  eapply returns_mono; [|apply (returns_exchange _ _ _ p1 Hon)]. 1: intros r p' [Hs Hv]; eexists; split; [exact Hs|exact Hv].
  unfold print_receipt, code_line, id_line, bool_line. solve_silent.
Qed.

(** The bytes of a publication are staged, and its fingerprint is sent. *)
Lemma publication_staged args p region base g s bytes :
  publishes args p region base g s bytes →
  ∃ p' r context, command_publish args p = Some (p', r) ∧
    read_segment g (rg_offset s) (rg_length s) (h_memory (ps_host p')) = Some bytes ∧
    sent p' = sent p ++ encode_frame (next_header MessageType.Publish (a_client (ps_agent p)))
                          (encode_publish_request (publication_of context region base bytes (ps_agent p))).
Proof.
  intros [Hp Hon Hreg Hdef Hbase Hb Hg Hs Hrange]. unfold bytes_of in Hb.
  destruct (rs_regions (a_store (ps_agent p)) !! region) as [stored|] eqn:Er; [|done].
  destruct (stored_bytes p region stored Hp Er) as (bytes' & Eb & Hl & Hu). assert (bytes' = bytes) as -> by congruence. clear Eb.
  pose proof (po_named _ Hp _ _ Hs) as Hn. unfold lengths in Hn. rewrite lookup_fmap, Er in Hn. injection Hn as Hn.
  assert (extent_ok (rg_offset s) (rg_length s)) as [Ho _] by exact (spec_extent p region s Hp Hs).
  pose proof (po_staging _ Hp _ Hg) as Hm.
  destruct (write_segment_inside g (rg_offset s) bytes (h_memory (ps_host p)) Hm) as (sm' & Ew & _); [lia|].
  set (p1 := p <| ps_host ::= λ h, h <| h_memory := sm' |> |>).
  assert (stage_region region bytes p = Some (p1, success ())) as Estage.
  { unfold stage_region. rewrite (bind_get a_staging _ p _ Hg), (bind_get (spec_of region) _ p _ Hs).
    rewrite bind_check by (apply checked_range_spec; [done|by rewrite <-Hn|apply Hm|done]).
    rewrite (bind_needed _ _ _ bytes).
    2: { unfold front. destruct (N.leb_spec (rg_length s) (N.of_nat (length bytes))); [|lia]. by rewrite take_ge by lia. }
    rewrite (bind_memory _ p _ eq_refl), (bind_needed _ _ _ _ Ew). done. }
  destruct (publication_sent region base bytes p1 Hon) as (p' & r & Esend & context & Hsent & Hv).
  exists p', r, context. split; [|split; [|exact Hsent]].
  - unfold command_publish, selected_region. rewrite (bind_success _ _ p p region).
    2: { rewrite (bind_get _ _ p region Hreg). by rewrite bind_check. }
    rewrite (bind_get a_authoritative_version _ p _ eq_refl), (bind_success _ _ _ _ _ Hbase), (bind_get a_store _ p (a_store (ps_agent p)) eq_refl).
    unfold find_region. rewrite Er, (bind_memory _ p _ eq_refl), (bind_needed _ _ _ _ Hb), (bind_success _ _ _ _ _ Estage). exact Esend.
  - injection Hv as _ _ _ _ _ Em. rewrite Em. rewrite <-(write_read_segment _ _ _ _ _ Ew). f_equal. lia.
Qed.

(** ** Completing a transfer *)

(** The completion of a planned transfer out of a staging segment. *)
Record completes (args : list string) (p : Proc) (destination : RegionId) (operation : SyncOperationId) (g : SharedSegment)
    (plan : SyncRecord) : Prop := {
  co_ok : proc_ok p;
  co_online : online p;
  co_region : ∃ name, args !! 1 = Some name ∧ region_id name (ps_agent p) = destination;
  co_defined : defined destination = true;
  co_operation : ∃ text, args !! 2 = Some text ∧ operation = from_value (strtoull 10 text);
  co_staging : a_staging (ps_agent p) = Some g;
  co_plan : a_sync_plans (ps_agent p) !! operation = Some plan;
  co_length : lengths (a_store (ps_agent p)) !! destination = Some (y_extent_length plan);
  co_range : (y_extent_offset plan + y_extent_length plan ≤ sg_length g)%N }.

(** What it reports. *)
Definition arrival_of (context : AuthorityContext) (operation : SyncOperationId) (plan : SyncRecord) (destination : RegionId)
    (bytes : list byte) (a : Agent) : SyncCompleteRequest :=
  mkSyncCompleteRequest context operation destination (region_generation destination a) (y_source_version plan)
    (fingerprint_bytes bytes) true.

Lemma arrival_sent operation plan destination bytes p :
  online p →
  returns (report_arrival operation plan destination bytes) (λ _ p', ∃ context,
    sent p' = sent p ++ encode_frame (next_header MessageType.SyncComplete (a_client (ps_agent p)))
                          (encode_sync_complete (arrival_of context operation plan destination bytes (ps_agent p))) ∧ view p' = view p) p.
Proof.
  intros Hon. unfold report_arrival. apply returns_bind. eexists _, _. split; [reflexivity|].
  set (p1 := p <| ps_host ::= _ |>). get_step (region_generation destination (ps_agent p1)).
  eapply returns_mono; [|apply (returns_exchange _ _ _ p1 Hon)]. 1: intros r p' [Hs Hv]; eexists; split; [exact Hs|exact Hv].
  unfold code_line. solve_silent.
Qed.

(** What is read out of the segment is what the region holds afterwards. *)
Lemma extent_fetched g plan destination stored bytes p :
  proc_ok p → find_region destination (a_store (ps_agent p)) = Some stored → y_extent_length plan = sr_length stored →
  read_segment g (y_extent_offset plan) (y_extent_length plan) (h_memory (ps_host p)) = Some bytes →
  length bytes = N.to_nat (sr_length stored) →
  ∃ p', fetch_extent g plan destination stored p = Some (p', success bytes) ∧ a_client (ps_agent p') = a_client (ps_agent p) ∧
    a_region_generations (ps_agent p') = a_region_generations (ps_agent p) ∧
    bytes_of (h_memory (ps_host p')) (a_store (ps_agent p')) destination = Some bytes.
Proof.
  intros Hp Hr Hlen Hread Hl. pose proof (po_store _ Hp) as [Hok Hb]. destruct (Hb _ _ Hr) as [Hbk _].
  destruct (write_view_spec destination stored 0 bytes _ _ Hok Hr Hbk) as (old & sm' & rs' & Ew & Ho & Hw & _); [lia|].
  assert (write_at (N.to_nat 0) bytes old = bytes) as Eall.
  { destruct Hbk as (old' & Ho' & Hl'). rewrite Ho in Ho'. injection Ho' as <-.
    unfold write_at. rewrite take_0, drop_ge by lia. cbn. apply app_nil_r. }
  rewrite Eall in Hw.
  set (p' := p <| ps_host ::= λ h, h <| h_memory := sm' |> |> <| ps_agent ::= λ a, a <| a_store := rs' |> |>).
  exists p'. split; [|done]. unfold fetch_extent. rewrite (bind_memory _ p _ eq_refl), (bind_needed _ _ _ _ Hread).
  rewrite (bind_success _ _ p p' ()). 2: { unfold on_store. by rewrite Ew. }
  rewrite (bind_memory _ p' sm' eq_refl), (bind_get a_store _ p' rs' eq_refl). unfold bytes_of in Hw.
  unfold find_region. destruct (rs_regions rs' !! destination) as [stored'|] eqn:Er'; [|done].
  rewrite (bind_needed _ _ _ stored') by done. unfold needed. by rewrite Hw.
Qed.

Lemma transfer_completed args p destination operation g plan :
  completes args p destination operation g plan →
  ∃ p' r context bytes, command_sync_complete args p = Some (p', r) ∧
    read_segment g (y_extent_offset plan) (y_extent_length plan) (h_memory (ps_host p)) = Some bytes ∧
    bytes_of (h_memory (ps_host p')) (a_store (ps_agent p')) destination = Some bytes ∧
    sent p' = sent p ++ encode_frame (next_header MessageType.SyncComplete (a_client (ps_agent p)))
                          (encode_sync_complete (arrival_of context operation plan destination bytes (ps_agent p))).
Proof.
  intros [Hp Hon (name & E1 & Hreg) Hdef (text & E2 & ->) Hg Hplan Hlen Hrange].
  unfold lengths in Hlen. rewrite lookup_fmap in Hlen. apply fmap_Some in Hlen as (stored & Er & Hlen).
  destruct (po_plans _ Hp _ _ Hplan) as [Hoff Hplen]. pose proof (po_staging _ Hp _ Hg) as Hm.
  destruct (read_segment_inside g (y_extent_offset plan) (y_extent_length plan) _ Hm ltac:(lia)) as (bytes & Hread & Hl).
  destruct (extent_fetched g plan destination stored bytes p Hp Er Hlen Hread) as (p1 & Ef & Ec & Eg & Hb); [exact (eq_trans Hl (f_equal N.to_nat Hlen))|].
  assert (online p1) as Hon1 by (unfold online; by rewrite Ec).
  destruct (arrival_sent (from_value (strtoull 10 text)) plan destination bytes p1 Hon1) as (p' & r & Ea & context & Hs & Hv).
  exists p', r, context, bytes. split; [|split; [done|split]].
  - unfold command_sync_complete. rewrite (bind_success _ _ p p destination).
    2: { unfold required_region. rewrite E1, (bind_get (region_id name) _ p _ Hreg). by rewrite bind_check. }
    rewrite E2. cbv zeta. rewrite (bind_get a_store _ p (a_store (ps_agent p)) eq_refl), (bind_get a_staging _ p _ Hg).
    rewrite (bind_get _ _ p (Some plan) Hplan). unfold find_region. rewrite Er.
    rewrite bind_check by (by apply N.eqb_eq). rewrite bind_check by (apply checked_range_spec; [done|done|apply Hm|done]).
    rewrite (bind_success _ _ _ _ _ Ef). exact Ea.
  - injection Hv as _ Es _ _ _ Em. rewrite Es, Em. exact Hb.
  - rewrite Hs. unfold sent, arrival_of, region_generation. by rewrite Ec, Eg.
Qed.

(** ** End to end *)

(** C33: what is published arrives.  One agent publishes a configured region
    through the staging segment; another, whose staging segment has those contents, then completes a
    transfer whose planned extent is that of the region.  Both commands return,
    the destination holds exactly the bytes the publisher's region held, and the
    fingerprint the destination reports in its completion is the one the
    publisher announced in its publication. *)
Theorem published_bytes_arrive args p region base g s bytes args' q destination operation g' plan :
  publishes args p region base g s bytes →
  ∃ p' r context, command_publish args p = Some (p', r) ∧
    sent p' = sent p ++ encode_frame (next_header MessageType.Publish (a_client (ps_agent p)))
      (encode_publish_request (publication_of context region base bytes (ps_agent p))) ∧
    (completes args' q destination operation g' plan →
     sm_segments (h_memory (ps_host q)) !! sg_name g' = sm_segments (h_memory (ps_host p')) !! sg_name g →
     y_extent_offset plan = rg_offset s → y_extent_length plan = rg_length s →
     ∃ q' r' context', command_sync_complete args' q = Some (q', r') ∧
       bytes_of (h_memory (ps_host q')) (a_store (ps_agent q')) destination = Some bytes ∧
       sent q' = sent q ++ encode_frame (next_header MessageType.SyncComplete (a_client (ps_agent q)))
         (encode_sync_complete (arrival_of context' operation plan destination bytes (ps_agent q))) ∧
       sc_observed_content (arrival_of context' operation plan destination bytes (ps_agent q)) =
       pb_content (publication_of context region base bytes (ps_agent p))).
Proof.
  intros Hpub. destruct (publication_staged args p region base g s bytes Hpub) as (p' & r & context & E & Hread & Hsent).
  exists p', r, context. split; [done|]. split; [done|]. intros Hc Hmem Hoff Hlen.
  destruct (transfer_completed args' q destination operation g' plan Hc) as (q' & r' & context' & arrived & E' & Hread' & Hb & Hsent').
  assert (arrived = bytes) as ->.
  { rewrite Hoff, Hlen in Hread'. unfold read_segment in *. rewrite Hmem in Hread'. congruence. }
  exists q', r', context'. done.
Qed.
