(* ===== verification/AgentRuns.v ===== *)
(** * Agents against a coordinator

    A driver that runs an agent's commands against the coordinator of
    [SessionRuns.v], frame by frame, and a run of it: one agent joins, creates
    the object, writes and publishes its bytes through a staging segment; a
    second one joins, finds the object, plans a transfer and completes it.  The
    witnesses of the theorems about agents evaluate parts of this run. *)
From Stdlib Require Import Strings.Byte Strings.String.
From S2P Require Import Prelude Ids Enums Status Bytes Policy Evidence Model Decisions Persistence.
From S2P Require Import Serialize Codec Messages Checksum Regions Framing Protocol Transport Text Client.
From S2P Require Import Engine Resolve Core Registry Read Write Invalidate Publish Sync Recovery.
From S2P Require Import Auditor Coordinator Render Agent AgentSafety AgentLife System Scenario Sessions SessionRuns.
From S2P Require Import Conversation AgentBytes.

#[local] Open Scope agent_scope.

(** ** The driver *)

Notation Coord := (Coordinator ListStore).

(** The coordinator reads one frame of a connection and answers it. *)
Definition answer_frame (conn : N) (f : Frame) (c : Coord) : Coord * list byte :=
  if decide (fh_type (f_header f) = MessageType.Hello) then
    let c := (look_up conn (accept_hello conn (success f) (connect conn c)).1).1 in
    let c := (join_hello conn (supersede conn (take_over conn c))).1 in
    match list_session "build" conn (sid_of conn) c with
    | (c, success hr) =>
        let ack := acknowledgement (fh_correlation (f_header f)) hr in
        (acknowledge_hello conn StatusCode.Ok c, encode_frame (f_header ack) (f_body ack))
    | (c, failure _) => (c, [])
    end
  else
    match serve_frame "build" conn (success f) StatusCode.Ok c with
    | (c, Some answer) =>
        let r := response_frame (sid_of conn) (epoch (co_engine c)) (fh_correlation (f_header f)) "" "" (reply_words answer.2) answer in
        (c, encode_frame (f_header r) (f_body r))
    | (c, None) => (c, [])
    end.

(** An action is run with the answers given so far; when it has sent a frame
    that is not answered yet, the coordinator answers it and the action is run
    again from the start. *)
Definition with_input (bytes : list byte) (p : Proc) : Proc := heard (mkInbound [bytes] StatusCode.ConnectionClosed) p.
Definition wired (bytes : list byte) : Socket := mkSocket true false (mkInbound [bytes] StatusCode.ConnectionClosed) [] [] false.
Fixpoint play {A} (fuel : nat) (conn : N) (m : list byte → Proc → option (Proc * result A)) (p : Proc) (answered : nat)
    (inputs : list byte) (c : Coord) : option (Proc * result A * list byte * Coord) :=
  match fuel with
  | O => None
  | S fuel =>
      match m inputs p with
      | None => None
      | Some (p', r) =>
          let unread := mkInbound [drop answered (sent p')] StatusCode.ConnectionClosed in
          match read_frame default_FrameLimits unread with
          | (rest, success f) =>
              let '(c, bytes) := answer_frame conn f c in
              play fuel conn m p (length (sent p') - length (concat (pieces rest))) (inputs ++ bytes) c
          | (_, failure _) => Some (p', r, inputs, c)
          end
      end
  end.

(** A command of an agent that is connected. *)
Definition perform (conn : N) (command : string) (pc : Proc * Coord) : option (Proc * result unit * list byte * Coord) :=
  play 10 conn (λ inputs p, execute command (with_input inputs p)) pc.1 (length (sent pc.1)) [] pc.2.

(** ** The run *)

Definition client_options (name : string) (boot : ParticipantBootId) : ClientOptions := mkClientOptions name boot "node" false default_FrameLimits.
Definition region_spec (name : string) (seed : N) : RegionSpec :=
  mkRegionSpec name MemoryDomain.HostPageable RegionBacking.HostHeap "" false 4 8 seed true.
Definition agent_options (name : string) (boot : ParticipantBootId) (spec : RegionSpec) (create : bool) : AgentOptions :=
  mkAgentOptions (client_options name boot) "other" "table" 64 ConsistencyModel.Strict 0 StaleReadPolicy.Never [spec]
    "stage" 16 create false [].
Definition options_a : AgentOptions := agent_options "alpha" boot_a (region_spec "data" 7) true.
Definition options_b : AgentOptions := agent_options "beta" boot_b (region_spec "copy" 9) false.
Definition host_a : Host := mkHost no_segments (from_value <$> [101; 102; 103; 104; 105; 106]%N) [8192%N] [].

Definition start_agent (o : AgentOptions) (conn : N) (h : Host) (c : Coord) : option (Proc * result unit * list byte * Coord) :=
  play 10 conn (λ inputs p, (do! configure o in join "build" (success (wired inputs))) p) (fresh_agent h) 0 [] c.

Definition proc_and_coordinator (x : option (Proc * result unit * list byte * Coord)) : Proc * Coord :=
  match x with Some (p, _, _, c) => (p, c) | None => (fresh_agent host_a, co0) end.
Definition outcome_of (x : option (Proc * result unit * list byte * Coord)) : option (result unit * list string) :=
  match x with Some (p, r, _, _) => Some (r, ps_sink p) | None => None end.
Definition inputs_of (x : option (Proc * result unit * list byte * Coord)) : list byte :=
  match x with Some (_, _, inputs, _) => inputs | None => [] end.
(** Commands one after the other; each prints its own lines. *)
Definition then_perform (conn : N) (x : option (Proc * result unit * list byte * Coord)) (command : string)
    : option (Proc * result unit * list byte * Coord) :=
  let pc := proc_and_coordinator x in perform conn command (pc.1 <| ps_sink := [] |>, pc.2).

(** Alpha joins, takes write authority and publishes the first version. *)
Definition alpha_joined := Eval vm_compute in start_agent options_a 1 host_a co0.
Definition alpha_valid := Eval vm_compute in then_perform 1 alpha_joined "revalidate data".
Definition alpha_ready := Eval vm_compute in then_perform 1 alpha_valid "write data".
Definition alpha_published := Eval vm_compute in then_perform 1 alpha_ready "publish data 0".
(** Beta joins on the same memory, plans a transfer and completes it. *)
Definition host_b : Host :=
  mkHost (h_memory (ps_host (proc_and_coordinator alpha_published).1)) (from_value <$> [201; 202; 203; 204; 205; 206]%N) [16384%N] [].
Definition beta_joined := Eval vm_compute in start_agent options_b 2 host_b (proc_and_coordinator alpha_published).2.
Definition beta_planned := Eval vm_compute in then_perform 2 beta_joined "sync-begin copy auto".
Definition beta_completed := Eval vm_compute in then_perform 2 beta_planned "sync-complete copy 1".
Definition beta_read := Eval vm_compute in then_perform 2 beta_completed "read copy".

(** The second agent reads the first one's version: the run the distributed test
    of the repository makes up to there. *)
Example second_agent_reads_current :
  outcome_of alpha_published = Some (success (), ["publish_state=committed"; "publish_reason=ok"; "publish_version=1";
    "publish_prior_version=0"; "publish_durable=true"; "publish_idempotent_replay=false"]) ∧
  fst <$> outcome_of beta_completed = Some (success ()) ∧
  head <$> (snd <$> outcome_of beta_read) = Some (Some "read_outcome=read_current"%string).
Proof. by vm_compute. Qed.

(** A segment that already exists is mapped at the length the agent was told,
    without a look at its own: over a segment of eight bytes alpha joins, takes
    write authority, and its publication writes beyond the end of the segment. *)
Definition host_short : Host := mkHost (no_segments <| sm_segments := {["stage"%string := replicate 8 x00]} |>)
  (h_fresh host_a) [8192%N] [].
Definition options_short : AgentOptions := agent_options "alpha" boot_a (region_spec "data" 7) false.
Definition short_joined := Eval vm_compute in start_agent options_short 1 host_short co0.
Definition short_ready := Eval vm_compute in then_perform 1 (then_perform 1 short_joined "revalidate data") "write data".
Theorem short_segments_are_overrun :
  fst <$> outcome_of short_joined = Some (success ()) ∧ fst <$> outcome_of short_ready = Some (success ()) ∧
  execute "publish data 0" (proc_and_coordinator short_ready).1 = None.
Proof. by vm_compute. Qed.

(** ** Witnesses *)

Definition proc_of (x : option (Proc * result unit * list byte * Coord)) : Proc := (proc_and_coordinator x).1.

Lemma can_start_a : can_start options_a host_a.
Proof.
  split.
  - repeat constructor.
  - done.
  - intros name l l' [= -> ->]%list_elem_of_singleton [= ->]%list_elem_of_singleton. done.
  - intros name l pages _ Hp. by vm_compute in Hp.
  - done.
  - repeat constructor.
Qed.
Lemma can_start_b : can_start options_b host_b.
Proof.
  split.
  - repeat constructor.
  - done.
  - intros name l l' [= -> ->]%list_elem_of_singleton [= ->]%list_elem_of_singleton. done.
  - intros name l pages [= -> ->]%list_elem_of_singleton Hp. vm_compute in Hp. injection Hp as <-. vm_compute. lia.
  - done.
  - repeat constructor.
Qed.

Lemma alpha_joined_ok : proc_ok (proc_of alpha_joined).
Proof.
  refine (returns_elim _ _ _ _ (success ()) (start_returns options_a host_a "build" (success (wired (inputs_of alpha_joined))) can_start_a) _).
  by vm_compute.
Qed.
(** A command that was performed. *)
Lemma performed_ok command inputs p p' r :
  proc_ok p → execute command (with_input inputs (p <| ps_sink := [] |>)) = Some (p', r) → proc_ok p'.
Proof. intros Hp E. refine (returns_elim _ _ _ _ _ (keeps_execute command _ _) E). by apply (proc_ok_view p). Qed.
Lemma alpha_ready_ok : proc_ok (proc_of alpha_ready).
Proof.
  assert (proc_ok (proc_of alpha_valid)) as Hv.
  { refine (performed_ok "revalidate data" (inputs_of alpha_valid) _ _ (success ()) alpha_joined_ok _). by vm_compute. }
  refine (performed_ok "write data" (inputs_of alpha_ready) _ _ (success ()) Hv _). by vm_compute.
Qed.
Lemma beta_planned_ok : proc_ok (proc_of beta_planned).
Proof.
  assert (proc_ok (proc_of beta_joined)) as Hj.
  { refine (returns_elim _ _ _ _ (success ()) (start_returns options_b host_b "build" (success (wired (inputs_of beta_joined))) can_start_b) _).
    by vm_compute. }
  refine (performed_ok "sync-begin copy auto" (inputs_of beta_planned) _ _ (success ()) Hj _). by vm_compute.
Qed.

Definition data_spec : RegionSpec := region_spec "data" 7.
Definition data_bytes : list byte := Eval vm_compute in make_pattern 8 7.
Definition stage_a : SharedSegment := mkSharedSegment "stage" 4096 16.
Definition stage_b : SharedSegment := mkSharedSegment "stage" 4112 16.
Definition publisher : Proc := Eval vm_compute in with_input (inputs_of alpha_published) (proc_of alpha_ready).
Definition receiver : Proc := Eval vm_compute in with_input (inputs_of beta_completed) (proc_of beta_planned).
Definition plan_1 : SyncRecord := Eval vm_compute in default default_SyncRecord (a_sync_plans (ps_agent receiver) !! from_value 1).

Lemma publisher_ok : proc_ok publisher.
Proof. refine (proc_ok_view (proc_of alpha_ready) publisher _ alpha_ready_ok). by vm_compute. Qed.
Lemma receiver_ok : proc_ok receiver.
Proof. refine (proc_ok_view (proc_of beta_planned) receiver _ beta_planned_ok). by vm_compute. Qed.
Lemma publishes_data : publishes ["publish"; "data"; "0"] publisher (from_value 101) nil_id stage_a data_spec data_bytes.
Proof.
  refine (Build_publishes _ _ _ _ _ _ _ publisher_ok _ _ _ _ _ _ _ _); [|vm_compute; reflexivity..|vm_compute; discriminate].
  split_and!; [vm_compute; reflexivity..|]. apply Forall_nil_2.
Qed.
Lemma completes_copy : completes ["sync-complete"; "copy"; "1"] receiver (from_value 201) (from_value 1) stage_b plan_1.
Proof.
  refine (Build_completes _ _ _ _ _ _ receiver_ok _ _ _ _ _ _ _ _);
    [| |vm_compute; reflexivity| |vm_compute; reflexivity..|vm_compute; discriminate].
  - split_and!; [vm_compute; reflexivity..|]. apply Forall_nil_2.
  - exists "copy"%string. split; vm_compute; reflexivity.
  - exists "1"%string. split; vm_compute; reflexivity.
Qed.

(** The staging segment after a command. *)
Definition staged_in (x : option (Proc * result unit)) : option (list byte) :=
  match x with Some (p, _) => sm_segments (h_memory (ps_host p)) !! "stage"%string | None => None end.

Lemma published_bytes_arrive_witness :
  ∃ q' r', command_sync_complete ["sync-complete"; "copy"; "1"] receiver = Some (q', r') ∧
    bytes_of (h_memory (ps_host q')) (a_store (ps_agent q')) (from_value 201) = Some data_bytes.
Proof.
  destruct (published_bytes_arrive ["publish"; "data"; "0"] publisher (from_value 101) nil_id stage_a data_spec data_bytes
    ["sync-complete"; "copy"; "1"] receiver (from_value 201) (from_value 1) stage_b plan_1 publishes_data)
    as (p' & r & context & Ep & _ & H).
  destruct (H completes_copy) as (q' & r' & _ & Eq & Hb & _); [|done|done|eauto].
  assert (staged_in (command_publish ["publish"; "data"; "0"] publisher) = sm_segments (h_memory (ps_host receiver)) !! "stage"%string) as Es
    by (vm_compute; reflexivity).
  rewrite Ep in Es. exact (eq_sym Es).
Defined.

