(* ===== verification/AgentText.v ===== *)
(** * What an agent reads back from a rendered snapshot

    The agent finds a field in a text by its key and an equals sign.  In a text
    whose names hold no equals sign, the first field with a key is the one that
    is rendered first; so [refresh_object] learns of its object what the
    coordinator rendered, except that the generation it takes is the one of the
    first domain. *)
From Stdlib Require Import Strings.Byte Strings.Ascii Strings.String.
From S2P Require Import Prelude Ids Enums Status Bytes Policy Evidence Model Decisions Persistence.
From S2P Require Import Serialize Codec Messages Checksum Regions Framing Protocol Wire Transport Text Client.
From S2P Require Import Engine Resolve Core Registry Read Write Invalidate Publish Sync Recovery.
From S2P Require Import Auditor Coordinator Render Agent AgentSafety System Scenario Sessions SessionRuns.
From S2P Require Import Conversation AgentBytes AgentRuns.

#[local] Open Scope string_scope.

(** ** Searching for a key *)

(** A text without an equals sign; without a blank or the end of a line. *)
Definition plain (s : string) : bool := all_chars (λ c, negb (Ascii.eqb c "=")) s.
Definition ends_field (c : ascii) : bool := Ascii.eqb c " " || Ascii.eqb c newline.
Definition blank_free (s : string) : bool := all_chars (λ c, negb (ends_field c)) s.
Fixpoint ends_with (k s : string) : bool :=
  if decide (k = s) then true else match s with EmptyString => false | String _ r => ends_with k r end.

(** What follows the first occurrence of a key. *)
Definition after (k text : string) : option string :=
  (λ pos, drop_text (pos + String.length (k ++ "=")) text) <$> find_text (k ++ "=") text.

Lemma after_cons k c text :
  String.prefix (k ++ "=") (String c text) = false → after k (String c text) = after k text.
Proof.
  intros E. unfold after. cbn [find_text]. rewrite E. destruct (find_text (k ++ "=") text) as [pos|]; [|done]. done.
Qed.

(** A key matches up to an equals sign exactly when it is the text before it. *)
Lemma prefix_key k seg rest :
  plain k = true → plain seg = true → String.prefix (k ++ "=") (seg ++ "=" ++ rest) = bool_decide (k = seg).
Proof.
  revert seg. induction k as [|c k IH]; intros seg Hk Hs.
  - destruct seg as [|d seg]; [by destruct rest|]. cbn in Hs. apply andb_true_iff in Hs as [Hd _].
    change (String.prefix "=" (String d (seg ++ "=" ++ rest)) = bool_decide ("" = String d seg)).
    rewrite bool_decide_eq_false_2 by done. cbn [String.prefix]. destruct (ascii_dec "=" d) as [<-|]; [by vm_compute in Hd|done].
  - cbn in Hk. apply andb_true_iff in Hk as [Hc Hk]. destruct seg as [|d seg].
    + change (String.prefix (String c (k ++ "=")) (String "=" rest) = bool_decide (String c k = "")).
      rewrite bool_decide_eq_false_2 by done. cbn [String.prefix]. destruct (ascii_dec c "=") as [->|]; [by vm_compute in Hc|done].
    + cbn in Hs. apply andb_true_iff in Hs as [Hd Hs].
      change (String.prefix (String c (k ++ "=")) (String d (seg ++ "=" ++ rest)) = bool_decide (String c k = String d seg)).
      cbn [String.prefix]. destruct (ascii_dec c d) as [->|Hne].
      * rewrite (IH seg Hk Hs). apply bool_decide_ext. split; congruence.
      * symmetry. apply bool_decide_eq_false_2. congruence.
Qed.

Lemma after_segment k seg rest :
  plain k = true → plain seg = true → after k (seg ++ "=" ++ rest) = if ends_with k seg then Some rest else after k rest.
Proof.
  intros Hk. revert seg. induction seg as [|c seg IH]; intros Hs.
  - pose proof (prefix_key k "" rest Hk eq_refl) as Hp. cbn [ends_with].
    destruct (decide (k = "")) as [->|Hne].
    + unfold after. change ("" ++ "=" ++ rest) with (String "=" rest). cbn [find_text]. change ("" ++ "=") with "=".
      destruct rest; done.
    + rewrite bool_decide_eq_false_2 in Hp by done. change ("" ++ "=" ++ rest) with (String "=" rest) in *. by apply after_cons.
  - pose proof (prefix_key k (String c seg) rest Hk Hs) as Hp. cbn [ends_with].
    cbn in Hs. apply andb_true_iff in Hs as [_ Hs]. change (String c seg ++ "=" ++ rest) with (String c (seg ++ "=" ++ rest)) in *.
    destruct (decide (k = String c seg)) as [->|Hne].
    + rewrite bool_decide_eq_true_2 in Hp by done. unfold after. cbn [find_text]. rewrite Hp. cbn [fmap option_fmap option_map Nat.add].
      f_equal. change (String c (seg ++ "=" ++ rest)) with (String c seg ++ ("=" ++ rest)).
      rewrite <-(app_assoc_string (String c seg) "=" rest). apply drop_text_app.
    + rewrite bool_decide_eq_false_2 in Hp by done. rewrite after_cons by done. by apply IH.
Qed.

(** What stands before a word that starts with a blank does not matter. *)
Lemma ends_with_app k v w : blank_free k = true → blank_free w = false → ends_with k (v ++ w) = ends_with k w.
Proof.
  intros Hk Hw. induction v as [|c v IH]; [done|]. change (String c v ++ w) with (String c (v ++ w)). cbn [ends_with].
  rewrite decide_False; [exact IH|]. intros ->. cbn in Hk. apply andb_true_iff in Hk as [_ Hk].
  unfold blank_free in Hk, Hw. rewrite all_chars_app in Hk. apply andb_true_iff in Hk as [_ Hk]. congruence.
Qed.

Lemma plain_app a b : plain (a ++ b) = plain a && plain b.
Proof. apply all_chars_app. Qed.

(** A field after a value: passed over, or found. *)
Lemma after_pass k v key rest :
  plain k = true → blank_free k = true → plain v = true → plain key = true → blank_free key = false → ends_with k key = false →
  after k (v ++ key ++ "=" ++ rest) = after k rest.
Proof.
  intros Hk Hb Hv Hp Hw He. rewrite <-app_assoc_string, after_segment; [|done|by rewrite plain_app, Hv].
  by rewrite ends_with_app, He by done.
Qed.
Lemma after_hit k v key rest :
  plain k = true → blank_free k = true → plain v = true → plain key = true → blank_free key = false → ends_with k key = true →
  after k (v ++ key ++ "=" ++ rest) = Some rest.
Proof.
  intros Hk Hb Hv Hp Hw He. rewrite <-app_assoc_string, after_segment; [|done|by rewrite plain_app, Hv].
  by rewrite ends_with_app, He by done.
Qed.

(** ** The characters of values *)

Lemma pretty_chars p (n : N) : (∀ c d, digit_of c = Some d → p c = true) → all_chars p (pretty n) = true.
Proof.
  intros Hp. destruct (pretty_digits n) as (_ & Ha & _). induction (pretty n) as [|c s IH]; [done|]. cbn in Ha |- *.
  apply andb_true_iff in Ha as [[d Hd]%bool_decide_eq_true Ha]. by rewrite (Hp c d Hd), IH.
Qed.
Lemma digit_not c x d : digit_of x = None → digit_of c = Some d → negb (Ascii.eqb c x) = true.
Proof. intros Hx Hc. destruct (Ascii.eqb_spec c x) as [->|]; [congruence|done]. Qed.
Lemma pretty_plain (n : N) : plain (pretty n) = true.
Proof. apply pretty_chars. intros c d. by apply digit_not. Qed.
Lemma id_plain {t} (i : StrongId t) : plain (id_to_string i) = true.
Proof. apply pretty_plain. Qed.
Lemma hex_digits_plain w v : plain (hex_digits w v) = true.
Proof.
  revert v. induction w as [|w IH]; intros v; [done|]. cbn [hex_digits].
  change (plain (hex_digits w (N.shiftr v 4) ++ String (hex_digit (N.land v 15)) "") = true). rewrite plain_app, IH. cbn [andb].
  assert (N.land v 15 < 16)%N as Hd by (change 15%N with (N.ones 4); rewrite N.land_ones; apply N.mod_lt; done).
  generalize dependent (N.land v 15). intros d Hd. cbn. rewrite andb_true_r. unfold hex_digit.
  apply negb_true_iff, Ascii.eqb_neq. intros E. apply (f_equal Ascii.N_of_ascii) in E.
  destruct (N.ltb_spec d 10); rewrite Ascii.N_ascii_embedding in E by lia; vm_compute (Ascii.N_of_ascii "=") in E; lia.
Qed.
Lemma uuid_plain {t} (i : StrongUuid t) : plain (uuid_to_string i) = true.
Proof. unfold uuid_to_string, to_hex. change (plain (hex_digits 16 (high (uuid i)) ++ hex_digits 16 (low (uuid i))) = true). by rewrite plain_app, !hex_digits_plain. Qed.
Lemma yes_no_plain b : plain (yes_no b) = true.
Proof. by destruct b. Qed.
Lemma count_plain {A} (l : list A) : plain (count_of l) = true.
Proof. apply pretty_plain. Qed.
Lemma token_plain {E} `{EnumTable E, EqDecision E} (v : E) :
  forallb (λ e, plain e.2) (enum_table (E := E)) = true → plain (lookup_token v) = true.
Proof.
  intros Ht. unfold lookup_token. destruct (list_find _ enum_table) as [[i [e token]]|] eqn:El; [|done].
  apply list_find_Some in El as (Hi & _ & _). apply list_elem_of_lookup_2 in Hi.
  change token with ((e, token).2). rewrite forallb_forall in Ht. apply Ht. by apply list_elem_of_In.
Qed.
#[export] Hint Resolve pretty_plain id_plain uuid_plain yes_no_plain count_plain : coherence.
#[export] Hint Extern 1 (plain (lookup_token _) = true) => apply token_plain; reflexivity : coherence.
#[export] Hint Extern 2 (plain _ = true) => reflexivity : coherence.
#[export] Hint Extern 3 (plain (_ ++ _) = true) => rewrite plain_app; apply andb_true_intro; split : coherence.

(** ** Passing over records *)

(** A key that is none of the given ones, nor the end of one. *)
Definition passes (k : string) (keys : list string) : bool :=
  plain k && blank_free k && forallb (λ key, plain key && negb (blank_free key) && negb (ends_with k key)) keys.

Lemma passes_key k keys key : passes k keys = true → key ∈ keys →
  plain k = true ∧ blank_free k = true ∧ plain key = true ∧ blank_free key = false ∧ ends_with k key = false.
Proof.
  unfold passes. rewrite !andb_true_iff, forallb_forall. intros [[Hk Hb] Ha] Hin. apply list_elem_of_In, Ha in Hin.
  rewrite !andb_true_iff, !negb_true_iff in Hin. tauto.
Qed.
Lemma after_passes k keys v key rest :
  passes k keys = true → key ∈ keys → plain v = true → after k (v ++ key ++ "=" ++ rest) = after k rest.
Proof. intros Hp Hin Hv. destruct (passes_key k keys key Hp Hin) as (?&?&?&?&?). by apply after_pass. Qed.

Definition domain_keys : list string := [" name"; " generation"; " lifecycle"; " created_epoch"; " current_epoch"].

(** The first field of a line, after its label. *)
Lemma after_label k keys v label w key rest :
  passes k keys = true → key ∈ keys → plain v = true → plain label = true → plain w = true →
  after k (v ++ label ++ w ++ key ++ "=" ++ rest) = after k rest.
Proof.
  intros Hp Hin Hv Hl Hw. rewrite <-(app_assoc_string label), <-(app_assoc_string v). eapply after_passes; [done..|].
  by rewrite !plain_app, Hv, Hl, Hw.
Qed.

Ltac pass keys key := etrans; [apply (after_passes _ keys _ key); [done|set_solver|auto with coherence]|].

Lemma pass_domain k d v rest :
  passes k domain_keys = true → plain v = true → plain (d_name d) = true →
  after k (v ++ render_domain d ++ rest) = after k (id_to_string (d_current_epoch d) ++ newline_text ++ rest).
Proof.
  intros Hk Hv Hn. unfold render_domain. rewrite !app_assoc_string.
  etrans; [apply (after_label k domain_keys v "  domain " (id_to_string (d_id d)) " name"); auto with coherence; set_solver|].
  pass domain_keys " generation". pass domain_keys " lifecycle". pass domain_keys " created_epoch". pass domain_keys " current_epoch".
  done.
Qed.

(** A value and the text after it, from which a search goes on. *)
Definition goes_on (k text rest : string) : Prop := ∃ v, plain v = true ∧ after k text = after k (v ++ rest).

Lemma goes_on_app k v w rest : plain w = true → plain v = true → goes_on k (v ++ w ++ rest) rest.
Proof. intros Hw Hv. exists (v ++ w). split; [by rewrite plain_app, Hv|]. by rewrite app_assoc_string. Qed.

Lemma pass_all {A} (render : A → string) (good : A → Prop) k l v rest :
  (∀ a v rest, good a → plain v = true → goes_on k (v ++ render a ++ rest) rest) →
  plain v = true → Forall good l → goes_on k (v ++ concat_map render l ++ rest) rest.
Proof.
  intros Hr Hv Hl. revert v Hv. induction Hl as [|a l Ha Hl IH]; intros v Hv; [by exists v|].
  change (concat_map render (a :: l)) with (render a ++ concat_map render l). rewrite app_assoc_string.
  destruct (Hr a v (concat_map render l ++ rest) Ha Hv) as (w & Hw & E).
  destruct (IH w Hw) as (u & Hu & E'). exists u. split; [done|]. by rewrite E.
Qed.

Lemma pass_domains k l v rest :
  passes k domain_keys = true → plain v = true → Forall (λ d, plain (d_name d) = true) l →
  goes_on k (v ++ concat_map render_domain l ++ rest) rest.
Proof.
  intros Hk. apply pass_all. intros d w r Hd Hw. unfold goes_on. rewrite pass_domain by done. by apply goes_on_app; auto with coherence.
Qed.

Definition participant_keys : list string :=
  [" name"; " boot"; " previous_boot"; " lifecycle"; " live"; " admitted_epoch"; " last_epoch"; " regions"; " fence_reason"; " id"].
Definition participant_plain (p : ParticipantRecord) : Prop := plain (p_name p) = true ∧ plain (p_fence_reason p) = true.

Lemma pass_participants k l v rest :
  passes k participant_keys = true → plain v = true → Forall participant_plain l →
  goes_on k (v ++ concat_map (λ p, indented (render_participant p)) l ++ rest) rest.
Proof.
  intros Hk. apply pass_all. clear v rest. intros p v rest [Hn Hf] Hv. unfold goes_on, indented, render_participant, append_id, append_field.
  rewrite !app_assoc_string.
  assert (∀ tail, after k (v ++ "  " ++ "participant" ++ " " ++ "id" ++ "=" ++ id_to_string (p_id p) ++ " " ++ "name" ++ "=" ++ p_name p ++
      newline_text ++ " " ++ "boot" ++ "=" ++ uuid_to_string (p_boot p) ++ " " ++ "previous_boot" ++ "=" ++ uuid_to_string (p_previous_boot p) ++
      " " ++ "lifecycle" ++ "=" ++ lookup_token (p_lifecycle p) ++ " " ++ "live" ++ "=" ++ yes_no (p_live p) ++ newline_text ++
      " " ++ "admitted_epoch" ++ "=" ++ id_to_string (p_admitted_epoch p) ++ " " ++ "last_epoch" ++ "=" ++ id_to_string (p_last_epoch p) ++
      " " ++ "regions" ++ "=" ++ tail) = after k tail) as Hfields.
  { intros tail. etrans; [apply (after_label k participant_keys v "  " "participant" " id"); auto with coherence; set_solver|].
    pass participant_keys " name".
    etrans; [apply (after_label k participant_keys (p_name p) newline_text "" " boot"); auto with coherence; set_solver|].
    pass participant_keys " previous_boot". pass participant_keys " lifecycle". pass participant_keys " live".
    etrans; [apply (after_label k participant_keys (yes_no (p_live p)) newline_text "" " admitted_epoch"); auto with coherence; set_solver|].
    pass participant_keys " last_epoch". pass participant_keys " regions". done. }
  rewrite Hfields. destruct (decide (p_fence_reason p = "")).
  - exists (pretty (p_region_count p) ++ newline_text). split; [auto with coherence|]. by rewrite app_assoc_string.
  - exists (p_fence_reason p ++ newline_text). split; [auto with coherence|]. rewrite !app_assoc_string.
    apply (after_label k participant_keys (pretty (p_region_count p)) newline_text "" " fence_reason"); auto with coherence; set_solver.
Qed.

Definition head_keys : list string :=
  ["coherence_snapshot build"; " epoch"; " sequence"; " shutting_down"; newline_text ++ "domains"; " participants"; " objects"; " regions";
   " invalidations"; " syncs"].
Lemma pass_head k s rest :
  passes k head_keys = true → plain (sn_build s) = true → goes_on k (snapshot_head s ++ rest) rest.
Proof.
  intros Hk Hb. unfold snapshot_head. rewrite !app_assoc_string.
  exists (count_of (sn_syncs s) ++ newline_text). split; [auto with coherence|]. rewrite app_assoc_string.
  assert (plain (quoted (sn_build s)) = true) as Hq.
  { unfold quoted. change (plain (sn_build s ++ String "034" "") = true). by rewrite plain_app, Hb. }
  etrans; [apply (after_passes k head_keys "" "coherence_snapshot build"); [done|set_solver|done]|].
  pass head_keys " epoch". pass head_keys " sequence". pass head_keys " shutting_down".
  etrans; [apply (after_passes k head_keys (yes_no (sn_shutting_down s)) (newline_text ++ "domains")); [done|set_solver|auto with coherence]|].
  pass head_keys " participants". pass head_keys " objects". pass head_keys " regions". pass head_keys " invalidations".
  pass head_keys " syncs". done.
Qed.

(** ** Fields *)

(** The fields of an object the agent looks for, each after the keys before it. *)
Definition id_keys : list string := [" id"; " generation"].
Definition policy_keys : list string := id_keys ++ [" domain"; " name"; " length"; " policy"].
Definition ownership_keys : list string := policy_keys ++ [" policy_generation"; " lifecycle"; " authority"; " writer"].
Definition version_keys : list string := ownership_keys ++ [" ownership_generation"].

(** A field with this value is found. *)
Definition finds (k text value : string) : Prop := ∃ c rest, ends_field c = true ∧ after k text = Some (value ++ String c rest).

Ltac hit key := apply (after_hit _ _ key); auto with coherence.

Lemma after_hit_label k v label w key rest :
  plain k = true → blank_free k = true → plain (v ++ label ++ w) = true → plain key = true → blank_free key = false → ends_with k key = true →
  after k (v ++ label ++ w ++ key ++ "=" ++ rest) = Some rest.
Proof.
  intros Hk Hb Hv Hp Hw He. rewrite <-(app_assoc_string label), <-(app_assoc_string v). by apply after_hit.
Qed.

Lemma finds_domain o v rest : plain v = true → finds "domain" (v ++ indented (render_object o) ++ rest) (id_to_string (o_domain o)).
Proof.
  intros Hv. unfold finds, indented, render_object, append_id, append_field. rewrite !app_assoc_string. eexists " "%char, _. split; [done|].
  etrans; [apply (after_label "domain" id_keys v "  " "object" " id"); auto with coherence; set_solver|]. pass id_keys " generation". hit " domain".
Qed.

Ltac pass_object_head o v keys :=
  etrans; [apply (after_label _ keys v "  " "object" " id"); auto with coherence; set_solver|]; pass keys " generation"; pass keys " domain";
  pass keys " name"; pass keys " length";
  etrans; [apply (after_label _ keys (pretty (o_length o)) newline_text " " " policy"); auto with coherence; set_solver|].
Lemma finds_policy o v rest :
  plain v = true → plain (o_name o) = true →
  finds "policy_generation" (v ++ indented (render_object o) ++ rest) (id_to_string (o_policy_generation o)).
Proof.
  intros Hv Hn. unfold finds, indented, render_object, append_id, append_field. rewrite !app_assoc_string. eexists " "%char, _. split; [done|].
  pass_object_head o v policy_keys. hit " policy_generation".
Qed.
Ltac pass_object_policy o keys :=
  pass keys " policy_generation"; pass keys " lifecycle";
  etrans; [apply (after_label _ keys (lookup_token (o_lifecycle o)) newline_text " " " authority"); auto with coherence; set_solver|];
  pass keys " writer".
Lemma finds_ownership o v rest :
  plain v = true → plain (o_name o) = true →
  finds "ownership_generation" (v ++ indented (render_object o) ++ rest) (id_to_string (o_ownership_generation o)).
Proof.
  intros Hv Hn. unfold finds, indented, render_object, append_id, append_field. rewrite !app_assoc_string. eexists newline, _. split; [done|].
  pass_object_head o v ownership_keys. pass_object_policy o ownership_keys. hit " ownership_generation".
Qed.
Lemma finds_version o v rest :
  plain v = true → plain (o_name o) = true →
  finds "authoritative_version" (v ++ indented (render_object o) ++ rest) (id_to_string (o_authoritative_version o)).
Proof.
  intros Hv Hn. unfold finds, indented, render_object, append_id, append_field. rewrite !app_assoc_string. eexists " "%char, _. split; [done|].
  pass_object_head o v version_keys. pass_object_policy o version_keys. pass version_keys " ownership_generation".
  apply (after_hit_label _ (id_to_string (o_ownership_generation o)) newline_text " " " authoritative_version"); auto with coherence.
Qed.

(** ** Snapshots *)

(** What the agent takes from a field. *)
Lemma extract_finds k text n : finds k text (pretty n) → (n < two64)%N → to_u64 (extract k text) = n.
Proof.
  intros (c & rest & Hc & E) Hn. unfold extract, after in *. destruct (find_text (k ++ "=") text) as [pos|]; [|done].
  injection E as E. cbv zeta. rewrite E. rewrite until_app; [by apply strtoull_pretty| |done].
  apply pretty_chars. intros x d Hd. unfold ends_field. rewrite negb_orb. rewrite !(digit_not x _ d); done.
Qed.

(** The names a text is rendered with. *)
Record plain_names (s : CoherenceSnapshot) : Prop := {
  pn_build : plain (sn_build s) = true;
  pn_domains : Forall (λ d, plain (d_name d) = true) (sn_domains s);
  pn_participants : Forall participant_plain (sn_participants s) }.

Lemma finds_goes_on k text rest value : goes_on k text rest → (∀ v, plain v = true → finds k (v ++ rest) value) → finds k text value.
Proof. intros (v & Hv & E) Hf. destruct (Hf v Hv) as (c & r & Hc & E'). exists c, r. split; [done|]. by rewrite E. Qed.

Lemma finds_in_object k s o os value :
  passes k head_keys = true → passes k domain_keys = true → passes k participant_keys = true → plain_names s → sn_objects s = o :: os →
  (∀ v rest, plain v = true → finds k (v ++ indented (render_object o) ++ rest) value) → finds k (render_snapshot s) value.
Proof.
  intros H1 H2 H3 [Hb Hd Hp] Ho Hf. unfold render_snapshot. eapply finds_goes_on; [by apply pass_head|]. intros v Hv.
  eapply finds_goes_on; [by apply pass_domains|]. intros w Hw. eapply finds_goes_on; [by apply pass_participants|]. intros x Hx.
  rewrite Ho. change (concat_map (λ o, indented (render_object o)) (o :: os)) with
    (indented (render_object o) ++ concat_map (λ o, indented (render_object o)) os). rewrite app_assoc_string. by apply Hf.
Qed.

(** The generation is the one of the first domain. *)
Lemma finds_generation s d ds :
  plain_names s → sn_domains s = d :: ds → finds "generation" (render_snapshot s) (pretty (d_generation d)).
Proof.
  intros [Hb Hd _] Es. unfold render_snapshot. eapply finds_goes_on; [by apply pass_head|]. intros v Hv. rewrite Es in *.
  apply Forall_cons in Hd as [Hd _]. change (concat_map render_domain (d :: ds)) with (render_domain d ++ concat_map render_domain ds).
  unfold render_domain. rewrite !app_assoc_string. eexists " "%char, _. split; [done|].
  etrans; [apply (after_label "generation" [" name"] v "  domain " (id_to_string (d_id d)) " name"); auto with coherence; set_solver|].
  hit " generation".
Qed.

(** What a rendered snapshot says about an object, to an agent. *)
Definition learns (d : DomainRecord) (o : ObjectRecord) (a : Agent) : Agent :=
  a <| a_domain := o_domain o |> <| a_object_generation := from_value (d_generation d) |>
    <| a_policy_generation := o_policy_generation o |> <| a_authoritative_version := o_authoritative_version o |>
    <| a_ownership := o_ownership_generation o |>.

Definition object_fits (o : ObjectRecord) : Prop :=
  u64_ok (value (o_domain o)) ∧ u64_ok (value (o_policy_generation o)) ∧ u64_ok (value (o_authoritative_version o)) ∧
  u64_ok (value (o_ownership_generation o)).

Lemma id_of_text {t} k text (i : StrongId t) : finds k text (id_to_string i) → u64_ok (value i) → from_value (to_u64 (extract k text)) = i.
Proof. intros Hf Hu. rewrite (extract_finds k text (value i)) by done. by destruct i. Qed.

Lemma snapshot_read s d ds o os a :
  plain_names s → plain (o_name o) = true → sn_domains s = d :: ds → sn_objects s = o :: os → u64_ok (d_generation d) → object_fits o →
  read_object_text (render_snapshot s) a = learns d o a.
Proof.
  intros Hn Ho Ed Eo Hg (F1 & F2 & F3 & F4). unfold read_object_text, learns.
  rewrite (id_of_text "domain" _ (o_domain o)), (id_of_text "policy_generation" _ (o_policy_generation o)),
    (id_of_text "authoritative_version" _ (o_authoritative_version o)), (id_of_text "ownership_generation" _ (o_ownership_generation o)),
    (extract_finds "generation" _ (d_generation d)); try done.
  - by eapply finds_generation.
  - eapply finds_in_object; [done..|]. intros v r Hv. by apply finds_ownership.
  - eapply finds_in_object; [done..|]. intros v r Hv. by apply finds_version.
  - eapply finds_in_object; [done..|]. intros v r Hv. by apply finds_policy.
  - eapply finds_in_object; [done..|]. intros v r Hv. by apply finds_domain.
Qed.

(** ** Refreshing *)

Section refresh.
Context {St : Type} `{DurableStore St} (build : string).

(** The coordinator's answer to the agent's query. *)
Lemma query_answer (id : ObjectId) (c : Coordinator St) :
  fits_id id →
  dispatch_query build (encode_object_ref id) c =
    (c, (StatusCode.Ok, ReplyText (TSnapshot (snapshot build (default_SnapshotOptions <| sno_object_filter := id |>) (co_engine c))))).
Proof.
  intros Hf. unfold dispatch_query, with_payload. by rewrite query_read.
Qed.

(** The object a snapshot is asked for is the one it shows. *)
Lemma filtered_object (id : ObjectId) (s : Impl St) o :
  defined id = true → map_Forall (λ k o, o_id o = k) (objects s) → objects s !! id = Some o →
  sn_objects (snapshot build (default_SnapshotOptions <| sno_object_filter := id |>) s) = [o].
Proof.
  intros Hd Hk Ho. change (filter (λ o, defined id = false ∨ o_id o = id) (map_values (objects s)) = [o]).
  unfold map_values. pose proof (NoDup_sorted_keys (objects s)) as Hn.
  assert (id ∈ sorted_keys (objects s)) as Hin by (apply elem_of_sorted_keys; eauto).
  assert (∀ ks, id ∉ ks → filter (λ o, defined id = false ∨ o_id o = id) (omap (objects s !!.) ks) = []) as Hnone.
  { induction ks as [|k ks IH]; [done|]. intros [Hne Hks]%not_elem_of_cons. cbn [omap list_omap].
    destruct (objects s !! k) as [x|] eqn:Hx; [|by apply IH]. rewrite filter_cons_False; [by apply IH|].
    rewrite (Hk _ _ Hx). intros [?|?]; congruence. }
  induction Hn as [|k ks Hnot Hn IH]; [by apply not_elem_of_nil in Hin|]. cbn [omap list_omap]. apply elem_of_cons in Hin as [<-|Hin].
  - rewrite Ho. rewrite filter_cons_True by (right; by apply Hk). by rewrite Hnone.
  - destruct (objects s !! k) as [x|] eqn:Hx; [|by apply IH]. rewrite filter_cons_False; [by apply IH|].
    rewrite (Hk _ _ Hx). intros [?|?]; [congruence|]. subst. done.
Qed.

(** The names an engine's records hold, and the objects under their identities. *)
Record readable (c : Coordinator St) (d : DomainRecord) (ds : list DomainRecord) (o : ObjectRecord) : Prop := {
  rb_build : plain build = true;
  rb_domains : map_values (domains (co_engine c)) = d :: ds;
  rb_domain_names : Forall (λ d, plain (d_name d) = true) (d :: ds);
  rb_generation : u64_ok (d_generation d);
  rb_participants : Forall participant_plain (map_values (participants (co_engine c)));
  rb_keyed : map_Forall (λ k o, o_id o = k) (objects (co_engine c));
  rb_object : objects (co_engine c) !! o_id o = Some o;
  rb_defined : defined (o_id o) = true;
  rb_name : plain (o_name o) = true;
  rb_fits : fits_id (o_id o) ∧ object_fits o }.

(** C35: what an agent learns of its object is what the coordinator holds.  When
    the names in the engine hold no equals sign and the coordinator's answer to
    the agent's query arrives, [refresh_object] succeeds, has sent that query and
    nothing else, and the agent's domain, policy generation, authoritative version
    and ownership generation become those of the object; the object generation
    becomes the generation of the coordinator's first domain, whose line is
    rendered before the object. *)
Theorem refresh_learns_the_object (c : Coordinator St) d ds o p sid ep message detail rest :
  let answer := (dispatch_query build (encode_object_ref (a_object (ps_agent p))) c).2 in
  let response := response_frame sid ep (cl_next_correlation (a_client (ps_agent p))) message detail (reply_words answer.2) answer in
  online p → a_object (ps_agent p) = o_id o → readable c d ds o →
  fits_frame (cl_frames (a_client (ps_agent p))) response →
  fits_response_envelope default_decode_limits (mkResponseEnvelope StatusCode.Ok message detail) →
  fits_text (2 ^ 20) (reply_words answer.2) →
  concat (pieces (so_in (cl_socket (a_client (ps_agent p))))) = (encode_frame (f_header response) (f_body response) ++ rest)%list →
  ∃ p' cl, refresh_object p = Some (p', success ()) ∧
    sent p' = (sent p ++ encode_frame (next_header MessageType.Query (a_client (ps_agent p))) (encode_object_ref (o_id o)))%list ∧
    ps_agent p' = learns d o (ps_agent p <| a_client := cl |>).
Proof.
  intros answer response Hon Hobj [R1 R2 R3 R4 R5 R6 R7 R8 R9 [R10 R11]] Hff He Ht Hin.
  assert (answer = (StatusCode.Ok, ReplyText (TSnapshot (snapshot build (default_SnapshotOptions <| sno_object_filter := o_id o |>) (co_engine c))))) as Ea.
  { unfold answer. by rewrite Hobj, query_answer. }
  set (sn := snapshot build _ (co_engine c)) in Ea.
  destruct (request_answered MessageType.Query (encode_object_ref (a_object (ps_agent p))) _ _ rest Hon Hff Hin) as (cl & Ereq & Hout & _).
  assert (open_response (cl_next_correlation (a_client (ps_agent p))) response =
    success (mkExchange (mkResponseEnvelope StatusCode.Ok message detail) (encode_text_block (render_snapshot sn)))) as Eopen.
  { unfold open_response, response. rewrite decide_False by (by intros Hn; apply Hn). cbn [response_frame f_header fh_correlation f_body].
    rewrite N.eqb_refl, Ea. cbn [negb fst snd]. by rewrite read_written. }
  rewrite Eopen in Ereq. rewrite Ea in Ht. change (fits_text (2 ^ 20) (render_snapshot sn)) in Ht.
  set (p1 := p <| ps_agent ::= λ a, a <| a_client := cl |> |>).
  exists (p1 <| ps_agent ::= read_object_text (render_snapshot sn) |>), cl. split; [|split].
  - unfold refresh_object. rewrite (bind_get a_object _ p (a_object (ps_agent p)) eq_refl).
    rewrite (bind_success (accepted _ _) _ p p1 (encode_text_block (render_snapshot sn))).
    2: { unfold accepted. rewrite (bind_success (exchange _ _) _ p p1 (mkResponseEnvelope StatusCode.Ok message detail, encode_text_block (render_snapshot sn))).
      1: done. unfold exchange. rewrite (bind_success (send_request _ _) _ p p1
        (mkExchange (mkResponseEnvelope StatusCode.Ok message detail) (encode_text_block (render_snapshot sn)))); [done|]. unfold send_request.
      change (ByteWriter.strong_id (a_object (ps_agent p))) with (encode_object_ref (a_object (ps_agent p))). by rewrite Ereq. }
    rewrite (bind_success (decoded _ _) _ p1 p1 (render_snapshot sn)); [done|]. unfold decoded, encode_text_block.
    rewrite <-(app_nil_r (ByteWriter.text _)). by rewrite read_written.
  - rewrite <-Hobj. exact Hout.
  - change (read_object_text (render_snapshot sn) (ps_agent p1) = learns d o (ps_agent p1)).
    eapply (snapshot_read sn d ds o []); try done; [split; [done|by rewrite <-R2 in R3|done]|]. by apply filtered_object.
Qed.
End refresh.

(** ** Witnesses *)

(** Alpha refreshes after its publication. *)
Definition refreshed_coordinator : Coord := Eval vm_compute in (proc_and_coordinator alpha_published).2.
Definition refreshed_answer : StatusCode.t * Reply :=
  Eval vm_compute in (dispatch_query "build" (encode_object_ref (from_value 1)) refreshed_coordinator).2.
Definition refreshed_frame : Frame :=
  Eval vm_compute in response_frame (sid_of 1) ep1 (cl_next_correlation (a_client (ps_agent (proc_of alpha_published)))) "ok" ""
    (reply_words refreshed_answer.2) refreshed_answer.
Definition refreshing : Proc :=
  Eval vm_compute in with_input (encode_frame (f_header refreshed_frame) (f_body refreshed_frame)) (proc_of alpha_published).
Definition first_domain : DomainRecord :=
  Eval vm_compute in default default_DomainRecord (head (map_values (domains (co_engine refreshed_coordinator)))).
Definition other_domains : list DomainRecord := Eval vm_compute in tail (map_values (domains (co_engine refreshed_coordinator))).
Definition table_object : ObjectRecord :=
  Eval vm_compute in default default_ObjectRecord (objects (co_engine refreshed_coordinator) !! from_value 1).

Lemma table_readable : readable "build" refreshed_coordinator first_domain other_domains table_object.
Proof.
  split; try (vm_compute; reflexivity).
  - repeat constructor.
  - refine (bool_decide_unpack (Forall (λ p, plain (p_name p) = true ∧ plain (p_fence_reason p) = true) _) _). vm_compute. exact I.
  - refine (bool_decide_unpack (map_Forall (λ k o, o_id o = k) _) _). vm_compute. exact I.
  - repeat split; vm_compute; reflexivity.
Qed.

Lemma refresh_learns_the_object_witness :
  ∃ p' cl, refresh_object refreshing = Some (p', success ()) ∧
    ps_agent p' = learns first_domain table_object (ps_agent refreshing <| a_client := cl |>).
Proof.
  destruct (refresh_learns_the_object "build" refreshed_coordinator first_domain other_domains table_object refreshing (sid_of 1) ep1
    "ok" "" [] ) as (p' & cl & H1 & _ & H2).
  - split_and!; [vm_compute; reflexivity..|]. apply Forall_nil_2.
  - vm_compute; reflexivity.
  - exact table_readable.
  - repeat split; by vm_compute.
  - repeat split; by vm_compute.
  - split; by vm_compute.
  - vm_compute; reflexivity.
  - exists p', cl. exact (conj H1 H2).
Defined.

(** A participant whose name holds a field is accepted, and every agent that
    refreshes after it joined takes its policy generation from that name. *)
Example names_are_read_as_fields :
  let c := enter 3 (knock 3 (hello "x policy_generation=9" (from_uuid (mkUInt128 0 3))) refreshed_coordinator) in
  let answer := (dispatch_query "build" (encode_object_ref (from_value 1)) c).2 in
  o_policy_generation <$> objects (co_engine c) !! from_value 1 = Some (from_value 1) ∧
  a_policy_generation (read_object_text (reply_words answer.2) (ps_agent refreshing)) = from_value 9.
Proof. by vm_compute. Qed.

(** A domain is looked up by a needle that has no end: an agent told to join
    [oth] joins [other]. *)
Example domains_are_found_by_prefix :
  domain_in_text "oth" (reply_words refreshed_answer.2) = domain_in_text "other" (reply_words refreshed_answer.2) ∧
  domain_in_text "other" (reply_words refreshed_answer.2) = "2"%string.
Proof. by vm_compute. Qed.
