(* ===== verification/AgentScripts.v ===== *)
(** * Scripts and departures

    How a command line falls into words, how far a script runs, and what an
    agent sends when it leaves. *)
From Stdlib Require Import Strings.Byte Strings.Ascii Strings.String.
From S2P Require Import Prelude Ids Enums Status Bytes Policy Evidence Model Decisions Persistence.
From S2P Require Import Serialize Codec Messages Checksum Regions Framing Protocol Transport Text Client.
From S2P Require Import Engine Coordinator Render Agent AgentSafety System Scenario SessionRuns Conversation AgentBytes AgentRuns.

#[local] Open Scope agent_scope.

(** ** Words *)

Definition unblank (s : string) : bool := all_chars (λ c, negb (is_blank c)) s.

Lemma words_from_cons blank current c text :
  words_from blank current (String c text) =
    if blank c then (if decide (current = ""%string) then [] else [current]) ++ words_from blank "" text
    else words_from blank (current +:+ String c "") text.
Proof. cbn [words_from]. destruct (blank c); [|done]. by destruct (decide (current = ""%string)). Qed.

Lemma snoc_not_empty s c : s +:+ String c "" ≠ ""%string.
Proof. by destruct s. Qed.

(** A word read so far goes on with the characters that are not blank. *)
Lemma words_from_word blank current w rest :
  all_chars (λ c, negb (blank c)) w = true → words_from blank current (w +:+ rest) = words_from blank (current +:+ w) rest.
Proof.
  revert current. induction w as [|c w IH]; intros current Hw; [by rewrite app_nil_string|].
  cbn in Hw. apply andb_true_iff in Hw as [Hc Hw]. change (String c w +:+ rest) with (String c (w +:+ rest)).
  rewrite words_from_cons. destruct (blank c); [done|]. rewrite IH by done. by rewrite app_assoc_string.
Qed.
Lemma words_from_app blank current a c b :
  blank c = true → words_from blank current (a +:+ String c b) = words_from blank current a ++ words_from blank "" b.
Proof.
  intros Hc. revert current. induction a as [|x a IH]; intros current.
  - change ("" +:+ String c b) with (String c b). by rewrite words_from_cons, Hc.
  - change (String x a +:+ String c b) with (String x (a +:+ String c b)). rewrite !words_from_cons, !IH.
    destruct (blank x); [|done]. by rewrite app_assoc.
Qed.
Lemma words_from_good blank current text :
  all_chars (λ c, negb (blank c)) current = true →
  Forall (λ w, w ≠ ""%string ∧ all_chars (λ c, negb (blank c)) w = true) (words_from blank current text).
Proof.
  revert current. induction text as [|c text IH]; intros current Hcur.
  - cbn. case_decide; [done|]. by repeat constructor.
  - rewrite words_from_cons. destruct (blank c) eqn:Hc.
    + apply Forall_app. split; [case_decide; by repeat constructor|by apply IH].
    + apply IH. rewrite all_chars_app, Hcur. cbn. by rewrite Hc.
Qed.

(** A command falls into its words.  A command of blanks has none; a word
    without a blank is one; a blank between two texts separates their words, so
    that words joined by blanks are those words; and every word of a command is
    not empty and holds no blank. *)
Theorem commands_fall_into_words :
  split_command "" = [] ∧
  (∀ w, w ≠ ""%string → unblank w = true → split_command w = [w]) ∧
  (∀ a c b, is_blank c = true → split_command (a +:+ String c b) = split_command a ++ split_command b) ∧
  (∀ ws, Forall (λ w, w ≠ ""%string ∧ unblank w = true) ws → split_command (String.concat " " ws) = ws) ∧
  (∀ text, Forall (λ w, w ≠ ""%string ∧ unblank w = true) (split_command text)).
Proof.
  assert (∀ w, w ≠ ""%string → unblank w = true → split_command w = [w]) as Hone.
  { intros w Hne Hw. unfold split_command. rewrite <-(app_nil_string w) at 1. rewrite words_from_word by done. cbn. by rewrite decide_False. }
  assert (∀ a c b, is_blank c = true → split_command (a +:+ String c b) = split_command a ++ split_command b) as Happ
    by (intros; by apply words_from_app).
  split_and!; [done|done|done| |intros text; by apply words_from_good].
  intros ws Hws. induction Hws as [|w ws [Hne Hw] Hws IH]; [done|]. destruct ws as [|w' ws]; [by apply Hone|].
  change (split_command (w +:+ String " " (String.concat " " (w' :: ws))) = w :: w' :: ws). rewrite Happ, Hone, IH by done. done.
Qed.

(** ** Scripts *)

(** A command of a script: announced, then executed. *)
Definition announce (command : string) (p : Proc) : Proc := p <| ps_sink ::= λ l, l ++ [("command=" +:+ command)%string] |>.

(** Commands that all succeed, one after the other. *)
Inductive runs : list string → Proc → Proc → Prop :=
| runs_nil p : runs [] p p
| runs_cons c cs p p1 p2 : execute c (announce c p) = Some (p1, success ()) → runs cs p1 p2 → runs (c :: cs) p p2.

(** A script runs up to its first failure.  It succeeds exactly when every
    command does, in order, each in the process the one before left; otherwise
    the commands before the first one that fails have succeeded, the failure is
    printed and returned, and no later command is executed. *)
Theorem scripts_stop_at_the_first_failure described script p p' r :
  run_commands described script p = Some (p', r) ↔
    (r = success () ∧ runs script p p') ∨
    ∃ before command later p1 p2 e, script = before ++ command :: later ∧ runs before p p1 ∧
      execute command (announce command p1) = Some (p2, failure e) ∧ r = failure e ∧
      p' = p2 <| ps_sink ::= λ l, l ++ [("command_failed=" +:+ described)%string] |>.
Proof.
  revert p. induction script as [|c cs IH]; intros p; cbn [run_commands].
  { split.
    - intros [= <- <-]. left. split; [done|constructor].
    - intros [[-> Hr]|(before & ? & ? & ? & ? & ? & E & _)]; [by inversion Hr|by destruct before]. }
  change ((do! emit ("command=" +:+ c) in execute c) p) with (execute c (announce c p)).
  destruct (execute c (announce c p)) as [[p1 [[]|e]]|] eqn:E.
  - rewrite IH. split.
    + intros [[-> Hr]|(before & command & later & q1 & q2 & e & -> & Hr & Ef & -> & ->)]; [left; split; [done|by econstructor]|].
      right. exists (c :: before), command, later, q1, q2, e. split_and!; [done|by econstructor|done..].
    + intros [[-> Hr]|(before & command & later & q1 & q2 & e & Es & Hr & Ef & -> & ->)].
      * inversion Hr as [|? ? ? q1 ? E1 Hrest]; subst. rewrite E in E1. injection E1 as <-. by left.
      * destruct before as [|b before]; injection Es as <- ->.
        { inversion Hr; subst. congruence. }
        inversion Hr as [|? ? ? q3 ? E1 Hrest]; subst. rewrite E in E1. injection E1 as <-. right. eauto 12.
  - change ((do! emit ("command_failed=" +:+ described) in fail e) p1)
      with (Some (p1 <| ps_sink ::= λ l, l ++ [("command_failed=" +:+ described)%string] |>, failure (A := unit) e)). split.
    + intros [= <- <-]. right. exists [], c, cs, p, p1, e. split_and!; [done|constructor|done..].
    + intros [[-> Hr]|(before & command & later & q1 & q2 & e' & Es & Hr & Ef & -> & ->)].
      * inversion Hr; subst. congruence.
      * destruct before as [|b before]; injection Es as <- ->; inversion Hr; subst; congruence.
  - split; [done|]. intros [[-> Hr]|(before & command & later & q1 & q2 & e' & Es & Hr & Ef & -> & ->)].
    + inversion Hr; subst. congruence.
    + destruct before as [|b before]; injection Es as <- ->; inversion Hr; subst; congruence.
Qed.

(** ** Leaving *)

Lemma send_all_connected data s : connected s → connected (send_all data s).1.
Proof.
  intros (Hv & Hs & Hn). destruct (send_all_spec data s Hv Hs) as (n & s' & -> & _ & Hv' & Hs' & _ & [k Hk] & _).
  split; [done|]. split; [done|]. rewrite Hk in Hn. by apply Forall_app in Hn as [_ ?].
Qed.
Lemma request_connected type body cl : connected (cl_socket cl) → connected (cl_socket (request type body cl).1).
Proof.
  intros Hc. unfold request. rewrite (proj1 Hc). cbn [negb]. change (cl_socket (take_numbers cl)) with (cl_socket cl).
  pose proof (send_all_connected (encode_frame (next_header type cl) body) (cl_socket cl) Hc) as Hs. unfold write_frame.
  destruct (send_all _ _) as [s sent_]. cbn [fst] in Hs. destruct (ok sent_); cbn [negb]; [|exact Hs].
  unfold receive_frame. destruct (so_valid _); cbn [negb]; [|exact Hs]. by destruct (read_frame _ _) as [inbound r].
Qed.
Lemma request_numbers type body cl :
  connected (cl_socket cl) → cl_session (request type body cl).1 = cl_session cl ∧
  cl_next_sequence (request type body cl).1 = u64_succ (cl_next_sequence cl) ∧
  cl_next_correlation (request type body cl).1 = u64_succ (cl_next_correlation cl).
Proof.
  intros Hc. unfold request. rewrite (proj1 Hc). cbn [negb]. destruct (write_frame _ _ _) as [s sent_].
  destruct (ok sent_); cbn [negb]; [|done]. by destruct (receive_frame _ _) as [s' r].
Qed.

(** Closing a connection says goodbye. *)
Lemma close_client_spec closed cl :
  connected (cl_socket cl) →
  so_out (cl_socket (close_client closed cl).1) =
    so_out (cl_socket cl) ++ encode_frame (next_header MessageType.Goodbye cl) [] ∧
  so_valid (cl_socket (close_client closed cl).1) = false.
Proof.
  intros Hc. unfold close_client. rewrite (proj1 Hc).
  destruct (write_frame_written (next_header MessageType.Goodbye cl) [] (cl_socket cl) Hc) as (s1 & E & Ho & _ & Hv).
  change (cl_socket (take_numbers cl)) with (cl_socket cl). rewrite E. cbn [fst]. unfold shutdown, close.
  set (cl1 := take_numbers cl <| cl_socket := s1 |>). assert (so_valid (cl_socket cl1) = true) as Hv1 by exact Hv. rewrite Hv1.
  assert (so_valid (cl_socket cl1 <| so_shut := true |>) = true) as Hv2 by exact Hv. rewrite Hv2. split; [exact Ho|done].
Qed.
Lemma close_client_closed closed cl :
  so_valid (cl_socket cl) = false → close_client closed cl = (cl, StatusCode.Ok).
Proof.
  intros Hv. unfold close_client. rewrite Hv. unfold shutdown, close. rewrite Hv. rewrite Hv. cbn [ok]. by destruct cl.
Qed.

(** The frames an agent leaves with: the release of its write authority, when it
    holds one, and the goodbye. *)
Definition release_of (context : AuthorityContext) (a : Agent) : ReleaseRequest := mkReleaseRequest context nil_id (a_ownership a) true.
Definition farewell (context : AuthorityContext) (a : Agent) : list byte :=
  let cl := a_client a in
  if a_write_held a then
    encode_frame (next_header MessageType.Release cl) (encode_release_request (release_of context a)) ++
    encode_frame (next_header MessageType.Goodbye (take_numbers cl)) []
  else encode_frame (next_header MessageType.Goodbye cl) [].

Lemma next_header_numbers type cl cl' :
  cl_session cl = cl_session cl' → cl_next_sequence cl = cl_next_sequence cl' → cl_next_correlation cl = cl_next_correlation cl' →
  next_header type cl = next_header type cl'.
Proof. intros E1 E2 E3. unfold next_header. by rewrite E1, E2, E3. Qed.

Lemma goodbye_said closed p :
  online p →
  ∃ p' r, say_goodbye closed p = Some (p', r) ∧
    sent p' = sent p ++ encode_frame (next_header MessageType.Goodbye (a_client (ps_agent p))) [] ∧
    a_joined (ps_agent p') = false ∧ a_write_held (ps_agent p') = a_write_held (ps_agent p) ∧
    so_valid (cl_socket (a_client (ps_agent p'))) = false.
Proof.
  intros Hon. destruct (close_client_spec closed (a_client (ps_agent p)) Hon) as [Ho Hv].
  unfold say_goodbye. rewrite (bind_success (modify _) _ p (p <| ps_agent ::= λ a, a <| a_joined := false |> |>) ()) by done.
  destruct (close_client closed (a_client (ps_agent p))) as [cl code] eqn:Ec. cbn [fst] in Ho, Hv.
  set (p1 := p <| ps_agent ::= λ a, a <| a_joined := false |> |>). set (p2 := p1 <| ps_agent ::= λ a, a <| a_client := cl |> |>).
  rewrite (bind_success (close_own_client closed) _ p1 p2 code).
  2: { unfold close_own_client. change (a_client (ps_agent p1)) with (a_client (ps_agent p)). by rewrite Ec. }
  exists p2, (if ok code then success () else failure code). split; [unfold of_status, check; by destruct (ok code)|]. done.
Qed.

Lemma held_released p :
  online p →
  ∃ p2 context, release_held p = Some (p2, success ()) ∧ online p2 ∧ a_write_held (ps_agent p2) = false ∧
    sent p2 ++ encode_frame (next_header MessageType.Goodbye (a_client (ps_agent p2))) [] = sent p ++ farewell context (ps_agent p).
Proof.
  intros Hon. unfold release_held. destruct (a_write_held (ps_agent p)) eqn:Eh.
  2: { exists p, default_AuthorityContext. rewrite (bind_get a_write_held _ p false Eh). split_and!; [done..|]. unfold farewell. by rewrite Eh. }
  rewrite (bind_get a_write_held _ p true Eh). cbv beta iota.
  set (p1 := p <| ps_host ::= λ h, h <| h_fresh ::= tail |> |>).
  assert (∃ context, make_context p = Some (p1, success context)) as [context Ec] by (by eexists).
  set (body := encode_release_request (release_of context (ps_agent p))).
  set (cl := (request MessageType.Release body (a_client (ps_agent p))).1).
  set (p2 := p1 <| ps_agent ::= λ a, a <| a_client := cl |> |>).
  exists (p2 <| ps_agent ::= λ a, a <| a_write_held := false |> |>), context. split_and!.
  - rewrite (bind_success release_write_request _ p p1 body).
    2: { unfold release_write_request. rewrite (bind_success _ _ _ _ _ Ec). done. }
    rewrite (bind_success (ignore _) _ p1 p2 ()); [done|]. unfold ignore, send_request.
    change (a_client (ps_agent p1)) with (a_client (ps_agent p)). subst p2 cl. by destruct (request _ _ _) as [cl r].
  - by apply request_connected.
  - done.
  - unfold farewell. rewrite Eh.
    change (so_out (cl_socket cl) ++ encode_frame (next_header MessageType.Goodbye cl) [] =
      sent p ++ (encode_frame (next_header MessageType.Release (a_client (ps_agent p))) body ++
        encode_frame (next_header MessageType.Goodbye (take_numbers (a_client (ps_agent p)))) [])).
    unfold cl at 1. rewrite request_sends by done. rewrite <-app_assoc. f_equal. f_equal.
    destruct (request_numbers MessageType.Release body (a_client (ps_agent p)) Hon) as (N1 & N2 & N3).
    f_equal. by apply next_header_numbers.
Qed.

(** An agent leaves once.  A joined agent that leaves sends the release of
    the write authority it holds, under its ownership generation, and then the
    goodbye, or the goodbye alone, and nothing else, whatever the coordinator
    answers; afterwards it is not joined, holds nothing and its connection is
    closed; and leaving again, as the destructor does, sends nothing and changes
    nothing. *)
Theorem agents_leave_once closed p :
  a_joined (ps_agent p) = true → online p →
  ∃ p' r context, leave closed p = Some (p', r) ∧ sent p' = sent p ++ farewell context (ps_agent p) ∧
    a_joined (ps_agent p') = false ∧ a_write_held (ps_agent p') = false ∧ so_valid (cl_socket (a_client (ps_agent p'))) = false ∧
    ∀ closed', leave closed' p' = Some (p', success ()).
Proof.
  intros Hj Hon. destruct (held_released p Hon) as (p2 & context & E2 & Hon2 & Hh2 & Hs2).
  destruct (goodbye_said closed p2 Hon2) as (p' & r & E & Hs & Hj' & Hh' & Hv').
  exists p', r, context. unfold leave at 1. rewrite (bind_get a_joined _ p true Hj). cbn [negb]. rewrite (bind_success _ _ _ _ _ E2).
  split_and!; [done|by rewrite Hs|done|by rewrite Hh'|done|].
  intros closed'. unfold leave. rewrite (bind_get a_joined _ p' false Hj'). cbn [negb]. unfold ignore, close_own_client.
  by rewrite close_client_closed.
Qed.
Lemma agents_leave_once_witness :
  let p := with_input [] (proc_of alpha_ready) in
  ∃ p' r context, leave StatusCode.Ok p = Some (p', r) ∧ sent p' = sent p ++ farewell context (ps_agent p) ∧
    a_joined (ps_agent p') = false ∧ a_write_held (ps_agent p') = false ∧ so_valid (cl_socket (a_client (ps_agent p'))) = false ∧
    ∀ closed', leave closed' p' = Some (p', success ()).
Proof. refine (agents_leave_once StatusCode.Ok (with_input [] (proc_of alpha_ready)) _ _); repeat split; first [by vm_compute | apply (bool_decide_unpack _); by vm_compute]. Defined.
