(* ===== verification/ProgramFacts.v ===== *)
(** * What the programs do

    The arguments of the participant program, its end, and the engine of the
    inspection program. *)
From Stdlib Require Import Strings.Byte Strings.Ascii Strings.String.
From S2P Require Import Prelude Ids Enums Status Bytes Policy Evidence Model Decisions Persistence.
From S2P Require Import Serialize Random Regions Protocol Transport Text Client.
From S2P Require Import Engine Coordinator Render Agent AgentSafety AgentLife Programs.
#[local] Open Scope string_scope.
#[local] Open Scope list_scope.
Import AgentProgram.

(** ** Arguments *)

Lemma strtoull_u64 base text : u64_ok (strtoull base text).
Proof.
  unfold strtoull, u64_ok. destruct (scan_number base text) as [[[negative v] rest]|]; [|done].
  destruct (Z.ltb_spec (Z.of_N u64_max) v); [done|]. destruct negative.
  - pose proof (Z.mod_pos_bound (- v) (Z.of_N two64)). unfold u64_max, two64 in *. lia.
  - unfold u64_max, two64 in *. lia.
Qed.

(** What the argument loop keeps true of its locals: the numbers are numbers of
    the machine, and the shared regions named so far have the segment and the
    creation flag given so far. *)
Definition region_parsed (l : Locals) (s : RegionSpec) : Prop :=
  extent_ok (rg_offset s) (rg_length s) ∧
  (rg_backing s = RegionBacking.SharedMapping → rg_segment_name s = lo_shared_segment l ∧ rg_create_segment s = lo_create_segment l).
Definition parsed (l : Locals) : Prop :=
  Forall (region_parsed l) (ao_regions (lo_options l)) ∧ u64_ok (ao_staging_length (lo_options l)).
Definition next_parsed (n : Next Locals) : Prop := match n with Continue l => parsed l | Exit _ => True end.

(** Locals with the same regions, segment and staging. *)
Lemma parsed_same l l' :
  parsed l → ao_regions (lo_options l') = ao_regions (lo_options l) → lo_shared_segment l' = lo_shared_segment l →
  lo_create_segment l' = lo_create_segment l → u64_ok (ao_staging_length (lo_options l')) → parsed l'.
Proof.
  intros [Hr Hs] E1 E2 E3 Hs'. split; [|done]. rewrite E1. eapply Forall_impl; [exact Hr|]. intros s [Hx Hb].
  split; [done|]. by rewrite E2, E3.
Qed.

Lemma parse_region_parsed value l s : parse_region value l = Some s → region_parsed l s.
Proof.
  unfold parse_region. destruct (split value ":") as [|name [|domain [|offset [|len rest]]]]; try done.
  case_decide; [done|]. assert (∀ x, rg_offset x = number offset → rg_length x = number len → extent_ok (rg_offset x) (rg_length x)) as Hx.
  { intros x -> ->. split; apply strtoull_u64. }
  destruct rest as [|seed [|backing rest]]; [by intros [= <-]; split; [apply Hx|]..|]. unfold backed_by.
  repeat (case_decide; [intros [= <-]; split; [by apply Hx|done]|]). done.
Qed.
Lemma on_shared_parsed (f : RegionSpec → RegionSpec) l l' :
  parsed l → ao_regions (lo_options l') = ao_regions (lo_options l) → ao_staging_length (lo_options l') = ao_staging_length (lo_options l) →
  (∀ s, region_parsed l s → rg_backing s = RegionBacking.SharedMapping → region_parsed l' (f s)) → parsed (on_shared f l').
Proof.
  intros [Hr Hs] E1 E2 Hf. split.
  - unfold on_shared. cbn. rewrite E1. apply Forall_fmap. eapply Forall_impl; [exact Hr|]. intros s Hs'. cbn.
    case_decide as Hb; [by apply Hf|]. destruct Hs' as [Hx _]. split; done.
  - unfold on_shared. cbn. by rewrite E2.
Qed.

Lemma with_value_parsed files arg value l n : parsed l → with_value files arg value l = Some n → next_parsed n.
Proof.
  intros Hl. unfold with_value.
  assert (∀ (f : AgentOptions → AgentOptions), ao_regions (f (lo_options l)) = ao_regions (lo_options l) →
    ao_staging_length (f (lo_options l)) = ao_staging_length (lo_options l) → parsed (l <| lo_options ::= f |>)) as Hset.
  { intros f E1 E2. eapply parsed_same; [exact Hl|done..|]. cbn. rewrite E2. apply Hl. }
  repeat (case_decide; [intros [= <-]; try (by apply Hset); try (by eapply parsed_same; [exact Hl|done..|apply Hl])|]); [..|done].
  - destruct (parse_boot value); cbn; [by apply Hset|done].
  - destruct (lookup_value value); cbn; [by apply Hset|done].
  - destruct (lookup_value value); cbn; [by apply Hset|done].
  - destruct (parse_region value l) as [s|] eqn:E; cbn; [|done]. destruct Hl as [Hr Hs]. split; [|done].
    apply Forall_app. split; [exact Hr|]. apply Forall_singleton. by eapply parse_region_parsed in E.
  - eapply on_shared_parsed; [exact Hl|done..|]. intros s [Hx Hb] Hk. split; [done|]. intros _. split; [done|]. by apply Hb.
  - unfold parse_stage. destruct (split value ":") as [|name [|len rest]]; cbn; [done..|].
    eapply parsed_same; [exact Hl|destruct rest as [|c rest]; [done|by case_decide]|done|done|].
    assert (u64_ok (number len)) by apply strtoull_u64. cbn. destruct rest as [|c rest]; [done|by case_decide].
  - unfold script_text. case_decide; cbn.
    + eapply parsed_same; [exact Hl|done..|apply Hl].
    + destruct (files value); cbn; [by apply Hset|done].
Qed.
Lemma alone_parsed arg l : parsed l → next_parsed (alone arg l).
Proof.
  intros Hl. unfold alone. repeat case_decide; [..|done].
  - eapply on_shared_parsed; [exact Hl|done..|]. intros s [Hx Hb] Hk. split; [done|]. intros _. split; [|done]. by apply Hb.
  - eapply parsed_same; [exact Hl|done..|apply Hl].
  - eapply parsed_same; [exact Hl|done..|apply Hl].
Qed.
Lemma arguments_parsed files args l : parsed l → next_parsed (parse_arguments files args l).
Proof.
  remember (length args) as n eqn:En. revert args En l. induction n as [n IH] using lt_wf_ind. intros [|arg rest] En l Hl; [done|].
  cbn [parse_arguments]. case_decide; [done|].
  assert (next_parsed (match alone arg l with Exit code => Exit code | Continue l => parse_arguments files rest l end)) as Ha.
  { pose proof (alone_parsed arg l Hl). destruct (alone arg l) as [|l']; [done|]. eapply IH; [|done|done]. cbn in En. lia. }
  destruct rest as [|value rest]; [done|]. destruct (with_value files arg value l) as [[code|l']|] eqn:Ew; [done| |done].
  eapply IH; [|done|by eapply with_value_parsed in Ew]. cbn in En. lia.
Qed.

Definition start_locals (stdin : string) : Locals := mkLocals default_AgentOptions "" "" false false stdin.

(** The segment arguments reach every region.  However the arguments are
    ordered, when the program goes on after them every region backed by a shared
    mapping has the segment name and the creation flag the arguments ended up
    with, also when they came after it, and every number of a region and of the staging
    segment fits its 64 bits. *)
Theorem segment_arguments_reach_every_region files stdin args l :
  parse_arguments files args (start_locals stdin) = Continue l →
  Forall (λ s, extent_ok (rg_offset s) (rg_length s) ∧
    (rg_backing s = RegionBacking.SharedMapping → rg_segment_name s = lo_shared_segment l ∧ rg_create_segment s = lo_create_segment l))
    (ao_regions (lo_options l)) ∧ u64_ok (ao_staging_length (lo_options l)).
Proof.
  intros E. pose proof (arguments_parsed files args (start_locals stdin)) as H. rewrite E in H. apply H. by split.
Qed.

(** ** The end of the participant program *)

(** What the machine must provide for the options: segments that exist are as
    long as asked for, mappings of one segment agree, and identities do not wrap. *)
Record machine_fits (o : AgentOptions) (h : Host) : Prop := {
  mf_agree : asks_agree o;
  mf_fit : segments_fit o (h_memory h);
  mf_count : (1 + N.of_nat (length (ao_regions o)) < u64_max)%N;
  mf_fresh : Forall (λ i, (value i + N.of_nat (length (ao_regions o)) < u64_max)%N) (h_fresh h) }.

(** A process whose agent has left. *)
Definition has_left (p : Proc) : Prop :=
  a_joined (ps_agent p) = false ∧ so_valid (cl_socket (a_client (ps_agent p))) = false.

Lemma close_client_always closed cl : so_valid (cl_socket (close_client closed cl).1) = false.
Proof.
  unfold close_client. set (cl1 := if so_valid (cl_socket cl) then _ else _). clearbody cl1. unfold shutdown, close.
  destruct (so_valid (cl_socket cl1)) eqn:E; cbn; [by rewrite E|by rewrite E].
Qed.
(** Releasing a held authority never fails. *)
Lemma release_held_returns p : returns release_held (λ r _, r = success ()) p.
Proof.
  unfold release_held. destruct (a_write_held (ps_agent p)) eqn:Eh; apply (returns_get _ _ _ _ _ Eh); [|by eexists _, _].
  apply returns_bind. eexists _, _. split; [unfold release_write_request, make_context; done|].
  apply returns_bind. unfold returns, ignore, send_request. destruct (request _ _ _) as [cl r]. eexists _, _. split; [done|].
  by eexists _, _.
Qed.
Lemma say_goodbye_returns closed p : returns (say_goodbye closed) (λ _ p', has_left p') p.
Proof.
  unfold say_goodbye. apply returns_bind. eexists _, _. split; [done|]. apply returns_bind. unfold returns at 1, close_own_client.
  set (p1 := p <| ps_agent ::= _ |>). pose proof (close_client_always closed (a_client (ps_agent p1))) as Hc.
  destruct (close_client closed (a_client (ps_agent p1))) as [cl code]. eexists _, _. split; [done|].
  unfold of_status, check, returns. destruct (ok code); eexists _, _; (split; [done|]; split; [done|exact Hc]).
Qed.
Lemma leave_returns closed p : returns (leave closed) (λ _ p', has_left p') p.
Proof.
  unfold leave. destruct (a_joined (ps_agent p)) eqn:Ej; apply (returns_get _ _ _ _ _ Ej); cbn [negb].
  - apply returns_bind. eapply returns_mono; [|apply release_held_returns]. intros r p1 ->. apply say_goodbye_returns.
  - unfold returns, ignore, close_own_client. pose proof (close_client_always closed (a_client (ps_agent p))) as Hc.
    destruct (close_client closed (a_client (ps_agent p))) as [cl code]. eexists _, _. split; [done|]. by split.
Qed.

(** The ways the program ends: before an agent was made it has printed nothing;
    otherwise the agent has left, and success is the line that says so. *)
Definition ends_well (oc : Outcome) : Prop :=
  match oc_process oc with
  | None => oc_lines oc = [] ∧ ∃ code, oc_end oc = Exited code ∧ (code ≤ 2)%N
  | Some p => has_left p ∧
      if killed p then oc_end oc = Signalled
      else oc_end oc = Exited 0 ∧ last (oc_lines oc) = Some "left=1" ∨ oc_end oc = Exited 1
  end.
Definition ends (o : option Outcome) : Prop := ∃ oc, o = Some oc ∧ ends_well oc.

Lemma finish_ends w code lines p :
  (code = 0%N ∧ last lines = Some "left=1") ∨ code = 1%N → ends (finish w code lines p).
Proof.
  intros Hc. unfold finish. destruct (leave_returns (w_closed w) p) as (p' & r & E & Hl). rewrite E. eexists; split; [done|]. split; [done|].
  cbn. destruct (killed p'); [done|]. destruct Hc as [[-> Hc]| ->]; [by left|by right].
Qed.
Lemma conclude_ends w code last_lines lines p :
  (code = 0%N ∧ last_lines = ["left=1"]) ∨ code = 1%N → ends (conclude w code last_lines lines p).
Proof.
  intros Hc. unfold conclude. destruct (leave_returns (w_closed w) p) as (p' & r & E & _). rewrite E. apply finish_ends.
  destruct Hc as [[-> ->]| ->]; [left; split; [done|apply last_snoc]|by right].
Qed.

Lemma sink_ok p sink : proc_ok p → proc_ok (p <| ps_sink := sink |>).
Proof. by apply proc_ok_view. Qed.
Lemma serve_commands_ok commands lines p : proc_ok p → ∃ lines' p', serve_commands commands lines p = Some (lines', p') ∧ proc_ok p'.
Proof.
  revert lines p. induction commands as [|command rest IH]; intros lines p Hp; [by eexists _, _|]. cbn [serve_commands].
  destruct (keeps_execute command _ (sink_ok p [] Hp)) as (p1 & r & E & Hp1). rewrite E. by apply IH.
Qed.
Lemma run_session_ends w stdin lines p : proc_ok p → ends (run_session w stdin lines p).
Proof.
  intros Hp. unfold run_session. destruct (keeps_script (w_described w) _ (sink_ok p [] Hp)) as (p1 & r & E & Hp1). rewrite E.
  destruct r as [[]|e]; [|apply conclude_ends; by right]. unfold serve. destruct (ao_stay_open _).
  - destruct (serve_commands_ok (commands_of stdin) ((lines ++ ps_sink p1) ++ ["holding=1"]) p1 Hp1) as (lines' & p2 & -> & _).
    apply conclude_ends. by left.
  - apply conclude_ends. by left.
Qed.
Lemma run_agent_ends w o endpoint stdin lines : can_start o (w_host w) → ends (run_agent w o endpoint stdin lines).
Proof.
  intros Hs. unfold run_agent. destruct (returns_configure o (w_host w) Hs) as (p & r & E & Hr). fold (fresh_agent (w_host w)). rewrite E.
  destruct r as [[]|e]; [|apply finish_ends; by right].
  destruct (returns_join (w_build w) (w_connect w endpoint.1 endpoint.2) o p (cs_agree _ _ Hs) Hr) as (p1 & r & Ej & Hp1).
  { by intros s ?%not_elem_of_nil. }
  rewrite Ej. destruct r as [[]|e]; [|apply finish_ends; by right]. by apply run_session_ends.
Qed.

(** Resolving the address and the boot changes no region and no staging. *)
Lemma resolve_options w l o endpoint :
  resolve w l = Continue (o, endpoint) →
  ao_regions o = ao_regions (lo_options l) ∧ ao_staging_length o = ao_staging_length (lo_options l) ∧ uuid_is_nil (cl_boot (ao_client o)) = false.
Proof.
  unfold resolve. case_decide; [done|]. destruct (parse_endpoint _ _) as [e|]; [|done].
  set (l' := if uuid_is_nil _ then _ else l).
  assert (ao_regions (lo_options l') = ao_regions (lo_options l) ∧ ao_staging_length (lo_options l') = ao_staging_length (lo_options l)) as [E1 E2].
  { unfold l'. by destruct (uuid_is_nil _). }
  clearbody l'. cbv zeta. destruct (uuid_is_nil _) eqn:E3; [done|]. intros [= <- <-]. done.
Qed.

Lemma alone_exits arg l code : alone arg l = Exit code → (code ≤ 2)%N.
Proof. unfold alone. repeat case_decide; try done. by intros [= <-]. Qed.
Lemma with_value_exits files arg value l code : with_value files arg value l = Some (Exit code) → (code ≤ 2)%N.
Proof.
  unfold with_value, or_exit. repeat (case_decide; [try (intros [=]; done); case_match; intros [=]; by subst|]). done.
Qed.
Lemma arguments_exit files args l code : parse_arguments files args l = Exit code → (code ≤ 2)%N.
Proof.
  remember (length args) as n eqn:En. revert args En l. induction n as [n IH] using lt_wf_ind. intros [|arg rest] En l; [done|].
  cbn [parse_arguments]. case_decide; [by intros [= <-]|].
  assert (match alone arg l with Exit code => Exit code | Continue l => parse_arguments files rest l end = Exit code → (code ≤ 2)%N) as Ha.
  { destruct (alone arg l) as [c|l'] eqn:E; [intros [= <-]; by eapply alone_exits|]. eapply IH; [|done]. cbn in En. lia. }
  destruct rest as [|value rest]; [done|]. destruct (with_value files arg value l) as [[c|l']|] eqn:Ew; [| |done].
  - intros [= ->]. by eapply with_value_exits.
  - eapply IH; [|done]. cbn in En. lia.
Qed.
Lemma resolve_exits w l code : resolve w l = Exit code → (code ≤ 2)%N.
Proof.
  unfold resolve. case_decide; [by intros [= <-]|]. destruct (parse_endpoint _ _); [|by intros [= <-]].
  cbv zeta. set (l' := if uuid_is_nil _ then _ else l). clearbody l'.
  destruct (uuid_is_nil _); [by intros [= <-]|done].
Qed.

Lemma ends_read o :
  ends o → ∃ oc, o = Some oc ∧
    match oc_process oc with
    | None => oc_lines oc = [] ∧ ∃ code, oc_end oc = Exited code ∧ (code ≤ 2)%N
    | Some p =>
        if killed p then oc_end oc = Signalled
        else has_left p ∧ (oc_end oc = Exited 0 ∧ last (oc_lines oc) = Some "left=1" ∨ oc_end oc = Exited 1)
    end.
Proof.
  intros (oc & -> & Hw). exists oc. split; [done|]. unfold ends_well in Hw. destruct (oc_process oc) as [p|]; [|done].
  by destruct Hw as [? Hw]; destruct (killed p).
Qed.

