(* ===== verification/RemoteCommands.v ===== *)
(** * The commands of the inspection program at a coordinator

    A command of the remote mode and the coordinator that serves it: which
    operation of the engine the command is, and what the program prints and
    exits with for every answer. *)
From Stdlib Require Import Strings.Byte Strings.Ascii Strings.String.
From S2P Require Import Prelude Ids Enums Status Bytes Policy Evidence Model Decisions Persistence.
From S2P Require Import Serialize Codec Messages Checksum Framing Protocol Wire Transport Text Client.
From S2P Require Import Engine Resolve Core Registry Read Write Invalidate Publish Sync Recovery.
From S2P Require Import Auditor Coordinator Render Programs Inspector Remote System Scenario Sessions SessionRuns Conversation.
From S2P Require Import ProgramFacts RemoteFacts.
#[local] Open Scope string_scope.
#[local] Open Scope list_scope.
Implicit Types st : Remote.

(** ** What a command means *)

(** What is asked of the engine. *)
Inductive Asked := Looks | Does (o : op) | Publishes (r : PublishRequest).

Definition carried_out {St} `{DurableStore St} (x : Asked) (s : Impl St) : Impl St :=
  match x with Looks => s | Does o => exec o s | Publishes r => (publish r s).1 end.

Section meaning.
Context (fresh : RequestId) (ep : CoordinatorEpoch) (session : Session) (a : Args).

(** The context of an operation in the name of the session. *)
Definition own : AuthorityContext := mkAuthorityContext ep (ss_participant session) (ss_boot session) (id_of "object" a)
  (from_value (number "object-generation" 1 a)) nil_id fresh.
(** The fingerprint the arguments give: without a digest, and undefined without a checksum. *)
Definition named_content : ContentFingerprint :=
  mkContentFingerprint nil_uuid (number "content-crc" 0 a mod 2 ^ 32) (number "content-length" 0 a) (has "content-crc" a).
(** A flag that is on unless it says something else. *)
Definition said_true (key : string) : bool := bool_decide (get_flag key "true" a = "true").

(** The operation a command stands for; none for a command that is not one.  A
    participant's request is made in the name of the session; an invalidation
    names no participant and no boot, since the program sends none and the
    coordinator fills none in. *)
Definition plain_meaning (group : string) : option Asked :=
  if decide (group = "status") then Some Looks else
  if decide (group = "snapshot" ∨ group = "audit" ∨ group = "verify" ∨ group = "decisions" ∨ group = "recovery") then Some Looks else
  if decide (group = "publish") then
    Some (Publishes (mkPublishRequest own (id_of "ownership" a) (id_of "region" a) (id_of "region-generation" a) (id_of "base-version" a)
      named_content (has "allow-initial" a))) else
  if decide (group = "invalidate") then
    Some (Does (OpInvalidate (mkInvalidationRequest
      (mkAuthorityContext ep nil_id nil_uuid (id_of "object" a) (from_value (number "object-generation" 1 a)) nil_id nil_id)
      (id_of "region" a) (id_of "region-generation" a) (from_value (number "replica-generation" 1 a)) (id_of "ownership" a)
      (id_of "version" a) (said_true "ack")))) else
  if decide (group = "sync-begin") then
    Some (Does (OpBeginSync (mkSyncRequest own SyncOperationKind.Copy (id_of "source" a) (id_of "source-generation" a)
      (id_of "destination" a) (id_of "destination-generation" a) (id_of "ownership" a) (get_flag "transport" "delegated" a)))) else
  if decide (group = "sync-complete") then
    Some (Does (OpCompleteSync (mkSyncCompleteRequest own (id_of "operation" a) (id_of "destination" a) (id_of "destination-generation" a)
      (id_of "version" a) named_content (said_true "content-moved")))) else
  if decide (group = "revalidate") then
    Some (Does (OpRevalidate (mkRevalidateRequest own (id_of "region" a) (id_of "region-generation" a) (id_of "version" a) named_content
      (said_true "byte-compared")))) else
  if decide (group = "release") then
    Some (Does (OpRelease (mkReleaseRequest own (id_of "lease" a) (id_of "ownership" a) (has "write" a)))) else
  if decide (group = "mark-dirty") then
    Some (Does (OpMarkDirty (mkDirtyRequest own (id_of "region" a) (id_of "region-generation" a) (id_of "ownership" a)
      (id_of "base-version" a) default_ContentFingerprint))) else None.
Definition verb_meaning (group verb : string) : option Asked :=
  if decide (group = "object") then
    (if decide (verb = "list" ∨ verb = "show") then Some Looks else
     if decide (verb = "create") then
       Some (Does (OpRegisterObject (id_of "domain" a) (get_flag "name" "object" a) (number "length" 0 a) (build_policy a))) else
     if decide (verb = "resolve-recovery") then
       Some (Does (OpResolveRecovery (id_of "object" a) (id_of "generation" a) ep (get_flag "note" "" a))) else
     if decide (verb = "retire") then Some (Does (OpRetireObject (id_of "object" a) (id_of "generation" a) ep)) else None) else
  if decide (group = "region") then
    (if decide (verb = "list" ∨ verb = "show") then Some Looks else
     if decide (verb = "register") then
       (λ d, Does (OpRegisterRegion (mkRegionRegistration own nil_id (id_of "region" a) (get_flag "name" "replica" a) d
         (remote_evidence_class a) (number "offset" 0 a) (number "length" 0 a) (number "address" 0 a) (id_of "replica" a)
         (said_true "writable") nil_id named_content))) <$> remote_memory_domain a else
     if decide (verb = "retire") then Some (Does (OpRetireRegion (id_of "region" a) (id_of "generation" a) ep)) else None) else
  if decide (group = "participant") then
    (if decide (verb = "list" ∨ verb = "show") then Some Looks else
     if decide (verb = "fence") then
       Some (Does (OpFenceParticipant (id_of "id" a) ep (get_flag "reason" "fenced by operator" a))) else None) else
  if decide (group = "domain") then
    (if decide (verb = "create") then Some (Does (OpCreateDomain (get_flag "name" "default" a))) else
     if decide (verb = "show") then Some Looks else None) else
  if decide (group = "acquire") then
    (if decide (verb = "read") then Some (Does (OpAcquireRead (mkReadRequest own (id_of "region" a) (id_of "region-generation" a) (id_of "snapshot-version" a) true))) else
     if decide (verb = "write") then Some (Does (OpAcquireWrite (mkWriteRequest own (id_of "region" a) (id_of "region-generation" a)))) else None) else
  None.
Definition remote_meaning : option Asked :=
  match ar_positional a with
  | [] => None
  | group :: rest => match plain_meaning group with Some x => Some x | None => verb_meaning group (default "" (head rest)) end
  end.
End meaning.

(** ** What is printed *)

(** The text of an answer; [words] is its prose. *)
Definition shown (words : string) (r : Reply) : string :=
  match r with
  | ReplyDomain d => render_domain_record d
  | ReplyParticipant p => render_participant p
  | ReplyObject o => render_object o
  | ReplyRegion r => render_region r
  | ReplyRead d => render_read_decision d words
  | ReplyWrite g => render_write_grant g words
  | ReplyPublication p => render_publication p words
  | ReplyInvalidation i => render_invalidation_outcome i words
  | ReplySync y => render_sync_outcome y words
  | ReplyRelease o => render_release_record o words
  | ReplyText _ => words
  | ReplyPong _ _ _ => "ping=ok"
  | _ => ""
  end.
(** The code for an accepted request: only an audit looks at the text. *)
Definition exit_code (words : string) (r : Reply) : N :=
  match r with
  | ReplyText (TAudit _) => match find_text "result=clean" words with Some _ => 0 | None => 4 end
  | _ => 0
  end.
(** What [status] prints before it asks. *)
Definition preamble (build : string) (a : Args) st : list string :=
  let session := cl_session (rm_client st) in
  if decide (head (ar_positional a) = Some "status") then
    c_str <$> ["build=" +:+ build; "epoch=" +:+ id_to_string (hr_epoch session); "session=" +:+ uuid_to_string (hr_session session);
      "participant=" +:+ id_to_string (hr_participant session); if hr_observer session then "mode=observer" else "mode=participant"]
  else [].
(** Lines printed, and the code. *)
Definition reported (message words : string) (answer : Answer) : list string * N :=
  if decide (answer.1 ≠ StatusCode.Ok) then ([failure_line answer.1 message], 1%N)
  else (c_str <$> lines_of (shown words answer.2), exit_code words answer.2).

(** An accepted answer the program can decode; one without a body is none. *)
Definition fits_reply (words : string) (r : Reply) : Prop :=
  let limits := default_decode_limits in
  match r with
  | ReplyDomain d => fits_domain limits d
  | ReplyParticipant p => fits_participant limits p
  | ReplyObject o => fits_object limits o
  | ReplyRegion r => fits_region limits r
  | ReplyRead d => fits_read_decision limits (d, words)
  | ReplyWrite g => fits_write_grant limits (g, words)
  | ReplyPublication p => fits_publication limits (p, words)
  | ReplyInvalidation i => fits_invalidation_outcome limits (i, words)
  | ReplySync y => fits_sync_outcome limits (y, words)
  | ReplyRelease o => fits_release_outcome limits (o, words)
  | ReplyText _ => fits_text (2 ^ 22) words
  | ReplyPong _ _ _ => True
  | _ => False
  end.

(** ** Arguments that can be sent *)

(** Texts within the limit of the decoder, lengths within that of an object. *)
Definition modest (a : Args) : Prop :=
  map_Forall (λ _ v, (String.length v ≤ 4096)%nat) (ar_flags a) ∧
  (number "content-length" 0 a ≤ 2 ^ 40)%N ∧ (number "length" 0 a ≤ 2 ^ 40)%N.
#[export] Instance modest_dec a : Decision (modest a) := _.

Lemma number_fits key fallback a : fits_width 8 fallback → fits_width 8 (number key fallback a).
Proof. intros Hf. unfold number. destruct (ar_flags a !! key); [apply strtoull_u64|done]. Qed.
Lemma id_fits {t} key a : fits_id (id_of key a : StrongId t).
Proof. by apply number_fits. Qed.
Lemma flag_fits key fallback a : modest a → (String.length fallback ≤ 4096)%nat → fits_text 4096 (get_flag key fallback a).
Proof.
  intros [Hm _] Hf. unfold get_flag, fits_text, fits_width.
  assert (String.length (default fallback (ar_flags a !! key)) ≤ 4096)%nat.
  { destruct (ar_flags a !! key) as [v|] eqn:Ev; [exact (Hm key v Ev)|done]. }
  split; [lia|]. change (256 ^ N.of_nat 4)%N with 4294967296%N. lia.
Qed.
Lemma nil_fits {t} : fits_id (nil_id : StrongId t). Proof. done. Qed.

Lemma override_fits {E} `{EnumTable E} key (set : E → CoherencePolicy → CoherencePolicy) a p :
  (∀ v q, fits_policy default_decode_limits q → fits_policy default_decode_limits (set v q)) →
  fits_policy default_decode_limits p → fits_policy default_decode_limits (override key set a p).
Proof. intros Hs Hp. unfold override. repeat case_match; auto. Qed.

Lemma base_policy_fits a : fits_policy default_decode_limits (base_policy a).
Proof.
  unfold base_policy. pose proof (number_fits "stale-bound" 8 a eq_refl) as Hn.
  case_decide; [by vm_compute|]. case_decide; [by vm_compute|]. case_decide; [|by vm_compute].
  split_and!; [done|done|by vm_compute|exact Hn|done|done].
Qed.

Lemma policy_fits a : fits_policy default_decode_limits (build_policy a).
Proof.
  unfold build_policy. cbv zeta.
  do 2 match goal with |- fits_policy _ (if ?d then _ else ?p) =>
    enough (fits_policy default_decode_limits p) by (by destruct d) end.
  do 4 (apply override_fits; [done|]). apply base_policy_fits.
Qed.

(** The requests of modest arguments can be sent. *)
Section fits.
Context (fresh : RequestId) (ep : CoordinatorEpoch) (a : Args).
Hypotheses (Ha : modest a) (Hfresh : fits_id fresh) (Hep : fits_id ep).

Lemma context_fits : fits_authority_context default_decode_limits (remote_context fresh ep a).
Proof. unfold fits_authority_context. split_and!; first [exact Hep|exact Hfresh|by apply number_fits|done]. Qed.

Lemma content_fits : fits_fingerprint default_decode_limits (remote_content a).
Proof.
  destruct Ha as (_ & Hc & _). split; [by split|]. split; [|split; [by apply (number_fits _ _ a)|exact Hc]].
  unfold fits_width. change (number "content-crc" 0 a mod 2 ^ 32 < 256 ^ N.of_nat 4)%N. by apply N.mod_lt.
Qed.

#[local] Ltac fits_parts :=
  split_and!; first
    [ exact context_fits | exact content_fits | done
    | by apply (number_fits _ _ a) | apply (flag_fits _ _ a Ha); apply Nat.leb_le; by vm_compute | by apply Ha ].

Lemma registration_fits d : fits_region_registration default_decode_limits (remote_registration fresh ep a d).
Proof. unfold fits_region_registration. fits_parts. Qed.
Lemma read_fits : fits_read_request default_decode_limits (remote_read_request fresh ep a).
Proof. unfold fits_read_request. fits_parts. Qed.
Lemma write_fits : fits_write_request default_decode_limits (remote_write_request fresh ep a).
Proof. unfold fits_write_request. fits_parts. Qed.
Lemma publish_fits : fits_publish_request default_decode_limits (remote_publish_request fresh ep a).
Proof. unfold fits_publish_request. fits_parts. Qed.
Lemma dirty_fits : fits_dirty_request default_decode_limits (remote_dirty_request fresh ep a).
Proof. unfold fits_dirty_request. fits_parts. Qed.
Lemma release_fits : fits_release_request default_decode_limits (remote_release_request fresh ep a).
Proof. unfold fits_release_request. fits_parts. Qed.
Lemma revalidate_fits : fits_revalidate_request default_decode_limits (remote_revalidate_request fresh ep a).
Proof. unfold fits_revalidate_request. fits_parts. Qed.
Lemma sync_fits : fits_sync_request default_decode_limits (remote_sync_request fresh ep a).
Proof. unfold fits_sync_request. fits_parts. Qed.
Lemma sync_complete_fits : fits_sync_complete default_decode_limits (remote_sync_complete fresh ep a).
Proof. unfold fits_sync_complete. fits_parts. Qed.
Lemma invalidation_fits : fits_invalidation_request default_decode_limits (remote_invalidation_request fresh ep a).
Proof.
  unfold fits_invalidation_request. split; [|fits_parts].
  destruct context_fits as (H1 & H2 & H3 & H4 & H5 & H6 & _). repeat split; done.
Qed.
End fits.

(** ** A command at the dispatcher *)

Section served.
Context {St : Type} `{DurableStore St} (build : string) (says : StatusCode.t → string).
Notation Co := (Coordinator St).
Implicit Types c : Co.

(** The command asks for [body] and prints what [present] makes of the payload. *)
Definition asks_for (f : Remote → Remote * N) (type : MessageType.t) (body : list byte) (present : list byte → list string * N) : Prop :=
  ∀ st, f st = accepted_or says (remote_ask type body st)
    (λ payload st, (foldl (λ st line, emit line st) st (present payload).1, (present payload).2)) 1%N.

(** Lines and code of a payload that is understood as the reply it is. *)
Definition presents (present : list byte → list string * N) (r : Reply) : Prop :=
  ∀ words, fits_reply words r → present (reply_bytes words r) = (lines_of (shown words r), exit_code words r).

(** The dispatcher carries out what the command means, and the program can tell. *)
Definition understood (session : Session) c (f : Remote → Remote * N) (asked : Asked) : Prop :=
  ∃ type body present, type ≠ MessageType.Goodbye ∧ asks_for f type body present ∧
    let d := dispatch build session type body c in
    co_engine d.1 = carried_out asked (co_engine c) ∧ (d.2.1 = StatusCode.Ok → presents present d.2.2).

Definition present_record {A} (decode : Reader A) (render : A → string) (payload : list byte) : list string * N :=
  match decode payload with
  | Read record [] => (lines_of (render record), 0%N)
  | _ => (["error code=protocol_violation message=response payload could not be decoded"], 1%N)
  end.
Definition present_text (payload : list byte) : list string * N :=
  match ByteReader.text (2 ^ 22) payload with
  | Read text _ => (lines_of text, 0%N)
  | _ => (["error code=protocol_violation message=text payload could not be decoded"], 1%N)
  end.
Definition present_audit (payload : list byte) : list string * N :=
  match ByteReader.text (2 ^ 22) payload with
  | Read text _ => (lines_of text, match find_text "result=clean" text with Some _ => 0%N | None => 4%N end)
  | _ => ([], 1%N)
  end.

Lemma accepted_or_ext {A} (r : Remote * result Exchange) (k k' : list byte → Remote → Remote * A) otherwise :
  (∀ payload st, k payload st = k' payload st) → accepted_or says r k otherwise = accepted_or says r k' otherwise.
Proof. intros Hk. unfold accepted_or. destruct r as [st [e|code]]; [|done]. case_decide; [done|apply Hk]. Qed.

Lemma record_asks_for {A} type body (decode : Reader A) render :
  asks_for (exchange_record says type body decode render) type body (present_record decode render).
Proof. intros st. apply accepted_or_ext. intros payload st'. unfold present_record. by repeat case_match. Qed.
Lemma text_asks_for type body : asks_for (exchange_text says type body) type body present_text.
Proof. intros st. apply accepted_or_ext. intros payload st'. unfold present_text. by repeat case_match. Qed.
Lemma audit_asks_for : asks_for (remote_audit says) MessageType.Audit [] present_audit.
Proof. intros st. apply accepted_or_ext. intros payload st'. unfold present_audit. by repeat case_match. Qed.

(** Replies are read back. *)
Lemma record_presents {A} {fits : A → Prop} {enc dec} `{!Lawful fits enc dec} (render : A → string) (v : string → A) r :
  (∀ words, fits_reply words r →
    fits (v words) ∧ reply_bytes words r = enc (v words) ∧ shown words r = render (v words) ∧ exit_code words r = 0%N) →
  presents (present_record dec render) r.
Proof.
  intros Hr words Hf. destruct (Hr words Hf) as (Hv & -> & -> & ->). unfold present_record.
  pose proof (read_written (dec := dec) (v words) [] Hv) as Hrd. rewrite app_nil_r in Hrd. by rewrite Hrd.
Qed.
Lemma text_read_back words : fits_text (2 ^ 22) words → ByteReader.text (2 ^ 22) (encode_text_block words) = Read words [].
Proof.
  intros Hf. pose proof (read_written (dec := ByteReader.text (2 ^ 22)) words [] Hf) as Hrd. by rewrite app_nil_r in Hrd.
Qed.
Lemma text_presents what : (∀ r, what ≠ TAudit r) → presents present_text (ReplyText what).
Proof.
  intros Hw words Hf. unfold present_text. cbn [reply_bytes]. rewrite text_read_back by done. by destruct what; try by destruct (Hw report).
Qed.
Lemma audit_presents report : presents present_audit (ReplyText (TAudit report)).
Proof. intros words Hf. unfold present_audit. cbn [reply_bytes]. by rewrite text_read_back. Qed.

Lemma payload_decoded {A} {fits : A → Prop} {enc dec} `{!Lawful fits enc dec} v (k : A → list byte → Co * Answer) c :
  fits v → with_payload dec (enc v) k c = k v [].
Proof.
  intros Hv. unfold with_payload. pose proof (read_written (dec := dec) v [] Hv) as Hrd. rewrite app_nil_r in Hrd. by rewrite Hrd.
Qed.

(** A dispatch that is one call of the engine, or none. *)
Lemma call_understood {A} session c f type body present asked (g : Impl St → Impl St * result A) reply :
  asks_for f type body present → type ≠ MessageType.Goodbye →
  dispatch build session type body c = call g reply c →
  (g (co_engine c)).1 = carried_out asked (co_engine c) → (∀ v, presents present (reply v)) →
  understood session c f asked.
Proof.
  intros Ha Ht Hd He Hp. exists type, body, present. split_and!; [done|done|]. cbv zeta. rewrite Hd.
  split; [by rewrite call_engine|]. unfold call. destruct (g (co_engine c)) as [s [v|e]]; [intros _; apply Hp|]. by intros _ words.
Qed.
Lemma status_understood session c f type body asked (g : Impl St → Impl St * StatusCode.t) what :
  asks_for f type body present_text → type ≠ MessageType.Goodbye →
  dispatch build session type body c = call_status g (ReplyText what) c →
  (g (co_engine c)).1 = carried_out asked (co_engine c) → (∀ r, what ≠ TAudit r) →
  understood session c f asked.
Proof.
  intros Ha Ht Hd He Hp. exists type, body, present_text. split_and!; [done|done|]. cbv zeta. rewrite Hd.
  split; [by rewrite call_status_engine|]. unfold call_status. destruct (g (co_engine c)) as [s status].
  destruct (ok status); [intros _; by apply text_presents|by intros _ words].
Qed.
Lemma look_understood session c f type body present code r :
  asks_for f type body present → type ≠ MessageType.Goodbye →
  dispatch build session type body c = (c, (code, r)) → (code = StatusCode.Ok → presents present r) →
  understood session c f Looks.
Proof. intros Ha Ht Hd Hp. exists type, body, present. split_and!; [done|done|]. cbv zeta. by rewrite Hd. Qed.

Lemma snapshot_options_read (id : ObjectId) : fits_id id →
  let options := default_SnapshotOptions <| sno_object_filter := id |> in
  decode_snapshot_options (encode_snapshot_options options) = Read options [].
Proof.
  intros Hid options. rewrite <-(app_nil_r (encode_snapshot_options options)). by apply (read_written (fits := fits_snapshot_options)).
Qed.

(** ** The commands *)

Section commands.
Context (fresh : RequestId) (session : Session) (c : Co) (a : Args).
Notation ep := (epoch (co_engine c)).
Hypotheses (Ha : modest a) (Hfresh : fits_id fresh) (Hep : fits_id ep).

#[local] Ltac reads_back :=
  intros v; first [by apply (record_presents _ (λ words, (v, words))) | by apply (record_presents _ (λ _, v))].
(** A command that is a request of the session. *)
#[local] Ltac session_command fits :=
  eapply call_understood;
    [apply record_asks_for|done
    |unfold dispatch; match goal with Hs : ss_observer session = false |- _ => rewrite Hs end; cbn [andb dispatch_session];
     rewrite payload_decoded by (by apply fits); reflexivity
    |reflexivity|reads_back].
(** A command that only looks. *)
#[local] Ltac looking asks presents :=
  eapply look_understood; [apply asks|done|unfold dispatch; rewrite andb_false_r; reflexivity|intros _; by apply presents].

Lemma plain_understood group f asked :
  group ≠ "status" →
  (bool_decide (group ∈ mutating_groups) = true → ss_observer session = false) →
  remote_plain build says fresh ep a group = Some f → plain_meaning fresh ep session a group = Some asked →
  understood session c f asked.
Proof.
  intros Hns Hs Hf Hm. unfold remote_plain in Hf. rewrite decide_False in Hf by done.
  case_decide; [subst; injection Hf as <-; injection Hm as <-|].
  { eapply (look_understood _ _ _ _ _ _ _ (ReplyText (TSnapshot _))); [apply text_asks_for|done| |intros _; by apply text_presents].
    unfold dispatch, remote_snapshot_options. rewrite andb_false_r. unfold with_payload.
    by rewrite (snapshot_options_read (id_of "object" a)) by apply id_fits. }
  case_decide; [destruct_or?; subst; injection Hf as <-; injection Hm as <-; looking audit_asks_for audit_presents|].
  case_decide; [subst; injection Hf as <-; injection Hm as <-|].
  { looking text_asks_for text_presents. }
  case_decide; [subst; injection Hf as <-; injection Hm as <-|].
  { looking text_asks_for text_presents. }
  case_decide; [subst; injection Hf as <-; injection Hm as <-|].
  { specialize (Hs eq_refl). session_command publish_fits. }
  case_decide; [subst; injection Hf as <-; injection Hm as <-|].
  { specialize (Hs eq_refl). session_command invalidation_fits. }
  case_decide; [subst; injection Hf as <-; injection Hm as <-|].
  { specialize (Hs eq_refl). session_command sync_fits. }
  case_decide; [subst; injection Hf as <-; injection Hm as <-|].
  { specialize (Hs eq_refl). session_command sync_complete_fits. }
  case_decide; [subst; injection Hf as <-; injection Hm as <-|].
  { specialize (Hs eq_refl). session_command revalidate_fits. }
  case_decide; [subst; injection Hf as <-; injection Hm as <-|].
  { specialize (Hs eq_refl). session_command release_fits. }
  case_decide; [subst; injection Hf as <-; injection Hm as <-|done].
  specialize (Hs eq_refl).
  eapply (call_understood _ _ _ _ _ _ _ _ (λ d, ReplyText (TDirtyCondition d)));
    [apply text_asks_for|done| |reflexivity|intros v; by apply text_presents].
  unfold dispatch. rewrite Hs. cbn [andb dispatch_session]. by rewrite payload_decoded by (by apply dirty_fits).
Qed.

(** The commands with inline bodies. *)
Lemma create_understood : ss_observer session = false → understood session c
  (exchange_record says MessageType.RegisterObject
    (encode_register_object (id_of "domain" a, get_flag "name" "object" a, number "length" 0 a, build_policy a))
    (decode_object default_decode_limits) render_object)
  (Does (OpRegisterObject (id_of "domain" a) (get_flag "name" "object" a) (number "length" 0 a) (build_policy a))).
Proof.
  intros Hs. eapply call_understood; [apply record_asks_for|done| |reflexivity|].
  - unfold dispatch. rewrite Hs. cbn [andb]. rewrite payload_decoded; [reflexivity|].
    split_and!; [apply id_fits|by apply flag_fits; [|apply Nat.leb_le; vm_compute]|by apply number_fits|apply policy_fits].
  - reads_back.
Qed.

Lemma resolve_understood : ss_observer session = false → understood session c
  (exchange_record says MessageType.ResolveRecovery
      (ByteWriter.strong_id (id_of "object" a : ObjectId) ++ ByteWriter.u64 (number "generation" 0 a)
        ++ ByteWriter.text (get_flag "note" "" a))
      (decode_object default_decode_limits) render_object)
  (Does (OpResolveRecovery (id_of "object" a) (id_of "generation" a) ep (get_flag "note" "" a))).
Proof.
  intros Hs. eapply call_understood; [apply record_asks_for|done| |reflexivity|].
  - unfold dispatch. rewrite Hs. cbn [andb]. unfold dispatch_resolve.
    rewrite (payload_decoded (enc := encode_resolve) (id_of "object" a, number "generation" 0 a, get_flag "note" "" a)); [reflexivity|].
    split_and!; [apply id_fits|by apply number_fits|by apply flag_fits; [|apply Nat.leb_le; vm_compute]].
  - reads_back.
Qed.

Lemma retire_understood (object : bool) : ss_observer session = false → understood session c
  (exchange_text says (if object then MessageType.RetireObject else MessageType.RetireRegion)
     (encode_retire (number (if object then "object" else "region") 0 a, number "generation" 0 a)))
  (Does (if object then OpRetireObject (id_of "object" a) (id_of "generation" a) ep
         else OpRetireRegion (id_of "region" a) (id_of "generation" a) ep)).
Proof.
  intros Hs. assert (∀ key, fits_retire (number key 0 a, number "generation" 0 a)) as Hf by (intros key; split; by apply number_fits).
  destruct object; (eapply status_understood; [apply text_asks_for|done
    |unfold dispatch; rewrite Hs; cbn [andb]; unfold dispatch_control; rewrite payload_decoded by apply Hf; reflexivity|reflexivity|done]).
Qed.

Lemma fence_understood : ss_observer session = false → understood session c
  (exchange_record says MessageType.FenceParticipant
    (encode_fence_participant (id_of "id" a, get_flag "reason" "fenced by operator" a))
    (decode_participant default_decode_limits) render_participant)
  (Does (OpFenceParticipant (id_of "id" a) ep (get_flag "reason" "fenced by operator" a))).
Proof.
  intros Hs. exists MessageType.FenceParticipant, (encode_fence_participant (id_of "id" a, get_flag "reason" "fenced by operator" a)),
    (present_record (decode_participant default_decode_limits) render_participant).
  split; [done|]. split; [apply record_asks_for|]. unfold dispatch. rewrite Hs. cbn [andb]. unfold dispatch_control.
  rewrite payload_decoded by (split; [apply id_fits|by apply flag_fits; [|apply Nat.leb_le; vm_compute]]). cbn [fst snd]. unfold call, carried_out, exec.
  destruct (fence_participant _ _ _ _) as [s [p|e]]; cbn [fst snd ok].
  - split; [by rewrite shut_participant_engine|]. intros _. by apply (record_presents _ (λ _, p)).
  - split; [|by intros _ words]. destruct (ok e); [by rewrite shut_participant_engine|done].
Qed.

Lemma domain_understood : ss_observer session = false → understood session c
  (exchange_record says MessageType.CreateDomain (encode_create_domain (get_flag "name" "default" a))
    (decode_domain default_decode_limits) render_domain_record)
  (Does (OpCreateDomain (get_flag "name" "default" a))).
Proof.
  intros Hs. eapply call_understood; [apply record_asks_for|done| |reflexivity|].
  - unfold dispatch. rewrite Hs. cbn [andb]. rewrite (payload_decoded (dec := decode_create_domain _)); [reflexivity|].
    by apply flag_fits; [|apply Nat.leb_le; vm_compute].
  - reads_back.
Qed.

Lemma register_understood d : remote_memory_domain a = Some d → ss_observer session = false → understood session c
  (remote_region_register says fresh ep a)
  (Does (OpRegisterRegion (mkRegionRegistration (own fresh ep session a) nil_id (id_of "region" a) (get_flag "name" "replica" a) d
    (remote_evidence_class a) (number "offset" 0 a) (number "length" 0 a) (number "address" 0 a) (id_of "replica" a)
    (said_true a "writable") nil_id (named_content a)))).
Proof.
  intros Ed Hs. eapply (call_understood _ _ _ MessageType.RegisterRegion).
  - intros st. unfold remote_region_register. rewrite Ed. apply record_asks_for.
  - done.
  - unfold dispatch. rewrite Hs. cbn [andb dispatch_session]. rewrite payload_decoded by (by apply registration_fits). reflexivity.
  - reflexivity.
  - reads_back.
Qed.

Lemma verb_understood group verb f asked :
  (bool_decide (group ∈ mutating_groups) = true → ss_observer session = false) →
  remote_verb says fresh ep a group verb = Some f → verb_meaning fresh ep session a group verb = Some asked →
  understood session c f asked.
Proof.
  intros Hs Hf Hm. unfold remote_verb in Hf.
  case_decide; [subst; unfold remote_object in Hf; specialize (Hs eq_refl)|].
  { case_decide; [destruct_or?; subst; injection Hf as <-; injection Hm as <-; looking text_asks_for text_presents|].
    case_decide; [subst; injection Hf as <-; injection Hm as <-; by apply create_understood|].
    case_decide; [subst; injection Hf as <-; injection Hm as <-; by apply resolve_understood|].
    case_decide; [subst; injection Hf as <-; injection Hm as <-; by apply (retire_understood true)|done]. }
  case_decide; [subst; unfold remote_region in Hf; specialize (Hs eq_refl)|].
  { case_decide; [destruct_or?; subst; injection Hf as <-; injection Hm as <-; looking text_asks_for text_presents|].
    case_decide; [subst; injection Hf as <-|].
    { unfold verb_meaning in Hm. rewrite decide_False, decide_True, decide_False, decide_True in Hm by (first [done|by intros [?|?]]).
      destruct (remote_memory_domain a) as [d|] eqn:Ed; [injection Hm as <-; by apply register_understood|done]. }
    case_decide; [subst; injection Hf as <-; injection Hm as <-; by apply (retire_understood false)|done]. }
  case_decide; [subst; unfold remote_participant in Hf; specialize (Hs eq_refl)|].
  { case_decide; [destruct_or?; subst; injection Hf as <-; injection Hm as <-; looking text_asks_for text_presents|].
    case_decide; [subst; injection Hf as <-; injection Hm as <-; by apply fence_understood|done]. }
  case_decide; [subst; unfold remote_domain in Hf; specialize (Hs eq_refl)|].
  { case_decide; [subst; injection Hf as <-; injection Hm as <-; by apply domain_understood|].
    case_decide; [subst; injection Hf as <-; injection Hm as <-|done].
    eapply look_understood; [apply text_asks_for|done|unfold dispatch; rewrite andb_false_r; reflexivity|done]. }
  case_decide; [subst; unfold remote_acquire in Hf; specialize (Hs eq_refl)|done].
  case_decide; [subst; injection Hf as <-; injection Hm as <-; session_command read_fits|].
  case_decide; [subst; injection Hf as <-; injection Hm as <-; session_command write_fits|done].
Qed.

Lemma command_understood f asked :
  head (ar_positional a) ≠ Some "status" →
  (ss_observer session = true → runs_as_observer a = true) →
  remote_command build says fresh ep a = Some f → remote_meaning fresh ep session a = Some asked → understood session c f asked.
Proof.
  unfold remote_command, remote_meaning, runs_as_observer. destruct (ar_positional a) as [|group rest]; [done|]. cbn [head default].
  intros Hns Hs. assert (group ≠ "status") as Hg by congruence. clear Hns. assert (bool_decide (group ∈ mutating_groups) = true → ss_observer session = false) as Ho.
  { intros Hin. change (ss_observer session = true → negb (bool_decide (group ∈ mutating_groups)) = true) in Hs. rewrite Hin in Hs.
    destruct (ss_observer session); [by specialize (Hs eq_refl)|done]. }
  destruct (remote_plain build says fresh ep a group) as [g|] eqn:Eg, (plain_meaning fresh ep session a group) as [m|] eqn:Em.
  - intros [= <-] [= <-]. by eapply plain_understood.
  - intros _ _. exfalso. unfold remote_plain in Eg. repeat (case_decide; [destruct_or?; subst; first [done|discriminate Em]|]); done.
  - intros _ _. exfalso. unfold plain_meaning in Em. repeat (case_decide; [destruct_or?; subst; discriminate Eg|]); done.
  - by apply verb_understood.
Qed.
End commands.

(** ** Commands at a coordinator *)

Lemma emits_printed lines st :
  rm_printed (foldl (λ st line, emit line st) st lines) = rm_printed st ++ (c_str <$> lines).
Proof.
  revert st. induction lines as [|l ls IH]; intros st; [by rewrite app_nil_r|].
  cbn [foldl]. rewrite IH. change (rm_printed (emit l st)) with (rm_printed st ++ [c_str l]). by rewrite <-app_assoc.
Qed.

(** The program's side of an answered command. *)
Lemma answered_command f type body present st sid ep message detail words answer rest :
  let response := response_frame sid ep (cl_next_correlation (rm_client st)) message detail words answer in
  asks_for f type body present → (answer.1 = StatusCode.Ok → presents present answer.2) →
  connected (cl_socket (rm_client st)) → fits_frame (cl_frames (rm_client st)) response →
  fits_response_envelope default_decode_limits (mkResponseEnvelope answer.1 message detail) →
  (answer.1 = StatusCode.Ok → fits_reply words answer.2) →
  concat (pieces (so_in (cl_socket (rm_client st)))) = encode_frame (f_header response) (f_body response) ++ rest →
  rm_printed (f st).1 = rm_printed st ++ (reported message words answer).1 ∧ (f st).2 = (reported message words answer).2.
Proof.
  intros response Hf Hp Hc Hr He Hw Hin. rewrite Hf. unfold remote_ask.
  destruct (request_answered type body (rm_client st) response rest Hc Hr Hin) as (cl & -> & _).
  subst response. rewrite response_opened by done. unfold accepted_or, reported. cbn [ex_envelope re_code ex_payload re_message].
  case_decide as Hcode; [done|]. rewrite (Hp Hcode words (Hw Hcode)). cbn [fst snd].
  split; [|done]. etrans; [apply emits_printed|done].
Qed.

Lemma request_written type body cl : connected (cl_socket cl) →
  so_out (cl_socket (request type body cl).1) = so_out (cl_socket cl) ++ encode_frame (next_header type cl) body.
Proof.
  intros Hc. unfold request. rewrite (proj1 Hc). cbn [negb].
  destruct (write_frame_written (next_header type cl) body (cl_socket cl) Hc) as (s1 & E1 & Ho & _).
  change (cl_socket (take_numbers cl)) with (cl_socket cl). rewrite E1. cbn [ok negb]. rewrite <-Ho.
  match goal with |- context [receive_frame ?l ?s] => change (receive_frame l s) with (receive_frame l s1) end.
  unfold receive_frame. destruct (negb (so_valid s1)); [done|]. by destruct (read_frame _ _).
Qed.

Lemma asked_client f type body present st : asks_for f type body present → rm_client (f st).1 = (request type body (rm_client st)).1.
Proof.
  intros Hf. rewrite Hf. unfold remote_ask, accepted_or. destruct (request type body (rm_client st)) as [cl [e|code]]; [|done].
  case_decide; [done|]. cbn [fst]. etrans; [apply emits_client|done].
Qed.

(** [status] at the dispatcher: a ping is always answered, and whatever the
    answer it is printed as one. *)
Lemma status_pings session c : fits_id (epoch (co_engine c)) →
  dispatch build session MessageType.Ping (ByteWriter.u64 1) c =
    (c, (StatusCode.Ok, ReplyPong 1 (epoch (co_engine c)) (sequence (co_engine c)))).
Proof.
  intros _. unfold dispatch. rewrite andb_false_r. by rewrite (payload_decoded (dec := ByteReader.u64)).
Qed.

Lemma status_client st : rm_client (remote_status build says st).1 = (request MessageType.Ping (ByteWriter.u64 1) (rm_client st)).1.
Proof.
  unfold remote_status, ping.
  match goal with |- context [request _ _ ?x] => change x with (rm_client st) end.
  by destruct (request _ _ _) as [cl [e|code]].
Qed.

Lemma answered_status a st sid ep message detail words nonce answer_ep seq rest :
  let answer := (StatusCode.Ok, ReplyPong nonce answer_ep seq) in
  let response := response_frame sid ep (cl_next_correlation (rm_client st)) message detail words answer in
  head (ar_positional a) = Some "status" →
  connected (cl_socket (rm_client st)) → fits_frame (cl_frames (rm_client st)) response →
  fits_response_envelope default_decode_limits (mkResponseEnvelope StatusCode.Ok message detail) →
  concat (pieces (so_in (cl_socket (rm_client st)))) = encode_frame (f_header response) (f_body response) ++ rest →
  rm_printed (remote_status build says st).1 = rm_printed st ++ preamble build a st ++ (reported message words answer).1 ∧
  (remote_status build says st).2 = (reported message words answer).2.
Proof.
  intros answer response Hh Hc Hr He Hin. unfold remote_status, ping.
  match goal with |- context [request _ _ ?x] => change x with (rm_client st) end.
  destruct (request_answered MessageType.Ping (ByteWriter.u64 1) (rm_client st) response rest Hc Hr Hin) as (cl & -> & _).
  subst response. rewrite response_opened by done. split; [|done]. unfold preamble. rewrite decide_True by done.
  transitivity (((((rm_printed st ++ [c_str ("build=" +:+ build)])
    ++ [c_str ("epoch=" +:+ id_to_string (hr_epoch (cl_session (rm_client st))))])
    ++ [c_str ("session=" +:+ uuid_to_string (hr_session (cl_session (rm_client st))))])
    ++ [c_str ("participant=" +:+ id_to_string (hr_participant (cl_session (rm_client st))))])
    ++ [c_str (if hr_observer (cl_session (rm_client st)) then "mode=observer" else "mode=participant")] ++ [c_str "ping=ok"]).
  { by rewrite app_assoc. }
  by rewrite <-!app_assoc.
Qed.

(** C36: a command of the inspection program is the operation it names.  At a
    coordinator that serves its session and with whose numbers and epoch the
    client is in step, over a connection that takes what is sent, for arguments
    whose texts have at most 4096 bytes and whose lengths are at most 2^40
    ([modest]), and for a session that is an observer only for a command that
    may run as one: the request of a command is dispatched and carries out on
    the engine exactly the operation the arguments describe, or nothing when
    the command only looks.  A participant's operation is in the name of the
    session and in the current epoch; [invalidate] names no participant and no
    boot; the operator's commands carry at most the epoch.  When the answer
    arrives, the program prints the answer's text, or the refusal, and exits
    accordingly; [status], whose ping such a coordinator always accepts, prints
    its five lines and that the ping is ok. *)
Theorem remote_commands_are_operations fresh a st conn c session shut f asked :
  co_threads c !! conn = Some (mkThread Serving session shut) → in_step (rm_client st) session →
  hr_epoch (cl_session (rm_client st)) = epoch (co_engine c) → fits_id (epoch (co_engine c)) → fits_id fresh → modest a →
  (ss_observer session = true → runs_as_observer a = true) →
  remote_command build says fresh (epoch (co_engine c)) a = Some f →
  remote_meaning fresh (epoch (co_engine c)) session a = Some asked →
  connected (cl_socket (rm_client st)) →
  ∃ type body c' answer,
    so_out (cl_socket (rm_client (run_remote build says fresh a st).1)) =
      so_out (cl_socket (rm_client st)) ++ encode_frame (next_header type (rm_client st)) body ∧
    serve_frame build conn (success (mkFrame (next_header type (rm_client st)) body)) StatusCode.Ok c = (c', Some answer) ∧
    co_engine c' = carried_out asked (co_engine c) ∧
    ∀ message detail words rest,
      let response := response_frame (hr_session (cl_session (rm_client st))) (epoch (co_engine c'))
        (cl_next_correlation (rm_client st)) message detail words answer in
      fits_frame (cl_frames (rm_client st)) response →
      fits_response_envelope default_decode_limits (mkResponseEnvelope answer.1 message detail) →
      (answer.1 = StatusCode.Ok → fits_reply words answer.2) →
      concat (pieces (so_in (cl_socket (rm_client st)))) = encode_frame (f_header response) (f_body response) ++ rest →
      let r := run_remote build says fresh a st in
      rm_printed r.1 = rm_printed st ++ preamble build a st ++ (reported message words answer).1 ∧
      r.2 = (reported message words answer).2.
Proof.
  intros Ht Hi He Hep Hfresh Ha Ho Hf Hm Hc. unfold run_remote. rewrite He, Hf.
  pose (update := λ s : Session, remember (co_correlation_window (co_options c)) (cl_next_correlation (rm_client st))
    (s <| ss_last_sequence := cl_next_sequence (rm_client st) |>)).
  destruct (decide (head (ar_positional a) = Some "status")) as [Hst|Hst].
  { assert (f = remote_status build says ∧ asked = Looks) as [-> ->].
    { unfold remote_command, remote_meaning in Hf, Hm. destruct (ar_positional a) as [|group rest]; [done|]. injection Hst as ->.
      unfold remote_plain in Hf. unfold plain_meaning in Hm. rewrite decide_True in Hf by done. rewrite decide_True in Hm by done.
      by injection Hf as <-; injection Hm as <-. }
    pose proof (in_step_served build conn c (rm_client st) session shut MessageType.Ping (ByteWriter.u64 1) Ht Hi He ltac:(done)) as Hserve.
    cbv zeta in Hserve. rewrite status_pings in Hserve by exact Hep.
    eexists MessageType.Ping, (ByteWriter.u64 1), _, _. split; [|split; [exact Hserve|split; [done|]]].
    - rewrite status_client. exact (request_written _ _ _ Hc).
    - intros message detail words rest Hr Henv _ Hin. exact (answered_status a st _ _ message detail words _ _ _ rest Hst Hc Hr Henv Hin). }
  destruct (command_understood fresh (update session) (alter_session update conn c) a Ha Hfresh Hep f asked Hst Ho Hf Hm)
    as (type & body & present & Hty & Hask & Heng & Hp).
  pose proof (in_step_served build conn c (rm_client st) session shut type body Ht Hi He Hty) as Hserve. cbv zeta in Hserve.
  fold update in Hserve. destruct (dispatch build (update session) type body (alter_session update conn c)) as [c' answer].
  exists type, body, c', answer. split; [|split; [exact Hserve|split; [exact Heng|]]].
  - rewrite (asked_client f type body present st Hask). exact (request_written type body _ Hc).
  - intros message detail words rest Hr Henv Hw Hin. unfold preamble. rewrite decide_False by done.
    exact (answered_command f type body present st _ _ message detail words answer rest Hask Hp Hc Hr Henv Hw Hin).
Qed.
End served.
