(* ===== verification/RemoteRuns.v ===== *)
(** * The inspection program at a running coordinator

    Runs of the remote mode: the witnesses of its theorems, and behaviours that
    are not what the usage text promises. *)
From Stdlib Require Import Strings.Byte Strings.Ascii Strings.String.
From S2P Require Import Prelude Ids Enums Status Bytes Policy Evidence Model Decisions Persistence.
From S2P Require Import Serialize Codec Messages Checksum Framing Protocol Wire Transport Text Client.
From S2P Require Import Engine Resolve Core Registry Read Write Invalidate Publish Sync Recovery.
From S2P Require Import Auditor Coordinator Render Programs Inspector Remote Steps System Scenario Sessions SessionRuns.
From S2P Require Import Conversation RemoteFacts RemoteCommands.
#[local] Open Scope string_scope.
#[local] Open Scope list_scope.

(** ** One run is one incarnation *)

Section strangers.
Context {St : Type} `{DurableStore St}.
Implicit Types s : Impl St.

(** A boot no record names. *)
Record stranger (boot : ParticipantBootId) s : Prop := {
  stranger_writes : map_Forall (λ _ o, o_writer_boot o ≠ boot) (objects s);
  stranger_holds : map_Forall (λ _ r, r_boot r ≠ boot) (regions s);
  stranger_moves : map_Forall (λ _ y, y_destination_boot y ≠ boot) (syncs s) }.

Lemma stranger_cannot_modify boot s r :
  stranger boot s → ac_boot (dr_context r) = boot → ∃ e, (mark_dirty r s).2 = failure e.
Proof.
  intros Hs Hb. unfold mark_dirty. destruct (make_context _ _ _ _ _) as [context s1].
  destruct (resolve_locked (dr_context r) s) as [[o p]|e] eqn:Er; [|by eexists].
  apply resolve_locked_success in Er. pose proof (stranger_writes _ _ Hs _ _ (res_object _ _ _ _ Er)) as Hw. cbn in Hw.
  assert (ok (dirty_object_guard r o) = false) as ->; [|by eexists].
  unfold dirty_object_guard. repeat case_decide; try done. naive_solver congruence.
Qed.

Lemma stranger_cannot_revalidate boot s r :
  stranger boot s → ac_boot (rv_context r) = boot → ∃ e, (revalidate_region r s).2 = failure e.
Proof.
  intros Hs Hb. unfold revalidate_region.
  destruct (resolve_locked (rv_context r) s) as [[o p]|e]; [|by eexists].
  destruct (resolve_region_locked _ _ _ _) as [x|e] eqn:Ex; [|by eexists]. apply resolve_region_success in Ex.
  pose proof (stranger_holds _ _ Hs _ _ (rres_region _ _ _ _ _ Ex)) as Hw. cbn in Hw.
  assert (ok (revalidate_guard r o x s) = false) as ->; [|by eexists].
  unfold revalidate_guard. rewrite decide_True by (right; congruence). done.
Qed.

Lemma stranger_cannot_publish boot s r :
  stranger boot s → ac_boot (pb_context r) = boot →
  map_Forall (λ _ o, completed_request (ac_request (pb_context r)) o = None) (objects s) →
  match (publish r s).2 with success receipt => pr_state receipt = PublicationState.None | failure _ => True end.
Proof.
  intros Hs Hb Hnew. unfold publish, publish_reserve. destruct (make_context _ _ _ _ _) as [context s1].
  destruct (resolve_locked (pb_context r) s) as [[o p]|e] eqn:Er; [|done]. apply resolve_locked_success in Er.
  destruct (policy_locked o s1) as [policy|]; [|done]. rewrite (Hnew _ _ (res_object _ _ _ _ Er)).
  pose proof (stranger_writes _ _ Hs _ _ (res_object _ _ _ _ Er)) as Hw. cbn in Hw.
  assert (ok (publish_object_guard r policy o s1) = false) as ->; [|done].
  unfold publish_object_guard. case_decide; [by case_decide|]. rewrite decide_True by (right; congruence). done.
Qed.

Lemma stranger_cannot_complete boot s r :
  stranger boot s → ac_boot (sc_context r) = boot →
  match (complete_sync r s).2 with success outcome => so_idempotent_replay outcome = true | failure _ => True end.
Proof.
  intros Hs Hb. unfold complete_sync. destruct (syncs s !! sc_operation r) as [y|] eqn:Ey; [|done].
  pose proof (stranger_moves _ _ Hs _ _ Ey) as Hw. cbn in Hw. destruct (make_context _ _ _ _ _) as [context s1].
  destruct (resolve_locked (sc_context r) s) as [[o p]|e]; [|done]. case_decide; [done|]. case_decide; [done|].
  assert (ok (completion_guard r y) = false) as ->; [|done].
  unfold completion_guard. repeat case_decide; try done. congruence.
Qed.

(** The program draws a boot for every run and sends one request in it, so its
    request is always a stranger's: [mark-dirty], [publish], [revalidate] and
    [sync-complete] are offered in the remote mode and are refused every time,
    whatever was done in earlier runs under the same name. *)
Theorem remote_runs_cannot_write boot s fresh ep a session :
  ss_boot session = boot → stranger boot s →
  map_Forall (λ _ o, completed_request fresh o = None) (objects s) →
  (∃ e, (mark_dirty (remote_dirty_request fresh ep a <| dr_context ::= speak session ep |>) s).2 = failure e) ∧
  (∃ e, (revalidate_region (remote_revalidate_request fresh ep a <| rv_context ::= speak session ep |>) s).2 = failure e) ∧
  (∀ receipt, (publish (remote_publish_request fresh ep a <| pb_context ::= speak session ep |>) s).2 = success receipt →
     pr_state receipt = PublicationState.None) ∧
  (∀ outcome, (complete_sync (remote_sync_complete fresh ep a <| sc_context ::= speak session ep |>) s).2 = success outcome →
     so_idempotent_replay outcome = true).
Proof.
  intros Hb Hs Hnew. split_and!.
  - by apply (stranger_cannot_modify boot).
  - by apply (stranger_cannot_revalidate boot).
  - intros receipt E. pose proof (stranger_cannot_publish boot s
      (remote_publish_request fresh ep a <| pb_context ::= speak session ep |>) Hs Hb Hnew) as Hp. by rewrite E in Hp.
  - intros outcome E. pose proof (stranger_cannot_complete boot s
      (remote_sync_complete fresh ep a <| sc_context ::= speak session ep |>) Hs Hb) as Hp. by rewrite E in Hp.
Qed.
End strangers.

(** ** A run *)

(** [object create --domain 1 --name pixels --length 64], asked over alpha's connection. *)
Definition create_args : Args := parse_arguments
  ["object"; "create"; "--coordinator"; "127.0.0.1:7400"; "--domain"; "1"; "--name"; "pixels"; "--length"; "64"] (mkArgs [] ∅).
Definition silent (code : StatusCode.t) : string := "".
Definition request_1 : RequestId := from_value 77.
Definition create_body : list byte :=
  encode_register_object (id_of "domain" create_args, get_flag "name" "object" create_args, number "length" 0 create_args, build_policy create_args).
Definition created : Answer := default (StatusCode.InternalError, NoReply)
  (serve_frame "build" 1 (success (mkFrame (next_header MessageType.RegisterObject (cl_alpha [])) create_body)) StatusCode.Ok co_alpha).2.
Definition created_frame : Frame := response_frame (sid_of 1) ep1 2 "ok" "" "" created.
Definition remote_alpha : Remote :=
  mkRemote (cl_alpha (encode_frame (f_header created_frame) (f_body created_frame))) boot_a [].

(** The program prints the object the coordinator registered. *)
Example create_prints :
  (run_remote "build" silent request_1 create_args remote_alpha).2 = 0%N ∧
  head (rm_printed (run_remote "build" silent request_1 create_args remote_alpha).1) =
    Some "object id=1 generation=1 domain=1 name=pixels length=64".
Proof. split; by vm_compute. Qed.

Lemma create_words : ar_positional create_args = ["object"; "create"]. Proof. by vm_compute. Qed.
Definition create_asked : Asked := Does (OpRegisterObject (id_of "domain" create_args) (get_flag "name" "object" create_args)
  (number "length" 0 create_args) (build_policy create_args)).

Lemma remote_commands_are_operations_witness :
  ∃ c' : Coordinator ListStore, co_engine c' = carried_out create_asked (co_engine co_alpha).
Proof.
  destruct (remote_commands_are_operations "build" silent request_1 create_args remote_alpha 1 co_alpha alpha_session false
    (exchange_record silent MessageType.RegisterObject create_body (decode_object default_decode_limits) render_object)
    create_asked) as (type & body & c' & answer & _ & _ & Hc & _).
  - by vm_compute.
  - split; [done|]. split; [done|]. intros x Hx. exfalso. revert Hx. apply not_elem_of_empty.
  - by vm_compute.
  - by vm_compute.
  - done.
  - refine (bool_decide_unpack _ _). by vm_compute.
  - done.
  - unfold remote_command. rewrite create_words. reflexivity.
  - unfold remote_meaning. rewrite create_words. reflexivity.
  - by split_and!; [..|repeat constructor].
  - exact (ex_intro _ c' Hc).
Defined.

(** ** Not what the usage text says *)

(** [domain show] asks for a snapshot without its options: every coordinator
    answers that the request is truncated. *)
Theorem domain_show_is_refused {St} `{DurableStore St} build session (c : Coordinator St) fresh ep a says rest :
  ar_positional a = "domain" :: "show" :: rest →
  remote_command build says fresh ep a = Some (exchange_text says MessageType.Snapshot []) ∧
  dispatch build session MessageType.Snapshot [] c = (c, (StatusCode.TruncatedInput, NoReply)).
Proof.
  intros Hp. split; [unfold remote_command; by rewrite Hp|]. unfold dispatch. by rewrite andb_false_r.
Qed.

(** The name of the object a command creates is also the name the program
    announces itself with: an object with the name of a live participant has
    that participant fenced and its connection shut. *)
Definition rogue_args : Args := parse_arguments
  ["object"; "create"; "--coordinator"; "127.0.0.1:7400"; "--domain"; "1"; "--name"; "alpha"; "--length"; "64"] (mkArgs [] ∅).
Definition rogue_hello : HelloRequest :=
  client_hello "build" (default_ControlClient <| cl_options := remote_options boot_b rogue_args |>).

Example object_names_fence_participants :
  let c := knock 2 rogue_hello co_write in
  (p_lifecycle <$> participants (co_engine co_write) !! (from_value 1 : ParticipantId)) = Some ParticipantLifecycle.Active ∧
  (p_lifecycle <$> participants (co_engine c) !! (from_value 1 : ParticipantId)) = Some ParticipantLifecycle.Fenced ∧
  (o_authority <$> objects (co_engine co_write) !! obj) = Some AuthorityMode.ExclusiveWriter ∧
  (o_authority <$> objects (co_engine c) !! obj) = Some AuthorityMode.None ∧
  (th_shut <$> co_threads c !! 1%N) = Some true.
Proof. split_and!; by vm_compute. Qed.

(** [ack-invalidation] and [participant register] are offered, registered for,
    and not there. *)
Example missing_commands build says fresh ep a :
  ar_positional a = ["ack-invalidation"] ∨ ar_positional a = ["participant"; "register"] ∨ ar_positional a = ["policy"; "show"] →
  remote_command build says fresh ep a = None.
Proof. unfold remote_command. by intros [-> |[-> | ->]]. Qed.

(** A denied read or write exits with zero in the remote mode, with three in the embedded one. *)
Example denials_exit_with_zero (d : ReadDecision) (g : WriteGrant) words :
  exit_code words (ReplyRead d) = 0%N ∧ exit_code words (ReplyWrite g) = 0%N ∧
  read_code (d <| rd_outcome := ReadOutcome.ReadBlocked |>) = 3%N.
Proof. done. Qed.

(** The answer to a ping is not looked at. *)
Example refused_pings_are_ok :
  let refusal := response_frame (sid_of 1) ep1 2 "stale" "" "" (StatusCode.StaleEpoch, NoReply) in
  let st := mkRemote (cl_alpha (encode_frame (f_header refusal) (f_body refusal))) boot_a [] in
  last (rm_printed (remote_status "build" silent st).1) = Some "ping=ok" ∧ (remote_status "build" silent st).2 = 0%N.
Proof. split; by vm_compute. Qed.
