(* ===== verification/ProgramRuns.v ===== *)
(** * Runs of the programs

    The participant program run against the coordinator of [SessionRuns.v], and
    the inspection program run on an engine of its own: their engine goes through
    the steps of [System.v], so everything proved of the engine holds of it. *)
From Stdlib Require Import Strings.Byte Strings.Ascii Strings.String.
From S2P Require Import Prelude Ids Enums Status Bytes Policy Evidence Model Decisions Persistence.
From S2P Require Import Serialize Random Regions Protocol Transport Text Client.
From S2P Require Import Engine Resolve Core Registry Read Write Invalidate Publish Sync Recovery Auditor.
From S2P Require Import Coordinator Render Agent AgentSafety AgentLife Programs Inspector Demo.
From S2P Require Import System Scenario Sessions SessionRuns AgentBytes AgentRuns ProgramFacts.
#[local] Open Scope string_scope.
#[local] Open Scope list_scope.

(** ** The participant program *)

Definition alpha_args : list string :=
  ["--name"; "alpha"; "--boot"; "00000000000000000000000000000001"; "--node"; "node"; "--domain"; "other"; "--object"; "table";
   "--object-length"; "64"; "--region"; "data:host_pageable:4:8:7"; "--stage"; "stage:16:create"; "--coordinator"; "127.0.0.1:4100"].
(** The coordinator answers as it answered alpha, and then closes the connection. *)
Definition alpha_world : AgentProgram.World :=
  AgentProgram.mkWorld (λ _, None) "" (mkUrandom false []) (λ _ _, success (wired (inputs_of alpha_joined))) host_a "build" "" StatusCode.Ok.

Lemma alpha_fits l o endpoint :
  AgentProgram.parse_arguments (AgentProgram.w_files alpha_world) alpha_args (start_locals (AgentProgram.w_stdin alpha_world)) = Continue l →
  AgentProgram.resolve alpha_world l = Continue (o, endpoint) → machine_fits o (AgentProgram.w_host alpha_world).
Proof.
  intros Ep Er. vm_compute in Ep. injection Ep as <-. vm_compute in Er. injection Er as <- _.
  destruct can_start_a as [_ _ H1 H2 H3 H4]. by split.
Qed.
Example alpha_prints :
  (λ oc, (AgentProgram.oc_end oc, AgentProgram.oc_lines oc)) <$> AgentProgram.main alpha_world alpha_args =
    Some (AgentProgram.Exited 0, ["joined=1 participant=1 object=1 regions=data:101"; "left=1"]).
Proof. by vm_compute. Qed.
(** When the coordinator closes the connection before alpha says goodbye, the
    goodbye ends the process: after six frames the seventh write finds the
    connection closed. *)
Definition broken_after : nat := 6.
Definition broken_world : AgentProgram.World :=
  AgentProgram.mkWorld (λ _, None) "" (mkUrandom false [])
    (λ _ _, success (wired (inputs_of alpha_joined) <| so_sends := replicate broken_after (Some 4096) ++ [None] |>))
    host_a "build" "" StatusCode.Ok.
Example broken_pipe_ends_alpha :
  (λ oc, AgentProgram.oc_end oc) <$> AgentProgram.main broken_world alpha_args = Some AgentProgram.Signalled.
Proof. by vm_compute. Qed.
(** Without a random source no boot identity is made up. *)
Example no_boot_no_agent :
  (λ oc, (AgentProgram.oc_end oc, AgentProgram.oc_process oc)) <$> AgentProgram.main alpha_world ["--coordinator"; "host:1"] =
    Some (AgentProgram.Exited 1, None).
Proof. by vm_compute. Qed.

(** ** The inspection program *)

Section inspector.
Context {St : Type} `{DurableStore St} (build : string).
Notation Em := (Embedded St).
Implicit Types e : Em.

(** What a command does to the engine is a run of it. *)
Definition engine_runs (P : DurableImage → Prop) e (r : Em * N) : Prop := runs P (em_engine e) (em_engine r.1).

Lemma runs_trans P (s1 s2 s3 : Impl St) : runs P s1 s2 → runs P s2 s3 → runs P s1 s3.
Proof. intros H1 H2 fs. etrans; [apply H1|apply H2]. Qed.
Lemma runs_publish P request (s : Impl St) : runs P s (publish request s).1.
Proof. intros fs. apply publish_reachable, rtc_refl. Qed.
Lemma same_engine P e code : engine_runs P e (e, code).
Proof. apply runs_same. Qed.

(** An answer of the engine. *)
Lemma answer_runs {A} P (code : A → N) r e : runs P (em_engine e) r.1 → engine_runs P e (answer code r e).
Proof. done. Qed.
Lemma status_runs P r e : runs P (em_engine e) r.1 → engine_runs P e (status_answer r e).
Proof. done. Qed.
(** A call of one operation. *)
Lemma called P o e s : s = exec o (em_engine e) → runs P (em_engine e) s.
Proof. apply runs_op. Qed.
Ltac call o := eapply (called _ o); reflexivity.

Lemma domain_create_runs P name e : runs P (em_engine e) (em_engine (domain_create name e).1).
Proof.
  unfold domain_create. destruct (create_domain name (em_engine e)) as [s r] eqn:E.
  assert (runs P (em_engine e) s) by (apply (runs_op _ (OpCreateDomain name)); cbn [exec]; by rewrite E). by destruct r.
Qed.
Lemma object_create_runs P a e : engine_runs P e (object_create a e).
Proof.
  unfold object_create. assert (runs P (em_engine e) (em_engine (choose_domain a e).1)) as Hc.
  { unfold choose_domain. destruct (defined _); [apply runs_same|]. destruct (defined _); [apply runs_same|apply domain_create_runs]. }
  destruct (choose_domain a e) as [e1 [d|c]]; cbn [fst] in Hc; [|exact Hc]. eapply runs_trans; [exact Hc|].
  apply answer_runs. call (OpRegisterObject d (get_flag "name" "object" a) (number "length" 0 a) (build_policy a)).
Qed.
Lemma region_register_runs P dw a e : engine_runs P e (region_register dw a e).
Proof.
  unfold region_register. destruct (get_object _ _) as [record|]; [|apply same_engine]. 
  set (domain := match ar_flags a !! "memory-domain" with Some _ => _ | None => _ end). destruct domain as [t|]; [|apply same_engine].
  assert (em_engine (add_local dw a t e).1 = em_engine e) as E by (unfold add_local; by destruct (if decide _ then _ else _)).
  destruct (add_local dw a t e) as [e1 [id|c]]; cbn [fst] in E; unfold engine_runs; rewrite <-E; [|apply runs_same].
  destruct (find_region id (em_store e1)) as [stored|]; [|apply runs_same]. set (registration := mkRegionRegistration _ _ _ _ _ _ _ _ _ _ _ _ _).
  destruct (register_region registration (em_engine e1)) as [s r] eqn:Er.
  assert (runs P (em_engine e1) s) by (apply (runs_op _ (OpRegisterRegion registration)); cbn [exec]; by rewrite Er). by destruct r.
Qed.
Lemma acquire_runs P dw verb a e : engine_runs P e (acquire dw verb a e).
Proof.
  unfold acquire. case_decide; apply answer_runs.
  - eapply (runs_op _ (OpAcquireRead _)). reflexivity.
  - eapply (runs_op _ (OpAcquireWrite _)). reflexivity.
Qed.
Lemma plain_command_runs P dw group a e r : plain_command dw group a e = Some r → engine_runs P e r.
Proof.
  unfold plain_command.
  repeat (case_decide; [intros [= <-]; try apply same_engine; try (apply answer_runs)|]); [..|done].
  - eapply (runs_op _ (OpMarkDirty _)). reflexivity.
  - eapply (runs_op _ (OpRevalidate _)). reflexivity.
  - apply runs_publish.
  - unfold cli_invalidate. destruct (get_object _ _); apply answer_runs; eapply (runs_op _ (OpInvalidate _)); reflexivity.
  - eapply (runs_op _ (OpAcknowledge _)). reflexivity.
  - eapply (runs_op _ (OpBeginSync _)). reflexivity.
  - eapply (runs_op _ (OpCompleteSync _)). reflexivity.
  - eapply (runs_op _ (OpRelease _)). reflexivity.
Qed.
Lemma object_command_runs P verb a e r : object_command verb a e = Some r → engine_runs P e r.
Proof.
  unfold object_command. case_decide; [intros [= <-]; apply object_create_runs|]. case_decide; [intros [= <-]; apply same_engine|].
  case_decide; [|case_decide; [intros [= <-]; apply status_runs; eapply (runs_op _ (OpRetireObject _ _ _)); reflexivity|done]].
  intros [= <-]. destruct (get_object _ _) as [o|]; [|apply same_engine]. apply answer_runs.
  eapply (runs_op _ (OpResolveRecovery _ _ _ _)). reflexivity.
Qed.
Lemma verb_command_runs P dw group verb a e r : verb_command dw group verb a e = Some r → engine_runs P e r.
Proof.
  unfold verb_command. case_decide.
  { case_decide; [|case_decide; [intros [= <-]; apply same_engine|done]]. pose proof (domain_create_runs P (get_flag "name" "default" a) e) as Hd.
    destruct (domain_create _ e) as [e1 created]. intros [= <-]. exact Hd. }
  case_decide; [apply object_command_runs|]. case_decide; [intros [= <-]; apply same_engine|].
  case_decide.
  { unfold region_command. case_decide; [intros [= <-]; apply region_register_runs|]. case_decide; [intros [= <-]; apply same_engine|].
    case_decide; [|done]. intros [= <-]. apply status_runs. eapply (runs_op _ (OpRetireRegion _ _ _)). reflexivity. }
  case_decide; [intros [= <-]; apply acquire_runs|]. case_decide; [|done]. unfold participant_command.
  case_decide; [intros [= <-]; apply answer_runs; eapply (runs_op _ (OpRegisterParticipant _ _ _ _)); reflexivity|].
  case_decide; [intros [= <-]; apply same_engine|]. case_decide; [|done]. intros [= <-]. apply answer_runs.
  eapply (runs_op _ (OpFenceParticipant _ _ _)). reflexivity.
Qed.

(** *** The demonstration *)

(** An action of the demonstration changes the engine only by its operations. *)
Definition walks {A} P (m : demo St A) : Prop :=
  ∀ d d' a, m d = Some (d', a) → runs P (em_engine (dm_state d)) (em_engine (dm_state d')).

Lemma walks_ret {A} P (a : A) : walks P (demo_ret a).
Proof. intros d d' a' [= <- _]. apply runs_same. Qed.
Lemma walks_bind {A B} P (m : demo St A) (k : A → demo St B) : walks P m → (∀ a, walks P (k a)) → walks P (demo_bind m k).
Proof.
  intros Hm Hk d d' b. unfold demo_bind. destruct (m d) as [[d1 a]|] eqn:E; [|done]. intros Ek.
  eapply runs_trans; [exact (Hm _ _ _ E)|exact (Hk a _ _ _ Ek)].
Qed.
Lemma walks_engine {A} P (f : Impl St → Impl St * A) : (∀ s, runs P s (f s).1) → walks P (on_engine f).
Proof.
  intros Hf d d' a. unfold on_engine. pose proof (Hf (em_engine (dm_state d))) as Hr.
  destruct (f (em_engine (dm_state d))) as [s x]. by intros [= <- _].
Qed.
Lemma walks_op {A} P (f : Impl St → Impl St * A) (o : op) : (∀ s, (f s).1 = exec o s) → walks P (on_engine f).
Proof. intros Hf. apply walks_engine. intros s. by apply (runs_op _ o). Qed.
Lemma walks_ask {A} P (f : Impl St → A) : walks P (ask_engine f).
Proof. intros d d' a [= <- _]. apply runs_same. Qed.
Lemma walks_value {A} P (r : result A) : walks P (value_of (St := St) r).
Proof. intros d d' a. unfold value_of. destruct r; [|done]. intros [= <- _]. apply runs_same. Qed.
Lemma walks_at P id : walks P (at_region (St := St) id).
Proof. intros d d' a. unfold at_region. destruct (find_region _ _); [|done]. intros [= <- _]. apply runs_same. Qed.
Lemma walks_bytes P id : walks P (demo_content (St := St) id).
Proof. apply walks_bind; [apply walks_at|intros stored; apply walks_ret]. Qed.
Lemma walks_regions P f : walks P (on_regions (St := St) f).
Proof. intros d d' a. unfold on_regions. destruct (f _ _) as [[[sm rs] status]|]; [|done]. intros [= <- _]. apply runs_same. Qed.
Lemma walks_check P name b : walks P (demo_check (St := St) name b).
Proof. intros d d' a [= <- _]. apply runs_same. Qed.
Lemma walks_alter P f : (∀ e, em_engine (f e) = em_engine e) → walks P (alter_state (St := St) f).
Proof. intros Hf d d' a [= <- _]. change (runs P (em_engine (dm_state d)) (em_engine (f (dm_state d)))). rewrite Hf. apply runs_same. Qed.
Lemma walks_authority P object : walks P (authority (St := St) object).
Proof. intros d d' a [= <- _]. apply runs_same. Qed.
Lemma walks_buffer P name len domain : walks P (add_buffer (St := St) name len domain).
Proof. intros d d' a. unfold add_buffer. destruct (if decide _ then _ else _) as [rs created]. intros [= <- _]. apply runs_same. Qed.

#[local] Create HintDb walking.
#[local] Hint Resolve walks_ret walks_ask walks_value walks_at walks_bytes walks_regions walks_check walks_authority walks_buffer : walking.
#[local] Hint Extern 1 (walks _ (alter_state _)) => by apply walks_alter : walking.

#[local] Tactic Notation "step" uconstr(o) := eapply (walks_op _ _ o); reflexivity.
(** Every action of a function of the demonstration, one after the other; [tac] is for its calls of the engine. *)
#[local] Ltac walk tac := repeat lazymatch goal with
  | |- walks _ (demo_bind _ _) => apply walks_bind; [|intros ?]
  | |- walks _ (match ?x with _ => _ end) => destruct x
  | |- walks _ (on_engine _) => tac
  | |- walks _ _ => solve [auto with walking]
  end.

Lemma walks_register P object name len domain class initial : walks P (demo_register_region object name len domain class initial).
Proof. unfold demo_register_region. walk ltac:(step (OpRegisterRegion _)). Qed.
Lemma walks_generation P region : walks P (demo_generation (St := St) region).
Proof. unfold demo_generation. walk idtac. Qed.
#[local] Hint Resolve walks_register walks_generation : walking.
Lemma walks_grant P object region : walks P (demo_grant_write object region).
Proof. unfold demo_grant_write. walk ltac:(step (OpAcquireWrite _)). Qed.
Lemma walks_release P object ownership : walks P (demo_release_write object ownership).
Proof. unfold demo_release_write. walk ltac:(step (OpRelease _)). Qed.
Lemma walks_read P object region : walks P (demo_read object region).
Proof. unfold demo_read. walk ltac:(step (OpAcquireRead _)). Qed.
Lemma walks_publish P object region ownership base initial : walks P (demo_publish object region ownership base initial).
Proof. unfold demo_publish. walk ltac:(apply walks_engine; intros s; apply runs_publish). Qed.
Lemma walks_revalidate P object region generation version : walks P (demo_revalidate object region generation version).
Proof. unfold demo_revalidate. walk ltac:(step (OpRevalidate _)). Qed.
Lemma walks_acknowledge P object id target : walks P (demo_acknowledge object id target).
Proof. unfold demo_acknowledge. walk ltac:(step (OpAcknowledge _)). Qed.
#[local] Hint Resolve walks_grant walks_release walks_read walks_publish walks_revalidate walks_acknowledge : walking.

Lemma walks_replicas P object : walks P (demo_replicas object).
Proof. unfold demo_replicas. cbv zeta. walk idtac. Qed.
Lemma walks_first P object a generation : walks P (demo_first_version object a generation).
Proof. unfold demo_first_version. walk idtac. Qed.
Lemma walks_plan P object a b : walks P (demo_plan object a b).
Proof. unfold demo_plan. walk ltac:(step (OpBeginSync _)). Qed.
#[local] Hint Resolve walks_plan : walking.
Lemma walks_synchronize P object a b version : walks P (demo_synchronize object a b version).
Proof. unfold demo_synchronize. walk ltac:(step (OpCompleteSync _)). Qed.
Lemma walks_transfer P object a b first version : walks P (demo_transfer build object a b first version).
Proof. unfold demo_transfer, demo_target. cbv zeta. walk idtac. Qed.
Lemma walks_second P object a b second version : walks P (demo_second_version object a b second version).
Proof. unfold demo_second_version. walk ltac:(step (OpMarkDirty _)). Qed.
Lemma walks_synthetic P object synthetic version : walks P (demo_synthetic object synthetic version).
Proof. unfold demo_synthetic. walk idtac. Qed.
Lemma walks_all P object required : walks P (demo_acknowledge_all object required).
Proof. induction required as [|i rest IH]; cbn [demo_acknowledge_all]; walk idtac. Qed.
#[local] Hint Resolve walks_all : walking.
Lemma walks_final P object b version : walks P (demo_release object b version).
Proof. unfold demo_release, demo_reacquire, demo_stale. cbv zeta. walk ltac:(step (OpMarkDirty _)). Qed.
#[local] Hint Resolve walks_replicas walks_first walks_synchronize walks_transfer walks_second walks_synthetic walks_final : walking.
Lemma walks_lifecycle P object : walks P (demo_lifecycle build object).
Proof.
  unfold demo_lifecycle. walk idtac. intros d d' code [= <- _]. apply runs_same.
Qed.
Lemma walks_demo P : walks P (run_demo build).
Proof.
  unfold run_demo. apply walks_bind; [step (OpCreateDomain "demo")|intros domain]. walk ltac:(step (OpRegisterObject _ _ _ _)).
  apply walks_lifecycle.
Qed.

Lemma run_embedded_runs P dw requests addresses a e r : run_embedded build dw requests addresses a e = Some r → engine_runs P e r.
Proof.
  unfold run_embedded. destruct (ar_positional a) as [|group rest]; [intros [= <-]; apply same_engine|]. case_decide.
  { destruct (run_demo build _) as [[d code]|] eqn:Ed; [|done]. intros [= <-]. exact (walks_demo P _ _ _ Ed). }
  destruct (plain_command dw group a e) eqn:Ep; [intros [= <-]; by eapply plain_command_runs|].
  destruct (verb_command dw group _ a e) eqn:Ev; [intros [= <-]; by eapply verb_command_runs|]. intros [= <-]. apply same_engine.
Qed.
Lemma initialise_reachable P dw open a s r :
  initialise_embedded build dw open a = (s, r) →
  (∀ directory st' load image, ar_flags a !! "state" = Some directory → ds_open (open directory) = (st', success (load, image)) → P image) →
  reachable P (mkSys s []) ∧ match r with Some e => em_engine e = s | None => True end.
Proof.
  intros E HP. unfold initialise_embedded in E. destruct (attach_state open a _) as [s0 attached] eqn:Ea.
  assert (reachable P (mkSys s0 [])) as [cfg Hr].
  { exists default_EngineConfig. unfold attach_state in Ea. destruct (ar_flags a !! "state") as [directory|] eqn:Ef; [|injection Ea as <- _; apply rtc_refl].
    destruct (attach_store (open directory) _) as [s1 recovered] eqn:Es. injection Ea as <- _. apply rtc_once.
    eapply step_attach; [|exact Es]. intros st' load image. by apply HP. }
  destruct attached as [durable|]; [|injection E as <- <-; split; [by exists cfg|done]].
  destruct (register_participant _ _ _ _ s0) as [s1 registered] eqn:Ep.
  assert (reachable P (mkSys s1 [])) as Hr1.
  { exists cfg. eapply rtc_r; [exact Hr|]. pose proof (step_op P s0 [] (OpRegisterParticipant "cli" (dw_boot dw) (epoch s0) "cli")) as Hs.
    cbn [exec] in Hs. by rewrite Ep in Hs. }
  destruct registered; injection E as <- <-; by split.
Qed.

(** The inspection program only drives the engine: where its run is defined,
    the engine of the embedded mode has gone through steps of the engine only,
    from a fresh one or the store of [--state], so everything that holds of
    reachable states holds of it.  That it takes the right steps is not said
    here. *)
Lemma embedded_program_refines_engine P dw requests addresses open a s code :
  embedded_main build dw requests addresses open a = Some (s, code) →
  (∀ directory st' load image, ar_flags a !! "state" = Some directory → ds_open (open directory) = (st', success (load, image)) → P image) →
  reachable P (mkSys s []).
Proof.
  intros E HP. unfold embedded_main in E. destruct (initialise_embedded build dw open a) as [s0 r] eqn:Ei.
  destruct (initialise_reachable P _ _ _ _ _ Ei HP) as [[cfg Hr] He]. destruct r as [e|]; [|injection E as <- _; by exists cfg].
  destruct (run_embedded build dw requests addresses a e) as [[e1 c]|] eqn:Er; [|done]. cbn in E. injection E as <- _. exists cfg.
  etrans; [exact Hr|]. rewrite <-He. by apply (run_embedded_runs P _ _ _ _ _ _ Er).
Qed.

End inspector.

Definition create_args : Args := parse_arguments ["--state"; "dir"; "object"; "create"; "--name"; "table"; "--length=64"] (mkArgs [] ∅).
Definition draws : Draws := mkDraws boot_a boot_b (from_value 9) 8192.
Definition inspected := Eval vm_compute in embedded_main "build" draws [] [] (λ _, empty_store) create_args.
Lemma embedded_program_refines_engine_witness :
  ∃ s code, embedded_main "build" draws [] [] (λ _, empty_store) create_args = Some (s, code) ∧ code = 0%N ∧
    reachable (λ image, image = default_DurableImage) (mkSys s []).
Proof.
  destruct inspected as [[s code]|] eqn:E; [|discriminate E]. exists s, code.
  assert (embedded_main "build" draws [] [] (λ _, empty_store) create_args = Some (s, code)) as Em by (rewrite <-E; vm_compute; reflexivity).
  split; [exact Em|]. split; [vm_compute in E; by injection E as _ <-|].
  refine (embedded_program_refines_engine "build" _ draws [] [] (λ _, empty_store) create_args s code Em _).
  intros directory st' load image _ Ho. injection Ho as _ _ <-. vm_compute. reflexivity.
Defined.

(** ** The demonstration *)

(** What the process draws, and where its three buffers lie. *)
Definition demo_draws : Draws := mkDraws boot_a boot_b (from_value 1) 4096.
Definition demo_requests : list RequestId := (λ n, from_value (N.of_nat n)) <$> seq 1 40.
Definition demo_args : Args := mkArgs ["demo"] ∅.

Definition demo_outcome : option (Demo ListStore * N) :=
  match initialise_embedded (St := ListStore) "build" demo_draws (λ _, empty_store) demo_args with
  | (_, Some e) => run_demo "build" (mkDemo e [] demo_requests [4096; 8192; 16384]%N)
  | (_, None) => None
  end.

(** The demonstration succeeds: all of its checks hold, the last of which is
    that the audit is clean, and the program exits with zero. *)
Theorem demonstration_succeeds :
  (λ r, (length (dm_report r.1), failures (dm_report r.1), r.2)) <$> demo_outcome = Some (28%nat, 0%nat, 0%N).
Proof. by vm_compute. Qed.

(** ** Unexpected ends *)

(** The state directory after one run of the inspection program is what the next one opens. *)
Definition engine_store (r : option (Impl ListStore * N)) : ListStore :=
  match r with Some (s, _) => default empty_store (store s) | None => empty_store end.
Definition inspect (r : option (Impl ListStore * N)) (args : list string) : option (Impl ListStore * N) :=
  embedded_main "build" draws [] [] (λ _, engine_store r) (parse_arguments args (mkArgs [] ∅)).
Definition region_args (name : string) : list string :=
  ["region"; "register"; "--state"; "dir"; "--object"; "1"; "--length"; "8"; "--name"; name].
(** Every run numbers its buffers from one and asks for that identity, so over one
    state directory only the first region can be registered. *)
Example second_region_is_refused :
  let created := inspect None ["object"; "create"; "--state"; "dir"; "--length"; "64"] in
  let first := inspect created (region_args "a") in
  snd <$> created = Some 0%N ∧ snd <$> first = Some 0%N ∧ snd <$> inspect first (region_args "b") = Some 1%N.
Proof. by vm_compute. Qed.
(** The demonstration does not look at the failure of a registration: over a
    state directory with a region in it, it reads the value of a failed result. *)
Example demonstration_is_undefined_over_a_used_directory :
  let first := inspect (inspect None ["object"; "create"; "--state"; "dir"; "--length"; "64"]) (region_args "a") in
  embedded_main "build" draws ((λ n, from_value (N.of_nat n)) <$> seq 1 40) [4096; 8192; 16384]%N (λ _, engine_store first)
    (parse_arguments ["demo"; "--state"; "dir"] (mkArgs [] ∅)) = None.
Proof. by vm_compute. Qed.
(** The version is only printed when a command is given, and a flag without a
    value takes the command that follows it. *)
Example version_needs_a_command : mode_of (parse_arguments ["--version"] (mkArgs [] ∅)) = ModeUsage 2.
Proof. by vm_compute. Qed.
Example flags_take_commands : mode_of (parse_arguments ["--keep"; "demo"] (mkArgs [] ∅)) = ModeUsage 2.
Proof. by vm_compute. Qed.
(** A port that does not fit is another port. *)
Example ports_wrap : CoordinatorProgram.narrowed 16 "70000" = 4464%N.
Proof. by vm_compute. Qed.
