(* ===== verification/Handlers.v ===== *)
(** * What the other handlers require and establish

    What a participant request must pass to have an effect, modifications under
    write authority, acknowledgements of invalidations and the completion of
    transfers. *)
From S2P Require Import Prelude Ids Enums Status Bytes Policy Evidence Model Decisions Persistence.
From S2P Require Import Engine Resolve Core Registry Read Write Invalidate Publish Sync Recovery.
From S2P Require Import Auditor Frame Evolution Steps System Scenario.

Section handlers.
Context {St : Type} `{DurableStore St}.
Implicit Types s : Impl St.

(** ** Unauthorised requests *)

(** The requests that are validated in full, and the context they carry. *)
Definition request_context (o : op) : option AuthorityContext :=
  match o with
  | OpAcquireRead r | OpExplainRead r => Some (rr_context r)
  | OpAcquireWrite r => Some (wr_context r)
  | OpMarkDirty r => Some (dr_context r)
  | OpAcknowledge a => Some (ia_context a)
  | OpRevalidate r => Some (rv_context r)
  | OpRelease r => Some (rl_context r)
  | OpBeginSync r => Some (sr_context r)
  | OpCompleteSync r => Some (sc_context r)
  | _ => None
  end.

(** Why a context can be refused: the time, the incarnation, the object. *)
Definition untimely (ctx : AuthorityContext) s : Prop := ac_epoch ctx ≠ epoch s ∨ shutting_down s = true.
Definition impostor (barred : ParticipantLifecycle.t → Prop) (ctx : AuthorityContext) s : Prop :=
  ∀ p, participants s !! ac_participant ctx = Some p → p_boot p ≠ ac_boot ctx ∨ barred (p_lifecycle p).
Definition misplaced (closed : ObjectLifecycle.t → Prop) (ctx : AuthorityContext) s : Prop :=
  ∀ o, objects s !! ac_object ctx = Some o → o_generation o ≠ ac_object_generation ctx ∨ closed (o_lifecycle o).

Definition unauthorised (ctx : AuthorityContext) s : Prop :=
  untimely ctx s ∨
  impostor (λ l, l = ParticipantLifecycle.Fenced ∨ l = ParticipantLifecycle.Retired) ctx s ∨
  misplaced (λ l, l = ObjectLifecycle.Retired ∨ l = ObjectLifecycle.RecoveryRequired ∨ l = ObjectLifecycle.Quiescing) ctx s.

(** What the other requests of a participant are refused for.  A registration
    admits retired participants and quiescing objects; an invalidation asks
    nothing of the participant and admits every object that is not retired; the
    report of a failed transfer asks only whether the transfer is the caller's,
    and not for the epoch. *)
Definition refused (o : op) s : Prop :=
  match o with
  | OpRegisterRegion r =>
      untimely (rn_context r) s ∨ impostor (λ l, l = ParticipantLifecycle.Fenced) (rn_context r) s ∨
      misplaced (λ l, l = ObjectLifecycle.Retired ∨ l = ObjectLifecycle.RecoveryRequired) (rn_context r) s
  | OpInvalidate r => untimely (ir_context r) s ∨ misplaced (λ l, l = ObjectLifecycle.Retired) (ir_context r) s
  | OpFailSync r =>
      ∀ y, syncs s !! sf_operation r = Some y →
        y_state y = SyncState.Completed ∨ y_destination_participant y ≠ ac_participant (sf_context r) ∨
        y_destination_boot y ≠ ac_boot (sf_context r)
  | _ => match request_context o with Some ctx => unauthorised ctx s | None => False end
  end.

Lemma unauthorised_resolve ctx s : unauthorised ctx s → ∃ c, resolve_locked ctx s = failure c.
Proof.
  intros Hu. destruct (resolve_locked ctx s) as [[o p]|c] eqn:E; [|eauto]. exfalso.
  apply resolve_locked_success in E as [].
  destruct Hu as [[?|?]|[Hp|Ho]]; [congruence..| |].
  - destruct (Hp _ res_participant) as [?|[?|?]]; congruence.
  - destruct (Ho _ res_object) as [?|[?|[?|?]]]; destruct res_lifecycle; congruence.
Qed.

Lemma refused_registration r s : refused (OpRegisterRegion r) s → (register_region r s).1 = s.
Proof.
  intros Hu. unfold register_region. destruct (check_registration r s) as [[o p]|c] eqn:E; [exfalso|done].
  unfold check_registration in E. destruct (shutting_down s) eqn:Hs; [done|].
  case_decide as He; [done|]. destruct (objects s !! _) as [o1|] eqn:Ho; [|done].
  case_decide as Hg; [done|]. case_decide; [done|]. case_decide as Hr; [done|]. case_decide as Hrr; [done|].
  destruct (participants s !! _) as [p1|] eqn:Hp; [|done]. case_decide as Hb; [done|]. case_decide as Hf; [done|].
  destruct Hu as [[?|?]|[Hi|Hm]]; [done|congruence|..].
  - destruct (Hi _ Hp) as [?|?]; done.
  - destruct (Hm _ Ho) as [?|[?|?]]; done.
Qed.

Lemma refused_invalidation r s : refused (OpInvalidate r) s → (invalidate r s).1 = s.
Proof.
  intros Hu. unfold invalidate. destruct (resolve_internal_locked _ s) as [o|c] eqn:E; [exfalso|done].
  unfold resolve_internal_locked in E. destruct (shutting_down s) eqn:Hs; [done|].
  case_decide as He; [done|]. destruct (objects s !! _) as [o1|] eqn:Ho; [|done].
  case_decide as Hg; [done|]. case_decide as Hr; [done|].
  destruct Hu as [[?|?]|Hm]; [done|congruence|]. by destruct (Hm _ Ho).
Qed.

Lemma refused_failure r s : refused (OpFailSync r) s → live_eq (fail_sync r s).1 s.
Proof.
  intros Hu. unfold fail_sync. destruct (syncs s !! _) as [y|] eqn:Ey; [|done]. specialize (Hu y Ey).
  live_step. destruct (decide (y_state y = _)) as [|Hc]; [done|].
  rewrite decide_True by (destruct Hu as [?|?]; [done|done]). done.
Qed.


(** ** Modifications *)

Lemma dirty_object_guard_ok req o :
  dirty_object_guard req o = StatusCode.Ok →
  o_authority o = AuthorityMode.ExclusiveWriter ∧ writer_is o (dr_context req) = true ∧
  dr_ownership_generation req = o_ownership_generation o ∧ dr_base_version req = o_authoritative_version o.
Proof.
  unfold dirty_object_guard, writer_is. destruct (decide (o_authority o ≠ _)) as [|Ha]; [by case_decide|].
  apply dec_stable in Ha. destruct (decide (_ ∨ _)) as [|Hw]; [done|].
  destruct (decide (dr_ownership_generation req ≠ _)) as [|Hg%dec_stable]; [done|].
  destruct (decide (dr_base_version req ≠ _)) as [|Hb%dec_stable]; [done|]. intros _.
  split_and!; [done| |done|done]. apply andb_true_iff. split; apply bool_decide_eq_true, dec_stable; tauto.
Qed.

Lemma dirty_region_guard_ok req r :
  dirty_region_guard req r = StatusCode.Ok →
  r_participant r = ac_participant (dr_context req) ∧
  (r_state r = CoherenceState.Current ∨ r_state r = CoherenceState.Dirty).
Proof.
  unfold dirty_region_guard. destruct (decide (r_participant r ≠ _)) as [|Hp%dec_stable]; [done|].
  destruct (decide (_ ∧ _)) as [|Hs]; [done|]. intros _. split; [done|].
  destruct (decide (r_state r = CoherenceState.Current)); [by left|]. right. apply dec_stable. tauto.
Qed.

(** Only the writer modifies, and on the authoritative version.  When
    [mark_dirty] succeeds, the caller's incarnation owns the object exclusively,
    under the ownership generation and base version it names, the base being the
    authoritative version; the replica is the caller's and was current or
    already dirty; afterwards the replica is dirty on that base, the object
    carries an unpublished modification, and its authoritative version is
    unchanged. *)
Theorem dirty_needs_authority req s s' c :
  mark_dirty req s = (s', success c) →
  ∃ o p r o' r', resolved (dr_context req) s o p ∧
    o_authority o = AuthorityMode.ExclusiveWriter ∧ writer_is o (dr_context req) = true ∧
    dr_ownership_generation req = o_ownership_generation o ∧
    dr_base_version req = o_authoritative_version o ∧
    regions s !! dr_region req = Some r ∧ r_object r = o_id o ∧
    r_participant r = ac_participant (dr_context req) ∧
    (r_state r = CoherenceState.Current ∨ r_state r = CoherenceState.Dirty) ∧
    objects s' !! ac_object (dr_context req) = Some o' ∧ o_has_unpublished_dirty o' = true ∧
    o_authoritative_version o' = o_authoritative_version o ∧
    regions s' !! dr_region req = Some r' ∧ r_state r' = CoherenceState.Dirty ∧
    r_dirty_base_version r' = o_authoritative_version o.
Proof.
  unfold mark_dirty. live_step. destruct (resolve_locked _ s) as [[o p]|?] eqn:Er; [|done].
  apply resolve_locked_success in Er.
  destruct (ok (dirty_object_guard req o)) eqn:Hg; simpl; [|done]. apply ok_spec, dirty_object_guard_ok in Hg.
  destruct (resolve_region_locked _ _ _ _) as [r|?] eqn:Err; [|done]. apply resolve_region_success in Err.
  destruct (ok (dirty_region_guard req r)) eqn:Hrg; simpl; [|done]. apply ok_spec, dirty_region_guard_ok in Hrg.
  destruct Hg as (Ha & Hw & Hog & Hb), Hrg as (Hrp & Hrs), Err as [Hreg Hro _].
  live_step. destruct (ok w); [|done]. intros [= <- _].
  exists o, p, r, (dirty_object (next (sequence s0)) o),
    (dirty_region req (o_ownership_generation o) (next (sequence s0)) r). rewrite (live_objects _ _ (record_decision_live _ _ _ _)), (live_objects _ _ L0),
    (live_regions _ _ (record_decision_live _ _ _ _)), (live_regions _ _ L0).
  split_and!; try done; [by rewrite <-(live_regions _ _ L)|apply lookup_insert_eq..].
Qed.

(** ** Acknowledgements *)

(** The invalidations of an object still open once [id] is settled. *)
Definition others_open s (o : ObjectRecord) (id : InvalidationId) : bool :=
  existsb (λ j, negb (bool_decide (j = id)) && invalidation_requested s j) (o_outstanding_invalidations o).

Lemma requested_other s id i j :
  j ≠ id → invalidation_requested (set_invalidation id i s) j = invalidation_requested s j.
Proof.
  intros Hj. unfold invalidation_requested. change (invalidations (set_invalidation id i s)) with (<[id := i]> (invalidations s)).
  by rewrite lookup_insert_ne by done.
Qed.

Lemma settled_open s id i l :
  existsb (invalidation_requested (set_invalidation id i s)) (filter (λ j, j ≠ id) l) =
  existsb (λ j, negb (bool_decide (j = id)) && invalidation_requested s j) l.
Proof.
  induction l as [|j l IH]; [done|]. rewrite filter_cons. cbn [existsb]. destruct (decide (j = id)) as [->|Hj].
  - rewrite decide_False by naive_solver. by rewrite IH, bool_decide_true by done.
  - rewrite decide_True by done. cbn [existsb]. by rewrite IH, bool_decide_false, requested_other by done.
Qed.

(** What settling does to the object whose transfer is pending. *)
Lemma settle_invalidation_object key id i o s :
  objects s !! key = Some o → o_id o = key → i_id i = id →
  o_authority o = AuthorityMode.TransferPending →
  ∃ o', objects (settle_invalidation key id i s) !! key = Some o' ∧
    o_writer o' = o_writer o ∧ o_writer_boot o' = o_writer_boot o ∧
    o_outstanding_invalidations o' = filter (λ j, j ≠ id) (o_outstanding_invalidations o) ∧
    o_authority o' = (if others_open s o id then AuthorityMode.TransferPending else AuthorityMode.ExclusiveWriter).
Proof.
  intros Ho Hid Hi Ha. unfold settle_invalidation, recompute_authority_locked.
  set (s1 := _ <| objects ::= _ |>).
  assert (objects s1 !! key = Some (settle_outstanding id o)) as E.
  { subst s1. simpl. rewrite lookup_alter, decide_True, Ho by done. by rewrite Hi. }
  rewrite E. eexists. split; [apply lookup_insert_eq|]. split_and!; [done..|].
  change (recomputed_authority s1 (settle_outstanding id o) =
    if others_open s o id then AuthorityMode.TransferPending else AuthorityMode.ExclusiveWriter).
  unfold recomputed_authority, has_outstanding_invalidations_locked.
  change (o_authority (settle_outstanding id o)) with (o_authority o).
  change (o_id (settle_outstanding id o)) with (o_id o). rewrite Ha, Hid, E.
  change (existsb (invalidation_requested s1) (o_outstanding_invalidations (settle_outstanding id o)))
    with (existsb (invalidation_requested (set_invalidation id i s)) (filter (λ j, j ≠ id) (o_outstanding_invalidations o))).
  by rewrite settled_open.
Qed.

(** C17: the last acknowledgement completes a transfer.  When the target of an
    open invalidation acknowledges it for the live generation of its replica,
    the replica loses its evidence and becomes stale (invalid when it never had
    a version), the invalidation leaves the object's outstanding list, and the
    object, in transfer, becomes exclusively owned by its reserved writer
    exactly when no other outstanding invalidation is still open.  The replica
    is one that is neither retired nor fenced; those states are final, and the
    acknowledgement of a retired replica takes it back out of its state. *)
Theorem last_acknowledgement_completes_transfer ack s s' out o i r :
  acknowledge_invalidation ack s = (s', success out) →
  objects s !! ac_object (ia_context ack) = Some o → o_id o = ac_object (ia_context ack) →
  o_authority o = AuthorityMode.TransferPending →
  invalidations s !! ia_invalidation ack = Some i → i_id i = ia_invalidation ack →
  i_state i = InvalidationState.Requested →
  regions s !! i_region i = Some r → ack_current ack i r = true →
  r_state r ≠ CoherenceState.Retired → r_state r ≠ CoherenceState.Fenced →
  ∃ o' r', objects s' !! ac_object (ia_context ack) = Some o' ∧ regions s' !! i_region i = Some r' ∧
    r_state r' = (if defined (r_version r) then CoherenceState.Stale else CoherenceState.Invalid) ∧
    is_legal_coherence_transition (r_state r) (r_state r') = true ∧
    defined (r_evidence r') = false ∧ r_invalidation_pending r' = false ∧
    o_writer o' = o_writer o ∧ o_writer_boot o' = o_writer_boot o ∧
    i_id i ∉ o_outstanding_invalidations o' ∧
    o_authority o' = (if others_open s o (i_id i) then AuthorityMode.TransferPending
                      else AuthorityMode.ExclusiveWriter).
Proof.
  intros E Ho Hid Ha Hi Hii Hst Hr Hack Hnr Hnf. revert E. unfold acknowledge_invalidation. rewrite Hi. live_step.
  destruct (resolve_locked _ s) as [[o1 p]|?] eqn:Er; [|done]. apply resolve_locked_success in Er.
  case_decide; [done|]. case_decide; [done|]. rewrite decide_False by (by rewrite Hst).
  rewrite decide_False by (by rewrite Hst). rewrite (live_regions _ _ L), Hr, Hack. simpl.
  unfold apply_acknowledgement. live_step. destruct (ok w); [|done]. intros [= <- _].
  set (i' := acknowledged_invalidation _ _ _ _) in *. set (r' := invalidated_region _ _ r) in *.
  set (s2 := settle_invalidation _ _ _ _) in *.
  destruct (settle_invalidation_object (ac_object (ia_context ack)) (ia_invalidation ack) i' o
    (set_region (i_region i') r' (tick s0))) as (o' & Ho' & Hw & Hwb & Hout & Hau); try done.
  { by rewrite <-(live_objects _ _ L) in Ho. }
  fold s2 in Ho'. exists (o' <| o_updated_sequence := sequence s2 |>), r'.
  assert (regions s2 = <[i_region i := r']> (regions s0)) as Hreg.
  { subst s2. unfold settle_invalidation, recompute_authority_locked.
    match goal with |- context [match ?m !! ?k with _ => _ end] => destruct (m !! k) end; reflexivity. }
  rewrite (live_objects _ _ (record_decision_live _ _ _ _)), (live_objects _ _ L0),
    (live_regions _ _ (record_decision_live _ _ _ _)), (live_regions _ _ L0).
  split_and!; try done.
  - etransitivity; [apply lookup_alter_eq|]. exact (f_equal (fmap _) Ho').
  - change (regions s2 !! i_region i = Some r'). rewrite Hreg. apply lookup_insert_eq.
  - subst r'. cbn. by destruct (r_state r), (defined (r_version r)).
  - change (i_id i ∉ o_outstanding_invalidations o'). rewrite Hout, Hii, list_elem_of_filter. naive_solver.
  - etransitivity; [exact Hau|]. rewrite Hii. unfold others_open, invalidation_requested.
    change (invalidations (set_region _ _ _)) with (invalidations s0). by rewrite (live_invalidations _ _ L).
Qed.

(** An acknowledgement of a replaced replica has no effect on replicas.
    When the generation the invalidation or the acknowledgement names is not
    the live one any more, no replica changes and the invalidation is recorded
    as superseded. *)
Theorem stale_acknowledgement_touches_no_replica ack s s' out i r :
  acknowledge_invalidation ack s = (s', success out) →
  invalidations s !! ia_invalidation ack = Some i → i_state i = InvalidationState.Requested →
  regions s !! i_region i = Some r → ack_current ack i r = false →
  regions s' = regions s ∧ ∃ i', invalidations s' !! ia_invalidation ack = Some i' ∧
    i_state i' = InvalidationState.Superseded.
Proof.
  intros E Hi Hst Hr Hack. revert E. unfold acknowledge_invalidation. rewrite Hi. live_step.
  destruct (resolve_locked _ s) as [[o1 p]|?] eqn:Er; [|done].
  case_decide; [done|]. case_decide; [done|]. rewrite decide_False by (by rewrite Hst).
  rewrite decide_False by (by rewrite Hst). rewrite (live_regions _ _ L), Hr, Hack. simpl.
  live_step. intros [= <- _]. rewrite (live_regions _ _ L0), (live_invalidations _ _ L0), <-(live_regions _ _ L).
  unfold settle_invalidation, recompute_authority_locked. case_match; simpl; (split; [done|]);
    (eexists; split; [apply lookup_insert_eq|done]).
Qed.

(** ** Transfers *)

Lemma completion_guard_ok req y :
  completion_guard req y = StatusCode.Ok →
  y_state y ≠ SyncState.Cancelled ∧ y_state y ≠ SyncState.Failed ∧
  y_destination_participant y = ac_participant (sc_context req) ∧ y_destination_boot y = ac_boot (sc_context req) ∧
  sc_destination_region req = y_destination_region y ∧
  sc_destination_region_generation req = y_destination_region_generation y ∧
  sc_destination_new_version req = y_source_version y.
Proof.
  unfold completion_guard. destruct (decide (_ ∨ _)) as [|Hst]; [done|].
  destruct (decide (y_destination_participant y ≠ _)) as [|Hp%dec_stable]; [done|].
  destruct (decide (y_destination_boot y ≠ _)) as [|Hb%dec_stable]; [done|].
  destruct (decide (_ ∨ _)) as [|Hg]; [done|].
  destruct (decide (sc_destination_new_version req ≠ _)) as [|Hv%dec_stable]; [done|]. intros _.
  split_and!; try done; try tauto; apply dec_stable; tauto.
Qed.

(** The transfer a completion settles, once the request passed its guards. *)
Lemma complete_sync_inv req s s' out :
  complete_sync req s = (s', success out) → so_idempotent_replay out = false →
  ∃ o p y r s0 out0, resolved (sc_context req) s o p ∧ syncs s !! sc_operation req = Some y ∧ o_id o = y_object y ∧
    completion_guard req y = StatusCode.Ok ∧ regions s !! y_destination_region y = Some r ∧
    live_eq s0 s ∧ settle_completion req out0 o y r s0 = (s', success out).
Proof.
  unfold complete_sync. destruct (syncs s !! _) as [y|] eqn:Ey; [|done]. live_step.
  destruct (resolve_locked _ s) as [[o p]|?] eqn:Er; [|done]. apply resolve_locked_success in Er.
  destruct (decide (o_id o ≠ _)) as [|Hid%dec_stable]; [done|].
  case_decide; [by intros [= <- <-]|]. destruct (ok (completion_guard req y)) eqn:Hg; simpl; [|done].
  apply ok_spec in Hg. rewrite (live_regions _ _ L). destruct (regions s !! _) as [r|] eqn:Hr; [|done].
  intros E _. eexists o, p, y, r, _, _. by split_and!.
Qed.

(** C23: a completed transfer is authorised, timely and verified.  When
    [complete_sync] reports completion, and not as a replay, the caller is the
    incarnation the transfer was planned for and names its destination
    generation; the version that was moved is still the authoritative one; if
    the policy requires fingerprints and the source had one, bytes were moved and
    the observed fingerprint matches it; and the destination is current at the
    authoritative version with evidence of its own.  The destination is one
    that is neither modified nor fenced: a replica that was modified while the
    transfer was open becomes current as well, and its modification is lost
    without a publication. *)
Theorem completed_sync_is_verified req s s' out :
  complete_sync req s = (s', success out) → so_state out = SyncState.Completed → so_idempotent_replay out = false →
  (∀ y r, syncs s !! sc_operation req = Some y → regions s !! y_destination_region y = Some r →
     r_state r ≠ CoherenceState.Dirty ∧ r_state r ≠ CoherenceState.Fenced) →
  ∃ o p y r r', resolved (sc_context req) s o p ∧ syncs s !! sc_operation req = Some y ∧
    y_destination_participant y = ac_participant (sc_context req) ∧
    y_destination_boot y = ac_boot (sc_context req) ∧
    sc_destination_region_generation req = y_destination_region_generation y ∧
    y_source_version y = o_authoritative_version o ∧
    (must_verify o y s = true → sc_content_moved req = true ∧
       fingerprint_eqb (sc_observed_content req) (y_expected_content y) = true) ∧
    regions s !! y_destination_region y = Some r ∧ regions s' !! y_destination_region y = Some r' ∧
    r_state r' = CoherenceState.Current ∧ is_legal_coherence_transition (r_state r) (r_state r') = true ∧
    r_version r' = o_authoritative_version o ∧ r_lifecycle r' ≠ RegionLifecycle.Retired.
Proof.
  intros E Hst Hrep Hnd. destruct (complete_sync_inv _ _ _ _ E Hrep) as (o & p & y & r & s0 & out0 & Hres & Hy & Hid & Hg & Hr & L & Hs).
  apply completion_guard_ok in Hg as (_ & _ & Hp & Hb & Hdr & Hdg & Hnv). revert Hs. unfold settle_completion.
  assert (must_verify o y s0 = must_verify o y s) as -> by (unfold must_verify; by rewrite L).
  destruct (decide (_ ∨ _)) as [|Hret].
  { unfold cancel_completion. destruct (settle_sync _ _ _ _). case_match; [|done]. by intros [= _ <-]. }
  destruct (decide (o_authoritative_version o ≠ _)) as [|Hv%dec_stable].
  { unfold fail_completion. destruct (settle_sync _ _ _ _). case_match; [|done]. by intros [= _ <-]. }
  destruct (must_verify o y s && negb (sc_content_moved req)) eqn:Hmv.
  { unfold unmoved_completion. destruct (settle_sync _ _ _ _). by intros [= _ <-]. }
  destruct (must_verify o y s && negb (fingerprint_eqb _ _)) eqn:Hfp.
  { unfold fail_completion. destruct (settle_sync _ _ _ _). case_match; [|done]. by intros [= _ <-]. }
  unfold finish_completion. live_step. unfold settle_sync. live_step. destruct (ok w); [|done]. intros [= <- _].
  eexists o, p, y, r, _. rewrite (live_regions _ _ (record_decision_live _ _ _ _)), (live_regions _ _ L1).
  split_and!; try done.
  - intros Hm. rewrite Hm in Hmv, Hfp. by apply negb_false_iff in Hmv, Hfp.
  - apply lookup_insert_eq.
  - done.
  - destruct (Hnd y r Hy Hr). cbn. destruct (r_state r) eqn:Es; try done. by destruct Hret; right.
  - done.
  - simpl. naive_solver.
Qed.

(** A transfer that missed its target never makes a replica current.  When
    the authoritative version moved on while the transfer was in flight, or the
    policy requires fingerprints and nothing was moved or the fingerprint does
    not match, the completion is recorded as failed and its destination (which
    was not retired meanwhile) is left stale, waiting for synchronization or
    waiting for revalidation. *)
Theorem missed_sync_never_current req s s' out o y r :
  complete_sync req s = (s', success out) →
  objects s !! ac_object (sc_context req) = Some o → syncs s !! sc_operation req = Some y →
  y_state y ≠ SyncState.Completed → regions s !! y_destination_region y = Some r →
  r_lifecycle r ≠ RegionLifecycle.Retired → r_state r ≠ CoherenceState.Retired →
  o_authoritative_version o ≠ y_source_version y ∨
    must_verify o y s = true ∧ (sc_content_moved req = false ∨
      fingerprint_eqb (sc_observed_content req) (y_expected_content y) = false) →
  so_state out = SyncState.Failed ∧
  ∃ r', regions s' !! y_destination_region y = Some r' ∧
    (r_state r' = CoherenceState.Stale ∨ r_state r' = CoherenceState.SyncRequired ∨
     r_state r' = CoherenceState.RevalidationRequired).
Proof.
  intros E Ho Hy Hnc Hr Hl Hrs Hmiss.
  assert (so_idempotent_replay out = false) as Hrep.
  { destruct (so_idempotent_replay out) eqn:Hi; [|done]. exfalso. revert E. unfold complete_sync. rewrite Hy. live_step.
    destruct (resolve_locked _ s) as [[o2 p]|?]; [|done]. repeat (case_decide; [done|]). case_match; [done|].
    rewrite (live_regions _ _ L), Hr. unfold settle_completion. rewrite decide_False by tauto.
    unfold fail_completion, unmoved_completion, finish_completion.
    repeat case_match; intros; simplify_eq; simpl in Hi; discriminate. }
  destruct (complete_sync_inv _ _ _ _ E Hrep) as (o2 & p & y2 & r2 & s0 & out0 & Hres & Hy2 & _ & _ & Hr2 & L & Hs).
  pose proof (res_object _ _ _ _ Hres) as Ho2. rewrite Ho in Ho2. injection Ho2 as <-.
  rewrite Hy in Hy2. injection Hy2 as <-. rewrite Hr in Hr2. injection Hr2 as <-.
  clear E. revert Hs. unfold settle_completion.
  assert (must_verify o y s0 = must_verify o y s) as -> by (unfold must_verify; by rewrite L).
  rewrite decide_False by tauto.
  assert (Hfail : ∀ why note st c, fail_completion req out0 y r why note st c s0 = (s', success out) →
    so_state out = SyncState.Failed ∧ ∃ r', regions s' !! y_destination_region y = Some r' ∧ r_state r' = st).
  { intros why note st c. unfold fail_completion, settle_sync. live_step. destruct (ok w); [|done].
    intros [= <- <-]. split; [done|]. eexists. rewrite (live_regions _ _ (record_decision_live _ _ _ _)), (live_regions _ _ L0).
    split; [apply lookup_insert_eq|done]. }
  destruct (decide (o_authoritative_version o ≠ _)) as [|Hv].
  { intros Hf. apply Hfail in Hf as (? & r' & ? & ?). eauto. }
  destruct Hmiss as [|[Hm Hmiss]]; [done|]. rewrite Hm. destruct (sc_content_moved req); simpl.
  - destruct Hmiss as [|Hfp]; [done|]. rewrite Hfp. simpl. intros Hf. apply Hfail in Hf as (? & r' & ? & ?). eauto 6.
  - unfold unmoved_completion, settle_sync. live_step. intros [= <- <-]. split; [done|]. eexists.
    rewrite (live_regions _ _ L0). split; [apply lookup_insert_eq|]. by right; left.
Qed.
End handlers.

(** ** Instances on the concrete run *)

(** A context of an epoch that never was. *)
Definition ctx_old : AuthorityContext := ctx_b <| ac_epoch := from_value 9 |>.

Definition read_old : ReadRequest := read_b <| rr_context := ctx_old |>.


(** Alpha modifies its replica of version 1. *)
Definition dirty_a : DirtyRequest := default_DirtyRequest <| dr_context := ctx_a |> <| dr_region := reg_a |>
  <| dr_ownership_generation := from_value 2 |> <| dr_base_version := from_value 1 |>.
Definition c_dirty : DirtyCondition.t := answer_or DirtyCondition.Clean (mark_dirty dirty_a s_published).2.

Lemma dirty_needs_authority_witness :
  ∃ o p r o' r', resolved (dr_context dirty_a) s_published o p ∧
    o_authority o = AuthorityMode.ExclusiveWriter ∧ writer_is o (dr_context dirty_a) = true ∧
    dr_ownership_generation dirty_a = o_ownership_generation o ∧
    dr_base_version dirty_a = o_authoritative_version o ∧
    regions s_published !! dr_region dirty_a = Some r ∧ r_object r = o_id o ∧
    r_participant r = ac_participant (dr_context dirty_a) ∧
    (r_state r = CoherenceState.Current ∨ r_state r = CoherenceState.Dirty) ∧
    objects (mark_dirty dirty_a s_published).1 !! ac_object (dr_context dirty_a) = Some o' ∧
    o_has_unpublished_dirty o' = true ∧ o_authoritative_version o' = o_authoritative_version o ∧
    regions (mark_dirty dirty_a s_published).1 !! dr_region dirty_a = Some r' ∧
    r_state r' = CoherenceState.Dirty ∧ r_dirty_base_version r' = o_authoritative_version o.
Proof.
  apply (dirty_needs_authority dirty_a s_published (mark_dirty dirty_a s_published).1 c_dirty). vm_compute. reflexivity.
Defined.

Definition i_b : InvalidationRecord := default default_InvalidationRecord (invalidations s_transfer !! from_value 1).
Definition out_ack : InvalidationOutcome :=
  answer_or default_InvalidationOutcome (acknowledge_invalidation ack_b s_transfer).2.

Lemma last_acknowledgement_completes_transfer_witness :
  others_open s_transfer (object_of s_transfer) (i_id i_b) = false ∧
  ∃ o' r', objects (acknowledge_invalidation ack_b s_transfer).1 !! ac_object (ia_context ack_b) = Some o' ∧
    regions (acknowledge_invalidation ack_b s_transfer).1 !! i_region i_b = Some r' ∧
    r_state r' = (if defined (r_version (region_of s_transfer reg_b)) then CoherenceState.Stale
                  else CoherenceState.Invalid) ∧
    is_legal_coherence_transition (r_state (region_of s_transfer reg_b)) (r_state r') = true ∧
    defined (r_evidence r') = false ∧ r_invalidation_pending r' = false ∧
    o_writer o' = o_writer (object_of s_transfer) ∧ o_writer_boot o' = o_writer_boot (object_of s_transfer) ∧
    i_id i_b ∉ o_outstanding_invalidations o' ∧
    o_authority o' = (if others_open s_transfer (object_of s_transfer) (i_id i_b) then AuthorityMode.TransferPending
                      else AuthorityMode.ExclusiveWriter).
Proof.
  split; [vm_compute; reflexivity|].
  apply (last_acknowledgement_completes_transfer ack_b s_transfer (acknowledge_invalidation ack_b s_transfer).1 out_ack
    (object_of s_transfer) i_b (region_of s_transfer reg_b));
    first [vm_compute; reflexivity|intros Hn; vm_compute in Hn; discriminate Hn].
Defined.

(** Beta acknowledges under a generation its replica does not have. *)
Definition ack_old : InvalidationAck := ack_b <| ia_region_generation := from_value 7 |>.
Definition out_old : InvalidationOutcome :=
  answer_or default_InvalidationOutcome (acknowledge_invalidation ack_old s_transfer).2.

Lemma stale_acknowledgement_touches_no_replica_witness :
  regions (acknowledge_invalidation ack_old s_transfer).1 = regions s_transfer ∧
  ∃ i', invalidations (acknowledge_invalidation ack_old s_transfer).1 !! ia_invalidation ack_old = Some i' ∧
    i_state i' = InvalidationState.Superseded.
Proof.
  apply (stale_acknowledgement_touches_no_replica ack_old s_transfer (acknowledge_invalidation ack_old s_transfer).1
    out_old i_b (region_of s_transfer reg_b)); vm_compute; reflexivity.
Defined.

(** Beta's transfer before it completes, and a completion with other bytes. *)
Definition s_syncing : Engine := run [OpRelease release_a; OpBeginSync sync_b] s_published.
Definition complete_bad : SyncCompleteRequest := complete_b <| sc_observed_content := print_b |>.
Definition out_done : SyncOutcome := answer_or default_SyncOutcome (complete_sync complete_b s_syncing).2.
Definition out_bad : SyncOutcome := answer_or default_SyncOutcome (complete_sync complete_bad s_syncing).2.
Definition y_b : SyncRecord := default default_SyncRecord (syncs s_syncing !! from_value 1).

Lemma completed_sync_is_verified_witness :
  ∃ o p y r r', resolved (sc_context complete_b) s_syncing o p ∧ syncs s_syncing !! sc_operation complete_b = Some y ∧
    y_destination_participant y = ac_participant (sc_context complete_b) ∧
    y_destination_boot y = ac_boot (sc_context complete_b) ∧
    sc_destination_region_generation complete_b = y_destination_region_generation y ∧
    y_source_version y = o_authoritative_version o ∧
    (must_verify o y s_syncing = true → sc_content_moved complete_b = true ∧
       fingerprint_eqb (sc_observed_content complete_b) (y_expected_content y) = true) ∧
    regions s_syncing !! y_destination_region y = Some r ∧
    regions (complete_sync complete_b s_syncing).1 !! y_destination_region y = Some r' ∧
    r_state r' = CoherenceState.Current ∧ is_legal_coherence_transition (r_state r) (r_state r') = true ∧
    r_version r' = o_authoritative_version o ∧ r_lifecycle r' ≠ RegionLifecycle.Retired.
Proof.
  apply (completed_sync_is_verified complete_b s_syncing (complete_sync complete_b s_syncing).1 out_done);
    try (vm_compute; reflexivity).
  assert (syncs s_syncing !! sc_operation complete_b = Some y_b) as Ey by (vm_compute; reflexivity).
  assert (regions s_syncing !! y_destination_region y_b = Some (region_of s_syncing reg_b)) as Er by (vm_compute; reflexivity).
  intros y r Hy Hr. pose proof (inj Some _ _ (eq_trans (eq_sym Ey) Hy)) as E. rewrite <-E in Hr.
  pose proof (inj Some _ _ (eq_trans (eq_sym Er) Hr)) as E2. rewrite <-E2.
  split; intros Hn; vm_compute in Hn; discriminate Hn.
Defined.

Lemma missed_sync_never_current_witness :
  so_state out_bad = SyncState.Failed ∧
  ∃ r', regions (complete_sync complete_bad s_syncing).1 !! y_destination_region y_b = Some r' ∧
    (r_state r' = CoherenceState.Stale ∨ r_state r' = CoherenceState.SyncRequired ∨
     r_state r' = CoherenceState.RevalidationRequired).
Proof.
  apply (missed_sync_never_current complete_bad s_syncing (complete_sync complete_bad s_syncing).1 out_bad
    (object_of s_syncing) y_b (region_of s_syncing reg_b)); try (vm_compute; reflexivity).
  - intros He. vm_compute in He. discriminate He.
  - intros He. vm_compute in He. discriminate He.
  - intros He. vm_compute in He. discriminate He.
  - right. split; [vm_compute; reflexivity|]. right. vm_compute. reflexivity.
Defined.
