(* ===== verification/Publishing.v ===== *)
(** * What a publication establishes

    Commit, refusal, abort and replay of [publish] when nothing runs between
    its phases. *)
From S2P Require Import Prelude Ids Enums Status Bytes Policy Evidence Model Decisions Persistence.
From S2P Require Import Engine Resolve Core Registry Read Write Invalidate Publish Sync Recovery.
From S2P Require Import Auditor Frame Evolution Steps RecoveryFacts System Invariants Scenario.

(** ** Retained request identities *)

Lemma find_drop_snoc {A} (f : A → bool) l x n :
  List.find f l = None → f x = true → n ≤ length l → List.find f (drop n (l ++ [x])) = Some x.
Proof.
  revert n. induction l as [|y l IH]; intros n; simpl.
  - intros _ Hx Hn. assert (n = 0) as -> by lia. simpl. by rewrite Hx.
  - destruct (f y) eqn:Hy; [done|]. intros Hl Hx Hn. destruct n as [|n]; simpl.
    + rewrite Hy. by apply (IH 0); [| |lia].
    + apply IH; [done..|lia].
Qed.

(** The newest identity is always retained. *)
Lemma retain_request_newest limit c l :
  List.find (λ x, bool_decide (cr_request x = cr_request c)) l = None →
  List.find (λ x, bool_decide (cr_request x = cr_request c)) (retain_request limit c l) = Some c.
Proof.
  intros Hl. unfold retain_request. apply find_drop_snoc; [done|by apply bool_decide_true|].
  rewrite length_app. simpl. destruct (N.eqb_spec limit 0); simpl; lia.
Qed.

Lemma retain_request_bound limit c l :
  (0 < limit)%N → (N.of_nat (length (retain_request limit c l)) ≤ limit)%N.
Proof.
  intros Hl. unfold retain_request. rewrite (proj2 (N.eqb_neq limit 0)) by lia.
  rewrite length_drop, length_app. simpl. lia.
Qed.

Lemma committed_completed l lim seq o :
  defined (ac_request (pb_context (pl_request l))) = true →
  completed_request (ac_request (pb_context (pl_request l))) o = None →
  completed_request (ac_request (pb_context (pl_request l))) (committed_object l lim seq o) =
    Some (mkCompletedPublicationRequest (ac_request (pb_context (pl_request l)))
            (pp_version (pl_pending l)) (pp_id (pl_pending l)) seq).
Proof.
  intros Hd. unfold completed_request, committed_object. rewrite Hd. intros Hn.
  by apply (retain_request_newest lim (mkCompletedPublicationRequest _ _ _ _)).
Qed.

Section publishing.
Context {St : Type} `{DurableStore St}.
Implicit Types s : Impl St.

(** ** Phase 1 *)

Lemma publish_object_guard_ok req pol o s :
  publish_object_guard req pol o s = StatusCode.Ok →
  o_authority o = AuthorityMode.ExclusiveWriter ∧ writer_is o (pb_context req) = true ∧
  pb_ownership_generation req = o_ownership_generation o ∧
  pb_expected_base_version req = o_authoritative_version o.
Proof.
  unfold publish_object_guard, writer_is. destruct (decide (o_authority o ≠ _)) as [|Ha%dec_stable]; [by case_decide|].
  destruct (decide (_ ∨ _)) as [|Hw]; [done|].
  destruct (decide (pb_ownership_generation req ≠ _)) as [|Hg%dec_stable]; [done|].
  destruct (decide (pb_expected_base_version req ≠ _)) as [|Hb%dec_stable]; [done|]. intros _.
  split_and!; [done| |done|done]. apply andb_true_iff. split; apply bool_decide_eq_true, dec_stable; tauto.
Qed.

(** A reservation: who may make it, and what it carries. *)
Record reservation (req : PublishRequest) s (o : ObjectRecord) (l : PublishLocals) s1 : Prop := {
  rv_resolved : ∃ p, resolved (pb_context req) s o p;
  rv_exclusive : o_authority o = AuthorityMode.ExclusiveWriter;
  rv_writer : writer_is o (pb_context req) = true;
  rv_fresh : completed_request (ac_request (pb_context req)) o = None;
  rv_region : ∃ r, regions s !! pb_region req = Some r ∧ r_object r = o_id o;
  rv_request : pl_request l = req;
  rv_object : pp_object (pl_pending l) = o_id o;
  rv_version : pp_version (pl_pending l) = next_version (o_authoritative_version o);
  rv_receipt : pr_version (pl_receipt l) = pp_version (pl_pending l) ∧ pr_idempotent_replay (pl_receipt l) = false;
  rv_base : pl_base l = o_authoritative_version o;
  rv_ownership : pl_ownership l = o_ownership_generation o;
  rv_objects : objects s1 = <[ac_object (pb_context req) := reserved_object (pl_pending l) o]> (objects s);
  rv_frame : (regions s1, participants s1, epoch s1, shutting_down s1, policies s1) =
             (regions s, participants s, epoch s, shutting_down s, policies s) }.

Lemma publish_reserve_inr req s s1 l :
  publish_reserve req s = (s1, inr l) → ∃ o, reservation req s o l s1.
Proof.
  unfold publish_reserve. live_step. destruct (resolve_locked _ s) as [[o p]|?] eqn:Er; [|done].
  apply resolve_locked_success in Er. destruct (policy_locked o s0) as [pol|]; [|done].
  destruct (completed_request _ o) as [?|] eqn:Ec; [done|].
  destruct (ok (publish_object_guard req pol o s0)) eqn:Hg; simpl; [|done].
  apply ok_spec, publish_object_guard_ok in Hg as (Ha & Hw & Hog & Hb).
  destruct (resolve_region_locked _ _ _ _) as [r|?] eqn:Err; [|done]. apply resolve_region_success in Err as [Hr Hro _].
  destruct (ok (publish_region_guard _ _ _)); simpl; [|done]. intros [= <- <-].
  exists o. destruct L. split; try done; [by eauto|exists r; split; [congruence|done]| |].
  - simpl. by rewrite live_objects.
  - simpl. by rewrite live_regions, live_participants, live_epoch, live_shutting_down, live_policies.
Qed.

(** Phase 1 without a reservation has no effect on the coherence state, and
    reports a commit only as the replay of an earlier one. *)
Lemma publish_reserve_inl req s s' a :
  publish_reserve req s = (s', inl a) →
  live_eq s' s ∧ ∀ rec, a = success rec → pr_state rec = PublicationState.Committed →
    pr_idempotent_replay rec = true ∧
    ∃ o p pol c, resolved (pb_context req) s o p ∧ policies s !! o_policy o = Some pol ∧
      completed_request (ac_request (pb_context req)) o = Some c ∧ pr_version rec = cr_version c.
Proof.
  unfold publish_reserve. live_step. destruct (resolve_locked _ s) as [[o p]|?] eqn:Er.
  2: { intros [= <- <-]. split; [by rewrite record_decision_live|done]. }
  apply resolve_locked_success in Er. destruct (policy_locked o s0) as [pol|] eqn:Ep; [|by intros [= <- <-]].
  unfold policy_locked in Ep. rewrite (live_policies _ _ L) in Ep.
  destruct (completed_request _ o) as [c|] eqn:Ec.
  { intros [= <- <-]. split; [by rewrite record_decision_live|]. intros ? [= <-] _. split; [done|]. by exists o, p, pol, c. }
  assert (Hno : ∀ c rec, live_eq (record_decision DecisionKind.Publish ctx c s0) s ∧
    (∀ rec', @success PublicationReceipt (receipt_with PublicationState.None c rec) = success rec' →
       pr_state rec' = PublicationState.Committed → pr_idempotent_replay rec' = true ∧
       ∃ o p pol c, resolved (pb_context req) s o p ∧ policies s !! o_policy o = Some pol ∧
         completed_request (ac_request (pb_context req)) o = Some c ∧ pr_version rec' = cr_version c)).
  { intros c rec. split; [by rewrite record_decision_live|]. by intros ? [= <-]. }
  destruct (negb (ok _)); [intros [= <- <-]; apply Hno|].
  destruct (resolve_region_locked _ _ _ _) as [r|?]; [|intros [= <- <-]; apply Hno].
  destruct (negb (ok _)); [intros [= <- <-]; apply Hno|]. done.
Qed.

(** ** Phase 3 on its own reservation *)

Lemma reservation_kept req s o l s1 : reservation req s o l s1 → reservation_intact l (reserved_object (pl_pending l) o) = true.
Proof. intros []. unfold reservation_intact. simpl. by rewrite !bool_decide_true by congruence. Qed.

Lemma publish_commit_reserved req s o l s1 s2 c s' a :
  o_id o = ac_object (pb_context req) → reservation req s o l s1 → live_eq s2 s1 → publish_commit l c s2 = (s', a) →
  (c ≠ StatusCode.Ok ∧ a = failure c ∧ regions s' = regions s ∧
   objects s' = <[ac_object (pb_context req) := aborted_object (reserved_object (pl_pending l) o)]> (objects s1)) ∨
  (c = StatusCode.Ok ∧
   a = success (receipt_with PublicationState.Committed StatusCode.Ok (pl_receipt l) <| pr_durable := pl_durable_required l |>) ∧
   ∃ o', committed l (reserved_object (pl_pending l) o) o' s1 s').
Proof.
  intros Hid R L. unfold publish_commit. set (s3 := s2 <| in_flight_publications ::= _ |>).
  pose proof (reservation_kept _ _ _ _ _ R) as Hk. pose proof R as []. rewrite rv_object0.
  assert (objects s3 !! o_id o = Some (reserved_object (pl_pending l) o)) as E.
  { change (objects s3) with (objects s2). by rewrite L, rv_objects0, Hid, lookup_insert_eq. }
  assert (Hreg : regions s3 = regions s) by (change (regions s3) with (regions s2); rewrite L; congruence).
  rewrite E. destruct (ok c) eqn:Hc; simpl.
  - apply ok_spec in Hc as ->. rewrite Hk. simpl. intros E2. right. split; [done|].
    pose proof (apply_pending_entry_live l s3) as L3. set (s4 := apply_pending_entry l s3) in *.
    destruct (commit_publication_spec l (reserved_object (pl_pending l) o) s4) as [o' Hcm].
    + rewrite rv_object0. by rewrite L3.
    + by rewrite rv_object0.
    + rewrite E2 in Hcm. split; [by unfold commit_publication in E2; simplify_eq|]. exists o'.
      assert (objects s4 = objects s1 ∧ regions s4 = regions s1 ∧ syncs s4 = syncs s1) as (Ho & Hr & Hy).
      { rewrite L3. change (objects s3) with (objects s2). change (regions s3) with (regions s2).
        change (syncs s3) with (syncs s2). rewrite L. done. }
      eapply committed_start; [exact Ho|exact Hr|exact Hy| |exact Hcm].
      rewrite (frame_of_live _ _ L3). exact (frame_of_live _ _ L).
  - apply not_ok_spec in Hc. intros [= <- <-]. left. split_and!; [done..| |].
    + rewrite (live_regions _ _ (record_decision_live _ _ _ _)). exact Hreg.
    + rewrite (live_objects _ _ (record_decision_live _ _ _ _)), Hid.
      change (objects (set_object _ _ s3)) with (<[ac_object (pb_context req) := aborted_object (reserved_object (pl_pending l) o)]> (objects s2)).
      by rewrite L.
Qed.

(** The three ways a publication ends. *)
Lemma publish_cases req s s' a :
  objects_inv s → publish req s = (s', a) →
  publish_reserve req s = (s', inl a) ∨
  ∃ o l s1, reservation req s o l s1 ∧ o_id o = ac_object (pb_context req) ∧
    ((∃ c, a = failure c ∧ regions s' = regions s ∧
      objects s' = <[ac_object (pb_context req) := aborted_object (reserved_object (pl_pending l) o)]> (objects s1)) ∨
     (a = success (receipt_with PublicationState.Committed StatusCode.Ok (pl_receipt l)
                     <| pr_durable := pl_durable_required l |>) ∧
      ∃ o', committed l (reserved_object (pl_pending l) o) o' s1 s')).
Proof.
  intros Hinv. unfold publish. destruct (publish_reserve req s) as [s1 [a1|l]] eqn:E1; [intros [= <- <-]; by left|].
  destruct (publish_reserve_inr _ _ _ _ E1) as [o R]. pose proof (publish_durable_live l s1) as L.
  destruct (publish_durable l s1) as [s2 c]. cbn [fst] in L. intros E. right. exists o, l, s1.
  destruct (rv_resolved _ _ _ _ _ R) as [p Hres].
  assert (o_id o = ac_object (pb_context req)) as Hid by (by apply (Hinv _ _ (res_object _ _ _ _ Hres))).
  split_and!; [done..|]. destruct (publish_commit_reserved _ _ _ _ _ _ _ _ _ Hid R L E) as [(? & ? & ? & ?)|(? & ? & ?)]; eauto 10.
Qed.

Lemma aborted_same o pending : o_authoritative_version (aborted_object (reserved_object pending o)) = o_authoritative_version o
  ∧ o_publication_state (aborted_object (reserved_object pending o)) = PublicationState.Aborted
  ∧ defined (o_pending_publication (aborted_object (reserved_object pending o))) = false.
Proof. done. Qed.

(** C18: a commit is exclusive, atomic and ordered.  When [publish] answers
    with a commit that is not a replay, the caller's incarnation owned the
    object exclusively; the object's authoritative and published version is the
    successor of the one it had, as the receipt says, with no modification left
    unpublished; the published replica is current at that version, and no other
    replica of the object is current any more. *)
Theorem publish_commits req s s' rec :
  objects_inv s → publish req s = (s', success rec) → pr_state rec = PublicationState.Committed →
  pr_idempotent_replay rec = false →
  ∃ o p o' r', resolved (pb_context req) s o p ∧ o_authority o = AuthorityMode.ExclusiveWriter ∧
    writer_is o (pb_context req) = true ∧
    objects s' !! ac_object (pb_context req) = Some o' ∧
    o_authoritative_version o' = next_version (o_authoritative_version o) ∧
    o_published_version o' = o_authoritative_version o' ∧ pr_version rec = o_authoritative_version o' ∧
    o_publication_state o' = PublicationState.Committed ∧ o_has_unpublished_dirty o' = false ∧
    regions s' !! pb_region req = Some r' ∧ r_state r' = CoherenceState.Current ∧
    r_version r' = o_authoritative_version o' ∧
    ∀ k r, k ∈ o_replicas o → k ≠ pb_region req → regions s' !! k = Some r → r_state r ≠ CoherenceState.Current.
Proof.
  intros Hinv E Hst Hrep. destruct (publish_cases _ _ _ _ Hinv E) as [Ein|(o & l & s1 & R & Hid & [(c & ? & _)|(Ha & o' & Hc)])].
  - destruct (publish_reserve_inl _ _ _ _ Ein) as [_ Hr]. destruct (Hr rec eq_refl Hst). congruence.
  - done.
  - simplify_eq. pose proof R as [[p Hres] ? ? _ (r & Hr & _) <- Hobj Hv [Hrv _] _ _ _ Hfr].
    injection Hfr as Hregs _ _ _ _. rewrite <-Hregs in Hr.
    destruct Hc as [(lim & seq & Ho') _ Hobjs _ Hver Hpub _ Hreg _ Hoth].
    destruct (Hreg _ Hr) as (r' & Hr' & _ & Hrs & Hrver). exists o, p, o', r'.
    rewrite Hobjs, Hobj, Hid, lookup_insert_eq. split_and!; try done.
    + by rewrite Hver.
    + by rewrite Hver.
    + rewrite Hver. exact Hrv.
    + subst o'. unfold committed_object. by destruct (defined _).
    + subst o'. unfold committed_object. by destruct (defined _).
    + by rewrite Hver.
    + intros k r2 Hk Hne. rewrite (Hoth k Hne). change (o_replicas (reserved_object _ o)) with (o_replicas o).
      rewrite decide_True by done. destruct (regions s1 !! k); [|done]. intros [= <-]. by apply stale_of_current.
Qed.

(** A request identity that committed is answered by replay. *)
Lemma publish_replays req s o p pol c :
  resolved (pb_context req) s o p → policies s !! o_policy o = Some pol →
  completed_request (ac_request (pb_context req)) o = Some c →
  ∃ rec, (publish req s).2 = success rec ∧ pr_state rec = PublicationState.Committed ∧
    pr_idempotent_replay rec = true ∧ pr_version rec = cr_version c ∧ live_eq (publish req s).1 s.
Proof.
  intros Hres Hpol Hc. unfold publish, publish_reserve. live_step.
  rewrite (proj2 (resolve_locked_success _ _ _ _) Hres). unfold policy_locked. rewrite (live_policies _ _ L), Hpol, Hc.
  eexists. split_and!; [done..|]. simpl. by rewrite record_decision_live.
Qed.

Lemma committed_resolved l lim seq o ctx s s' p :
  resolved ctx s o p → o_policy (committed_object l lim seq (reserved_object (pl_pending l) o)) = o_policy o ∧
  (objects s' !! ac_object ctx = Some (committed_object l lim seq (reserved_object (pl_pending l) o)) →
   frame_of s' = frame_of s → resolved ctx s' (committed_object l lim seq (reserved_object (pl_pending l) o)) p).
Proof.
  intros []. split; [unfold committed_object; by destruct (defined (ac_request _))|]. intros Ho [= Hp He Hs _].
  split; try congruence; unfold committed_object; by destruct (defined (ac_request _)).
Qed.

(** C19: exactly once.  Once a publication request that carries an identity has
    committed, presenting it again creates no version: it is answered with the
    version the first one committed, marked as a replay, and leaves the whole
    coherence state as it was. *)
Theorem publish_exactly_once req s s1 rec :
  objects_inv s → publish req s = (s1, success rec) → pr_state rec = PublicationState.Committed →
  defined (ac_request (pb_context req)) = true →
  (∀ o, objects s !! ac_object (pb_context req) = Some o → is_Some (policies s !! o_policy o)) →
  ∃ rec', (publish req s1).2 = success rec' ∧ pr_state rec' = PublicationState.Committed ∧
    pr_idempotent_replay rec' = true ∧ pr_version rec' = pr_version rec ∧ live_eq (publish req s1).1 s1.
Proof.
  intros Hinv E Hst Hd Hpols. destruct (publish_cases _ _ _ _ Hinv E) as [Ein|(o & l & s0 & R & Hid & [(c & ? & _)|(Ha & o' & Hc)])].
  - destruct (publish_reserve_inl _ _ _ _ Ein) as [L Hr]. destruct (Hr rec eq_refl Hst) as (_ & o & p & pol & c & Hres & Hpol & Hc & Hv).
    rewrite Hv. eapply publish_replays; [|by rewrite (live_policies _ _ L)|done].
    apply resolve_locked_success. rewrite L. by apply resolve_locked_success.
  - done.
  - simplify_eq. pose proof R as [[p Hres] _ _ Hnone _ <- Hobj _ [Hrv _] _ _ _ Hfr].
    destruct (Hpols _ (res_object _ _ _ _ Hres)) as [pol Hpol].
    destruct Hc as [(lim & seq & ->) Hframe Hobjs _ _ _ _ _ _ _].
    destruct (committed_resolved l lim seq o _ s s1 p Hres) as [Hpo Hres1].
    assert (frame_of s1 = frame_of s) as Hf.
    { rewrite Hframe. injection Hfr as _ H2 H3 H4 H5. unfold frame_of. by rewrite H2, H3, H4, H5. }
    rewrite Hobj, Hid in Hobjs.
    destruct (publish_replays (pl_request l) s1 _ p pol
      (mkCompletedPublicationRequest (ac_request (pb_context (pl_request l))) (pp_version (pl_pending l))
         (pp_id (pl_pending l)) seq) (Hres1 ltac:(by rewrite Hobjs, lookup_insert_eq) Hf)) as (rec' & ? & ? & ? & Hver & ?).
    + injection Hf as _ _ _ ->. by rewrite Hpo.
    + by apply committed_completed.
    + exists rec'. split_and!; try done. rewrite Hver. simpl. by rewrite Hrv.
Qed.

(** Nothing but a commit publishes.  When [publish] answers anything other
    than a commit - a refusal, a failed append, a superseded reservation - no
    replica changes, and every object keeps its authoritative version and its
    unpublished modification. *)
Theorem uncommitted_publication_keeps_versions req s s' a :
  objects_inv s → publish req s = (s', a) →
  (∀ rec, a = success rec → pr_state rec ≠ PublicationState.Committed) →
  regions s' = regions s ∧
  ∀ k o, objects s !! k = Some o → ∃ o', objects s' !! k = Some o' ∧
    o_authoritative_version o' = o_authoritative_version o ∧ o_published_version o' = o_published_version o ∧
    o_has_unpublished_dirty o' = o_has_unpublished_dirty o.
Proof.
  intros Hinv E Hno. destruct (publish_cases _ _ _ _ Hinv E) as [Ein|(o & l & s1 & R & Hid & [(c & -> & Hregs & Hobjs)|(-> & _)])].
  - destruct (publish_reserve_inl _ _ _ _ Ein) as [L _]. split; [by rewrite L|]. intros k o Ho. exists o. by rewrite (live_objects _ _ L).
  - split; [done|]. intros k o1 Ho1. rewrite Hobjs, (rv_objects _ _ _ _ _ R).
    destruct (rv_resolved _ _ _ _ _ R) as [p Hres]. pose proof (res_object _ _ _ _ Hres) as Ho.
    destruct (decide (ac_object (pb_context req) = k)) as [<-|Hne].
    + rewrite lookup_insert_eq. simplify_eq. eexists. split; [done|]. done.
    + rewrite !lookup_insert_ne by done. eauto.
  - by destruct (Hno _ eq_refl).
Qed.
End publishing.

(** ** Instances on the concrete run *)

Lemma reachable_state_inv {St} `{DurableStore St} P (s : Impl St) fs : reachable P (mkSys s fs) → objects_inv s.
Proof. apply (reachable_objects_inv P (mkSys s fs)). Qed.

Lemma s_write_objects_inv : objects_inv s_write.
Proof.
  apply (reachable_state_inv (λ _, True) s_write []). eexists.
  by apply run_reachable, run_reachable, s_attached_reachable.
Qed.

Lemma store_state_inv {St} `{DurableStore St} f (s : Impl St) : objects_inv s → objects_inv (s <| store ::= f |>).
Proof. done. Qed.

Definition rec_a : PublicationReceipt := answer_or default_PublicationReceipt (publish publish_a s_write).2.

Lemma publish_commits_witness :
  ∃ o p o' r', resolved (pb_context publish_a) s_write o p ∧ o_authority o = AuthorityMode.ExclusiveWriter ∧
    writer_is o (pb_context publish_a) = true ∧
    objects s_published !! ac_object (pb_context publish_a) = Some o' ∧
    o_authoritative_version o' = next_version (o_authoritative_version o) ∧
    o_published_version o' = o_authoritative_version o' ∧ pr_version rec_a = o_authoritative_version o' ∧
    o_publication_state o' = PublicationState.Committed ∧ o_has_unpublished_dirty o' = false ∧
    regions s_published !! pb_region publish_a = Some r' ∧ r_state r' = CoherenceState.Current ∧
    r_version r' = o_authoritative_version o' ∧
    ∀ k r, k ∈ o_replicas o → k ≠ pb_region publish_a → regions s_published !! k = Some r →
      r_state r ≠ CoherenceState.Current.
Proof.
  apply (publish_commits publish_a s_write s_published rec_a); [apply s_write_objects_inv|vm_compute; reflexivity..].
Defined.

Lemma publish_exactly_once_witness :
  ∃ rec', (publish publish_a s_published).2 = success rec' ∧ pr_state rec' = PublicationState.Committed ∧
    pr_idempotent_replay rec' = true ∧ pr_version rec' = pr_version rec_a ∧
    live_eq (publish publish_a s_published).1 s_published.
Proof.
  apply (publish_exactly_once publish_a s_write s_published rec_a);
    [apply s_write_objects_inv|vm_compute; reflexivity..|].
  intros o Ho. apply (f_equal (option_map o_policy)) in Ho. vm_compute in Ho. injection Ho as Ho.
  replace (o_policy o) with (@from_value PolicyIdTag 1) by (symmetry; exact (eq_sym Ho)). vm_compute. by eexists.
Defined.

(** The append of the pending record is refused. *)
Definition s_refusing : Engine :=
  s_write <| store ::= fmap (λ st, mkListStore (ls_snapshot st) (ls_journal st) (ls_appends st) (u64_succ (ls_appends st))) |>.

Lemma uncommitted_publication_keeps_versions_witness :
  (publish publish_a s_refusing).2 = failure StatusCode.PersistenceFailure ∧
  regions (publish publish_a s_refusing).1 = regions s_refusing ∧
  ∀ k o, objects s_refusing !! k = Some o → ∃ o', objects (publish publish_a s_refusing).1 !! k = Some o' ∧
    o_authoritative_version o' = o_authoritative_version o ∧ o_published_version o' = o_published_version o ∧
    o_has_unpublished_dirty o' = o_has_unpublished_dirty o.
Proof.
  split; [vm_compute; reflexivity|].
  apply (uncommitted_publication_keeps_versions publish_a s_refusing (publish publish_a s_refusing).1
    (failure StatusCode.PersistenceFailure)); [apply store_state_inv, s_write_objects_inv|vm_compute; reflexivity|done].
Defined.
