(* ===== verification/Restart.v ===== *)
(** * What a restart leaves

    [attach_store] restores what is durable and nothing that is dynamic, and the
    epoch it starts invalidates every context issued before.  At the end, two
    behaviours that the documentation or a comment describes differently, with
    the runs that show them. *)
From S2P Require Import Prelude Ids Enums Status Bytes Policy Evidence Model Decisions Persistence.
From S2P Require Import Engine Resolve Core Registry Read Write Invalidate Publish Sync Recovery.
From S2P Require Import Auditor Frame Evolution Steps RecoveryFacts System Invariants Scenario.

Section restart.
Context {St : Type} `{DurableStore St}.
Implicit Types s : Impl St.

Lemma attach_store_recovers st s s' rep :
  attach_store st s = (s', success rep) →
  ∃ st' load image, ds_open st = (st', success (load, image)) ∧
    s' = (recover load image (s <| store := Some st' |>)).1.
Proof.
  unfold attach_store. case_decide; [done|]. destruct (decide (_ ∨ _)); [done|].
  destruct (ds_open st) as [st' [[load image]|c]]; [|done]. destruct (recover _ _ _) as [s1 r1] eqn:Er.
  intros [= <- <-]. exists st', load, image. by rewrite Er.
Qed.

(** C20: a restart grants nothing.  After a store was attached, every object
    waits for revalidation: it has no writer, no read grant, no outstanding
    invalidation, no unpublished modification and no publication in flight; no
    replica is current or dirty; no transfer is in flight, no invalidation is
    requested and no participant is live. *)
Theorem restart_grants_nothing st s s' rep :
  attach_store st s = (s', success rep) →
  (∀ k o, objects s' !! k = Some o → o_authority o = AuthorityMode.RevalidationRequired ∧
     defined (o_writer o) = false ∧ o_reads o = [] ∧ o_outstanding_invalidations o = [] ∧
     o_has_unpublished_dirty o = false ∧ o_publication_state o ≠ PublicationState.PendingDurable) ∧
  (∀ k r, regions s' !! k = Some r → r_state r ≠ CoherenceState.Current ∧ r_state r ≠ CoherenceState.Dirty) ∧
  (∀ k y, syncs s' !! k = Some y → not_in_flight y) ∧
  (∀ k i, invalidations s' !! k = Some i → i_state i ≠ InvalidationState.Requested) ∧
  (∀ k p, participants s' !! k = Some p → p_live p = false).
Proof.
  intros (st' & load & image & _ & ->)%attach_store_recovers.
  pose proof (recover_restored load image (s <| store := Some st' |>)) as [Ho _ Hr _ Hy].
  destruct (recover_quiet load image (s <| store := Some st' |>)) as [Hi Hp]. split_and!; [|..|exact Hi|exact Hp].
  - intros k o Hk. destruct (Ho _ _ Hk) as (? & _ & _ & []). rewrite rec_writer. done.
  - intros k r Hk. destruct (Hr _ _ Hk) as (? & _ & _ & []). destruct dg_state as [E|[E|E]]; by rewrite E.
  - intros k y Hk. by destruct (Hy _ _ Hk).
Qed.

(** C21: a restart keeps what was durable.  Every object of the loaded image
    stored under its own identity is there again, with its generation, extent
    and replicas, at its durable version or at the version of a publication
    whose pending record was durable, and that publication is then committed;
    every such replica is there again with its object and extent; and nothing
    is there that the image did not hold. *)
Theorem restart_keeps_durable_facts st s s' rep :
  attach_store st s = (s', success rep) →
  ∃ st' load image, ds_open st = (st', success (load, image)) ∧
    (∀ k o0, img_objects image !! k = Some o0 → o_id o0 = k → ∃ o, objects s' !! k = Some o ∧
       o_generation o = o_generation o0 ∧ o_length o = o_length o0 ∧ o_replicas o = o_replicas o0 ∧
       (o_authoritative_version o = o_authoritative_version o0 ∨
        ∃ pp, img_pending_publications image !! o_pending_publication o0 = Some pp ∧
              o_authoritative_version o = pp_version pp ∧ o_publication_state o = PublicationState.Committed)) ∧
    (∀ k r0, img_regions image !! k = Some r0 → r_id r0 = k → ∃ r, regions s' !! k = Some r ∧
       r_object r = r_object r0 ∧ r_offset r = r_offset r0 ∧ r_length r = r_length r0) ∧
    (∀ k, is_Some (objects s' !! k) → is_Some (img_objects image !! k)) ∧
    (∀ k, is_Some (regions s' !! k) → is_Some (img_regions image !! k)).
Proof.
  intros (st' & load & image & Hopen & ->)%attach_store_recovers. exists st', load, image. split; [done|].
  pose proof (recover_restored load image (s <| store := Some st' |>)) as [Ho Hoc Hr Hrc _]. split_and!.
  - intros k o0 Hk Hid. destruct (Hoc _ _ Hk Hid) as [o Hko]. destruct (Ho _ _ Hko) as (o1 & Hk1 & _ & []).
    simplify_eq. exists o. by split_and!.
  - intros k r0 Hk Hid. destruct (Hrc _ _ Hk Hid) as [r Hkr]. destruct (Hr _ _ Hkr) as (r1 & Hk1 & _ & []).
    simplify_eq. exists r. by split_and!.
  - intros k [o Hk]. destruct (Ho _ _ Hk) as (? & ? & _). eauto.
  - intros k [r Hk]. destruct (Hr _ _ Hk) as (? & ? & _). eauto.
Qed.

(** Contexts from before a restart are refused.  The epoch after a store
    was attached is greater than the epoch of the loaded image (as long as the
    epoch counter has not reached its maximum), so authority validation refuses
    every context issued in the image's epoch or an earlier one. *)
Theorem restart_refuses_old_contexts st st' s s' rep load image :
  attach_store st s = (s', success rep) → ds_open st = (st', success (load, image)) →
  (value (img_epoch image) < u64_max)%N →
  (value (img_epoch image) < value (epoch s'))%N ∧
  ∀ ctx o p, (value (ac_epoch ctx) ≤ value (img_epoch image))%N → resolve_locked ctx s' ≠ success (o, p).
Proof.
  intros Ha Hopen Hmax. destruct (attach_store_recovers _ _ _ _ Ha) as (st1 & load1 & image1 & Hopen1 & ->).
  rewrite Hopen in Hopen1. simplify_eq.
  assert ((value (img_epoch image1) < value (epoch (recover load1 image1 (s <| store := Some st1 |>)).1))%N) as Hlt.
  { rewrite recover_epoch. eapply N.lt_le_trans; [|apply N.le_max_l].
    destruct (defined (img_epoch image1)) eqn:Hd.
    - change (u64_add ?n 1) with (u64_succ n). rewrite u64_succ_small by done. lia.
    - apply defined_false in Hd. by rewrite Hd. }
  split; [done|]. intros ctx o p Hc Hr. apply resolve_locked_success in Hr as []. rewrite res_epoch in Hc. lia.
Qed.
End restart.

(** ** Instances on the concrete run *)

(** The store of the run after version 1 was published, attached again. *)
Definition st_published : ListStore := default empty_store (store s_published).
Definition s_reopened : Engine := (attach_store st_published s_fresh).1.
Definition rep_reopened : RecoveryReport := answer_or default_RecoveryReport (attach_store st_published s_fresh).2.

Lemma restart_grants_nothing_witness :
  o_authoritative_version (object_of s_reopened) = from_value 1 ∧
  (∀ k o, objects s_reopened !! k = Some o → o_authority o = AuthorityMode.RevalidationRequired ∧
     defined (o_writer o) = false ∧ o_reads o = [] ∧ o_outstanding_invalidations o = [] ∧
     o_has_unpublished_dirty o = false ∧ o_publication_state o ≠ PublicationState.PendingDurable) ∧
  (∀ k r, regions s_reopened !! k = Some r →
     r_state r ≠ CoherenceState.Current ∧ r_state r ≠ CoherenceState.Dirty) ∧
  (∀ k y, syncs s_reopened !! k = Some y → not_in_flight y) ∧
  (∀ k i, invalidations s_reopened !! k = Some i → i_state i ≠ InvalidationState.Requested) ∧
  (∀ k p, participants s_reopened !! k = Some p → p_live p = false).
Proof.
  split; [vm_compute; reflexivity|].
  apply (restart_grants_nothing st_published s_fresh s_reopened rep_reopened). vm_compute. reflexivity.
Defined.

Lemma restart_keeps_durable_facts_witness :
  ∃ st' load image, ds_open st_published = (st', success (load, image)) ∧
    (∀ k o0, img_objects image !! k = Some o0 → o_id o0 = k → ∃ o, objects s_reopened !! k = Some o ∧
       o_generation o = o_generation o0 ∧ o_length o = o_length o0 ∧ o_replicas o = o_replicas o0 ∧
       (o_authoritative_version o = o_authoritative_version o0 ∨
        ∃ pp, img_pending_publications image !! o_pending_publication o0 = Some pp ∧
              o_authoritative_version o = pp_version pp ∧ o_publication_state o = PublicationState.Committed)) ∧
    (∀ k r0, img_regions image !! k = Some r0 → r_id r0 = k → ∃ r, regions s_reopened !! k = Some r ∧
       r_object r = r_object r0 ∧ r_offset r = r_offset r0 ∧ r_length r = r_length r0) ∧
    (∀ k, is_Some (objects s_reopened !! k) → is_Some (img_objects image !! k)) ∧
    (∀ k, is_Some (regions s_reopened !! k) → is_Some (img_regions image !! k)).
Proof.
  apply (restart_keeps_durable_facts st_published s_fresh s_reopened rep_reopened). vm_compute. reflexivity.
Defined.

Lemma restart_refuses_old_contexts_witness :
  (value (img_epoch (ls_contents st_published)) < value (epoch s_reopened))%N ∧
  ∀ ctx o p, (value (ac_epoch ctx) ≤ value (img_epoch (ls_contents st_published)))%N →
    resolve_locked ctx s_reopened ≠ success (o, p).
Proof.
  apply (restart_refuses_old_contexts st_published st_published s_fresh s_reopened rep_reopened
    (default_LoadReport <| lr_journal_records_replayed := N.of_nat (length (ls_journal st_published)) |>)
    (ls_contents st_published)); vm_compute; reflexivity.
Defined.

(** ** A publication whose pending record is durable *)

(** The store when the coordinator stops after phase 2 of alpha's publication:
    the pending record is appended, nothing is committed. *)
Definition crashed_store : ListStore :=
  match publish_reserve publish_a s_write with
  | (s, inr locals) => default empty_store (store (publish_durable locals s).1)
  | (_, inl _) => empty_store
  end.

Definition s_restarted : Engine := (attach_store crashed_store s_fresh).1.

(** The pending records a store would load. *)
Definition stored_pending (st : ListStore) : list PendingPublication :=
  (map_to_list (img_pending_publications (ls_contents st))).*2.

(** A durable pending publication can be lost.  The strict policy asks recovery to complete durable pending publications,
    and the pending record of version 1 is durable; but the stored object does
    not name it, so the restarted engine neither completes the publication nor
    asks for an operator: the object has no version and its publication state is
    as if nothing had been published. *)
Theorem durable_pending_publication_is_dropped :
  (pp_version <$> stored_pending crashed_store) = [from_value 1] ∧
  (pol_recovery_policy <$> policy_locked (object_of s_restarted) s_restarted)
    = Some RecoveryPolicy.CompleteDurablePending ∧
  defined (o_authoritative_version (object_of s_restarted)) = false ∧
  o_publication_state (object_of s_restarted) = PublicationState.None ∧
  o_lifecycle (object_of s_restarted) = ObjectLifecycle.Active.
Proof. vm_compute. done. Qed.

(** ** Identities across a restart *)

(** The counters recovery does not raise. *)
Definition unraised {St} (s : Impl St) : N * N := (next_publication_id s, next_lease_id s).

Section unraised.
Context {St : Type} `{DurableStore St}.
Implicit Types s : Impl St.

Lemma restore_image_unraised image previous report s :
  unraised (restore_image image previous report s).1.1 = unraised s.
Proof. pose proof (restore_image_frame image previous report s) as E. unfold unraised. injection E. congruence. Qed.

Lemma append_many_locked_unraised entries s : unraised (append_many_locked entries s).1 = unraised s.
Proof. unfold append_many_locked. repeat case_match; simplify_eq; done. Qed.

Lemma compact_locked_unraised s : unraised (compact_locked s) = unraised s.
Proof. unfold compact_locked. repeat case_match; simplify_eq; done. Qed.

Lemma recover_unraised load image s : unraised (recover load image s).1 = unraised s.
Proof.
  unfold recover.
  destruct (restore_image _ _ _ _) as [[s1 report] bad] eqn:E1.
  apply (f_equal (λ acc, unraised acc.1.1)) in E1. rewrite restore_image_unraised in E1. cbn [fst] in E1.
  destruct (append_many_locked _ _) as [s2 written] eqn:E2.
  apply (f_equal (λ x, unraised x.1)) in E2. rewrite append_many_locked_unraised in E2. cbn [fst] in E2.
  transitivity (unraised s2); [|by rewrite <- E2; symmetry].
  destruct (ok written);
    (match goal with |- context [compact_locked ?x] => transitivity (unraised (compact_locked x)) end;
     [unfold make_context, record_decision; destruct (cfg_enable_decision_log _); reflexivity|etransitivity; [apply compact_locked_unraised|reflexivity]]).
Qed.

Lemma attach_store_unraised st s : unraised (attach_store st s).1 = unraised s.
Proof.
  unfold attach_store. repeat case_match; simplify_eq; try done.
  match goal with H : recover _ _ _ = _ |- _ => apply (f_equal (λ x, unraised x.1)) in H; rewrite recover_unraised in H end.
  by symmetry.
Qed.
End unraised.

(** Identities are reused after a restart.  Attaching a store never raises
    the counters of publications and leases, whatever the image holds; so in the
    run above the restored object remembers publication 1 and the restarted
    engine numbers its next publication 1 again. *)
Theorem publication_numbers_restart :
  (∀ (st : ListStore) (s : Engine), unraised (attach_store st s).1 = unraised s) ∧
  o_publication (object_of s_reopened) = from_value 1 ∧
  next_publication_id s_reopened = 1%N.
Proof. split; [apply attach_store_unraised|vm_compute; done]. Qed.
