(* ===== verification/Journal.v ===== *)
(** * The journal and the in-memory durable image

    Any store, with a ledger beside it of what it has accepted; against that
    ledger, the journal helpers keep the in-memory durable image equal to the
    image the store has acknowledged.  Whether a store loads what it has
    acknowledged is a question about the store, which [Durability.v] answers for
    the two of the program. *)
From S2P Require Import Prelude Ids Enums Status Bytes Policy Evidence Model Decisions Persistence.
From S2P Require Import Framing Files Stores Replay StoreFacts.
From S2P Require Import Engine Resolve Core Registry Read Write Invalidate Publish Sync Recovery Frame System Scenario.

(** ** A store and what it has accepted *)

(** A store together with the image it last loaded or was compacted to, and the
    entries it has accepted since.  The calls are those of the store. *)
Record Recorded (St : Type) := mkRecorded {
  rc_store : St;
  rc_base : DurableImage;
  rc_entries : list JournalEntry }.
Arguments mkRecorded {St}. Arguments rc_store {St}. Arguments rc_base {St}. Arguments rc_entries {St}.

(** The image a store has acknowledged. *)
Definition accepted {St} (st : Recorded St) : DurableImage := apply_all (rc_base st) (rc_entries st).

#[export] Instance recorded_store St `{DurableStore St} : DurableStore (Recorded St) := {
  ds_open st :=
    match ds_open (rc_store st) with
    | (inner, success (load, image)) => (mkRecorded inner image [], success (load, image))
    | (inner, failure e) => (mkRecorded inner (rc_base st) (rc_entries st), failure e)
    end;
  ds_append e st :=
    let '(inner, c) := ds_append e (rc_store st) in
    (mkRecorded inner (rc_base st) (if ok c then rc_entries st ++ [e] else rc_entries st), c);
  ds_compact image st :=
    let '(inner, c) := ds_compact image (rc_store st) in
    ((if ok c then mkRecorded inner image [] else mkRecorded inner (rc_base st) (rc_entries st)), c);
  ds_flush st := let '(inner, c) := ds_flush (rc_store st) in (mkRecorded inner (rc_base st) (rc_entries st), c);
  ds_close st := let '(inner, c) := ds_close (rc_store st) in (mkRecorded inner (rc_base st) (rc_entries st), c);
  ds_journal_bytes st := ds_journal_bytes (rc_store st) }.

Section recorded.
Context {St0 : Type} `{DurableStore St0}.
Notation St := (Recorded St0).
Implicit Types st : St.

Lemma append_accepted e st st' :
  ds_append e st = (st', StatusCode.Ok) → accepted st' = (apply_journal_entry (accepted st) e).1.
Proof.
  cbn. destruct (ds_append e (rc_store st)) as [inner c]. intros [= <- ->]. unfold accepted, apply_all. cbn. by rewrite foldl_app.
Qed.
Lemma append_refused e st st' c : ds_append e st = (st', c) → c ≠ StatusCode.Ok → accepted st' = accepted st.
Proof.
  cbn. destruct (ds_append e (rc_store st)) as [inner c0]. intros [= <- ->] Hc%not_ok_spec. by rewrite Hc.
Qed.
Lemma flush_accepted st : accepted (ds_flush st).1 = accepted st.
Proof. cbn. by destruct (ds_flush (rc_store st)). Qed.
Lemma close_accepted st : accepted (ds_close st).1 = accepted st.
Proof. cbn. by destruct (ds_close (rc_store st)). Qed.
Lemma compact_accepted image st st' : ds_compact image st = (st', StatusCode.Ok) → accepted st' = image.
Proof. cbn. destruct (ds_compact image (rc_store st)) as [inner c]. by intros [= <- ->]. Qed.
Lemma compact_refused image st st' c :
  ds_compact image st = (st', c) → c ≠ StatusCode.Ok → accepted st' = accepted st.
Proof.
  cbn. destruct (ds_compact image (rc_store st)) as [inner c0]. intros [= <- ->] Hc%not_ok_spec. by rewrite Hc.
Qed.
Lemma open_accepted st st' load image : ds_open st = (st', success (load, image)) → accepted st' = image.
Proof. cbn. destruct (ds_open (rc_store st)) as [inner [[load0 image0]|e]]; [|done]. by intros [= <- _ <-]. Qed.
End recorded.

Section journal.
Context {St0 : Type} `{DurableStore St0}.
Notation St := (Recorded St0).
Implicit Types s : Impl St.

(** While the store is healthy it has accepted what the engine believes it has. *)
Definition synced s : Prop :=
  ∀ st, store s = Some st → store_healthy s = true → accepted st = durable s.

Lemma apply_entries_ok image es image' :
  apply_entries image es = (image', StatusCode.Ok) → image' = apply_all image es.
Proof.
  revert image. induction es as [|e es IH]; intros image; simpl; [by intros [= <-]|].
  destruct (apply_journal_entry image e) as [i c]. destruct (ok c) eqn:Ec; [apply IH|]. apply not_ok_spec in Ec. by intros [= _ ?].
Qed.

Lemma append_batch_ok es st st' :
  append_batch es st = (st', StatusCode.Ok) → accepted st' = apply_all (accepted st) es.
Proof.
  revert st. induction es as [|e es IH]; intros st; cbn [append_batch].
  - intros E. rewrite <-(flush_accepted st). by rewrite E.
  - destruct (ds_append e st) as [st1 c] eqn:Ea. destruct (ok c) eqn:Ec.
    + apply ok_spec in Ec as ->. intros E. rewrite (IH _ E). by rewrite (append_accepted _ _ _ Ea).
    + apply not_ok_spec in Ec. by intros [= _ ?].
Qed.

(** The store a journalling helper writes to. *)
Lemma active_store s st : (if cfg_enable_durability (config s) then store s else None) = Some st → store s = Some st.
Proof. by destruct (cfg_enable_durability _). Qed.

Lemma append_locked_synced p s : synced s → synced (append_locked p s).1.
Proof.
  intros Hs. unfold append_locked. destruct (if cfg_enable_durability (config s) then store s else None) as [st|] eqn:Est; [|done].
  apply active_store in Est. destruct (ds_append _ st) as [st' c] eqn:Ea. destruct (ok c) eqn:Ec; [|intros ? _ Hh; discriminate Hh].
  apply ok_spec in Ec as ->. apply append_accepted in Ea. simpl.
  destruct (apply_journal_entry (durable s) _) as [image a] eqn:Eap. destruct (ok a) eqn:Ha; [|intros ? _ Hh; discriminate Hh].
  intros ? [= <-] Hh. simpl in *. rewrite Ea, (Hs st Est Hh), Eap. done.
Qed.

Lemma append_many_locked_synced ps s : synced s → synced (append_many_locked ps s).1.
Proof.
  intros Hs. unfold append_many_locked. destruct (if cfg_enable_durability (config s) then store s else None) as [st|] eqn:Est; [|done].
  apply active_store in Est. destruct ps as [|p ps]; [done|]. set (es := stamp_entries _ _).
  destruct (append_batch es st) as [st' c] eqn:Ea. destruct (ok c) eqn:Ec; [|intros ? _ Hh; discriminate Hh].
  apply ok_spec in Ec as ->. apply append_batch_ok in Ea.
  change (ok StatusCode.Ok) with true. cbv iota zeta.
  match goal with |- context [apply_entries ?i es] => change i with (durable s) end.
  destruct (apply_entries (durable s) es) as [image a] eqn:Eap. destruct (ok a) eqn:Ha; [|intros ? _ Hh; discriminate Hh].
  apply ok_spec in Ha as ->. apply apply_entries_ok in Eap.
  intros ? [= <-] Hh. simpl in *. by rewrite Ea, (Hs st Est Hh), Eap.
Qed.

Lemma maybe_compact_synced s : synced s → synced (maybe_compact_locked s).1.
Proof.
  intros Hs. unfold maybe_compact_locked. destruct (if cfg_enable_durability (config s) then store s else None) as [st|] eqn:Est; [|done].
  apply active_store in Est. case_decide; [done|]. destruct (_ <? _)%N; [done|].
  destruct (ds_compact _ st) as [st' c] eqn:Ec. destruct (ok c) eqn:Hc; [|intros ? _ Hh; discriminate Hh].
  apply ok_spec in Hc as ->. apply compact_accepted in Ec. intros ? [= <-] _. exact Ec.
Qed.

Lemma compact_synced s : synced s → synced (compact_locked s).
Proof.
  intros Hs. unfold compact_locked. destruct (if cfg_enable_durability (config s) then store s else None) as [st|] eqn:Est; [|done].
  apply active_store in Est. case_decide; [done|]. destruct (ds_compact (durable s) st) as [st' c] eqn:Ec.
  intros ? [= <-] Hh. simpl. destruct (decide (c = StatusCode.Ok)) as [->|Hc].
  - exact (compact_accepted _ _ _ Ec).
  - rewrite (compact_refused _ _ _ _ Ec Hc). by apply Hs.
Qed.

(** Journal before image.  Over any store, single appends, grouped
    appends and both forms of compaction keep the in-memory durable image equal
    to what the store has accepted for as long as it is marked healthy; and
    when the store refuses an append or part of a group, the image is left as it
    was, the store is marked unhealthy and its refusal is the answer. *)
Theorem journal_keeps_image_synced s :
  synced s →
  (∀ p, synced (append_locked p s).1) ∧ (∀ ps, synced (append_many_locked ps s).1) ∧
  synced (maybe_compact_locked s).1 ∧ synced (compact_locked s) ∧
  (∀ p st st' c, cfg_enable_durability (config s) = true → store s = Some st →
     ds_append (mkJournalEntry (next_journal_sequence s) p) st = (st', c) → c ≠ StatusCode.Ok →
     durable (append_locked p s).1 = durable s ∧ store_healthy (append_locked p s).1 = false ∧
     (append_locked p s).2 = c) ∧
  (∀ p ps st st' c, cfg_enable_durability (config s) = true → store s = Some st →
     append_batch (stamp_entries (next_journal_sequence s) (p :: ps)) st = (st', c) → c ≠ StatusCode.Ok →
     durable (append_many_locked (p :: ps) s).1 = durable s ∧
     store_healthy (append_many_locked (p :: ps) s).1 = false ∧ (append_many_locked (p :: ps) s).2 = c).
Proof.
  intros Hs. split_and!.
  - intros p. by apply append_locked_synced.
  - intros ps. by apply append_many_locked_synced.
  - by apply maybe_compact_synced.
  - by apply compact_synced.
  - intros p st st' c Hd Hst Ha Hc. unfold append_locked. rewrite Hd, Hst, Ha.
    apply not_ok_spec in Hc. by rewrite Hc.
  - intros p ps st st' c Hd Hst Ha Hc. unfold append_many_locked. rewrite Hd, Hst, Ha.
    apply not_ok_spec in Hc. by rewrite Hc.
Qed.
End journal.

(** ** The stores of the program *)

(** The directory of a file store holds what the store has accepted. *)
Definition file_backed (st : Recorded FileDurableStore) : Prop :=
  file_live (rc_store st) ∧ file_holds (rc_store st) [] (accepted st).

Lemma stamp_numbered n e : j_sequence e ≠ 0%N → (stamp n e).1 = e.
Proof. intros He. unfold stamp. apply N.eqb_neq in He. rewrite He. by case_match. Qed.

(** The file store loads what it has accepted.  As long as the entries are
    numbered and within the decoder's limits, the journal has room and the
    images that are compacted are within the limits too, every accepted call
    keeps the directory at the accepted image, and a process that opens it loads
    that image. *)
Theorem file_store_loads_what_it_accepted st :
  file_backed st →
  (∀ pid, ∃ s report, reopen pid (rc_store st) = (s, success (report, accepted st))) ∧
  (∀ e st', j_sequence e ≠ 0%N → room (rc_store st) e → ds_append e st = (st', StatusCode.Ok) → file_backed st').
Proof.
  intros [Hl Hh]. split.
  - intros pid. destruct (reopen_loads pid (rc_store st) [] _ Hh) as (s & report & E & _). eauto.
  - intros e st' He Hr E. pose proof (append_accepted _ _ _ E) as Ea. revert E. cbn.
    pose proof (file_append_cases (rc_store st) e (accepted st) Hl Hh Hr) as Hc. cbv zeta in Hc. rewrite (stamp_numbered _ e He) in Hc.
    destruct (FileStore.append e (rc_store st)) as [s c]. intros [= <- ->]. destruct (proj1 Hc eq_refl) as [? ?].
    split; [done|]. by rewrite Ea.
Qed.

(** The same of the memory store, compaction included. *)
Definition memory_backed (st : Recorded MemoryDurableStore) : Prop :=
  memory_live (rc_store st) ∧ memory_holds (rc_store st) [] (accepted st).

Theorem memory_store_loads_what_it_accepted st :
  memory_backed st →
  (∃ s report, Memory.open (rc_store st) = (s, success (report, accepted st))) ∧
  (∀ e st' c, j_sequence e ≠ 0%N → storable (ms_limits (rc_store st)) e → ds_append e st = (st', c) → memory_backed st') ∧
  (∀ image st' c, snapshot_ok (ms_limits (rc_store st)) image → ds_compact image st = (st', c) → memory_backed st').
Proof.
  intros [Hl Hh]. split_and!.
  - destruct (memory_open_loads _ [] _ (proj1 Hl) Hh) as (s & report & E & _). eauto.
  - intros e st' c He Hr. pose proof (stamp_numbered (ms_next_sequence (rc_store st)) e He) as Es.
    pose proof (memory_append_cases (rc_store st) (accepted st) e Hl Hh ltac:(by rewrite Es)) as Hc. rewrite Es in Hc.
    cbn. destruct (Memory.append e (rc_store st)) as [s c0]. intros [= <- ->].
    destruct Hc as (Hl' & _ & [[-> Hh']|(-> & Hh' & _)]); (split; [done|]); [|done].
    unfold accepted, apply_all. cbn. rewrite foldl_app. exact Hh'.
  - intros image st' c Hi. destruct (memory_compact_holds (rc_store st) image Hl Hi) as (s & E & Hl' & _ & Hh' & _).
    cbn. rewrite E. by intros [= <- <-].
Qed.

(** ** The run over the memory store *)

Notation MemoryEngine := (Impl (Recorded MemoryDurableStore)).
Definition m_store : Recorded MemoryDurableStore := mkRecorded (new_MemoryDurableStore default_StoreLimits) default_DurableImage [].
Definition m_fresh : MemoryEngine := make_engine default_EngineConfig.
Definition m_attached : MemoryEngine := (attach_store m_store m_fresh).1.
Definition m_write : MemoryEngine := run establish (run (setup (strict_policy "strict")) m_attached).
Definition m_published : MemoryEngine := (publish publish_a m_write).1.

Lemma m_published_synced : synced m_published.
Proof. intros st Hst _. vm_compute in Hst. injection Hst as <-. vm_compute. reflexivity. Qed.

Lemma journal_keeps_image_synced_witness :
  synced (append_locked (SetEpoch (from_value 2)) m_published).1 ∧
  synced (append_many_locked [SetEpoch (from_value 2)] m_published).1.
Proof.
  destruct (journal_keeps_image_synced m_published m_published_synced) as (H1 & H2 & _). split; [apply H1|apply H2].
Defined.
