(* ===== verification/Ledger.v ===== *)
(** * What the journal has of the engine

    An invariant of the running engine over any store: while the store is
    marked healthy it has accepted the engine's image, and that image holds every
    object at its authoritative version.  One lemma per operation; registration, commit
    and recovery, which change what is known, are treated apart.  The theorem
    at the end follows the versions through a restart. *)
From S2P Require Import Prelude Ids Enums Status Bytes Policy Evidence Model Decisions Persistence.
From S2P Require Import Engine Resolve Core Registry Read Write Invalidate Publish Sync Recovery.
From S2P Require Import Framing Files Stores Auditor Frame Evolution Steps RecoveryFacts System Invariants Scenario Restart Journal.

(** ** What is compared *)

(** What a version means to an object: its identity, its static facts and the
    authoritative version. *)
Definition Core : Type := ObjectId * ObjectGeneration * CoherenceDomainId * string * N * VersionId.
Definition core (o : ObjectRecord) : Core :=
  (o_id o, o_generation o, o_domain o, o_name o, o_length o, o_authoritative_version o).

(** The image without the record of publications in flight, which reaches the
    store before the engine's image, and without the log position. *)
Definition settled (image : DurableImage) : DurableImage :=
  image <| img_sequence := 0%N |> <| img_pending_publications := ∅ |>.

Lemma settled_apply a b e :
  settled a = settled b → settled (apply_journal_entry a e).1 = settled (apply_journal_entry b e).1.
Proof.
  destruct a, b. unfold settled. simpl. intros [= -> -> -> -> -> -> -> ->].
  unfold apply_journal_entry. case_match; [done|]. destruct (j_payload e); try done; simpl; repeat case_match; done.
Qed.

Lemma settled_apply_all a b es : settled a = settled b → settled (apply_all a es) = settled (apply_all b es).
Proof. revert a b. induction es as [|e es IH]; intros a b Hab; [done|]. by apply IH, settled_apply. Qed.

(** Records of publications in flight leave the rest of the image alone. *)
Definition publication_record (p : JournalPayload) : bool :=
  match p with SetPendingPublication _ | ClearPendingPublication _ => true | _ => false end.

Lemma settled_publication image e :
  publication_record (j_payload e) = true → settled (apply_journal_entry image e).1 = settled image.
Proof.
  unfold apply_journal_entry. case_match; [done|]. destruct (j_payload e); try done; intros _; simpl; by case_match.
Qed.

(** ** The invariant

    [V.1] is what the engine knows of its objects, [V.2] the part of it that the
    journal has: while the store is healthy it has accepted the engine's image,
    and the image has every object of [V.2] at its version.  The two differ only
    in the middle of an operation that changes a version. *)
Definition Ledger : Type := gmap ObjectId Core * gmap ObjectId Core.

Section durable.
Context {St0 : Type} `{DurableStore St0} (V : Ledger).
Notation St := (Recorded St0).
Implicit Types s : Impl St.

Definition keyed (m : gmap ObjectId Core) : Prop := ∀ k c, m !! k = Some c → c.1.1.1.1.1 = k.

Definition holds_at (image : DurableImage) (k : ObjectId) (c : Core) : Prop :=
  ∃ d, img_objects image !! k = Some d ∧ core d = c.

Definition recorded (image : DurableImage) : Prop := ∀ k c, V.2 !! k = Some c → holds_at image k c.

(** While the store is healthy, what it has accepted and the engine's image are in [R]. *)
Definition in_store (R : DurableImage → DurableImage → Prop) s : Prop :=
  ∀ st, cfg_enable_durability (config s) = true → store s = Some st → store_healthy s = true →
    R (accepted st) (durable s).

Definition in_sync (a b : DurableImage) : Prop := settled a = settled b ∧ recorded b.

Definition durably s : Prop := keyed V.1 ∧ V.2 ⊆ V.1 ∧ core <$> objects s = V.1 ∧ in_store in_sync s.

(** An entry that does not contradict [V]. *)
Definition agrees (p : JournalPayload) : Prop :=
  match p with
  | UpsertObject o => ∀ c, V.2 !! o_id o = Some c → core o = c
  | RemoveObject k => V.2 !! k = None
  | _ => True
  end.

Lemma holds_at_apply image e k c :
  V.2 !! k = Some c → agrees (j_payload e) → holds_at image k c → holds_at (apply_journal_entry image e).1 k c.
Proof.
  intros Hk Ha (d & Hd & Hc). unfold apply_journal_entry, holds_at.
  case_match; [eauto|]. destruct (j_payload e); simpl; repeat case_match; simpl; eauto.
  all: try (destruct (decide (o_id object = k)) as [<-|]; [rewrite lookup_insert_eq; eauto|rewrite lookup_insert_ne by done; eauto]).
  all: simpl in Ha; rewrite lookup_delete_ne; [eauto|congruence].
Qed.

Lemma holds_at_apply_all image es k c :
  V.2 !! k = Some c → Forall agrees (j_payload <$> es) → holds_at image k c → holds_at (apply_all image es) k c.
Proof.
  intros Hk. revert image. induction es as [|e es IH]; intros image; [done|]. cbn [fmap list_fmap]. intros Hes Hr.
  apply Forall_cons in Hes as [? ?]. apply IH; [done|]. by apply holds_at_apply.
Qed.

(** An object is recorded once an entry of it was applied. *)
Lemma holds_at_written image es k c o image' :
  apply_entries image es = (image', StatusCode.Ok) → V.2 !! k = Some c → Forall agrees (j_payload <$> es) →
  UpsertObject o ∈ j_payload <$> es → o_id o = k → holds_at image' k c.
Proof.
  intros Hap Hk Hes Hin Hid. revert image Hap. induction es as [|e es IH]; intros image; [by apply elem_of_nil in Hin|].
  cbn [fmap list_fmap] in Hes, Hin. apply Forall_cons in Hes as [He Hes]. simpl.
  destruct (apply_journal_entry image e) as [i a] eqn:Ei. destruct (ok a) eqn:Ea; [|apply not_ok_spec in Ea; by intros [= _ ?]].
  apply ok_spec in Ea as ->. apply elem_of_cons in Hin as [Hin|Hin]; [|by apply IH]. intros ->%apply_entries_ok.
  apply holds_at_apply_all; [done..|]. revert Ei. destruct e as [n p]. simpl in Hin, He. subst p. unfold apply_journal_entry. simpl.
  destruct (_ =? 0)%N; [done|]. intros [= <-]. exists o. split; [|by apply He; rewrite Hid].
  case_match; simpl; rewrite Hid; apply lookup_insert_eq.
Qed.

Lemma stamped_payloads n ps : j_payload <$> stamp_entries n ps = ps.
Proof. revert n. induction ps as [|p ps IH]; intros n; [done|]. cbn. f_equal. apply IH. Qed.

(** ** What keeps it *)

Lemma in_store_same R s x :
  config s = config x → store s = store x → durable s = durable x → store_healthy s = store_healthy x →
  in_store R x → in_store R s.
Proof. intros Hc Hs Hd Hh. unfold in_store. by rewrite Hc, Hs, Hd, Hh. Qed.

Lemma in_store_unhealthy R s : store_healthy s = false → in_store R s.
Proof. intros Hh st _ _. by rewrite Hh. Qed.

(** A group that was written has been applied on both sides. *)
Lemma in_store_append_many (R : DurableImage → DurableImage → Prop) ps s :
  in_store R s → in_store (λ a' b', ∃ a b es, R a b ∧ j_payload <$> es = ps ∧ a' = apply_all a es ∧
    apply_entries b es = (b', StatusCode.Ok)) (append_many_locked ps s).1.
Proof.
  intros Hs. unfold append_many_locked.
  destruct (cfg_enable_durability (config s)) eqn:Ec; [|intros ? Hc; simpl in Hc; congruence].
  destruct (store s) as [st|] eqn:Est; [|intros ? _ Hst; simpl in Hst; congruence].
  destruct ps as [|p ps].
  { intros st0 Hc Hst Hh. exists (accepted st0), (durable s), []. split; [by apply Hs|done]. }
  set (es := stamp_entries _ (p :: ps)).
  assert (Hes : j_payload <$> es = p :: ps) by apply stamped_payloads. clearbody es.
  destruct (append_batch es st) as [st' c] eqn:Eap. destruct (ok c) eqn:Eok; [|by apply in_store_unhealthy].
  apply ok_spec in Eok as ->. apply append_batch_ok in Eap. cbv beta iota zeta.
  match goal with |- context [apply_entries ?i es] => change i with (durable s) end.
  destruct (apply_entries (durable s) es) as [image a] eqn:Ei.
  destruct (ok a) eqn:Ea; [|by apply in_store_unhealthy]. apply ok_spec in Ea as ->.
  intros st0 _ [= <-] Hh. exists (accepted st), (durable s), es. split; [by apply Hs|done].
Qed.

Lemma durably_same s x :
  objects s = objects x → config s = config x → store s = store x → durable s = durable x →
  store_healthy s = store_healthy x → durably x → durably s.
Proof.
  intros Ho ???? (? & ? & ? & Hs). split_and!; [done|done|by rewrite Ho|]. by eapply in_store_same; [..|exact Hs].
Qed.

Lemma durably_unhealthy s x : objects s = objects x → store_healthy s = false → durably x → durably s.
Proof. intros Ho Hh (? & ? & ? & _). split_and!; [done|done|by rewrite Ho|by apply in_store_unhealthy]. Qed.

Lemma durably_append p s : agrees p → durably s → durably (append_locked p s).1.
Proof.
  intros Ha Hs. unfold append_locked.
  destruct (if cfg_enable_durability (config s) then store s else None) as [st|] eqn:Est; [|done].
  destruct (cfg_enable_durability (config s)) eqn:Ec; [|done].
  destruct (ds_append _ st) as [st' c] eqn:Eap. destruct (ok c) eqn:Eok; [|by eapply (durably_unhealthy _ s)].
  apply ok_spec in Eok as ->. apply append_accepted in Eap.
  change (durable (s <| next_journal_sequence ::= u64_succ |> <| store := Some st' |>)) with (durable s).
  set (e := mkJournalEntry _ p) in *. pose proof (settled_apply (accepted st) (durable s) e) as Hset.
  pose proof (λ k c Hk, holds_at_apply (durable s) e k c Hk Ha) as Hrec.
  destruct (apply_journal_entry (durable s) e) as [image a].
  destruct (ok a); [|by eapply (durably_unhealthy _ s)]. destruct Hs as (? & ? & ? & Hs).
  split_and!; [done..|]. intros st0 _ [= <-] Hh. destruct (Hs st Ec Est Hh) as [? Hr]. simpl.
  rewrite Eap. split; [auto|]. intros k c Hk. by apply Hrec, Hr.
Qed.

Lemma durably_append_many ps s : Forall agrees ps → durably s → durably (append_many_locked ps s).1.
Proof.
  intros Ha (Hk & Hw & Ho & Hs). split_and!; [done|done|by rewrite append_many_locked_live|].
  intros st Hc Hst Hh. destruct (in_store_append_many _ ps s Hs st Hc Hst Hh) as (a & b & es & [Hset Hrec] & Hes & -> & Hb).
  apply apply_entries_ok in Hb as ->. split; [by apply settled_apply_all|]. intros k c Hkc.
  apply holds_at_apply_all; [done|by rewrite Hes|by apply Hrec].
Qed.

(** The store is replaced by one that has accepted the same, or one that was
    given the image. *)
Lemma durably_store s st st' :
  store s = Some st → settled (accepted st') = settled (accepted st) ∨ accepted st' = durable s →
  durably s → durably (s <| store := Some st' |>).
Proof.
  intros Est Hst (? & ? & ? & Hs). split_and!; [done..|]. intros st0 Hc [= <-] Hh.
  destruct (Hs st Hc Est Hh) as [Hset Hrec]. split; [|done]. simpl.
  destruct Hst as [->| ->]; done.
Qed.

Lemma compacted_accepted image st :
  accepted (ds_compact image st).1 = accepted st ∨ accepted (ds_compact image st).1 = image.
Proof.
  destruct (ds_compact image st) as [st' c] eqn:E. destruct (decide (c = StatusCode.Ok)) as [->|Hc].
  - right. exact (compact_accepted _ _ _ E).
  - left. exact (compact_refused _ _ _ _ E Hc).
Qed.

Lemma durably_compacted s st :
  store s = Some st → durably s → durably (s <| store := Some (ds_compact (durable s) st).1 |>).
Proof.
  intros Est. apply (durably_store _ st); [done|]. destruct (compacted_accepted (durable s) st) as [E|E]; rewrite E; auto.
Qed.

Lemma durably_maybe_compact s : durably s → durably (maybe_compact_locked s).1.
Proof.
  intros Hs. unfold maybe_compact_locked. destruct (if cfg_enable_durability (config s) then store s else None) as [st|] eqn:Est; [|done].
  apply active_store in Est. case_decide; [done|]. destruct (_ <? _)%N; [done|].
  pose proof (durably_compacted s st Est Hs) as Hc. destruct (ds_compact _ st) as [st' c]. cbn [fst] in Hc.
  destruct (ok c); [done|]. by eapply durably_unhealthy; [..|exact Hc].
Qed.

Lemma durably_compact s : durably s → durably (compact_locked s).
Proof.
  intros Hs. unfold compact_locked. destruct (if cfg_enable_durability (config s) then store s else None) as [st|] eqn:Est; [|done].
  case_decide; [done|]. apply durably_compacted; [by apply active_store|done].
Qed.

(** The objects of the engine. *)
Lemma durably_object s k o : durably s → objects s !! k = Some o → o_id o = k ∧ V.1 !! k = Some (core o).
Proof.
  intros (Hk & _ & Ho & _) Hl. assert (HV : V.1 !! k = Some (core o)) by (by rewrite <-Ho, lookup_fmap, Hl).
  split; [|done]. exact (Hk _ _ HV).
Qed.

Lemma durably_set_object s k o o' :
  objects s !! k = Some o → core o' = core o → durably s → durably (set_object k o' s).
Proof.
  intros Hk Hc Hs. destruct (durably_object _ _ _ Hs Hk) as [_ HV]. destruct Hs as (? & ? & Ho & ?).
  split_and!; [done|done| |done].
  change (core <$> <[k := o']> (objects s) = V.1). by rewrite fmap_insert, Ho, Hc, insert_id.
Qed.

Lemma durably_alter_object s k f :
  (∀ o, core (f o) = core o) → durably s → durably (s <| objects ::= alter f k |>).
Proof.
  intros Hf (? & ? & Ho & ?). split_and!; [done|done| |done].
  change (core <$> alter f k (objects s) = V.1). rewrite <-Ho. apply map_eq. intros j.
  rewrite !lookup_fmap, lookup_alter. case_decide; [|done]. subst. destruct (objects s !! j); simpl; by rewrite ?Hf.
Qed.

Lemma agrees_object s k o o' :
  durably s → objects s !! k = Some o → core o' = core o → agrees (UpsertObject (scrub_object_for_persistence o')).
Proof.
  intros Hs Hk Hc. destruct (durably_object _ _ _ Hs Hk) as [Hid HV]. intros c.
  change (core (scrub_object_for_persistence o')) with (core o'). rewrite Hc.
  change (o_id (scrub_object_for_persistence o')) with ((core o').1.1.1.1.1). rewrite Hc. simpl. rewrite Hid. intros Hw%(lookup_weaken _ V.1); [congruence|apply Hs].
Qed.

Lemma agrees_entry s k : durably s → Forall agrees (durable_object_entry k s).
Proof.
  intros Hs. unfold durable_object_entry. destruct (objects s !! k) as [o|] eqn:E; [|constructor].
  apply Forall_singleton. by eapply agrees_object.
Qed.

Lemma durably_foldl {B} (f : Impl St → B → Impl St) s l :
  (∀ s x, durably s → durably (f s x)) → durably s → durably (foldl f s l).
Proof. intros Hf. apply (foldl_preserves (λ a b, durably a → durably b)); auto. Qed.

(** A loop that also collects entries. *)
Definition ready (acc : Impl St * list JournalPayload) : Prop := durably acc.1 ∧ Forall agrees acc.2.

Lemma ready_foldl {B} (f : Impl St * list JournalPayload → B → Impl St * list JournalPayload) acc l :
  (∀ acc x, ready acc → ready (f acc x)) → ready acc → ready (foldl f acc l).
Proof. intros Hf. apply (foldl_preserves (λ a b, ready a → ready b)); auto. Qed.

(** The helpers that do not journal. *)
Lemma durably_record k c code s : durably s → durably (record_decision k c code s).
Proof. unfold record_decision. by case_match. Qed.

Lemma durably_recompute id s : durably s → durably (recompute_authority_locked id s).
Proof.
  intros Hs. unfold recompute_authority_locked. destruct (objects s !! id) as [o|] eqn:E; [|done].
  by eapply durably_set_object; [exact E|..].
Qed.
End durable.

(** Name the state a journalling or numbering call returns, with what it keeps. *)
Ltac journal_step :=
  match goal with
  | |- context [append_many_locked ?ps ?s] =>
      let L := fresh "L" in let D := fresh "D" in
      pose proof (append_many_locked_live ps s) as L;
      match goal with |- durably ?V _ => pose proof (durably_append_many V ps s) as D end;
      let s' := fresh "s" in let w := fresh "w" in
      destruct (append_many_locked ps s) as [s' w]; cbn [fst snd] in L, D; cbv beta iota zeta
  | |- context [append_locked ?p ?s] =>
      let L := fresh "L" in let D := fresh "D" in
      pose proof (append_locked_live p s) as L;
      match goal with |- durably ?V _ => pose proof (durably_append V p s) as D end;
      let s' := fresh "s" in let w := fresh "w" in
      destruct (append_locked p s) as [s' w]; cbn [fst snd] in L, D; cbv beta iota zeta
  | |- context [make_context ?a ?o ?g ?w ?s] =>
      let L := fresh "L" in let D := fresh "D" in
      pose proof (make_context_live a o g w s) as L;
      match goal with |- durably ?V _ => assert (durably V s → durably V (make_context a o g w s).2) as D by exact (λ H, H) end;
      let s' := fresh "s" in let c := fresh "ctx" in
      destruct (make_context a o g w s) as [c s']; cbn [fst snd] in L, D; cbv beta iota zeta
  | |- context [make_evidence ?k ?c ?p ?b ?o ?og ?r ?rg ?v ?f ?s] =>
      let L := fresh "L" in let D := fresh "D" in
      pose proof (make_evidence_live k c p b o og r rg v f s) as L;
      match goal with |- durably ?V _ =>
        assert (durably V s → durably V (make_evidence k c p b o og r rg v f s).2) as D by exact (λ H, H) end;
      let s' := fresh "s" in let e := fresh "ev" in
      destruct (make_evidence k c p b o og r rg v f s) as [e s']; cbn [fst snd] in L, D; cbv beta iota zeta
  end.

(** Backwards over the last calls, to a state that is known to keep the journal;
    what remains are the objects that are replaced or written. *)
Ltac hold :=
  repeat (cbn [fst snd]; lazymatch goal with
  | H : durably ?V ?s |- durably ?V ?s => exact H
  | D : _ → durably ?V ?x |- durably ?V ?x => apply D; clear D
  | D : _ → _ → durably ?V ?x |- durably ?V ?x => apply D; clear D
  | |- durably _ (tick ?x) => apply (durably_same _ _ x); [reflexivity..|]
  | |- durably _ (record_decision _ _ _ _) => apply durably_record
  | |- durably _ (upsert_durable_object_locked _ _) => apply durably_append
  | |- durably _ (upsert_durable_region_locked _ _) => apply durably_append
  | |- durably _ (upsert_durable_participant_locked _ _) => apply durably_append
  | |- durably _ (fst (append_locked _ _)) => apply durably_append
  | |- durably _ (fst (append_many_locked _ _)) => apply durably_append_many
  | |- durably _ (fst (maybe_compact_locked _)) => apply durably_maybe_compact
  | |- durably _ (recompute_authority_locked _ _) => apply durably_recompute
  | |- durably _ (set_participant _ _ ?x) => apply (durably_same _ _ x); [reflexivity..|]
  | |- durably _ (set_invalidation _ _ ?x) => apply (durably_same _ _ x); [reflexivity..|]
  | |- durably _ (set_region _ _ ?x) => apply (durably_same _ _ x); [reflexivity..|]
  | |- durably _ (set_sync _ _ ?x) => apply (durably_same _ _ x); [reflexivity..|]
  | |- durably _ (set_object _ _ ?x) => eapply durably_set_object; [eassumption|reflexivity|]
  | |- durably _ (modify_field _ ?x) =>
      first [apply (durably_same _ _ x); [reflexivity..|] | apply durably_alter_object; [reflexivity|]]
  | |- Forall _ (_ ++ _) => apply Forall_app; split
  | |- Forall _ (durable_object_entry _ _) => apply agrees_entry
  | |- Forall _ (_ :: _) => apply Forall_cons; split
  | |- Forall _ [] => apply Forall_nil_2
  | |- agrees ?V (UpsertObject (scrub_object_for_persistence ?o')) =>
      match goal with Hd : durably V ?s, Hk : objects ?s !! ?k = Some ?o |- _ =>
        apply (agrees_object V s k o o' Hd Hk); reflexivity end
  | |- agrees _ _ => exact I
  end).

Ltac holds := solve [hold].

Section core.
Context {St0 : Type} `{DurableStore St0} (V : Ledger).
Notation St := (Recorded St0).
Implicit Types s : Impl St.

Lemma create_domain_durably name s : durably V s → durably V (create_domain name s).1.
Proof. intros Hs. unfold create_domain. repeat (case_match; [holds|]). journal_step. case_match; hold. Qed.

Lemma retire_superseded_durably p b s id : durably V s → durably V (retire_superseded_region p b s id).
Proof.
  intros Hs. unfold retire_superseded_region. case_match; [|holds]. case_match; [holds|]. case_match; [holds|].
  unfold release_region_name_locked. hold. case_match; hold.
Qed.

Lemma store_participant_durably l p s : durably V s → durably V (store_participant l p s).1.
Proof. intros Hs. unfold store_participant. journal_step. case_match; hold. Qed.

Lemma register_participant_durably name b ep l s : durably V s → durably V (register_participant name b ep l s).1.
Proof.
  intros Hs. unfold register_participant. repeat (case_match; [holds|]). case_match.
  - case_match; [|holds]. case_match; [holds|]. case_match; [holds|]. apply store_participant_durably.
    apply durably_foldl; [|done]. intros. by apply retire_superseded_durably.
  - case_match; [holds|]. apply store_participant_durably. hold.
Qed.

Lemma mark_session_closed_durably id b s : durably V s → durably V (mark_session_closed id b s).1.
Proof. intros Hs. unfold mark_session_closed. case_match; [|holds]. case_match; hold. Qed.

Lemma release_reads_durably p b s : durably V s → durably V (release_reads_for_participant_locked p b s).
Proof.
  apply durably_foldl. clear s. intros s id Hs. unfold release_reads_of_object.
  case_match; [|done]. case_match; [|done]. hold.
Qed.

(** ** Fencing *)

Lemma dirty_loss_core loss note o : core (apply_dirty_loss loss note o) = core o.
Proof. unfold apply_dirty_loss. repeat case_match; done. Qed.

Lemma fenced_core loss seq o : core (fenced_writer_object loss seq o) = core o.
Proof.
  unfold fenced_writer_object. etransitivity; [apply (dirty_loss_core loss fence_note)|]. by case_match.
Qed.

Lemma ready_put (acc : Impl St * list JournalPayload) s' ps : ready V acc → durably V s' → Forall (agrees V) ps → ready V (s', acc.2 ++ ps).
Proof. intros [? ?] ??. split; [done|]. by apply Forall_app. Qed.

Lemma fence_object_ready id b acc oid : ready V acc → ready (St0 := St0) V (fence_object id b acc oid).
Proof.
  intros Ha. pose proof Ha as [Hs _]. destruct acc as [s es]. unfold fence_object. cbn [fst] in Hs.
  destruct (objects s !! oid) as [o|] eqn:E; [|done]. case_match; [|done].
  assert (Hn : ∀ ps, Forall (agrees V) ps → ready V (set_object oid (fenced_writer_object (dirty_loss_of o s) (sequence s) o) s, es ++ ps)).
  { intros ps. apply (ready_put (s, es)); [done|]. eapply durably_set_object; [exact E|apply fenced_core|done]. }
  assert (Hu : agrees V (UpsertObject (scrub_object_for_persistence (fenced_writer_object (dirty_loss_of o s) (sequence s) o)))).
  { eapply agrees_object; [exact Hs|exact E|apply fenced_core]. }
  case_match; rewrite <-?app_assoc; apply Hn; by repeat constructor.
Qed.

Lemma fence_region_ready id b reason acc rid : ready V acc → ready (St0 := St0) V (fence_region id b reason acc rid).
Proof.
  intros Ha. pose proof Ha as [Hs _]. destruct acc as [s es]. unfold fence_region. cbn [fst] in Hs.
  case_match; [|done]. do 2 (case_match; [done|]). apply (ready_put (s, es)); [done|hold|by repeat constructor].
Qed.

Lemma fence_sync_ready id b acc yid : ready V acc → ready (St0 := St0) V (fence_sync id b acc yid).
Proof.
  intros Ha. pose proof Ha as [Hs _]. destruct acc as [s es]. unfold fence_sync. cbn [fst] in Hs.
  case_match; [|done]. do 2 (case_match; [done|]). apply (ready_put (s, es)); [done|hold|by repeat constructor].
Qed.

Lemma fence_invalidation_ready id b acc iid : ready V acc → ready (St0 := St0) V (fence_invalidation id b acc iid).
Proof.
  intros Ha. pose proof Ha as [Hs _]. destruct acc as [s es]. unfold fence_invalidation. cbn [fst] in Hs.
  case_match; [|done]. do 2 (case_match; [done|]). apply (ready_put (s, es)); [done|hold|by repeat constructor].
Qed.

Lemma fence_effects_ready id b reason s : durably V s → ready V (fence_effects id b reason s).
Proof.
  intros Hs. unfold fence_effects.
  apply ready_foldl; [intros; by apply fence_invalidation_ready|].
  apply ready_foldl; [intros; by apply fence_sync_ready|].
  apply ready_foldl; [intros; by apply fence_region_ready|].
  apply ready_foldl; [intros; by apply fence_object_ready|]. by split.
Qed.

Lemma fence_participant_durably id ep reason s : durably V s → durably V (fence_participant id ep reason s).1.
Proof.
  intros Hs. unfold fence_participant. case_match; [|holds]. do 2 (case_match; [holds|]).
  destruct (fence_effects_ready id (p_boot p) reason (tick s)) as [He Hes]; [hold|].
  destruct (fence_effects _ _ _ _) as [s1 es]. cbn [fst snd] in He, Hes.
  assert (Hr : durably V (recompute_all_authority (release_reads_for_participant_locked id (p_boot p) s1))).
  { apply durably_foldl; [intros; by apply durably_recompute|]. by apply release_reads_durably. }
  journal_step. case_match; hold; done.
Qed.

(** ** Objects, regions, policies and shutdown *)

Lemma set_policy_durably id g e p s : durably V s → durably V (set_policy id g e p s).1.
Proof.
  intros Hs. unfold set_policy. case_match; [holds|]. case_match; [|holds]. repeat (case_match; [holds|]).
  journal_step. case_match; [journal_step|]; hold.
Qed.

Lemma register_region_durably rn s : durably V s → durably V (register_region rn s).1.
Proof.
  intros Hs. unfold register_region. destruct (check_registration rn s) as [[o p]|c] eqn:Ec; [|holds].
  apply check_registration_inv in Ec as (Ho & _ & _).
  destruct (allocate_id (rn_requested_id rn) _) as [id c1].
  destruct (allocate_id (rn_requested_replica rn) _) as [rep c2].
  case_match; [holds|]. destruct (durability_active _); [journal_step|]; case_match; hold.
Qed.

Lemma release_region_name_durably r s : durably V s → durably V (release_region_name_locked r s).
Proof. intros Hs. unfold release_region_name_locked. case_match; hold. Qed.

Lemma retire_region_durably id g ep s : durably V s → durably V (retire_region id g ep s).1.
Proof.
  intros Hs. unfold retire_region. case_match; [holds|]. destruct (regions s !! id) as [r|] eqn:E; [|holds].
  repeat (case_match; [holds|]).
  set (s1 := release_region_name_locked _ _).
  assert (Hd1 : durably V s1) by (apply release_region_name_durably; hold).
  clearbody s1.
  match goal with |- context [append_locked _ ?x] =>
    assert (Hd2 : durably V x); [|generalize dependent x; intros s2 Hd2] end.
  { destruct (objects s1 !! _) as [o|] eqn:Eo; [|done].
    set (s2 := recompute_authority_locked _ _). assert (Hd2 : durably V s2) by (subst s2; hold). clearbody s2. case_match; hold. }
  journal_step. case_match; hold.
Qed.

Lemma resolve_recovery_durably id g ep note s : durably V s → durably V (resolve_recovery id g ep note s).1.
Proof.
  intros Hs. unfold resolve_recovery. case_match; [holds|]. case_match; [|holds].
  do 3 (case_match; [holds|]). journal_step. case_match; [journal_step|]; hold.
Qed.

Lemma retire_object_durably id g ep s : durably V s → durably V (retire_object id g ep s).1.
Proof.
  intros Hs. unfold retire_object. case_match; [holds|]. case_match; [|holds]. repeat (case_match; [holds|]).
  journal_step. case_match; hold. apply durably_foldl; [|hold].
  intros x id' Hx. unfold retire_replica. case_match; hold.
Qed.

Lemma shutdown_core seq o : core (shutdown_object_record seq o) = core o.
Proof. unfold shutdown_object_record. by case_match. Qed.

Lemma begin_shutdown_durably ep s : durably V s → durably V (begin_shutdown ep s).1.
Proof.
  intros Hs. unfold begin_shutdown. case_match; [holds|]. case_match; [holds|]. journal_step. hold.
  apply durably_foldl; [intros x id Hx; unfold shutdown_invalidation; case_match; [|done]; case_match; [done|hold]|].
  apply durably_foldl; [intros x id Hx; unfold shutdown_sync; case_match; [|done]; case_match; [done|hold]|].
  apply durably_foldl; [|hold].
  intros x id Hx. unfold shutdown_object. destruct (objects x !! id) as [o|] eqn:E; [|done].
  assert (Hx1 : durably V (set_object id (shutdown_object_record (sequence x) o) x)).
  { eapply durably_set_object; [exact E|apply shutdown_core|done]. }
  apply durably_append; [eapply agrees_object; [exact Hx|exact E|apply shutdown_core]|]. case_match; hold.
Qed.

Lemma complete_shutdown_durably ep s : durably V s → durably V (complete_shutdown ep s).1.
Proof.
  intros Hs. unfold complete_shutdown. do 3 (case_match; [holds|]). hold.
  destruct (if cfg_enable_durability (config s) then store s else None) as [st|] eqn:Est; [|done].
  apply active_store in Est. apply (durably_store _ _ st); [done| |done]. rewrite close_accepted, flush_accepted.
  destruct (compacted_accepted (durable s) st) as [E|E]; rewrite E; auto.
Qed.

Lemma flush_durably s : durably V s → durably V (flush_durable s).1.
Proof.
  intros Hs. unfold flush_durable. destruct (if cfg_enable_durability (config s) then store s else None) as [st|] eqn:Est; [|done].
  apply active_store in Est. pose proof (flush_accepted st) as Hf. destruct (ds_flush st) as [st' c]. cbn [fst] in Hf.
  apply (durably_store _ _ st); [done|left; by rewrite Hf|done].
Qed.

(** ** Reads and writes *)

Lemma select_read_region_durably k req s : durably V s → durably V (select_read_region_locked k req s).2.
Proof.
  intros Hs. unfold select_read_region_locked. case_match; [done|]. case_match; [|done].
  case_match; [done|]. case_match; cbn [snd]; (eapply durably_set_object; [eassumption| |done]); by case_match.
Qed.

Lemma add_read_grant_core o r p b l s : core (add_read_grant_locked o r p b l s) = core o.
Proof. unfold add_read_grant_locked. repeat case_match; done. Qed.

Lemma lease_read_durably k req r d s : durably V s → durably V (lease_read k req r d s).2.
Proof.
  intros Hs. unfold lease_read. case_match; [|done]. cbn [snd].
  eapply durably_set_object; [eassumption|apply add_read_grant_core|hold].
Qed.

Lemma recoverable_source_durably k r s : durably V s → durably V (recoverable_source k r s).2.
Proof.
  intros Hs. unfold recoverable_source. case_match; [|done]. case_match; [done|]. case_match; [|done]. cbn [snd]. hold.
Qed.

Lemma read_region_durably k req lease pol o r d s : durably V s → durably V (read_region k req lease pol o r d s).1.
Proof.
  intros Hs. unfold read_region, blocked_read, answer_read. case_match; [holds|]. case_match.
  - destruct lease; [|holds].
    match goal with |- context [lease_read k req r ?d s] =>
      pose proof (lease_read_durably k req r d s Hs); destruct (lease_read k req r d s) end. hold.
  - case_match; [holds|]. repeat (case_match; [holds|]).
    pose proof (recoverable_source_durably k r s Hs) as E. destruct (recoverable_source k r s) as [b s'].
    cbn [snd] in E. case_match; hold.
Qed.

Lemma compute_read_durably req lease s : durably V s → durably V (compute_read_locked req lease s).1.
Proof.
  intros Hs. unfold compute_read_locked. journal_step. specialize (D Hs). case_match; [|unfold answer_read; hold].
  case_match. case_match; [|holds]. case_match; [unfold answer_read; hold|].
  pose proof (select_read_region_durably (ac_object (rr_context req)) (rr_region req) s0 D) as E.
  destruct (select_read_region_locked _ _ _) as [sel s1]. cbn [snd] in E.
  unfold answer_read. do 2 (case_match; [holds|]). case_match; [|holds]. by apply read_region_durably.
Qed.

Lemma acquire_read_durably req s : durably V s → durably V (acquire_read req s).1.
Proof.
  intros Hs. unfold acquire_read. pose proof (compute_read_durably req true s Hs) as E.
  destruct (compute_read_locked req true s) as [s1 out]. cbn [fst] in *. case_match; hold.
Qed.

Lemma explain_read_durably req s : durably V s → durably V (explain_read req s).1.
Proof.
  intros Hs. unfold explain_read. pose proof (compute_read_durably req false s Hs) as E.
  destruct (compute_read_locked req false s) as [s1 out]. cbn [fst] in *. repeat case_match; hold.
Qed.

Lemma reserve_write_durably k ctx c o p req g s :
  objects s !! k = Some o → durably V s → durably V (reserve_write k ctx c o p req g s).1.
Proof.
  intros Hk Hs. unfold reserve_write. set (o1 := reserve_writer _ _ _ _ _). set (iss := issue_invalidations _ _ _ _).
  assert (Hi : Forall (agrees V) (UpsertInvalidation <$> iss)).
  { apply Forall_fmap, Forall_forall. intros i _. exact I. }
  clearbody iss. journal_step. assert (D' : durably V s0).
  { apply D; [|hold]. apply Forall_cons. split; [|done]. hold. }
  case_match.
  - unfold answer_write. hold. apply durably_foldl; [|done]. intros x i Hx. unfold install_invalidation. hold.
  - cbn [fst]. eapply durably_set_object; [rewrite L; apply lookup_insert_eq|done|done].
Qed.

Lemma write_transfer_durably k ctx c o g s :
  objects s !! k = Some o → durably V s → durably V (write_transfer_pending k ctx c o g s).1.
Proof.
  intros Hk Hs. unfold write_transfer_pending, answer_write. case_match; [holds|]. case_match; [|holds].
  journal_step. case_match; hold.
Qed.

Lemma acquire_write_durably req s : durably V s → durably V (acquire_write req s).1.
Proof.
  intros Hs. unfold acquire_write. journal_step. specialize (D Hs).
  destruct (resolve_locked _ s) as [[o p]|c] eqn:Er; [|holds].
  apply resolve_locked_success in Er.
  assert (Hk : objects s0 !! ac_object (wr_context req) = Some o) by (rewrite L; apply Er).
  destruct (policy_locked o s0) as [pol|]; [|holds]. unfold answer_write.
  destruct (negb (ok (write_gate pol o))); [holds|].
  destruct (resolve_writer_region req o s0) as [wr|c]; [|holds].
  destruct (decide (_ ∧ _)); [holds|]. destruct (decide (o_authority o = AuthorityMode.TransferPending)).
  { by apply write_transfer_durably. }
  destruct (decide (o_authority o = AuthorityMode.ExclusiveWriter)); [holds|].
  match goal with |- context [if ?b then _ else if decide (_ ∧ _) then _ else _] => destruct b end; [holds|].
  destruct (decide (_ ∧ _)); [holds|]. by apply reserve_write_durably.
Qed.

(** ** Dirty state, invalidation and revalidation *)

Lemma mark_dirty_durably req s : durably V s → durably V (mark_dirty req s).1.
Proof.
  intros Hs. unfold mark_dirty. journal_step. specialize (D Hs).
  destruct (resolve_locked _ s) as [[o p]|c] eqn:Er; [|holds]. apply resolve_locked_success in Er.
  assert (Hk : objects s0 !! ac_object (dr_context req) = Some o) by (rewrite L; apply Er).
  case_match; [holds|]. case_match; [|holds]. case_match; [holds|]. journal_step. case_match; hold.
Qed.

Lemma invalidate_live_durably k req c o r s :
  objects s !! k = Some o → durably V s → durably V (invalidate_live k req c o r s).1.
Proof.
  intros Hk Hs. unfold invalidate_live. destruct (ir_acknowledgement_required req); journal_step; case_match; hold.
Qed.

Lemma invalidate_durably req s : durably V s → durably V (invalidate req s).1.
Proof.
  intros Hs. unfold invalidate. destruct (resolve_internal_locked _ _) as [o|c] eqn:Er; [|holds].
  apply resolve_internal_inv in Er. journal_step. specialize (D Hs). rewrite <-(live_objects _ _ L) in Er.
  case_match; [holds|]. case_match; [|holds].
  do 2 (case_match; [holds|]). case_match; [unfold invalidate_inert; journal_step; case_match; hold|].
  case_match; [holds|]. by apply invalidate_live_durably.
Qed.

Lemma settle_invalidation_durably k id i s : durably V s → durably V (settle_invalidation k id i s).
Proof. intros Hs. unfold settle_invalidation. hold. Qed.

Lemma acknowledge_durably ack s : durably V s → durably V (acknowledge_invalidation ack s).1.
Proof.
  intros Hs. unfold acknowledge_invalidation. case_match; [|holds]. journal_step. specialize (D Hs). case_match; [|holds].
  case_match. repeat (case_match; [holds|]).
  assert (Hset : ∀ k id i x, durably V x → durably V (settle_invalidation k id i x))
    by exact settle_invalidation_durably.
  destruct (regions s0 !! _) as [r|] eqn:Er.
  - case_match; [|unfold apply_acknowledgement]; journal_step; [hold; by apply Hset|].
    case_match; hold; apply Hset; hold.
  - journal_step. hold. by apply Hset.
Qed.

Lemma revalidate_durably req s : durably V s → durably V (revalidate_region req s).1.
Proof.
  intros Hs. unfold revalidate_region. case_match; [|holds]. case_match. case_match; [|holds]. case_match; [holds|].
  journal_step. journal_step. case_match; [journal_step|]; hold.
Qed.

(** ** Release and synchronization *)

Lemma context_if_resolved_durably ctx s : durably V s → durably V (context_if_resolved ctx s).2.
Proof. intros Hs. unfold context_if_resolved. by case_match. Qed.

Lemma release_read_durably req out o s :
  objects s !! ac_object (rl_context req) = Some o → durably V s → durably V (release_read req out o s).1.
Proof.
  intros Hk Hs. unfold release_read. case_match; [|holds]. case_match; [holds|]. journal_step. case_match; hold.
Qed.

Lemma released_core loss o : core (released_object loss o) = core o.
Proof. unfold released_object. by rewrite dirty_loss_core. Qed.

Lemma lose_dirty_ready acc id : ready V acc → ready (St0 := St0) V (lose_dirty_region acc id).
Proof.
  intros Ha. pose proof Ha as [Hs _]. destruct acc as [s es]. unfold lose_dirty_region. cbn [fst] in Hs.
  case_match; [|done]. case_match; [|done]. apply (ready_put (s, es)); [done|hold|by repeat constructor].
Qed.

Lemma release_write_durably req out o s :
  objects s !! ac_object (rl_context req) = Some o → durably V s → durably V (release_write req out o s).1.
Proof.
  intros Hk Hs. unfold release_write. do 2 (case_match; [holds|]).
  set (s1 := set_object _ _ _).
  assert (Hd1 : durably V s1) by (eapply durably_set_object; [exact Hk|apply released_core|hold]).
  clearbody s1.
  match goal with |- context [if o_has_unpublished_dirty o then ?a else ?b] =>
    set (x := if o_has_unpublished_dirty o then a else b) end.
  assert (Hx : ready V x).
  { subst x. case_match; [|by split]. apply ready_foldl; [intros; by apply lose_dirty_ready|by split]. }
  destruct x as [s2 es], Hx as [Hd2 Hes]. cbn [fst snd] in Hd2, Hes. journal_step. case_match; hold; done.
Qed.

Lemma release_durably req s : durably V s → durably V (release req s).1.
Proof.
  intros Hs. unfold release. pose proof (context_if_resolved_live (rl_context req) s) as L.
  pose proof (context_if_resolved_durably (rl_context req) s Hs) as D.
  destruct (context_if_resolved _ s) as [ctx s0]. cbn [snd] in L, D. cbv beta iota zeta.
  destruct (resolve_locked _ s) as [[o p]|c] eqn:Er; [|holds]. apply resolve_locked_success in Er.
  assert (Hk : objects s0 !! ac_object (rl_context req) = Some o) by (rewrite L; apply Er).
  case_match; [by apply release_read_durably|]. case_match; [holds|]. by apply release_write_durably.
Qed.

Lemma begin_sync_durably req s : durably V s → durably V (begin_sync req s).1.
Proof.
  intros Hs. unfold begin_sync. pose proof (context_if_resolved_durably (sr_context req) s Hs) as D.
  destruct (context_if_resolved _ s) as [ctx s0]. cbn [snd] in D. cbv beta iota zeta.
  case_match; [|holds]. case_match. do 2 (case_match; [holds|]). case_match; [|holds].
  do 2 (case_match; [holds|]). case_match; [|holds]. journal_step. case_match; hold.
Qed.

Lemma settle_sync_durably id y r s : durably V s → durably V (settle_sync id y r s).1.
Proof. intros Hs. unfold settle_sync. destruct r; hold. Qed.

(** Name the state [settle_sync] returns. *)
Ltac settle_step :=
  match goal with
  | |- context [settle_sync ?id ?y ?r ?s] =>
      let E := fresh "E" in assert (durably V (settle_sync id y r s).1) as E by (apply settle_sync_durably; hold);
      destruct (settle_sync id y r s); cbn [fst] in E; cbv beta iota zeta
  end.

Lemma complete_sync_durably req s : durably V s → durably V (complete_sync req s).1.
Proof.
  intros Hs. unfold complete_sync. case_match; [|holds]. journal_step. specialize (D Hs).
  case_match; [|holds]. case_match. repeat (case_match; [holds|]). case_match; [|holds]. unfold settle_completion.
  case_match; [|case_match; [|case_match; [|case_match]]];
    unfold cancel_completion, fail_completion, unmoved_completion, finish_completion;
    try (journal_step; specialize (D0 D)); settle_step; repeat case_match; hold.
Qed.

Lemma fail_sync_durably req s : durably V s → durably V (fail_sync req s).1.
Proof.
  intros Hs. unfold fail_sync. destruct (syncs s !! _) as [y|]; [|holds]. journal_step. specialize (D Hs). do 2 (case_match; [holds|]).
  destruct (regions (tick s0) !! _) as [r|]; settle_step; case_match; hold.
Qed.

(** ** Publication *)

(** The entry of a publication in flight is a record of it. *)
Definition records_publication (l : PublishLocals) : Prop := publication_record (j_payload (pl_entry l)) = true.

Lemma publish_reserve_durably req s :
  durably V s → durably V (publish_reserve req s).1 ∧ ∀ l, (publish_reserve req s).2 = inr l → records_publication l.
Proof.
  intros Hs. unfold publish_reserve.
  destruct (make_context _ _ _ _ s) as [ctx s0] eqn:Em.
  assert (D : durably V s0) by (by injection Em as <- <-).
  assert (L : live_eq s0 s) by (injection Em as <- <-; by split).
  destruct (resolve_locked _ s) as [[o p]|c] eqn:Er; [|split; [hold|done]]. apply resolve_locked_success in Er.
  assert (Hk : objects s0 !! ac_object (pb_context req) = Some o) by (rewrite L; apply Er).
  case_match; [|split; [hold|done]]. case_match; [split; [hold|done]|]. case_match; [split; [hold|done]|].
  case_match; [|split; [hold|done]]. case_match; [split; [hold|done]|]. unfold reserve_publication. split.
  - hold.
  - by intros l [= <-].
Qed.

Lemma publish_durable_durably l s : records_publication l → durably V s → durably V (publish_durable l s).1.
Proof.
  intros Hl Hs. unfold publish_durable. destruct (if pl_durable_required l then store s else None) as [st|] eqn:Est; [|done].
  assert (Es : store s = Some st) by (by destruct (pl_durable_required l)).
  destruct (ds_append _ st) as [st' c] eqn:Ea. destruct (ok c) eqn:Ec.
  - apply ok_spec in Ec as ->. apply append_accepted in Ea. apply (durably_store _ _ st); [done| |done].
    left. by rewrite Ea, settled_publication.
  - by eapply (durably_unhealthy _ _ s).
Qed.

(** The image takes in a record of a publication. *)
Lemma durably_publication s e :
  publication_record (j_payload e) = true → durably V s → durably V (s <| durable := (apply_journal_entry (durable s) e).1 |>).
Proof.
  intros He (? & ? & ? & Hs). split_and!; [done..|]. intros st Hc Est Hh. destruct (Hs st Hc Est Hh) as [Hset Hrec].
  split; simpl; [by rewrite settled_publication|]. intros k c Hk.
  apply (holds_at_apply V); [done|by destruct (j_payload e)|by apply Hrec].
Qed.

Lemma apply_pending_durably l s : records_publication l → durably V s → durably V (apply_pending_entry l s).
Proof.
  intros Hl Hs. unfold apply_pending_entry. case_match; [|done]. pose proof (durably_publication s (pl_entry l) Hl Hs) as Hd.
  destruct (apply_journal_entry _ _) as [image a]. cbn [fst] in Hd. cbv beta iota zeta. case_match; [done|].
  by eapply durably_unhealthy; [..|exact Hd].
Qed.

Lemma clear_superseded_durably l o s : durably V s → durably V (clear_superseded l o s).
Proof.
  intros Hs. unfold clear_superseded. case_match; [|done].
  set (e := mkJournalEntry _ _). set (s1 := s <| next_journal_sequence ::= u64_succ |>).
  assert (Hd1 : durably V s1) by exact Hs. clearbody s1. cbv zeta. apply (durably_publication _ e); [done|].
  destruct (store s1) as [st|] eqn:Est; [|done]. apply (durably_store _ _ st); [done| |done].
  left. destruct (ds_append e st) as [st' c] eqn:Ea. destruct (decide (c = StatusCode.Ok)) as [->|Hc].
  - apply append_accepted in Ea. cbn [fst]. by rewrite Ea, settled_publication.
  - cbn [fst]. by rewrite (append_refused _ _ _ _ Ea Hc).
Qed.

Lemma mark_stale_durably o v e s : durably V s → durably V (mark_regions_stale_locked o v e s).
Proof.
  intros Hs. unfold mark_regions_stale_locked. case_match; [|done]. apply durably_foldl; [|done].
  intros x id Hx. unfold mark_region_stale. case_match; [done|]. case_match; [|done]. case_match; [|done]. hold.
Qed.
End core.

(** ** New versions *)

Section versions.
Context {St0 : Type} `{DurableStore St0}.
Notation St := (Recorded St0).
Implicit Types (s : Impl St) (m : gmap ObjectId Core).

(** A written group records the objects it has entries of. *)
Lemma in_sync_extend V V' ps s :
  in_store (in_sync V) s → Forall (agrees V') ps →
  (∀ k c, V'.2 !! k = Some c → V.2 !! k = Some c ∨ ∃ o, UpsertObject o ∈ ps ∧ o_id o = k) →
  in_store (in_sync V') (append_many_locked ps s).1.
Proof.
  intros Hs Ha Hext st Hc Hst Hh.
  destruct (in_store_append_many _ ps s Hs st Hc Hst Hh) as (a & b & es & [Hset Hrec] & Hes & -> & Hb).
  rewrite <-Hes in Ha. pose proof (apply_entries_ok _ _ _ Hb) as Hb'. split.
  - rewrite Hb'. by apply settled_apply_all.
  - intros k c Hk. destruct (Hext _ _ Hk) as [Hw|(o & Ho & Hid)].
    + rewrite Hb'. apply (holds_at_apply_all V'); [done|done|by apply Hrec].
    + rewrite <-Hes in Ho. by eapply (holds_at_written V').
Qed.

Definition on_record s : Prop := ∃ m, durably (m, m) s.

(** A registered object is on record, as long as its identity is new. *)
Definition fresh_object s : Prop := objects s !! from_value (next_object_id s) = None.

Lemma register_object_recorded d n l p s : fresh_object s → on_record s → on_record (register_object d n l p s).1.
Proof.
  intros Hf [m Hs]. unfold register_object. repeat (case_match; [by exists m|]).
  set (stored := stored_policy p _). set (record := new_object _ d n l stored _). set (s1 := s <| next_policy_id ::= _ |> <| next_object_id ::= _ |>).
  assert (Hs1 : durably (m, m) s1) by exact Hs.
  assert (Hm : m !! o_id record = None).
  { destruct Hs as (_ & _ & Ho & _). cbn [fst] in Ho. rewrite <-Ho, lookup_fmap. subst record. simpl. by rewrite Hf. }
  set (ps := [UpsertPolicy stored; UpsertObject (scrub_object_for_persistence record)]).
  assert (Ha : Forall (agrees (m, m)) ps).
  { repeat constructor. intros c Hc. change (m !! o_id record = Some c) in Hc. by rewrite Hm in Hc. }
  set (m' := <[o_id record := core record]> m).
  assert (Ha' : Forall (agrees (m', m')) ps).
  { repeat constructor. intros c Hc. change (m' !! o_id record = Some c) in Hc. subst m'. rewrite lookup_insert_eq in Hc. by simplify_eq. }
  pose proof (durably_append_many _ ps s1 Ha Hs1) as Hd.
  pose proof (in_sync_extend (m, m) (m', m') ps s1 (proj2 (proj2 (proj2 Hs1))) Ha') as Hx.
  destruct (append_many_locked ps s1) as [s2 w]. cbn [fst] in Hd, Hx. cbv beta iota zeta.
  destruct (ok w); [|by exists m]. exists m'. destruct Hd as (Hk & _ & Ho & _). cbn [fst] in Hk, Ho. split_and!; cbn [fst snd].
  - intros k c Hkc. subst m'. destruct (decide (k = o_id record)) as [->|].
    + rewrite lookup_insert_eq in Hkc. by simplify_eq.
    + rewrite lookup_insert_ne in Hkc by done. by apply Hk.
  - done.
  - change (core <$> emplace (o_id record) record (objects s2) = m'). unfold emplace.
    destruct (objects s2 !! o_id record) as [o|] eqn:E.
    + rewrite <-Ho, lookup_fmap, E in Hm. done.
    + by rewrite fmap_insert, Ho.
  - eapply in_store_same; [reflexivity..|]. apply Hx. intros k c Hkc. subst m'. cbn [snd] in Hkc |- *.
    destruct (decide (k = o_id record)) as [->|]; [right|left; by rewrite lookup_insert_ne in Hkc].
    exists (scrub_object_for_persistence record). split; [set_solver|done].
Qed.

(** ** Commit *)

Lemma publish_from_region_durably V l o s : durably V s → durably V (publish_from_region l o s).
Proof. intros Hs. unfold publish_from_region. case_match; [|done]. journal_step. hold. Qed.

Lemma committed_id l lim seq o : o_id (committed_object l lim seq o) = o_id o.
Proof. unfold committed_object. by case_match. Qed.

Lemma commit_recorded l o s :
  objects s !! pp_object (pl_pending l) = Some o → on_record s → on_record (commit_publication l o s).1.
Proof.
  intros Hk [m Hs]. set (key := pp_object (pl_pending l)) in *. unfold commit_publication. fold key.
  set (o' := committed_object l _ _ o).
  destruct (durably_object _ _ _ _ Hs Hk) as [Hid Hm]. cbn [fst] in Hm.
  assert (Hid' : o_id o' = key) by (subst o'; by rewrite committed_id). clearbody o'.
  set (m' := <[key := core o']> m).
  assert (Hs1 : durably (m', delete key m) (set_object key o' (tick s))).
  { destruct Hs as (Hkey & _ & Ho & Hst). cbn [fst] in Hkey, Ho. split_and!; cbn [fst snd].
    - intros k c Hkc. subst m'. destruct (decide (k = key)) as [->|].
      + rewrite lookup_insert_eq in Hkc. by simplify_eq.
      + rewrite lookup_insert_ne in Hkc by done. by apply Hkey.
    - subst m'. rewrite <-insert_delete_eq. apply insert_subseteq, lookup_delete_eq.
    - change (core <$> <[key := o']> (objects s) = m'). by rewrite fmap_insert, Ho.
    - intros st Hc Hst' Hh. destruct (Hst st Hc Hst' Hh) as [Hset Hrec]. split; [exact Hset|].
      intros k c Hkc. apply Hrec. cbn [snd] in *. by apply lookup_delete_Some in Hkc as [_ ?]. }
  apply (publish_from_region_durably _ l o') in Hs1.
  apply (mark_stale_durably _ (o_id o') (pp_version (pl_pending l)) (pb_region (pl_request l))) in Hs1.
  set (s3 := mark_regions_stale_locked _ _ _ _) in *. clearbody s3. clear s Hs Hk. exists m'.
  apply durably_maybe_compact, durably_record.
  destruct Hs1 as (Hkey & _ & Ho & Hst). split_and!; [done|done|by rewrite append_many_locked_live|].
  eapply in_sync_extend; [exact Hst| |].
  - unfold commit_entries. cbn [app]. repeat apply Forall_cons_2; [|done|].
    + intros c Hc. cbn [snd] in Hc. change (o_id (scrub_object_for_persistence o')) with (o_id o') in Hc.
      subst m'. rewrite Hid', lookup_insert_eq in Hc. by simplify_eq.
    + apply Forall_app. split; [case_match; by repeat constructor|]. apply Forall_concat, Forall_fmap, Forall_forall.
      intros id _. simpl. case_match; by repeat constructor.
  - intros k c Hkc. subst m'. cbn [snd] in *. destruct (decide (k = key)) as [->|].
    + right. exists (scrub_object_for_persistence o'). split; [|done]. unfold commit_entries. set_solver.
    + left. rewrite lookup_insert_ne in Hkc by done. by rewrite lookup_delete_ne.
Qed.

Lemma publish_commit_recorded l c s : records_publication l → on_record s → on_record (publish_commit l c s).1.
Proof.
  intros Hl [m Hs]. unfold publish_commit. set (s1 := s <| in_flight_publications ::= _ |>).
  assert (Hs1 : durably (m, m) s1) by exact Hs. clearbody s1.
  destruct (objects s1 !! _) as [o|] eqn:E; [|by exists m]. case_match; [exists m; hold|].
  pose proof (apply_pending_durably _ l s1 Hl Hs1) as Hs2. pose proof (apply_pending_entry_live l s1) as L.
  rewrite <-(live_objects _ _ L) in E. set (s2 := apply_pending_entry l s1) in *. clearbody s2.
  case_match; [|apply commit_recorded; [done|by exists m]]. exists m. hold. apply clear_superseded_durably. hold.
Qed.

(** ** Recovery *)

(** The first entry of the write-back brings the epoch of the store up to date. *)
Lemma settled_epoch image ep es b :
  apply_entries (image <| img_epoch := ep |>) es = (b, StatusCode.Ok) → head (j_payload <$> es) = Some (SetEpoch ep) →
  settled (apply_all image es) = settled b.
Proof.
  intros Hb Hh. pose proof (apply_entries_ok _ _ _ Hb) as ->. destruct es as [|e es]; [done|].
  cbn [fmap list_fmap head] in Hh. injection Hh as Hp. revert Hb. cbn [apply_entries].
  destruct (apply_journal_entry (image <| img_epoch := ep |>) e) as [i a] eqn:Ei. destruct (ok a) eqn:Ea; [|apply not_ok_spec in Ea; by intros [= _ ?]].
  intros _. apply (settled_apply_all (apply_journal_entry image e).1 (apply_journal_entry (image <| img_epoch := ep |>) e).1).
  apply ok_spec in Ea as ->. revert Ei. destruct e as [n p]. simpl in Hp. subst p. unfold apply_journal_entry. simpl.
  destruct (n =? 0)%N; [done|]. intros _. repeat case_match; done.
Qed.

Lemma recovery_entry_object image s o :
  UpsertObject o ∈ recovery_entries image s → ∃ k o', objects s !! k = Some o' ∧ o = scrub_object_for_persistence o'.
Proof.
  unfold recovery_entries. rewrite !elem_of_app. intros Ho.
  assert (Hin : UpsertObject o ∈ (λ o, UpsertObject (scrub_object_for_persistence o)) <$> map_values (objects s)).
  { destruct Ho as [Ho|[Ho|[Ho|[Ho|[Ho|[Ho|Ho]]]]]]; try done; [by apply list_elem_of_singleton in Ho|..];
      apply list_elem_of_fmap in Ho as (? & ? & ?); discriminate. }
  apply list_elem_of_fmap in Hin as (o' & [= ->] & [k Hk]%map_values_elem). eauto.
Qed.

Lemma entry_recovers image s k o :
  objects s !! k = Some o → UpsertObject (scrub_object_for_persistence o) ∈ recovery_entries image s.
Proof.
  intros Hk. unfold recovery_entries. rewrite !elem_of_app. do 2 right. left.
  apply (list_elem_of_fmap_2 (λ o, UpsertObject (scrub_object_for_persistence o))), map_values_elem. eauto.
Qed.

Lemma objects_keyed s : objects_inv s → keyed (core <$> objects s).
Proof.
  intros Hinv k c Hk. rewrite lookup_fmap in Hk. destruct (objects s !! k) as [o|] eqn:E; [|done].
  injection Hk as <-. apply (Hinv _ _ E).
Qed.

Lemma recovery_entries_agree image s :
  objects_inv s → Forall (agrees (core <$> objects s, core <$> objects s)) (recovery_entries image s).
Proof.
  intros Hinv. apply Forall_forall. intros p Hp. destruct p; try done.
  - destruct (recovery_entry_object _ _ _ Hp) as (k & o & Hk & ->). destruct (Hinv _ _ Hk) as (Hid & _).
    intros c. cbn [snd]. change (o_id (scrub_object_for_persistence o)) with (o_id o).
    rewrite Hid, lookup_fmap, Hk. by intros [= <-].
  - unfold recovery_entries in Hp. rewrite !elem_of_app in Hp.
    destruct Hp as [Hp|[Hp|[Hp|[Hp|[Hp|[Hp|Hp]]]]]]; [by apply list_elem_of_singleton in Hp|..];
      apply list_elem_of_fmap in Hp as (? & ? & ?); discriminate.
Qed.

(** After recovery everything the engine knows is on record. *)
Lemma write_back_recorded image ep s :
  objects_inv s → epoch s = ep → in_store (λ a b, a = image ∧ b = image <| img_epoch := ep |>) s →
  on_record (append_many_locked (recovery_entries image s) s).1.
Proof.
  intros Hinv Hep Hs. exists (core <$> objects s).
  split_and!; [by apply objects_keyed|done|by rewrite append_many_locked_live|].
  intros st Hc Hst Hh. destruct (in_store_append_many _ _ s Hs st Hc Hst Hh) as (a & b & es & [-> ->] & Hes & -> & Hb).
  split.
  - eapply settled_epoch; [exact Hb|]. by rewrite Hes, <-Hep.
  - intros k c Hk. cbn [snd] in Hk. rewrite lookup_fmap in Hk. destruct (objects s !! k) as [o|] eqn:E; [|done].
    injection Hk as <-. eapply (holds_at_written (core <$> objects s, core <$> objects s)); [exact Hb| | | |].
    + cbn [snd]. by rewrite lookup_fmap, E.
    + rewrite Hes. by apply recovery_entries_agree.
    + rewrite Hes. by eapply entry_recovers.
    + apply (Hinv _ _ E).
Qed.

Lemma recover_recorded st load image s :
  accepted st = image → on_record (recover load image (s <| store := Some st |>)).1.
Proof.
  intros Hst. unfold recover.
  match goal with |- context [restore_image image ?p ?r ?x] =>
    pose proof (restore_image_frame image p r x) as Hv;
    pose proof (restored_objects_inv _ _ (restore_image_restored image p r x eq_refl eq_refl eq_refl)) as Hinv;
    destruct (restore_image image p r x) as [[s1 rep] bad] end.
  cbn [fst] in Hv, Hinv. unfold recovery_frame in Hv. simpl in Hv. injection Hv as Hc Hs Hd Hh He _ _.
  set (s2 := retotal_participant_regions_locked _).
  assert (Hw : on_record (append_many_locked (recovery_entries image s2) s2).1).
  { apply (write_back_recorded image (next_epoch image (config s))); [exact Hinv|exact He|].
    intros st' _ Hst' _. change (store s1 = Some st') in Hst'. rewrite Hs in Hst'. injection Hst' as <-.
    split; [done|]. exact Hd. }
  destruct (append_many_locked _ s2) as [s3 w]. cbn [fst] in Hw. destruct Hw as [m Hm]. exists m.
  destruct (ok w); journal_step; hold; apply durably_compact; [done|].
  by eapply durably_unhealthy; [..|exact Hm].
Qed.

(** ** Every step *)

Lemma exec_recorded o s : fresh_object s → on_record s → on_record (exec o s).
Proof.
  intros Hf Hr. destruct o; cbn [exec]; try (by apply register_object_recorded);
  destruct Hr as [m Hs]; exists m;
  by first [apply create_domain_durably | apply register_participant_durably | apply mark_session_closed_durably
    | apply fence_participant_durably | apply set_policy_durably | apply register_region_durably
    | apply retire_region_durably | apply resolve_recovery_durably | apply retire_object_durably
    | apply acquire_read_durably | apply explain_read_durably | apply acquire_write_durably | apply mark_dirty_durably
    | apply invalidate_durably | apply acknowledge_durably | apply revalidate_durably | apply release_durably
    | apply begin_sync_durably | apply complete_sync_durably | apply fail_sync_durably
    | apply begin_shutdown_durably | apply complete_shutdown_durably | apply flush_durably].
Qed.

Definition journalled (sys : @Sys St) : Prop :=
  on_record (sys_engine sys) ∧ Forall (λ f, records_publication f.1) (sys_flights sys).

Lemma step_journalled P sys sys' : step P sys sys' → fresh_object (sys_engine sys) → journalled sys → journalled sys'.
Proof.
  intros Hstep Hf [Hr Hfl]. destruct Hstep as [s fs o|s fs req s' l E|s fs req s' a E|s fs1 fs2 l s' c E|s fs1 fs2 l c s' a E|s fs st s' a HP E];
    simpl in *.
  - split; [by apply exec_recorded|done].
  - destruct Hr as [m Hs]. destruct (publish_reserve_durably (m, m) req s Hs) as [Hd Hl]. rewrite E in Hd, Hl.
    split; [by exists m|]. apply Forall_app. split; [done|]. apply Forall_singleton. by apply Hl.
  - destruct Hr as [m Hs]. destruct (publish_reserve_durably (m, m) req s Hs) as [Hd _]. rewrite E in Hd. split; [by exists m|done].
  - apply Forall_app in Hfl as [? [Hl ?]%Forall_cons]. destruct Hr as [m Hs].
    pose proof (publish_durable_durably (m, m) l s Hl Hs) as Hd. rewrite E in Hd.
    split; [by exists m|]. apply Forall_app. split; [done|by apply Forall_cons].
  - apply Forall_app in Hfl as [? [Hl ?]%Forall_cons]. pose proof (publish_commit_recorded l c s Hl Hr) as Hd. rewrite E in Hd.
    split; [done|by apply Forall_app].
  - split; [|done]. apply attach_store_cases in E as [->|(_ & st' & load & image & rep & Ho & _ & ->)]; [done|].
    by apply recover_recorded, (open_accepted _ _ _ _ Ho).
Qed.

Lemma make_engine_journalled cfg : journalled (mkSys (make_engine cfg) []).
Proof.
  split; [|constructor]. exists ∅. split_and!; [|done|apply fmap_empty|].
  { intros k c Hk. cbn [fst] in Hk. by rewrite lookup_empty in Hk. }
  intros st _ Hst. discriminate Hst.
Qed.

(** A step while the next object identity is unused, as it is until the counter
    of object identities wraps. *)
Definition fresh_step (P : DurableImage → Prop) (sys sys' : Sys) : Prop :=
  step P sys sys' ∧ fresh_object (sys_engine sys).

Lemma run_journalled P cfg sys : rtc (fresh_step P) (mkSys (make_engine cfg) []) sys → journalled sys.
Proof.
  pose proof (make_engine_journalled cfg) as Hinv. revert Hinv. generalize (mkSys (@make_engine St cfg) []).
  intros sys0 Hinv Hrun. induction Hrun as [|x y z [Hxy Hf] _ IH]; [done|]. apply IH. by eapply step_journalled.
Qed.

End versions.

(** The run up to the published version meets no identity twice. *)
Fixpoint fresh_along {St} `{DurableStore St} (os : list op) (s : Impl (Recorded St)) : Prop :=
  match os with [] => True | o :: os => fresh_object s ∧ fresh_along os (exec o s) end.

Lemma fresh_ops {St} `{DurableStore St} P (sys0 : @Sys (Recorded St)) s fs os :
  rtc (fresh_step P) sys0 (mkSys s fs) → fresh_along os s → rtc (fresh_step P) sys0 (mkSys (run os s) fs).
Proof.
  revert s. induction os as [|o os IH]; intros s Hs Hf; [done|]. destruct Hf as [Hf Hr]. apply (IH (exec o s)); [|done].
  eapply rtc_r; [exact Hs|]. split; [apply step_op|done].
Qed.

(** Alpha's run over the memory store of the program, in its phases. *)
Definition m_locals : PublishLocals :=
  match (publish_reserve publish_a m_write).2 with inr l => l | inl _ => no_locals end.
Definition m_reserved : MemoryEngine := (publish_reserve publish_a m_write).1.
Definition m_appended : MemoryEngine := (publish_durable m_locals m_reserved).1.

Lemma m_published_fresh : rtc (fresh_step (λ _, True)) (mkSys m_fresh []) (mkSys m_published []).
Proof.
  assert (Ha : rtc (fresh_step (λ _, True)) (mkSys m_fresh []) (mkSys m_attached [])).
  { apply rtc_once. split; [|by vm_compute]. apply (step_attach _ m_fresh [] m_store m_attached (attach_store m_store m_fresh).2); [done|].
    unfold m_attached. by destruct (attach_store _ _). }
  assert (Hw : rtc (fresh_step (λ _, True)) (mkSys m_fresh []) (mkSys m_write [])).
  { apply fresh_ops; [apply fresh_ops; [exact Ha|]|]; repeat split; vm_compute; reflexivity. }
  eapply rtc_r; [eapply rtc_r; [eapply rtc_r; [exact Hw|]|]|].
  - split; [|by vm_compute]. apply (step_reserve _ m_write [] publish_a m_reserved m_locals). by vm_compute.
  - split; [|by vm_compute]. apply (step_append _ m_reserved [] [] m_locals m_appended StatusCode.Ok). by vm_compute.
  - split; [|by vm_compute].
    apply (step_commit _ m_appended [] [] m_locals StatusCode.Ok m_published (publish publish_a m_write).2). by vm_compute.
Qed.

(** The store at that moment, and an engine that attaches its bytes: the memory
    store decodes them again. *)
Definition m_kept : Recorded MemoryDurableStore := default m_store (store m_published).
Definition m_bytes : MemoryDurableStore := rc_store m_kept <| ms_opened := false |>.
Definition m_again : Impl MemoryDurableStore := (attach_store m_bytes (make_engine default_EngineConfig)).1.

